(* ===== verification/_CoqProject ===== *)
-Q . S2P
Prelude.v
BTree.v
BTreeOrder.v
BTreeInv.v
BTreeDelete.v
BTreeThms.v
Expiration.v
WalTypes.v
Store.v
StoreProps.v
StoreThms.v
Os.v
WalCodec.v
Codec.v
WalRecovery.v
WalRecoveryProps.v
WalRecoveryThms.v
WalWriter.v
WalThms.v
WalProps.v
WalHooks.v
WalQuiet.v
Standalone.v
StandaloneThms.v
RaftLog.v
Raft.v
RaftProps.v
RaftInstances.v
RaftThms.v
RaftDriver.v
RaftElection.v
RaftSpec.v
RaftSpecThms.v
Protocol.v
Handler.v
ServerThms.v
ClusterStore.v
ClusterThms.v
RaftDurable.v
RaftRestart.v
RaftLocal.v
RaftCluster.v
RaftClusterRun.v
RaftSim.v
RaftSimSteps.v
RaftSafety.v
RaftNode.v
RaftNodeThms.v
Mtls.v
Cachey.v
CacheyThms.v
Cacheyd.v
CacheydThms.v
RaftTransport.v
RaftTransportThms.v
HotStuffTypes.v
HotStuff.v
HotStuffProps.v
HotStuffInstances.v
HotStuffHash.v
HotStuffThms.v
HotStuffQuorum.v
HotStuffMoves.v
HotStuffCommit.v
HotStuffTree.v
HotStuffSafe.v
HotStuffTotal.v
HotStuffFork.v
HotStuffTransport.v
HotStuffTransportThms.v
HotStuffConnect.v
HotStuffTls.v
HotStuffListener.v
RaftListener.v
HotStuffStore.v
HotStuffStoreThms.v
HotStuffNode.v
HotStuffDurable.v
HotStuffNodeThms.v
Harness.v
