(* ===== verification/Prelude.v ===== *)
(** * Cachey: verification development

    Cachey is a key-value cache server with expiring keys. It keeps its data in a
    map with a B+ tree of expiration times, logs mutations to a write-ahead log,
    speaks one JSON object per line to its clients, and can replicate the store
    with either of two consensus engines, Raft (crash faults) and chained HotStuff
    (Byzantine faults). This library models the program file by file, as
    executable definitions, and proves the properties that make its parts correct.

    ** The parts, their files and the code they model (paths under src/)

    - The B+ tree, internal/btree: [BTree] (nodes, search, splits, borrowing,
      merging, scans over the chained leaves); [BTreeOrder], [BTreeInv],
      [BTreeDelete] (the order, the shape invariant, the lemmas of each node
      operation); [BTreeThms] (C2, C3, C5, C24: every tree operation refines
      a sorted list of entries, keeps the invariant and never panics; whatever was
      inserted and deleted, all leaves are at one logarithmic depth).
    - The expiration index, internal/expiration: [Expiration], with the class
      [ExpirationIndex] and its laws, the interface the store is proved against;
      the B+ tree discharges them.
    - The store, internal/store: [Store] (operations), [StoreProps] (invariant and
      the refinement of a timed map), [StoreThms] (C8, C10, C11: what each
      operation does on every branch; also the snapshot round trip, replay over a
      snapshot and recovery of the exact state).
    - The write-ahead log, internal/wal: [WalTypes] (records, the codec class and
      its laws), [Os] (a directory with calls that fail or crash, and the images of it
      that a crash can leave of what was not synced), [WalRecovery],
      [WalWriter] (the writer's state machine and the rotation manager);
      [WalRecoveryProps], [WalRecoveryThms], [WalThms], [WalProps] (C15, C17,
      C18: recovery restores what was logged and can itself crash at any point;
      acknowledged records survive a crash because they were synced, also during a
      rotation, whose snapshot stands for what it replaces; order of held
      mutations); [WalHooks] (recovery into a state whose hooks can fail),
      [WalQuiet] (a rotation acknowledges nothing that was not held).
      [WalCodec] and [Codec] are concrete codecs that meet the laws.
    - The standalone server, runStandalone of cmd/cacheyd/main.go: [Standalone]
      (recovery into a new store, the store over the running log, rotations),
      [StandaloneThms] (C14: store, writer, manager and recovery together; started
      on a directory, serving, crashing at any file call and started again, the
      server has the store of its acknowledged requests, as long as no file call
      fails and nothing expires).
    - Raft, internal/raft: [RaftLog] (log and messages), [Raft] (a node's state and
      handlers), [RaftProps], [RaftInstances], [RaftThms] (C21: the invariant of a
      node under every input and every replication, with the one panic there is; also application in log order, commitment by a
      majority, the effect of AppendEntries, what a leader sends), [RaftDriver] (the
      election timer: no candidacy within a timeout of its setting, and one within
      two when nothing sets it anew), [RaftElection]
      (C7: at most one leader per term in a cluster whose messages are lost,
      repeated and reordered), [RaftDurable], [RaftRestart] (C13: what a node has
      saved gives its log and membership back, when its saves succeed and failed
      appends leave nothing behind).
    - Raft as a protocol: [RaftSpec] (an abstract Raft, as steps over whole logs),
      [RaftSpecThms] (its invariant: log matching, leader completeness, agreement
      of what is committed), [RaftLocal] (each handler by what it does to the whole
      log behind a compacted one; the class [Replay], what is asked of a state
      machine), [RaftCluster], [RaftClusterRun] (nodes and the messages between
      them; a run), [RaftSim], [RaftSimSteps] (every step of a cluster is made of
      steps of the protocol), [RaftSafety] (C1, C22, C23: all state machines
      execute one sequence of commands; the refinement; a leader has all that was
      applied before its term). The membership is fixed there and nodes do not
      restart; logs are compacted and snapshots sent.
    - The Raft node on disk, internal/server/raftnode.go and the file stores of
      internal/raft/snapshot.go and meta.go: [RaftNode], [RaftNodeThms] (C19:
      opening a node is recovery from its directory).
    - The Raft transport, internal/raft/tcp_transport.go, and internal/mtls: [Mtls]
      (names, identities, the configurations of listener and dialer),
      [RaftTransport] (framing, dispatch, the connections that concurrent calls
      share), [RaftTransportThms] (C25: a call gets the reply to its own request;
      C36: only members reach the node's RPCs); [RaftListener] (the accept loop and
      Close as interleaved goroutines: Close returns; inbound connections outlive it).
    - The client protocol and the handlers, internal/protocol, internal/server,
      pkg/client: [Protocol], [Handler], [ServerThms] (C28, C30: a pipelining
      client reads back what the store did; the member registry and JOIN are out of a
      client's reach; also redirects).
    - The command-line client, cmd/cachey: [Cachey] (words, commands, the session
      that redials and follows redirects, the shell), [CacheyThms] (C9, C29:
      the shell prints what executing the typed commands gives, over the
      connection loop and handlers of the server; a session reaches the leader of a
      cluster; also, a typed command is the one sent).
    - The server command, cmd/cacheyd: [Cacheyd] (flags, TLS material, polling,
      bootstrapping and joining of a cluster node), [CacheydThms] (C16, C20:
      the start of a node ends unless a control call hangs; plaintext is served only
      on request; also, a
      node finds the leader through any member).
    - The replicated store, internal/server/cluster.go and cluster_control.go:
      [ClusterStore], [ClusterThms] (C31 to C33: an acknowledged write is applied
      while the leader stays in office; reads see a committed prefix; join
      requests act for the identity that the connection proves).
    - HotStuff, internal/hotstuff: [HotStuffTypes] (blocks, certificates, messages,
      signatures, validator sets), [HotStuff] (a replica's state and handlers),
      [HotStuffProps] (frames), [HotStuffInstances] (a runnable cluster of four),
      [HotStuffThms] (C34, C35: a replica votes at most once per height over any
      run, also across a restart, self-votes of a leader apart, which are counted
      and shown to be the exception), [HotStuffQuorum] (C37: membership changes and
      the intersection of quorums), [HotStuffMoves] (every handler is a
      sequence of a few elementary moves), [HotStuffCommit] (C38: executed
      blocks are ancestors of a three-chain of authentic blocks that a valid
      certificate closes; a view is entered on a quorum's evidence alone), [HotStuffTree], [HotStuffSafe],
      [HotStuffTotal] (C40: the block tree is well-founded, and every run of a
      replica goes on without a panic).
      [HotStuffFork] is a run in which one Byzantine leader makes two correct
      replicas execute conflicting blocks: the three-chain of the commit rule may
      skip heights. [HotStuffHash] is a hash for examples.
    - The HotStuff transport, internal/hotstuff/tcp_transport.go:
      [HotStuffTransport], [HotStuffTransportThms] (C27: what a validator sends on
      a connection is what the replica handles, in order); [HotStuffConnect] (a node
      that starts connects to every peer that answers); [HotStuffTls] (its TLS
      configurations: a dialled peer has a certificate for its name, and a client acts
      on the replica only as a configured validator); [HotStuffListener]
      (the goroutines that share the transport, step by step;
      C12: after Close they all end and every accepted connection is closed).
    - The store and the durable node over HotStuff, internal/server
      hotstuff_cluster.go and hotstuff_node.go: [HotStuffStore],
      [HotStuffStoreThms] (C6: on the volatile executor, an acknowledged command is among the
      committed ones the store has executed), [HotStuffNode], [HotStuffDurable] (C4:
      a restart from a log that recovery accepts gives back the store; what it does
      not accept), [HotStuffNodeThms] (the checkpoint is replaced atomically, and is
      durable once written).
    - The task harness, internal/harness and cmd/harness, a tool of the repository
      that runs an agent and the project's checks in turn: [Harness] (configuration,
      prompts, the loop, the summary and exit status; C26: the loop
      is bounded, passes failures on and reports success only on passed checks; C39:
      a configuration that is accepted is well formed).

    ** How code becomes definitions

    A mutex makes a locked section one step, so every handler is a function from
    the state to the state; a handler that drops its lock around an RPC is split
    there. Goroutines, timers and the network are the order in which inputs arrive.
    Readings of the clock are arguments. A panic (nil dereference, index out of
    range) is [None]; an error is the [Err] of [result]. Integers that can
    overflow (expiration times, HotStuff heights, views and epochs) keep their
    width with the wrap-around written out; Raft's indices and terms count entries
    and elections and are natural numbers. encoding/json, SHA-256 and Ed25519 are
    classes; theorems that rely on them name what they rely on, and every theorem
    with hypotheses has a witness at concrete instances.

    ** Files and crashes

    A running program sees the directory as its calls left it. What a crash leaves
    is one of a set of images: bytes that were written and not synced are there in
    part or not at all, a rename, creation or removal of a file is there or not until
    the directory is synced, and renamed files can be there with data missing. [Os]
    computes the set, every call takes its outcome (success, an error, a crash and the
    image it leaves) from a script, and the theorems about crashes hold for every
    script and every image. The one assumption beyond POSIX is that an fsync of a new
    file makes its directory entry durable, as the usual Linux file systems do.

    ** Fuel

    Recursions that are not structural take fuel. The B+ tree's take the height of
    the tree, for which the invariant of the tree is shown to be enough; the
    writer's loops take the length of their queue. A HotStuff walk along parent
    links takes one more than the number of blocks in the tree, the insertion
    worklist one more than the number of parked blocks, and the recursion over
    unblocked proposals one more than the number of pending proposals. A wait of
    the server command takes as many polls as its timeout has sleeps, and two (602
    for the longest); connecting to all peers takes one attempt more than there are
    sleeps until its deadline. The configuration of the harness takes the number of
    lines of its file.

    ** Not modelled

    Sockets, TLS sessions and certificate verification (calls into the Go library;
    how they end is an argument of the definitions), the flag package and the help
    texts of the main programs, signals, the test certificate authority of
    internal/mtls/testca (calls into crypto/x509), log output, and the exact text of error messages beyond their fixed part. *)

From Hammer Require Export Tactics.
From Stdlib Require Export Lia.
From stdpp Require Export sorting numbers strings base gmap sets list.

#[export] Set Warnings "-clear-no-such-hyp".

#[global] Set Default Proof Using "Type".

Declare Scope cachey_scope.
Delimit Scope cachey_scope with cachey.

(** ** Machine integers

    Go's [int64] arithmetic wraps around; a value is a [Z] in
    [[-2^63, 2^63)]. *)

Definition int64_wrap (z : Z) : Z := ((z + 2 ^ 63) `mod` 2 ^ 64 - 2 ^ 63)%Z.

Definition is_int64 (z : Z) : Prop := (- 2 ^ 63 <= z < 2 ^ 63)%Z.

Lemma int64_wrap_range (z : Z) : is_int64 (int64_wrap z).
Proof.
  unfold is_int64, int64_wrap.
  pose proof (Z.mod_pos_bound (z + 2 ^ 63) (2 ^ 64) ltac:(lia)). lia.
Qed.

Lemma int64_wrap_id (z : Z) : is_int64 z -> int64_wrap z = z.
Proof.
  unfold is_int64, int64_wrap. intros H. rewrite Z.mod_small by lia. lia.
Qed.

(** ** Errors

    One constructor per sentinel error value the program compares with or
    returns across packages; [Wrapped] is an error built with [fmt.Errorf] or
    [errors.New] at the place it is returned, known by the fixed part of its text
    only. *)

Inductive error : Type :=
  | Status (code : N) (message : string)  (* *protocol.Status *)
  | RaftNotLeader                         (* raft.ErrNotLeader *)
  | HotStuffNotLeader                     (* hotstuff.ErrNotLeader *)
  | HotStuffBusy                          (* hotstuff.ErrBusy *)
  | HotStuffUnknownBlock                  (* hotstuff.ErrUnknownBlock *)
  | WalBusy                               (* wal.ErrBusy *)
  | WalClosed                             (* wal.ErrClosed *)
  | BTreeNotFound                         (* btree.ErrNotFound *)
  | CtxDone                               (* ctx.Err(): cancelled or expired *)
  | IOError                               (* an error of the os package *)
  | Wrapped (text : string).

#[export] Instance error_eq_dec : EqDecision error.
Proof. solve_decision. Defined.

(** Fallible Go functions return a value or a non-nil error. *)
Inductive result (A : Type) : Type :=
  | Ok (a : A)
  | Err (e : error).
Arguments Ok {A} _.
Arguments Err {A} _.

Definition result_bind {A B : Type} (r : result A) (f : A -> result B) : result B :=
  match r with Ok a => f a | Err e => Err e end.

Notation "'try' x <- c1 ; c2" := (result_bind c1 (fun x => c2))
  (at level 60, x pattern, c1 at next level, right associativity) : cachey_scope.

(** ** Tactics *)

(** Split the conjunctions and boolean tests in the context into facts about
    [Z] and [nat]. *)
Ltac bool_to_prop :=
  repeat match goal with
  | H : _ /\ _ |- _ => destruct H
  | H : (_ && _)%bool = true |- _ => apply andb_true_iff in H
  | H : (_ && _)%bool = false |- _ => apply andb_false_iff in H
  | H : (_ || _)%bool = true |- _ => apply orb_true_iff in H
  | H : (_ || _)%bool = false |- _ => apply orb_false_iff in H
  | H : negb _ = true |- _ => apply negb_true_iff in H
  | H : negb _ = false |- _ => apply negb_false_iff in H
  | H : (_ <? _)%nat = true |- _ => apply Nat.ltb_lt in H
  | H : (_ <? _)%nat = false |- _ => apply Nat.ltb_ge in H
  | H : (_ <=? _)%nat = true |- _ => apply Nat.leb_le in H
  | H : (_ <=? _)%nat = false |- _ => apply Nat.leb_gt in H
  | H : (_ =? _)%nat = true |- _ => apply Nat.eqb_eq in H
  | H : (_ =? _)%nat = false |- _ => apply Nat.eqb_neq in H
  | H : (_ <? _)%Z = true |- _ => apply Z.ltb_lt in H
  | H : (_ <? _)%Z = false |- _ => apply Z.ltb_ge in H
  | H : (_ <=? _)%Z = true |- _ => apply Z.leb_le in H
  | H : (_ <=? _)%Z = false |- _ => apply Z.leb_gt in H
  | H : (_ =? _)%Z = true |- _ => apply Z.eqb_eq in H
  | H : (_ =? _)%Z = false |- _ => apply Z.eqb_neq in H
  | H : String.eqb _ _ = true |- _ => apply String.eqb_eq in H
  | H : String.eqb _ _ = false |- _ => apply String.eqb_neq in H
  | H : bool_decide _ = true |- _ => apply bool_decide_eq_true in H
  | H : bool_decide _ = false |- _ => apply bool_decide_eq_false in H
  end.

(** Case analysis on the scrutinee of a [match] or an [if] of the goal or of a
    hypothesis, keeping its equation. *)
Ltac case_goal :=
  match goal with
  | |- context [match ?x with _ => _ end] => destruct x eqn:?
  end.
Ltac case_in H :=
  match type of H with
  | context [match ?x with _ => _ end] => destruct x eqn:?
  end.

Create HintDb cachey.

(** ** Generic lemmas on lists *)

Section lists.
Context {A B : Type}.

(** Apply [f] to the element at an index; [None] out of range (where a Go
    slice index panics) or where [f] fails. It recurses on the list in a way
    that lets a recursive function over nested data call itself through it. *)
Definition at_index (f : A -> option B) : list A -> nat -> option B :=
  fix go (l : list A) (i : nat) :=
    match l, i with
    | [], _ => None
    | x :: _, O => f x
    | _ :: l', S i' => go l' i'
    end.

Lemma at_index_lookup (f : A -> option B) (l : list A) (i : nat) :
  at_index f l i = l !! i ≫= f.
Proof. revert i. induction l as [|x l IH]; intros [|i]; simpl; auto. Qed.

(** [insert_at l i x] places [x] at index [i], shifting the tail right. *)
Definition insert_at (l : list A) (i : nat) (x : A) : list A :=
  take i l ++ x :: drop i l.

(** [remove_at l i] drops the element at index [i]. *)
Definition remove_at (l : list A) (i : nat) : list A :=
  take i l ++ drop (S i) l.

Lemma length_insert_at (l : list A) (i : nat) (x : A) :
  length (insert_at l i x) = S (length l).
Proof.
  unfold insert_at. rewrite length_app. simpl. rewrite length_take, length_drop. lia.
Qed.

Lemma length_remove_at (l : list A) (i : nat) :
  i < length l -> length (remove_at l i) = length l - 1.
Proof.
  intros H. unfold remove_at. rewrite length_app, length_take, length_drop. lia.
Qed.

Lemma lookup_split (l : list A) (i : nat) (x : A) :
  l !! i = Some x -> exists l1 l2, l = l1 ++ x :: l2 /\ length l1 = i.
Proof.
  intros H. exists (take i l), (drop (S i) l). split.
  - symmetry. by apply take_drop_middle.
  - rewrite length_take. apply lookup_lt_Some in H. lia.
Qed.

Lemma insert_at_middle (l1 l2 : list A) (x : A) (i : nat) :
  i = length l1 -> insert_at (l1 ++ l2) i x = l1 ++ x :: l2.
Proof. intros ->. unfold insert_at. by rewrite take_app_length, drop_app_length. Qed.

Lemma remove_at_middle (l1 l2 : list A) (x : A) (i : nat) :
  i = length l1 -> remove_at (l1 ++ x :: l2) i = l1 ++ l2.
Proof.
  intros ->. unfold remove_at. rewrite take_app_length. f_equal.
  by rewrite (cons_middle x), app_assoc, drop_app_length' by (rewrite length_app; simpl; lia).
Qed.

Lemma insert_middle (l1 l2 : list A) (x y : A) (i : nat) :
  i = length l1 -> <[i := y]> (l1 ++ x :: l2) = l1 ++ y :: l2.
Proof. intros ->. by rewrite insert_app_r_alt, Nat.sub_diag by lia. Qed.

Lemma lookup_middle (l1 l2 : list A) (x : A) (i : nat) :
  i = length l1 -> (l1 ++ x :: l2) !! i = Some x.
Proof. intros ->. by apply list_lookup_middle. Qed.
End lists.

(** ** Texts as characters *)

Lemma list_ascii_app (s t : string) :
  String.list_ascii_of_string (s +:+ t) = String.list_ascii_of_string s ++ String.list_ascii_of_string t.
Proof. induction s as [|c s IH]; simpl; [done|by rewrite IH]. Qed.
