(* ===== verification/BTree.v ===== *)
(** * B+tree (internal/btree): the TTL expiration index's data structure

    The tree of [node.go], [tree.go] and [iterator.go]: leaves hold the
    entries and are chained by [next] pointers for range scans, internal nodes
    hold separators and children. A leaf carries the address that other
    leaves' [next] pointers name; internal nodes are reachable through their
    parent only, so they need none. Every slice index that Go would check at
    run time is checked here: [None] is a panic, and the theorems show that it
    never happens on a well-formed tree. *)

From S2P Require Import Prelude.

#[local] Set Warnings "-register-all".

(** ** Entries and their order (node.go) *)

Record Expiration : Type := mkExpiration { Key : string; Exp : Z }.

#[export] Instance Expiration_eq_dec : EqDecision Expiration.
Proof. solve_decision. Defined.

#[export] Instance Expiration_countable : Countable Expiration.
Proof.
  apply (inj_countable' (fun e => (Key e, Exp e)) (fun p => mkExpiration p.1 p.2)).
  by intros [].
Defined.

Definition less (a b : Expiration) : bool :=
  if negb (Exp a =? Exp b)%Z then (Exp a <? Exp b)%Z else String.ltb (Key a) (Key b).

Definition equal (a b : Expiration) : bool :=
  (Exp a =? Exp b)%Z && String.eqb (Key a) (Key b).

Definition order : nat := 8.
Definition maxKeys : nat := order - 1.
Definition minKeys : nat := maxKeys / 2.

(** ** Nodes (node.go) *)

Definition addr := nat.

Inductive node : Type :=
  | Leaf (a : addr) (keys : list Expiration) (next : option addr)
  | Internal (keys : list Expiration) (children : list node).

Definition leaf (n : node) : bool := match n with Leaf _ _ _ => true | _ => false end.

Definition keys (n : node) : list Expiration :=
  match n with Leaf _ ks _ => ks | Internal ks _ => ks end.

Definition children (n : node) : list node :=
  match n with Leaf _ _ _ => [] | Internal _ cs => cs end.

Definition next (n : node) : option addr :=
  match n with Leaf _ _ nx => nx | Internal _ _ => None end.

Definition with_keys (n : node) (ks : list Expiration) : node :=
  match n with Leaf a _ nx => Leaf a ks nx | Internal _ cs => Internal ks cs end.

Definition with_children (n : node) (cs : list node) : node :=
  match n with Leaf a ks nx => Leaf a ks nx | Internal ks _ => Internal ks cs end.

Definition with_next (n : node) (nx : option addr) : node :=
  match n with Leaf a ks _ => Leaf a ks nx | Internal ks cs => Internal ks cs end.

(** The two binary searches are one loop that differs in its test: [goright]
    says whether the search continues to the right of [keys[mid]]. The fuel
    [hi - lo] is the loop's variant. *)
Fixpoint bsearch (goright : Expiration -> bool) (ks : list Expiration)
    (fuel lo hi : nat) : nat :=
  match fuel with
  | O => lo
  | S fuel' =>
      if (lo <? hi)%nat then
        let mid := (lo + hi) / 2 in
        match ks !! mid with
        | None => lo
        | Some k =>
            if goright k then bsearch goright ks fuel' (mid + 1) hi
            else bsearch goright ks fuel' lo mid
        end
      else lo
  end.

Definition lowerBound (ks : list Expiration) (target : Expiration) : nat :=
  bsearch (fun k => less k target) ks (length ks) 0 (length ks).

Definition childIndex (ks : list Expiration) (target : Expiration) : nat :=
  bsearch (fun k => negb (less target k)) ks (length ks) 0 (length ks).

Definition underflow (n : node) : bool := (length (keys n) <? minKeys)%nat.
Definition canLend (n : node) : bool := (minKeys <? length (keys n))%nat.

Definition insertKey (ks : list Expiration) (idx : nat) (key : Expiration) : list Expiration :=
  insert_at ks idx key.
Definition insertChild (cs : list node) (idx : nat) (child : node) : list node :=
  insert_at cs idx child.

(** ** Insertion (tree.go) *)

Record splitResult : Type := mkSplit { key : Expiration; right : node }.

(** [fresh] is the address of the leaf that [newLeaf] allocates. *)
Definition splitLeaf (fresh : addr) (n : node) : option (node * option splitResult) :=
  let mid := length (keys n) / 2 in
  let r := Leaf fresh (drop mid (keys n)) (next n) in
  let n' := with_next (with_keys n (take mid (keys n))) (Some fresh) in
  k ← keys r !! 0;
  Some (n', Some (mkSplit k r)).

Definition splitInternal (n : node) : option (node * option splitResult) :=
  let mid := length (keys n) / 2 in
  promoted ← keys n !! mid;
  let r := Internal (drop (mid + 1) (keys n)) (drop (mid + 1) (children n)) in
  let n' := with_children (with_keys n (take mid (keys n))) (take (mid + 1) (children n)) in
  Some (n', Some (mkSplit promoted r)).

Fixpoint node_insert (fresh : addr) (target : Expiration) (n : node)
    : option (node * option splitResult) :=
  match n with
  | Leaf a ks nx =>
      let idx := lowerBound ks target in
      if match ks !! idx with Some k => equal k target | None => false end
      then Some (n, None)
      else
        let n' := Leaf a (insertKey ks idx target) nx in
        if (length (keys n') <=? maxKeys)%nat then Some (n', None)
        else splitLeaf fresh n'
  | Internal ks cs =>
      let idx := childIndex ks target in
      '(c, split) ← at_index (node_insert fresh target) cs idx;
      match split with
      | None => Some (Internal ks (<[idx := c]> cs), None)
      | Some s =>
          let n' := Internal (insertKey ks idx (key s))
                             (insertChild (<[idx := c]> cs) (idx + 1) (right s)) in
          if (length (keys n') <=? maxKeys)%nat then Some (n', None)
          else splitInternal n'
      end
  end.

(** ** Deletion (tree.go) *)

(** The node [n] whose child at [idx] may have underflowed is given by its
    separators and children. *)
Definition borrowFromLeft (ks : list Expiration) (cs : list node) (idx : nat)
    : option node :=
  child ← cs !! idx;
  left ← cs !! (idx - 1);
  if leaf child then
    let last := length (keys left) - 1 in
    moved ← keys left !! last;
    let left' := with_keys left (take last (keys left)) in
    let child' := with_keys child (insertKey (keys child) 0 moved) in
    k0 ← keys child' !! 0;
    Some (Internal (<[idx - 1 := k0]> ks) (<[idx := child']> (<[idx - 1 := left']> cs)))
  else
    let lastKey := length (keys left) - 1 in
    let lastChild := length (children left) - 1 in
    movedChild ← children left !! lastChild;
    sep ← ks !! (idx - 1);
    let child' := with_children (with_keys child (insertKey (keys child) 0 sep))
                                (insertChild (children child) 0 movedChild) in
    up ← keys left !! lastKey;
    let left' := with_children (with_keys left (take lastKey (keys left)))
                               (take lastChild (children left)) in
    Some (Internal (<[idx - 1 := up]> ks) (<[idx := child']> (<[idx - 1 := left']> cs))).

Definition borrowFromRight (ks : list Expiration) (cs : list node) (idx : nat)
    : option node :=
  child ← cs !! idx;
  right ← cs !! (idx + 1);
  if leaf child then
    moved ← keys right !! 0;
    let right' := with_keys right (drop 1 (keys right)) in
    let child' := with_keys child (keys child ++ [moved]) in
    k0 ← keys right' !! 0;
    Some (Internal (<[idx := k0]> ks) (<[idx + 1 := right']> (<[idx := child']> cs)))
  else
    movedChild ← children right !! 0;
    sep ← ks !! idx;
    let child' := with_children (with_keys child (keys child ++ [sep]))
                                (children child ++ [movedChild]) in
    up ← keys right !! 0;
    let right' := with_children (with_keys right (drop 1 (keys right)))
                                (drop 1 (children right)) in
    Some (Internal (<[idx := up]> ks) (<[idx + 1 := right']> (<[idx := child']> cs))).

Definition mergeChildren (ks : list Expiration) (cs : list node) (idx : nat)
    : option node :=
  left ← cs !! idx;
  right ← cs !! (idx + 1);
  sep ← ks !! idx;
  let left' :=
    if leaf left then with_next (with_keys left (keys left ++ keys right)) (next right)
    else with_children (with_keys left (keys left ++ [sep] ++ keys right))
                       (children left ++ children right) in
  Some (Internal (remove_at ks idx) (remove_at (<[idx := left']> cs) (idx + 1))).

Definition fixChild (ks : list Expiration) (cs : list node) (idx : nat) : option node :=
  child ← cs !! idx;
  if negb (underflow child) then Some (Internal ks cs)
  else if ((0 <? idx)%nat && match cs !! (idx - 1) with Some l => canLend l | None => false end)
  then borrowFromLeft ks cs idx
  else if ((idx <? length cs - 1)%nat
           && match cs !! (idx + 1) with Some r => canLend r | None => false end)
  then borrowFromRight ks cs idx
  else if (0 <? idx)%nat then mergeChildren ks cs (idx - 1)
  else mergeChildren ks cs idx.

Fixpoint node_delete (target : Expiration) (n : node) : option (bool * node) :=
  match n with
  | Leaf a ks nx =>
      let idx := lowerBound ks target in
      if match ks !! idx with Some k => equal k target | None => false end
      then Some (true, Leaf a (remove_at ks idx) nx)
      else Some (false, n)
  | Internal ks cs =>
      let idx := childIndex ks target in
      '(found, c) ← at_index (node_delete target) cs idx;
      if found : bool then
        n' ← fixChild ks (<[idx := c]> cs) idx;
        Some (true, n')
      else Some (false, n)
  end.

(** ** The tree (tree.go) *)

(** [alloc] is the allocator: the next address no leaf has. *)
Record Tree : Type := mkTree { root : node; alloc : addr }.

Definition New : Tree := mkTree (Leaf 0 [] None) 1.

Definition Insert (t : Tree) (exp : Z) (k : string) : option Tree :=
  let target := mkExpiration k exp in
  '(r, split) ← node_insert (alloc t) target (root t);
  match split with
  | None => Some (mkTree r (S (alloc t)))
  | Some s => Some (mkTree (Internal [key s] [r; right s]) (S (alloc t)))
  end.

Definition Delete (t : Tree) (exp : Z) (k : string) : option (option error * Tree) :=
  let target := mkExpiration k exp in
  '(found, r) ← node_delete target (root t);
  if found : bool then
    match r with
    | Internal _ [c] => Some (None, mkTree c (alloc t))
    | _ => Some (None, mkTree r (alloc t))
    end
  else Some (Some BTreeNotFound, t).

(** ** Iteration (iterator.go) *)

(** The descent [for !n.leaf { n = n.children[0] }]. *)
Fixpoint leftmost (n : node) : option node :=
  match n with
  | Leaf _ _ _ => Some n
  | Internal _ [] => None
  | Internal _ (c :: _) => leftmost c
  end.

Definition First (t : Tree) : option Expiration :=
  match leftmost (root t) with
  | None => None
  | Some n => keys n !! 0
  end.

(** The leaves in key order, and the leaf a [next] pointer names. *)
Fixpoint leaves (n : node) : list node :=
  match n with
  | Leaf _ _ _ => [n]
  | Internal _ cs => flat_map leaves cs
  end.

Definition deref (t : Tree) (p : addr) : option node :=
  List.find (fun l => match l with Leaf a _ _ => Nat.eqb a p | _ => false end) (leaves (root t)).

(** The inner loop of [Range] over one leaf: the entries it appends, and
    whether it returned from the function. *)
Fixpoint scan (end_ : Z) (ks : list Expiration) : list Expiration * bool :=
  match ks with
  | [] => ([], false)
  | e :: ks' =>
      if (end_ <? Exp e)%Z then ([], true)
      else let '(r, stop) := scan end_ ks' in (e :: r, stop)
  end.

(** The outer loop of [Range]; [None] only when the fuel runs out or a pointer
    names no leaf of the tree. *)
Fixpoint walk (t : Tree) (end_ : Z) (fuel : nat) (n : node) : option (list Expiration) :=
  match fuel with
  | O => None
  | S fuel' =>
      let '(r, stop) := scan end_ (keys n) in
      if stop : bool then Some r
      else match next n with
           | None => Some r
           | Some p => n' ← deref t p; rest ← walk t end_ fuel' n'; Some (r ++ rest)
           end
  end.

Definition Range (t : Tree) (end_ : Z) : option (list Expiration) :=
  match leftmost (root t) with
  | None => Some []
  | Some n => walk t end_ (length (leaves (root t))) n
  end.
