(* ===== verification/BTreeOrder.v ===== *)
(** * B+tree: the order on entries, binary search, sorted lists

    The specification of a tree is the in-order list of its entries; this file
    holds what the proofs about trees need of that list: the strict total order
    [less] defines, the two binary searches of [node.go] as positions in a
    sorted list, and insertion into and removal from a strictly sorted list. *)

From S2P Require Import Prelude BTree.

(** ** The order on entries *)

Definition lt (a b : Expiration) : Prop := less a b = true.
Definition le (a b : Expiration) : Prop := less b a = false.

Lemma string_ltb_leb (s1 s2 : string) : String.ltb s1 s2 = negb (String.leb s2 s1).
Proof.
  unfold String.ltb, String.leb. rewrite (String.compare_antisym s1 s2).
  by destruct (String.compare s2 s1).
Qed.

Lemma string_compare_refl (s : string) : String.compare s s = Eq.
Proof. pose proof (String.compare_antisym s s). by destruct (String.compare s s). Qed.

Lemma string_ltb_irrefl (s : string) : String.ltb s s = false.
Proof. unfold String.ltb. by rewrite string_compare_refl. Qed.

Lemma string_ltb_trans (s1 s2 s3 : string) :
  String.ltb s1 s2 = true -> String.ltb s2 s3 = true -> String.ltb s1 s3 = true.
Proof.
  rewrite !string_ltb_leb, !negb_true_iff. intros H1 H2.
  destruct (String.leb s3 s1) eqn:H3; [|done].
  destruct (String.leb_total s1 s2) as [H4|H4]; [|congruence].
  assert (String.le s3 s2) as H5.
  { transitivity s1; unfold String.le; by apply Is_true_true. }
  apply Is_true_true in H5. congruence.
Qed.

Lemma string_ltb_total (s1 s2 : string) :
  String.ltb s1 s2 = false -> String.ltb s2 s1 = false -> s1 = s2.
Proof.
  unfold String.ltb. intros H1 H2. apply String.compare_eq_iff.
  rewrite String.compare_antisym in H2. by destruct (String.compare s1 s2).
Qed.

Lemma equal_spec (a b : Expiration) : equal a b = true <-> a = b.
Proof.
  unfold equal. rewrite andb_true_iff, Z.eqb_eq, String.eqb_eq.
  destruct a, b; simpl; naive_solver.
Qed.

Ltac less_tac :=
  unfold lt, le, less in *; simpl in *;
  repeat match goal with
  | |- context [(Exp ?a =? Exp ?b)%Z] => destruct (Z.eqb_spec (Exp a) (Exp b)); simpl in *
  | H : context [(Exp ?a =? Exp ?b)%Z] |- _ => destruct (Z.eqb_spec (Exp a) (Exp b)); simpl in *
  end; bool_to_prop; try lia.

#[export] Instance lt_irrefl : Irreflexive lt.
Proof. intros a H. less_tac. by rewrite string_ltb_irrefl in H. Qed.

Lemma lt_irr (a : Expiration) : lt a a -> False.
Proof. apply lt_irrefl. Qed.

#[export] Instance lt_trans : Transitive lt.
Proof.
  intros a b c H1 H2. less_tac; try (apply Z.ltb_lt; lia).
  eauto using string_ltb_trans.
Qed.

#[export] Instance lt_strict : StrictOrder lt.
Proof. split; apply _. Qed.

Lemma lt_total (a b : Expiration) : less a b = false -> less b a = false -> a = b.
Proof.
  intros H1 H2. less_tac. destruct a as [ka ea], b as [kb eb]. simpl in *. subst.
  f_equal. eauto using string_ltb_total.
Qed.

Lemma le_lt_trans (a b c : Expiration) : le a b -> lt b c -> lt a c.
Proof.
  intros H1 H2. destruct (less a b) eqn:E; [by transitivity b|].
  by rewrite (lt_total a b).
Qed.

Lemma lt_le_trans (a b c : Expiration) : lt a b -> le b c -> lt a c.
Proof.
  intros H1 H2. destruct (less b c) eqn:E; [by transitivity b|].
  by rewrite <- (lt_total b c).
Qed.

Lemma lt_le (a b : Expiration) : lt a b -> le a b.
Proof.
  intros H. unfold le. destruct (less b a) eqn:E; [|done].
  exfalso. apply (lt_irr a). by transitivity b.
Qed.

Lemma le_refl (a : Expiration) : le a a.
Proof. unfold le. destruct (less a a) eqn:E; [|done]. by apply lt_irr in E. Qed.

Lemma lt_not_le (a b : Expiration) : lt a b -> ~ le b a.
Proof. unfold lt, le. congruence. Qed.

Lemma le_or_lt (a b : Expiration) : le a b \/ lt b a.
Proof. unfold le, lt. destruct (less b a); auto. Qed.

Lemma lt_Exp_le (a b : Expiration) : lt a b -> (Exp a <= Exp b)%Z.
Proof. intros H. less_tac. Qed.

#[export] Hint Resolve lt_le le_refl le_lt_trans lt_le_trans : cachey.

(** ** Binary search *)

Lemma bsearch_spec (p : Expiration -> bool) (l1 l2 : list Expiration) (fuel lo hi : nat) :
  Forall (fun k => p k = true) l1 -> Forall (fun k => p k = false) l2 ->
  lo <= length l1 <= hi -> hi <= length (l1 ++ l2) -> hi - lo <= fuel ->
  bsearch p (l1 ++ l2) fuel lo hi = length l1.
Proof.
  intros H1 H2. revert lo hi. induction fuel as [|fuel IH]; intros lo hi Hb Hh Hf.
  { simpl. lia. }
  cbn [bsearch]. cbv zeta.
  destruct (lo <? hi)%nat eqn:E; bool_to_prop; [|lia].
  assert (lo <= (lo + hi) / 2 < hi) as Hm.
  { split; [apply Nat.div_le_lower_bound | apply Nat.Div0.div_lt_upper_bound]; lia. }
  set (mid := (lo + hi) / 2) in *.
  destruct ((l1 ++ l2) !! mid) as [k|] eqn:Ek.
  2:{ apply lookup_ge_None in Ek. lia. }
  apply lookup_app_Some in Ek as [Ek|[Hge Ek]].
  - pose proof (Forall_lookup_1 _ _ _ _ H1 Ek) as Hp. simpl in Hp. rewrite Hp.
    apply lookup_lt_Some in Ek. apply IH; lia.
  - pose proof (Forall_lookup_1 _ _ _ _ H2 Ek) as Hp. simpl in Hp. rewrite Hp. apply IH; lia.
Qed.

(** A strictly sorted list splits at a target. *)
Lemma sorted_split_lt (ks : list Expiration) (t : Expiration) :
  StronglySorted lt ks ->
  exists l1 l2, ks = l1 ++ l2 /\ Forall (fun k => less k t = true) l1 /\
                Forall (fun k => less k t = false) l2.
Proof.
  induction 1 as [|k ks Hs (l1 & l2 & -> & H1 & H2) Hk].
  { exists [], []. auto. }
  destruct (less k t) eqn:E.
  - exists (k :: l1), l2. auto.
  - exists [], (k :: l1 ++ l2). split; [done|]. split; [constructor|]. constructor; [done|].
    eapply Forall_impl; [exact Hk|]. intros x Hx. apply lt_le. eapply le_lt_trans; [|done]. done.
Qed.

Lemma sorted_split_le (ks : list Expiration) (t : Expiration) :
  StronglySorted lt ks ->
  exists l1 l2, ks = l1 ++ l2 /\ Forall (fun k => less t k = false) l1 /\
                Forall (fun k => less t k = true) l2.
Proof.
  induction 1 as [|k ks Hs (l1 & l2 & -> & H1 & H2) Hk].
  { exists [], []. auto. }
  destruct (less t k) eqn:E.
  - exists [], (k :: l1 ++ l2). split; [done|]. split; [constructor|]. constructor; [done|].
    eapply Forall_impl; [exact Hk|]. intros x Hx. by apply (lt_trans t k x).
  - exists (k :: l1), l2. auto.
Qed.

Lemma lowerBound_split (l1 l2 : list Expiration) (t : Expiration) :
  Forall (fun k => less k t = true) l1 -> Forall (fun k => less k t = false) l2 ->
  lowerBound (l1 ++ l2) t = length l1.
Proof.
  intros. unfold lowerBound. apply bsearch_spec; rewrite ?length_app; auto; lia.
Qed.

Lemma childIndex_split (l1 l2 : list Expiration) (t : Expiration) :
  Forall (fun k => less t k = false) l1 -> Forall (fun k => less t k = true) l2 ->
  childIndex (l1 ++ l2) t = length l1.
Proof.
  intros H1 H2. unfold childIndex. apply bsearch_spec; rewrite ?length_app; try lia.
  - eapply Forall_impl; [exact H1|]. simpl. by intros x ->.
  - eapply Forall_impl; [exact H2|]. simpl. by intros x ->.
Qed.

(** ** Sorted lists as the specification *)

Fixpoint sorted_insert (x : Expiration) (l : list Expiration) : list Expiration :=
  match l with
  | [] => [x]
  | y :: l' => if less x y then x :: l
               else if equal x y then l else y :: sorted_insert x l'
  end.

Definition sorted_remove (x : Expiration) (l : list Expiration) : list Expiration :=
  filter (fun y => y <> x) l.

Lemma sorted_insert_app_r (x : Expiration) (l1 l2 : list Expiration) :
  Forall (fun y => lt y x) l1 -> sorted_insert x (l1 ++ l2) = l1 ++ sorted_insert x l2.
Proof.
  induction 1 as [|y l1 Hy _ IH]; [done|]. simpl.
  pose proof (lt_le _ _ Hy) as Hle. unfold le in Hle. rewrite Hle.
  destruct (equal x y) eqn:E; [|by rewrite IH].
  apply equal_spec in E as ->. by apply lt_irr in Hy.
Qed.

Lemma sorted_insert_app_l (x : Expiration) (l1 l2 : list Expiration) :
  Forall (lt x) l2 -> sorted_insert x (l1 ++ l2) = sorted_insert x l1 ++ l2.
Proof.
  intros H. induction l1 as [|y l1 IH]; simpl.
  - destruct H as [|y l2 Hy]; [done|]. simpl. unfold lt in Hy. by rewrite Hy.
  - destruct (less x y); [done|]. destruct (equal x y); [done|]. by rewrite IH.
Qed.

Lemma sorted_insert_mem (x : Expiration) (l : list Expiration) (y : Expiration) :
  StronglySorted lt l -> y ∈ sorted_insert x l <-> y = x \/ y ∈ l.
Proof.
  induction 1 as [|z l Hs IH Hz]; simpl; [set_solver|].
  destruct (less x z) eqn:E; [set_solver|].
  destruct (equal x z) eqn:E2; [apply equal_spec in E2 as ->; set_solver|].
  set_solver.
Qed.

Lemma sorted_insert_sorted (x : Expiration) (l : list Expiration) :
  StronglySorted lt l -> StronglySorted lt (sorted_insert x l).
Proof.
  induction 1 as [|z l Hs IH Hz]; simpl; [repeat constructor|].
  destruct (less x z) eqn:E.
  { constructor; [by constructor|]. constructor; [done|].
    eapply Forall_impl; [exact Hz|]. intros; by transitivity z. }
  destruct (equal x z) eqn:E2; [by constructor|].
  constructor; [done|]. apply Forall_forall. intros y Hy.
  apply sorted_insert_mem in Hy as [->|Hy]; [|rewrite Forall_forall in Hz; by apply Hz|done].
  unfold lt. destruct (less z x) eqn:E3; [done|].
  rewrite (lt_total x z) in E2 by done. pose proof (proj2 (equal_spec z z) eq_refl). congruence.
Qed.

Lemma sorted_remove_app (x : Expiration) (l1 l2 : list Expiration) :
  sorted_remove x (l1 ++ l2) = sorted_remove x l1 ++ sorted_remove x l2.
Proof. apply filter_app. Qed.

Lemma sorted_remove_absent (x : Expiration) (l : list Expiration) :
  x ∉ l -> sorted_remove x l = l.
Proof.
  intros H. unfold sorted_remove. induction l as [|y l IH]; [done|].
  rewrite filter_cons. case_decide; [|set_solver]. by rewrite IH by set_solver.
Qed.

Lemma sorted_remove_mem (x : Expiration) (l : list Expiration) (y : Expiration) :
  y ∈ sorted_remove x l <-> y <> x /\ y ∈ l.
Proof. unfold sorted_remove. by rewrite list_elem_of_filter. Qed.

Lemma sorted_filter (P : Expiration -> Prop) `{!forall x, Decision (P x)} (l : list Expiration) :
  StronglySorted lt l -> StronglySorted lt (filter P l).
Proof.
  induction 1 as [|x l Hs IH Hx]; [constructor|]. rewrite filter_cons.
  case_decide; [|done]. constructor; [done|]. apply Forall_forall.
  intros y [_ Hy]%list_elem_of_filter. rewrite Forall_forall in Hx. by apply Hx.
Qed.

Lemma sorted_remove_middle (x : Expiration) (l1 l2 : list Expiration) :
  Forall (fun y => lt y x) l1 -> Forall (lt x) l2 ->
  sorted_remove x (l1 ++ x :: l2) = l1 ++ l2.
Proof.
  intros H1 H2. rewrite sorted_remove_app. unfold sorted_remove at 2.
  rewrite filter_cons_False by naive_solver. fold (sorted_remove x l2).
  rewrite !sorted_remove_absent; [done| |].
  - intros Hx. rewrite Forall_forall in H2. by apply H2, lt_irr in Hx.
  - intros Hx. rewrite Forall_forall in H1. by apply H1, lt_irr in Hx.
Qed.
