(* ===== verification/BTreeInv.v ===== *)
(** * B+tree: the structural invariant and the node operations

    [wf h m lo hi n]: [n] is a tree of height [h] whose entries lie in
    [[lo, hi)], whose root has at least [m] keys, in which every other node has
    at least [minKeys] keys, no node has more than [maxKeys], and separators
    bound the subtrees beside them. *)

From S2P Require Import Prelude BTree BTreeOrder.

(** ** Bounds *)

Definition bound := option Expiration.

(** [lo = None] is minus infinity, [hi = None] plus infinity. *)
Definition above (lo : bound) (e : Expiration) : Prop :=
  match lo with None => True | Some l => le l e end.
Definition below (hi : bound) (e : Expiration) : Prop :=
  match hi with None => True | Some h => lt e h end.
Definition blt (lo hi : bound) : Prop :=
  match lo, hi with Some l, Some h => lt l h | _, _ => True end.

Lemma blt_trans (lo hi : bound) (k : Expiration) :
  blt lo (Some k) -> blt (Some k) hi -> blt lo hi.
Proof. destruct lo, hi; simpl; auto. apply lt_trans. Qed.

Lemma above_blt_below (lo hi : bound) (e : Expiration) : above lo e -> below hi e -> blt lo hi.
Proof. destruct lo, hi; simpl; eauto with cachey. Qed.

Lemma below_weaken (hi : bound) (k e : Expiration) :
  blt (Some k) hi -> lt e k -> below hi e.
Proof. destruct hi; simpl; [|done]. intros. by transitivity k. Qed.

Lemma above_weaken (lo : bound) (k e : Expiration) :
  blt lo (Some k) -> le k e -> above lo e.
Proof. destruct lo; simpl; eauto with cachey. Qed.

(** ** Chains: separators and children *)

Section chain.
Context (P : bound -> bound -> node -> Prop).

(** [chain lo ks cs hi]: the children [cs] fill [[lo, hi)] in order, cut at
    the separators [ks]. *)
Fixpoint chain (lo : bound) (ks : list Expiration) (cs : list node) (hi : bound) : Prop :=
  match ks, cs with
  | [], [c] => P lo hi c
  | k :: ks', c :: cs' => P lo (Some k) c /\ chain (Some k) ks' cs' hi
  | _, _ => False
  end.

(** What lies left of a child (each child with the separator after it), and
    what lies right of it. *)
Inductive lctx : bound -> list Expiration -> list node -> bound -> Prop :=
  | lctx_nil lo : lctx lo [] [] lo
  | lctx_cons lo k c ks cs lo' :
      P lo (Some k) c -> lctx (Some k) ks cs lo' -> lctx lo (k :: ks) (c :: cs) lo'.

Inductive rctx : bound -> list Expiration -> list node -> bound -> Prop :=
  | rctx_nil hi : rctx hi [] [] hi
  | rctx_cons k ks cs hi : chain (Some k) ks cs hi -> rctx (Some k) (k :: ks) cs hi.

Lemma chain_length lo ks cs hi : chain lo ks cs hi -> length cs = S (length ks).
Proof.
  revert lo cs. induction ks as [|k ks IH]; intros lo [|c cs]; simpl; try tauto.
  - destruct cs; simpl; tauto.
  - intros [_ H]. f_equal. eauto.
Qed.

Lemma lctx_length lo ks cs lo' : lctx lo ks cs lo' -> length cs = length ks.
Proof. induction 1; simpl; congruence. Qed.

Lemma lctx_last lo ks cs lo' :
  lctx lo ks cs lo' -> (ks = [] /\ cs = [] /\ lo' = lo) \/ exists k, lo' = Some k.
Proof. induction 1 as [|???????? [(?&?&?)|[??]]]; naive_solver. Qed.

Lemma rctx_length hi ks cs hi' : rctx hi ks cs hi' -> length cs = length ks.
Proof. inversion 1; subst; [done|]. simpl. by eapply chain_length. Qed.

Lemma chain_plug lo ks1 cs1 lo' ks cs hi' ks2 cs2 hi :
  lctx lo ks1 cs1 lo' -> chain lo' ks cs hi' -> rctx hi' ks2 cs2 hi ->
  chain lo (ks1 ++ ks ++ ks2) (cs1 ++ cs ++ cs2) hi.
Proof.
  intros Hl Hc Hr. induction Hl as [lo|lo k c ks1 cs1 lo' HP Hl IH]; simpl; [|auto].
  revert lo cs Hc. induction ks as [|k ks IH]; intros lo cs Hc; simpl in *.
  - destruct cs as [|c [|c' cs]]; try tauto. destruct Hr; simpl; auto.
  - destruct cs as [|c cs]; [tauto|]. destruct Hc. simpl. auto.
Qed.

Lemma chain_zoom lo ks1 ks2 cs hi :
  chain lo (ks1 ++ ks2) cs hi ->
  exists cs1 c cs2 lo' hi', cs = cs1 ++ c :: cs2 /\ length cs1 = length ks1 /\
    lctx lo ks1 cs1 lo' /\ P lo' hi' c /\ rctx hi' ks2 cs2 hi.
Proof.
  revert lo cs. induction ks1 as [|k ks1 IH]; intros lo cs H; simpl in *.
  - destruct ks2 as [|k ks2], cs as [|c cs]; simpl in H; try tauto.
    + destruct cs; [|tauto]. exists [], c, [], lo, hi. repeat split; auto using lctx_nil, rctx_nil.
    + destruct H. exists [], c, cs, lo, (Some k). repeat split; auto using lctx_nil, rctx_cons.
  - destruct cs as [|c cs]; [tauto|]. destruct H as [HP H].
    destruct (IH _ _ H) as (cs1 & c' & cs2 & lo' & hi' & -> & ? & ? & ? & ?).
    exists (c :: cs1), c', cs2, lo', hi'. repeat split; auto using lctx_cons.
    simpl. congruence.
Qed.

Lemma chain_split lo ks1 k ks2 cs hi :
  chain lo (ks1 ++ k :: ks2) cs hi ->
  exists cs1 cs2, cs = cs1 ++ cs2 /\ length cs1 = S (length ks1) /\
    chain lo ks1 cs1 (Some k) /\ chain (Some k) ks2 cs2 hi.
Proof.
  revert lo cs. induction ks1 as [|k1 ks1 IH]; intros lo [|c cs] H; simpl in *; try tauto.
  - destruct H. exists [c], cs. auto.
  - destruct H as [HP H]. destruct (IH _ _ H) as (cs1 & cs2 & -> & ? & ? & ?).
    exists (c :: cs1), cs2. simpl. repeat split; auto.
Qed.

Lemma chain_join lo ks1 cs1 k ks2 cs2 hi :
  chain lo ks1 cs1 (Some k) -> chain (Some k) ks2 cs2 hi ->
  chain lo (ks1 ++ k :: ks2) (cs1 ++ cs2) hi.
Proof.
  intros H1 H2.
  pose proof (chain_plug lo [] [] lo ks1 cs1 (Some k) (k :: ks2) cs2 hi (lctx_nil _) H1
                (rctx_cons _ _ _ _ H2)) as H. done.
Qed.

Lemma lctx_snoc lo ks k cs c lo' :
  lctx lo (ks ++ [k]) (cs ++ [c]) lo' <->
  exists lo'', lctx lo ks cs lo'' /\ P lo'' (Some k) c /\ lo' = Some k.
Proof.
  split.
  - revert lo cs. induction ks as [|k1 ks IH]; intros lo [|c1 cs] H; inversion H; subst; simpl in *.
    + match goal with H : lctx _ [] _ _ |- _ => inversion H; subst end.
      eauto using lctx_nil.
    + match goal with H : lctx _ [] _ _ |- _ => inversion H; subst end.
      destruct cs; discriminate.
    + match goal with H : lctx _ (_ ++ _) _ _ |- _ => inversion H; subst end.
      all: destruct ks; discriminate.
    + edestruct IH as (lo'' & ? & ? & ?); [eassumption|].
      eauto using lctx_cons.
  - intros (lo'' & H & HP & ->). induction H; simpl; eauto using lctx_nil, lctx_cons.
Qed.
End chain.

(** ** The invariant *)

Fixpoint entries (n : node) : list Expiration :=
  match n with
  | Leaf _ ks _ => ks
  | Internal _ cs => flat_map entries cs
  end.

Fixpoint wf (h m : nat) (lo hi : bound) (n : node) : Prop :=
  match h, n with
  | O, Leaf _ ks _ =>
      m <= length ks <= maxKeys /\ blt lo hi /\ StronglySorted lt ks /\
      Forall (above lo) ks /\ Forall (below hi) ks
  | S h', Internal ks cs =>
      m <= length ks <= maxKeys /\ chain (wf h' minKeys) lo ks cs hi
  | _, _ => False
  end.

Lemma wf_weaken (h m m' : nat) (lo hi : bound) (n : node) :
  m' <= m -> wf h m lo hi n -> wf h m' lo hi n.
Proof. destruct h, n; simpl; intuition lia. Qed.

Lemma wf_strengthen (h m m' : nat) (lo hi : bound) (n : node) :
  m' <= length (keys n) -> wf h m lo hi n -> wf h m' lo hi n.
Proof. destruct h, n; simpl; intuition lia. Qed.

Lemma wf_keys_length (h m : nat) (lo hi : bound) (n : node) :
  wf h m lo hi n -> m <= length (keys n) <= maxKeys.
Proof. destruct h, n; simpl; intuition. Qed.

(** The content of a well-formed node: strictly sorted, within its bounds. *)
Definition content (lo hi : bound) (l : list Expiration) : Prop :=
  StronglySorted lt l /\ Forall (above lo) l /\ Forall (below hi) l.

Lemma content_app (lo hi : bound) (k : Expiration) (l1 l2 : list Expiration) :
  blt lo (Some k) -> blt (Some k) hi ->
  content lo (Some k) l1 -> content (Some k) hi l2 -> content lo hi (l1 ++ l2).
Proof.
  intros Hl Hh (S1 & A1 & B1) (S2 & A2 & B2). rewrite Forall_forall in A1, A2, B1, B2.
  split; [|split; apply Forall_app; split; apply Forall_forall; intros x Hx]; auto.
  - apply StronglySorted_app_2; auto. intros x y Hx Hy.
    eapply lt_le_trans; [apply (B1 _ Hx)|apply (A2 _ Hy)].
  - eapply above_weaken; [exact Hl|]. apply (A2 _ Hx).
  - eapply below_weaken; [exact Hh|]. apply (B1 _ Hx).
Qed.

Lemma chain_content (P : bound -> bound -> node -> Prop) (lo hi : bound) ks cs :
  (forall lo hi n, P lo hi n -> blt lo hi /\ content lo hi (entries n)) ->
  chain P lo ks cs hi -> blt lo hi /\ content lo hi (flat_map entries cs).
Proof.
  intros HP. revert lo cs. induction ks as [|k ks IH]; intros lo [|c cs] H; simpl in *; try tauto.
  - destruct cs; [|tauto]. simpl. rewrite app_nil_r. auto.
  - destruct H as [Hc H]. destruct (HP _ _ _ Hc), (IH _ _ H).
    split; [by eapply blt_trans|]. by eapply content_app.
Qed.

Lemma wf_content (h m : nat) (lo hi : bound) (n : node) :
  wf h m lo hi n -> blt lo hi /\ content lo hi (entries n).
Proof.
  revert m lo hi n. induction h as [|h IH]; intros m lo hi [a ks nx|ks cs] H; simpl in H; try tauto.
  - unfold content. simpl. naive_solver.
  - simpl. eapply chain_content; [|apply H]. eauto.
Qed.

Lemma wf_blt (h m : nat) (lo hi : bound) (n : node) : wf h m lo hi n -> blt lo hi.
Proof. intros H. apply (wf_content _ _ _ _ _ H). Qed.

Lemma chain_blt (h m : nat) lo ks cs hi : chain (wf h m) lo ks cs hi -> blt lo hi.
Proof. intros H. eapply chain_content in H; [apply H|]. eauto using wf_content. Qed.

#[export] Hint Resolve wf_blt chain_blt : cachey.

(** Separators of a chain are strictly sorted and strictly inside its bounds. *)
Lemma chain_seps (h m : nat) lo ks cs hi :
  chain (wf h m) lo ks cs hi ->
  StronglySorted lt ks /\ Forall (fun k => blt lo (Some k) /\ blt (Some k) hi) ks.
Proof.
  revert lo cs. induction ks as [|k ks IH]; intros lo [|c cs] H; simpl in *; try tauto.
  { split; constructor. }
  destruct H as [Hc H]. destruct (IH _ _ H) as [Hs Hf].
  rewrite Forall_forall in Hf. split; [|constructor].
  - constructor; [done|]. apply Forall_forall. intros x Hx. by apply Hf in Hx as [??].
  - split; [apply (wf_blt _ _ _ _ _ Hc)|apply (chain_blt _ _ _ _ _ _ H)].
  - apply Forall_forall. intros x Hx. apply Hf in Hx as [??]. split; [|done].
    eapply blt_trans; [apply (wf_blt _ _ _ _ _ Hc)|done].
Qed.

Lemma lctx_entries (h m : nat) lo ks cs lo' :
  lctx (wf h m) lo ks cs lo' -> Forall (below lo') (flat_map entries cs).
Proof.
  intros H. destruct (decide (ks = [])) as [->|Hne].
  { inversion H; subst. constructor. }
  induction H as [|lo k c ks cs lo' HP H IH]; [done|]. simpl. apply Forall_app. split.
  - apply wf_content in HP as (_ & _ & _ & Hb).
    destruct (decide (ks = [])) as [->|Hne']; [inversion H; by subst|].
    eapply Forall_impl; [exact Hb|]. simpl. intros x Hx.
    destruct lo' as [l|]; [|done]. simpl. transitivity k; [done|].
    clear -H Hne'. revert k H. destruct ks as [|k' ks]; [done|]. intros k H.
    assert (forall ks cs a b, lctx (wf h m) (Some a) ks cs (Some b) -> ks <> [] -> lt a b) as Hlt.
    { clear. intros ks. induction ks as [|k ks IH]; intros cs a b H Hne; [done|].
      inversion H; subst. match goal with H : wf _ _ _ _ _ |- _ => apply wf_blt in H; simpl in H end.
      destruct (decide (ks = [])) as [->|Hne'].
      - match goal with H : lctx _ _ [] _ _ |- _ => inversion H; by subst end.
      - transitivity k; [done|]. eauto. }
    eauto.
  - destruct (decide (ks = [])) as [->|Hne']; [|auto]. inversion H; subst. constructor.
Qed.

Lemma rctx_entries (h m : nat) hi' ks cs hi :
  rctx (wf h m) hi' ks cs hi -> cs = [] \/ Forall (above hi') (flat_map entries cs).
Proof.
  inversion 1; subst; [by left|]. right.
  match goal with H : chain _ _ _ _ _ |- _ => apply chain_content in H; [apply H|] end.
  eauto using wf_content.
Qed.

(** The child [childIndex] selects is the one whose range holds the target. *)
Lemma childIndex_zoom (h : nat) lo ks cs hi (t : Expiration) :
  chain (wf h minKeys) lo ks cs hi -> above lo t -> below hi t ->
  exists ks1 ks2 cs1 c cs2 lo' hi',
    ks = ks1 ++ ks2 /\ cs = cs1 ++ c :: cs2 /\ length cs1 = length ks1 /\
    childIndex ks t = length cs1 /\
    lctx (wf h minKeys) lo ks1 cs1 lo' /\ wf h minKeys lo' hi' c /\
    rctx (wf h minKeys) hi' ks2 cs2 hi /\ above lo' t /\ below hi' t.
Proof.
  intros H Ha Hb. destruct (chain_seps _ _ _ _ _ _ H) as [Hs _].
  destruct (sorted_split_le ks t Hs) as (l1 & l2 & -> & H1 & H2).
  destruct (chain_zoom _ _ _ _ _ _ H) as (cs1 & c & cs2 & lo' & hi' & -> & Hl & HL & HP & HR).
  exists l1, l2, cs1, c, cs2, lo', hi'. repeat split; auto.
  - by rewrite (childIndex_split l1 l2 t H1 H2).
  - destruct (decide (l1 = [])) as [->|Hne]; [by inversion HL; subst|].
    apply exists_last in Hne as (l1' & k & ->). apply Forall_app in H1 as [_ H1].
    destruct (decide (cs1 = [])) as [->|Hne]; [rewrite length_app in Hl; simpl in Hl; lia|].
    apply exists_last in Hne as (cs1' & c1 & ->). apply lctx_snoc in HL as (? & _ & _ & ->).
    by inversion H1.
  - destruct HR; [done|]. by inversion H2.
Qed.

(** ** The leaf chain

    [links n] lists the leaves of [n] from left to right, each as its address
    and its [next] pointer. *)

Fixpoint links (n : node) : list (addr * option addr) :=
  match n with
  | Leaf a _ nx => [(a, nx)]
  | Internal _ cs => flat_map links cs
  end.

(** The changes the operations make to the chain: an insertion leaves it alone
    or adds a leaf after an existing one, a deletion merges neighbours into the
    left one. *)
Inductive link_insert (fresh : addr) : list (addr * option addr) -> list (addr * option addr) -> Prop :=
  | link_same l : link_insert fresh l l
  | link_split l1 a nx l2 :
      link_insert fresh (l1 ++ (a, nx) :: l2) (l1 ++ (a, Some fresh) :: (fresh, nx) :: l2).

Inductive link_merge : list (addr * option addr) -> list (addr * option addr) -> Prop :=
  | link_merge_intro l1 a x b y l2 :
      link_merge (l1 ++ (a, x) :: (b, y) :: l2) (l1 ++ (a, y) :: l2).

Lemma link_insert_context (fresh : addr) (p s l l' : list (addr * option addr)) :
  link_insert fresh l l' -> link_insert fresh (p ++ l ++ s) (p ++ l' ++ s).
Proof.
  intros []; [constructor|]; rewrite <- !app_assoc, !(app_assoc p); constructor.
Qed.

Lemma link_merge_context (p s l l' : list (addr * option addr)) :
  rtc link_merge l l' -> rtc link_merge (p ++ l ++ s) (p ++ l' ++ s).
Proof.
  induction 1 as [|l l1 l' H _ IH]; [constructor|].
  eapply rtc_l; [|exact IH]. destruct H. rewrite <- !app_assoc, !(app_assoc p). constructor.
Qed.

(** ** Insertion *)

Lemma content_cut (lo hi : bound) (l1 l2 : list Expiration) (k : Expiration) :
  content lo hi (l1 ++ k :: l2) -> l1 <> [] ->
  content lo (Some k) l1 /\ content (Some k) hi (k :: l2) /\ blt lo (Some k) /\ blt (Some k) hi.
Proof.
  intros (Hs & Ha & Hb) Hne. apply StronglySorted_app in Hs as (Hlt & Hs1 & Hs2).
  apply Forall_app in Ha as [Ha1 Ha2], Hb as [Hb1 Hb2].
  assert (Forall (fun x => lt x k) l1) as Hk.
  { apply Forall_forall. intros x Hx. apply Hlt; set_solver. }
  unfold content. repeat split; auto.
  - constructor; [apply le_refl|]. inversion Hs2; subst.
    eapply Forall_impl; [eassumption|]. intros x Hx. by apply lt_le.
  - destruct l1 as [|x l1]; [done|]. inversion Ha1; subst. inversion Hk; subst.
    by eapply above_blt_below.
  - by inversion Hb2.
Qed.

Lemma entries_plug (cs1 cs cs2 : list node) :
  flat_map entries (cs1 ++ cs ++ cs2) =
  flat_map entries cs1 ++ flat_map entries cs ++ flat_map entries cs2.
Proof. by rewrite !flat_map_app. Qed.

Lemma links_plug (cs1 cs cs2 : list node) :
  flat_map links (cs1 ++ cs ++ cs2) =
  flat_map links cs1 ++ flat_map links cs ++ flat_map links cs2.
Proof. by rewrite !flat_map_app. Qed.

(** A position in a sorted leaf: what [lowerBound] finds and what the test for
    an equal key sees there. *)
Lemma leaf_position (ks : list Expiration) (t : Expiration) :
  StronglySorted lt ks ->
  exists l1 l2, ks = l1 ++ l2 /\ lowerBound ks t = length l1 /\
    Forall (fun x => lt x t) l1 /\
    match ks !! lowerBound ks t with
    | Some k => if equal k t then exists l2', l2 = t :: l2' /\ Forall (lt t) l2'
                else Forall (lt t) l2
    | None => l2 = []
    end.
Proof.
  intros Hs. destruct (sorted_split_lt ks t Hs) as (l1 & l2 & -> & H1 & H2).
  pose proof (lowerBound_split l1 l2 t H1 H2) as Hlb.
  exists l1, l2. split_and!; [done|done|done|]. rewrite Hlb.
  rewrite lookup_app_r, Nat.sub_diag by lia.
  destruct l2 as [|k l2]; [done|]. simpl.
  apply StronglySorted_app in Hs as (_ & _ & Hs2). inversion Hs2; subst.
  destruct (equal k t) eqn:E.
  - apply equal_spec in E as ->. eauto.
  - assert (lt t k) as Hk.
    { unfold lt. destruct (less t k) eqn:E2; [done|].
      inversion H2; subst. rewrite (lt_total t k) in E by done.
      pose proof (proj2 (equal_spec k k) eq_refl). congruence. }
    constructor; [done|]. eapply Forall_impl; [eassumption|]. intros; by transitivity k.
Qed.

Lemma sorted_insert_leaf (l1 l2 : list Expiration) (t : Expiration) :
  Forall (fun x => lt x t) l1 -> Forall (lt t) l2 ->
  sorted_insert t (l1 ++ l2) = l1 ++ t :: l2.
Proof.
  intros H1 H2. rewrite sorted_insert_app_r by done. f_equal.
  destruct H2 as [|y l2 Hy]; [done|]. simpl. unfold lt in Hy. by rewrite Hy.
Qed.

(** What an insertion promises of the node(s) it returns. *)
Definition insert_post (fresh : addr) (t : Expiration) (h m : nat) (lo hi : bound) (n : node)
    (r : node * option splitResult) : Prop :=
  match r with
  | (n', None) =>
      wf h m lo hi n' /\ entries n' = sorted_insert t (entries n) /\
      link_insert fresh (links n) (links n')
  | (n', Some (mkSplit k r)) =>
      wf h minKeys lo (Some k) n' /\ wf h minKeys (Some k) hi r /\
      entries n' ++ entries r = sorted_insert t (entries n) /\
      link_insert fresh (links n) (links n' ++ links r)
  end.

Lemma splitLeaf_ok (fresh a : addr) (ks : list Expiration) (nx : option addr) (lo hi : bound) :
  content lo hi ks -> length ks = S maxKeys ->
  exists n' k r, splitLeaf fresh (Leaf a ks nx) = Some (n', Some (mkSplit k r)) /\
    wf 0 minKeys lo (Some k) n' /\ wf 0 minKeys (Some k) hi r /\
    entries n' ++ entries r = ks /\ links n' ++ links r = [(a, Some fresh); (fresh, nx)].
Proof.
  intros Hc Hlen. unfold maxKeys, order in Hlen. simpl in Hlen.
  do 9 (destruct ks as [|? ks]; simpl in Hlen; try discriminate). clear Hlen.
  match goal with H : content _ _ (?a :: ?b :: ?c :: ?d :: ?k :: ?l) |- _ =>
    destruct (content_cut lo hi [a; b; c; d] l k H) as ((?&?&?) & (?&?&?) & ? & ?); [done|]
  end.
  unfold splitLeaf. simpl. do 3 eexists. split; [done|]. simpl. split_and!; auto; cbv; lia.
Qed.

Lemma splitInternal_ok (h : nat) (ks : list Expiration) (cs : list node) (lo hi : bound) :
  chain (wf h minKeys) lo ks cs hi -> length ks = S maxKeys ->
  exists n' k r, splitInternal (Internal ks cs) = Some (n', Some (mkSplit k r)) /\
    wf (S h) minKeys lo (Some k) n' /\ wf (S h) minKeys (Some k) hi r /\
    entries n' ++ entries r = flat_map entries cs /\ links n' ++ links r = flat_map links cs.
Proof.
  intros Hc Hlen. unfold maxKeys, order in Hlen. simpl in Hlen.
  do 9 (destruct ks as [|? ks]; simpl in Hlen; try discriminate). clear Hlen.
  match goal with H : chain _ _ (?a :: ?b :: ?c :: ?d :: ?k :: ?l) _ _ |- _ =>
    destruct (chain_split _ lo [a; b; c; d] k l cs hi H) as (cs1 & cs2 & -> & Hl & H1 & H2)
  end.
  unfold splitInternal. simpl in *. do 3 eexists. split; [done|].
  replace (take 5 (cs1 ++ cs2)) with cs1 by (symmetry; by apply take_app_length').
  replace (drop 5 (cs1 ++ cs2)) with cs2 by (symmetry; by apply drop_app_length').
  cbn [entries links wf]. rewrite !flat_map_app. split_and!; auto; cbv; lia.
Qed.

Lemma node_insert_leaf (fresh a : addr) (t : Expiration) (ks : list Expiration) nx m lo hi :
  wf 0 m lo hi (Leaf a ks nx) -> above lo t -> below hi t ->
  exists r, node_insert fresh t (Leaf a ks nx) = Some r /\
            insert_post fresh t 0 m lo hi (Leaf a ks nx) r.
Proof.
  intros (Hlen & Hblt & Hs & Ha & Hb) Hat Hbt. cbn [node_insert].
  destruct (leaf_position ks t Hs) as (l1 & l2 & -> & -> & H1 & Hpos).
  destruct (match (l1 ++ l2) !! length l1 with Some k => equal k t | None => false end) eqn:E.
  - destruct ((l1 ++ l2) !! length l1) as [k|]; [|done]. rewrite E in Hpos.
    destruct Hpos as (l2' & -> & H2). eexists. split; [done|]. simpl. split_and!; auto; try lia.
    + rewrite sorted_insert_app_r by done. simpl.
      pose proof (le_refl t) as Hle. unfold le in Hle. rewrite Hle.
      by rewrite (proj2 (equal_spec t t) eq_refl).
    + constructor.
  - assert (Forall (lt t) l2) as H2.
    { destruct ((l1 ++ l2) !! length l1); [by rewrite E in Hpos|by subst]. }
    clear Hpos E. unfold insertKey. rewrite insert_at_middle by done. simpl.
    assert (content lo hi (l1 ++ t :: l2)) as Hc.
    { rewrite <- sorted_insert_leaf by done. split; [by apply sorted_insert_sorted|].
      split; apply Forall_forall; intros x Hx; apply sorted_insert_mem in Hx as [->|Hx]; auto;
      [rewrite Forall_forall in Ha|rewrite Forall_forall in Hb]; auto. }
    assert (length (l1 ++ t :: l2) = S (length (l1 ++ l2))) as Hl.
    { rewrite !length_app. simpl. lia. }
    destruct (length (l1 ++ t :: l2) <=? maxKeys)%nat eqn:E; bool_to_prop.
    + eexists. split; [done|]. simpl. destruct Hc as (?&?&?). split_and!; auto; try lia.
      * by rewrite sorted_insert_leaf.
      * constructor.
    + destruct (splitLeaf_ok fresh a (l1 ++ t :: l2) nx lo hi Hc ltac:(lia))
        as (n' & k & r & -> & Hn & Hr & He & Hk).
      eexists. split; [done|]. simpl. split_and!; auto.
      * by rewrite sorted_insert_leaf.
      * rewrite Hk. apply (link_split fresh [] a nx []).
Qed.

(** The entries beside the child a target descends into. *)
Lemma zoom_sides (h : nat) lo ks1 cs1 lo' hi' ks2 cs2 hi (t : Expiration) :
  lctx (wf h minKeys) lo ks1 cs1 lo' -> rctx (wf h minKeys) hi' ks2 cs2 hi ->
  above lo' t -> below hi' t ->
  Forall (fun x => lt x t) (flat_map entries cs1) /\ Forall (lt t) (flat_map entries cs2).
Proof.
  intros HL HR Ha Hb. split.
  - destruct (lctx_last _ _ _ _ _ HL) as [(_ & -> & _)|[k ->]]; [constructor|].
    eapply Forall_impl; [by eapply lctx_entries|]. intros x Hx. by eapply lt_le_trans.
  - destruct HR as [|k ks cs hi' Hch]; [constructor|].
    eapply chain_content in Hch as (_ & _ & Hab & _); [|eauto using wf_content].
    eapply Forall_impl; [exact Hab|]. simpl in *. intros x Hx. by eapply lt_le_trans.
Qed.

Lemma zoom_insert (h : nat) lo ks1 cs1 lo' c hi' ks2 cs2 hi (t : Expiration) :
  lctx (wf h minKeys) lo ks1 cs1 lo' -> rctx (wf h minKeys) hi' ks2 cs2 hi ->
  above lo' t -> below hi' t ->
  sorted_insert t (flat_map entries (cs1 ++ c :: cs2)) =
  flat_map entries cs1 ++ sorted_insert t (entries c) ++ flat_map entries cs2.
Proof.
  intros HL HR Ha Hb. destruct (zoom_sides h _ _ _ _ _ _ _ _ t HL HR Ha Hb) as [Hl Hr].
  rewrite flat_map_app. simpl. rewrite sorted_insert_app_r by done. f_equal.
  by apply sorted_insert_app_l.
Qed.

Lemma node_insert_ok (fresh : addr) (t : Expiration) (h m : nat) (lo hi : bound) (n : node) :
  wf h m lo hi n -> above lo t -> below hi t ->
  exists r, node_insert fresh t n = Some r /\ insert_post fresh t h m lo hi n r.
Proof.
  revert m lo hi n. induction h as [|h IH]; intros m lo hi [a ks nx|ks cs] Hwf Ha Hb;
    try (simpl in Hwf; tauto).
  { by apply node_insert_leaf. }
  destruct Hwf as [Hlen Hch]. cbn [node_insert].
  destruct (childIndex_zoom h lo ks cs hi t Hch Ha Hb)
    as (ks1 & ks2 & cs1 & c & cs2 & lo' & hi' & -> & -> & Hl & -> & HL & Hc & HR & Ha' & Hb').
  rewrite at_index_lookup, lookup_middle by done. simpl.
  destruct (IH _ _ _ _ Hc Ha' Hb') as ([c' [[k r]|]] & -> & Hpost); simpl in Hpost |- *.
  - destruct Hpost as (Hc' & Hr & He & Hlk).
    rewrite insert_middle by done. unfold insertKey, insertChild.
    rewrite insert_at_middle by done.
    replace (cs1 ++ c' :: cs2) with ((cs1 ++ [c']) ++ cs2) by (by rewrite <- app_assoc).
    rewrite insert_at_middle by (rewrite length_app; simpl; lia). rewrite <- app_assoc. simpl.
    assert (chain (wf h minKeys) lo (ks1 ++ k :: ks2) (cs1 ++ c' :: r :: cs2) hi) as Hch'.
    { by apply (chain_plug _ lo ks1 cs1 lo' [k] [c'; r] hi'). }
    assert (flat_map entries (cs1 ++ c' :: r :: cs2)
            = sorted_insert t (flat_map entries (cs1 ++ c :: cs2))) as He'.
    { rewrite (zoom_insert h lo ks1 cs1 lo' c hi' ks2 cs2 hi) by done.
      rewrite <- He, flat_map_app. simpl. by rewrite <- app_assoc. }
    assert (link_insert fresh (flat_map links (cs1 ++ c :: cs2))
              (flat_map links (cs1 ++ c' :: r :: cs2))) as Hlk'.
    { rewrite !flat_map_app. simpl. rewrite app_assoc with (l := links c').
      by apply link_insert_context. }
    rewrite length_app in Hlen |- *. simpl.
    destruct (length ks1 + S (length ks2) <=? maxKeys)%nat eqn:E; bool_to_prop.
    + eexists. split; [done|]. simpl. rewrite length_app. simpl. split_and!; auto; lia.
    + destruct (splitInternal_ok h _ _ lo hi Hch') as (n' & k' & r' & -> & ? & ? & Hee & Hll).
      { rewrite length_app. simpl. lia. }
      eexists. split; [done|]. simpl. rewrite Hee, Hll. auto.
  - destruct Hpost as (Hc' & He & Hlk). rewrite insert_middle by done.
    eexists. split; [done|]. simpl. split_and!; auto; try lia.
    + by apply (chain_plug _ lo ks1 cs1 lo' [] [c'] hi').
    + rewrite (zoom_insert h lo ks1 cs1 lo' c hi' ks2 cs2 hi) by done.
      by rewrite flat_map_app, <- He.
    + rewrite !flat_map_app. simpl. by apply link_insert_context.
Qed.
