(* ===== verification/BTreeDelete.v ===== *)
(** * B+tree: deletion and rebalancing *)

From S2P Require Import Prelude BTree BTreeOrder BTreeInv.

(** Normal forms of list indexing beside a split point. *)
Lemma lookup_middle_S {A} (l1 l2 : list A) (x y : A) (i : nat) :
  i = S (length l1) -> (l1 ++ x :: y :: l2) !! i = Some y.
Proof.
  intros ->. rewrite lookup_app_r by lia. by replace (S (length l1) - length l1) with 1 by lia.
Qed.

Lemma insert_middle_S {A} (l1 l2 : list A) (x y z : A) (i : nat) :
  i = S (length l1) -> <[i := z]> (l1 ++ x :: y :: l2) = l1 ++ x :: z :: l2.
Proof.
  intros ->. rewrite insert_app_r_alt by lia.
  by replace (S (length l1) - length l1) with 1 by lia.
Qed.

Lemma remove_at_middle_S {A} (l1 l2 : list A) (x y : A) (i : nat) :
  i = S (length l1) -> remove_at (l1 ++ x :: y :: l2) i = l1 ++ x :: l2.
Proof.
  intros ->. rewrite (cons_middle x), (app_assoc l1).
  rewrite remove_at_middle by (rewrite length_app; simpl; lia). by rewrite <- app_assoc.
Qed.

Lemma length_snoc_inv {A} (l : list A) (n : nat) :
  n < length l -> exists l' x, l = l' ++ [x].
Proof.
  intros H. destruct (exists_last (l := l)) as (l' & x & ->); [|eauto].
  intros ->. simpl in H. lia.
Qed.

Ltac index_norm :=
  repeat first
    [ rewrite lookup_middle by (simpl; lia)
    | rewrite lookup_middle_S by (simpl; lia)
    | rewrite insert_middle by (simpl; lia)
    | rewrite insert_middle_S by (simpl; lia) ].

(** ** Borrowing and merging keep the content and the leaf chain *)

Section siblings.
Context (h : nat) (lo hi : bound) (k : Expiration).

(** The outcome of moving an entry or a subtree between two neighbours. *)
Definition rebalanced (l r l' r' : node) (k' : Expiration) : Prop :=
  wf h minKeys lo (Some k') l' /\ wf h minKeys (Some k') hi r' /\
  entries l' ++ entries r' = entries l ++ entries r /\
  links l' ++ links r' = links l ++ links r.

Lemma borrowFromLeft_ok (l c : node) ks1 ks2 cs1 cs2 :
  wf h minKeys lo (Some k) l -> wf h (minKeys - 1) (Some k) hi c ->
  minKeys < length (keys l) -> length (keys c) < minKeys -> length ks1 = length cs1 ->
  exists k' l' c',
    borrowFromLeft (ks1 ++ k :: ks2) (cs1 ++ l :: c :: cs2) (S (length cs1))
      = Some (Internal (ks1 ++ k' :: ks2) (cs1 ++ l' :: c' :: cs2)) /\
    rebalanced l c l' c' k'.
Proof.
  intros Hl Hc Hlend Hund Hlen.
  unfold borrowFromLeft, rebalanced, insertKey, insertChild, insert_at.
  index_norm. simpl.
  rewrite Nat.sub_0_r. index_norm. simpl.
  destruct h as [|h']; destruct l as [a kl nx|kl csl], c as [b kc ny|kc csc];
    try (simpl in Hl, Hc; tauto); simpl in Hlend, Hund |- *;
    destruct (length_snoc_inv kl _ Hlend) as (kl' & up & ->);
    rewrite length_app in Hlend |- *; simpl in Hlend |- *;
    rewrite Nat.add_sub, lookup_middle by done; simpl; rewrite take_app_length, ?drop_0.
  - index_norm. do 3 eexists. split; [done|].
    destruct Hl as ((_ & Hmax) & Hb1 & Hs1 & Ha1 & Hb1'), Hc as (Hn2 & Hb2 & Hs2 & Ha2 & Hb2').
    destruct (content_cut lo (Some k) kl' [] up) as ((?&?&?) & Hcu & ? & ?);
      [done| |].
    { intros ->. simpl in Hlend. unfold minKeys, maxKeys, order in Hlend. simpl in Hlend. lia. }
    assert (content (Some up) hi (up :: kc)) as (?&?&?).
    { apply (content_app (Some up) hi k [up] kc); auto. by split. }
    rewrite length_app in Hmax. cbn [wf entries links length] in *.
    split_and!; auto; try (unfold minKeys, maxKeys, order in *; simpl in *; lia).
    + by apply (blt_trans (Some up) hi k).
    + by rewrite <- app_assoc.
  - destruct Hl as [(_ & Hmax) Hl], Hc as [Hn2 Hc].
    destruct (chain_split _ _ _ _ _ _ _ Hl) as (csl' & csm & -> & Hlc & H1 & H2).
    simpl in H2. destruct csm as [|mc [|]]; try tauto.
    rewrite length_app. simpl. rewrite Nat.add_sub, lookup_middle by done. simpl.
    index_norm. simpl. rewrite take_app_length, ?drop_0.
    do 3 eexists. split; [done|]. rewrite length_app in Hmax.
    cbn [wf entries links length chain] in *.
    split_and!; auto; try (unfold minKeys, maxKeys, order in *; simpl in *; lia).
    + rewrite flat_map_app. simpl. by rewrite <- !app_assoc.
    + rewrite flat_map_app. simpl. by rewrite <- !app_assoc.
Qed.

Lemma borrowFromRight_ok (c r : node) ks1 ks2 cs1 cs2 :
  wf h (minKeys - 1) lo (Some k) c -> wf h minKeys (Some k) hi r ->
  minKeys < length (keys r) -> length (keys c) < minKeys -> length ks1 = length cs1 ->
  exists k' c' r',
    borrowFromRight (ks1 ++ k :: ks2) (cs1 ++ c :: r :: cs2) (length cs1)
      = Some (Internal (ks1 ++ k' :: ks2) (cs1 ++ c' :: r' :: cs2)) /\
    rebalanced c r c' r' k'.
Proof.
  intros Hc Hr Hlend Hund Hlen. unfold borrowFromRight, rebalanced. rewrite Nat.add_1_r.
  index_norm. simpl.
  destruct h as [|h']; destruct r as [a kr nx|kr csr], c as [b kc ny|kc csc];
    try (simpl in Hr, Hc; tauto); simpl in Hlend, Hund |- *;
    destruct kr as [|k1 [|k2 kr]];
    try (unfold minKeys, maxKeys, order in Hlend; simpl in Hlend; lia); simpl.
  - index_norm. do 3 eexists. split; [done|].
    destruct Hr as ((_ & Hmax) & Hb1 & Hs1 & Ha1 & Hb1'), Hc as (Hn2 & Hb2 & Hs2 & Ha2 & Hb2').
    destruct (content_cut (Some k) hi [k1] kr k2) as (Hcu & (?&?&?) & ? & ?); [done|done|].
    assert (content lo (Some k2) (kc ++ [k1])) as (?&?&?).
    { apply (content_app lo (Some k2) k); auto. by split. }
    cbn [wf entries links] in *. rewrite length_app. simpl in *.
    split_and!; auto; try (unfold minKeys, maxKeys, order in *; simpl in *; lia).
    + by apply (blt_trans lo (Some k2) k).
    + by rewrite <- app_assoc.
  - destruct Hr as [(_ & Hmax) Hr], Hc as [Hn2 Hc].
    destruct csr as [|mc csr]; [simpl in Hr; tauto|]. destruct Hr as [H1 H2]. simpl.
    index_norm. simpl. index_norm. do 3 eexists. split; [done|].
    cbn [wf entries links]. rewrite length_app. simpl in *.
    rewrite !flat_map_app. simpl. rewrite !app_nil_r, <- !app_assoc.
    split_and!; auto; try (unfold minKeys, maxKeys, order in *; simpl in *; lia).
    by apply chain_join.
Qed.

Lemma mergeChildren_ok (l r : node) ks1 ks2 cs1 cs2 :
  wf h (minKeys - 1) lo (Some k) l -> wf h (minKeys - 1) (Some k) hi r ->
  length (keys l) + length (keys r) < maxKeys -> length ks1 = length cs1 ->
  exists n,
    mergeChildren (ks1 ++ k :: ks2) (cs1 ++ l :: r :: cs2) (length cs1)
      = Some (Internal (ks1 ++ ks2) (cs1 ++ n :: cs2)) /\
    wf h minKeys lo hi n /\ entries n = entries l ++ entries r /\
    rtc link_merge (links l ++ links r) (links n).
Proof.
  intros Hl Hr Hmax Hlen. unfold mergeChildren. rewrite Nat.add_1_r. index_norm. simpl.
  index_norm. rewrite (remove_at_middle ks1) by lia. rewrite remove_at_middle_S by lia.
  destruct h as [|h']; destruct r as [a kr nx|kr csr], l as [b kl ny|kl csl];
    try (simpl in Hr, Hl; tauto); simpl in Hmax |- *; eexists; (split; [done|]).
  - destruct Hl as (? & ? & Hl), Hr as (? & ? & Hr).
    destruct (content_app lo hi k kl kr) as (?&?&?); [done..|].
    cbn [wf entries links]. rewrite length_app.
    split_and!; auto; try (unfold minKeys, maxKeys, order in *; simpl in *; lia).
    + by apply (blt_trans lo hi k).
    + apply rtc_once, (link_merge_intro [] b ny a nx []).
  - destruct Hl as [? Hl], Hr as [? Hr]. cbn [wf entries links].
    rewrite !flat_map_app, length_app. simpl.
    split_and!; auto; try (unfold minKeys, maxKeys, order in *; simpl in *; lia).
    + by apply chain_join.
    + constructor.
Qed.
End siblings.

(** ** Restoring occupancy after a deletion below *)

Lemma plug_pair (h : nat) lo ks1 cs1 lo' l k r hi' ks2 cs2 hi :
  lctx (wf h minKeys) lo ks1 cs1 lo' -> rctx (wf h minKeys) hi' ks2 cs2 hi ->
  wf h minKeys lo' (Some k) l -> wf h minKeys (Some k) hi' r ->
  chain (wf h minKeys) lo (ks1 ++ k :: ks2) (cs1 ++ l :: r :: cs2) hi.
Proof. intros. by apply (chain_plug _ lo ks1 cs1 lo' [k] [l; r] hi'). Qed.

(** What [fixChild] promises of the node it returns. *)
Definition fix_post (h : nat) (lo hi : bound) (len : nat) (cs : list node)
    (o : option node) : Prop :=
  exists ks' cs', o = Some (Internal ks' cs') /\ chain (wf h minKeys) lo ks' cs' hi /\
    len - 1 <= length ks' <= len /\
    flat_map entries cs' = flat_map entries cs /\
    rtc link_merge (flat_map links cs) (flat_map links cs').

Section fix_child.
Context (h : nat) (lo lo' hi' hi : bound).
Context (ks1 ks2 : list Expiration) (cs1 cs2 : list node).
Hypothesis HL : lctx (wf h minKeys) lo ks1 cs1 lo'.
Hypothesis HR : rctx (wf h minKeys) hi' ks2 cs2 hi.

Lemma fix_pair_borrow (k k' : Expiration) (l r l' r' : node) (o : option node) :
  o = Some (Internal (ks1 ++ k' :: ks2) (cs1 ++ l' :: r' :: cs2)) ->
  rebalanced h lo' hi' l r l' r' k' ->
  fix_post h lo hi (length (ks1 ++ k :: ks2)) (cs1 ++ l :: r :: cs2) o.
Proof using All.
  intros -> (Hl & Hr & He & Hk). do 2 eexists. split; [done|].
  split; [by apply (plug_pair h lo ks1 cs1 lo' l' k' r' hi')|].
  rewrite !length_app, !flat_map_app. simpl.
  rewrite (app_assoc (entries l')), (app_assoc (links l')), He, Hk, <- !app_assoc.
  split_and!; [lia|lia|done|constructor].
Qed.

Lemma fix_pair_merge (k : Expiration) (l r : node) :
  wf h (minKeys - 1) lo' (Some k) l -> wf h (minKeys - 1) (Some k) hi' r ->
  length (keys l) + length (keys r) < maxKeys ->
  fix_post h lo hi (length (ks1 ++ k :: ks2)) (cs1 ++ l :: r :: cs2)
    (mergeChildren (ks1 ++ k :: ks2) (cs1 ++ l :: r :: cs2) (length cs1)).
Proof using All.
  intros Hl Hr Hmax.
  destruct (mergeChildren_ok h lo' hi' k l r ks1 ks2 cs1 cs2 Hl Hr Hmax)
    as (n & -> & Hn & He & Hk); [symmetry; by eapply lctx_length|].
  do 2 eexists. split; [done|].
  split; [by apply (chain_plug _ lo ks1 cs1 lo' [] [n] hi')|].
  rewrite !length_app, !flat_map_app. simpl. rewrite He, <- !app_assoc.
  split_and!; [lia|lia|done|]. rewrite (app_assoc (links l)). by apply link_merge_context.
Qed.
End fix_child.

Lemma rctx_cons_inv (h m : nat) (hi' hi : bound) ks r cs :
  rctx (wf h m) hi' ks (r :: cs) hi ->
  exists k ks' hi'', ks = k :: ks' /\ hi' = Some k /\ wf h m (Some k) hi'' r /\
    rctx (wf h m) hi'' ks' cs hi.
Proof.
  inversion 1 as [|k ks' cs' hi0 Hch]; subst.
  destruct (chain_zoom _ _ [] ks' _ _ Hch) as (cs1 & c & cs2 & lo' & hi'' & Heq & Hl & HL & Hc & HR).
  inversion HL; subst. simpl in Heq. simplify_eq. eauto 10.
Qed.

Lemma lctx_snoc_inv (h m : nat) (lo lo' : bound) ks cs :
  lctx (wf h m) lo ks cs lo' -> cs <> [] ->
  exists ks' k cs' c lo'', ks = ks' ++ [k] /\ cs = cs' ++ [c] /\ lo' = Some k /\
    wf h m lo'' (Some k) c /\ lctx (wf h m) lo ks' cs' lo''.
Proof.
  intros H Hne. pose proof (lctx_length _ _ _ _ _ H) as Hlen.
  destruct (exists_last Hne) as (cs' & c & ->). rewrite length_app in Hlen. simpl in Hlen.
  destruct (length_snoc_inv ks 0) as (ks' & k & ->); [lia|].
  apply lctx_snoc in H as (lo'' & ? & ? & ->). eauto 10.
Qed.

Lemma fixChild_ok (h : nat) lo ks1 cs1 lo' c hi' ks2 cs2 hi :
  lctx (wf h minKeys) lo ks1 cs1 lo' -> rctx (wf h minKeys) hi' ks2 cs2 hi ->
  wf h (minKeys - 1) lo' hi' c -> 1 <= length (ks1 ++ ks2) ->
  fix_post h lo hi (length (ks1 ++ ks2)) (cs1 ++ c :: cs2)
    (fixChild (ks1 ++ ks2) (cs1 ++ c :: cs2) (length cs1)).
Proof.
  intros HL HR Hc Hne. unfold fixChild.
  rewrite (lookup_middle cs1 cs2 c (length cs1) eq_refl). simpl.
  pose proof (wf_keys_length _ _ _ _ _ Hc) as Hkc.
  pose proof (rctx_length _ _ _ _ _ HR) as Hlr.
  unfold underflow, canLend. destruct (length (keys c) <? minKeys)%nat eqn:Eu; simpl; bool_to_prop.
  2:{ do 2 eexists. split; [done|]. split_and!; try lia; try constructor.
      apply (chain_plug _ lo ks1 cs1 lo' [] [c] hi'); [done| |done]. simpl.
      by eapply wf_strengthen. }
  destruct (decide (cs1 = [])) as [->|Hne1].
  - (* the leftmost child: only a right neighbour *)
    inversion HL; subst. simpl in *.
    destruct cs2 as [|r cs2]; [simpl in Hlr; lia|]. simpl.
    destruct (rctx_cons_inv _ _ _ _ _ _ _ HR) as (k & ks' & hi'' & -> & -> & Hr & HR').
    pose proof (wf_keys_length _ _ _ _ _ Hr) as Hkr.
    destruct (minKeys <? length (keys r))%nat eqn:El; bool_to_prop.
    + destruct (borrowFromRight_ok h lo' hi'' k c r [] ks' [] cs2 Hc Hr El Eu eq_refl)
        as (k' & c' & r' & Heq & Hreb). simpl in Heq.
      rewrite Heq. by eapply (fix_pair_borrow h lo' lo' hi'' hi [] ks' [] cs2).
    + apply (fix_pair_merge h lo' lo' hi'' hi [] ks' [] cs2); auto.
      { eapply wf_weaken; [|done]. lia. }
      unfold minKeys, maxKeys, order in *. simpl in *. lia.
  - (* a left neighbour exists *)
    destruct (lctx_snoc_inv _ _ _ _ _ _ HL Hne1)
      as (ks' & k & cs' & l & lo'' & -> & -> & -> & Hl & HL').
    pose proof (wf_keys_length _ _ _ _ _ Hl) as Hkl.
    pose proof (lctx_length _ _ _ _ _ HL') as Hlc.
    rewrite <- !app_assoc, !length_app. simpl. rewrite !Nat.add_1_r. simpl.
    rewrite Nat.sub_0_r, lookup_middle by done. simpl.
    replace (length ks' + S (length ks2)) with (length (ks' ++ k :: ks2)) by (by rewrite length_app).
    destruct (minKeys <? length (keys l))%nat eqn:El; bool_to_prop.
    + destruct (borrowFromLeft_ok h lo'' hi' k l c ks' ks2 cs' cs2 Hl Hc El Eu (eq_sym Hlc))
        as (k' & l' & c' & Heq & Hreb).
      rewrite Heq. by eapply (fix_pair_borrow h lo lo'' hi' hi ks' ks2 cs' cs2).
    + rewrite ?(length_app cs'). simpl.
      destruct cs2 as [|r cs2].
      { simpl. rewrite (proj2 (Nat.ltb_ge _ _)) by lia. simpl.
        apply (fix_pair_merge h lo lo'' hi' hi ks' ks2 cs' []); auto.
        { eapply wf_weaken; [|done]. lia. }
        unfold minKeys, maxKeys, order in *. simpl in *. lia. }
      destruct (rctx_cons_inv _ _ _ _ _ _ _ HR) as (k2 & ks2' & hi'' & -> & -> & Hr & HR').
      rewrite (proj2 (Nat.ltb_lt _ _)) by (simpl; lia).
      replace ((cs' ++ l :: c :: r :: cs2) !! S (S (length cs'))) with (Some r).
      2:{ rewrite lookup_app_r by lia. by replace (S (S (length cs')) - length cs') with 2 by lia. }
      simpl. destruct (minKeys <? length (keys r))%nat eqn:Er; bool_to_prop.
      * destruct (borrowFromRight_ok h (Some k) hi'' k2 c r (ks' ++ [k]) ks2' (cs' ++ [l]) cs2 Hc Hr Er Eu)
          as (k' & c' & r' & Heq & Hreb); [rewrite !length_app; simpl; lia|].
        rewrite length_app, <- !app_assoc in Heq. simpl in Heq. rewrite Nat.add_1_r in Heq.
        rewrite Heq.
        pose proof (fix_pair_borrow h lo (Some k) hi'' hi (ks' ++ [k]) ks2' (cs' ++ [l]) cs2
                      HL HR' k2 k' c r c' r' _ eq_refl Hreb) as Hp.
        by rewrite <- !app_assoc in Hp.
      * apply (fix_pair_merge h lo lo'' (Some k2) hi ks' (k2 :: ks2') cs' (r :: cs2)); auto.
        { eapply wf_weaken; [|done]. lia. }
        unfold minKeys, maxKeys, order in *. simpl in *. lia.
Qed.

(** ** Deletion *)

Definition delete_post (t : Expiration) (h m : nat) (lo hi : bound) (n : node)
    (r : bool * node) : Prop :=
  match r with
  | (true, n') =>
      t ∈ entries n /\ wf h (m - 1) lo hi n' /\
      entries n' = sorted_remove t (entries n) /\ rtc link_merge (links n) (links n')
  | (false, n') => (t ∉ entries n) /\ n' = n
  end.

Lemma node_delete_leaf (a : addr) (t : Expiration) ks nx m lo hi :
  wf 0 m lo hi (Leaf a ks nx) ->
  exists r, node_delete t (Leaf a ks nx) = Some r /\
            delete_post t 0 m lo hi (Leaf a ks nx) r.
Proof.
  intros (Hlen & Hblt & Hs & Ha & Hb). cbn [node_delete].
  destruct (leaf_position ks t Hs) as (l1 & l2 & -> & -> & H1 & Hpos).
  destruct (match (l1 ++ l2) !! length l1 with Some k => equal k t | None => false end) eqn:E;
    eexists; (split; [done|]); simpl.
  - destruct ((l1 ++ l2) !! length l1) as [k|]; [|done]. rewrite E in Hpos.
    destruct Hpos as (l2' & -> & H2). rewrite remove_at_middle by done.
    rewrite sorted_remove_middle by done.
    rewrite length_app in Hlen |- *. simpl in Hlen.
    apply StronglySorted_app in Hs as (Hx & ? & Hs2). inversion Hs2; subst.
    rewrite Forall_app, Forall_cons in Ha, Hb.
    split_and!; try lia; try apply Forall_app; try naive_solver; try constructor.
    + set_solver.
    + apply StronglySorted_app_2; auto. intros x y ??. apply Hx; set_solver.
  - split; [|done]. rewrite elem_of_app. rewrite Forall_forall in H1.
    assert (Forall (lt t) l2) as H2.
    { destruct ((l1 ++ l2) !! length l1); [by rewrite E in Hpos|by subst]. }
    rewrite Forall_forall in H2. intros [Ht|Ht]; [apply H1 in Ht|apply H2 in Ht]; by apply lt_irr in Ht.
Qed.

Lemma node_delete_ok (t : Expiration) (h m : nat) (lo hi : bound) (n : node) :
  wf h m lo hi n -> h = 0 \/ 1 <= m -> above lo t -> below hi t ->
  exists r, node_delete t n = Some r /\ delete_post t h m lo hi n r.
Proof.
  revert m lo hi n. induction h as [|h IH]; intros m lo hi [a ks nx|ks cs] Hwf Hm Ha Hb;
    try (simpl in Hwf; tauto).
  { by apply node_delete_leaf. }
  destruct Hwf as [Hlen Hch], Hm as [|Hm]; [done|]. cbn [node_delete].
  destruct (childIndex_zoom h lo ks cs hi t Hch Ha Hb)
    as (ks1 & ks2 & cs1 & c & cs2 & lo' & hi' & -> & -> & Hl & -> & HL & Hc & HR & Ha' & Hb').
  rewrite at_index_lookup, lookup_middle by done. simpl.
  destruct (zoom_sides h _ _ _ _ _ _ _ _ t HL HR Ha' Hb') as [H1 H2].
  assert ((t ∉ flat_map entries cs1) /\ (t ∉ flat_map entries cs2)) as [Hn1 Hn2].
  { rewrite Forall_forall in H1, H2. split; intros Hx; [apply H1 in Hx|apply H2 in Hx];
      by apply lt_irr in Hx. }
  destruct (IH _ _ _ _ Hc) as ([[] c'] & -> & Hpost); auto.
  { right. cbv. lia. }
  - destruct Hpost as (Hin & Hc' & He & Hlk). simpl. rewrite insert_middle by done.
    destruct (fixChild_ok h lo ks1 cs1 lo' c' hi' ks2 cs2 hi HL HR Hc')
      as (ks' & cs' & Heq & Hch' & Hlen' & He' & Hlk'); [lia|].
    rewrite Heq. eexists. split; [done|]. unfold delete_post. cbn [wf entries links].
    rewrite He', !flat_map_app. cbn [flat_map]. rewrite He, !sorted_remove_app.
    rewrite (sorted_remove_absent t (flat_map entries cs1)),
      (sorted_remove_absent t (flat_map entries cs2)) by done.
    split_and!; auto; try lia.
    + set_solver.
    + etransitivity; [|exact Hlk']. rewrite flat_map_app. by apply link_merge_context.
  - destruct Hpost as [Hnin ->]. eexists. split; [done|]. simpl. split; [|done].
    rewrite flat_map_app. simpl. set_solver.
Qed.
