(* ===== verification/BTreeThms.v ===== *)
(** * B+tree: the properties of the tree operations *)

From S2P Require Import Prelude BTree BTreeOrder BTreeInv BTreeDelete.

#[local] Set Warnings "-register-all".

(** ** The leaf chain as a linked list *)

(** The address a chain starts at, [out] when it is empty. *)
Definition chain_head (ls : list (addr * option addr)) (out : option addr) : option addr :=
  match ls with [] => out | (a, _) :: _ => Some a end.

(** Every leaf points to the one after it and the last one to [out]. *)
Fixpoint linked (ls : list (addr * option addr)) (out : option addr) : Prop :=
  match ls with
  | [] => True
  | (_, nx) :: rest => nx = chain_head rest out /\ linked rest out
  end.

Lemma linked_app (l1 l2 : list (addr * option addr)) (out : option addr) :
  linked (l1 ++ l2) out <-> linked l1 (chain_head l2 out) /\ linked l2 out.
Proof.
  induction l1 as [|[a nx] l1 IH]; simpl; [tauto|]. rewrite IH.
  replace (chain_head (l1 ++ l2) out) with (chain_head l1 (chain_head l2 out)); [tauto|].
  by destruct l1 as [|[]].
Qed.

(** The chain invariant: linked, no address twice, all allocated. *)
Definition chain_ok (next_addr : addr) (ls : list (addr * option addr)) : Prop :=
  linked ls None /\ NoDup (ls.*1) /\ Forall (fun a => a < next_addr) (ls.*1).

Lemma chain_ok_insert (fresh : addr) (ls ls' : list (addr * option addr)) :
  chain_ok fresh ls -> link_insert fresh ls ls' -> chain_ok (S fresh) ls'.
Proof.
  intros (Hl & Hn & Hf) H.
  assert (Forall (fun a => a < S fresh) (ls.*1)) as Hf'.
  { eapply Forall_impl; [exact Hf|]. simpl. lia. }
  destruct H as [|l1 a nx l2]; [by split|].
  unfold chain_ok. rewrite fmap_app in *. simpl in *. apply linked_app in Hl as [Hl1 [-> Hl2]].
  split; [|split].
  - apply linked_app. simpl. auto.
  - assert (fresh ∉ l1.*1 ++ a :: l2.*1) as Hfr.
    { intros Hin. rewrite Forall_forall in Hf. apply Hf in Hin. lia. }
    assert (l1.*1 ++ a :: fresh :: l2.*1 ≡ₚ fresh :: l1.*1 ++ a :: l2.*1) as -> by solve_Permutation.
    by apply NoDup_cons.
  - rewrite Forall_app, !Forall_cons in *. naive_solver lia.
Qed.

Lemma chain_ok_merge (next_addr : addr) (ls ls' : list (addr * option addr)) :
  chain_ok next_addr ls -> rtc link_merge ls ls' -> chain_ok next_addr ls'.
Proof.
  intros H. induction 1 as [|ls l1 ls' Hm _ IH]; [done|]. apply IH. clear IH ls'.
  destruct Hm as [p a x b y s]. destruct H as (Hl & Hn & Hf).
  unfold chain_ok. rewrite fmap_app in *. simpl in *. apply linked_app in Hl as [Hl1 Hl2]. simpl in Hl2.
  split; [|split].
  - apply linked_app. simpl. tauto.
  - assert (p.*1 ++ a :: b :: s.*1 ≡ₚ b :: p.*1 ++ a :: s.*1) as Hp by solve_Permutation.
    rewrite Hp in Hn. by apply NoDup_cons in Hn as [_ ?].
  - rewrite Forall_app, !Forall_cons in *. tauto.
Qed.

(** ** The tree invariant *)

(** A root leaf may be empty; an internal root has at least one separator. *)
Definition root_min (h : nat) : nat := match h with O => 0 | S _ => 1 end.

Definition tree_wf (t : Tree) : Prop :=
  (exists h, wf h (root_min h) None None (root t)) /\ chain_ok (alloc t) (links (root t)).

(** The specification state of a tree: its entries, in order. *)
Definition elems (t : Tree) : list Expiration := entries (root t).

Lemma tree_wf_New : tree_wf New.
Proof.
  split.
  - exists 0. simpl. split_and!; try constructor; lia.
  - split; [|split]; simpl; repeat constructor; set_solver.
Qed.

Lemma elems_sorted (t : Tree) : tree_wf t -> StronglySorted lt (elems t).
Proof. intros [[h H] _]. apply wf_content in H. apply H. Qed.

Lemma Insert_ok (t : Tree) (exp : Z) (k : string) :
  tree_wf t ->
  exists t', Insert t exp k = Some t' /\ tree_wf t' /\
             elems t' = sorted_insert (mkExpiration k exp) (elems t).
Proof.
  intros [[h Hwf] Hch]. unfold Insert, elems.
  destruct (node_insert_ok (alloc t) (mkExpiration k exp) h (root_min h) None None (root t) Hwf)
    as ([n' [[k' r]|]] & -> & Hp); [done|done| |]; simpl in Hp; eexists; (split; [done|]).
  - destruct Hp as (Hn & Hr & He & Hl). simpl. rewrite app_nil_r. split; [|done]. split.
    + exists (S h). simpl. unfold maxKeys, order. split_and!; [lia|simpl; lia|done|done].
    + simpl. rewrite app_nil_r. by eapply chain_ok_insert.
  - destruct Hp as (Hn & He & Hl). split; [|done]. split; [by exists h|].
    by eapply chain_ok_insert.
Qed.

(** The outcome of a deletion in terms of the entries. *)
Definition delete_outcome (t : Tree) (x : Expiration) (r : option error * Tree) : Prop :=
  match r with
  | (None, t') => x ∈ elems t /\ tree_wf t' /\ elems t' = sorted_remove x (elems t)
  | (Some e, t') => e = BTreeNotFound /\ (x ∉ elems t) /\ t' = t
  end.

Lemma Delete_ok (t : Tree) (exp : Z) (k : string) :
  tree_wf t -> exists r, Delete t exp k = Some r /\ delete_outcome t (mkExpiration k exp) r.
Proof.
  intros [[h Hwf] Hch]. unfold Delete, elems.
  destruct (node_delete_ok (mkExpiration k exp) h (root_min h) None None (root t) Hwf)
    as ([[] n'] & -> & Hp); [destruct h; simpl; lia|done|done| |].
  2:{ destruct Hp. eexists. split; [done|]. by simpl. }
  destruct Hp as (Hin & Hn & He & Hl). pose proof (chain_ok_merge _ _ _ Hch Hl) as Hch'.
  destruct n' as [a ks nx|ks cs].
  - eexists. split; [done|]. simpl. split; [done|]. split; [|done].
    split; [|done]. exists h. by destruct h.
  - destruct h as [|h]; [simpl in Hn; tauto|]. destruct Hn as [Hlen Hc].
    pose proof (chain_length _ _ _ _ _ Hc) as Hlc.
    destruct cs as [|c [|c2 cs]]; simpl in Hlc; [lia| |]; eexists; (split; [done|]); simpl;
      (split; [done|]); simpl in He.
    + rewrite app_nil_r in He. unfold elems. simpl. split; [|done]. split; simpl.
      * exists h. destruct ks; [|simpl in Hlc; lia]. simpl in Hc.
        eapply wf_weaken; [|exact Hc]. destruct h; cbv; lia.
      * simpl in Hch'. by rewrite app_nil_r in Hch'.
    + split; [|done]. split; [|done]. exists (S h). simpl. split; [lia|done].
Qed.

(** ** Leaves *)

(** Induction over nodes with the hypothesis for every child. *)
Lemma node_ind' (P : node -> Prop) :
  (forall a ks nx, P (Leaf a ks nx)) ->
  (forall ks cs, Forall P cs -> P (Internal ks cs)) -> forall n, P n.
Proof.
  intros HL HI. fix IH 1. intros [a ks nx|ks cs]; [apply HL|apply HI].
  induction cs as [|c cs IHcs]; constructor; auto.
Qed.

Definition link_of (n : node) : addr * option addr :=
  match n with Leaf a _ nx => (a, nx) | Internal _ _ => (0, None) end.

Lemma leaves_entries (n : node) : entries n = flat_map keys (leaves n).
Proof.
  induction n as [a ks nx|ks cs IH] using node_ind'; simpl; [by rewrite app_nil_r|].
  induction IH as [|c cs Hc _ IH]; simpl; [done|]. by rewrite flat_map_app, Hc, IH.
Qed.

Lemma leaves_links (n : node) : links n = link_of <$> leaves n.
Proof.
  induction n as [a ks nx|ks cs IH] using node_ind'; simpl; [done|].
  induction IH as [|c cs Hc _ IH]; simpl; [done|]. by rewrite fmap_app, Hc, IH.
Qed.

Lemma leaves_leaf (n : node) : Forall (fun l => leaf l = true) (leaves n).
Proof.
  induction n as [a ks nx|ks cs IH] using node_ind'; simpl; [by repeat constructor|].
  induction IH as [|c cs Hc _ IH]; simpl; [constructor|]. by apply Forall_app.
Qed.

Lemma wf_leftmost (h m : nat) (lo hi : bound) (n : node) :
  wf h m lo hi n ->
  exists l ls, leaves n = l :: ls /\ leftmost n = Some l /\ (1 <= h -> minKeys <= length (keys l)).
Proof.
  revert m lo hi n. induction h as [|h IH]; intros m lo hi [a ks nx|ks cs] H; try (simpl in H; tauto).
  - exists (Leaf a ks nx), []. simpl. split_and!; auto. lia.
  - destruct H as [_ H]. destruct cs as [|c cs]; [destruct ks; simpl in H; tauto|].
    assert (exists hi', wf h minKeys lo hi' c) as [hi' Hc].
    { destruct ks; simpl in H; [destruct cs; naive_solver|]. destruct H. eauto. }
    destruct (IH _ _ _ _ Hc) as (l & ls & Hl & Hlm & Hk). simpl. rewrite Hl, Hlm.
    eexists l, _. split_and!; [done|done|]. intros _.
    destruct h as [|h]; [|apply Hk; lia].
    destruct c as [a kc nx|]; [|simpl in Hc; tauto]. simpl in Hlm. simplify_eq.
    simpl in Hc |- *. lia.
Qed.

Lemma First_head (t : Tree) : tree_wf t -> First t = head (elems t).
Proof.
  intros [[h Hwf] _]. unfold First, elems. rewrite leaves_entries.
  destruct (wf_leftmost _ _ _ _ _ Hwf) as (l & ls & Hl & -> & Hk). rewrite Hl. simpl.
  destruct h as [|h].
  - destruct (root t) as [a ks nx|]; [|simpl in Hwf; tauto]. simpl in Hl. simplify_eq.
    simpl. rewrite app_nil_r. by destruct ks.
  - destruct (keys l) as [|x kl] eqn:E; [|done].
    specialize (Hk ltac:(lia)). cbv in Hk. lia.
Qed.

(** ** Range scans *)

Lemma filter_le_none (end_ : Z) (ks : list Expiration) :
  Forall (fun e => end_ < Exp e)%Z ks -> filter (fun e => Exp e <= end_)%Z ks = [].
Proof.
  induction 1 as [|e ks He _ IH]; [done|]. rewrite filter_cons_False by lia. done.
Qed.

(** In a sorted list, what follows an entry past [end_] is past it too. *)
Lemma sorted_past (end_ : Z) (e : Expiration) (l : list Expiration) :
  StronglySorted lt (e :: l) -> (end_ < Exp e)%Z -> Forall (fun x => end_ < Exp x)%Z (e :: l).
Proof.
  intros Hs He. inversion Hs as [|? ? _ Hf]; subst. constructor; [done|].
  eapply Forall_impl; [exact Hf|]. intros x Hx%lt_Exp_le. simpl. lia.
Qed.

Lemma scan_spec (end_ : Z) (ks rest : list Expiration) :
  StronglySorted lt (ks ++ rest) ->
  let '(r, stop) := scan end_ ks in
  r = filter (fun e => Exp e <= end_)%Z ks /\
  (stop = true -> filter (fun e => Exp e <= end_)%Z rest = []).
Proof.
  induction ks as [|e ks IH]; intros Hs; [done|]. simpl.
  destruct (end_ <? Exp e)%Z eqn:E; bool_to_prop.
  - pose proof (sorted_past end_ e (ks ++ rest) Hs E) as Hf.
    apply (Forall_app _ (e :: ks) rest) in Hf as [Hf1 Hf2].
    split; [by rewrite filter_le_none|]. intros _. by apply filter_le_none.
  - simpl in Hs. inversion Hs; subst. specialize (IH ltac:(done)).
    destruct (scan end_ ks) as [r stop]. destruct IH as [-> Hstop].
    split; [|done]. by rewrite filter_cons_True by lia.
Qed.

Lemma deref_leaf (t : Tree) (pre post : list node) (n : node) (p : addr) (nx : option addr) :
  tree_wf t -> leaves (root t) = pre ++ n :: post -> link_of n = (p, nx) -> deref t p = Some n.
Proof.
  intros [_ (_ & Hn & _)] Hl Hp. unfold deref. rewrite leaves_links, Hl in *.
  pose proof (leaves_leaf (root t)) as Hlf. rewrite Hl in Hlf. clear Hl.
  induction pre as [|q pre IH]; simpl in *.
  - apply Forall_cons in Hlf as [Hlf _]. destruct n; simpl in *; [|done].
    simplify_eq. by rewrite Nat.eqb_refl.
  - apply Forall_cons in Hlf as [Hq Hlf]. apply NoDup_cons in Hn as [Hnin Hn].
    destruct q as [a ks nx'|]; simpl in *; [|done].
    destruct (Nat.eqb_spec a p) as [->|]; [|by apply IH].
    exfalso. apply Hnin. rewrite !fmap_app. apply elem_of_app. right.
    rewrite !fmap_cons, Hp. left.
Qed.

Lemma walk_spec (t : Tree) (end_ : Z) (post pre : list node) (n : node) (fuel : nat) :
  tree_wf t -> leaves (root t) = pre ++ n :: post -> length (n :: post) <= fuel ->
  walk t end_ fuel n = Some (filter (fun e => Exp e <= end_)%Z (flat_map keys (n :: post))).
Proof.
  intros Hwf. revert pre n fuel. induction post as [|n' post IH]; intros pre n fuel Hl Hf.
  all: destruct fuel as [|fuel]; [simpl in Hf; lia|].
  all: pose proof (elems_sorted t Hwf) as Hs; unfold elems in Hs; rewrite leaves_entries, Hl in Hs;
    rewrite flat_map_app in Hs; apply StronglySorted_app in Hs as (_ & _ & Hs); simpl in Hs.
  all: pose proof (scan_spec end_ (keys n) _ Hs) as Hsc; cbn [walk];
    destruct (scan end_ (keys n)) as [r stop]; destruct Hsc as [-> Hstop].
  all: pose proof Hwf as [_ (Hk & _ & _)]; rewrite leaves_links, Hl, fmap_app in Hk;
    apply linked_app in Hk as [_ Hk]; cbn [fmap list_fmap] in Hk.
  all: pose proof (leaves_leaf (root t)) as Hlf; rewrite Hl in Hlf;
    apply Forall_app in Hlf as [_ Hlf]; apply Forall_cons in Hlf as [Hlf Hlf'];
    destruct n as [a ks nx|]; [|done]; simpl in Hk.
  - destruct Hk as [-> _]. cbn [flat_map keys next]. rewrite app_nil_r. by destruct stop.
  - destruct Hk as [Hnx _]. apply Forall_cons in Hlf' as [Hlf' _].
    destruct n' as [a' ks' nx'|]; [|done]. simpl in Hnx. subst nx.
    change (flat_map keys (Leaf a ks (Some a') :: Leaf a' ks' nx' :: post))
      with (ks ++ flat_map keys (Leaf a' ks' nx' :: post)).
    rewrite filter_app. destruct stop.
    + specialize (Hstop eq_refl). cbn [flat_map keys] in Hstop |- *.
      by rewrite Hstop, app_nil_r.
    + cbn [next]. rewrite (deref_leaf t (pre ++ [Leaf a ks (Some a')]) post (Leaf a' ks' nx') a' nx');
        [|done|by rewrite <- app_assoc|done].
      simpl. rewrite (IH (pre ++ [Leaf a ks (Some a')]));
        [done|by rewrite <- app_assoc|simpl in *; lia].
Qed.

Lemma Range_filter (t : Tree) (end_ : Z) :
  tree_wf t -> Range t end_ = Some (filter (fun e => Exp e <= end_)%Z (elems t)).
Proof.
  intros Hwf. unfold Range, elems. rewrite leaves_entries.
  destruct Hwf as [[h Hw] Hc]. destruct (wf_leftmost _ _ _ _ _ Hw) as (l & ls & Hl & -> & _).
  rewrite Hl. apply (walk_spec t end_ ls []); [|done|done]. split; [by exists h|done].
Qed.

(** ** Height *)

Lemma chain_size (P : bound -> bound -> node -> Prop) (b : nat) lo ks cs hi :
  (forall lo hi n, P lo hi n -> b <= length (entries n)) ->
  chain P lo ks cs hi -> S (length ks) * b <= length (flat_map entries cs).
Proof.
  intros HP. revert lo cs. induction ks as [|k ks IH]; intros lo [|c cs] H; simpl in *; try tauto.
  - destruct cs; [|tauto]. simpl. rewrite app_nil_r. apply HP in H. lia.
  - destruct H as [Hc H]. apply HP in Hc. apply IH in H. rewrite length_app. lia.
Qed.

Lemma wf_size (h : nat) (lo hi : bound) (n : node) :
  wf h minKeys lo hi n -> minKeys * (S minKeys) ^ h <= length (entries n).
Proof.
  revert lo hi n. induction h as [|h IH]; intros lo hi [a ks nx|ks cs] H; try (simpl in H; contradiction).
  - destruct H as (H & _). cbn [entries]. change ((S minKeys) ^ 0) with 1. lia.
  - destruct H as [Hl H]. apply (chain_size _ (minKeys * (S minKeys) ^ h)) in H; [|apply IH].
    simpl entries. rewrite Nat.pow_succ_r'. nia.
Qed.

Lemma filter_split_Forall (P : Expiration -> Prop) `{!forall x, Decision (P x)}
    (l1 l2 : list Expiration) :
  Forall P l1 -> Forall (fun x => ~ P x) l2 -> filter P (l1 ++ l2) = l1.
Proof.
  intros H1 H2. rewrite filter_app.
  assert (filter P l2 = []) as ->.
  { induction H2; [done|]. by rewrite filter_cons_False. }
  rewrite app_nil_r. induction H1; [done|]. rewrite filter_cons_True by done. congruence.
Qed.

(** ** Properties *)

(** C24: a tree of expirations is a correct sorted set. Starting from a
    well-formed tree, [Insert] never panics, keeps the invariant (balance,
    occupancy between [minKeys] and [maxKeys], separator bounds, leaf chain) and
    its entries become the old ones with the new one at its sorted place; an
    entry already present is left alone. *)
Theorem Insert_correct (t : Tree) (exp : Z) (k : string) :
  tree_wf t ->
  exists t', Insert t exp k = Some t' /\ tree_wf t' /\
             elems t' = sorted_insert (mkExpiration k exp) (elems t).
Proof. apply Insert_ok. Qed.

(** A tree of sixty entries, deep enough to have split internal nodes. *)
Definition sample_tree : Tree :=
  default New (foldl (fun o z => t ← o; Insert t z "k") (Some New) (Z.of_nat <$> seq 0 60)).

Lemma sample_tree_wf : tree_wf sample_tree.
Proof.
  unfold sample_tree. generalize (Z.of_nat <$> seq 0 60).
  assert (forall l t, tree_wf t ->
    exists t', foldl (fun o z => t ← o; Insert t z "k") (Some t) l = Some t' /\ tree_wf t') as H.
  { induction l as [|z l IH]; intros t Ht; simpl; [by eauto|].
    destruct (Insert_ok t z "k" Ht) as (t' & -> & Ht' & _). by apply IH. }
  intros l. destruct (H l New tree_wf_New) as (t' & -> & Ht'). done.
Qed.

Lemma Insert_correct_witness :
  exists t', Insert sample_tree 25 "z" = Some t' /\ tree_wf t' /\
             elems t' = sorted_insert (mkExpiration "z" 25) (elems sample_tree).
Proof. apply (Insert_correct sample_tree 25 "z"). exact sample_tree_wf. Defined.

(** C2: [Delete] on a well-formed tree never panics. When the entry is present
    it is removed, everything else is kept in order and the invariant is
    restored by borrowing or merging; when it is absent the tree is unchanged
    and the error is [ErrNotFound]. *)
Theorem Delete_correct (t : Tree) (exp : Z) (k : string) :
  tree_wf t -> exists r, Delete t exp k = Some r /\ delete_outcome t (mkExpiration k exp) r.
Proof. apply Delete_ok. Qed.

Lemma Delete_correct_witness :
  exists r, Delete sample_tree 25 "k" = Some r /\
            delete_outcome sample_tree (mkExpiration "k" 25) r.
Proof. apply (Delete_correct sample_tree 25 "k"). exact sample_tree_wf. Defined.

(** C3: [Range end] walks the leaf chain from the leftmost leaf and returns
    exactly the entries that expire at or before [end], in ascending order;
    the number of leaves is enough fuel for the walk. *)
Theorem Range_correct (t : Tree) (end_ : Z) :
  tree_wf t ->
  exists l, Range t end_ = Some l /\ StronglySorted lt l /\
    forall e, e ∈ l <-> e ∈ elems t /\ (Exp e <= end_)%Z.
Proof.
  intros Hwf. eexists. split; [by apply Range_filter|]. split.
  - apply sorted_filter, elems_sorted, Hwf.
  - intros e. rewrite list_elem_of_filter. tauto.
Qed.

Lemma Range_correct_witness :
  exists l, Range sample_tree 30 = Some l /\ StronglySorted lt l /\
    forall e, e ∈ l <-> e ∈ elems sample_tree /\ (Exp e <= 30)%Z.
Proof. apply (Range_correct sample_tree 30). exact sample_tree_wf. Defined.

(** [First] returns the soonest expiration: [None] exactly on an empty
    tree, otherwise the least entry. *)
Theorem First_correct (t : Tree) :
  tree_wf t ->
  match First t with
  | None => elems t = []
  | Some e => e ∈ elems t /\ forall x, x ∈ elems t -> x = e \/ lt e x
  end.
Proof.
  intros Hwf. rewrite (First_head t Hwf). pose proof (elems_sorted t Hwf) as Hs.
  destruct (elems t) as [|e l]; [done|]. simpl. split; [left|].
  intros x [->|Hx]%elem_of_cons; [by left|]. right.
  inversion Hs as [|? ? _ Hf]; subst. rewrite Forall_forall in Hf. by apply Hf.
Qed.

Lemma First_correct_witness :
  match First sample_tree with
  | None => elems sample_tree = []
  | Some e => e ∈ elems sample_tree /\ forall x, x ∈ elems sample_tree -> x = e \/ lt e x
  end.
Proof. apply (First_correct sample_tree). exact sample_tree_wf. Defined.

(** ** Histories of a tree *)

Inductive tree_op : Type :=
  | DoInsert (exp : Z) (k : string)
  | DoDelete (exp : Z) (k : string).

(** A call of the tree; the error of a failed [Delete] is dropped. *)
Definition tree_step (t : Tree) (o : tree_op) : option Tree :=
  match o with
  | DoInsert exp k => Insert t exp k
  | DoDelete exp k => snd <$> Delete t exp k
  end.

Definition tree_run (t : Tree) (ops : list tree_op) : option Tree :=
  foldl (fun o op => t ← o; tree_step t op) (Some t) ops.

(** The same calls on a sorted list. *)
Definition set_step (l : list Expiration) (o : tree_op) : list Expiration :=
  match o with
  | DoInsert exp k => sorted_insert (mkExpiration k exp) l
  | DoDelete exp k => sorted_remove (mkExpiration k exp) l
  end.

(** How far below a node each of its leaves lies, from left to right. *)
Fixpoint leaf_depths (n : node) : list nat :=
  match n with
  | Leaf _ _ _ => [0]
  | Internal _ cs => S <$> flat_map leaf_depths cs
  end.

Lemma wf_depths h m lo hi n : wf h m lo hi n -> leaf_depths n <> [] /\ Forall (eq h) (leaf_depths n).
Proof.
  revert m lo hi n. induction h as [|h IH]; intros m lo hi [a ks nx|ks cs] H; try (simpl in H; contradiction).
  { simpl. split; [done|]. by constructor. }
  destruct H as [_ H]. simpl. assert (flat_map leaf_depths cs <> [] /\ Forall (eq h) (flat_map leaf_depths cs)) as [Hne Hall].
  { revert lo cs H. induction ks as [|k ks IHk]; intros lo [|c cs] H; simpl in H; try tauto.
    - destruct cs; [|tauto]. simpl. rewrite app_nil_r. by eapply IH.
    - destruct H as [Hc H]. apply IH in Hc as [? ?]. apply IHk in H as [? ?]. simpl. split.
      + by destruct (leaf_depths c).
      + by apply Forall_app. }
  split; [by destruct (flat_map leaf_depths cs)|]. apply Forall_fmap. eapply Forall_impl; [exact Hall|]. by intros ? <-.
Qed.

Lemma tree_wf_shallow t :
  tree_wf t -> exists h, leaf_depths (root t) <> [] /\ Forall (eq h) (leaf_depths (root t)) /\
    (h = 0 \/ 2 * (minKeys * (S minKeys) ^ (h - 1)) <= length (elems t)).
Proof.
  intros [[h Hwf] _]. exists h. destruct (wf_depths _ _ _ _ _ Hwf) as [Hne Hall]. split_and!; [done..|].
  destruct h as [|h]; [by left|right]. unfold elems. destruct (root t) as [|ks cs]; [simpl in Hwf; tauto|].
  destruct Hwf as [Hl Hc]. apply (chain_size _ (minKeys * (S minKeys) ^ h)) in Hc; [|apply wf_size].
  simpl entries. replace (S h - 1) with h by lia. simpl root_min in Hl. nia.
Qed.

Lemma tree_step_ok t o :
  tree_wf t -> exists t', tree_step t o = Some t' /\ tree_wf t' /\ elems t' = set_step (elems t) o.
Proof.
  intros Hwf. destruct o as [exp k|exp k]; [by apply Insert_ok|]. unfold tree_step.
  destruct (Delete_ok t exp k Hwf) as ([[e|] t'] & -> & Ho); simpl in *; exists t'.
  - destruct Ho as (_ & Hn & ->). split_and!; [done..|]. symmetry. by apply sorted_remove_absent.
  - destruct Ho as (_ & ? & ?). by split_and!.
Qed.

(** C5: every tree that calls build is a shallow sorted set: any sequence of
    [Insert] and [Delete] calls from the empty tree runs without a panic, ends
    with exactly the entries that the same calls leave in a sorted list, and all
    leaves of the tree lie equally deep, at a depth [h] that is 0 or for which
    there are at least [6 * 4^(h-1)] entries: the depth, and with it the cost of
    a descent, is logarithmic in the number of entries. *)
Theorem height_bound (ops : list tree_op) :
  exists t h, tree_run New ops = Some t /\ elems t = foldl set_step [] ops /\
    leaf_depths (root t) <> [] /\ Forall (eq h) (leaf_depths (root t)) /\
    (h = 0 \/ 2 * (minKeys * (S minKeys) ^ (h - 1)) <= length (elems t)).
Proof.
  assert (exists t, tree_run New ops = Some t /\ tree_wf t /\ elems t = foldl set_step [] ops) as (t & Hr & Hwf & He).
  { unfold tree_run. induction ops as [|o ops IH] using rev_ind; [exists New; by split_and!; [|apply tree_wf_New|]|].
    destruct IH as (t & E & Hwf & He). rewrite !foldl_snoc, E, <- He. simpl. by apply tree_step_ok. }
  exists t. destruct (tree_wf_shallow t Hwf) as (h & ? & ? & ?). by exists h.
Qed.

(** The binary searches agree with their linear meaning: in a strictly
    sorted key list [lowerBound] is the number of keys below the target and
    [childIndex] the number of keys not above it. *)
Theorem bsearch_positions (ks : list Expiration) (t : Expiration) :
  StronglySorted lt ks ->
  lowerBound ks t = length (filter (fun k => less k t = true) ks) /\
  childIndex ks t = length (filter (fun k => less t k = false) ks).
Proof.
  intros Hs. split.
  - destruct (sorted_split_lt ks t Hs) as (l1 & l2 & -> & H1 & H2).
    rewrite (lowerBound_split l1 l2 t H1 H2). symmetry. f_equal.
    apply filter_split_Forall; [done|]. eapply Forall_impl; [exact H2|]. simpl. congruence.
  - destruct (sorted_split_le ks t Hs) as (l1 & l2 & -> & H1 & H2).
    rewrite (childIndex_split l1 l2 t H1 H2). symmetry. f_equal.
    apply filter_split_Forall; [done|]. eapply Forall_impl; [exact H2|]. simpl. congruence.
Qed.

Lemma bsearch_positions_witness :
  lowerBound (elems sample_tree) (mkExpiration "k" 20) = 20 /\
  childIndex (elems sample_tree) (mkExpiration "k" 20) = 21.
Proof.
  destruct (bsearch_positions (elems sample_tree) (mkExpiration "k" 20)) as [-> ->].
  - apply elems_sorted, sample_tree_wf.
  - split; vm_compute; reflexivity.
Defined.
