(* ===== verification/Expiration.v ===== *)
(** * Expiration index (internal/expiration)

    [Index] wraps the B+tree in a mutex. The class [ExpirationIndex] is what
    the package offers its client, the store; [ExpirationIndexLaws] is what it
    promises, in terms of the set of (exp, key) pairs it holds. The B+tree
    instance at the end discharges the promise. *)

From S2P Require Import Prelude BTree BTreeOrder BTreeInv BTreeDelete BTreeThms.

(** ** The interface *)

(** [None] is a run-time panic inside the index. *)
Class ExpirationIndex (I : Type) : Type := {
  idx_new : I;
  idx_insert : I -> Z -> string -> option I;
  idx_delete : I -> Z -> string -> option (option error * I);
  idx_first : I -> option Expiration;
  idx_range : I -> Z -> option (list Expiration)
}.

Class ExpirationIndexLaws (I : Type) {ops : ExpirationIndex I} : Type := {
  idx_ok : I -> Prop;
  idx_set : I -> gset Expiration;
  idx_new_ok : idx_ok idx_new /\ idx_set idx_new = ∅;
  idx_insert_ok (i : I) (exp : Z) (k : string) :
    idx_ok i ->
    exists i', idx_insert i exp k = Some i' /\ idx_ok i' /\
               idx_set i' = {[mkExpiration k exp]} ∪ idx_set i;
  idx_delete_ok (i : I) (exp : Z) (k : string) :
    idx_ok i ->
    exists e i', idx_delete i exp k = Some (e, i') /\ idx_ok i' /\
                 idx_set i' = idx_set i ∖ {[mkExpiration k exp]} /\
                 (e = None <-> mkExpiration k exp ∈ idx_set i);
  idx_first_ok (i : I) :
    idx_ok i ->
    match idx_first i with
    | None => idx_set i = ∅
    | Some e => e ∈ idx_set i /\ forall x, x ∈ idx_set i -> (Exp e <= Exp x)%Z
    end;
  idx_range_ok (i : I) (end_ : Z) :
    idx_ok i ->
    exists l, idx_range i end_ = Some l /\ forall e, e ∈ l <-> e ∈ idx_set i /\ (Exp e <= end_)%Z
}.

(** ** The implementation (index.go)

    The mutex makes each operation one atomic step on [tree]. *)

Record Index : Type := mkIndex { tree : Tree }.

Definition NewIndex : Index := mkIndex New.

Definition Index_Insert (idx : Index) (exp : Z) (k : string) : option Index :=
  t ← Insert (tree idx) exp k; Some (mkIndex t).

Definition Index_Delete (idx : Index) (exp : Z) (k : string) : option (option error * Index) :=
  '(e, t) ← Delete (tree idx) exp k; Some (e, mkIndex t).

Definition Index_First (idx : Index) : option Expiration := First (tree idx).

Definition Index_Range (idx : Index) (end_ : Z) : option (list Expiration) :=
  Range (tree idx) end_.

#[export] Instance Index_ops : ExpirationIndex Index := {|
  idx_new := NewIndex;
  idx_insert := Index_Insert;
  idx_delete := Index_Delete;
  idx_first := Index_First;
  idx_range := Index_Range
|}.

(** ** The implementation meets the interface *)

Definition index_elems (idx : Index) : gset Expiration := list_to_set (elems (tree idx)).

Lemma elem_of_index_elems (idx : Index) (e : Expiration) :
  e ∈ index_elems idx <-> e ∈ elems (tree idx).
Proof. unfold index_elems. by rewrite elem_of_list_to_set. Qed.

#[export] Program Instance Index_laws : ExpirationIndexLaws Index := {|
  idx_ok idx := tree_wf (tree idx);
  idx_set := index_elems
|}.
Next Obligation. split; [apply tree_wf_New|done]. Qed.
Next Obligation.
  intros [t] exp k Ht. simpl in *. unfold Index_Insert. simpl.
  destruct (Insert_ok t exp k Ht) as (t' & -> & Ht' & He). simpl. eexists. split; [done|].
  split; [done|]. apply set_eq. intros e.
  rewrite elem_of_union, elem_of_singleton, !elem_of_index_elems. simpl.
  rewrite He. apply sorted_insert_mem, elems_sorted, Ht.
Qed.
Next Obligation.
  intros [t] exp k Ht. simpl in *. unfold Index_Delete. simpl.
  destruct (Delete_ok t exp k Ht) as ([e t'] & -> & Hd). simpl. exists e, (mkIndex t').
  split; [done|]. rewrite elem_of_index_elems. simpl. destruct e as [e|]; simpl in Hd.
  - destruct Hd as (-> & Hn & ->). split; [done|]. split; [|naive_solver].
    apply set_eq. intros x. rewrite elem_of_difference, elem_of_singleton, elem_of_index_elems.
    simpl. naive_solver.
  - destruct Hd as (Hin & Ht' & He). split; [done|]. split; [|naive_solver].
    apply set_eq. intros x. rewrite elem_of_difference, elem_of_singleton, !elem_of_index_elems.
    simpl. rewrite He, sorted_remove_mem. naive_solver.
Qed.
Next Obligation.
  intros [t] Ht. simpl in *. unfold Index_First. simpl. rewrite (First_head t Ht).
  pose proof (elems_sorted t Ht) as Hs. destruct (elems t) as [|e l] eqn:E; simpl.
  - apply set_eq. intros x. rewrite elem_of_index_elems. simpl. rewrite E. set_solver.
  - split; [rewrite elem_of_index_elems; simpl; rewrite E; left|].
    intros x. rewrite elem_of_index_elems. simpl. rewrite E.
    intros [->|Hx]%elem_of_cons; [lia|]. inversion Hs as [|? ? _ Hf]; subst.
    rewrite Forall_forall in Hf. by apply lt_Exp_le, Hf.
Qed.
Next Obligation.
  intros [t] end_ Ht. simpl in *. unfold Index_Range. simpl. eexists.
  split; [by apply Range_filter|]. intros e. rewrite list_elem_of_filter, elem_of_index_elems.
  simpl. tauto.
Qed.
