(* ===== verification/WalTypes.v ===== *)
(** * WAL data types (internal/wal/wal.go) *)

From S2P Require Import Prelude.

(** A file's content and a JSON payload are byte sequences. *)
Abbreviation bytes := (list Ascii.ascii).

(** [Op] is a string in the source: the named constants and any other text
    that a decoded record may carry. *)
Inductive Op : Type :=
  | OpPut | OpDelete | OpTTL | OpNoop | OpConfig | OpHotStuff | OpMembership
  | OpUnknown (s : string).

Record Record_ : Type := mkRecord {
  op : Op;
  rkey : string;
  val : string;
  rexp : Z;
  logIndex : N;
  term : N;
  raftIndex : N;
  config : bytes;
  rdata : bytes
}.

#[export] Instance Op_eq_dec : EqDecision Op.
Proof. solve_decision. Defined.
#[export] Instance Record_eq_dec : EqDecision Record_.
Proof. solve_decision. Defined.

(** A record with the store fields set and every other field zero. *)
Definition store_record (o : Op) (k v : string) (e : Z) : Record_ :=
  mkRecord o k v e 0 0 0 [] [].

Definition with_logIndex (r : Record_) (i : N) : Record_ :=
  mkRecord (op r) (rkey r) (val r) (rexp r) i (term r) (raftIndex r) (config r) (rdata r).

Record SnapshotEntry : Type := mkSnapshotEntry { skey : string; sval : string; sexp : Z }.

#[export] Instance SnapshotEntry_eq_dec : EqDecision SnapshotEntry.
Proof. solve_decision. Defined.

(** What the store and the consensus engines use of a WAL: append a record,
    durably, or report why not. *)
Class Wal (W : Type) : Type := wal_append : W -> Record_ -> W * option error.

(** A WAL whose content can be observed: a successful append adds the record, a
    failed one may have left it there. *)
Class WalTrace (W : Type) {WW : Wal W} : Type := {
  wal_log : W -> list Record_;
  wal_append_log : forall w r w' e, wal_append w r = (w', e) ->
    exists l, wal_log w' = wal_log w ++ l /\ (e = None -> l = [r]);
}.

Definition wal_content {W} {WW : Wal W} {WT : WalTrace W} (l : option W) : list Record_ :=
  match l with Some w => wal_log w | None => [] end.

(** [len(b) > 0]. *)
Definition is_set (b : bytes) : bool := negb (length b =? 0)%nat.

(** ** uint64 *)

(** [x + 1] in uint64. *)
Definition u64_succ (n : N) : N := ((n + 1) mod 2 ^ 64)%N.

Lemma u64_succ_small (n : N) : (n + 1 < 2 ^ 64)%N -> u64_succ n = (n + 1)%N.
Proof. intros H. by apply N.mod_small. Qed.

(** ** The on-disk formats

    [encoding/json] as the code uses it. A record is written as one line;
    [json_record] can fail in Go's signature. *)

Record snapEntry : Type := mkSnapEntry { snVal : string; snExp : Z }.

(** [Data] is [None] for a nil map. *)
Record snapshotData : Type := mkSnapshotData {
  LastLogIndex : N;
  Data : option (gmap string snapEntry)
}.

Class Json : Type := {
  json_record : Record_ -> result bytes;
  json_unrecord : bytes -> option Record_;
  json_snapshot : snapshotData -> result bytes;
  json_unsnapshot : bytes -> option snapshotData
}.

Definition nl : Ascii.ascii := Ascii.ascii_of_nat 10.

(** What the code relies on, for the values [json_fits] and [snap_fits] (those
    whose strings are valid UTF-8 and numbers in range): an encoding is one
    line, decodes to the value, and no proper prefix of it decodes; empty input
    does not decode. *)
Class JsonLaws `{!Json} : Type := {
  json_fits : Record_ -> Prop;
  json_record_ok : forall r, json_fits r ->
    exists b, json_record r = Ok b /\ (nl ∉ b) /\ json_unrecord b = Some r /\
      forall p, p `prefix_of` b -> p <> b -> json_unrecord p = None;
  json_unrecord_nil : json_unrecord [] = None;
  snap_fits : snapshotData -> Prop;
  json_snapshot_ok : forall d, snap_fits d ->
    exists b, json_snapshot d = Ok b /\ json_unsnapshot (b ++ [nl]) = Some d
}.
Arguments JsonLaws {_}.

(** [Record.marshal] (wal.go). *)
Definition marshal `{!Json} (r : Record_) : result bytes :=
  match json_record r with
  | Ok b => Ok (b ++ [nl])
  | Err e => Err e
  end.
