(* ===== verification/Store.v ===== *)
(** * The cache store (internal/store)

    The state is the data map, the expiration index and the optional WAL. The
    store is generic in the index and in the WAL, which it uses through their
    interfaces only. Every read of the clock ([time.Now().UnixMilli()]) is an
    argument; the mutex makes each locked section one step. [None] is a panic
    inside the index. *)

From S2P Require Import Prelude BTree Expiration WalTypes.

(** ** Errors (errors.go) *)

(** [protocol.Statusf(protocol.CodeNotFound, "invalid key")]. *)
Definition ErrorCodeInvalidKey : error := Status 5 "invalid key".

(** ** State (store.go) *)

Record Entry : Type := mkEntry { Value : string; EExp : Z }.

#[export] Instance Entry_eq_dec : EqDecision Entry.
Proof. solve_decision. Defined.

Record CacheyStore (I W : Type) : Type := mkStore {
  data : gmap string Entry;
  index : I;
  wal : option W
}.
Arguments mkStore {I W} _ _ _.
Arguments data {I W} _.
Arguments index {I W} _.
Arguments wal {I W} _.

Definition with_data {I W} (s : CacheyStore I W) (d : gmap string Entry) : CacheyStore I W :=
  mkStore d (index s) (wal s).
Definition with_index {I W} (s : CacheyStore I W) (i : I) : CacheyStore I W :=
  mkStore (data s) i (wal s).
Definition with_wal {I W} (s : CacheyStore I W) (w : option W) : CacheyStore I W :=
  mkStore (data s) (index s) w.

Section store.
Context {I W : Type} `{!ExpirationIndex I} `{!Wal W}.

Definition NewCacheyStore : CacheyStore I W := mkStore ∅ idx_new None.

Definition SetWAL (s : CacheyStore I W) (w : W) : CacheyStore I W := with_wal s (Some w).

Definition appendWAL (s : CacheyStore I W) (rec : Record_) : CacheyStore I W * option error :=
  match wal s with
  | None => (s, None)
  | Some w => let '(w', e) := wal_append w rec in (with_wal s (Some w'), e)
  end.

Definition isExpired (now : Z) (e : Entry) : bool :=
  negb (EExp e =? 0)%Z && (EExp e <=? now)%Z.

(** [s.index.Delete(exp, key)], its error ignored as every caller does. *)
Definition unindex (s : CacheyStore I W) (exp : Z) (k : string) : option (CacheyStore I W) :=
  '(_, i) ← idx_delete (index s) exp k; Some (with_index s i).

Definition expireKey (s : CacheyStore I W) (now : Z) (k : string) (seen : Entry)
    : option (CacheyStore I W) :=
  match data s !! k with
  | None => Some s
  | Some entry =>
      if (negb (EExp entry =? EExp seen)%Z || negb (isExpired now entry))%bool then Some s
      else unindex (with_data s (delete k (data s))) (EExp entry) k
  end.

(** [now] is the clock at the test, [now'] the clock when [expireKey]
    re-checks under the write lock. *)
Definition Get (s : CacheyStore I W) (now now' : Z) (k : string)
    : option (result string * CacheyStore I W) :=
  match data s !! k with
  | None => Some (Err ErrorCodeInvalidKey, s)
  | Some entry =>
      if isExpired now entry then
        s' ← expireKey s now' k entry; Some (Err ErrorCodeInvalidKey, s')
      else Some (Ok (Value entry), s)
  end.

(** The part of [Put] and of the PUT replay that changes memory. *)
Definition putLocked (s : CacheyStore I W) (k v : string) : option (CacheyStore I W) :=
  s' ← match data s !! k with
       | Some old => if negb (EExp old =? 0)%Z then unindex s (EExp old) k else Some s
       | None => Some s
       end;
  Some (with_data s' (<[k := mkEntry v 0]> (data s'))).

Definition Put (s : CacheyStore I W) (k v : string) : option (option error * CacheyStore I W) :=
  let '(s1, e) := appendWAL s (store_record OpPut k v 0) in
  match e with
  | Some err => Some (Some err, s1)
  | None => s2 ← putLocked s1 k v; Some (None, s2)
  end.

Definition deleteLocked (s : CacheyStore I W) (now : Z) (k : string)
    : option (option error * CacheyStore I W) :=
  match data s !! k with
  | None => Some (Some ErrorCodeInvalidKey, s)
  | Some entry =>
      let expired := isExpired now entry in
      let s1 := with_data s (delete k (data s)) in
      s2 ← (if negb (EExp entry =? 0)%Z then unindex s1 (EExp entry) k else Some s1);
      Some (if expired then Some ErrorCodeInvalidKey else None, s2)
  end.

Definition Delete (s : CacheyStore I W) (now : Z) (k : string)
    : option (option error * CacheyStore I W) :=
  match data s !! k with
  | None => Some (Some ErrorCodeInvalidKey, s)
  | Some _ =>
      let '(s1, e) := appendWAL s (store_record OpDelete k "" 0) in
      match e with
      | Some err => Some (Some err, s1)
      | None => deleteLocked s1 now k
      end
  end.

Definition ttlAtLocked (s : CacheyStore I W) (now : Z) (k : string) (exp : Z)
    : option (option error * CacheyStore I W) :=
  match data s !! k with
  | None => Some (Some ErrorCodeInvalidKey, s)
  | Some entry =>
      s1 ← (if negb (EExp entry =? 0)%Z then unindex s (EExp entry) k else Some s);
      if isExpired now entry then
        Some (Some ErrorCodeInvalidKey, with_data s1 (delete k (data s1)))
      else
        let s2 := with_data s1 (<[k := mkEntry (Value entry) exp]> (data s1)) in
        i ← idx_insert (index s2) exp k;
        Some (None, with_index s2 i)
  end.

(** [now] is the clock the expiry is computed from, [now'] the clock of the
    expiry test in [ttlAtLocked]. *)
Definition TTL (s : CacheyStore I W) (now now' : Z) (k : string) (ttlMillis : Z)
    : option (option error * CacheyStore I W) :=
  match data s !! k with
  | None => Some (Some ErrorCodeInvalidKey, s)
  | Some _ =>
      let exp := int64_wrap (now + ttlMillis) in
      let '(s1, e) := appendWAL s (store_record OpTTL k "" exp) in
      match e with
      | Some err => Some (Some err, s1)
      | None => ttlAtLocked s1 now' k exp
      end
  end.

Fixpoint ApplySnapshot (s : CacheyStore I W) (entries : list SnapshotEntry)
    : option (CacheyStore I W) :=
  match entries with
  | [] => Some s
  | e :: entries' =>
      let s1 := with_data s (<[skey e := mkEntry (sval e) (sexp e)]> (data s)) in
      s2 ← (if negb (sexp e =? 0)%Z
            then i ← idx_insert (index s1) (sexp e) (skey e); Some (with_index s1 i)
            else Some s1);
      ApplySnapshot s2 entries'
  end.

(** An unknown op is an error; the errors of [deleteLocked] and
    [ttlAtLocked] are dropped. *)
Definition ApplyRecord (s : CacheyStore I W) (now : Z) (rec : Record_)
    : option (option error * CacheyStore I W) :=
  match op rec with
  | OpPut => s' ← putLocked s (rkey rec) (val rec); Some (None, s')
  | OpDelete => '(_, s') ← deleteLocked s now (rkey rec); Some (None, s')
  | OpTTL => '(_, s') ← ttlAtLocked s now (rkey rec) (rexp rec); Some (None, s')
  | OpNoop | OpConfig | OpHotStuff | OpMembership => Some (None, s)
  | OpUnknown o => Some (Some (Wrapped ("wal: unknown op " +:+ o)), s)
  end.

(** The live entries, in the map's iteration order. *)
Definition Snapshot (s : CacheyStore I W) (now : Z) : list SnapshotEntry :=
  (fun p => mkSnapshotEntry p.1 (Value p.2) (EExp p.2)) <$>
  filter (fun p : string * Entry => isExpired now p.2 = false) (map_to_list (data s)).

Definition Alive (s : CacheyStore I W) : string := "ALIVE".
Definition Leader (s : CacheyStore I W) : string := "".

(** ** Active expiration (active_expiration.go) *)

Definition maxCleanupPerRun : nat := 100.

(** One iteration per unit of fuel; [clk i] is the clock read by the expiry
    test of the i-th iteration. [None] when the fuel runs out. *)
Fixpoint cleanupLoop (fuel : nat) (now : Z) (clk : nat -> Z) (limit removed : nat)
    (s : CacheyStore I W) : option (nat * CacheyStore I W) :=
  match fuel with
  | O => None
  | S fuel' =>
      if (removed <? limit)%nat then
        match idx_first (index s) with
        | None => Some (removed, s)
        | Some e =>
            if (now <? Exp e)%Z then Some (removed, s)
            else
              let stillExpired :=
                match data s !! Key e with
                | Some entry => (EExp entry =? Exp e)%Z && isExpired (clk 0) entry
                | None => false
                end in
              let s1 := if stillExpired then with_data s (delete (Key e) (data s)) else s in
              s2 ← unindex s1 (Exp e) (Key e);
              cleanupLoop fuel' now (fun i => clk (S i)) limit
                (if stillExpired then S removed else removed) s2
        end
      else Some (removed, s)
  end.

Definition cleanupExpired (fuel : nat) (now : Z) (clk : nat -> Z) (limit : nat)
    (s : CacheyStore I W) : option (nat * CacheyStore I W) :=
  cleanupLoop fuel now clk limit 0 s.
End store.
