(* ===== verification/StoreProps.v ===== *)
(** * The cache store: invariant, refinement of a timed map, recovery

    The specification of the store is a map from keys to entries, of which the
    entries that have not expired are visible. The theorems are proved against
    the index interface, for any WAL. *)

From S2P Require Import Prelude BTree Expiration WalTypes Store.

(** ** The specification: a map with expirations *)

Definition put_data (d : gmap string Entry) (k v : string) : gmap string Entry :=
  <[k := mkEntry v 0]> d.

Definition ttl_data (now : Z) (d : gmap string Entry) (k : string) (exp : Z) : gmap string Entry :=
  match d !! k with
  | None => d
  | Some e => if isExpired now e then delete k d else <[k := mkEntry (Value e) exp]> d
  end.

Definition apply_data (now : Z) (d : gmap string Entry) (rec : Record_) : gmap string Entry :=
  match op rec with
  | OpPut => put_data d (rkey rec) (val rec)
  | OpDelete => delete (rkey rec) d
  | OpTTL => ttl_data now d (rkey rec) (rexp rec)
  | _ => d
  end.

Definition load_data (d : gmap string Entry) (l : list SnapshotEntry) : gmap string Entry :=
  foldl (fun d e => <[skey e := mkEntry (sval e) (sexp e)]> d) d l.

(** What a client can see at time [now]. *)
Definition visible (now : Z) (d : gmap string Entry) (k : string) : option string :=
  match d !! k with
  | Some e => if isExpired now e then None else Some (Value e)
  | None => None
  end.

Section store_props.
Context {I W : Type} `{!ExpirationIndex I} `{!ExpirationIndexLaws I} `{!Wal W}.
Implicit Types s : CacheyStore I W.

(** The invariant: the index is well formed and every entry with an expiry is
    in it, so that active expiration finds it. *)
Definition store_ok s : Prop :=
  idx_ok (index s) /\
  forall k e, data s !! k = Some e -> EExp e <> 0%Z -> mkExpiration k (EExp e) ∈ idx_set (index s).

(** No stale pair: what the index holds is the current expiry of a key. *)
Definition index_tight s : Prop :=
  forall x, x ∈ idx_set (index s) ->
  exists e, data s !! Key x = Some e /\ EExp e = Exp x /\ EExp e <> 0%Z.

(** [s'] has the given data, a sound index and the WAL of [s]. *)
Definition moves_to s (d : gmap string Entry) s' : Prop :=
  data s' = d /\ wal s' = wal s /\ store_ok s' /\ (index_tight s -> index_tight s').

Lemma store_ok_New : store_ok NewCacheyStore.
Proof. split; simpl; [apply idx_new_ok|]. intros k e. by rewrite lookup_empty. Qed.

Lemma index_tight_New : index_tight NewCacheyStore.
Proof. intros x. simpl. rewrite (proj2 idx_new_ok). set_solver. Qed.

Lemma unindex_spec s exp k :
  idx_ok (index s) ->
  exists s', unindex s exp k = Some s' /\ data s' = data s /\ wal s' = wal s /\
    idx_ok (index s') /\ idx_set (index s') = idx_set (index s) ∖ {[mkExpiration k exp]}.
Proof.
  intros Hok. unfold unindex.
  destruct (idx_delete_ok (index s) exp k Hok) as (e & i & -> & Hi & Hs & _).
  simpl. eexists. split; [done|]. by simpl.
Qed.

(** Dropping the index pair of an entry that leaves the map. *)
Lemma unindex_moves s s0 k e d :
  store_ok s -> data s !! k = Some e -> index s0 = index s -> wal s0 = wal s ->
  data s0 = d -> (forall k', k' <> k -> d !! k' = data s !! k') ->
  (forall e', d !! k = Some e' -> EExp e' = 0%Z) ->
  exists s', (if negb (EExp e =? 0)%Z then unindex s0 (EExp e) k else Some s0) = Some s' /\
             moves_to s d s'.
Proof.
  intros [Hok Hin] He Hi Hw Hd Hother Hk. destruct (EExp e =? 0)%Z eqn:E; simpl; bool_to_prop.
  - eexists. split; [done|]. split; [done|]. split; [done|]. split.
    + split; [by rewrite Hi|]. rewrite Hd, Hi. intros k' e' He' Hne.
      destruct (decide (k' = k)) as [->|Hk']; [by rewrite Hk in Hne|].
      rewrite Hother in He' by done. eauto.
    + intros Ht x. rewrite Hi, Hd. intros Hx. destruct (Ht x Hx) as (e' & He' & ? & ?).
      destruct (decide (Key x = k)) as [<-|]; [congruence|].
      rewrite Hother by done. eauto.
  - destruct (unindex_spec s0 (EExp e) k) as (s' & -> & Hd' & Hw' & Hok' & Hs'); [by rewrite Hi|].
    eexists. split; [done|]. rewrite Hi in Hs'. split; [congruence|]. split; [congruence|]. split.
    + split; [done|]. rewrite Hd', Hd, Hs'. intros k' e' He' Hne.
      destruct (decide (k' = k)) as [->|Hk']; [by rewrite Hk in Hne|].
      rewrite Hother in He' by done. set_solver.
    + intros Ht x. rewrite Hs', Hd', Hd. intros [Hx Hxne]%elem_of_difference.
      destruct (Ht x Hx) as (e' & He' & Hex & ?).
      destruct (decide (Key x = k)) as [<-|].
      * exfalso. apply Hxne. simplify_eq. rewrite Hex. by destruct x; apply elem_of_singleton.
      * rewrite Hother by done. eauto.
Qed.

(** Adding the index pair of an entry that gets an expiry. *)
Lemma reindex_moves s k v exp :
  store_ok s -> (forall e, data s !! k = Some e -> EExp e = 0%Z) ->
  exists i, idx_insert (index s) exp k = Some i /\
    (let s' := with_index (with_data s (<[k := mkEntry v exp]> (data s))) i in
     data s' = <[k := mkEntry v exp]> (data s) /\ wal s' = wal s /\ store_ok s' /\
     (exp <> 0%Z -> index_tight s -> index_tight s')).
Proof.
  intros [Hok Hin] Hk. destruct (idx_insert_ok (index s) exp k Hok) as (i & -> & Hi & Hs).
  exists i. split; [done|]. simpl. split; [done|]. split; [done|]. split.
  - split; simpl; [done|]. rewrite Hs. intros k' e'. rewrite lookup_insert. case_decide.
    + intros. simplify_eq. simpl. set_solver.
    + intros. apply elem_of_union_r. eauto.
  - intros Hne Ht x. simpl. rewrite Hs. intros [->%elem_of_singleton|Hx]%elem_of_union; simpl.
    + exists (mkEntry v exp). by rewrite lookup_insert_eq.
    + destruct (Ht x Hx) as (e' & He' & ? & ?).
      destruct (decide (Key x = k)) as [<-|]; [naive_solver|].
      rewrite lookup_insert_ne by done. eauto.
Qed.

Lemma unindex_with_data s d exp k :
  unindex (with_data s d) exp k = (fun s' => with_data s' d) <$> unindex s exp k.
Proof. unfold unindex. simpl. by destruct (idx_delete (index s) exp k) as [[]|]. Qed.

Lemma unindex_data s exp k s' : unindex s exp k = Some s' -> data s' = data s /\ wal s' = wal s.
Proof.
  unfold unindex. destruct (idx_delete (index s) exp k) as [[]|]; simpl; [|done].
  intros. by simplify_eq.
Qed.

(** Dropping the old pair of [k] first and writing the map after it is the
    same as the other way round. *)
Lemma unindex_first s k e d :
  store_ok s -> data s !! k = Some e -> (forall k', k' <> k -> d !! k' = data s !! k') ->
  (forall e', d !! k = Some e' -> EExp e' = 0%Z) ->
  exists s1, (if negb (EExp e =? 0)%Z then unindex s (EExp e) k else Some s) = Some s1 /\
             data s1 = data s /\ wal s1 = wal s /\ moves_to s d (with_data s1 d).
Proof.
  intros Hs He Ho Hk.
  destruct (unindex_moves s (with_data s d) k e d Hs He eq_refl eq_refl eq_refl Ho Hk)
    as (s' & Heq & Hm).
  destruct (negb (EExp e =? 0)%Z); [|simplify_eq; eauto].
  rewrite unindex_with_data in Heq. destruct (unindex s (EExp e) k) as [s1|] eqn:E; [|done].
  simpl in Heq. simplify_eq. apply unindex_data in E as [Hd Hw]. eauto 10.
Qed.

Lemma putLocked_moves s k v :
  store_ok s -> exists s', putLocked s k v = Some s' /\ moves_to s (put_data (data s) k v) s'.
Proof.
  intros Hs. unfold putLocked, put_data. destruct (data s !! k) as [old|] eqn:E.
  - destruct (unindex_first s k old (<[k := mkEntry v 0]> (data s)) Hs E)
      as (s1 & -> & Hd & _ & Hm).
    { intros. by rewrite lookup_insert_ne. }
    { intros e'. rewrite lookup_insert_eq. intros. by simplify_eq. }
    simpl. rewrite Hd. eauto.
  - simpl. eexists. split; [done|]. split; [done|]. split; [done|]. destruct Hs as [Hok Hin]. split.
    + split; simpl; [done|]. intros k' e'. rewrite lookup_insert. case_decide; [|eauto].
      intros. by simplify_eq.
    + intros Ht x Hx. destruct (Ht x Hx) as (e' & He' & ? & ?). simpl.
      rewrite lookup_insert_ne; [eauto|]. intros ->. congruence.
Qed.

Lemma moves_to_refl s : store_ok s -> moves_to s (data s) s.
Proof. by repeat split; try apply H. Qed.

Lemma deleteLocked_moves s now k :
  store_ok s ->
  exists s', deleteLocked s now k
               = Some (match visible now (data s) k with
                       | Some _ => None | None => Some ErrorCodeInvalidKey end, s') /\
             moves_to s (delete k (data s)) s'.
Proof.
  intros Hs. unfold deleteLocked, visible. destruct (data s !! k) as [e|] eqn:E.
  - destruct (unindex_moves s (with_data s (delete k (data s))) k e (delete k (data s)))
      as (s' & Heq & Hm); auto.
    { intros. by rewrite lookup_delete_ne. }
    { intros e'. by rewrite lookup_delete_eq. }
    simpl. rewrite Heq. simpl. exists s'. by destruct (isExpired now e).
  - exists s. split; [done|]. rewrite delete_id by done. by apply moves_to_refl.
Qed.

Lemma ttlAtLocked_moves s now k exp :
  store_ok s ->
  exists s', ttlAtLocked s now k exp
               = Some (match visible now (data s) k with
                       | Some _ => None | None => Some ErrorCodeInvalidKey end, s') /\
             data s' = ttl_data now (data s) k exp /\ wal s' = wal s /\ store_ok s' /\
             (exp <> 0%Z -> index_tight s -> index_tight s').
Proof.
  intros Hs. unfold ttlAtLocked, ttl_data, visible. destruct (data s !! k) as [e|] eqn:E.
  2:{ exists s. by repeat split; try apply Hs. }
  destruct (isExpired now e) eqn:Ex.
  - destruct (unindex_first s k e (delete k (data s)) Hs E) as (s1 & -> & Hd & Hw & Hm).
    { intros. by rewrite lookup_delete_ne. }
    { intros e'. by rewrite lookup_delete_eq. }
    simpl. rewrite Hd. eexists. split; [done|]. destruct Hm as (? & ? & ? & ?). auto.
  - (* the entry, without its old pair, then with the new one *)
    destruct (unindex_first s k e (<[k := mkEntry (Value e) 0]> (data s)) Hs E)
      as (s1 & -> & Hd & Hw & (_ & _ & Hok & Ht)).
    { intros. by rewrite lookup_insert_ne. }
    { intros e'. rewrite lookup_insert_eq. intros. by simplify_eq. }
    simpl. destruct (reindex_moves _ k (Value e) exp Hok) as (i & Hi & Hd' & Hw' & Hok' & Ht').
    { intros e'. simpl. rewrite lookup_insert_eq. intros. by simplify_eq. }
    simpl in Hi. rewrite Hi. simpl in *. rewrite Hd, insert_insert_eq in *.
    eexists. split; [done|]. split; [done|]. split; [done|]. split; [exact Hok'|].
    intros Hne Htt. exact (Ht' Hne (Ht Htt)).
Qed.

(** ** Reads and lazy expiration *)

(** A lazy expiration removes nothing but an entry that has expired at the
    time of the re-check and still has the expiry the reader saw; whatever
    happened in between, no live entry is lost. *)
Lemma expireKey_moves s now k seen :
  store_ok s ->
  exists s', expireKey s now k seen = Some s' /\
    moves_to s (match data s !! k with
                | Some e => if (EExp e =? EExp seen)%Z && isExpired now e
                            then delete k (data s) else data s
                | None => data s
                end) s'.
Proof.
  intros Hs. unfold expireKey. destruct (data s !! k) as [e|] eqn:E.
  2:{ exists s. eauto using moves_to_refl. }
  destruct (EExp e =? EExp seen)%Z; simpl; [|eauto using moves_to_refl].
  destruct (isExpired now e) eqn:Ex; simpl; [|eauto using moves_to_refl].
  destruct (unindex_moves s (with_data s (delete k (data s))) k e (delete k (data s)))
    as (s' & Heq & Hm); auto.
  { intros. by rewrite lookup_delete_ne. }
  { intros e'. by rewrite lookup_delete_eq. }
  unfold isExpired in Ex. bool_to_prop. rewrite (proj2 (Z.eqb_neq _ _)) in Heq by done.
  simpl in Heq. eauto.
Qed.

Lemma isExpired_mono now now' e :
  (now <= now')%Z -> isExpired now e = true -> isExpired now' e = true.
Proof.
  unfold isExpired. intros H Hx. bool_to_prop. apply andb_true_iff. split.
  - apply negb_true_iff. by apply Z.eqb_neq.
  - apply Z.leb_le. lia.
Qed.

Lemma visible_delete_expired now now' d k e k' :
  (now <= now')%Z -> d !! k = Some e -> isExpired now e = true ->
  visible now' (delete k d) k' = visible now' d k'.
Proof.
  intros Hle He Hx. unfold visible. destruct (decide (k = k')) as [<-|].
  - by rewrite lookup_delete_eq, He, (isExpired_mono now now').
  - by rewrite lookup_delete_ne.
Qed.

Lemma Get_moves s now now' k :
  store_ok s -> (now <= now')%Z ->
  exists s', Get s now now' k
               = Some (match visible now (data s) k with
                       | Some v => Ok v | None => Err ErrorCodeInvalidKey end, s') /\
    store_ok s' /\ wal s' = wal s /\ (index_tight s -> index_tight s') /\
    forall t k', (now' <= t)%Z -> visible t (data s') k' = visible t (data s) k'.
Proof.
  intros Hs Hle. unfold Get, visible at 1. destruct (data s !! k) as [e|] eqn:E; [|eauto 10].
  destruct (isExpired now e) eqn:Ex; [|eauto 10].
  destruct (expireKey_moves s now' k e Hs) as (s' & -> & Hd & Hw & Hok & Ht).
  simpl. exists s'. split; [done|]. split; [done|]. split; [done|]. split; [done|].
  intros t k' Hlt. rewrite Hd, E. rewrite Z.eqb_refl, (isExpired_mono now now') by done. simpl.
  by eapply (visible_delete_expired now'); [| |eapply isExpired_mono].
Qed.

(** ** Replay *)

Lemma ApplyRecord_moves s now rec :
  store_ok s ->
  exists e s', ApplyRecord s now rec = Some (e, s') /\
    data s' = apply_data now (data s) rec /\ wal s' = wal s /\ store_ok s' /\
    (rexp rec <> 0%Z -> index_tight s -> index_tight s') /\
    (e <> None <-> exists o, op rec = OpUnknown o).
Proof.
  intros Hs. unfold ApplyRecord, apply_data. destruct (op rec) eqn:Eo.
  all: try (do 2 eexists; split; [done|]; repeat split; auto; try apply Hs; naive_solver).
  - destruct (putLocked_moves s (rkey rec) (val rec) Hs) as (s' & -> & ? & ? & ? & ?).
    simpl. exists None, s'. split_and!; auto. naive_solver.
  - destruct (deleteLocked_moves s now (rkey rec) Hs) as (s' & -> & ? & ? & ? & ?).
    simpl. exists None, s'. split_and!; auto. naive_solver.
  - destruct (ttlAtLocked_moves s now (rkey rec) (rexp rec) Hs) as (s' & -> & ? & ? & ? & ?).
    simpl. exists None, s'. split_and!; auto. naive_solver.
Qed.

Lemma ApplySnapshot_moves (l : list SnapshotEntry) s :
  store_ok s ->
  exists s', ApplySnapshot s l = Some s' /\ data s' = load_data (data s) l /\
             wal s' = wal s /\ store_ok s'.
Proof.
  revert s. induction l as [|e l IH]; intros s [Hok Hin]; simpl; [by eexists|].
  destruct (sexp e =? 0)%Z eqn:E; simpl; bool_to_prop.
  - destruct (IH (with_data s (<[skey e := mkEntry (sval e) (sexp e)]> (data s))))
      as (s' & -> & ? & ? & ?); [|by exists s'].
    split; simpl; [done|]. intros k e'. rewrite lookup_insert.
    case_decide; [intros; by simplify_eq|eauto].
  - destruct (idx_insert_ok (index s) (sexp e) (skey e) Hok) as (i & -> & Hi & Hset). simpl.
    destruct (IH (with_index (with_data s (<[skey e := mkEntry (sval e) (sexp e)]> (data s))) i))
      as (s' & -> & ? & ? & ?); [|by exists s'].
    split; simpl; [done|].
    rewrite Hset. intros k e'. rewrite lookup_insert. case_decide.
    + intros. simplify_eq. simpl. set_solver.
    + intros. apply elem_of_union_r. eauto.
Qed.

Lemma replay_ok (now : Z) (recs : list Record_) s :
  store_ok s ->
  exists s', foldl (fun o r => s ← o; '(_, s') ← ApplyRecord s now r; Some s') (Some s) recs = Some s' /\
    data s' = foldl (apply_data now) (data s) recs /\ store_ok s'.
Proof.
  revert s. induction recs as [|r recs IH]; intros s Hs; simpl; [eauto|].
  destruct (ApplyRecord_moves s now r Hs) as (e & s' & -> & <- & _ & Hs' & _). simpl. by apply IH.
Qed.

(** ** Active expiration *)

Lemma cleanupLoop_ok (fuel : nat) (now : Z) (clk : nat -> Z) (limit removed : nat) s :
  store_ok s -> (forall i, now <= clk i)%Z -> size (idx_set (index s)) < fuel ->
  exists n s', cleanupLoop fuel now clk limit removed s = Some (n, s') /\
    store_ok s' /\ wal s' = wal s /\ removed <= n /\ (removed <= limit -> n <= limit) /\
    (n < limit -> forall k e, data s' !! k = Some e -> isExpired now e = false) /\
    (forall k e, data s' !! k = Some e -> data s !! k = Some e) /\
    (forall k e, data s !! k = Some e -> isExpired now e = false -> data s' !! k = Some e).
Proof.
  revert clk removed s. induction fuel as [|fuel IH]; intros clk removed s Hs Hclk Hfuel; [lia|].
  cbn [cleanupLoop]. destruct (removed <? limit)%nat eqn:El; bool_to_prop.
  2:{ exists removed, s. split_and!; auto; lia. }
  pose proof (idx_first_ok (index s) (proj1 Hs)) as Hf.
  destruct (idx_first (index s)) as [x|].
  2:{ exists removed, s. split_and!; auto; try lia. intros _ k e He.
      destruct (isExpired now e) eqn:Ex; [|done]. exfalso.
      unfold isExpired in Ex. bool_to_prop.
      pose proof (proj2 Hs _ _ He ltac:(done)) as Hin. rewrite Hf in Hin. set_solver. }
  destruct Hf as [Hx Hmin]. destruct (now <? Exp x)%Z eqn:En; bool_to_prop.
  { exists removed, s. split_and!; auto; try lia. intros _ k e He.
    destruct (isExpired now e) eqn:Ex; [|done]. exfalso.
    unfold isExpired in Ex. bool_to_prop.
    pose proof (Hmin _ (proj2 Hs _ _ He ltac:(done))) as Hle. simpl in Hle. lia. }
  set (still := match data s !! Key x with
                | Some entry => (EExp entry =? Exp x)%Z && isExpired (clk 0) entry
                | None => false end).
  set (s1 := if still then with_data s (delete (Key x) (data s)) else s).
  assert (idx_ok (index s1)) as Hok1 by (unfold s1; destruct still; apply Hs).
  destruct (unindex_spec s1 (Exp x) (Key x) Hok1) as (s2 & Heq & Hd2 & Hw2 & Hok2 & Hset2).
  rewrite Heq. simpl.
  assert (idx_set (index s1) = idx_set (index s)) as Hset1 by (unfold s1; by destruct still).
  rewrite Hset1 in Hset2.
  assert (mkExpiration (Key x) (Exp x) = x) as Hxx by (by destruct x).
  assert (store_ok s2) as Hs2.
  { split; [done|]. rewrite Hd2, Hset2, Hxx. intros k e He Hne.
    apply elem_of_difference. unfold s1 in He. destruct still eqn:Est; simpl in He.
    - destruct (decide (Key x = k)) as [<-|]; [by rewrite lookup_delete_eq in He|].
      rewrite lookup_delete_ne in He by done. split; [by apply Hs|].
      intros Hek%elem_of_singleton. subst x. by simpl in *.
    - split; [by apply Hs|]. intros Hek%elem_of_singleton. subst x. simpl in *.
      unfold still in Est. rewrite He, Z.eqb_refl in Est. simpl in Est.
      unfold isExpired in Est. apply andb_false_iff in Est as [Est|Est]; bool_to_prop; [done|].
      specialize (Hclk 0). lia. }
  assert (size (idx_set (index s2)) < fuel) as Hfuel2.
  { rewrite Hset2, Hxx.
    assert (idx_set (index s) ∖ {[x]} ⊂ idx_set (index s)) as Hsub%subset_size by set_solver. lia. }
  destruct (IH (fun i => clk (S i)) (if still then S removed else removed) s2 Hs2
              (fun i => Hclk (S i)) Hfuel2)
    as (n & s' & -> & Hs' & Hw' & Hn & Hlim & Hdone & Hsub & Hkeep).
  exists n, s'. split; [done|].
  assert (forall k e, data s2 !! k = Some e -> data s !! k = Some e) as Hsub2.
  { rewrite Hd2. unfold s1. intros k e. destruct still; [|done]. simpl.
    rewrite lookup_delete_Some. naive_solver. }
  split_and!; auto.
  - rewrite Hw', Hw2. unfold s1. by destruct still.
  - destruct still; lia.
  - intros _. apply Hlim. destruct still; lia.
  - intros k e He Hnx. apply Hkeep; [|done]. rewrite Hd2. unfold s1.
    destruct still eqn:Est; [|done]. simpl. rewrite lookup_delete_ne; [done|]. intros <-.
    unfold still in Est. rewrite He in Est. bool_to_prop.
    match goal with H : isExpired _ e = true, H2 : EExp e = _ |- _ =>
      unfold isExpired in H, Hnx; rewrite H2 in H, Hnx end.
    bool_to_prop. destruct Hnx as [Hnx|Hnx]; bool_to_prop; [done|lia].
Qed.
End store_props.
