(* ===== verification/StoreThms.v ===== *)
(** * The cache store: the properties of its operations, snapshot and recovery *)

From S2P Require Import Prelude BTree BTreeThms Expiration WalTypes Store StoreProps.

(** ** Two WALs to instantiate the interface with *)

(** A WAL that always succeeds, as the list of its records. *)
Definition LogWal := list Record_.
#[export] Instance LogWal_wal : Wal LogWal := fun w r => (w ++ [r], None).

(** A WAL whose every append fails. *)
Definition BusyWal := unit.
#[export] Instance BusyWal_wal : Wal BusyWal := fun w _ => (w, Some WalBusy).

Section store_thms.
Context {I W : Type} `{!ExpirationIndex I} `{!ExpirationIndexLaws I} `{!Wal W}.
Implicit Types s : CacheyStore I W.

Lemma appendWAL_mem s rec :
  data (appendWAL s rec).1 = data s /\ index (appendWAL s rec).1 = index s.
Proof. unfold appendWAL. destruct (wal s) as [w|]; [|done]. by destruct (wal_append w rec). Qed.

Lemma store_ok_appendWAL s rec : store_ok s -> store_ok (appendWAL s rec).1.
Proof. unfold store_ok. by destruct (appendWAL_mem s rec) as [-> ->]. Qed.

(** [Get] never panics, returns the value of a visible key and
    [ErrorCodeInvalidKey] for an absent or expired one; its lazy expiration
    keeps the store invariant and changes nothing a client can see. *)
Theorem Get_correct s now now' k :
  store_ok s -> (now <= now')%Z ->
  exists s', Get s now now' k
               = Some (match visible now (data s) k with
                       | Some v => Ok v | None => Err ErrorCodeInvalidKey end, s') /\
    store_ok s' /\ wal s' = wal s /\
    forall t k', (now' <= t)%Z -> visible t (data s') k' = visible t (data s) k'.
Proof.
  intros Hs Hle. destruct (Get_moves s now now' k Hs Hle) as (s' & ? & ? & ? & _ & ?). eauto.
Qed.

(** C8: [Put] is write-ahead: its record goes to the WAL first; if that fails
    the error is returned and memory is unchanged, otherwise the key has the
    new value and no expiry, and every other key is untouched. *)
Theorem Put_correct s k v :
  store_ok s ->
  let '(s1, e) := appendWAL s (store_record OpPut k v 0) in
  exists s', Put s k v = Some (e, s') /\ store_ok s' /\ wal s' = wal s1 /\
    match e with
    | Some _ => data s' = data s /\ index s' = index s
    | None => forall t k', visible t (data s') k' =
                (if decide (k' = k) then Some v else visible t (data s) k')
    end.
Proof.
  intros Hs. unfold Put. pose proof (appendWAL_mem s (store_record OpPut k v 0)) as [Hd Hi].
  pose proof (store_ok_appendWAL s (store_record OpPut k v 0) Hs) as Hs1.
  destruct (appendWAL s _) as [s1 [err|]]; simpl in *; [eauto 10|].
  destruct (putLocked_moves s1 k v Hs1) as (s' & -> & Hd' & Hw & Hok & _). simpl.
  exists s'. split_and!; auto. intros t k'. rewrite Hd', Hd. unfold visible, put_data.
  rewrite lookup_insert. case_decide; case_decide; done.
Qed.

(** [Delete] of a key that is not in the map logs nothing and fails;
    otherwise the record is logged first, and once it is the key is gone for
    every later reader. It reports success exactly when the key was visible. *)
Theorem store_Delete_correct s now k :
  store_ok s ->
  let '(s1, e) := appendWAL s (store_record OpDelete k "" 0) in
  exists r s', Delete s now k = Some (r, s') /\ store_ok s' /\
    match data s !! k with
    | None => r = Some ErrorCodeInvalidKey /\ s' = s
    | Some _ =>
        wal s' = wal s1 /\
        match e with
        | Some err => r = Some err /\ data s' = data s
        | None =>
            r = match visible now (data s) k with
                | Some _ => None | None => Some ErrorCodeInvalidKey end /\
            forall t k', visible t (data s') k' =
              (if decide (k' = k) then None else visible t (data s) k')
        end
    end.
Proof.
  intros Hs. unfold Delete. pose proof (appendWAL_mem s (store_record OpDelete k "" 0)) as [Hd Hi].
  pose proof (store_ok_appendWAL s (store_record OpDelete k "" 0) Hs) as Hs1.
  destruct (appendWAL s _) as [s1 e]. simpl in *.
  destruct (data s !! k) as [en|] eqn:E; [|eauto 10].
  destruct e as [err|]; [eauto 10|].
  destruct (deleteLocked_moves s1 now k Hs1) as (s' & -> & Hd' & Hw & Hok & _).
  do 2 eexists. split; [done|]. split_and!; auto.
  - rewrite Hd. by destruct (visible now (data s) k).
  - intros t k'. rewrite Hd', Hd. unfold visible. rewrite lookup_delete.
    case_decide; case_decide; congruence.
Qed.

(** C10: [TTL] logs the absolute expiry [now + ttl] (in int64 arithmetic) and
    then sets it: a visible key keeps its value until that time and is
    invisible from it on; a key that has expired meanwhile is removed and the
    call fails. *)
Theorem TTL_correct s now now' k ttl :
  store_ok s ->
  let exp := int64_wrap (now + ttl) in
  let '(s1, e) := appendWAL s (store_record OpTTL k "" exp) in
  exists r s', TTL s now now' k ttl = Some (r, s') /\ store_ok s' /\
    match data s !! k with
    | None => r = Some ErrorCodeInvalidKey /\ s' = s
    | Some _ =>
        wal s' = wal s1 /\
        match e with
        | Some err => r = Some err /\ data s' = data s
        | None =>
            r = match visible now' (data s) k with
                | Some _ => None | None => Some ErrorCodeInvalidKey end /\
            forall t k', visible t (data s') k' =
              (if decide (k' = k)
               then if (negb (exp =? 0) && (exp <=? t))%Z then None else visible now' (data s) k
               else visible t (data s) k')
        end
    end.
Proof.
  intros Hs exp. unfold TTL. fold exp.
  pose proof (appendWAL_mem s (store_record OpTTL k "" exp)) as [Hd Hi].
  pose proof (store_ok_appendWAL s (store_record OpTTL k "" exp) Hs) as Hs1.
  destruct (appendWAL s _) as [s1 e]. simpl in *.
  destruct (data s !! k) as [en|] eqn:E; [|eauto 10].
  destruct e as [err|]; [eauto 10|].
  destruct (ttlAtLocked_moves s1 now' k exp Hs1) as (s' & -> & Hd' & Hw & Hok & _).
  do 2 eexists. split; [done|]. split_and!; auto.
  - rewrite Hd. by destruct (visible now' (data s) k).
  - intros t k'. rewrite Hd', Hd. unfold visible at 1, ttl_data. rewrite E.
    destruct (isExpired now' en) eqn:Ex.
    + rewrite lookup_delete. case_decide; case_decide; try congruence; [|done].
      unfold visible. rewrite E, Ex. by destruct (_ && _)%bool.
    + rewrite lookup_insert. case_decide; case_decide; try congruence; [|done].
      unfold isExpired at 1. simpl. unfold visible. by rewrite E, Ex.
Qed.

(** C11: an active-expiration pass terminates (one iteration per index entry
    is enough), never removes an entry that has not expired and nothing else
    than expired entries; when it stops below its limit no expired entry is
    left. *)
Theorem cleanupExpired_correct s fuel now (clk : nat -> Z) limit :
  store_ok s -> (forall i, now <= clk i)%Z -> size (idx_set (index s)) < fuel ->
  exists n s', cleanupExpired fuel now clk limit s = Some (n, s') /\
    store_ok s' /\ n <= limit /\
    (n < limit -> forall k e, data s' !! k = Some e -> isExpired now e = false) /\
    (forall k e, data s' !! k = Some e -> data s !! k = Some e) /\
    (forall k e, data s !! k = Some e -> isExpired now e = false -> data s' !! k = Some e).
Proof.
  intros Hs Hclk Hfuel. unfold cleanupExpired.
  destruct (cleanupLoop_ok fuel now clk limit 0 s Hs Hclk Hfuel)
    as (n & s' & ? & ? & ? & ? & Hlim & ? & ? & ?).
  exists n, s'. split_and!; auto. apply Hlim. lia.
Qed.

(** ** Snapshots *)

Lemma load_data_absent (l : list SnapshotEntry) (d : gmap string Entry) (k : string) :
  (k ∉ (skey <$> l)) -> load_data d l !! k = d !! k.
Proof.
  revert d. induction l as [|e l IH]; intros d Hk; [done|].
  rewrite fmap_cons, not_elem_of_cons in Hk. destruct Hk as [Hne Hk].
  change (load_data d (e :: l)) with (load_data (<[skey e := mkEntry (sval e) (sexp e)]> d) l).
  rewrite IH by done. by rewrite lookup_insert_ne.
Qed.

Lemma load_data_present (l : list SnapshotEntry) (d : gmap string Entry) (e : SnapshotEntry) :
  NoDup (skey <$> l) -> e ∈ l -> load_data d l !! skey e = Some (mkEntry (sval e) (sexp e)).
Proof.
  revert d. induction l as [|e' l IH]; intros d Hn He; [by apply elem_of_nil in He|].
  rewrite fmap_cons, NoDup_cons in Hn. destruct Hn as [Hnin Hn].
  change (load_data d (e' :: l)) with (load_data (<[skey e' := mkEntry (sval e') (sexp e')]> d) l).
  apply elem_of_cons in He as [->|He]; [|by apply IH].
  rewrite load_data_absent by done. by rewrite lookup_insert_eq.
Qed.

Lemma Snapshot_keys s now : NoDup (skey <$> Snapshot s now).
Proof.
  unfold Snapshot. rewrite <- list_fmap_compose. unfold compose. simpl.
  apply (sublist_NoDup _ (map_to_list (data s)).*1); [apply NoDup_fst_map_to_list|].
  apply (fmap_sublist fst), sublist_filter.
Qed.

Lemma elem_of_Snapshot s now e :
  e ∈ Snapshot s now <->
  exists en, data s !! skey e = Some en /\ isExpired now en = false /\
             sval e = Value en /\ sexp e = EExp en.
Proof.
  unfold Snapshot. rewrite list_elem_of_fmap. setoid_rewrite list_elem_of_filter.
  setoid_rewrite elem_of_map_to_list'. split.
  - intros ([k en] & -> & Hx & Hl). eauto.
  - intros (en & Hl & Hx & Hv & He). exists (skey e, en). destruct e; simpl in *. by subst.
Qed.

Lemma load_Snapshot s now k :
  load_data ∅ (Snapshot s now) !! k =
  match data s !! k with
  | Some e => if isExpired now e then None else Some e
  | None => None
  end.
Proof.
  destruct (decide (k ∈ (skey <$> Snapshot s now))) as [Hk|Hk].
  - apply list_elem_of_fmap in Hk as (e & -> & He).
    rewrite load_data_present by auto using Snapshot_keys.
    apply elem_of_Snapshot in He as (en & -> & -> & -> & ->). by destruct en.
  - rewrite load_data_absent, lookup_empty by done.
    destruct (data s !! k) as [en|] eqn:E; [|done].
    destruct (isExpired now en) eqn:Ex; [done|]. exfalso. apply Hk.
    apply list_elem_of_fmap. exists (mkSnapshotEntry k (Value en) (EExp en)). split; [done|].
    apply elem_of_Snapshot. eauto.
Qed.

(** Snapshot round trip: loading a snapshot into an empty store gives
    back exactly the entries that had not expired, with their values and
    expiries, and a well-formed index. *)
Theorem Snapshot_roundtrip s now :
  exists s', ApplySnapshot (NewCacheyStore : CacheyStore I W) (Snapshot s now) = Some s' /\
    store_ok s' /\
    forall k, data s' !! k = match data s !! k with
                             | Some e => if isExpired now e then None else Some e
                             | None => None
                             end.
Proof.
  destruct (ApplySnapshot_moves (W := W) (Snapshot s now) NewCacheyStore store_ok_New)
    as (s' & Heq & Hd & _ & Hok).
  exists s'. split; [done|]. split; [done|]. intros k. rewrite Hd. apply load_Snapshot.
Qed.
End store_thms.

(** ** Replay *)

(** No expiry that [rec] sets has passed at [now]. *)
Definition unexpired (now : Z) (rec : Record_) : Prop :=
  op rec = OpTTL -> isExpired now (mkEntry "" (rexp rec)) = false.

Definition all_live (now : Z) (d : gmap string Entry) : Prop :=
  forall k e, d !! k = Some e -> isExpired now e = false.

Lemma all_live_apply (now : Z) (d : gmap string Entry) (rec : Record_) :
  all_live now d -> unexpired now rec -> all_live now (apply_data now d rec).
Proof.
  intros Hd Hr k e. unfold apply_data, put_data, ttl_data.
  destruct (op rec) eqn:Eo; try apply Hd.
  - rewrite lookup_insert. case_decide; [|apply Hd]. intros. by simplify_eq.
  - rewrite lookup_delete. case_decide; [done|apply Hd].
  - destruct (d !! rkey rec) as [e'|] eqn:E; [|apply Hd].
    rewrite (Hd _ _ E). rewrite lookup_insert. case_decide; [|apply Hd].
    intros. simplify_eq. by apply Hr.
Qed.

Lemma all_live_replay (now : Z) (recs : list Record_) (d : gmap string Entry) :
  all_live now d -> Forall (unexpired now) recs -> all_live now (foldl (apply_data now) d recs).
Proof.
  intros Hd Hr. revert d Hd. induction Hr as [|r recs Hr _ IH]; intros d Hd; [done|].
  simpl. by apply IH, all_live_apply.
Qed.

(** The effect of a record on one key, when nothing has expired: a constant or
    a change of expiry. *)
Definition key_effect (rec : Record_) (k : string) (o : option Entry) : option Entry :=
  match op rec with
  | OpPut => if decide (rkey rec = k) then Some (mkEntry (val rec) 0) else o
  | OpDelete => if decide (rkey rec = k) then None else o
  | OpTTL => if decide (rkey rec = k) then (fun e => mkEntry (Value e) (rexp rec)) <$> o else o
  | _ => o
  end.

Lemma apply_data_lookup (now : Z) (d : gmap string Entry) (rec : Record_) (k : string) :
  all_live now d -> apply_data now d rec !! k = key_effect rec k (d !! k).
Proof.
  intros Hd. unfold apply_data, key_effect, put_data, ttl_data. destruct (op rec); try done.
  - by rewrite lookup_insert.
  - by rewrite lookup_delete.
  - case_decide as Hk; [subst k|].
    + destruct (d !! rkey rec) as [e|] eqn:E; simpl; [|done].
      by rewrite (Hd _ _ E), lookup_insert_eq.
    + destruct (d !! rkey rec) as [e|] eqn:E; [|done].
      by rewrite (Hd _ _ E), lookup_insert_ne.
Qed.

Lemma replay_lookup (now : Z) (recs : list Record_) (d : gmap string Entry) (k : string) :
  all_live now d -> Forall (unexpired now) recs ->
  foldl (apply_data now) d recs !! k = foldl (fun o r => key_effect r k o) (d !! k) recs.
Proof.
  intros Hd Hr. revert d Hd. induction Hr as [|r recs Hr _ IH]; intros d Hd; [done|].
  simpl. rewrite IH by (by apply all_live_apply). by rewrite apply_data_lookup.
Qed.

(** A sequence of effects on a key either forgets what was there, or leaves it,
    or only replaces its expiry. *)
Lemma effects_shape (recs : list Record_) (k : string) :
  let F := fun o => foldl (fun o r => key_effect r k o) o recs in
  (exists c, forall o, F o = c) \/ (forall o, F o = o) \/
  (exists x, forall o, F o = (fun e => mkEntry (Value e) x) <$> o).
Proof.
  induction recs as [|r recs IH] using rev_ind; simpl in *; [auto|].
  setoid_rewrite foldl_snoc. unfold key_effect at 1 3 5.
  destruct (op r); auto; case_decide; auto; [left; by eexists..|].
  destruct IH as [[c Hc]|[Hid|[x Hx]]].
  - left. eexists. intros o. by rewrite Hc.
  - right. right. exists (rexp r). intros o. by rewrite Hid.
  - right. right. exists (rexp r). intros o. rewrite Hx. by destruct o.
Qed.

Lemma effects_idem (recs : list Record_) (k : string) (o : option Entry) :
  foldl (fun o r => key_effect r k o) (foldl (fun o r => key_effect r k o) o recs) recs =
  foldl (fun o r => key_effect r k o) o recs.
Proof.
  destruct (effects_shape recs k) as [[c Hc]|[Hid|[x Hx]]]; simpl in *.
  - by rewrite !Hc.
  - by rewrite !Hid.
  - rewrite !Hx. by destruct o.
Qed.

Section recovery_thms.
Context {I : Type} `{!ExpirationIndex I} `{!ExpirationIndexLaws I}.

(** Replay as recovery does it: every record in order. *)
Definition replay {W} (s : CacheyStore I W) (now : Z) (recs : list Record_)
    : option (CacheyStore I W) :=
  foldl (fun o r => s ← o; '(_, s') ← ApplyRecord s now r; Some s') (Some s) recs.

(** A snapshot may be taken after the WAL boundary it is stored under:
    replaying from the boundary the records [l2] whose effects the snapshot
    already has, then the later ones [l3], gives the state that replaying
    them once gives. *)
Theorem replay_overlap {W} (s : CacheyStore I W) (now : Z) (l2 l3 : list Record_) :
  store_ok s -> all_live now (data s) -> Forall (unexpired now) (l2 ++ l3) ->
  exists s2 s3 s3', replay s now l2 = Some s2 /\
    replay s2 now (l2 ++ l3) = Some s3 /\ replay s now (l2 ++ l3) = Some s3' /\
    store_ok s3 /\ data s3 = data s3'.
Proof.
  intros Hs Hl Hr.
  destruct (replay_ok now l2 s Hs) as (s2 & E2 & D2 & Hs2).
  destruct (replay_ok now (l2 ++ l3) s2 Hs2) as (s3 & E3 & D3 & Hs3).
  destruct (replay_ok now (l2 ++ l3) s Hs) as (s3' & E3' & D3' & _).
  exists s2, s3, s3'. split_and!; auto. rewrite D3, D3', D2.
  apply Forall_app in Hr as Hr2. destruct Hr2 as [Hr2 Hr3].
  apply map_eq. intros k.
  rewrite !replay_lookup by auto using all_live_replay.
  by rewrite !foldl_app, effects_idem.
Qed.

(** ** A run of the store over a WAL, and its recovery *)

Inductive request : Type :=
  | ReqGet (now now' : Z) (k : string)
  | ReqPut (k v : string)
  | ReqDelete (now : Z) (k : string)
  | ReqTTL (now now' : Z) (k : string) (ttl : Z)
  | ReqCleanup (now : Z) (clk : nat -> Z).

(** The clocks of a request do not exceed [now] and run forward, and an
    expiry it sets is after [now]. *)
Definition within (now : Z) (r : request) : Prop :=
  match r with
  | ReqGet n n' _ => (n <= n')%Z /\ (n' <= now)%Z
  | ReqPut _ _ => True
  | ReqDelete n _ => (n <= now)%Z
  | ReqTTL n n' _ ttl => (n' <= now)%Z /\ isExpired now (mkEntry "" (int64_wrap (n + ttl))) = false
  | ReqCleanup n clk => (n <= now)%Z /\ forall i, (n <= clk i)%Z
  end.

(** The record that a request logs. *)
Definition logs (r : request) : option Record_ :=
  match r with
  | ReqPut k v => Some (store_record OpPut k v 0)
  | ReqDelete _ k => Some (store_record OpDelete k "" 0)
  | ReqTTL n _ k ttl => Some (store_record OpTTL k "" (int64_wrap (n + ttl)))
  | ReqGet _ _ _ | ReqCleanup _ _ => None
  end.

Lemma isExpired_earlier (n now : Z) (e : Entry) :
  (n <= now)%Z -> isExpired now e = false -> isExpired n e = false.
Proof.
  intros Hle Hx. destruct (isExpired n e) eqn:E; [|done].
  by rewrite (isExpired_mono n now) in Hx.
Qed.

Section runs.
Context {W : Type} {WW : Wal W}.
Implicit Types s : CacheyStore I W.

Definition serve s (r : request) : option (CacheyStore I W) :=
  match r with
  | ReqGet now now' k => snd <$> Get s now now' k
  | ReqPut k v => snd <$> Put s k v
  | ReqDelete now k => snd <$> Delete s now k
  | ReqTTL now now' k ttl => snd <$> TTL s now now' k ttl
  | ReqCleanup now clk =>
      snd <$> cleanupExpired (S (size (idx_set (index s)))) now clk maxCleanupPerRun s
  end.

Definition run s (rs : list request) : option (CacheyStore I W) :=
  foldl (fun o r => s ← o; serve s r) (Some s) rs.

(** A WAL with the records it has acknowledged, in a state that is good for [k]
    more appends of records that fit. *)
Context (wlog : W -> list Record_) (wok : nat -> W -> Prop) (rfits : Record_ -> Prop).

Definition acks_logged : Prop := forall k w r w' e,
  wok (S k) w -> rfits r -> wal_append w r = (w', e) ->
  wok k w' /\ wlog w' = match e with None => wlog w ++ [r] | Some _ => wlog w end.

(** The state is what replaying the log on [d0] gives, and nothing in it expires
    before [now]. *)
Definition logged (k : nat) (now : Z) (d0 : gmap string Entry) s : Prop :=
  store_ok s /\ all_live now (data s) /\
  exists w, wal s = Some w /\ wok k w /\ Forall (unexpired now) (wlog w) /\ data s = foldl (apply_data now) d0 (wlog w).

Context (Hlaw : acks_logged) (Hweak : forall k w, wok (S k) w -> wok k w).
#[local] Set Default Proof Using "Hlaw Hweak ExpirationIndexLaws0".

Lemma logged_weak k now d0 s : logged (S k) now d0 s -> logged k now d0 s.
Proof. intros (Hs & Hl & w & Hw & Hk & Hu & Hd). split; [done|]. split; [done|]. exists w. auto. Qed.

Lemma logged_same k now d0 s s' :
  logged k now d0 s -> store_ok s' -> wal s' = wal s -> data s' = data s -> logged k now d0 s'.
Proof. unfold logged, all_live. intros (Hs & Hl & Hlog) Hs' -> ->. auto. Qed.

(** A mutation that writes [rec] ahead and then does [move]. *)
Lemma logged_mutation k now d0 s rec (move : CacheyStore I W -> option (option error * CacheyStore I W)) :
  logged (S k) now d0 s -> rfits rec -> unexpired now rec ->
  (forall s1, store_ok s1 -> data s1 = data s ->
     exists r s', move s1 = Some (r, s') /\ data s' = apply_data now (data s) rec /\ wal s' = wal s1 /\ store_ok s') ->
  exists s', snd <$> (let '(s1, e) := appendWAL s rec in
                      match e with Some err => Some (Some err, s1) | None => move s1 end) = Some s' /\ logged k now d0 s'.
Proof.
  intros (Hs & Hl & w & Hw & Hk & Hu & Hd) Hf Hx Hmove.
  pose proof (appendWAL_mem s rec) as [Hda _]. pose proof (store_ok_appendWAL s rec Hs) as Hsa.
  unfold appendWAL in *. rewrite Hw in *. destruct (wal_append w rec) as [w' e] eqn:Ea.
  destruct (Hlaw k w rec w' e Hk Hf Ea) as [Hk' Hlog]. cbn [fst] in Hda, Hsa. destruct e as [err|].
  - eexists. split; [reflexivity|]. split; [done|]. split; [done|].
    exists w'. by rewrite Hlog.
  - destruct (Hmove _ Hsa Hda) as (r & s' & E & Hd' & Hw' & Hs'). rewrite E. exists s'. split; [done|]. split; [done|].
    split; [rewrite Hd'; by apply all_live_apply|]. exists w'. rewrite Hw', Hlog, Hd'. split; [done|]. split; [done|].
    split; [apply Forall_app; split; [done|by constructor]|]. by rewrite foldl_snoc, <- Hd.
Qed.

Lemma serve_get_logged k now d0 (n n' : Z) s (key : string) :
  logged k now d0 s -> (n <= n')%Z -> (n' <= now)%Z ->
  exists s', snd <$> Get s n n' key = Some s' /\ logged k now d0 s'.
Proof.
  intros Hlog Hn Hle. unfold Get. destruct (data s !! key) as [e|] eqn:E; [|eauto].
  assert (isExpired n e = false) as ->.
  { apply (isExpired_earlier n now); [lia|]. by eapply Hlog. }
  eauto.
Qed.

Lemma ttl_data_live (n now : Z) (d : gmap string Entry) (k : string) (exp : Z) :
  all_live now d -> (n <= now)%Z -> ttl_data n d k exp = ttl_data now d k exp.
Proof using Type.
  intros Hl Hn. unfold ttl_data. destruct (d !! k) as [e|] eqn:E; [|done].
  by rewrite (isExpired_earlier n now e), (Hl _ _ E) by eauto.
Qed.

Lemma serve_logged k now d0 s (r : request) :
  logged (S k) now d0 s -> within now r -> (forall rec, logs r = Some rec -> rfits rec) ->
  exists s', serve s r = Some s' /\ logged k now d0 s'.
Proof.
  intros Hlog Hr Hf. assert (all_live now (data s)) as Hl by apply Hlog. destruct r as [n n' key|key v|n key|n n' key ttl|n clk]; cbn [serve within logs] in *.
  - destruct Hr. by apply serve_get_logged; [apply logged_weak|..].
  - unfold Put. apply (logged_mutation k now d0 s _ (fun s1 => s2 ← putLocked s1 key v; Some (None, s2)) Hlog); [by apply Hf|done|].
    intros s1 Hs1 Hd1. destruct (putLocked_moves s1 key v Hs1) as (s' & -> & Hd' & Hw' & Hs' & _).
    do 2 eexists. split; [reflexivity|]. split; [by rewrite Hd', Hd1|done].
  - unfold Delete. destruct (data s !! key) as [en|] eqn:E; [|exists s; split; [done|by apply logged_weak]].
    apply (logged_mutation k now d0 s _ (fun s1 => deleteLocked s1 n key) Hlog); [by apply Hf|done|].
    intros s1 Hs1 Hd1. destruct (deleteLocked_moves s1 n key Hs1) as (s' & -> & Hd' & Hw' & Hs' & _).
    do 2 eexists. split; [reflexivity|]. split; [by rewrite Hd', Hd1|done].
  - destruct Hr as [Hn Hx]. unfold TTL. destruct (data s !! key) as [en|] eqn:E; [|exists s; split; [done|by apply logged_weak]].
    apply (logged_mutation k now d0 s _ (fun s1 => ttlAtLocked s1 n' key (int64_wrap (n + ttl))) Hlog); [by apply Hf|by intros _|].
    intros s1 Hs1 Hd1. destruct (ttlAtLocked_moves s1 n' key (int64_wrap (n + ttl)) Hs1) as (s' & -> & Hd' & Hw' & Hs' & _).
    do 2 eexists. split; [reflexivity|]. split; [rewrite Hd', Hd1; by apply ttl_data_live|done].
  - destruct Hr as [Hn Hclk]. destruct (cleanupLoop_ok (S (size (idx_set (index s)))) n clk
      maxCleanupPerRun 0 s) as (m & s' & Heq & Hs' & Hw & _ & _ & _ & Hsub & Hkeep);
      [apply Hlog|done|lia|].
    unfold cleanupExpired. rewrite Heq. exists s'. split; [done|].
    apply (logged_same k now d0 s s'); [by apply logged_weak|done|done|]. apply map_eq. intros key.
    destruct (data s !! key) as [e|] eqn:E.
    + apply Hkeep; [done|]. apply (isExpired_earlier n now); [done|]. by eapply Hl.
    + destruct (data s' !! key) as [e|] eqn:E'; [|done]. apply Hsub in E'. congruence.
Qed.

Lemma run_logged k now d0 (rs : list request) s :
  logged (length rs + k) now d0 s -> Forall (within now) rs -> Forall (fun r => forall rec, logs r = Some rec -> rfits rec) rs ->
  exists s', run s rs = Some s' /\ logged k now d0 s'.
Proof.
  intros Hlog Hr. revert s Hlog. induction Hr as [|r rs Hr _ IH]; intros s Hlog Hf; [by exists s|].
  apply Forall_cons in Hf as [Hf Hfs]. destruct (serve_logged (length rs + k) now d0 s r Hlog Hr Hf) as (s1 & E1 & Hlog1).
  unfold run. simpl. rewrite E1. by apply IH.
Qed.
End runs.

(** A log that is the list of its records. *)
Abbreviation mem_logged := (logged (W := LogWal) (fun l => l) (fun _ _ => True) 0).

Lemma mem_acks : acks_logged (W := LogWal) (fun l => l) (fun _ _ => True) (fun _ => True).
Proof. intros k w r w' e _ _ E. injection E as <- <-. done. Qed.

Lemma mem_run_logged now (rs : list request) :
  Forall (within now) rs -> exists s : CacheyStore I LogWal, run (SetWAL NewCacheyStore ([] : LogWal)) rs = Some s /\ mem_logged now ∅ s.
Proof.
  intros Hr. apply (run_logged (fun l => l) (fun _ _ => True) (fun _ => True) mem_acks); [done| |done|by apply Forall_true].
  split; [exact (store_ok_New (W := LogWal))|]. split; [|by exists []].
  intros k e. simpl. by rewrite lookup_empty.
Qed.

(** Durability: any sequence of reads, writes, deletes, TTLs and
    expiration passes runs without a panic, and if the node restarts at a time
    [now] before any expiry that was set, replaying the log it wrote into an
    empty store gives back exactly its contents. *)
Theorem recovery_exact (now : Z) (rs : list request) :
  Forall (within now) rs ->
  exists s log s', run (SetWAL NewCacheyStore []) rs = Some s /\ store_ok s /\
    wal s = Some log /\
    replay (NewCacheyStore : CacheyStore I LogWal) now log = Some s' /\
    store_ok s' /\ data s' = data s.
Proof.
  intros Hr. destruct (mem_run_logged now rs Hr) as (s & E & Hs & _ & log & Hw & _ & _ & Hd).
  destruct (replay_ok now log (NewCacheyStore : CacheyStore I LogWal) store_ok_New) as (s' & E' & Hd' & Hs').
  exists s, log, s'. split_and!; auto. etrans; [exact Hd'|symmetry; exact Hd].
Qed.
End recovery_thms.

(** ** Concrete runs *)

(** A store over the B+ tree index and a WAL: [a] expires at 60, [b] does not. *)
Definition sample_requests : list request :=
  [ReqPut "a" "1"; ReqPut "b" "2"; ReqTTL 10 11 "a" 50; ReqPut "c" "3"; ReqDelete 12 "c";
   ReqGet 13 13 "a"; ReqCleanup 14 (fun _ => 15%Z)].

Lemma sample_within : Forall (within 20) sample_requests.
Proof. repeat constructor; simpl; done || lia. Qed.

Definition sample_store : CacheyStore Index LogWal :=
  match run (SetWAL NewCacheyStore ([] : LogWal)) sample_requests with
  | Some s => s
  | None => NewCacheyStore
  end.

Lemma sample_logged : store_ok sample_store /\ all_live 20 (data sample_store).
Proof.
  unfold sample_store. by destruct (mem_run_logged (I := Index) 20 sample_requests sample_within) as (s & -> & Hs & Hl & _).
Qed.

(** An append to the sample store succeeds. *)
Lemma appendWAL_log (s s1 : CacheyStore Index LogWal) log rec e :
  wal s = Some log -> appendWAL s rec = (s1, e) -> e = None.
Proof. intros Hw. unfold appendWAL. rewrite Hw. simpl. congruence. Qed.

Lemma sample_ok : store_ok sample_store.
Proof. apply sample_logged. Qed.

(** The same entries over a WAL that refuses every record. *)
Definition busy_store : CacheyStore Index BusyWal :=
  mkStore (data sample_store) (index sample_store) (Some ()).

Lemma busy_ok : store_ok busy_store.
Proof. exact sample_ok. Qed.

Lemma Get_correct_witness :
  exists s', Get sample_store 70 71 "a" = Some (Err ErrorCodeInvalidKey, s') /\ store_ok s' /\
    visible 71 (data s') "b" = Some "2".
Proof.
  destruct (Get_correct sample_store 70 71 "a") as (s' & E & Hok & _ & Hv); [exact sample_ok|lia|].
  exists s'. split; [rewrite E; vm_compute; reflexivity|]. split; [done|].
  rewrite Hv by lia. vm_compute. reflexivity.
Defined.

Lemma Put_correct_witness :
  (exists s', Put sample_store "a" "9" = Some (None, s') /\ visible 99 (data s') "a" = Some "9") /\
  (exists s', Put busy_store "a" "9" = Some (Some WalBusy, s') /\ data s' = data busy_store).
Proof.
  split.
  - pose proof (Put_correct sample_store "a" "9" sample_ok) as H.
    destruct (appendWAL sample_store (store_record OpPut "a" "9" 0)) as [s1 e] eqn:E.
    assert (e = None) as -> by (eapply appendWAL_log; [|exact E]; vm_compute; reflexivity).
    destruct H as (s' & H1 & _ & _ & H2). exists s'. split; [done|]. by rewrite H2.
  - destruct (Put_correct busy_store "a" "9" busy_ok) as (s' & H1 & _ & _ & H2 & _). eauto.
Defined.

Lemma store_Delete_correct_witness :
  (exists s', Delete sample_store 30 "a" = Some (None, s') /\ visible 30 (data s') "a" = None) /\
  (exists s', Delete busy_store 30 "zzz" = Some (Some ErrorCodeInvalidKey, s') /\ s' = busy_store).
Proof.
  split.
  - pose proof (store_Delete_correct sample_store 30 "a" sample_ok) as H.
    destruct (appendWAL sample_store (store_record OpDelete "a" "" 0)) as [s1 e] eqn:E.
    assert (e = None) as -> by (eapply appendWAL_log; [|exact E]; vm_compute; reflexivity).
    destruct H as (r & s' & H1 & _ & H2).
    change (data sample_store !! "a") with (Some (mkEntry "1" 60)) in H2.
    destruct H2 as (_ & -> & H2). exists s'. split; [rewrite H1; vm_compute; reflexivity|]. by rewrite H2.
  - destruct (store_Delete_correct busy_store 30 "zzz" busy_ok) as (r & s' & H1 & _ & H2).
    change (data busy_store !! "zzz") with (None : option Entry) in H2. destruct H2 as [-> ->]. eauto.
Defined.

Lemma TTL_correct_witness :
  exists s', TTL sample_store 30 31 "b" 100 = Some (None, s') /\
    visible 129 (data s') "b" = Some "2" /\ visible 130 (data s') "b" = None.
Proof.
  pose proof (TTL_correct sample_store 30 31 "b" 100 sample_ok) as H. cbv zeta in H.
  destruct (appendWAL sample_store _) as [s1 e] eqn:E.
  assert (e = None) as -> by (eapply appendWAL_log; [|exact E]; vm_compute; reflexivity).
  destruct H as (r & s' & H1 & _ & H2).
  change (data sample_store !! "b") with (Some (mkEntry "2" 0)) in H2.
  destruct H2 as (_ & -> & H2). exists s'. split; [rewrite H1; vm_compute; reflexivity|].
  rewrite !H2. split; vm_compute; reflexivity.
Defined.

Lemma cleanupExpired_correct_witness :
  exists n s', cleanupExpired 2 70 (fun _ => 70%Z) maxCleanupPerRun sample_store = Some (n, s') /\
    n <= maxCleanupPerRun /\ data s' !! "b" = Some (mkEntry "2" 0).
Proof.
  destruct (cleanupExpired_correct sample_store 2 70 (fun _ => 70%Z) maxCleanupPerRun sample_ok)
    as (n & s' & E & _ & Hn & _ & _ & Hk).
  - done.
  - vm_compute. lia.
  - exists n, s'. split; [exact E|]. split; [exact Hn|]. apply Hk; vm_compute; reflexivity.
Defined.

Lemma replay_overlap_witness :
  exists s2 s3 s3',
    replay sample_store 20 [store_record OpPut "d" "4" 0; store_record OpTTL "d" "" 80] = Some s2 /\
    replay s2 20 [store_record OpPut "d" "4" 0; store_record OpTTL "d" "" 80; store_record OpDelete "b" "" 0]
      = Some s3 /\
    replay sample_store 20
      [store_record OpPut "d" "4" 0; store_record OpTTL "d" "" 80; store_record OpDelete "b" "" 0]
      = Some s3' /\ data s3 = data s3'.
Proof.
  destruct (replay_overlap sample_store 20
    [store_record OpPut "d" "4" 0; store_record OpTTL "d" "" 80] [store_record OpDelete "b" "" 0])
    as (s2 & s3 & s3' & ? & ? & ? & _ & ?).
  - exact sample_ok.
  - apply sample_logged.
  - repeat constructor; intros ?; done.
  - by exists s2, s3, s3'.
Defined.

Lemma recovery_exact_witness :
  exists s log s', run (SetWAL (NewCacheyStore : CacheyStore Index LogWal) []) sample_requests = Some s /\
    wal s = Some log /\ length log = 5 /\
    replay (NewCacheyStore : CacheyStore Index LogWal) 20 log = Some s' /\ data s' = data s.
Proof.
  destruct (recovery_exact (I := Index) 20 sample_requests) as (s & log & s' & E & _ & Hw & ? & _ & ?).
  - exact sample_within.
  - exists s, log, s'. split_and!; auto.
    pose proof (f_equal (fmap wal) E) as Hlog. simpl in Hlog. rewrite Hw in Hlog.
    vm_compute in Hlog. by simplify_eq.
Defined.

(** ** Where recovery and snapshots fall short *)

(** A key whose TTL was extended before it ran out is live in the running node
    at 50 and lost by a restart at 50: the replay tests the first expiry
    against the clock of the restart. *)
Theorem ttl_extension_lost :
  exists (s s' : CacheyStore Index LogWal) log,
    run (SetWAL NewCacheyStore []) [ReqPut "a" "1"; ReqTTL 0 0 "a" 10; ReqTTL 6 6 "a" 100] = Some s /\
    wal s = Some log /\ visible 50 (data s) "a" = Some "1" /\
    replay NewCacheyStore 50 log = Some s' /\ visible 50 (data s') "a" = None.
Proof. do 3 eexists. repeat split; vm_compute; reflexivity. Qed.

(** Loading a snapshot into a store that is not empty keeps the keys the
    snapshot does not have. *)
Theorem ApplySnapshot_merges :
  exists s' : CacheyStore Index LogWal,
    ApplySnapshot sample_store [mkSnapshotEntry "x" "7" 0] = Some s' /\
    visible 20 (data s') "x" = Some "7" /\ visible 20 (data s') "b" = Some "2".
Proof. eexists. repeat split; vm_compute; reflexivity. Qed.
