(* ===== verification/Os.v ===== *)
(** * The operating system as the program uses it

    One directory, and a monad for code that makes system calls. The running
    program sees the directory as a map from file names to contents (the page
    cache). A crash of the machine does not leave that view: it leaves one of the
    images that the device may hold, and which images those are depends on what has
    been synced.

    - A write to a file may have reached the device as any prefix of its bytes,
      whether or not the call has returned, until the file is synced; the writes to
      one file reach it in their order, those to different files in any order.
    - A change of the directory (a file created, renamed or removed) may have
      reached the device or not, until the directory is synced; such changes reach it
      in their order, and independently of the data of the files: a file renamed
      before its data was synced may be on the device under its new name with a prefix
      of its data.
    - [FSync] of a file leaves only the images in which the file is there with its
      contents, [syncDir] only those with the names of the view. That an fsync of a
      file that was just created also makes its directory entry durable is how
      ext4, XFS and Btrfs behave; POSIX does not promise it.

    Each call takes its outcome from a script: it succeeds, it fails with an error
    (a write having put a prefix of its bytes in the file), or the machine crashes in
    it and leaves one of the images possible at that moment. Calls beyond the end of
    the script succeed. *)

From S2P Require Import Prelude WalTypes.

Abbreviation Disk := (gmap string bytes).

(** [Bad n]: an error after [n] bytes; [CrashAt i]: a crash that leaves the
    [i]-th image. *)
Inductive outcome : Type :=
  | Good
  | Bad (written : nat)
  | CrashAt (image : nat).

(** The outcomes of the calls to come, and the images that a crash may leave besides
    the view. *)
Record machine : Type := mkMachine { outcomes : list outcome; images : list Disk }.

(** The directory as the program sees it, the machine, the state in memory. *)
Record Sys (S : Type) : Type := mkSys { disk : Disk; io : machine; mem : S }.
Arguments mkSys {S} _ _ _.
Arguments disk {S} _.
Arguments io {S} _.
Arguments mem {S} _.

Definition script {S} (s : Sys S) : list outcome := outcomes (io s).

(** What a crash now may leave. *)
Definition remains {S} (s : Sys S) : list Disk := disk s :: images (io s).

(** A machine that has just come up on the directory [d]. *)
Definition boot {S} (d : Disk) (sc : list outcome) (x : S) : Sys S := mkSys d (mkMachine sc []) x.

(** Runs in which a call succeeds or the machine crashes in it. *)
Definition no_bad (sc : list outcome) : Prop :=
  Forall (fun o => match o with Bad _ => False | _ => True end) sc.

(** A crash leaves the disk; the memory it lost is kept to say what the program
    had already done. *)
Inductive ran (S A : Type) : Type :=
  | Done (r : result A) (s : Sys S)
  | Crashed (d : Disk) (m : S).
Arguments Done {S A} _ _.
Arguments Crashed {S A} _ _.

Definition sys (S A : Type) : Type := Sys S -> ran S A.

Section monad.
Context {S : Type}.

#[global] Instance sys_ret : MRet (sys S) := fun A a s => Done (Ok a) s.

(** An error returns at once. *)
#[global] Instance sys_bind : MBind (sys S) := fun A B f m s =>
  match m s with
  | Done (Ok a) s' => f a s'
  | Done (Err e) s' => Done (Err e) s'
  | Crashed d m' => Crashed d m'
  end.

Definition fail {A} (e : error) : sys S A := fun s => Done (Err e) s.

(** The call with its error as a value: [_ = f()] and [if err == nil]. *)
Definition attempt {A} (m : sys S A) : sys S (result A) := fun s =>
  match m s with
  | Done r s' => Done (Ok r) s'
  | Crashed d m' => Crashed d m'
  end.

(** [fmt.Errorf("text: %w", err)]. *)
Definition wrap {A} (text : string) (m : sys S A) : sys S A := fun s =>
  match m s with
  | Done (Err _) s' => Done (Err (Wrapped text)) s'
  | x => x
  end.

Definition get_mem : sys S S := fun s => Done (Ok (mem s)) s.
Definition put_mem (m : S) : sys S () := fun s => Done (Ok ()) (mkSys (disk s) (io s) m).

(** The outcome of a call: the view and the images when it succeeds, when it fails
    after [n] bytes, and the images that a crash in it may leave. *)
Definition respond (ok : Disk * list Disk) (bad : nat -> Disk * list Disk) (crash : list Disk)
    : sys S () := fun s =>
  match script s with
  | [] => Done (Ok ()) (mkSys ok.1 (mkMachine [] ok.2) (mem s))
  | Good :: rest => Done (Ok ()) (mkSys ok.1 (mkMachine rest ok.2) (mem s))
  | Bad n :: rest => Done (Err IOError) (mkSys (bad n).1 (mkMachine rest (bad n).2) (mem s))
  | CrashAt i :: _ => Crashed (default (disk s) (crash !! i)) (mem s)
  end.

(** The images besides the view, and those that a sync leaves. *)
Definition others (view : Disk) (l : list Disk) : list Disk := filter (fun i => i <> view) l.
Definition synced (keep : Disk -> Disk -> bool) (view : Disk) (l : list Disk) : list Disk :=
  filter (fun i => keep view i = true) (others view l).

(** A call that changes the directory to [good], or to [part n] when it stops after
    [n] bytes; an image may stay as it is or become one of those in [spread]. *)
Definition change (good : Disk -> Disk) (part : nat -> Disk -> Disk)
    (spread : Disk -> Disk -> list Disk) : sys S () := fun s =>
  let all := remains s ++ (remains s ≫= spread (disk s)) in
  respond (good (disk s), others (good (disk s)) all)
    (fun n => (part n (disk s), all)) all s.

(** A call that changes nothing. *)
Definition idle : sys S () := fun s =>
  respond (disk s, images (io s)) (fun _ => (disk s, images (io s))) (remains s) s.

(** A call after which the device holds what [keep] says. *)
Definition sync (keep : Disk -> Disk -> bool) : sys S () := fun s =>
  respond (disk s, synced keep (disk s) (images (io s)))
    (fun _ => (disk s, images (io s))) (remains s) s.

(** The image has all the data of a file that the view has; all the names. *)
Definition same_file (name : string) (view i : Disk) : bool := bool_decide (i !! name = view !! name).
Definition same_dir (view i : Disk) : bool := bool_decide (dom i = dom view).

(** A later change can have reached only an image that has the earlier ones. *)
Definition if_same (same : Disk -> Disk -> bool) (f : Disk -> Disk) (view i : Disk) : list Disk :=
  if same view i then [f i] else [].

(** [os.Stat]: existence. *)
Definition exists_file (name : string) : sys S bool := fun s =>
  Done (Ok (bool_decide (is_Some (disk s !! name)))) s.

(** The content of a file that must exist. *)
Definition content (name : string) : sys S bytes := fun s =>
  match disk s !! name with
  | Some b => Done (Ok b) s
  | None => Done (Err IOError) s
  end.

Definition ReadFile (name : string) : sys S bytes := idle;; content name.

Definition append_to (name : string) (b : bytes) (d : Disk) : Disk :=
  match d !! name with Some c => <[name := c ++ b]> d | None => d end.

(** [f.Write] on a file opened for appending. *)
Definition WriteAppend (name : string) (b : bytes) : sys S () :=
  change (append_to name b) (fun n => append_to name (take n b))
    (fun view i => if same_file name view i
                   then (fun n => append_to name (take n b) i) <$> seq 1 (length b) else []).

Definition create (name : string) (d : Disk) : Disk :=
  match d !! name with Some _ => d | None => <[name := []]> d end.

(** [os.OpenFile] with O_CREATE|O_APPEND, with O_CREATE|O_TRUNC, and with
    neither. *)
Definition OpenAppend (name : string) : sys S () :=
  change (create name) (fun _ d => d) (if_same same_dir (create name)).
Definition OpenTrunc (name : string) : sys S () :=
  change (insert name []) (fun _ d => d)
    (fun view => if_same (match view !! name with Some _ => same_file name | None => same_dir end)
                   (insert name []) view).
Definition OpenExisting (name : string) : sys S () :=
  idle;; content name;; mret ().

(** [f.Sync], [f.Close] and [syncDir]. *)
Definition FSync (name : string) : sys S () := sync (same_file name).
Definition FClose : sys S () := idle.
Definition syncDir : sys S () := sync same_dir.

Definition truncate (name : string) (n : nat) (d : Disk) : Disk :=
  match d !! name with Some c => <[name := take n c]> d | None => d end.
Definition Truncate (name : string) (n : nat) : sys S () :=
  change (truncate name n) (fun _ d => d) (if_same (same_file name) (truncate name n)).

Definition Remove (name : string) : sys S () :=
  change (delete name) (fun _ d => d) (if_same same_dir (delete name)).

Definition rename_disk (from to : string) (d : Disk) : Disk :=
  match d !! from with Some c => delete from (<[to := c]> d) | None => d end.
Definition Rename (from to : string) : sys S () :=
  change (rename_disk from to) (fun _ d => d) (if_same same_dir (rename_disk from to)).

(** [os.ReadFile] with [os.IsNotExist] told apart. *)
Definition read_if_exists (name : string) : sys S (option bytes) :=
  e ← exists_file name;
  if (e : bool) then b ← ReadFile name; mret (Some b) else mret None.

(** [os.WriteFile]: neither synced nor atomic. *)
Definition WriteFile (name : string) (b : bytes) : sys S () :=
  OpenTrunc name;;
  r ← attempt (WriteAppend name b);
  c ← attempt FClose;
  match r, c with
  | Err e, _ | Ok _, Err e => fail e
  | Ok _, Ok _ => mret ()
  end.

(** A result as a computation without effects. *)
Definition lift {A} (r : result A) : sys S A :=
  match r with Ok a => mret a | Err e => fail e end.
End monad.

(** ** Reasoning about runs

    [ends m s P Q]: the run of [m] from [s] ends in a state and result
    satisfying [P] or crashes with a disk and a lost memory satisfying [Q]. *)

Definition ends {S A : Type} (m : sys S A) (s : Sys S)
    (P : result A -> Sys S -> Prop) (Q : Disk -> S -> Prop) : Prop :=
  match m s with
  | Done r s' => P r s'
  | Crashed d m' => Q d m'
  end.

Section ends.
Context {S : Type}.

Lemma ends_ret {A} (a : A) (s : Sys S) (P : result A -> Sys S -> Prop) Q :
  P (Ok a) s -> ends (mret a) s P Q.
Proof. done. Qed.

Lemma ends_fail {A} e (s : Sys S) (P : result A -> Sys S -> Prop) Q :
  P (Err e) s -> ends (fail e) s P Q.
Proof. done. Qed.

Lemma ends_mono {A} (m : sys S A) s P P' (Q Q' : Disk -> S -> Prop) :
  ends m s P Q -> (forall r s', P r s' -> P' r s') -> (forall d m', Q d m' -> Q' d m') -> ends m s P' Q'.
Proof. unfold ends. destruct (m s); auto. Qed.

Lemma ends_bind {A B} (m : sys S A) (f : A -> sys S B) s P Q :
  ends m s (fun r s' => match r with
                        | Ok a => ends (f a) s' P Q
                        | Err e => P (Err e) s'
                        end) Q ->
  ends (m ≫= f) s P Q.
Proof. unfold ends, mbind, sys_bind. destruct (m s) as [[a|e] s'|d m']; auto. Qed.

Lemma ends_attempt {A} (m : sys S A) s P Q :
  ends m s (fun r s' => P (Ok r) s') Q -> ends (attempt m) s P Q.
Proof. unfold ends, attempt. by destruct (m s). Qed.

Lemma ends_wrap {A} t (m : sys S A) s P Q :
  ends m s (fun r s' => match r with Ok a => P (Ok a) s' | Err _ => P (Err (Wrapped t)) s' end) Q ->
  ends (wrap t m) s P Q.
Proof. unfold ends, wrap. by destruct (m s) as [[a|e] s'|d m']. Qed.

Lemma ends_get (s : Sys S) P Q : P (Ok (mem s)) s -> ends get_mem s P Q.
Proof. done. Qed.

Lemma ends_put (s : Sys S) x P Q :
  P (Ok ()) (mkSys (disk s) (io s) x) -> ends (put_mem x) s P Q.
Proof. done. Qed.

(** What is known of the outcomes after a call. *)
Definition follows (e e' : machine) : Prop :=
  (outcomes e = [] -> outcomes e' = []) /\ (no_bad (outcomes e) -> no_bad (outcomes e')).

(** A call succeeds, or it fails or crashes, which a run with an empty script
    does not. *)
Lemma ends_respond ok bad crash (s : Sys S) P Q :
  (forall e, follows (io s) e -> images e = ok.2 -> P (Ok ()) (mkSys ok.1 e (mem s))) ->
  (forall n e, script s <> [] -> ~ no_bad (script s) -> images e = (bad n).2 ->
     P (Err IOError) (mkSys (bad n).1 e (mem s))) ->
  (forall d, script s <> [] -> d ∈ disk s :: crash -> Q d (mem s)) ->
  ends (respond ok bad crash) s P Q.
Proof.
  unfold ends, respond, follows, script. intros HP HE HQ. destruct (outcomes (io s)) as [|[|n|i] sc] eqn:E.
  - by apply HP; rewrite ?E.
  - apply HP; [|done]. rewrite ?E. split; [done|]. by intros ?%Forall_inv_tail.
  - apply HE; [done| |done]. by intros ?%Forall_inv.
  - apply HQ; [done|]. rewrite elem_of_cons. destruct (crash !! i) as [d|] eqn:Ei; [right|by left].
    simpl. by eapply list_elem_of_lookup_2.
Qed.

(** [R] holds of every image that the call may leave. *)
Lemma ends_change (R : Disk -> Prop) good part spread (s : Sys S) P Q :
  Forall R (remains s) -> (forall i i', R i -> i' ∈ spread (disk s) i -> R i') ->
  (forall e, follows (io s) e -> Forall R (images e) -> P (Ok ()) (mkSys (good (disk s)) e (mem s))) ->
  (forall n e, script s <> [] -> ~ no_bad (script s) -> Forall R (images e) ->
     P (Err IOError) (mkSys (part n (disk s)) e (mem s))) ->
  (forall d, script s <> [] -> R d -> Q d (mem s)) ->
  ends (change good part spread) s P Q.
Proof.
  intros HR Hsp HP HE HQ. set (all := remains s ++ (remains s ≫= spread (disk s))).
  assert (Forall R all) as Hall.
  { apply Forall_app. split; [done|]. apply Forall_forall. intros d (i & Hd & Hi)%list_elem_of_bind.
    eapply Hsp; [|exact Hd]. by eapply Forall_forall. }
  apply ends_respond; cbn [fst snd].
  - intros e He Hi. apply HP; [done|]. rewrite Hi. apply Forall_forall.
    intros i [_ Hin]%list_elem_of_filter. by eapply Forall_forall.
  - intros n e ? ? Hi. apply HE; [done..|]. by rewrite Hi.
  - intros d ? [->|Hd]%elem_of_cons; apply HQ; auto; [by apply Forall_inv in HR|]. by eapply Forall_forall.
Qed.

Lemma ends_sync (R : Disk -> Prop) keep (s : Sys S) P Q :
  Forall R (images (io s)) ->
  (forall e, follows (io s) e -> Forall (fun i => R i /\ keep (disk s) i = true) (images e) ->
     P (Ok ()) (mkSys (disk s) e (mem s))) ->
  (forall e, script s <> [] -> ~ no_bad (script s) -> Forall R (images e) ->
     P (Err IOError) (mkSys (disk s) e (mem s))) ->
  (forall d, script s <> [] -> d = disk s \/ R d -> Q d (mem s)) ->
  ends (sync keep) s P Q.
Proof.
  intros HR HP HE HQ. apply ends_respond; cbn [fst snd].
  - intros e He Hi. apply HP; [done|]. rewrite Hi. apply Forall_forall.
    intros i [Hk [_ Hin]%list_elem_of_filter]%list_elem_of_filter. split; [by eapply Forall_forall|done].
  - intros _ e ? ? Hi. apply HE; [done..|]. by rewrite Hi.
  - intros d ? [->|[->|Hd]%elem_of_cons]%elem_of_cons; apply HQ; auto. right. by eapply Forall_forall.
Qed.

Lemma ends_idle (s : Sys S) P Q :
  (forall e, follows (io s) e -> images e = images (io s) -> P (Ok ()) (mkSys (disk s) e (mem s))) ->
  (forall e, script s <> [] -> ~ no_bad (script s) -> images e = images (io s) ->
     P (Err IOError) (mkSys (disk s) e (mem s))) ->
  (forall d, script s <> [] -> d ∈ remains s -> Q d (mem s)) ->
  ends idle s P Q.
Proof.
  intros HP HE HQ. apply ends_respond; cbn [fst snd]; auto.
  intros d ? [->|Hd]%elem_of_cons; apply HQ; auto. by left.
Qed.

(** Calls that look at an existing file and change nothing. *)
Lemma ends_ReadFile name b (s : Sys S) P Q :
  disk s !! name = Some b ->
  (forall e, follows (io s) e -> images e = images (io s) -> P (Ok b) (mkSys (disk s) e (mem s))) ->
  (forall e, script s <> [] -> ~ no_bad (script s) -> images e = images (io s) ->
     P (Err IOError) (mkSys (disk s) e (mem s))) ->
  (forall d, script s <> [] -> d ∈ remains s -> Q d (mem s)) ->
  ends (ReadFile name) s P Q.
Proof.
  intros Hb HP HE HQ. apply ends_bind, ends_idle; auto. intros e He Hi.
  unfold ends, content. simpl. rewrite Hb. auto.
Qed.

Lemma ends_OpenExisting name b (s : Sys S) P Q :
  disk s !! name = Some b ->
  (forall e, follows (io s) e -> images e = images (io s) -> P (Ok ()) (mkSys (disk s) e (mem s))) ->
  (forall e, script s <> [] -> ~ no_bad (script s) -> images e = images (io s) ->
     P (Err IOError) (mkSys (disk s) e (mem s))) ->
  (forall d, script s <> [] -> d ∈ remains s -> Q d (mem s)) ->
  ends (OpenExisting name) s P Q.
Proof.
  intros Hb HP HE HQ. apply ends_bind, ends_idle; auto. intros e He Hi.
  apply ends_bind. unfold ends, content. simpl. rewrite Hb. by apply HP.
Qed.

Lemma elem_of_if_same same f view i i' :
  i' ∈ if_same same f view i -> same view i = true /\ i' = f i.
Proof. unfold if_same. destruct (same view i); [|by intros ?%elem_of_nil]. by intros ->%list_elem_of_singleton. Qed.
Lemma remains_R (R : Disk -> Prop) (s : Sys S) d : Forall R (remains s) -> d ∈ remains s -> R d.
Proof. intros H Hd. by eapply Forall_forall. Qed.

Lemma remains_same (R : Disk -> Prop) (s : Sys S) e (x : S) :
  Forall R (remains s) -> images e = images (io s) -> Forall R (remains (mkSys (disk s) e x)).
Proof. unfold remains. cbn [disk io]. by intros H ->. Qed.

Lemma remains_cons (R : Disk -> Prop) d e (x : S) :
  R d -> Forall R (images e) -> Forall R (remains (mkSys d e x)).
Proof. by constructor. Qed.

Lemma same_dir_None view i name : same_dir view i = true -> view !! name = None -> i !! name = None.
Proof.
  unfold same_dir. intros Hd%bool_decide_eq_true. rewrite <- !not_elem_of_dom. by rewrite Hd.
Qed.

Lemma same_file_eq name view i : same_file name view i = true -> i !! name = view !! name.
Proof. apply bool_decide_eq_true. Qed.
End ends.
