(* ===== verification/WalCodec.v ===== *)
(** * A concrete codec

    The theorems on the WAL hold for any codec with the laws of [JsonLaws]. This
    one writes a value's binary code as a line of digits ended by [$]; it shows
    that the laws can be met and makes the WAL executable. *)

From Stdlib Require Import Ascii.
From S2P Require Import Prelude WalTypes.

#[export] Instance Op_countable : Countable Op.
Proof.
  apply (inj_countable'
    (fun o => match o with
              | OpPut => (0, EmptyString) | OpDelete => (1, EmptyString) | OpTTL => (2, EmptyString)
              | OpNoop => (3, EmptyString) | OpConfig => (4, EmptyString) | OpHotStuff => (5, EmptyString)
              | OpMembership => (6, EmptyString) | OpUnknown s => (7, s)
              end)
    (fun p => match p.1 with
              | 0 => OpPut | 1 => OpDelete | 2 => OpTTL | 3 => OpNoop | 4 => OpConfig
              | 5 => OpHotStuff | 6 => OpMembership | _ => OpUnknown p.2
              end)).
  by intros [].
Defined.

#[export] Instance Record_countable : Countable Record_.
Proof.
  apply (inj_countable'
    (fun r => (op r, rkey r, val r, rexp r, (logIndex r, term r, raftIndex r), (config r, rdata r)))
    (fun p => let '(o, k, v, e, (l, t, i), (c, d)) := p in mkRecord o k v e l t i c d)).
  by intros [].
Defined.

#[export] Instance snapEntry_eq_dec : EqDecision snapEntry.
Proof. solve_decision. Defined.

#[export] Instance snapEntry_countable : Countable snapEntry.
Proof.
  apply (inj_countable' (fun e => (snVal e, snExp e)) (fun p => mkSnapEntry p.1 p.2)). by intros [].
Defined.

#[export] Instance snapshotData_eq_dec : EqDecision snapshotData.
Proof. solve_decision. Defined.

#[export] Instance snapshotData_countable : Countable snapshotData.
Proof.
  apply (inj_countable' (fun d => (LastLogIndex d, Data d)) (fun p => mkSnapshotData p.1 p.2)).
  by intros [].
Defined.

(** ** Binary digits *)

Fixpoint write_bits (p : positive) : bytes :=
  match p with
  | xH => ["$"%char]
  | xO p => "0"%char :: write_bits p
  | xI p => "1"%char :: write_bits p
  end.

Fixpoint read_bits (b : bytes) : option positive :=
  match b with
  | [] => None
  | c :: b' =>
      if decide (c = "$"%char) then match b' with [] => Some xH | _ => None end
      else if decide (c = "0"%char) then xO <$> read_bits b'
      else if decide (c = "1"%char) then xI <$> read_bits b'
      else None
  end.

Lemma read_write_bits (p : positive) : read_bits (write_bits p) = Some p.
Proof. induction p as [p IH|p IH|]; simpl; try rewrite IH; done. Qed.

Lemma write_bits_line (p : positive) : nl ∉ write_bits p.
Proof. induction p; simpl; rewrite ?not_elem_of_cons; split_and?; try done; apply not_elem_of_nil. Qed.

Lemma read_bits_prefix (p : positive) (b : bytes) :
  b `prefix_of` write_bits p -> b <> write_bits p -> read_bits b = None.
Proof.
  revert b. induction p as [p IH|p IH|]; intros [|c b] Hp Hne; try done; simpl in *.
  - apply prefix_cons_inv_1 in Hp as Hc. apply prefix_cons_inv_2 in Hp. subst c. simpl.
    rewrite IH; [done..|congruence].
  - apply prefix_cons_inv_1 in Hp as Hc. apply prefix_cons_inv_2 in Hp. subst c. simpl.
    rewrite IH; [done..|congruence].
  - apply prefix_cons_inv_1 in Hp as Hc. apply prefix_cons_inv_2 in Hp. subst c.
    apply prefix_nil_inv in Hp. by subst b.
Qed.

Definition read_value {A} `{Countable A} (b : bytes) : option A := read_bits b ≫= decode.

#[export] Instance BitJson : Json := {|
  json_record r := Ok (write_bits (encode r));
  json_unrecord := read_value;
  json_snapshot d := Ok (write_bits (encode d));
  json_unsnapshot b := read_value (filter (fun c => c <> nl) b)
|}.

Lemma filter_line (b : bytes) : (nl ∉ b) -> filter (fun c => c <> nl) (b ++ [nl]) = b.
Proof.
  induction b as [|c b IH]; [done|]. intros [Hc Hb]%not_elem_of_cons. simpl app.
  rewrite filter_cons_True by congruence. by rewrite IH.
Qed.

#[export] Program Instance BitJson_laws : JsonLaws := {|
  json_fits _ := True;
  snap_fits _ := True
|}.
Next Obligation.
  intros r _. eexists. split; [done|]. split; [apply write_bits_line|]. simpl. unfold read_value. split.
  - rewrite read_write_bits. simpl. apply decode_encode.
  - intros p Hp Hne. by rewrite (read_bits_prefix (encode r)).
Qed.
Next Obligation. done. Qed.
Next Obligation.
  intros d _. eexists. split; [done|]. simpl. unfold read_value.
  rewrite filter_line by apply write_bits_line. rewrite read_write_bits. apply decode_encode.
Qed.
