(* ===== verification/Codec.v ===== *)
(** * A self-delimiting codec

    Values as bytes that carry their own end, so that codes can be concatenated;
    linear in the size of the value. The concrete instances of the HotStuff
    interfaces are built from it. *)

From Stdlib Require Import Ascii.
From S2P Require Import Prelude WalTypes.

Class Codec (A : Type) : Type := {
  put : A -> bytes;
  get : bytes -> option (A * bytes);
  get_put : forall a rest, get (put a ++ rest) = Some (a, rest)
}.

(** [B] coded as the [A] it comes from. *)
Definition codec_of {A B : Type} {CA : Codec A} (f : B -> A) (g : A -> B)
    (H : forall b, g (f b) = b) : Codec B.
Proof.
  refine {| put b := put (f b); get s := '(a, rest) ← get s; Some (g a, rest) |}.
  abstract (intros b rest; rewrite get_put; simpl; by rewrite H).
Defined.

#[export] Program Instance ascii_codec : Codec ascii := {|
  put c := [c];
  get s := match s with c :: s' => Some (c, s') | [] => None end
|}.
Next Obligation. done. Qed.

(** ** Numbers *)

Fixpoint put_pos (p : positive) : bytes :=
  match p with
  | xH => ["."%char]
  | xO p => "0"%char :: put_pos p
  | xI p => "1"%char :: put_pos p
  end.

Fixpoint get_pos (s : bytes) : option (positive * bytes) :=
  match s with
  | [] => None
  | "."%char :: s' => Some (xH, s')
  | "0"%char :: s' => '(p, rest) ← get_pos s'; Some (xO p, rest)
  | "1"%char :: s' => '(p, rest) ← get_pos s'; Some (xI p, rest)
  | _ => None
  end.

#[export] Program Instance positive_codec : Codec positive := {| put := put_pos; get := get_pos |}.
Next Obligation. intros p rest. induction p as [p IH|p IH|]; simpl; by rewrite ?IH. Qed.

#[export] Instance N_codec : Codec N := codec_of N.succ_pos Pos.pred_N N.pos_pred_succ.

(** ** Compound values *)

Section compound.
Context {A B : Type} {CA : Codec A} {CB : Codec B}.

#[export] Program Instance pair_codec : Codec (A * B) := {|
  put p := put p.1 ++ put p.2;
  get s := '(a, s) ← get s; '(b, s) ← get s; Some ((a, b), s)
|}.
Next Obligation. intros [a b] rest. simpl. rewrite <- app_assoc, get_put. simpl. by rewrite get_put. Qed.

#[export] Instance sum_codec : Codec (A + B).
Proof using CA CB.
  refine {|
    put x := match x with inl a => "l"%char :: put a | inr b => "r"%char :: put b end;
    get s := match s with
             | "l"%char :: s => '(a, s) ← get s; Some (inl a, s)
             | "r"%char :: s => '(b, s) ← get s; Some (inr b, s)
             | _ => None
             end
  |}.
  abstract (by intros [a|b] rest; simpl; rewrite get_put).
Defined.

#[export] Instance option_codec : Codec (option A).
Proof using CA.
  refine {|
    put x := match x with Some a => "s"%char :: put a | None => ["n"%char] end;
    get s := match s with
             | "s"%char :: s => '(a, s) ← get s; Some (Some a, s)
             | "n"%char :: s => Some (None, s)
             | _ => None
             end
  |}.
  abstract (by intros [a|] rest; simpl; rewrite ?get_put).
Defined.

Fixpoint put_list (l : list A) : bytes :=
  match l with [] => [";"%char] | a :: l' => ","%char :: put a ++ put_list l' end.

(** One unit of fuel per element; the input is longer than the list. *)
Fixpoint get_list (fuel : nat) (s : bytes) : option (list A * bytes) :=
  match fuel with
  | O => None
  | S fuel' =>
      match s with
      | ";"%char :: s => Some ([], s)
      | ","%char :: s => '(a, s) ← get s; '(l, s) ← get_list fuel' s; Some (a :: l, s)
      | _ => None
      end
  end.

Lemma get_put_list (l : list A) (rest : bytes) (fuel : nat) :
  length (put_list l ++ rest) <= fuel -> get_list fuel (put_list l ++ rest) = Some (l, rest).
Proof.
  revert fuel. induction l as [|a l IH]; intros [|fuel] Hf; simpl in *; try (done || lia).
  rewrite <- app_assoc, get_put. simpl. rewrite IH; [done|].
  rewrite !length_app in Hf. rewrite length_app. lia.
Qed.

#[export] Program Instance list_codec : Codec (list A) := {|
  put := put_list;
  get s := get_list (length s) s
|}.
Next Obligation. intros l rest. by apply get_put_list. Qed.
End compound.

#[export] Instance string_codec : Codec string :=
  codec_of String.list_ascii_of_string String.string_of_list_ascii String.string_of_list_ascii_of_string.

#[export] Instance bool_codec : Codec bool.
Proof. refine (codec_of (fun b : bool => if b then Some 0%N else None) (fun o => match o with Some _ => true | None => false end) _). by intros []. Defined.

#[export] Instance gmap_codec {K A : Type} `{Countable K} {CK : Codec K} {CA : Codec A} : Codec (gmap K A) :=
  codec_of map_to_list list_to_map (list_to_map_to_list (M := gmap K)).

(** A whole input, with nothing left over. *)
Definition decode_all {A : Type} {CA : Codec A} (s : bytes) : option A :=
  match get s with Some (a, []) => Some a | _ => None end.

Lemma decode_all_put {A : Type} {CA : Codec A} (a : A) : decode_all (put a) = Some a.
Proof. unfold decode_all. rewrite <- (app_nil_r (put a)). by rewrite get_put. Qed.
