(* ===== verification/WalRecovery.v ===== *)
(** * Crash recovery (internal/wal/recovery.go) *)

From S2P Require Import Prelude WalTypes Os.

(** ** File names (wal.go) *)

Definition activeWALName : string := "wal.ndjson".
Definition tmpWALName : string := "wal.tmp.ndjson".
Definition snapshotName : string := "snapshot".
Definition snapshotTmpName : string := "snapshot.tmp".
Definition rebuildTmpName : string := "wal.ndjson.rebuild.tmp".

(** The hooks into the store, over the store's state; a nil hook is [None]. *)
Record Hooks (S : Type) : Type := mkHooks {
  hApplySnapshot : option (list SnapshotEntry -> S -> option error * S);
  hApplyRecord : option (Record_ -> S -> option error * S);
  hSnapshot : S -> result (list SnapshotEntry)
}.
Arguments mkHooks {S} _ _ _.
Arguments hApplySnapshot {S} _.
Arguments hApplyRecord {S} _.
Arguments hSnapshot {S} _.

(** [bytes.Split(data, "\n")]. *)
Fixpoint split_nl (data : bytes) : list bytes :=
  match data with
  | [] => [[]]
  | c :: rest =>
      if decide (c = nl) then [] :: split_nl rest
      else match split_nl rest with
           | l :: ls => (c :: l) :: ls
           | [] => [[c]]
           end
  end.

Section recovery.
Context {S : Type} `{!Json}.

Definition run_hook (f : S -> option error * S) : sys S () :=
  s ← get_mem;
  let '(e, s') := f s in
  put_mem s';;
  match e with Some err => fail err | None => mret () end.

Definition validateRec (rec : Record_) (last : N) : option error :=
  match op rec with
  | OpPut | OpDelete | OpTTL | OpNoop | OpConfig | OpHotStuff =>
      if (u64_succ last <? logIndex rec)%N then Some (Wrapped "wal: index gap") else None
  | _ => Some (Wrapped "wal: unknown op")
  end.

(** Validate one record, apply it if it is the next one; the new [last]. *)
Definition replayRec (apply : option (Record_ -> S -> option error * S)) (last : N) (rec : Record_)
    : sys S N :=
  match validateRec rec last with
  | Some err => fail err
  | None =>
      if (logIndex rec =? u64_succ last)%N then
        (match apply with Some f => run_hook (f rec) | None => mret () end);;
        mret (logIndex rec)
      else mret last
  end.

(** The loop over the complete lines. *)
Fixpoint replayLines (apply : option (Record_ -> S -> option error * S)) (last : N)
    (lines : list bytes) : sys S N :=
  match lines with
  | [] => mret last
  | line :: rest =>
      if (length line =? 0)%nat then fail (Wrapped "wal: empty record line")
      else match json_unrecord line with
           | None => fail (Wrapped "wal: corrupt record")
           | Some rec => last' ← replayRec apply last rec; replayLines apply last' rest
           end
  end.

(** The lines of a file and its unterminated tail. *)
Definition splitFile (data : bytes) : list bytes * bytes :=
  let lines := split_nl data in
  let final := default [] (last lines) in
  let front := take (length lines - 1) lines in
  if decide (last data = Some nl) then
    (if (length final =? 0)%nat then front else lines, [])
  else (front, final).

Definition replayWALFile (path : string) (last : N)
    (apply : option (Record_ -> S -> option error * S)) : sys S N :=
  data ← ReadFile path;
  if (length data =? 0)%nat then mret last
  else
    let '(lines, partial) := splitFile data in
    last1 ← replayLines apply last lines;
    if (length partial =? 0)%nat then mret last1
    else
      match json_unrecord partial with
      | None =>
          Truncate path (length data - length partial);; mret last1
      | Some rec =>
          last2 ← replayRec apply last1 rec;
          OpenExisting path;;
          r ← attempt (WriteAppend path [nl]);
          match r with
          | Err e => attempt FClose;; fail e
          | Ok _ => FClose;; mret last2
          end
      end.

Definition readSnapshot (path : string) : sys S snapshotData :=
  b ← ReadFile path;
  match json_unsnapshot b with
  | None => fail (Wrapped "json")
  | Some s =>
      mret (match Data s with
            | None => mkSnapshotData (LastLogIndex s) (Some ∅)
            | Some _ => s
            end)
  end.

(** [io.Copy(out, in)] of one source, skipped when it does not exist. *)
Definition copyInto (out p : string) : sys S () :=
  e ← exists_file p;
  if (e : bool) then
    r ← attempt (OpenExisting p);
    match r with
    | Err err => attempt FClose;; fail err
    | Ok _ =>
        b ← content p;
        r ← attempt (WriteAppend out b);
        match r with
        | Err err => attempt FClose;; attempt FClose;; fail err
        | Ok _ => attempt FClose;; mret ()
        end
    end
  else mret ().

Definition rebuildActive (activePath tmpPath : string) : sys S () :=
  OpenTrunc rebuildTmpName;;
  copyInto rebuildTmpName activePath;;
  copyInto rebuildTmpName tmpPath;;
  r ← attempt (FSync rebuildTmpName);
  match r with
  | Err err => attempt FClose;; fail err
  | Ok _ =>
      FClose;;
      Rename rebuildTmpName activePath;;
      syncDir;;
      Remove tmpPath;;
      syncDir
  end.

(** The entries of a snapshot, in the map's iteration order. *)
Definition snapshotEntries (s : snapshotData) : list SnapshotEntry :=
  (fun p => mkSnapshotEntry p.1 (snVal p.2) (snExp p.2)) <$> map_to_list (default ∅ (Data s)).

(** The removal of an incomplete snapshot. *)
Definition dropSnapshotTmp : sys S () :=
  e ← exists_file snapshotTmpName;
  if (e : bool) then Remove snapshotTmpName;; attempt syncDir;; mret () else mret ().

Definition loadSnapshot (hooks : Hooks S) : sys S N :=
  e ← exists_file snapshotName;
  if (e : bool) then
    snap ← wrap "wal: corrupt snapshot" (readSnapshot snapshotName);
    (match hApplySnapshot hooks with
     | Some f => run_hook (f (snapshotEntries snap))
     | None => mret ()
     end);;
    mret (LastLogIndex snap)
  else mret 0%N.

Definition Recover (hooks : Hooks S) : sys S N :=
  dropSnapshotTmp;;
  last ← loadSnapshot hooks;
  e ← exists_file activeWALName;
  last ← (if (e : bool) then replayWALFile activeWALName last (hApplyRecord hooks) else mret last);
  tmpExisted ← exists_file tmpWALName;
  last ← (if (tmpExisted : bool) then replayWALFile tmpWALName last (hApplyRecord hooks) else mret last);
  (if (tmpExisted : bool) then rebuildActive activeWALName tmpWALName else mret ());;
  mret last.
End recovery.
