(* ===== verification/WalRecoveryProps.v ===== *)
(** * Recovery: what a directory holds, and what replaying it does *)

From S2P Require Import Prelude WalTypes Os WalRecovery.

(** ** The encoding of a record sequence *)

Definition line `{!Json} (r : Record_) : bytes :=
  match json_record r with Ok b => b | Err _ => [] end.

Definition enc `{!Json} (L : list Record_) : bytes :=
  mjoin ((fun r => line r ++ [nl]) <$> L).

Lemma split_nl_line (l rest : bytes) :
  (nl ∉ l) -> split_nl (l ++ nl :: rest) = l :: split_nl rest.
Proof.
  induction l as [|c l IH]; intros H; cbn [split_nl app]; [by rewrite decide_True|].
  apply not_elem_of_cons in H as [Hc Hl]. rewrite decide_False by congruence. by rewrite IH.
Qed.

Lemma split_nl_last (l : bytes) : (nl ∉ l) -> split_nl l = [l].
Proof.
  induction l as [|c l IH]; intros H; cbn [split_nl app]; [done|].
  apply not_elem_of_cons in H as [Hc Hl]. rewrite decide_False by congruence. by rewrite IH.
Qed.

Section props.
Context {J : Json} {JL : JsonLaws}.

Lemma line_ok (r : Record_) :
  json_fits r -> json_record r = Ok (line r) /\ (nl ∉ line r) /\ json_unrecord (line r) = Some r /\
    forall p, p `prefix_of` line r -> p <> line r -> json_unrecord p = None.
Proof. intros H. unfold line. destruct (json_record_ok r H) as (b & -> & ? & ? & ?). auto. Qed.

Lemma enc_app (L1 L2 : list Record_) : enc (L1 ++ L2) = enc L1 ++ enc L2.
Proof. unfold enc. by rewrite fmap_app, join_app. Qed.

Lemma enc_snoc (L : list Record_) (r : Record_) : enc (L ++ [r]) = (enc L ++ line r) ++ [nl].
Proof. rewrite enc_app. unfold enc at 2. simpl. by rewrite app_nil_r, app_assoc. Qed.

Lemma split_enc (L : list Record_) (p : bytes) :
  Forall json_fits L -> (nl ∉ p) -> split_nl (enc L ++ p) = (line <$> L) ++ [p].
Proof.
  intros HL Hp. induction HL as [|r L Hr _ IH]; [by apply split_nl_last|].
  change (enc (r :: L)) with ((line r ++ [nl]) ++ enc L). rewrite <- !app_assoc.
  simpl. rewrite split_nl_line by apply (line_ok r Hr). by rewrite IH.
Qed.

Lemma last_enc (L : list Record_) (p : bytes) :
  (nl ∉ p) -> last (enc L ++ p) = Some nl <-> p = [] /\ L <> [].
Proof.
  intros Hp. destruct p as [|c p _] using rev_ind.
  - rewrite app_nil_r. destruct L as [|r L _] using rev_ind; [naive_solver|].
    rewrite enc_snoc, last_snoc. split; [|done]. intros _. split; [done|].
    by destruct L.
  - rewrite app_assoc, last_snoc. split; [|by destruct p; intros [? _]].
    intros [= ->]. exfalso. apply Hp. set_solver.
Qed.

Lemma splitFile_enc (L : list Record_) (p : bytes) :
  Forall json_fits L -> (nl ∉ p) -> (enc L ++ p <> []) -> splitFile (enc L ++ p) = (line <$> L, p).
Proof.
  intros HL Hp Hne. unfold splitFile. rewrite (split_enc L p HL Hp).
  rewrite last_snoc, length_app. simpl. rewrite Nat.add_sub, take_app_length.
  case_decide as Hl.
  - apply last_enc in Hl as [-> _]; done.
  - done.
Qed.

(** ** Histories *)

Definition knownOp (o : Op) : bool :=
  match o with
  | OpPut | OpDelete | OpTTL | OpNoop | OpConfig | OpHotStuff => true
  | _ => false
  end.

(** The records ever appended, in order: the i-th one has index i+1. *)
Definition history (h : list Record_) : Prop :=
  (N.of_nat (length h) + 1 < 2 ^ 64)%N /\
  forall i r, h !! i = Some r ->
    logIndex r = N.of_nat (S i) /\ knownOp (op r) = true /\ json_fits r.

(** The records of [h] at positions [m] to [n-1]. *)
Definition span (h : list Record_) (m n : nat) : list Record_ := take (n - m) (drop m h).

Lemma span_nil h m : span h m m = [].
Proof. unfold span. by rewrite Nat.sub_diag. Qed.

Lemma span_cons h m n r : h !! m = Some r -> m < n -> span h m n = r :: span h (S m) n.
Proof.
  intros Hr Hlt. unfold span. rewrite (drop_S _ _ _ Hr).
  replace (n - m) with (S (n - S m)) by lia. done.
Qed.

Lemma span_app h m k n : m <= k -> k <= n -> span h m n = span h m k ++ span h k n.
Proof.
  intros H1 H2. unfold span. replace (n - m) with ((k - m) + (n - k)) by lia.
  rewrite <- take_take_drop, drop_drop. do 3 f_equal. lia.
Qed.

(** Reading [L] from position [m] of [h] moves on to position [n]: every
    record of [L] is a record of [h] already passed, or the next one. *)
Fixpoint chain (h : list Record_) (m : nat) (L : list Record_) (n : nat) : Prop :=
  match L with
  | [] => m = n
  | r :: L' => (exists i, i < m /\ h !! i = Some r /\ chain h m L' n) \/
               (h !! m = Some r /\ chain h (S m) L' n)
  end.

Lemma chain_le h m L n : chain h m L n -> m <= n.
Proof.
  revert m. induction L as [|r L IH]; intros m; simpl; [lia|].
  intros [(i & _ & _ & H)|[_ H]]; apply IH in H; lia.
Qed.

Lemma chain_app h m L1 L2 n :
  chain h m (L1 ++ L2) n <-> exists k, chain h m L1 k /\ chain h k L2 n.
Proof.
  revert m. induction L1 as [|r L1 IH]; intros m; simpl; [naive_solver|].
  setoid_rewrite IH. split.
  - intros [(i & ? & ? & k & ? & ?)|(? & k & ? & ?)]; exists k; eauto 10.
  - intros (k & [(i & ? & ? & ?)|[? ?]] & ?); eauto 10.
Qed.

Lemma chain_in h m L n r : chain h m L n -> r ∈ L -> exists i, i < n /\ h !! i = Some r.
Proof.
  revert m. induction L as [|r' L IH]; intros m; simpl; [by rewrite elem_of_nil|].
  rewrite elem_of_cons. intros [(i & ? & ? & H)|[? H]] Hr.
  - destruct Hr as [->|Hr]; [|by eapply IH]. apply chain_le in H. exists i. split; [lia|done].
  - destruct Hr as [->|Hr]; [|by eapply IH]. apply chain_le in H. exists m. split; [lia|done].
Qed.

Lemma chain_skip h m L : (forall r, r ∈ L -> exists i, i < m /\ h !! i = Some r) -> chain h m L m.
Proof.
  induction L as [|r L IH]; intros H; simpl; [done|]. left.
  destruct (H r ltac:(left)) as (i & ? & ?). exists i. split; [done|]. split; [done|].
  apply IH. intros r' Hr'. apply H. by right.
Qed.

Lemma chain_fits h m L n : history h -> chain h m L n -> Forall json_fits L.
Proof.
  intros [_ Hh] Hc. apply Forall_forall. intros r Hr.
  destruct (chain_in h m L n r Hc Hr) as (i & _ & Hi). by apply (Hh i).
Qed.

(** ** What a WAL file holds *)

(** A file of complete lines, one with a torn last line, and one whose last
    line is complete up to its newline. *)
Inductive decodes : bytes -> list Record_ -> Prop :=
  | decodes_full L : decodes (enc L) L
  | decodes_torn L p : (nl ∉ p) -> json_unrecord p = None -> decodes (enc L ++ p) L
  | decodes_unframed L r : decodes (enc L ++ line r) (L ++ [r]).

(** An append of [r] that stopped after [k] bytes. *)
Lemma decodes_append (L : list Record_) (r : Record_) (k : nat) :
  json_fits r ->
  decodes (enc L ++ take k (line r ++ [nl])) L \/ decodes (enc L ++ take k (line r ++ [nl])) (L ++ [r]).
Proof.
  intros Hr. destruct (line_ok r Hr) as (_ & Hnl & _ & Hp).
  destruct (decide (k < length (line r))) as [Hk|Hk].
  - left. rewrite take_app_le by lia. apply decodes_torn.
    + intros Hin. apply Hnl. apply elem_of_take in Hin as (i & Hi & _). by eapply list_elem_of_lookup_2.
    + apply Hp; [apply prefix_take|]. intros Heq%(f_equal length). rewrite length_take in Heq. lia.
  - destruct (decide (k = length (line r))) as [->|Hk'].
    + right. rewrite take_app_length. apply decodes_unframed.
    + right. rewrite take_ge by (rewrite length_app; simpl; lia).
      rewrite app_assoc, <- enc_snoc. apply decodes_full.
Qed.
End props.
