(* ===== verification/WalRecoveryThms.v ===== *)
(** * Recovery is correct and survives a crash at any point of itself *)

From S2P Require Import Prelude WalTypes WalCodec Os WalRecovery WalRecoveryProps.

Section recovery_thms.
Context {J : Json} {JL : JsonLaws} {S : Type}.
Context (load : S -> list SnapshotEntry -> S) (step : S -> Record_ -> S).

(** The hooks of a store that accepts every snapshot and every record. *)
Definition good_hooks (snap : S -> result (list SnapshotEntry)) : Hooks S :=
  mkHooks (Some (fun es x => (None, load x es))) (Some (fun r x => (None, step x r))) snap.

Let apply := Some (fun (r : Record_) (x : S) => (None : option error, step x r)).

Lemma validateRec_ok (h : list Record_) (i m : nat) (r : Record_) :
  history h -> h !! i = Some r -> i <= m -> m <= length h ->
  validateRec r (N.of_nat m) = None /\
  ((logIndex r =? u64_succ (N.of_nat m))%N = bool_decide (i = m)).
Proof.
  intros [Hb Hh] Hi Him Hm. destruct (Hh i r Hi) as (Hidx & Hop & _).
  assert (u64_succ (N.of_nat m) = N.of_nat (Datatypes.S m)) as Hs
    by (rewrite u64_succ_small by lia; lia).
  unfold validateRec. rewrite Hs, Hidx. split.
  - rewrite (proj2 (N.ltb_ge _ _)) by lia. by destruct (op r).
  - destruct (N.eqb_spec (N.of_nat (Datatypes.S i)) (N.of_nat (Datatypes.S m))).
    + symmetry. apply bool_decide_eq_true. lia.
    + symmetry. apply bool_decide_eq_false. lia.
Qed.

Lemma replayRec_skip h i m r (s : Sys S) :
  history h -> h !! i = Some r -> i < m -> m <= length h ->
  replayRec apply (N.of_nat m) r s = Done (Ok (N.of_nat m)) s.
Proof.
  intros Hh Hi Him Hm. destruct (validateRec_ok h i m r) as [Hv He]; try done; [lia|].
  unfold replayRec. rewrite Hv, He, bool_decide_eq_false_2 by lia. done.
Qed.

Lemma replayRec_next h m r (s : Sys S) :
  history h -> h !! m = Some r ->
  replayRec apply (N.of_nat m) r s =
    Done (Ok (N.of_nat (Datatypes.S m))) (mkSys (disk s) (io s) (step (mem s) r)).
Proof.
  intros Hh Hi. pose proof (lookup_lt_Some _ _ _ Hi).
  destruct (validateRec_ok h m m r) as [Hv He]; try done; [lia|].
  unfold replayRec. rewrite Hv, He, bool_decide_eq_true_2 by lia. destruct Hh as [_ Hh].
  destruct (Hh m r Hi) as (<- & _). done.
Qed.

Lemma chain_bound h m L n : chain h m L n -> m <= length h -> n <= length h.
Proof.
  revert m. induction L as [|r L IH]; intros m; simpl; [by intros ->|].
  intros [(i & ? & Hi & H)|[Hi H]] Hm; eapply IH; eauto.
  apply lookup_lt_Some in Hi. lia.
Qed.

Lemma replayRec_ok h m r n (s : Sys S) :
  history h -> chain h m [r] n -> m <= length h ->
  replayRec apply (N.of_nat m) r s =
    Done (Ok (N.of_nat n)) (mkSys (disk s) (io s) (foldl step (mem s) (span h m n))).
Proof.
  intros Hh [(i & Hi & Hr & <-)|[Hr <-]] Hm.
  - rewrite span_nil, (replayRec_skip h i) by done. by destruct s.
  - rewrite (replayRec_next h), (span_cons h m (Datatypes.S m) r), span_nil by (done || lia). done.
Qed.

(** Replaying complete lines applies exactly the records not passed yet. *)
Lemma replayLines_ok h m L n (s : Sys S) :
  history h -> chain h m L n -> m <= length h ->
  replayLines apply (N.of_nat m) (line <$> L) s =
    Done (Ok (N.of_nat n)) (mkSys (disk s) (io s) (foldl step (mem s) (span h m n))).
Proof.
  intros Hh. revert m s. induction L as [|r L IH]; intros m s Hc Hm; simpl in Hc.
  { subst n. rewrite span_nil. by destruct s. }
  assert (exists i, h !! i = Some r) as [j Hj] by naive_solver.
  destruct (proj2 Hh j r Hj) as (_ & _ & Hfit).
  destruct (line_ok r Hfit) as (_ & _ & Hdec & Hpre).
  rewrite fmap_cons. cbn [replayLines].
  destruct (Nat.eqb_spec (length (line r)) 0) as [Hz|_].
  { exfalso. apply nil_length_inv in Hz. rewrite Hz in Hdec.
    by rewrite json_unrecord_nil in Hdec. }
  assert (chain h m ([r] ++ L) n) as Hc' by exact Hc.
  apply chain_app in Hc' as (k & Hc1 & Hc2). pose proof (chain_bound _ _ _ _ Hc1 Hm).
  pose proof (chain_le _ _ _ _ Hc1). pose proof (chain_le _ _ _ _ Hc2).
  rewrite Hdec. unfold mbind, sys_bind. rewrite (replayRec_ok h m r k), IH by (done || lia). simpl.
  by rewrite (span_app h m k n), foldl_app by lia.
Qed.

(** What replaying a WAL file leaves, however it ends; [R] holds of all that a crash
    may leave. *)
Definition replayed (R : Disk -> Prop) (h : list Record_) (path : string) (m n : nat) (L : list Record_)
    (s : Sys S) (r : result N) (s' : Sys S) : Prop :=
  Forall R (remains s') /\
  match r with
  | Ok v => v = N.of_nat n /\ disk s' = <[path := enc L]> (disk s) /\
            mem s' = foldl step (mem s) (span h m n) /\ (script s = [] -> script s' = [])
  | Err _ => script s <> [] /\ exists c, decodes c L /\ disk s' = <[path := c]> (disk s)
  end.

Definition replay_crashed (R : Disk -> Prop) (s : Sys S) (d : Disk) (m' : S) : Prop :=
  R d /\ script s <> [].

(** [R] allows any content of the file that decodes to [L]. *)
Definition allows (R : Disk -> Prop) (path : string) (L : list Record_) : Prop :=
  forall i c, R i -> decodes c L -> R (<[path := c]> i).

(** A run that read the file and stopped. *)
Lemma replay_stopped R h path m n L c (s : Sys S) e x err :
  Forall R (remains s) -> script s <> [] -> decodes c L -> disk s !! path = Some c ->
  images e = images (io s) -> replayed R h path m n L s (Err err) (mkSys (disk s) e x).
Proof.
  intros HR Hsc Hdec Hd Hi. split; [by apply remains_same|]. split; [done|]. exists c. split; [done|].
  by rewrite insert_id.
Qed.

Lemma replayWALFile_full R path h m L n (s : Sys S) :
  history h -> m <= length h -> chain h m L n -> disk s !! path = Some (enc L) -> Forall R (remains s) ->
  ends (replayWALFile path (N.of_nat m) apply) s (replayed R h path m n L s) (replay_crashed R s).
Proof.
  intros Hh Hm Hc Hd HR. pose proof (chain_fits h m L n Hh Hc) as Hf.
  apply ends_bind, (ends_ReadFile _ (enc L)); [done| | |].
  - intros e He Hi. destruct (Nat.eqb_spec (length (enc L)) 0) as [Hz|Hz].
    + apply nil_length_inv in Hz. destruct L as [|r L].
      2:{ exfalso. change (enc (r :: L)) with ((line r ++ [nl]) ++ enc L) in Hz.
          by destruct (line r). }
      simpl in Hc. subst n. apply ends_ret. split; [by apply remains_same|]. cbn [disk mem].
      rewrite span_nil, insert_id by done. split_and!; [done..|]. apply He.
    + assert (splitFile (enc L) = (line <$> L, [])) as ->.
      { pose proof (splitFile_enc L []) as Hsp. rewrite app_nil_r in Hsp.
        apply Hsp; [done|set_solver|]. by intros Hnil; rewrite Hnil in Hz. }
      apply ends_bind. unfold ends at 1. rewrite (replayLines_ok h m L n) by done. apply ends_ret.
      split; [by apply (remains_same R s)|]. cbn [disk mem].
      rewrite insert_id by done. split_and!; [done..|]. apply He.
  - intros e ? _ Hi. apply (replay_stopped _ _ _ _ _ _ (enc L)); try done. constructor.
  - intros d Hsc Hin. split; [|done]. by eapply remains_R.
Qed.

Lemma replayWALFile_torn R path h m L p n (s : Sys S) :
  history h -> m <= length h -> chain h m L n -> (nl ∉ p) -> p <> [] -> json_unrecord p = None ->
  disk s !! path = Some (enc L ++ p) -> Forall R (remains s) -> allows R path L ->
  ends (replayWALFile path (N.of_nat m) apply) s (replayed R h path m n L s) (replay_crashed R s).
Proof.
  intros Hh Hm Hc Hnl Hp Hdec Hd HR Hal. pose proof (chain_fits h m L n Hh Hc) as Hf.
  assert (enc L ++ p <> []) as Hne by (by intros [_ ?]%app_nil).
  assert (decodes (enc L ++ p) L) as Htorn by (by constructor).
  apply ends_bind, (ends_ReadFile _ (enc L ++ p)); [done| | |].
  2:{ intros e ? _ Hi. by eapply replay_stopped. }
  2:{ intros d ? Hin. split; [|done]. by eapply remains_R. }
  intros e He Hi. destruct (Nat.eqb_spec (length (enc L ++ p)) 0) as [Hz|_].
  { by apply nil_length_inv in Hz. }
  rewrite splitFile_enc by done. apply ends_bind. unfold ends.
  rewrite (replayLines_ok h m L n) by done.
  destruct (Nat.eqb_spec (length p) 0) as [Hz|_]; [by apply nil_length_inv in Hz|].
  rewrite Hdec. set (k := length (enc L ++ p) - length p).
  assert (forall i : Disk, i !! path = Some (enc L ++ p) -> truncate path k i = <[path := enc L]> i) as Htr.
  { intros i Ei. unfold truncate, k. rewrite Ei. by rewrite length_app, Nat.add_sub, take_app_length. }
  apply ends_bind, (ends_change R); cbn [disk mem io].
  - by apply remains_same.
  - intros i i' Hri [Hs ->]%elem_of_if_same. unfold same_file in Hs. apply bool_decide_eq_true in Hs.
    rewrite Htr by congruence. apply Hal; [done|constructor].
  - intros e' He' HR'. apply ends_ret. rewrite Htr by done. split.
    + apply remains_cons; [|done]. apply Hal; [by apply Forall_inv in HR|constructor].
    + cbn [disk mem]. split_and!; [done..|]. intros H. by apply He', He.
  - intros q e' Hsc _ HR'. split; [apply remains_cons; [by apply Forall_inv in HR|done]|].
    split; [by intros ?%He|]. exists (enc L ++ p). split; [done|]. by rewrite insert_id.
  - intros d Hsc Hr. split; [done|]. by intros ?%He.
Qed.

Lemma decodes_framing (L : list Record_) (r : Record_) (k : nat) :
  decodes ((enc L ++ line r) ++ take k [nl]) (L ++ [r]).
Proof.
  destruct k as [|k].
  - rewrite app_nil_r. constructor.
  - simpl. rewrite take_nil, <- enc_snoc. constructor.
Qed.

Lemma replayWALFile_unframed R path h m L r n (s : Sys S) :
  history h -> m <= length h -> chain h m (L ++ [r]) n ->
  disk s !! path = Some (enc L ++ line r) -> Forall R (remains s) -> allows R path (L ++ [r]) ->
  ends (replayWALFile path (N.of_nat m) apply) s
    (replayed R h path m n (L ++ [r]) s) (replay_crashed R s).
Proof.
  intros Hh Hm Hc Hd HR Hal. pose proof (chain_fits _ _ _ _ Hh Hc) as [Hf Hr]%Forall_app.
  rewrite Forall_singleton in Hr. apply chain_app in Hc as (k & Hc1 & Hc2).
  pose proof (chain_bound _ _ _ _ Hc1 Hm). pose proof (chain_le _ _ _ _ Hc1).
  pose proof (chain_le _ _ _ _ Hc2).
  destruct (line_ok r Hr) as (_ & Hnl & Hdec & _).
  assert (line r <> []) as Hp by (intros Hz; rewrite Hz, json_unrecord_nil in Hdec; done).
  assert (decodes (enc L ++ line r) (L ++ [r])) as Hun by constructor.
  assert (enc L ++ line r <> []) as Hne by (by intros [_ ?]%app_nil).
  apply ends_bind, (ends_ReadFile _ (enc L ++ line r)); [done| | |].
  2:{ intros e ? _ Hi. by eapply replay_stopped. }
  2:{ intros d ? Hin. split; [|done]. by eapply remains_R. }
  intros e He Hi. destruct (Nat.eqb_spec (length (enc L ++ line r)) 0) as [Hz|_].
  { by apply nil_length_inv in Hz. }
  rewrite splitFile_enc by done. apply ends_bind. unfold ends.
  rewrite (replayLines_ok h m L k) by done.
  destruct (Nat.eqb_spec (length (line r)) 0) as [Hz|_]; [by apply nil_length_inv in Hz|].
  rewrite Hdec. apply ends_bind. unfold ends. rewrite (replayRec_ok h k r n) by done.
  cbn [disk mem io]. apply ends_bind, (ends_OpenExisting _ (enc L ++ line r)); [done| | |];
    cbn [disk mem io].
  2:{ intros e1 Hsc _ Hi1. eapply replay_stopped; try done; [by intros ?%He|congruence]. }
  2:{ intros d Hsc Hin. split; [|by intros ?%He]. eapply remains_R; [exact HR|]. unfold remains in *.
      cbn [disk io] in Hin. by rewrite <- Hi. }
  intros e1 He1 Hi1.
  assert (forall q (i : Disk), i !! path = Some (enc L ++ line r) ->
            append_to path (take q [nl]) i = <[path := (enc L ++ line r) ++ take q [nl]]> i) as Hap.
  { intros q i Ei. unfold append_to. by rewrite Ei. }
  assert (R (disk s)) as Hv by (by apply Forall_inv in HR).
  apply ends_bind, ends_attempt, (ends_change R); cbn [disk mem io].
  - apply remains_same; [done|congruence].
  - intros i i' Hri. unfold same_file. case_bool_decide as Es; [|by intros ?%elem_of_nil].
    intros (q & -> & _)%list_elem_of_fmap. rewrite Hap by congruence. apply Hal, decodes_framing. done.
  - intros e2 He2 HR2. change [nl] with (take 1 [nl]). rewrite Hap by done.
    assert (R (<[path := (enc L ++ line r) ++ take 1 [nl]]> (disk s))) as Hv2 by (by apply Hal, decodes_framing).
    apply ends_bind, ends_idle; cbn [disk mem io].
    + intros e3 He3 Hi3. apply ends_ret. split; [by apply remains_cons; rewrite ?Hi3|]. cbn [disk mem].
      rewrite (enc_snoc L r), (span_app h m k n), foldl_app by lia. split_and!; [done..|]. intros Hq. by apply He3, He2, He1, He.
    + intros e3 Hsc _ Hi3. split; [by apply remains_cons; rewrite ?Hi3|]. split; [by intros ?%He%He1%He2|].
      eexists. split; [apply decodes_framing|done].
    + intros d Hsc Hin. split; [|by intros ?%He%He1%He2]. eapply remains_R; [|exact Hin]. by apply remains_cons.
  - intros q e2 Hsc _ HR2. rewrite Hap by done.
    assert (R (<[path := (enc L ++ line r) ++ take q [nl]]> (disk s))) as Hv2 by (by apply Hal, decodes_framing).
    assert (forall e3, images e3 = images e2 ->
      replayed R h path m n (L ++ [r]) s (Err IOError) (mkSys (<[path := (enc L ++ line r) ++ take q [nl]]> (disk s)) e3
        (foldl step (foldl step (mem s) (span h m k)) (span h k n)))) as Herr.
    { intros e3 Hi3. split; [by apply remains_cons; rewrite ?Hi3|]. split; [by intros ?%He%He1|]. eexists. split; [apply decodes_framing|done]. }
    apply ends_bind, ends_attempt, ends_idle; cbn [disk mem io]; [intros; by apply Herr..|].
    intros d _ Hin. split; [|by intros ?%He%He1]. eapply remains_R; [|exact Hin]. by apply remains_cons.
  - intros d Hsc Hr'. split; [done|]. by intros ?%He%He1.
Qed.

Lemma replayWALFile_ends R path h m L n c (s : Sys S) :
  history h -> m <= length h -> chain h m L n -> disk s !! path = Some c -> decodes c L ->
  Forall R (remains s) -> allows R path L ->
  ends (replayWALFile path (N.of_nat m) apply) s (replayed R h path m n L s) (replay_crashed R s).
Proof.
  intros Hh Hm Hc Hd Hdec HR Hal. destruct Hdec as [L|L p Hnl Hp|L r].
  - by apply replayWALFile_full.
  - destruct (decide (p = [])) as [->|Hne].
    + rewrite app_nil_r in Hd. by apply replayWALFile_full.
    + by apply (replayWALFile_torn _ _ _ _ _ p).
  - by apply replayWALFile_unframed.
Qed.

(** ** The whole directory *)

Definition wal_file (d : Disk) (name : string) (L : list Record_) : Prop :=
  match d !! name with None => L = [] | Some c => decodes c L end.

Definition framed (d : Disk) (name : string) (L : list Record_) : Prop :=
  match d !! name with None => L = [] | Some c => c = enc L end.

Definition snapshot_file (d : Disk) (o : option snapshotData) : Prop :=
  match d !! snapshotName with None => o = None | Some c => json_unsnapshot c = o /\ o <> None end.

Definition boundary (o : option snapshotData) : nat :=
  match o with Some sd => N.to_nat (LastLogIndex sd) | None => 0 end.

(** The directory holds the first [n] records of the history [h]: a snapshot
    [o] of those up to its boundary, and the others in the two WAL files. *)
Definition holds (h : list Record_) (o : option snapshotData) (n : nat) (d : Disk) : Prop :=
  snapshot_file d o /\ boundary o <= length h /\
  exists LA LT, wal_file d activeWALName LA /\ wal_file d tmpWALName LT /\
                chain h (boundary o) (LA ++ LT) n.

(** The state that recovery must rebuild. *)
Definition recovered (h : list Record_) (o : option snapshotData) (n : nat) (x : S) : S :=
  foldl step (match o with Some sd => load x (snapshotEntries sd) | None => x end)
    (span h (boundary o) n).

Lemma framed_wal_file d name L : framed d name L -> wal_file d name L.
Proof. unfold framed, wal_file. destruct (d !! name); [|done]. intros ->. constructor. Qed.

(** A directory with the snapshot [o], [LA] in the active WAL and [LT] in the
    temporary one. *)
Definition img (o : option snapshotData) (LA LT : list Record_) (d : Disk) : Prop :=
  snapshot_file d o /\ wal_file d activeWALName LA /\ wal_file d tmpWALName LT.

Lemma img_holds h o n LA LT d :
  boundary o <= length h -> chain h (boundary o) (LA ++ LT) n -> img o LA LT d -> holds h o n d.
Proof. intros Hb Hc (Hs & HA & HT). split; [done|]. split; [done|]. eauto. Qed.

(** The records of the temporary WAL are in both files; they are skipped the second
    time. *)
Lemma img_holds_twice h o n LA LT d :
  boundary o <= length h -> chain h (boundary o) (LA ++ LT) n -> img o (LA ++ LT) LT d -> holds h o n d.
Proof.
  intros Hb Hc. apply img_holds; [done|]. apply chain_app. exists n. split; [done|]. apply chain_skip.
  intros r Hr. apply (chain_in _ _ _ _ _ Hc). set_solver.
Qed.

Lemma img_holds_merged h o n LA LT d :
  boundary o <= length h -> chain h (boundary o) (LA ++ LT) n -> img o (LA ++ LT) [] d -> holds h o n d.
Proof. intros Hb Hc. apply img_holds; [done|]. by rewrite app_nil_r. Qed.

(** Another content of one of the two files. *)
Lemma img_set_active o LA LA' LT i c :
  img o LA LT i -> decodes c LA' -> img o LA' LT (<[activeWALName := c]> i).
Proof.
  intros (Hs & HA & HT) Hdec. unfold img, snapshot_file, wal_file in *.
  by rewrite lookup_insert_eq, !lookup_insert_ne by done.
Qed.

Lemma img_set_tmp o LA LT LT' i c :
  img o LA LT i -> decodes c LT' -> img o LA LT' (<[tmpWALName := c]> i).
Proof.
  intros (Hs & HA & HT) Hdec. unfold img, snapshot_file, wal_file in *.
  by rewrite lookup_insert_eq, !lookup_insert_ne by done.
Qed.

Lemma img_active o LA LT : allows (img o LA LT) activeWALName LA.
Proof. intros i c. apply img_set_active. Qed.

Lemma img_tmp o LA LT : allows (img o LA LT) tmpWALName LT.
Proof. intros i c. apply img_set_tmp. Qed.

(** The disks differ in the scratch file of a rebuild at most. *)
Definition agree_except (f : string) (d d' : Disk) : Prop := forall k, k <> f -> d' !! k = d !! k.

(** [R] does not look at the scratch file [f]. *)
Definition ignores (R : Disk -> Prop) (f : string) : Prop := forall d d', agree_except f d d' -> R d -> R d'.

Lemma img_ignores o LA LT f :
  (f ∉ [snapshotName; activeWALName; tmpWALName]) -> ignores (img o LA LT) f.
Proof.
  intros Hf d d' Ha. unfold img, snapshot_file, wal_file.
  rewrite !(Ha snapshotName), !(Ha activeWALName), !(Ha tmpWALName) by set_solver. done.
Qed.

Lemma agree_refl f d : agree_except f d d.
Proof. by intros ? ?. Qed.

Lemma agree_insert f c d d' : agree_except f d d' -> agree_except f d (<[f := c]> d').
Proof. intros H k Hk. rewrite lookup_insert_ne by congruence. auto. Qed.

Lemma agree_append f b d d' : agree_except f d d' -> agree_except f d (append_to f b d').
Proof. intros H. unfold append_to. destruct (d' !! f); auto using agree_insert. Qed.

(** A file that was written in whole. *)
Lemma img_move_active o LA LA' LT d0 d :
  img o LA LT d0 -> agree_except activeWALName d0 d -> d !! activeWALName = Some (enc LA') -> img o LA' LT d.
Proof.
  intros (Hs & _ & HT) Ha Hd. unfold img, snapshot_file, wal_file in *. rewrite Hd, !Ha by done.
  split_and!; try done. constructor.
Qed.

Lemma img_move_tmp o LA LT LT' d0 d :
  img o LA LT d0 -> agree_except tmpWALName d0 d -> d !! tmpWALName = Some (enc LT') -> img o LA LT' d.
Proof.
  intros (Hs & HA & _) Ha Hd. unfold img, snapshot_file, wal_file in *. rewrite Hd, !Ha by done.
  split_and!; try done. constructor.
Qed.

Lemma agree_delete f d d' : agree_except f d d' -> agree_except f d (delete f d').
Proof. intros H k Hk. rewrite lookup_delete_ne by congruence. auto. Qed.

(** The changes that calls on a scratch file spread. *)
Lemma ignores_append R f b view i i' :
  ignores R f -> R i ->
  i' ∈ (if same_file f view i then (fun n => append_to f (take n b) i) <$> seq 1 (length b) else []) -> R i'.
Proof.
  intros HR Hi. destruct (same_file f view i); [|by intros ?%elem_of_nil].
  intros (n & -> & _)%list_elem_of_fmap. eapply HR; [|exact Hi]. apply agree_append, agree_refl.
Qed.

Lemma ignores_if_same R f same g view i i' :
  ignores R f -> (forall d, agree_except f d (g d)) -> R i -> i' ∈ if_same same g view i -> R i'.
Proof. intros HR Hg Hi [_ ->]%elem_of_if_same. eapply HR; [|exact Hi]. apply Hg. Qed.

Lemma copyInto_ends R out p L o (s : Sys S) :
  out <> p -> framed (disk s) p L -> disk s !! out = Some o -> ignores R out -> Forall R (remains s) ->
  ends (copyInto out p) s
    (fun r s' => agree_except out (disk s) (disk s') /\ (script s = [] -> script s' = []) /\
                 mem s' = mem s /\ Forall R (remains s') /\
                 match r with
                 | Ok _ => disk s' !! out = Some (o ++ enc L)
                 | Err _ => script s <> []
                 end)
    (fun d _ => R d /\ script s <> []).
Proof.
  intros Hne Hfr Ho Hig HR. unfold copyInto. apply ends_bind. unfold ends, exists_file. unfold framed in Hfr.
  destruct (disk s !! p) as [c|] eqn:Ep.
  2:{ rewrite bool_decide_eq_false_2 by (by intros []). subst L. simpl. rewrite app_nil_r.
      auto using agree_refl. }
  rewrite bool_decide_eq_true_2 by done. subst c.
  (** a call on the files already read, that fails or crashes *)
  assert (forall e d, images e = images (io s) -> d ∈ remains (mkSys (disk s) e (mem s)) -> R d) as Hin.
  { intros e d Hi Hd. eapply remains_R; [|exact Hd]. by apply remains_same. }
  apply ends_bind, ends_attempt, (ends_OpenExisting _ (enc L)); [done| | |].
  3:{ intros d ? Hd. split; [by eapply remains_R|done]. }
  2:{ intros e Hsc _ Hi. apply ends_bind, ends_attempt, ends_idle; cbn [disk io mem].
      - intros e' _ Hi'. apply ends_fail. split_and!; [apply agree_refl|done|done|by apply remains_same; [|congruence]|done].
      - intros e' _ _ Hi'. apply ends_fail. split_and!; [apply agree_refl|done|done|by apply remains_same; [|congruence]|done].
      - intros d _ Hd. split; [by eapply Hin|done]. }
  intros e He Hi. apply ends_bind. unfold ends at 1, content. cbn [disk]. rewrite Ep.
  assert (forall b, agree_except out (disk s) (append_to out b (disk s))) as Hag by (intros; apply agree_append, agree_refl).
  assert (R (disk s)) as Hv by (by apply Forall_inv in HR).
  apply ends_bind, ends_attempt, (ends_change R); cbn [disk io mem].
  - by apply remains_same.
  - intros i i' Hri. by apply ignores_append.
  - intros e1 He1 HR1. assert (R (append_to out (enc L) (disk s))) as Hv1 by (by eapply Hig).
    assert (append_to out (enc L) (disk s) !! out = Some (o ++ enc L)) as Hout.
    { unfold append_to. by rewrite Ho, lookup_insert_eq. }
    apply ends_bind, ends_attempt, ends_idle; cbn [disk io mem].
    + intros e2 He2 Hi2. apply ends_ret. split_and!; [apply Hag|intros ?; by apply He2, He1, He|done| |done].
      apply remains_cons; [done|by rewrite Hi2].
    + intros e2 Hsc _ Hi2. apply ends_ret. assert (script s <> []) by (by intros ?%He%He1).
      split_and!; [apply Hag|done|done| |done]. apply remains_cons; [done|by rewrite Hi2].
    + intros d Hsc Hd. split; [|by intros ?%He%He1]. eapply remains_R; [|exact Hd]. by apply remains_cons.
  - intros q e1 Hsc _ HR1. assert (script s <> []) as Hsc' by (by intros ?%He).
    assert (R (append_to out (take q (enc L)) (disk s))) as Hv1 by (by eapply Hig).
    apply ends_bind, ends_attempt, ends_idle; cbn [disk io mem].
    3:{ intros d _ Hd. split; [|done]. eapply remains_R; [|exact Hd]. by apply remains_cons. }
    all: intros; apply ends_bind, ends_attempt, ends_idle; cbn [disk io mem].
    3,6: intros d _ Hd; (split; [|done]); eapply remains_R; [|exact Hd]; apply remains_cons; [done|]; congruence.
    all: intros; apply ends_fail; split_and!; [apply Hag|done|done| |done]; apply remains_cons; [done|]; congruence.
  - intros d Hsc Hr. split; [done|]. by intros ?%He.
Qed.

(** The last steps of a rebuild: the merged file takes the place of the active WAL,
    then the temporary one goes. Until the directory is synced, a crash can leave it
    as it was before the last change. *)
Lemma rebuild_swap_ends h o n LA LT (s : Sys S) :
  boundary o <= length h -> chain h (boundary o) (LA ++ LT) n ->
  Forall (fun i => img o LA LT i /\ i !! rebuildTmpName = Some (enc LA ++ enc LT)) (remains s) ->
  ends (Rename rebuildTmpName activeWALName;; syncDir;; Remove tmpWALName;; syncDir) s
    (fun r s' => (script s = [] -> script s' = []) /\ mem s' = mem s /\
                 match r with
                 | Ok _ => disk s' !! activeWALName = Some (enc (LA ++ LT)) /\ disk s' !! tmpWALName = None /\
                           Forall (img o (LA ++ LT) []) (remains s')
                 | Err _ => script s <> [] /\ Forall (holds h o n) (remains s')
                 end)
    (fun d _ => holds h o n d /\ script s <> []).
Proof.
  clear apply load step. intros Hb Hc HR1.
  set (R1 := fun i => img o LA LT i /\ i !! rebuildTmpName = Some (enc LA ++ enc LT)) in *.
  set (R2 := fun i : Disk => img o (LA ++ LT) LT i /\ i !! rebuildTmpName = None).
  set (R3 := fun i : Disk => img o (LA ++ LT) [] i /\ i !! tmpWALName = None).
  assert (forall i, R1 i -> holds h o n i) as H1 by (intros i [Hi _]; by eapply img_holds).
  assert (forall i, R2 i -> holds h o n i) as H2 by (intros i [Hi _]; by eapply img_holds_twice).
  assert (forall i, R3 i -> holds h o n i) as H3 by (intros i [Hi _]; by eapply img_holds_merged).
  assert (forall i, R1 i -> R2 (rename_disk rebuildTmpName activeWALName i) /\
            rename_disk rebuildTmpName activeWALName i !! activeWALName = Some (enc (LA ++ LT))) as H12.
  { intros i [(Hs & _ & HT) Hi]. unfold rename_disk, R2, img, snapshot_file, wal_file in *. rewrite Hi, <- enc_app.
    rewrite !lookup_delete_ne, lookup_delete_eq, lookup_insert_eq, !lookup_insert_ne by done.
    split_and!; try done. constructor. }
  assert (forall i, R2 i -> rename_disk rebuildTmpName activeWALName i = i) as H22.
  { intros i [_ Hi]. unfold rename_disk. by rewrite Hi. }
  assert (forall i, R2 i -> R3 (delete tmpWALName i)) as H23.
  { intros i [(Hs & HA & _) _]. unfold R3, img, snapshot_file, wal_file in *.
    by rewrite lookup_delete_eq, !lookup_delete_ne by done. }
  assert (R1 (disk s)) as Hv by (by apply Forall_inv in HR1). destruct (H12 _ Hv) as [Hv2 Ha2].
  set (d2 := rename_disk rebuildTmpName activeWALName (disk s)) in *.
  apply ends_bind, (ends_change (fun i => R1 i \/ R2 i)).
  { eapply Forall_impl; [exact HR1|]. by left. }
  { intros i i' Hi [_ ->]%elem_of_if_same. right. destruct Hi as [Hi|Hi]; [by apply H12|by rewrite H22]. }
  2:{ intros _ e Hsc _ He. cbn [mem]. split_and!; [done|done|done|]. apply remains_cons; [by apply H1|].
      eapply Forall_impl; [exact He|]. by intros i [?|?]; auto. }
  2:{ intros d Hsc [?|?]; auto. }
  intros e1 He1 HR2. fold d2. apply ends_bind, (ends_sync (fun i => R1 i \/ R2 i)); cbn [disk io mem]; [done| | |].
  2:{ intros e Hsc _ He. split_and!; [by intros ?%He1|done|by intros ?%He1|]. apply remains_cons; [by apply H2|].
      eapply Forall_impl; [exact He|]. by intros i [?|?]; auto. }
  2:{ intros d Hsc Hd. split; [|by intros ?%He1]. destruct Hd as [->|[?|?]]; auto. }
  intros e2 He2 HR2'. assert (Forall R2 (images e2)) as HR2s.
  { eapply Forall_impl; [exact HR2'|]. intros i [[Hi|Hi] Hk]; [|done].
    apply (same_dir_None _ _ rebuildTmpName) in Hk; [|apply Hv2]. destruct Hi as [_ Hi]. congruence. }
  clear HR2 HR2'. apply ends_bind, (ends_change (fun i => R2 i \/ R3 i)); cbn [disk io mem].
  { apply remains_cons; [by left|]. eapply Forall_impl; [exact HR2s|]. by left. }
  { intros i i' Hi [_ ->]%elem_of_if_same. right. destruct Hi as [Hi|Hi]; [by apply H23|].
    rewrite delete_id; [done|apply Hi]. }
  2:{ intros _ e Hsc _ He. split_and!; [by intros ?%He1%He2|done|by intros ?%He1%He2|]. apply remains_cons; [by apply H2|].
      eapply Forall_impl; [exact He|]. by intros i [?|?]; auto. }
  2:{ intros d Hsc Hd. split; [|by intros ?%He1%He2]. destruct Hd; auto. }
  intros e3 He3 HR3. assert (R3 (delete tmpWALName d2)) as Hv3 by auto.
  apply (ends_sync (fun i => R2 i \/ R3 i)); cbn [disk io mem]; [done| | |].
  - intros e4 He4 HR4. split_and!; [intros ?; by apply He4, He3, He2, He1|done|by rewrite lookup_delete_ne|apply lookup_delete_eq|].
    apply remains_cons; [apply Hv3|]. eapply Forall_impl; [exact HR4|]. intros i [[Hi|Hi] Hk]; [|apply Hi].
    apply (same_dir_None _ _ tmpWALName) in Hk; [|apply lookup_delete_eq]. destruct Hi as [(Hs & HA & HT) _].
    unfold img, wal_file in *. rewrite Hk in HT |- *. by subst LT.
  - intros e4 Hsc _ HR4. split_and!; [by intros ?%He1%He2%He3|done|by intros ?%He1%He2%He3|]. apply remains_cons; [by apply H3|].
    eapply Forall_impl; [exact HR4|]. by intros i [?|?]; auto.
  - intros d Hsc Hd. split; [|by intros ?%He1%He2%He3]. destruct Hd as [->|[?|?]]; auto.
Qed.

Lemma rebuildActive_ends h o n LA LT (s : Sys S) :
  boundary o <= length h -> chain h (boundary o) (LA ++ LT) n -> Forall (img o LA LT) (remains s) ->
  framed (disk s) activeWALName LA -> disk s !! tmpWALName = Some (enc LT) ->
  ends (rebuildActive activeWALName tmpWALName) s
    (fun r s' => (script s = [] -> script s' = []) /\ mem s' = mem s /\
                 match r with
                 | Ok _ => disk s' !! activeWALName = Some (enc (LA ++ LT)) /\ disk s' !! tmpWALName = None /\
                           Forall (img o (LA ++ LT) []) (remains s')
                 | Err _ => script s <> [] /\ Forall (holds h o n) (remains s')
                 end)
    (fun d _ => holds h o n d /\ script s <> []).
Proof.
  clear apply load step. intros Hb Hc HR Ha Ht. set (R := img o LA LT) in *.
  assert (forall i, R i -> holds h o n i) as Hh by (intros i Hi; by eapply img_holds).
  assert (forall l, Forall R l -> Forall (holds h o n) l) as Hl by (intros l Hf; by eapply Forall_impl).
  assert (ignores R rebuildTmpName) as Hig by (apply img_ignores; set_solver).
  assert (R (disk s)) as Hv by (by apply Forall_inv in HR).
  apply ends_bind, (ends_change R); [done| | | |].
  { intros i i' Hi. apply (ignores_if_same _ rebuildTmpName); [done| |done]. intros d. apply agree_insert, agree_refl. }
  2:{ intros _ e Hsc _ He. cbn [mem]. split_and!; [done..|]. by apply Hl, remains_cons. }
  2:{ intros d Hsc Hd. auto. }
  intros e0 He0 HR0. set (d0 := <[rebuildTmpName := []]> (disk s)).
  assert (agree_except rebuildTmpName (disk s) d0) as Hd0 by (apply agree_insert, agree_refl).
  apply ends_bind. eapply ends_mono.
  { apply (copyInto_ends R _ _ LA []); [done| | |done|]; cbn [disk].
    - unfold framed. rewrite Hd0 by done. exact Ha.
    - apply lookup_insert_eq.
    - apply remains_cons; [by apply (Hig (disk s))|done]. }
  2:{ intros d ? [Hd Hn]. split; [by apply Hh|]. by intros ?%He0. }
  intros r1 s1 (Hd1 & Hsc1 & Hm1 & HR1 & Hr1). cbn [disk mem] in *.
  assert (agree_except rebuildTmpName (disk s) (disk s1)) as Hd1' by (intros k Hk; rewrite Hd1 by done; auto).
  assert (script s = [] -> script s1 = []) as Hq1 by (intros ?; by apply Hsc1, He0).
  destruct r1 as [[]|e]; [|split_and!; [done|done| |by apply Hl]; by intros ?%He0].
  apply ends_bind. eapply ends_mono.
  { apply (copyInto_ends R _ _ LT (enc LA)); [done| |exact Hr1|done|done].
    unfold framed. by rewrite Hd1', Ht by done. }
  2:{ intros d ? [Hd Hn]. split; [by apply Hh|]. by intros ?%Hq1. }
  intros r2 s2 (Hd2 & Hsc2 & Hm2 & HR2 & Hr2).
  assert (mem s2 = mem s) as Hm by congruence.
  assert (script s = [] -> script s2 = []) as Hq2 by auto.
  destruct r2 as [[]|e]; [|split_and!; [done|done| |by apply Hl]; by intros ?%Hq1].
  assert (R (disk s2)) as Hv2 by (by apply Forall_inv in HR2).
  apply ends_bind, ends_attempt, (ends_sync R); [by apply Forall_inv_tail in HR2| | |].
  2:{ intros e Hsc _ He. apply ends_bind, ends_attempt, ends_idle; cbn [disk io mem].
      3:{ intros d _ Hd. split; [|by intros ?%Hq2]. apply Hh. eapply remains_R; [|exact Hd]. by apply remains_cons. }
      all: intros; apply ends_fail; split_and!; [by intros ?%Hq2|done|by intros ?%Hq2|].
      all: apply Hl, remains_cons; [done|]; cbn [disk]; congruence. }
  2:{ intros d Hsc Hd. split; [|by intros ?%Hq2]. destruct Hd as [->|?]; auto. }
  intros e3 He3 HR3. apply ends_bind, ends_idle; cbn [disk io mem].
  2:{ intros e Hsc _ Hi. split_and!; [by intros ?%Hq2%He3|done|by intros ?%Hq2%He3|].
      apply Hl, remains_cons; [done|]. rewrite Hi. eapply Forall_impl; [exact HR3|]. by intros i [? _]. }
  2:{ intros d Hsc [->|Hd]%elem_of_cons; (split; [|by intros ?%Hq2%He3]); [auto|]. cbn [io] in Hd.
      eapply Forall_forall in HR3 as [? _]; [|exact Hd]. auto. }
  intros e4 He4 Hi4. eapply ends_mono; [apply (rebuild_swap_ends h o n LA LT); [done|done|]| |].
  - apply remains_cons; [done|]. rewrite Hi4. eapply Forall_impl; [exact HR3|]. intros i [Hi Hk].
    split; [done|]. by rewrite (same_file_eq _ _ _ Hk).
  - intros r s' (Hsc' & Hm' & Hr'). cbn [mem] in Hm'. split_and!; [intros ?; by apply Hsc', He4, He3, Hq2|congruence|].
    destruct r; [done|]. destruct Hr' as [Hn ?]. split; [|done]. by intros ?%Hq2%He3%He4.
  - intros d _ [? Hn]. split; [done|]. by intros ?%Hq2%He3%He4.
Qed.

(** Replaying a WAL file that may not exist. *)
Lemma replay_opt_ends R name h m L n (s : Sys S) :
  history h -> m <= length h -> chain h m L n -> wal_file (disk s) name L ->
  Forall R (remains s) -> allows R name L ->
  ends (if bool_decide (is_Some (disk s !! name))
        then replayWALFile name (N.of_nat m) apply else mret (N.of_nat m)) s
    (fun r s' => agree_except name (disk s) (disk s') /\
       (is_Some (disk s' !! name) <-> is_Some (disk s !! name)) /\ Forall R (remains s') /\
       match r with
       | Ok v => v = N.of_nat n /\ framed (disk s') name L /\
                 mem s' = foldl step (mem s) (span h m n) /\ (script s = [] -> script s' = [])
       | Err _ => script s <> []
       end)
    (fun d _ => R d /\ script s <> []).
Proof.
  intros Hh Hm Hc Hw HR Hal. unfold wal_file in Hw. destruct (disk s !! name) as [c|] eqn:E.
  - rewrite bool_decide_eq_true_2 by done. eapply ends_mono; [by apply (replayWALFile_ends R _ h m L n c)| |done].
    intros [v|e] s' [HR' Hr]; simpl in Hr.
    + destruct Hr as (-> & -> & -> & ?). split; [apply agree_insert, agree_refl|].
      unfold framed. rewrite lookup_insert_eq. split; [by split|]. auto.
    + destruct Hr as (? & c' & ? & ->). split; [apply agree_insert, agree_refl|].
      rewrite lookup_insert_eq. split; [by split|]. auto.
  - rewrite bool_decide_eq_false_2 by (by intros []). subst L. simpl in Hc. subst n.
    apply ends_ret. split; [apply agree_refl|]. rewrite span_nil. unfold framed. rewrite E.
    split; [by split; intros []|]. auto.
Qed.

Definition loaded (o : option snapshotData) (x : S) : S :=
  match o with Some sd => load x (snapshotEntries sd) | None => x end.

Lemma loadSnapshot_ends o snap (s : Sys S) :
  snapshot_file (disk s) o ->
  ends (loadSnapshot (good_hooks snap)) s
    (fun r s' => disk s' = disk s /\ images (io s') = images (io s) /\
       match r with
       | Ok v => v = N.of_nat (boundary o) /\ mem s' = loaded o (mem s) /\ (script s = [] -> script s' = [])
       | Err _ => script s <> []
       end)
    (fun d _ => d ∈ remains s /\ script s <> []).
Proof.
  unfold snapshot_file. intros Hs. unfold loadSnapshot. apply ends_bind. unfold ends, exists_file.
  destruct (disk s !! snapshotName) as [c|] eqn:E.
  2:{ subst o. by rewrite bool_decide_eq_false_2 by (by intros []). }
  rewrite bool_decide_eq_true_2 by done. destruct Hs as [Hdec Ho].
  destruct o as [sd|]; [|done].
  apply ends_bind, ends_wrap, ends_bind, (ends_ReadFile _ c); [done| |by intros|by intros].
  intros e He Hi. rewrite Hdec. apply ends_ret. unfold ends. simpl.
  destruct sd as [b [D|]]; simpl; rewrite N2Nat.id; split_and!; try done; apply He.
Qed.

Lemma dropSnapshotTmp_ends R (s : Sys S) :
  ignores R snapshotTmpName -> Forall R (remains s) ->
  ends dropSnapshotTmp s
    (fun r s' => agree_except snapshotTmpName (disk s) (disk s') /\ Forall R (remains s') /\
                 mem s' = mem s /\ match r with Ok _ => script s = [] -> script s' = [] | Err _ => script s <> [] end)
    (fun d _ => R d /\ script s <> []).
Proof.
  intros Hig HR. assert (R (disk s)) as Hv by (by apply Forall_inv in HR).
  assert (agree_except snapshotTmpName (disk s) (delete snapshotTmpName (disk s))) as Hd by (apply agree_delete, agree_refl).
  assert (R (delete snapshotTmpName (disk s))) as Hv' by (by eapply Hig).
  unfold dropSnapshotTmp. apply ends_bind. unfold ends, exists_file. case_bool_decide.
  2:{ apply ends_ret. auto using agree_refl. }
  apply ends_bind, (ends_change R); [done| | | |].
  - intros i i' Hi. apply (ignores_if_same _ snapshotTmpName); [done| |done]. intros d. apply agree_delete, agree_refl.
  - intros e He HRe. apply ends_bind, ends_attempt, (ends_sync R); cbn [disk io mem]; [done| | |].
    + intros e1 He1 HR1. apply ends_ret. split_and!; [done| |done|intros ?; by apply He1, He].
      apply remains_cons; [done|]. eapply Forall_impl; [exact HR1|]. by intros i [? _].
    + intros e1 Hsc _ HR1. apply ends_ret. split_and!; [done|by apply remains_cons|done|by intros ?%He].
    + intros d Hsc Hd'. split; [|by intros ?%He]. by destruct Hd' as [->|?].
  - intros _ e Hsc _ He. split_and!; [apply agree_refl|by apply remains_cons|done|done].
  - intros d Hsc Hr. done.
Qed.

(** Every image a crash may leave has the same records in the same files. *)
Definition disks_hold (h : list Record_) (o : option snapshotData) (n : nat) (l : list Disk) : Prop :=
  exists LA LT, boundary o <= length h /\ chain h (boundary o) (LA ++ LT) n /\ Forall (img o LA LT) l.

Lemma holds_disks h o n d : holds h o n d -> disks_hold h o n [d].
Proof. intros (Hs & Hb & LA & LT & HA & HT & Hc). exists LA, LT. split_and!; [done..|]. by repeat constructor. Qed.

(** What a run of [Recover] leaves, however it ends. *)
Lemma Recover_ends h o n snap (s : Sys S) :
  history h -> disks_hold h o n (remains s) ->
  ends (Recover (good_hooks snap)) s
    (fun r s' =>
       match r with
       | Ok v => v = N.of_nat n /\ mem s' = recovered h o n (mem s) /\
                 disk s' !! tmpWALName = None /\
                 (exists L, framed (disk s') activeWALName L /\ chain h (boundary o) L n /\
                            Forall (img o L []) (remains s')) /\
                 (script s = [] -> script s' = [])
       | Err _ => script s <> [] /\ Forall (holds h o n) (remains s')
       end)
    (fun d _ => holds h o n d /\ script s <> []).
Proof.
  intros Hh (LA & LT & Hb & Hc & HR). set (R := img o LA LT) in *.
  assert (forall i, R i -> holds h o n i) as Hho by (intros i Hi; by eapply img_holds).
  assert (forall l, Forall R l -> Forall (holds h o n) l) as Hl by (intros l Hf; by eapply Forall_impl).
  apply ends_bind. eapply ends_mono; [apply (dropSnapshotTmp_ends R); [apply img_ignores; set_solver|done]| |].
  2:{ intros d ? [Ha Hn]. auto. }
  intros r0 s0 (Ha0 & HR0 & Hm0 & Hr0). destruct r0 as [[]|e]; [|by auto]. rename Hr0 into Hq0.
  assert (R (disk s0)) as (Hs & HA & HT) by (by apply Forall_inv in HR0).
  apply ends_bind. eapply ends_mono; [by apply loadSnapshot_ends| |].
  2:{ intros d ? [Hd Hn]. split; [eapply Hho, remains_R; [exact HR0|done]|by intros ?%Hq0]. }
  intros r1 s1 (Hd1 & Hi1 & Hr1).
  assert (Forall R (remains s1)) as HR1 by (unfold remains; by rewrite Hd1, Hi1).
  destruct r1 as [v1|e]; [|split; [by intros ?%Hq0|by apply Hl]].
  destruct Hr1 as (-> & Hm1 & Hsc1). assert (script s = [] -> script s1 = []) as Hq1 by auto.
  apply chain_app in Hc as (k & Hc1 & Hc2). pose proof (chain_bound _ _ _ _ Hc1 Hb) as Hk.
  apply ends_bind. unfold ends at 1, exists_file. apply ends_bind. rewrite <- Hd1 in HA, HT.
  eapply ends_mono; [apply (replay_opt_ends R _ h _ LA k); try done; apply img_active| |].
  2:{ intros d ? [Hd Hn]. split; [auto|by intros ?%Hq1]. }
  intros r2 s2 (Ha2 & _ & HR2 & Hr2). destruct r2 as [v2|e]; [|split; [by intros ?%Hq1|by apply Hl]].
  destruct Hr2 as (-> & HA2 & Hm2 & Hsc2). assert (script s = [] -> script s2 = []) as Hq2 by auto.
  assert (wal_file (disk s2) tmpWALName LT) as HT2 by (unfold wal_file; by rewrite Ha2).
  apply ends_bind. unfold ends at 1, exists_file. apply ends_bind.
  eapply ends_mono; [apply (replay_opt_ends R _ h k LT n); try done; apply img_tmp| |].
  2:{ intros d ? [Hd Hn]. split; [auto|by intros ?%Hq2]. }
  intros r3 s3 (Ha3 & Hex3 & HR3 & Hr3). destruct r3 as [v3|e]; [|split; [by intros ?%Hq2|by apply Hl]].
  destruct Hr3 as (-> & HT3 & Hm3 & Hsc3). assert (script s = [] -> script s3 = []) as Hq3 by auto.
  assert (framed (disk s3) activeWALName LA) as HA3 by (unfold framed; by rewrite Ha3).
  assert (chain h (boundary o) (LA ++ LT) n) as Hc by (apply chain_app; eauto).
  assert (mem s3 = recovered h o n (mem s)) as Hmem.
  { rewrite Hm3, Hm2, Hm1, Hm0. unfold recovered. fold (loaded o (mem s)).
    rewrite <- foldl_app, <- span_app; eauto using chain_le. }
  destruct (disk s2 !! tmpWALName) as [c|] eqn:Et.
  - rewrite bool_decide_eq_true_2 by done. apply ends_bind. eapply ends_mono.
    + apply (rebuildActive_ends h o n LA LT); [done..|].
      unfold framed in HT3. destruct Hex3 as [_ [c' Hc']]; [done|]. rewrite Hc' in HT3 |- *. congruence.
    + intros [[]|e] s4 (Hsc4 & Hm4 & Hr4); [|destruct Hr4; split; [by intros ?%Hq3|done]].
      apply ends_ret. destruct Hr4 as (Ha4 & Ht4 & Hi4). split_and!; [done|congruence|done| |auto].
      exists (LA ++ LT). split; [unfold framed; by rewrite Ha4|done].
    + intros d ? [? ?]. split; [done|by intros ?%Hq3].
  - rewrite bool_decide_eq_false_2 by (by intros []). apply ends_bind, ends_ret, ends_ret.
    assert (disk s3 !! tmpWALName = None) as E3 by (destruct (disk s3 !! tmpWALName); [destruct Hex3 as [[] _]; done|done]).
    unfold framed in HT3. rewrite E3 in HT3. subst LT. rewrite app_nil_r in Hc. split_and!; [done..| |done]. by exists LA.
Qed.

(** C15: recovery is complete and exact: from a directory that holds the first
    [n] records of a history (a snapshot, the active WAL, a leftover temporary
    WAL, either with a torn or unterminated last line), [Recover] returns [n]
    and leaves the store as if the snapshot had been loaded and the records
    after its boundary applied once each, in order; the temporary WAL is merged
    away, and whatever a later crash leaves of the directory still holds those
    records. *)
Theorem Recover_correct h o n snap (d : Disk) (x : S) :
  history h -> holds h o n d ->
  exists s', Recover (good_hooks snap) (boot d [] x) = Done (Ok (N.of_nat n)) s' /\
    mem s' = recovered h o n x /\ script s' = [] /\ Forall (holds h o n) (remains s') /\
    disk s' !! tmpWALName = None /\ exists L, framed (disk s') activeWALName L.
Proof.
  intros Hh Hd. pose proof (Recover_ends h o n snap (boot d [] x) Hh (holds_disks _ _ _ _ Hd)) as He.
  unfold ends in He. destruct (Recover _ _) as [r s'|d' m']; [|by destruct He as [_ []]].
  destruct r as [v|e]; [|by destruct He as [[] _]].
  destruct He as (-> & Hm & Ht & (L & Ha & Hc & Hi) & Hsc). exists s'. split_and!; [done|done|by apply Hsc| |done|eauto].
  eapply Forall_impl; [exact Hi|]. intros i. apply img_holds; [apply Hd|by rewrite app_nil_r].
Qed.

(** The disk a run leaves, whether it ends or crashes. *)
Definition left_disk {A} (x : ran S A) : Disk :=
  match x with Done _ s => disk s | Crashed d _ => d end.

(** Recovery survives itself: if it fails or the machine crashes at any of
    its system calls, even in the middle of a write, running it again gives
    exactly the state that the first run would have given. *)
Theorem Recover_restart h o n snap (d : Disk) (sc : list outcome) (x y : S) :
  history h -> holds h o n d ->
  exists s', Recover (good_hooks snap) (boot (left_disk (Recover (good_hooks snap) (boot d sc x))) [] y)
               = Done (Ok (N.of_nat n)) s' /\ mem s' = recovered h o n y.
Proof.
  intros Hh Hd. pose proof (Recover_ends h o n snap (boot d sc x) Hh (holds_disks _ _ _ _ Hd)) as H1.
  assert (holds h o n (left_disk (Recover (good_hooks snap) (boot d sc x)))) as Hd1.
  { unfold ends in H1. destruct (Recover _ _) as [[v|e] s'|d' m']; [| |by destruct H1].
    - destruct H1 as (_ & _ & _ & (L & _ & Hc & Hi) & _). apply Forall_inv in Hi.
      apply (img_holds h o n L []); [apply Hd|by rewrite app_nil_r|done].
    - by destruct H1 as [_ Hi%Forall_inv]. }
  destruct (Recover_correct h o n snap _ y Hh Hd1) as (s' & E & Hm & _). eauto.
Qed.
End recovery_thms.

(** ** A concrete directory *)

(** A store that remembers what was loaded and applied. *)
Definition Trace : Type := list SnapshotEntry * list Record_.
Definition trace_load (x : Trace) (es : list SnapshotEntry) : Trace := (x.1 ++ es, x.2).
Definition trace_step (x : Trace) (r : Record_) : Trace := (x.1, x.2 ++ [r]).
Definition trace_snap (x : Trace) : result (list SnapshotEntry) := Ok x.1.

Definition sample_history : list Record_ :=
  [with_logIndex (store_record OpPut "a" "1" 0) 1; with_logIndex (store_record OpPut "b" "2" 0) 2;
   with_logIndex (store_record OpDelete "a" "" 0) 3].

Lemma sample_history_ok : history sample_history.
Proof.
  split; [vm_compute; reflexivity|]. intros [|[|[|i]]] r; simpl; intros; simplify_eq; auto.
Qed.

(** A crash during a rotation: two records in the sealed WAL, the third in the
    temporary one, which ends with a torn line. *)
Definition sample_disk : Disk :=
  <[activeWALName := enc (take 2 sample_history)]>
    (<[tmpWALName := enc (drop 2 sample_history) ++ take 5 (line (store_record OpPut "c" "3" 0))]> ∅).

Lemma sample_holds : holds sample_history None 3 sample_disk.
Proof.
  split; [done|]. split; [simpl; lia|]. exists (take 2 sample_history), (drop 2 sample_history).
  split; [apply framed_wal_file; done|]. split.
  - unfold wal_file. replace (sample_disk !! tmpWALName)
      with (Some (enc (drop 2 sample_history) ++ take 5 (line (store_record OpPut "c" "3" 0)))) by done.
    apply decodes_torn; [|vm_compute; reflexivity]. intros Hin%elem_of_take.
    vm_compute in Hin. destruct Hin as (i & Hi & Hlt). destruct i as [|[|[|[|[|]]]]]; simpl in Hi; done || lia.
  - simpl. right. split; [done|]. right. split; [done|]. right. done.
Qed.

Lemma Recover_correct_witness :
  exists s', Recover (good_hooks trace_load trace_step trace_snap) (boot sample_disk [] ([], []))
               = Done (Ok 3%N) s' /\ mem s' = ([], sample_history) /\
    disk s' !! tmpWALName = None.
Proof.
  destruct (Recover_correct trace_load trace_step sample_history None 3 trace_snap sample_disk ([], []))
    as (s' & E & Hm & _ & _ & Ht & _).
  - exact sample_history_ok.
  - exact sample_holds.
  - exists s'. split; [exact E|]. split; [exact Hm|exact Ht].
Defined.

(** The first run crashes while it copies the active WAL. *)
Lemma Recover_restart_witness :
  exists s', Recover (good_hooks trace_load trace_step trace_snap)
      (boot (left_disk (Recover (good_hooks trace_load trace_step trace_snap)
                          (boot sample_disk [Good; Good; Good; Good; Good; CrashAt 7] ([], [])))) [] ([], []))
    = Done (Ok 3%N) s' /\ mem s' = ([], sample_history).
Proof.
  destruct (Recover_restart trace_load trace_step sample_history None 3 trace_snap sample_disk
              [Good; Good; Good; Good; Good; CrashAt 7] ([], []) ([], [])) as (s' & E & Hm).
  - exact sample_history_ok.
  - exact sample_holds.
  - exists s'. split; [exact E|exact Hm].
Defined.
