(* ===== verification/WalWriter.v ===== *)
(** * The WAL writer and manager (internal/wal/writer.go, manager.go, wal.go)

    The writer goroutine handles one message at a time; a handler is a program
    over the disk and the writer's state. A file handle is the name of the file
    it was opened on: the writer holds no handle on a file while the manager
    renames it. What a handler sends on a result or ack channel is appended to
    [sent] with the mutation or the number of the channel. *)

From S2P Require Import Prelude WalTypes Os WalRecovery.

Inductive WriterState : Type := StateIDLE | StateSEALING | StateROTATING.

#[export] Instance WriterState_eq_dec : EqDecision WriterState.
Proof. solve_decision. Defined.

Record controlResult : Type := mkControlResult {
  crBoundary : N; crLastTmp : N; crErr : option error
}.

Record Mutation : Type := mkMutation { mRecord : Record_; mResultCh : nat }.

(** A message of the WAL channel; the last field of a control message is its
    ack channel. *)
Inductive Msg : Type :=
  | MMutation (m : Mutation)
  | MStartSealing (id : N) (ack : nat)
  | MFinishRotation (id : N) (ack : nat)
  | MRotationComplete (id : N) (ack : nat).

Inductive Sent : Type :=
  | SentResult (m : Mutation) (e : option error)
  | SentUint (ch : nat) (v : N)
  | SentErr (ch : nat) (e : option error).

Definition sent_ch (x : Sent) : nat := match x with SentResult m _ => mResultCh m | SentErr c _ | SentUint c _ => c end.

Record Writer : Type := mkWriter {
  tmpLimit : Z;
  holdLimit : nat;
  lastIndex : N;
  sealBoundary : N;
  active : option string;
  tmp : option string;
  tmpCount : Z;
  state : WriterState;
  hold : list Mutation;
  controlRes : gmap N controlResult;
  countAtomic : Z;
  indexAtomic : N;
  sent : list Sent
}.

(** ** Field updates *)

Definition set_files (a t : option string) (w : Writer) : Writer :=
  mkWriter (tmpLimit w) (holdLimit w) (lastIndex w) (sealBoundary w) a t (tmpCount w) (state w)
    (hold w) (controlRes w) (countAtomic w) (indexAtomic w) (sent w).
Definition set_state (st : WriterState) (w : Writer) : Writer :=
  mkWriter (tmpLimit w) (holdLimit w) (lastIndex w) (sealBoundary w) (active w) (tmp w) (tmpCount w) st
    (hold w) (controlRes w) (countAtomic w) (indexAtomic w) (sent w).
Definition set_index (i ia : N) (w : Writer) : Writer :=
  mkWriter (tmpLimit w) (holdLimit w) i (sealBoundary w) (active w) (tmp w) (tmpCount w) (state w)
    (hold w) (controlRes w) (countAtomic w) ia (sent w).
Definition set_counts (tc ca : Z) (w : Writer) : Writer :=
  mkWriter (tmpLimit w) (holdLimit w) (lastIndex w) (sealBoundary w) (active w) (tmp w) tc (state w)
    (hold w) (controlRes w) ca (indexAtomic w) (sent w).
Definition set_seal (b : N) (w : Writer) : Writer :=
  mkWriter (tmpLimit w) (holdLimit w) (lastIndex w) b (active w) (tmp w) (tmpCount w) (state w)
    (hold w) (controlRes w) (countAtomic w) (indexAtomic w) (sent w).
Definition set_hold (h : list Mutation) (w : Writer) : Writer :=
  mkWriter (tmpLimit w) (holdLimit w) (lastIndex w) (sealBoundary w) (active w) (tmp w) (tmpCount w)
    (state w) h (controlRes w) (countAtomic w) (indexAtomic w) (sent w).
Definition set_control (id : N) (r : controlResult) (w : Writer) : Writer :=
  mkWriter (tmpLimit w) (holdLimit w) (lastIndex w) (sealBoundary w) (active w) (tmp w) (tmpCount w)
    (state w) (hold w) (<[id := r]> (controlRes w)) (countAtomic w) (indexAtomic w) (sent w).
Definition send (x : Sent) (w : Writer) : Writer :=
  mkWriter (tmpLimit w) (holdLimit w) (lastIndex w) (sealBoundary w) (active w) (tmp w) (tmpCount w)
    (state w) (hold w) (controlRes w) (countAtomic w) (indexAtomic w) (sent w ++ [x]).

Section writer.
Context `{!Json}.

Definition modify (f : Writer -> Writer) : sys Writer () := w ← get_mem; put_mem (f w).

(** [w.closeFiles]. *)
Definition closeFiles : sys Writer () :=
  w ← get_mem;
  (match active w with Some _ => attempt FClose;; mret () | None => mret () end);;
  (match tmp w with Some _ => attempt FClose;; mret () | None => mret () end).

Definition openActive : sys Writer () :=
  OpenAppend activeWALName;;
  modify (fun w => set_state StateIDLE (set_files (Some activeWALName) (tmp w) w)).

(** Marshal, write and sync the line of a record. *)
Definition writeLine (name : string) (rec : Record_) : sys Writer () :=
  match marshal rec with
  | Err e => fail e
  | Ok line => WriteAppend name line;; FSync name
  end.

Definition append (m : Mutation) (f : option string) : sys Writer () :=
  match f with
  | None => modify (send (SentResult m (Some WalBusy)))
  | Some name =>
      modify (fun w => set_index (u64_succ (lastIndex w)) (indexAtomic w) w);;
      w ← get_mem;
      r ← attempt (writeLine name (with_logIndex (mRecord m) (lastIndex w)));
      modify (fun w => set_index (lastIndex w) (lastIndex w) w);;
      match r with
      | Err e => modify (send (SentResult m (Some e)))
      | Ok _ =>
          modify (fun w => if decide (active w = Some name)
                           then set_counts (tmpCount w) (countAtomic w + 1)%Z w
                           else set_counts (tmpCount w + 1)%Z (countAtomic w) w);;
          modify (send (SentResult m None))
      end
  end.

Definition holdMutation (m : Mutation) : sys Writer () :=
  modify (fun w => if (holdLimit w <=? length (hold w))%nat
                   then send (SentResult m (Some WalBusy)) w
                   else set_hold (hold w ++ [m]) w).

Definition handleMutation (m : Mutation) : sys Writer () :=
  w ← get_mem;
  match state w with
  | StateROTATING => holdMutation m
  | StateSEALING => if (tmpLimit w <=? tmpCount w)%Z then holdMutation m else append m (tmp w)
  | StateIDLE => append m (active w)
  end.

Definition handleStartSealing (id : N) (ack : nat) : sys Writer () :=
  w ← get_mem;
  match controlRes w !! id with
  | Some res => modify (send (SentUint ack (crBoundary res)))
  | None =>
      match state w with
      | StateSEALING | StateROTATING =>
          modify (fun w => send (SentUint ack (sealBoundary w))
                             (set_control id (mkControlResult (sealBoundary w) 0 None) w))
      | StateIDLE =>
          r ← attempt (OpenAppend tmpWALName);
          match r with
          | Err _ => mret ()
          | Ok _ =>
              modify (fun w => set_seal (lastIndex w) w);;
              (match active w with
               | Some f => attempt (FSync f);; attempt FClose;; modify (fun w => set_files None (tmp w) w)
               | None => mret ()
               end);;
              modify (fun w =>
                let w := set_files (active w) (Some tmpWALName) w in
                let w := set_counts 0 (countAtomic w) w in
                let w := set_state StateSEALING w in
                send (SentUint ack (sealBoundary w))
                  (set_control id (mkControlResult (sealBoundary w) 0 None) w))
          end
      end
  end.

Definition handleFinishRotation (id : N) (ack : nat) : sys Writer () :=
  w ← get_mem;
  match controlRes w !! id with
  | Some res => modify (send (SentUint ack (crLastTmp res)))
  | None =>
      (match tmp w with
       | Some f => attempt (FSync f);; attempt FClose;; modify (fun w => set_files (active w) None w)
       | None => mret ()
       end);;
      modify (fun w =>
        let w := set_state StateROTATING w in
        send (SentUint ack (lastIndex w)) (set_control id (mkControlResult 0 (lastIndex w) None) w))
  end.

(** [for _, m := range hold { w.append(m, w.active) }]. *)
Fixpoint drain (ms : list Mutation) : sys Writer () :=
  match ms with
  | [] => mret ()
  | m :: ms' => w ← get_mem; append m (active w);; drain ms'
  end.

Definition handleRotationComplete (id : N) (ack : nat) : sys Writer () :=
  w ← get_mem;
  match controlRes w !! id with
  | Some res => modify (send (SentErr ack (crErr res)))
  | None =>
      r ← attempt (OpenAppend activeWALName);
      match r with
      | Err _ => mret ()
      | Ok _ =>
          let held := hold w in
          modify (fun w =>
            let w := set_files (Some activeWALName) (tmp w) w in
            let w := set_counts (tmpCount w) 0 w in
            set_hold [] (set_state StateIDLE w));;
          drain held;;
          modify (fun w => send (SentErr ack None) (set_control id (mkControlResult 0 0 None) w))
      end
  end.

Definition handle (m : Msg) : sys Writer () :=
  match m with
  | MMutation v => handleMutation v
  | MStartSealing id ack => handleStartSealing id ack
  | MFinishRotation id ack => handleFinishRotation id ack
  | MRotationComplete id ack => handleRotationComplete id ack
  end.

(** The writer goroutine over the messages it receives before it is stopped. *)
Fixpoint runLoop (ms : list Msg) : sys Writer () :=
  match ms with
  | [] => mret ()
  | m :: ms' => handle m;; runLoop ms'
  end.

Definition run (ms : list Msg) : sys Writer () := runLoop ms;; closeFiles.

Definition MetaCount (w : Writer) : Z := countAtomic w.
Definition LastIndex (w : Writer) : N := indexAtomic w.
End writer.

(** ** Configuration (wal.go) *)

Record Config : Type := mkConfig {
  cfChannelSize : Z;
  cfThreshold : Z;
  cfTmpLimit : Z;
  cfHoldLimit : Z;
  cfCheckInterval : Z;
  cfAckTimeout : Z;
  cfMaxRetries : Z;
  cfDisableRotation : bool
}.

(** Durations in milliseconds. *)
Definition DefaultConfig : Config := mkConfig 1024 2000 100000 4096 100 5000 5 false.

(** ** The manager (manager.go) *)

Record Manager : Type := mkManager {
  interval : Z;
  threshold : Z;
  ackTimeout : Z;
  maxRetries : Z;
  backoff : Z;
  nextID : N;
  rotating : bool;
  disableRotation : bool
}.

Definition newManager (cfg : Config) : Manager := {|
  interval := if (cfCheckInterval cfg <=? 0)%Z then 100 else cfCheckInterval cfg;
  threshold := if (cfThreshold cfg <=? 0)%Z then 2000 else cfThreshold cfg;
  ackTimeout := if (cfAckTimeout cfg <=? 0)%Z then 5000 else cfAckTimeout cfg;
  maxRetries := if (cfMaxRetries cfg <=? 0)%Z then 5 else cfMaxRetries cfg;
  backoff := 250;
  nextID := 0;
  rotating := false;
  disableRotation := cfDisableRotation cfg
|}.

(** A running WAL. [feed] is what the other goroutines put on the channel: its
    head holds the messages that precede the manager's next control message. *)
Record WAL : Type := mkWAL {
  writer : Writer;
  manager : Manager;
  closed : bool;
  nextCh : nat;
  feed : list (list Msg)
}.

Section manager.
Context `{!Json}.
(** The store's snapshot function, at the time it is called. *)
Variable snapshotFn : WAL -> result (list SnapshotEntry).

(** Run the writer's goroutine on the shared disk. *)
Definition on_writer {A} (p : sys Writer A) : sys WAL A := fun s =>
  match p (mkSys (disk s) (io s) (writer (mem s))) with
  | Done r s' =>
      Done r (mkSys (disk s') (io s')
                (mkWAL (mem s') (manager (mem s)) (closed (mem s)) (nextCh (mem s)) (feed (mem s))))
  | Crashed d w' =>
      Crashed d (mkWAL w' (manager (mem s)) (closed (mem s)) (nextCh (mem s)) (feed (mem s)))
  end.

Definition set_manager (m : Manager) (x : WAL) : WAL :=
  mkWAL (writer x) m (closed x) (nextCh x) (feed x).
Definition set_closed (x : WAL) : WAL :=
  mkWAL (writer x) (manager x) true (nextCh x) (feed x).
Definition set_rotating (b : bool) (m : Manager) : Manager :=
  mkManager (interval m) (threshold m) (ackTimeout m) (maxRetries m) (backoff m) (nextID m) b
    (disableRotation m).

Definition newID : sys WAL N :=
  x ← get_mem;
  let m := manager x in
  let id := u64_succ (nextID m) in
  put_mem (set_manager (mkManager (interval m) (threshold m) (ackTimeout m) (maxRetries m) (backoff m)
                          id (rotating m) (disableRotation m)) x);;
  mret id.

(** A fresh ack channel, and the messages ahead of the control message. *)
Definition next_send : sys WAL (nat * list Msg) :=
  x ← get_mem;
  put_mem (mkWAL (writer x) (manager x) (closed x) (S (nextCh x)) (tl (feed x)));;
  mret (nextCh x, hd [] (feed x)).

(** What was received on an ack channel. *)
Definition received (ch : nat) (l : list Sent) : option Sent :=
  last (filter (fun x => sent_ch x = ch) l).

(** [roundTripUint] and [roundTripErr]: one iteration per attempt. The writer
    handles what is ahead of the message and then the message; no ack (its
    file could not be opened) is a timeout, and the same id is sent again on
    a fresh channel. *)
Fixpoint roundTrip (attempts : nat) (mk : nat -> Msg) : sys WAL Sent :=
  match attempts with
  | O => fail (Wrapped "wal: control not acked")
  | S attempts' =>
      '(ack, ahead) ← next_send;
      on_writer (runLoop (ahead ++ [mk ack]));;
      x ← get_mem;
      match received ack (sent (writer x)) with
      | Some v => mret v
      | None => roundTrip attempts' mk
      end
  end.

Definition control (mk : N -> nat -> Msg) : sys WAL Sent :=
  id ← newID;
  x ← get_mem;
  roundTrip (Z.to_nat (maxRetries (manager x))) (mk id).

Definition sendStartSealing : sys WAL N :=
  v ← control MStartSealing;
  mret (match v with SentUint _ b => b | _ => 0%N end).
Definition sendFinishRotation : sys WAL N :=
  v ← control MFinishRotation;
  mret (match v with SentUint _ b => b | _ => 0%N end).
(** The value of the ack is dropped. *)
Definition sendRotationComplete : sys WAL () := control MRotationComplete;; mret ().

Definition snapshot_map (entries : list SnapshotEntry) : gmap string snapEntry :=
  foldl (fun d e => <[skey e := mkSnapEntry (sval e) (sexp e)]> d) ∅ entries.

Definition writeSnapshot (boundary : N) : sys WAL () :=
  x ← get_mem;
  match snapshotFn x with
  | Err e => fail e
  | Ok entries =>
      match json_snapshot (mkSnapshotData boundary (Some (snapshot_map entries))) with
      | Err e => fail e
      | Ok b =>
          OpenTrunc snapshotTmpName;;
          r ← attempt (WriteAppend snapshotTmpName (b ++ [nl]));
          match r with
          | Err e => attempt FClose;; fail e
          | Ok _ =>
              r ← attempt (FSync snapshotTmpName);
              match r with
              | Err e => attempt FClose;; fail e
              | Ok _ =>
                  FClose;;
                  Rename snapshotTmpName snapshotName;;
                  syncDir
              end
          end
      end
  end.

Definition rotateFiles : sys WAL () :=
  e ← exists_file tmpWALName;
  if (e : bool) then Rename tmpWALName activeWALName;; syncDir else mret ().

Definition rotateOnce : sys WAL () :=
  boundary ← wrap "seal" sendStartSealing;
  wrap "snapshot" (writeSnapshot boundary);;
  wrap "finish" sendFinishRotation;;
  wrap "rename" rotateFiles;;
  wrap "complete" sendRotationComplete.

(** The retry loop; an error is [onFatal], which exits the process. *)
Fixpoint rotateWithRetry (attempts : nat) : sys WAL () :=
  match attempts with
  | O => fail (Wrapped "wal: rotation failed")
  | S attempts' =>
      r ← attempt rotateOnce;
      match r with
      | Ok _ => mret ()
      | Err _ => rotateWithRetry attempts'
      end
  end.

Definition tick : sys WAL () :=
  x ← get_mem;
  let m := manager x in
  if disableRotation m then mret ()
  else if (rotating m || (MetaCount (writer x) <? threshold m)%Z)%bool then mret ()
  else
    put_mem (set_manager (set_rotating true m) x);;
    rotateWithRetry (Z.to_nat (maxRetries m));;
    x ← get_mem;
    put_mem (set_manager (set_rotating false (manager x)) x).

(** ** The public operations (wal.go) *)

Definition newWriter (cfg : Config) (last : N) : Writer :=
  mkWriter (if (cfTmpLimit cfg <=? 0)%Z then 100000 else cfTmpLimit cfg)
    (Z.to_nat (if (cfHoldLimit cfg <=? 0)%Z then 4096 else cfHoldLimit cfg))
    last 0 None None 0 StateIDLE [] ∅ 0 0 [].

(** How long the caller of [Append] waits: until the result, or its context
    ends before the record is on the channel, or after. *)
Inductive patience : Type := Waits | GivesUpBefore | GivesUpAfter.

Definition Append (p : patience) (rec : Record_) : sys WAL () :=
  x ← get_mem;
  if closed x then fail WalClosed
  else match p with
       | GivesUpBefore => fail CtxDone
       | _ =>
           '(ch, ahead) ← next_send;
           on_writer (runLoop (ahead ++ [MMutation (mkMutation rec ch)]));;
           x ← get_mem;
           match p, received ch (sent (writer x)) with
           | Waits, Some (SentResult _ (Some e)) => fail e
           | Waits, Some _ => mret ()
           | _, _ => fail CtxDone
           end
       end.

Definition Rotate : sys WAL () :=
  x ← get_mem;
  if closed x then fail WalClosed else rotateOnce.

Definition Close : sys WAL () :=
  x ← get_mem;
  if closed x then mret ()
  else put_mem (set_closed x);; on_writer closeFiles.
End manager.

(** [Open]: create the directory, recover into the store's state, then start a
    writer on the active WAL. The WAL returned with an error is a closed one. *)
Definition Open `{!Json} {S : Type} (cfg : Config) (hooks : Hooks S) (s : Sys S) : ran (S * WAL) () :=
  match (idle;; Recover hooks) s with
  | Crashed d x => Crashed d (x, mkWAL (newWriter cfg 0) (newManager cfg) true 0 [])
  | Done (Err e) s1 => Done (Err e) (mkSys (disk s1) (io s1)
                         (mem s1, mkWAL (newWriter cfg 0) (newManager cfg) true 0 []))
  | Done (Ok last) s1 =>
      match openActive (mkSys (disk s1) (io s1) (newWriter cfg last)) with
      | Crashed d w => Crashed d (mem s1, mkWAL w (newManager cfg) true 0 [])
      | Done r s2 => Done r (mkSys (disk s2) (io s2)
                        (mem s1, mkWAL (mem s2) (newManager cfg)
                                   (match r with Ok _ => false | Err _ => true end) 0 []))
      end
  end.
