(* ===== verification/WalThms.v ===== *)
(** * The WAL writer: order, durability, idempotence; crash safety of a rotation *)

From S2P Require Import Prelude WalTypes Os WalRecovery WalRecoveryProps WalRecoveryThms WalWriter.

(** The records acknowledged, in order, numbered from [i]. *)
Definition acked (l : list Sent) : list Record_ :=
  omap (fun x => match x with SentResult m None => Some (mRecord m) | _ => None end) l.

Definition number (i : nat) (rs : list Record_) : list Record_ :=
  imap (fun j r => with_logIndex r (N.of_nat (S (i + j)))) rs.

Lemma number_snoc i rs r :
  number i (rs ++ [r]) = number i rs ++ [with_logIndex r (N.of_nat (S (i + length rs)))].
Proof. unfold number. rewrite imap_app. simpl. by rewrite Nat.add_0_r. Qed.

Lemma length_number i rs : length (number i rs) = length rs.
Proof. apply length_imap. Qed.

Section rules.
Context {S : Type}.

(** Calls of a machine that may only crash; [R] holds of all it may leave. *)
Lemma ends_change_nb (R : Disk -> Prop) good part spread (s : Sys S) P Q :
  no_bad (script s) -> Forall R (remains s) -> (forall i i', R i -> i' ∈ spread (disk s) i -> R i') ->
  (forall e, no_bad (outcomes e) -> Forall R (images e) -> P (Ok ()) (mkSys (good (disk s)) e (mem s))) ->
  (forall d, R d -> Q d (mem s)) ->
  ends (change good part spread) s P Q.
Proof.
  intros Hnb HR Hsp HP HQ. apply (ends_change R); auto; [|by intros].
  intros e [_ He] Hi. apply HP; auto.
Qed.

Lemma ends_sync_nb (R : Disk -> Prop) keep (s : Sys S) P Q :
  no_bad (script s) -> Forall R (remains s) ->
  (forall e, no_bad (outcomes e) -> Forall (fun i => R i /\ keep (disk s) i = true) (images e) ->
     P (Ok ()) (mkSys (disk s) e (mem s))) ->
  (forall d, R d -> Q d (mem s)) ->
  ends (sync keep) s P Q.
Proof.
  intros Hnb HR HP HQ. apply (ends_sync R); [by apply Forall_inv_tail in HR| |by intros|].
  - intros e [_ He] Hi. apply HP; auto.
  - intros d _ [->|Hd]; apply HQ; [by apply Forall_inv in HR|done].
Qed.

Lemma ends_idle_nb (R : Disk -> Prop) (s : Sys S) P Q :
  no_bad (script s) -> Forall R (remains s) ->
  (forall e, no_bad (outcomes e) -> images e = images (io s) -> P (Ok ()) (mkSys (disk s) e (mem s))) ->
  (forall d, R d -> Q d (mem s)) ->
  ends idle s P Q.
Proof.
  intros Hnb HR HP HQ. apply ends_idle; [|by intros|].
  - intros e [_ He] Hi. apply HP; auto.
  - intros d _ Hd. apply HQ. by eapply remains_R.
Qed.
End rules.

(** What the client of the log relies on: that a snapshot stands for the records of
    the history up to its boundary, which more records do not change. *)
Class SnapshotMeaning : Type := {
  covers : list Record_ -> option snapshotData -> Prop;
  covers_more h h' o : covers h o -> covers (h ++ h') o
}.

(** No promise about snapshots. *)
Definition any_snapshot : SnapshotMeaning := {| covers _ _ := True; covers_more _ _ _ _ := I |}.

Section writer_thms.
Context {J : Json} {JL : JsonLaws}.

(** The records that mutations in flight may carry, and what snapshots mean. *)
Context {may : Record_ -> Prop} {SM : SnapshotMeaning}.

Lemma ends_modify f (s : Sys Writer) P Q :
  P (Ok ()) (mkSys (disk s) (io s) (f (mem s))) -> ends (modify f) s P Q.
Proof. done. Qed.

(** ** Appending one record *)

(** The writer after a successful append. *)
Definition appended (m : Mutation) (name : string) (w : Writer) : Writer :=
  let w := set_index (u64_succ (lastIndex w)) (u64_succ (lastIndex w)) w in
  send (SentResult m None)
    (if decide (active w = Some name) then set_counts (tmpCount w) (countAtomic w + 1)%Z w
     else set_counts (tmpCount w + 1)%Z (countAtomic w) w).

(** The write may have reached the device in part until the file is synced; after
    that, every image has the whole record. *)
Lemma append_ends R m name L i (s : Sys Writer) :
  let rec := with_logIndex (mRecord m) (N.of_nat (S i)) in
  no_bad (script s) -> lastIndex (mem s) = N.of_nat i -> (N.of_nat i + 1 < 2 ^ 64)%N ->
  json_fits rec -> disk s !! name = Some (enc L) -> Forall R (remains s) ->
  ends (append m (Some name)) s
    (fun r s' => r = Ok () /\ no_bad (script s') /\ mem s' = appended m name (mem s) /\
       Forall (fun d => d !! name = Some (enc (L ++ [rec])) /\ exists d0, R d0 /\ agree_except name d0 d) (remains s') /\
       agree_except name (disk s) (disk s'))
    (fun d w => (R d \/ exists d0 k, R d0 /\ d = <[name := enc L ++ take k (line rec ++ [nl])]> d0) /\
                sent w = sent (mem s)).
Proof.
  intros rec Hnb Hi Hb Hfit Hd HR. unfold append.
  assert (u64_succ (lastIndex (mem s)) = N.of_nat (S i)) as Hs
    by (rewrite Hi, u64_succ_small by lia; lia).
  apply ends_bind, ends_modify. apply ends_bind, ends_get. cbn [mem lastIndex set_index]. rewrite Hs.
  fold rec. apply ends_bind, ends_attempt. unfold writeLine, marshal.
  destruct (line_ok rec Hfit) as (-> & _). set (b := line rec ++ [nl]).
  set (R' := fun d => R d \/ exists d0 k, R d0 /\ d = <[name := enc L ++ take k b]> d0).
  assert (forall k (d : Disk), d !! name = Some (enc L) -> append_to name (take k b) d = <[name := enc L ++ take k b]> d) as Hap.
  { intros k d Hk. unfold append_to. by rewrite Hk. }
  assert (append_to name b (disk s) = <[name := enc (L ++ [rec])]> (disk s)) as Hall.
  { unfold append_to. by rewrite Hd, enc_snoc, <- app_assoc. }
  apply ends_bind, (ends_change_nb R'); cbn [disk io mem]; [done| | | |by intros].
  - eapply Forall_impl; [exact HR|]. by left.
  - intros d d' HRd. unfold same_file. case_bool_decide as Es; [|by intros ?%elem_of_nil].
    intros (k & -> & _)%list_elem_of_fmap. rewrite Hap by (by rewrite Es). right. destruct HRd as [?|(d0 & k0 & ? & ->)]; [eauto|].
    exists d0, k. split; [done|]. by rewrite insert_insert_eq.
  - intros e Hnb1 HR1. rewrite Hall. set (v := <[name := enc (L ++ [rec])]> (disk s)).
    assert (R' v) as Hv.
    { right. exists (disk s), (length b). split; [by apply Forall_inv in HR|]. unfold v.
      by rewrite enc_snoc, take_ge, <- app_assoc by done. }
    assert (v !! name = Some (enc (L ++ [rec]))) as Hvn by apply lookup_insert_eq.
    apply (ends_sync_nb R'); cbn [disk io mem]; [done|by apply remains_cons| |by intros].
    intros e1 Hnb2 HR2. apply ends_bind, ends_modify, ends_bind, ends_modify, ends_modify.
    split; [done|]. split; [done|]. split; [unfold appended; by rewrite Hs|].
    split; [|apply agree_insert, agree_refl].
    assert (forall d, R' d -> exists d0, R d0 /\ agree_except name d0 d) as HR'.
    { intros d [?|(d0 & k & ? & ->)]; [exists d; split; [done|apply agree_refl]|].
      exists d0. split; [done|]. apply agree_insert, agree_refl. }
    apply remains_cons; [by auto|]. eapply Forall_impl; [exact HR2|]. intros d [Hr Hk].
    split; [by rewrite (same_file_eq _ _ _ Hk)|auto].
Qed.

(** ** Histories that grow *)

Definition m_fits (m : Mutation) : Prop :=
  knownOp (op (mRecord m)) = true /\ (forall i, json_fits (with_logIndex (mRecord m) i)) /\ may (mRecord m).

Lemma history_snoc h m :
  history h -> m_fits m -> (N.of_nat (S (length h)) + 1 < 2 ^ 64)%N ->
  history (h ++ [with_logIndex (mRecord m) (N.of_nat (S (length h)))]).
Proof.
  intros [_ Hh] (Hop & Hfit & _) Hb. split; [rewrite length_app; simpl; lia|].
  intros i r. rewrite lookup_app_Some. intros [Hi|[Hle Hi]]; [by apply Hh|].
  apply list_lookup_singleton_Some in Hi as [Hz <-]. simpl. split; [lia|]. auto.
Qed.

Lemma chain_more h h' m L n : chain h m L n -> chain (h ++ h') m L n.
Proof.
  revert m. induction L as [|r L IH]; intros m; simpl; [done|].
  intros [(i & ? & ? & ?)|[? ?]]; [left; exists i|right]; eauto using lookup_app_l_Some.
Qed.

Lemma chain_snoc h b L r : chain h b L (length h) -> chain (h ++ [r]) b (L ++ [r]) (S (length h)).
Proof.
  intros Hc. apply chain_app. exists (length h). split; [by apply chain_more|].
  right. split; [|done]. by apply list_lookup_middle.
Qed.

(** ** The writer's invariant *)

(** Where a rotation stands: the last two differ in whether the manager has
    renamed the temporary WAL. *)
Inductive phase : Type := PIdle | PSealing (b : nat) | PRotating | PRenamed.

Definition phase_ok (ph : phase) (h : list Record_) (o : option snapshotData) (d : Disk) (l : list Disk)
    (w : Writer) : Prop :=
  match ph with
  | PIdle => state w = StateIDLE /\ active w = Some activeWALName /\ tmp w = None /\ hold w = [] /\
      d !! tmpWALName = None /\
      exists LA, d !! activeWALName = Some (enc LA) /\ chain h (boundary o) LA (length h) /\
        Forall (img o LA []) l
  | PSealing b => state w = StateSEALING /\ active w = None /\ tmp w = Some tmpWALName /\
      sealBoundary w = N.of_nat b /\
      exists LA LT, framed d activeWALName LA /\ d !! tmpWALName = Some (enc LT) /\
        chain h (boundary o) LA b /\ chain h b LT (length h) /\ Forall (img o LA LT) l
  | PRotating => state w = StateROTATING /\ active w = None /\ tmp w = None /\
      exists LA LT, framed d activeWALName LA /\ d !! tmpWALName = Some (enc LT) /\
        chain h (boundary o) LA (boundary o) /\ chain h (boundary o) LT (length h) /\
        Forall (fun i => img o LA LT i /\ i !! tmpWALName = Some (enc LT)) l
  | PRenamed => state w = StateROTATING /\ active w = None /\ tmp w = None /\
      d !! tmpWALName = None /\
      exists LT, d !! activeWALName = Some (enc LT) /\ chain h (boundary o) LT (length h) /\
        Forall (img o LT []) l
  end.

(** The history is the one at the start, [h0], followed by the acknowledged
    records in the order of their acknowledgements; the directory holds it
    all, and so does every image that a crash may leave of it; the snapshot means
    what it should; control ids above [c] are new, and [k] more mutations fit in the
    uint64 index. *)
Definition writer_ok (h0 : list Record_) (ph : phase) (o : option snapshotData) (c : N) (k : nat)
    (s : Sys Writer) : Prop :=
  let w := mem s in
  let h := h0 ++ number (length h0) (acked (sent w)) in
  no_bad (script s) /\ history h /\ lastIndex w = N.of_nat (length h) /\
  (N.of_nat (length h + length (hold w) + k) + 1 < 2 ^ 64)%N /\ Forall m_fits (hold w) /\
  (forall id, (c < id)%N -> controlRes w !! id = None) /\
  covers h o /\ boundary o <= length h /\ phase_ok ph h o (disk s) (remains s) w.

(** After a crash the directory holds every acknowledged record, and at most
    the one that was being written besides. *)
Definition crash_ok (h0 : list Record_) (o : option snapshotData) (d : Disk) (w : Writer) : Prop :=
  exists extra, length extra <= 1 /\ Forall may extra /\
    let h := h0 ++ number (length h0) (acked (sent w) ++ extra) in
    history h /\ holds h o (length h) d /\ covers h o.

Lemma phase_img ph h o d l w :
  phase_ok ph h o d l w -> exists LA LT, chain h (boundary o) (LA ++ LT) (length h) /\ Forall (img o LA LT) l.
Proof.
  destruct ph; simpl.
  - intros (_ & _ & _ & _ & _ & LA & _ & Hc & Hl). exists LA, []. by rewrite app_nil_r.
  - intros (_ & _ & _ & _ & LA & LT & _ & _ & Hc1 & Hc2 & Hl). exists LA, LT. split; [|done]. apply chain_app. eauto.
  - intros (_ & _ & _ & LA & LT & _ & _ & Hc1 & Hc2 & Hl). exists LA, LT. split; [apply chain_app; eauto|].
    eapply Forall_impl; [exact Hl|]. by intros i [? _].
  - intros (_ & _ & _ & _ & LT & _ & Hc & Hl). exists LT, []. by rewrite app_nil_r.
Qed.

Lemma phase_holds ph h o d l w :
  boundary o <= length h -> phase_ok ph h o d l w -> Forall (holds h o (length h)) l.
Proof.
  intros Hb (LA & LT & Hc & Hl)%phase_img. eapply Forall_impl; [exact Hl|]. intros i. by apply img_holds.
Qed.

Lemma crash_nothing h0 o d w :
  let h := h0 ++ number (length h0) (acked (sent w)) in
  history h -> covers h o -> holds h o (length h) d -> crash_ok h0 o d w.
Proof.
  intros h Hh Hcov Hd. exists []. split; [simpl; lia|]. split; [constructor|]. by rewrite app_nil_r.
Qed.

Lemma writer_ok_crash h0 ph o c k s :
  writer_ok h0 ph o c k s -> Forall (fun d => crash_ok h0 o d (mem s)) (remains s).
Proof.
  intros (_ & Hh & _ & _ & _ & _ & Hcov & Hb & Hp). eapply Forall_impl; [by eapply phase_holds|].
  intros d. by apply crash_nothing.
Qed.

Lemma acked_snoc l m : acked (l ++ [SentResult m None]) = acked l ++ [mRecord m].
Proof. unfold acked. by rewrite omap_app. Qed.

Lemma acked_other l x :
  (match x with SentResult _ None => False | _ => True end) -> acked (l ++ [x]) = acked l.
Proof. unfold acked. rewrite omap_app. destruct x as [m [e|]| |]; simpl; by rewrite ?app_nil_r. Qed.

(** The next record of a history. *)
Definition next_rec (h : list Record_) (m : Mutation) : Record_ :=
  with_logIndex (mRecord m) (N.of_nat (S (length h))).

Lemma number_next h0 l m :
  h0 ++ number (length h0) (acked l ++ [mRecord m]) =
  (h0 ++ number (length h0) (acked l)) ++ [next_rec (h0 ++ number (length h0) (acked l)) m].
Proof. rewrite number_snoc, app_assoc. unfold next_rec. by rewrite length_app, length_number. Qed.

(** A crash in an append of [m]: the record is there or not. *)
Lemma append_crash R h0 o w m L name d :
  let h := h0 ++ number (length h0) (acked (sent w)) in
  history h -> m_fits m -> (N.of_nat (S (length h)) + 1 < 2 ^ 64)%N -> covers h o -> allows R name L ->
  (forall i, R i -> holds h o (length h) i) ->
  (forall i c, R i -> decodes c (L ++ [next_rec h m]) -> holds (h ++ [next_rec h m]) o (S (length h)) (<[name := c]> i)) ->
  (R d \/ exists i k, R i /\ d = <[name := enc L ++ take k (line (next_rec h m) ++ [nl])]> i) ->
  crash_ok h0 o d w.
Proof.
  intros h Hh Hm Hb Hcov Hal Hold Hnew [Hd|(i & k & Hi & ->)]; [by apply crash_nothing; auto|].
  destruct (decodes_append L (next_rec h m) k (proj1 (proj2 Hm) _)) as [Hd|Hd]; [by apply crash_nothing; auto|].
  exists [mRecord m]. split; [simpl; lia|]. split; [constructor; [apply Hm|constructor]|]. rewrite number_next. fold h.
  split; [by apply history_snoc|]. split; [|by apply covers_more]. rewrite length_app, Nat.add_1_r. auto.
Qed.

Lemma append_idle h0 o c k (s : Sys Writer) m :
  writer_ok h0 PIdle o c (S k) s -> m_fits m ->
  ends (append m (Some activeWALName)) s
    (fun r s' => r = Ok () /\ writer_ok h0 PIdle o c k s' /\
                 sent (mem s') = sent (mem s) ++ [SentResult m None]) (crash_ok h0 o).
Proof.
  intros (Hnb & Hh & Hi & Hroom & Hhold & Hctl & Hcov & Hb & Hst & Ha & Ht & Hho & Hdt & LA & Hda & Hc & Hl) Hm.
  set (h := h0 ++ number (length h0) (acked (sent (mem s)))) in *.
  assert (N.of_nat (S (length h)) + 1 < 2 ^ 64)%N as Hroom' by lia.
  assert (chain (h ++ [next_rec h m]) (boundary o) (LA ++ [next_rec h m]) (S (length h))) as Hc' by (by apply chain_snoc).
  eapply ends_mono; [apply (append_ends (img o LA []) m _ LA (length h)); auto; [lia|apply Hm]| |].
  - intros r s' (-> & Hnb' & Hm' & Hd' & Hag). split; [done|]. rewrite Hm'.
    split; [|unfold appended; by case_decide]. unfold writer_ok.
    rewrite Hm'. unfold appended. cbn [active set_index]. rewrite Ha.
    rewrite decide_True by done. cbn [send set_counts set_index sent hold lastIndex].
    rewrite acked_snoc, number_next. fold h. rewrite length_app, u64_succ_small by lia. cbn [length].
    split_and!; auto; try lia; [by apply history_snoc|by apply covers_more|].
    simpl. split_and!; auto; [by rewrite Hag|]. exists (LA ++ [next_rec h m]).
    split; [by apply Forall_inv in Hd' as [? _]|]. rewrite length_app, Nat.add_1_r. split; [done|].
    eapply Forall_impl; [exact Hd'|]. intros d [Hda' (d0 & Hd0 & Hag')]. eapply img_move_active; eauto.
  - intros d w [Hd Hsent]. unfold crash_ok. rewrite Hsent.
    apply (append_crash (img o LA []) h0 o (mem s) m LA activeWALName); fold h; auto using img_active.
    + intros i. apply img_holds; [done|by rewrite app_nil_r].
    + intros i c0 Hi0 Hdec. apply (img_holds _ _ _ (LA ++ [next_rec h m]) []).
      * rewrite length_app. lia.
      * by rewrite app_nil_r.
      * by eapply img_set_active.
Qed.

Lemma append_sealing h0 o b c k (s : Sys Writer) m :
  writer_ok h0 (PSealing b) o c (S k) s -> m_fits m ->
  ends (append m (Some tmpWALName)) s
    (fun r s' => r = Ok () /\ writer_ok h0 (PSealing b) o c k s' /\
                 sent (mem s') = sent (mem s) ++ [SentResult m None]) (crash_ok h0 o).
Proof.
  intros (Hnb & Hh & Hi & Hroom & Hhold & Hctl & Hcov & Hb & Hst & Ha & Ht & Hseal & LA & LT & Hda & Hdt & Hc1 & Hc2 & Hl) Hm.
  set (h := h0 ++ number (length h0) (acked (sent (mem s)))) in *.
  assert (N.of_nat (S (length h)) + 1 < 2 ^ 64)%N as Hroom' by lia.
  assert (chain (h ++ [next_rec h m]) b (LT ++ [next_rec h m]) (S (length h))) as Hc' by (by apply chain_snoc).
  eapply ends_mono; [apply (append_ends (img o LA LT) m _ LT (length h)); auto; [lia|apply Hm]| |].
  - intros r s' (-> & Hnb' & Hm' & Hd' & Hag). split; [done|]. rewrite Hm'.
    split; [|unfold appended; by case_decide]. unfold writer_ok.
    rewrite Hm'. unfold appended. cbn [active set_index]. rewrite Ha.
    rewrite decide_False by done. cbn [send set_counts set_index sent hold lastIndex].
    rewrite acked_snoc, number_next. fold h. rewrite length_app, u64_succ_small by lia. cbn [length].
    split_and!; auto; try lia; [by apply history_snoc|by apply covers_more|].
    simpl. split_and!; auto. exists LA, (LT ++ [next_rec h m]). rewrite length_app, Nat.add_1_r.
    split; [unfold framed; by rewrite Hag|]. split; [by apply Forall_inv in Hd' as [? _]|].
    split; [by apply chain_more|]. split; [done|].
    eapply Forall_impl; [exact Hd'|]. intros d [Hdt' (d0 & Hd0 & Hag')]. eapply img_move_tmp; eauto.
  - intros d w [Hd Hsent]. unfold crash_ok. rewrite Hsent.
    apply (append_crash (img o LA LT) h0 o (mem s) m LT tmpWALName); fold h; auto using img_tmp.
    + intros i. apply img_holds; [done|]. apply chain_app. eauto.
    + intros i c0 Hi0 Hdec. apply (img_holds _ _ _ LA (LT ++ [next_rec h m])).
      * rewrite length_app. lia.
      * apply chain_app. exists b. split; [by apply chain_more|done].
      * by eapply img_set_tmp.
Qed.

(** Changes of the writer that the invariant does not see. *)
Lemma writer_ok_same h0 ph o c c' k k' s w' :
  writer_ok h0 ph o c k s -> acked (sent w') = acked (sent (mem s)) ->
  lastIndex w' = lastIndex (mem s) -> length (hold w') + k' <= length (hold (mem s)) + k ->
  Forall m_fits (hold w') -> (ph = PIdle -> hold w' = []) ->
  (forall id, (c' < id)%N -> controlRes w' !! id = None) ->
  state w' = state (mem s) -> active w' = active (mem s) -> tmp w' = tmp (mem s) ->
  sealBoundary w' = sealBoundary (mem s) ->
  writer_ok h0 ph o c' k' (mkSys (disk s) (io s) w').
Proof.
  unfold writer_ok. unfold remains, script. cbn [disk mem io].
  intros (Hnb & Hh & Hi & Hroom & Hhold & Hctl & Hs & Hb & Hp) -> -> Hk Hf Hidle Hc Hst Ha Ht Hsl.
  split_and!; auto; [lia|]. unfold phase_ok in *. rewrite Hst, Ha, Ht, Hsl.
  destruct ph; auto. destruct Hp as (? & ? & ? & _ & ?). auto 10.
Qed.

Lemma holdMutation_ok h0 ph o c k (s : Sys Writer) m Q :
  writer_ok h0 ph o c (S k) s -> m_fits m -> ph <> PIdle ->
  ends (holdMutation m) s (fun r s' => r = Ok () /\ writer_ok h0 ph o c k s') Q.
Proof.
  intros Hw Hm Hph. assert (Forall m_fits (hold (mem s))) as Hf by apply Hw.
  apply ends_modify. split; [done|]. case_goal.
  - eapply (writer_ok_same h0 ph o c); eauto; simpl; [by rewrite acked_other|lia|done|apply Hw].
  - eapply (writer_ok_same h0 ph o c); eauto; simpl; [rewrite length_app; simpl; lia| |done|apply Hw].
    apply Forall_app. auto.
Qed.

Lemma handleMutation_ok h0 ph o c k (s : Sys Writer) m :
  writer_ok h0 ph o c (S k) s -> m_fits m ->
  ends (handleMutation m) s (fun r s' => r = Ok () /\ writer_ok h0 ph o c k s') (crash_ok h0 o).
Proof.
  intros Hw Hm. unfold handleMutation. apply ends_bind, ends_get.
  assert (Hp := Hw). destruct Hp as (_ & _ & _ & _ & _ & _ & _ & _ & Hp).
  destruct ph; simpl in Hp; destruct Hp as (Hst & Ha & Ht & _); rewrite Hst.
  - rewrite Ha. eapply ends_mono; [by apply append_idle|naive_solver|done].
  - rewrite Ht. destruct (tmpLimit (mem s) <=? tmpCount (mem s))%Z.
    + by apply holdMutation_ok.
    + eapply ends_mono; [by apply append_sealing|naive_solver|done].
  - by apply holdMutation_ok.
  - by apply holdMutation_ok.
Qed.

Lemma run_mutations h0 ph o c k (ms : list Mutation) (s : Sys Writer) :
  writer_ok h0 ph o c (length ms + k) s -> Forall m_fits ms ->
  ends (runLoop (MMutation <$> ms)) s (fun r s' => r = Ok () /\ writer_ok h0 ph o c k s') (crash_ok h0 o).
Proof.
  intros Hw Hms. revert s Hw. induction Hms as [|m ms Hm _ IH]; intros s Hw; [by apply ends_ret|].
  apply ends_bind. eapply ends_mono; [by apply (handleMutation_ok h0 ph o c (length ms + k))| |done].
  intros r s' [-> Hw']. by apply IH.
Qed.

Lemma runLoop_app (l1 l2 : list Msg) (s : Sys Writer) P Q :
  ends (runLoop l1) s (fun r s' => match r with Ok _ => ends (runLoop l2) s' P Q | Err e => P (Err e) s' end) Q ->
  ends (runLoop (l1 ++ l2)) s P Q.
Proof.
  revert s. induction l1 as [|m l1 IH]; intros s H; [done|].
  simpl. apply ends_bind. simpl in H. unfold ends, mbind, sys_bind in H |- *.
  destruct (handle m s) as [[[]|e] s'|d w]; auto. by apply IH.
Qed.

(** ** The control messages *)

Lemma chain_self h m L n : chain h m L n -> chain h n L n.
Proof. intros Hc. apply chain_skip. intros r Hr. by apply (chain_in _ _ _ _ _ Hc). Qed.

(** Sealing at the current index. *)
Lemma handleStartSealing_ok h0 o c k (s : Sys Writer) id ack :
  writer_ok h0 PIdle o c k s -> (c < id)%N ->
  ends (handleStartSealing id ack) s
    (fun r s' => r = Ok () /\ exists b, writer_ok h0 (PSealing b) o id k s' /\
                 sent (mem s') = sent (mem s) ++ [SentUint ack (N.of_nat b)])
    (crash_ok h0 o).
Proof.
  intros (Hnb & Hh & Hi & Hroom & Hhold & Hctl & Hcov & Hb & Hst & Ha & Ht & Hho & Hdt & LA & Hda & Hc & Hl) Hid.
  set (R := img o LA []) in *.
  assert (forall d, R d -> crash_ok h0 o d (mem s)) as Hcr.
  { intros d Hd. apply crash_nothing; [done..|]. apply (img_holds _ _ _ LA []); [done|by rewrite app_nil_r|done]. }
  assert (forall d, R d -> R (create tmpWALName d)) as Hcreate.
  { intros d Hd. unfold create. destruct (d !! tmpWALName); [done|]. apply (img_tmp o LA []); [done|].
    change [] with (enc []) at 1. constructor. }
  unfold handleStartSealing. apply ends_bind, ends_get. rewrite (Hctl id Hid), Hst.
  apply ends_bind, ends_attempt, (ends_change_nb R); [done|done| | |by auto].
  { intros i i' Hr [_ ->]%elem_of_if_same. auto. }
  intros e He HRe. apply ends_bind, ends_modify. rewrite Ha. cbn [disk io mem].
  assert (R (create tmpWALName (disk s))) as Hv by (apply Forall_inv in Hl; auto).
  assert (create tmpWALName (disk s) = <[tmpWALName := []]> (disk s)) as Hd by (unfold create; by rewrite Hdt).
  apply ends_bind, ends_bind, ends_attempt, (ends_sync_nb R); cbn [disk io mem]; [done|by apply remains_cons| |by auto].
  intros e1 He1 HR1. assert (Forall R (images e1)) as HR1' by (eapply Forall_impl; [exact HR1|]; by intros i [? _]).
  apply ends_bind, ends_attempt, (ends_idle_nb R); cbn [disk io mem]; [done|by apply remains_cons| |by auto]. intros e2 He2 Hi2.
  apply ends_modify, ends_modify. cbn [disk io mem]. split; [done|]. unfold writer_ok.
  cbn [disk io mem sent lastIndex hold sealBoundary set_seal set_files set_counts set_state send
       controlRes set_control]. rewrite acked_other by done.
  eexists. split; [|by rewrite Hi]. split_and!; auto.
  { intros i Hlt. rewrite lookup_insert_ne by lia. apply Hctl. lia. }
  simpl. split_and!; auto. eexists LA, []. unfold framed. rewrite Hd.
  rewrite lookup_insert_ne, Hda, lookup_insert_eq by done. rewrite <- Hd.
  split_and!; try done. apply remains_cons; [done|by rewrite Hi2].
Qed.

(** Closing the temporary WAL, once the snapshot of the boundary is in place. *)
Lemma handleFinishRotation_ok h0 o c k (s : Sys Writer) id ack :
  writer_ok h0 (PSealing (boundary o)) o c k s -> (c < id)%N ->
  ends (handleFinishRotation id ack) s
    (fun r s' => r = Ok () /\ writer_ok h0 PRotating o id k s' /\
                 sent (mem s') = sent (mem s) ++ [SentUint ack (lastIndex (mem s))])
    (crash_ok h0 o).
Proof.
  intros (Hnb & Hh & Hi & Hroom & Hhold & Hctl & Hcov & Hb & Hst & Ha & Ht & Hseal & LA & LT & Hda & Hdt & Hc1 & Hc2 & Hl) Hid.
  set (R := img o LA LT) in *.
  assert (forall d, R d -> crash_ok h0 o d (mem s)) as Hcr.
  { intros d Hd. apply crash_nothing; [done..|]. apply (img_holds _ _ _ LA LT); [done|apply chain_app; eauto|done]. }
  assert (R (disk s)) as Hv by (by apply Forall_inv in Hl).
  unfold handleFinishRotation. apply ends_bind, ends_get. rewrite (Hctl id Hid), Ht.
  apply ends_bind, ends_bind, ends_attempt, (ends_sync_nb R); [done|done| |by auto]. intros e1 He1 HR1.
  apply ends_bind, ends_attempt, (ends_idle_nb R); cbn [disk io mem]; [done| | |by auto].
  { apply remains_cons; [done|]. eapply Forall_impl; [exact HR1|]. by intros i [? _]. }
  intros e2 He2 Hi2. apply ends_modify, ends_modify. cbn [disk io mem]. split; [done|]. unfold writer_ok.
  cbn [disk io mem sent lastIndex hold sealBoundary controlRes set_files set_state send set_control].
  rewrite acked_other by done. split; [|done]. split_and!; auto.
  { intros i Hlt. rewrite lookup_insert_ne by lia. apply Hctl. lia. }
  simpl. split_and!; auto. exists LA, LT. split_and!; auto. apply remains_cons; [done|]. rewrite Hi2.
  eapply Forall_impl; [exact HR1|]. intros i [Hr Hk]. split; [done|]. by rewrite (same_file_eq _ _ _ Hk).
Qed.

Lemma drain_ok h0 o c k (ms : list Mutation) (s : Sys Writer) :
  writer_ok h0 PIdle o c (length ms + k) s -> Forall m_fits ms ->
  ends (drain ms) s
    (fun r s' => r = Ok () /\ writer_ok h0 PIdle o c k s' /\
                 acked (sent (mem s')) = acked (sent (mem s)) ++ (mRecord <$> ms))
    (crash_ok h0 o).
Proof.
  intros Hw Hms. revert s Hw. induction Hms as [|m ms Hm _ IH]; intros s Hw.
  { apply ends_ret. simpl. rewrite app_nil_r. auto. }
  apply ends_bind, ends_get.
  assert (active (mem s) = Some activeWALName) as Ha by apply Hw. rewrite Ha.
  apply ends_bind. eapply ends_mono; [by apply (append_idle h0 o c (length ms + k))| |done].
  intros r s' (-> & Hw' & Hsent). eapply ends_mono; [by apply IH| |done].
  intros r s'' (-> & Hw'' & Hack). split_and!; auto.
  rewrite Hack, Hsent, acked_snoc, <- app_assoc. done.
Qed.

(** In normal operation every mutation is acknowledged at once. *)
Lemma run_idle h0 o c k (ms : list Mutation) (s : Sys Writer) :
  writer_ok h0 PIdle o c (length ms + k) s -> Forall m_fits ms ->
  ends (runLoop (MMutation <$> ms)) s
    (fun r s' => r = Ok () /\ writer_ok h0 PIdle o c k s' /\
                 acked (sent (mem s')) = acked (sent (mem s)) ++ (mRecord <$> ms))
    (crash_ok h0 o).
Proof.
  intros Hw Hms. revert s Hw. induction Hms as [|m ms Hm _ IH]; intros s Hw.
  { apply ends_ret. simpl. rewrite app_nil_r. auto. }
  rewrite fmap_cons. cbn [runLoop handle]. unfold handleMutation.
  apply ends_bind, ends_bind, ends_get.
  assert (state (mem s) = StateIDLE) as -> by apply Hw.
  assert (active (mem s) = Some activeWALName) as -> by apply Hw.
  eapply ends_mono; [by apply (append_idle h0 o c (length ms + k))| |done].
  intros r s' (-> & Hw' & Hsent). eapply ends_mono; [by apply IH| |done].
  intros r s'' (-> & Hw'' & Hack). split_and!; auto.
  by rewrite Hack, Hsent, acked_snoc, <- app_assoc.
Qed.

(** Back to normal operation on the renamed file: the held mutations are
    appended first, in their order. *)
Lemma handleRotationComplete_ok h0 o c k (s : Sys Writer) id ack :
  writer_ok h0 PRenamed o c k s -> (c < id)%N ->
  ends (handleRotationComplete id ack) s
    (fun r s' => r = Ok () /\ writer_ok h0 PIdle o id k s' /\ SentErr ack None ∈ sent (mem s') /\
                 acked (sent (mem s')) = acked (sent (mem s)) ++ (mRecord <$> hold (mem s)))
    (crash_ok h0 o).
Proof.
  intros (Hnb & Hh & Hi & Hroom & Hhold & Hctl & Hcov & Hb & Hst & Ha & Ht & Hdt & LT & Hda & Hc & Hl) Hid.
  set (R := img o LT []) in *.
  unfold handleRotationComplete. apply ends_bind, ends_get. rewrite (Hctl id Hid).
  apply ends_bind, ends_attempt, (ends_change_nb R); [done|done| | |].
  { intros i i' Hr [Hsd ->]%elem_of_if_same. unfold create. destruct (i !! activeWALName) eqn:E; [done|].
    apply (img_active o LT []); [done|]. destruct Hr as (_ & HA & _). unfold wal_file in HA. rewrite E in HA. subst LT.
    change [] with (enc []) at 1. constructor. }
  2:{ intros d Hd. apply crash_nothing; [done..|]. apply (img_holds _ _ _ LT []); [done|by rewrite app_nil_r|done]. }
  intros e He HRe. assert (create activeWALName (disk s) = disk s) as Hcreate by (unfold create; by rewrite Hda).
  apply ends_bind, ends_modify. cbn [disk io mem]. rewrite Hcreate.
  apply ends_bind. eapply ends_mono; [apply (drain_ok h0 o c k); [|done]| |done].
  - unfold writer_ok.
    cbn [disk io mem sent lastIndex hold set_files set_counts set_state set_hold length].
    split_and!; auto; [lia|]. simpl. split_and!; auto. exists LT. split_and!; auto.
    apply remains_cons; [by apply Forall_inv in Hl|done].
  - intros r s' (-> & Hw' & Hack). apply ends_modify. split; [done|]. split_and!.
    + eapply writer_ok_same;
        [exact Hw'|simpl; by rewrite acked_other|done|simpl; lia|apply Hw'|intros _; apply Hw'| |done..].
      intros i Hlt. simpl. rewrite lookup_insert_ne by lia. apply Hw'. lia.
    + simpl. set_solver.
    + simpl. rewrite acked_other by done. exact Hack.
Qed.
End writer_thms.
Arguments m_fits {J JL} may m : rename.
Arguments writer_ok {J JL} may SM h0 ph o c k s : rename.
Arguments crash_ok {J JL} may SM h0 o d w : rename.

(** ** A rotation, with mutations arriving between its steps *)

Section rotation.
Context {J : Json} {JL : JsonLaws} {may : Record_ -> Prop} {SM : SnapshotMeaning}.
Variable snapshotFn : WAL -> result (list SnapshotEntry).

(** The store can always be snapshotted, and snapshots can be encoded. *)
Definition snapshots_work : Prop :=
  forall x b, exists es, snapshotFn x = Ok es /\ snap_fits (mkSnapshotData b (Some (snapshot_map es))).

(** The records acknowledged to the clients of a log that started with [h0]. *)
Definition logged_since (h0 : list Record_) (x : WAL) : list Record_ :=
  h0 ++ number (length h0) (acked (sent (writer x))).

(** A snapshot taken after the log was sealed at [b] means what a snapshot of that
    boundary should. *)
Definition snapshots_mean (h0 : list Record_) : Prop :=
  forall x es o b, snapshotFn x = Ok es -> sealBoundary (writer x) = N.of_nat b ->
    covers (logged_since h0 x) o -> boundary o <= b -> b <= length (logged_since h0 x) ->
    covers (logged_since h0 x) (Some (mkSnapshotData (N.of_nat b) (Some (snapshot_map es)))).

(** The writer's part of the system. *)
Definition wsys (s : Sys WAL) : Sys Writer := mkSys (disk s) (io s) (writer (mem s)).

Definition feed_of (mss : list (list Mutation)) : list (list Msg) :=
  (fun ms : list Mutation => MMutation <$> ms) <$> mss.
Definition pending (mss : list (list Mutation)) : nat := sum_list (length <$> mss).

(** [V] holds of the writer, for the control ids used and the number of
    mutations still to come; [j] more control ids fit in uint64. *)
Definition wal_st (V : N -> nat -> Sys Writer -> Prop) (j : N) (s : Sys WAL) : Prop :=
  exists mss : list (list Mutation),
    feed (mem s) = feed_of mss /\ Forall (Forall (m_fits may)) mss /\
    V (nextID (manager (mem s))) (pending mss) (wsys s) /\
    (nextID (manager (mem s)) + j < 2 ^ 64)%N /\ (1 <= maxRetries (manager (mem s)))%Z.

Definition wal_ok (h0 : list Record_) (ph : phase) (o : option snapshotData) : N -> Sys WAL -> Prop :=
  wal_st (writer_ok may SM h0 ph o).

Lemma ends_on_writer {A} (p : sys Writer A) (s : Sys WAL) P Q :
  ends p (wsys s)
    (fun r s' => P r (mkSys (disk s') (io s')
      (mkWAL (mem s') (manager (mem s)) (closed (mem s)) (nextCh (mem s)) (feed (mem s)))))
    (fun d w => Q d (mkWAL w (manager (mem s)) (closed (mem s)) (nextCh (mem s)) (feed (mem s)))) ->
  ends (on_writer p) s P Q.
Proof. unfold ends, on_writer, wsys. by destruct (p _). Qed.

(** A control message whose handler takes the writer from [ph] to [V] and
    acks does so from the manager's side too. *)
Lemma control_ok mk h0 ph o j (V : Sent -> N -> nat -> Sys Writer -> Prop) (s : Sys WAL) :
  (forall c k id ack s, writer_ok may SM h0 ph o c k s -> (c < id)%N ->
     ends (handle (mk id ack)) s
       (fun r s' => r = Ok () /\ exists v, received ack (sent (mem s')) = Some v /\ V v id k s')
       (crash_ok may SM h0 o)) ->
  wal_ok h0 ph o (1 + j) s ->
  ends (control mk) s (fun r s' => exists v, r = Ok v /\ wal_st (V v) j s')
    (fun d x => crash_ok may SM h0 o d (writer x)).
Proof.
  intros Hmk (mss & Hfeed & Hfits & Hw & Hid & Hretry). unfold control, newID.
  apply ends_bind, ends_bind, ends_get, ends_bind, ends_put, ends_ret, ends_bind, ends_get.
  cbn [mem manager set_manager maxRetries]. rewrite u64_succ_small by lia.
  destruct (Z.to_nat (maxRetries (manager (mem s)))) as [|q] eqn:Eq; [lia|].
  cbn [roundTrip]. unfold next_send. apply ends_bind, ends_bind, ends_get, ends_bind, ends_put, ends_ret.
  cbn [mem manager writer closed nextCh feed set_manager disk io].
  apply ends_bind, ends_on_writer, runLoop_app. unfold wsys. cbn [mem writer disk io].
  assert (hd [] (feed (mem s)) = MMutation <$> hd [] mss) as Hhd by (rewrite Hfeed; by destruct mss).
  rewrite Hhd. eapply ends_mono.
  { apply (run_mutations (may := may) h0 ph o (nextID (manager (mem s))) (pending (tl mss))).
    - replace (length (hd [] mss) + pending (tl mss)) with (pending mss); [exact Hw|]. by destruct mss.
    - destruct Hfits; [constructor|done]. }
  2:{ intros d w Hcr. exact Hcr. }
  intros r s1 [-> Hw1]. apply ends_bind. eapply ends_mono; [eapply Hmk; [exact Hw1|lia]| |done].
  intros r s2 (-> & v & Hrec & HV). apply ends_ret, ends_bind, ends_get. cbn [mem writer].
  rewrite Hrec. apply ends_ret. exists v. split; [done|]. exists (tl mss).
  cbn [mem manager nextID maxRetries feed]. split; [by rewrite Hfeed; destruct mss|].
  split; [by destruct Hfits|]. destruct s2. split; [exact HV|]. split; [lia|done].
Qed.

Lemma received_last ack l v : sent_ch v = ack -> received ack (l ++ [v]) = Some v.
Proof.
  intros Hv. unfold received. rewrite filter_app, filter_cons_True, filter_nil by done.
  apply last_snoc.
Qed.

Lemma received_some ack l x : sent_ch x = ack -> x ∈ l -> exists v, received ack l = Some v.
Proof.
  intros Hx Hin. unfold received. destruct (last _) eqn:E; [eauto|].
  apply last_None in E. exfalso.
  assert (x ∈ filter (fun y => sent_ch y = ack) l) as Hf by (by apply list_elem_of_filter).
  rewrite E in Hf. by apply elem_of_nil in Hf.
Qed.

Lemma sendStartSealing_ok h0 o j (s : Sys WAL) :
  wal_ok h0 PIdle o (1 + j) s ->
  ends sendStartSealing s
    (fun r s' => exists b, r = Ok (N.of_nat b) /\ wal_ok h0 (PSealing b) o j s')
    (fun d x => crash_ok may SM h0 o d (writer x)).
Proof.
  intros Hw. apply ends_bind. eapply ends_mono.
  - apply (control_ok _ h0 PIdle o j (fun v c k s =>
      exists b ch, v = SentUint ch (N.of_nat b) /\ writer_ok may SM h0 (PSealing b) o c k s)); [|exact Hw].
    intros c k id ack s1 Hs1 Hid. eapply ends_mono; [by apply (handleStartSealing_ok (may := may) h0 o c k)| |done].
    intros r s2 (-> & b & Hs2 & Hsent). split; [done|]. rewrite Hsent.
    eexists. split; [by apply received_last|]. eauto.
  - intros r s' (v & -> & mss & Hf & Hfits & (b & ch & -> & HV) & Hid & Hm).
    apply ends_ret. exists b. split; [done|]. exists mss. auto.
  - done.
Qed.

Lemma sendFinishRotation_ok h0 o j (s : Sys WAL) :
  wal_ok h0 (PSealing (boundary o)) o (1 + j) s ->
  ends sendFinishRotation s (fun r s' => (exists v, r = Ok v) /\ wal_ok h0 PRotating o j s')
    (fun d x => crash_ok may SM h0 o d (writer x)).
Proof.
  intros Hw. apply ends_bind. eapply ends_mono.
  - apply (control_ok _ h0 (PSealing (boundary o)) o j (fun v => writer_ok may SM h0 PRotating o)); [|exact Hw].
    intros c k id ack s1 Hs1 Hid. eapply ends_mono; [by apply (handleFinishRotation_ok (may := may) h0 o c k)| |done].
    intros r s2 (-> & Hs2 & Hsent). split; [done|]. rewrite Hsent.
    eexists. split; [by apply received_last|]. done.
  - intros r s' (v & -> & Hs'). apply ends_ret. eauto.
  - done.
Qed.

Lemma sendRotationComplete_ok h0 o j (s : Sys WAL) :
  wal_ok h0 PRenamed o (1 + j) s ->
  ends sendRotationComplete s (fun r s' => r = Ok () /\ wal_ok h0 PIdle o j s')
    (fun d x => crash_ok may SM h0 o d (writer x)).
Proof.
  intros Hw. apply ends_bind. eapply ends_mono.
  - apply (control_ok _ h0 PRenamed o j (fun v => writer_ok may SM h0 PIdle o)); [|exact Hw].
    intros c k id ack s1 Hs1 Hid. eapply ends_mono; [by apply (handleRotationComplete_ok (may := may) h0 o c k)| |done].
    intros r s2 (-> & Hs2 & Hin & _). split; [done|].
    destruct (received_some ack (sent (mem s2)) (SentErr ack None)) as [v Hv]; eauto.
  - intros r s' (v & -> & Hs'). apply ends_ret. eauto.
  - done.
Qed.

Lemma wal_ok_script h0 ph o j s : wal_ok h0 ph o j s -> no_bad (script s).
Proof. intros (mss & _ & _ & Hw & _). apply Hw. Qed.

Lemma wal_ok_holds h0 ph o j s :
  wal_ok h0 ph o j s -> history (logged_since h0 (mem s)) /\ covers (logged_since h0 (mem s)) o /\
    boundary o <= length (logged_since h0 (mem s)) /\
    phase_ok ph (logged_since h0 (mem s)) o (disk s) (remains s) (writer (mem s)).
Proof. intros (mss & _ & _ & (_ & Hh & _ & _ & _ & _ & Hcov & Hb & Hp) & _). done. Qed.

(** A change of the disk under the writer. *)
Lemma wal_ok_disk h0 ph ph' o o' j s d e :
  wal_ok h0 ph o j s -> no_bad (outcomes e) -> covers (logged_since h0 (mem s)) o' ->
  boundary o' <= length (logged_since h0 (mem s)) ->
  phase_ok ph' (logged_since h0 (mem s)) o' d (d :: images e) (writer (mem s)) ->
  wal_ok h0 ph' o' j (mkSys d e (mem s)).
Proof.
  intros (mss & Hf & Hfits & (Hnb & Hh & Hi & Hroom & Hhold & Hctl & _) & Hid & Hm) He Hcov Hb Hp.
  exists mss. cbn [mem]. split; [done|]. split; [done|]. split; [|done].
  unfold wsys, writer_ok in *. cbn [disk io mem] in *. split_and!; auto.
Qed.

(** Putting the new snapshot in place moves the boundary to that of the seal; until
    the directory is synced, a crash leaves the old one or the new one. *)
Lemma install_ok h0 b o sd c j (s : Sys WAL) d e LA LT :
  wal_ok h0 (PSealing b) o j s -> no_bad (outcomes e) -> json_unsnapshot c = Some sd ->
  LastLogIndex sd = N.of_nat b -> covers (logged_since h0 (mem s)) (Some sd) ->
  d !! activeWALName = disk s !! activeWALName -> d !! tmpWALName = disk s !! tmpWALName ->
  framed (disk s) activeWALName LA -> disk s !! tmpWALName = Some (enc LT) ->
  chain (logged_since h0 (mem s)) (boundary o) LA b -> chain (logged_since h0 (mem s)) b LT (length (logged_since h0 (mem s))) ->
  Forall (fun i => img o LA LT i /\ i !! snapshotTmpName = Some c) (d :: images e) ->
  ends (Rename snapshotTmpName snapshotName;; syncDir) (mkSys d e (mem s))
    (fun r s' => r = Ok () /\ exists o', wal_ok h0 (PSealing (boundary o')) o' j s')
    (fun d x => exists o', crash_ok may SM h0 o' d (writer x)).
Proof.
  intros Hw He Hdec Hlast Hcov Hda Hdt HA HT Hc1 Hc2 HR.
  destruct (wal_ok_holds _ _ _ _ _ Hw) as (Hh & Hcov0 & Hb & Hst & Hac & Ht & Hsl & _).
  set (h := logged_since h0 (mem s)) in *.
  set (R1 := fun i : Disk => img o LA LT i /\ i !! snapshotTmpName = Some c) in *.
  set (R2 := fun i : Disk => img (Some sd) LA LT i /\ i !! snapshotTmpName = None).
  assert (boundary (Some sd) = b) as Hbd by (simpl; rewrite Hlast; apply Nat2N.id).
  pose proof (chain_le _ _ _ _ Hc2) as Hle2.
  assert (forall d, R1 d \/ R2 d -> exists o', crash_ok may SM h0 o' d (writer (mem s))) as Hcr.
  { intros i [[Hi _]|[Hi _]].
    - exists o. apply crash_nothing; [done..|]. apply (img_holds _ _ _ LA LT); [done|apply chain_app; eauto|done].
    - exists (Some sd). apply crash_nothing; [done..|]. apply (img_holds _ _ _ LA LT); [by rewrite Hbd| |done].
      rewrite Hbd. apply chain_app. eauto using chain_self. }
  assert (forall i, R1 i -> R2 (rename_disk snapshotTmpName snapshotName i)) as H12.
  { intros i [(_ & HiA & HiT) Hi]. unfold rename_disk, R2, img, snapshot_file, wal_file in *. rewrite Hi.
    rewrite lookup_delete_eq, !lookup_delete_ne, lookup_insert_eq, !lookup_insert_ne by done.
    by split_and!. }
  assert (R1 d) as Hd by (by apply Forall_inv in HR). pose proof (H12 _ Hd) as Hv2.
  apply ends_bind, (ends_change_nb (fun i => R1 i \/ R2 i)); [done| | | |done].
  { eapply Forall_impl; [exact HR|]. by left. }
  { intros i i' Hi [_ ->]%elem_of_if_same. right. destruct Hi as [Hi|Hi]; [by apply H12|].
    unfold rename_disk. destruct Hi as [? Hn]. by rewrite Hn. }
  intros e1 He1 HR1. apply (ends_sync_nb (fun i => R1 i \/ R2 i)); cbn [disk io mem]; [done| | |done].
  { apply remains_cons; [by right|done]. }
  intros e2 He2 HR2. split; [done|]. exists (Some sd). eapply wal_ok_disk; [done..| |]; fold h; rewrite Hbd; [done|].
  assert (rename_disk snapshotTmpName snapshotName d = delete snapshotTmpName (<[snapshotName := c]> d)) as Hren.
  { unfold rename_disk. destruct Hd as [_ Hd]. by rewrite Hd. }
  simpl. rewrite Hlast, Nat2N.id. split_and!; auto. exists LA, LT. unfold framed in *. rewrite Hren.
  rewrite !lookup_delete_ne, !lookup_insert_ne, Hda, Hdt by done. rewrite <- Hren.
  split_and!; eauto using chain_self. constructor; [apply Hv2|]. eapply Forall_impl; [exact HR2|].
  intros i [[[_ Hi]|[Hi _]] Hk]; [|done]. apply (same_dir_None _ _ snapshotTmpName) in Hk; [congruence|apply Hv2].
Qed.

Lemma writeSnapshot_ok h0 b o j (s : Sys WAL) :
  snapshots_work -> snapshots_mean h0 -> wal_ok h0 (PSealing b) o j s ->
  ends (writeSnapshot snapshotFn (N.of_nat b)) s
    (fun r s' => r = Ok () /\ exists o', wal_ok h0 (PSealing (boundary o')) o' j s')
    (fun d x => exists o', crash_ok may SM h0 o' d (writer x)).
Proof.
  intros Hsnap Hmean Hw. pose proof (wal_ok_script _ _ _ _ _ Hw) as Hnb.
  destruct (wal_ok_holds _ _ _ _ _ Hw) as (Hh & Hcov & Hb & Hst & Hac & Ht & Hsl & LA & LT & HA & HT & Hc1 & Hc2 & Hl).
  set (h := logged_since h0 (mem s)) in *. set (R := img o LA LT) in *.
  unfold writeSnapshot. apply ends_bind, ends_get.
  destruct (Hsnap (mem s) (N.of_nat b)) as (es & Hes & Hfit). rewrite Hes.
  destruct (json_snapshot_ok _ Hfit) as (c & -> & Hdec). set (sd := mkSnapshotData (N.of_nat b) _) in *.
  assert (boundary (Some sd) = b) as Hbd by (simpl; apply Nat2N.id).
  pose proof (chain_le _ _ _ _ Hc1) as Hle1. pose proof (chain_le _ _ _ _ Hc2) as Hle2.
  assert (covers h (Some sd)) as Hcov' by (by apply (Hmean _ es o b)).
  assert (forall d, R d -> exists o', crash_ok may SM h0 o' d (writer (mem s))) as Hcr.
  { intros d Hd. exists o. apply crash_nothing; [done..|]. apply (img_holds _ _ _ LA LT); [done| |done]. apply chain_app. eauto. }
  assert (ignores R snapshotTmpName) as Hig by (apply img_ignores; set_solver).
  apply ends_bind, (ends_change_nb R); [done|done| | |done].
  { intros i i' Hi. apply (ignores_if_same _ snapshotTmpName); [done| |done]. intros d. apply agree_insert, agree_refl. }
  intros e1 He1 HR1. apply ends_bind, ends_attempt, (ends_change_nb R); cbn [disk io mem]; [done| | | |done].
  { apply remains_cons; [|done]. apply (Hig (disk s)); [apply agree_insert, agree_refl|by apply Forall_inv in Hl]. }
  { intros i i' Hi. by apply ignores_append. }
  intros e2 He2 HR2. unfold append_to. rewrite lookup_insert_eq, insert_insert_eq. simpl app.
  set (d := <[snapshotTmpName := c ++ [nl]]> (disk s)).
  assert (R d) as Hd by (apply (Hig (disk s)); [apply agree_insert, agree_refl|by apply Forall_inv in Hl]).
  assert (d !! snapshotTmpName = Some (c ++ [nl])) as Hdt by apply lookup_insert_eq.
  apply ends_bind, ends_attempt, (ends_sync_nb R); cbn [disk io mem]; [done|by apply remains_cons| |done].
  intros e3 He3 HR3. set (R1 := fun i : Disk => R i /\ i !! snapshotTmpName = Some (c ++ [nl])).
  assert (Forall R1 (images e3)) as HR3'.
  { eapply Forall_impl; [exact HR3|]. intros i [Hi Hk]. split; [done|]. by rewrite (same_file_eq _ _ _ Hk). }
  apply ends_bind, (ends_idle_nb R1); cbn [disk io mem]; [done|by apply remains_cons| |by intros ? [? _]; auto].
  intros e4 He4 Hi4. apply (install_ok h0 b o sd (c ++ [nl]) j s d e4 LA LT); try done; [by apply lookup_insert_ne..|].
  constructor; [done|by rewrite Hi4].
Qed.

Lemma rotateFiles_ok h0 o j (s : Sys WAL) :
  wal_ok h0 PRotating o j s ->
  ends rotateFiles s (fun r s' => r = Ok () /\ wal_ok h0 PRenamed o j s')
    (fun d x => crash_ok may SM h0 o d (writer x)).
Proof.
  intros Hw. pose proof (wal_ok_script _ _ _ _ _ Hw) as Hnb.
  destruct (wal_ok_holds _ _ _ _ _ Hw) as (Hh & Hcov & Hb & Hst & Hac & Ht & LA & LT & HA & HT & Hc1 & Hc2 & Hl).
  set (h := logged_since h0 (mem s)) in *.
  set (R1 := fun i : Disk => img o LA LT i /\ i !! tmpWALName = Some (enc LT)) in *.
  set (R2 := fun i : Disk => img o LT [] i /\ i !! tmpWALName = None).
  assert (forall d, R1 d \/ R2 d -> crash_ok may SM h0 o d (writer (mem s))) as Hcr.
  { intros d Hd. apply crash_nothing; [done..|]. fold h. destruct Hd as [[Hd _]|[Hd _]].
    - apply (img_holds _ _ _ LA LT); [done|apply chain_app; eauto|done].
    - apply (img_holds _ _ _ LT []); [done|by rewrite app_nil_r|done]. }
  assert (forall i, R1 i -> R2 (rename_disk tmpWALName activeWALName i) /\
            rename_disk tmpWALName activeWALName i !! activeWALName = Some (enc LT)) as H12.
  { intros i [(Hs & _ & _) Hi]. unfold rename_disk, R2, img, snapshot_file, wal_file in *. rewrite Hi.
    rewrite lookup_delete_eq, !lookup_delete_ne, lookup_insert_eq, !lookup_insert_ne by done.
    split_and!; try done. constructor. }
  assert (R1 (disk s)) as Hv by (by apply Forall_inv in Hl). destruct (H12 _ Hv) as [Hv2 Ha2].
  unfold rotateFiles. apply ends_bind. unfold ends at 1, exists_file.
  rewrite bool_decide_eq_true_2 by (by rewrite HT).
  apply ends_bind, (ends_change_nb (fun i => R1 i \/ R2 i)); [done| | | |done].
  { eapply Forall_impl; [exact Hl|]. by left. }
  { intros i i' Hi [_ ->]%elem_of_if_same. right. destruct Hi as [Hi|Hi]; [by apply H12|].
    unfold rename_disk. destruct Hi as [? Hn]. by rewrite Hn. }
  intros e1 He1 HR1. apply (ends_sync_nb (fun i => R1 i \/ R2 i)); cbn [disk io mem]; [done| | |done].
  { apply remains_cons; [by right|done]. }
  intros e2 He2 HR2. split; [done|]. eapply wal_ok_disk; [done..|]. fold h. simpl. split_and!; auto; [apply Hv2|].
  exists LT. split_and!; auto. constructor; [apply Hv2|]. eapply Forall_impl; [exact HR2|].
  intros i [[[_ Hi]|[Hi _]] Hk]; [|done]. apply (same_dir_None _ _ tmpWALName) in Hk; [congruence|apply Hv2].
Qed.

Lemma rotateOnce_ok h0 o j (s : Sys WAL) :
  snapshots_work -> snapshots_mean h0 -> wal_ok h0 PIdle o (3 + j) s ->
  ends (rotateOnce snapshotFn) s
    (fun r s' => r = Ok () /\ exists o', wal_ok h0 PIdle o' j s')
    (fun d x => exists o', crash_ok may SM h0 o' d (writer x)).
Proof.
  intros Hsnap Hmean Hw. replace (3 + j)%N with (1 + (1 + (1 + j)))%N in Hw by lia.
  apply ends_bind, ends_wrap. eapply ends_mono; [by apply sendStartSealing_ok| |intros d x Hx; by exists o].
  intros r s1 (b & -> & Hw1). apply ends_bind, ends_wrap.
  eapply ends_mono; [by apply (writeSnapshot_ok h0 b o)| |done].
  intros r s2 (-> & o' & Hw2). apply ends_bind, ends_wrap.
  eapply ends_mono; [by apply sendFinishRotation_ok| |intros d x Hx; by exists o'].
  intros r s3 ([v ->] & Hw3). apply ends_bind, ends_wrap.
  eapply ends_mono; [by apply rotateFiles_ok| |intros d x Hx; by exists o'].
  intros r s4 (-> & Hw4). apply ends_wrap.
  eapply ends_mono; [by apply sendRotationComplete_ok| |intros d x Hx; by exists o'].
  intros r s5 (-> & Hw5). split; [done|]. by exists o'.
Qed.
End rotation.
Arguments wal_st {J JL} may V j s : rename.
Arguments wal_ok {J JL} may SM h0 ph o _ _ : rename.
