(* ===== verification/WalProps.v ===== *)
(** * The WAL: its properties

    Every acknowledged record survives a crash, in the order of the
    acknowledgements, also in the middle of a rotation; control messages are
    idempotent and held mutations keep their order. *)

From S2P Require Import Prelude WalTypes WalCodec Os WalRecovery WalRecoveryProps WalRecoveryThms WalWriter WalThms.

Section wal_props.
Context {J : Json} {JL : JsonLaws} {S : Type}.
Context (load : S -> list SnapshotEntry -> S) (step : S -> Record_ -> S)
        (snap : S -> result (list SnapshotEntry)).

(** Recovery of the directory [d] returns the whole history [h] on top of some
    snapshot [o]. *)
Definition recovers (h : list Record_) (o : option snapshotData) (d : Disk) : Prop :=
  forall y, exists s', Recover (good_hooks load step snap) (boot d [] y) = Done (Ok (N.of_nat (length h))) s' /\
    mem s' = recovered load step h o (length h) y.

Lemma holds_recovers h o d : history h -> holds h o (length h) d -> recovers h o d.
Proof.
  intros Hh Hd y. destruct (Recover_correct load step h o (length h) snap d y Hh Hd) as (s' & E & Hm & _). eauto.
Qed.

Lemma crash_recovers may SM h0 o d w :
  crash_ok may SM h0 o d w ->
  exists extra, length extra <= 1 /\ Forall may extra /\
    recovers (h0 ++ number (length h0) (acked (sent w) ++ extra)) o d.
Proof. intros (extra & Hl & Hm & Hh & Hd & _). exists extra. split; [done|]. split; [done|]. by apply holds_recovers. Qed.

(** C17: durability of acknowledgements. On a machine whose file calls succeed until
    it crashes, in any phase of the writer, a run over any mutations is such that
    from then on, whenever the machine loses power, whatever image of the directory
    is left recovers to the old history followed by exactly the acknowledged
    records, in the order of their acknowledgements; if it crashes in one of the
    calls of the run, the image left gives the same, plus at most the one record
    that was being written ([may] holds of the records in flight). The images are
    those of the disk model: data that was not synced is lost or there in part, and
    an fsync of a file makes its contents and its directory entry durable. *)
Theorem acked_survive (may : Record_ -> Prop) h0 ph o c (ms : list Mutation) (s : Sys Writer) :
  writer_ok may any_snapshot h0 ph o c (length ms) s -> Forall (m_fits may) ms ->
  match runLoop (MMutation <$> ms) s with
  | Done r s' => r = Ok () /\
      forall d, d ∈ remains s' -> recovers (h0 ++ number (length h0) (acked (sent (mem s')))) o d
  | Crashed d w => exists extra, length extra <= 1 /\ Forall may extra /\
      recovers (h0 ++ number (length h0) (acked (sent w) ++ extra)) o d
  end.
Proof.
  intros Hw Hms. rewrite <- (Nat.add_0_r (length ms)) in Hw.
  pose proof (run_mutations (may := may) h0 ph o c 0 ms s Hw Hms) as He. unfold ends in He.
  destruct (runLoop _ s) as [r s'|d w]; [|by eapply crash_recovers].
  destruct He as [-> (_ & Hh & _ & _ & _ & _ & _ & Hb & Hp)]. split; [done|]. intros d Hd.
  apply holds_recovers; [done|]. eapply remains_R; [|exact Hd]. by eapply phase_holds.
Qed.

(** ** Snapshots that stand for the store *)

Context (empty : S).

(** The snapshot is the store after some of the records, all those up to its boundary
    among them. *)
Definition stands_for (h : list Record_) (o : option snapshotData) : Prop :=
  match o with
  | None => True
  | Some sd => exists j, boundary o <= j <= length h /\ load empty (snapshotEntries sd) = foldl step empty (take j h)
  end.

Lemma stands_for_more h h' o : stands_for h o -> stands_for (h ++ h') o.
Proof.
  destruct o as [sd|]; [|done]. intros (j & Hj & E). exists j. rewrite length_app, take_app_le by lia. split; [lia|done].
Qed.

Definition store_meaning : SnapshotMeaning := {| covers := stands_for; covers_more := stands_for_more |}.

(** Applying records a second time changes nothing. *)
Definition replay_idempotent : Prop :=
  forall l1 l2, foldl step (foldl step empty (l1 ++ l2)) l2 = foldl step empty (l1 ++ l2).

(** A snapshot of the store has all the records up to the seal, and none that was not
    acknowledged. *)
Definition snapshots_current (snapshotFn : WAL -> result (list SnapshotEntry)) (h0 : list Record_) : Prop :=
  forall x es, snapshotFn x = Ok es -> N.to_nat (sealBoundary (writer x)) <= length (logged_since h0 x) ->
    exists j, N.to_nat (sealBoundary (writer x)) <= j <= length (logged_since h0 x) /\
      load empty (snapshotEntries (mkSnapshotData 0 (Some (snapshot_map es)))) = foldl step empty (take j (logged_since h0 x)).

(** Recovery into the empty store gives all of [h]. *)
Definition restores (h : list Record_) (d : Disk) : Prop :=
  exists s', Recover (good_hooks load step snap) (boot d [] empty) = Done (Ok (N.of_nat (length h))) s' /\
    mem s' = foldl step empty h.

Lemma recovered_all h o :
  replay_idempotent -> stands_for h o -> boundary o <= length h ->
  recovered load step h o (length h) empty = foldl step empty h.
Proof.
  intros Hid Ho Hb. unfold recovered, span. rewrite take_ge by (rewrite length_drop; lia).
  destruct o as [sd|]; [|by rewrite drop_0]. destruct Ho as (j & [Hj1 Hj2] & ->).
  set (b := boundary (Some sd)) in *.
  rewrite <- (take_drop (j - b) (drop b h)), drop_drop, foldl_app.
  replace (b + (j - b)) with j by lia. rewrite <- (take_drop j h) at 4. rewrite foldl_app. f_equal.
  assert (take j h = take b h ++ take (j - b) (drop b h)) as ->.
  { rewrite <- (take_drop b h) at 1. rewrite take_app, take_take, length_take.
    rewrite Nat.min_r by lia. by rewrite Nat.min_l by lia. }
  apply Hid.
Qed.

Lemma snapshots_current_mean snapshotFn h0 :
  snapshots_current snapshotFn h0 -> @snapshots_mean store_meaning snapshotFn h0.
Proof.
  intros Hs x es o b Hes Hb _ _ Hle. destruct (Hs x es Hes) as (j & Hj & E); rewrite Hb, Nat2N.id in *; [done|].
  exists j. cbn [boundary LastLogIndex]. by rewrite Nat2N.id.
Qed.

Lemma holds_restores h o d :
  replay_idempotent -> history h -> holds h o (length h) d -> stands_for h o -> restores h d.
Proof.
  intros Hid Hh Hd Ho. destruct (holds_recovers h o d Hh Hd empty) as (s' & E & Hm). exists s'. split; [done|].
  rewrite Hm. apply recovered_all; [done..|apply Hd].
Qed.

(** C18: a rotation (seal, snapshot, finish, rename, complete) with mutations
    arriving between its steps, on a machine whose file calls succeed until it
    crashes. If the snapshot function returns the store as it is (all the records up
    to the seal, and none that was not acknowledged), snapshots can be encoded, and
    applying a record twice is applying it once, then the rotation ends with the
    writer back in normal operation, and recovery into an empty store gives the
    store of all the acknowledged records from every image that a crash may leave of
    the directory, then or later; a crash in any system call of the manager or the
    writer leaves an image from which recovery gives that store too, with at most
    the one record besides that was being written. *)
Theorem rotation_crash_safe (may : Record_ -> Prop) snapshotFn h0 o j (s : Sys WAL) :
  replay_idempotent -> snapshots_work snapshotFn -> snapshots_current snapshotFn h0 ->
  wal_ok may store_meaning h0 PIdle o (3 + j) s ->
  match rotateOnce snapshotFn s with
  | Done r s' => r = Ok () /\ (exists o', wal_ok may store_meaning h0 PIdle o' j s') /\
      forall d, d ∈ remains s' -> restores (logged_since h0 (mem s')) d
  | Crashed d x => exists extra, length extra <= 1 /\ Forall may extra /\
      restores (h0 ++ number (length h0) (acked (sent (writer x)) ++ extra)) d
  end.
Proof.
  intros Hid Hsnap Hcur%snapshots_current_mean Hw.
  pose proof (rotateOnce_ok (may := may) snapshotFn h0 o j s Hsnap Hcur Hw) as He. unfold ends in He.
  destruct (rotateOnce snapshotFn s) as [r s'|d x].
  - destruct He as (-> & o' & Hw'). split; [done|]. split; [by exists o'|]. intros d Hd.
    destruct (wal_ok_holds _ _ _ _ _ Hw') as (Hh & Hcov & Hb & Hp). apply (holds_restores _ o'); [done|done| |done].
    eapply remains_R; [|exact Hd]. by eapply phase_holds.
  - destruct He as (o' & extra & Hl & Hm & Hh & Hd & Hcov). exists extra. split; [done|]. split; [done|].
    by apply (holds_restores _ o').
Qed.
End wal_props.

Section order.
Context {J : Json} {JL : JsonLaws}.

(** While rotating, mutations are queued in order. *)
Lemma hold_queue (ms : list Mutation) (s : Sys Writer) :
  state (mem s) = StateROTATING -> length (hold (mem s)) + length ms <= holdLimit (mem s) ->
  runLoop (MMutation <$> ms) s
    = Done (Ok ()) (mkSys (disk s) (io s) (set_hold (hold (mem s) ++ ms) (mem s))).
Proof.
  revert s. induction ms as [|m ms IH]; intros s Hst Hl.
  { rewrite app_nil_r. by destruct s as [d sc []]. }
  rewrite fmap_cons. cbn [runLoop handle]. unfold mbind, sys_bind, handleMutation, get_mem.
  unfold mbind, sys_bind. rewrite Hst. unfold holdMutation, modify, get_mem, mbind, sys_bind, put_mem.
  simpl in Hl. rewrite (proj2 (Nat.leb_gt _ _)) by lia.
  rewrite IH; cbn [mem disk io state hold holdLimit set_hold]; [|done|rewrite length_app; simpl; lia].
  by rewrite <- app_assoc.
Qed.

(** No overtaking: mutations that arrive while the WAL is being rotated
    (up to the hold limit) are appended and acknowledged when the rotation
    completes, in the order of their arrival and before every later one. *)
Theorem hold_fifo (may : Record_ -> Prop) h0 o c k id ack (ms1 ms2 : list Mutation) (s : Sys Writer) :
  writer_ok may any_snapshot h0 PRenamed o c (length ms1 + (length ms2 + k)) s -> hold (mem s) = [] ->
  length ms1 <= holdLimit (mem s) -> (c < id)%N -> Forall (m_fits may) (ms1 ++ ms2) ->
  ends (runLoop ((MMutation <$> ms1) ++ MRotationComplete id ack :: (MMutation <$> ms2))) s
    (fun r s' => r = Ok () /\ writer_ok may any_snapshot h0 PIdle o id k s' /\
                 acked (sent (mem s')) = acked (sent (mem s)) ++ (mRecord <$> ms1 ++ ms2))
    (crash_ok may any_snapshot h0 o).
Proof.
  intros Hw Hho Hl Hid [Hf1 Hf2]%Forall_app. apply runLoop_app. unfold ends at 1.
  rewrite hold_queue; [|apply Hw|rewrite Hho; done]. rewrite Hho. simpl app.
  set (s1 := mkSys _ _ _).
  assert (writer_ok may any_snapshot h0 PRenamed o c (length ms2 + k) s1) as Hw1.
  { destruct s as [d sc w]. unfold s1.
    eapply (writer_ok_same h0 PRenamed o c c); eauto; simpl in *; [rewrite Hho; simpl; lia|done|apply Hw]. }
  apply ends_bind. eapply ends_mono; [by apply (handleRotationComplete_ok (may := may) (SM := any_snapshot) h0 o c (length ms2 + k))| |done].
  intros r s2 (-> & Hw2 & _ & Hack).
  eapply ends_mono; [apply (run_idle (may := may) (SM := any_snapshot) h0 o id k ms2 s2 Hw2 Hf2)| |done].
  intros r s3 (-> & Hw3 & Hack3). split_and!; auto. rewrite Hack3, Hack.
  by rewrite fmap_app, app_assoc.
Qed.
End order.

(** ** Idempotence of the control messages *)

Ltac answered :=
  split; [done|]; right; eexists _, _; simpl; split; cycle 1; [apply lookup_insert_eq|done].

Section idempotence.
Context {J : Json}.

Inductive control_kind : Type := KStartSealing | KFinishRotation | KRotationComplete.

Definition control_msg (kd : control_kind) (id : N) (ack : nat) : Msg :=
  match kd with
  | KStartSealing => MStartSealing id ack
  | KFinishRotation => MFinishRotation id ack
  | KRotationComplete => MRotationComplete id ack
  end.

(** The same answer on another channel. *)
Definition rechannel (ack : nat) (v : Sent) : Sent :=
  match v with
  | SentUint _ b => SentUint ack b
  | SentErr _ e => SentErr ack e
  | SentResult m e => SentResult m e
  end.

(** The answer that the cache holds for a control message. *)
Definition cached (kd : control_kind) (ack : nat) (res : controlResult) : Sent :=
  match kd with
  | KStartSealing => SentUint ack (crBoundary res)
  | KFinishRotation => SentUint ack (crLastTmp res)
  | KRotationComplete => SentErr ack (crErr res)
  end.

Lemma handle_cached kd id ack res (s : Sys Writer) :
  controlRes (mem s) !! id = Some res ->
  handle (control_msg kd id ack) s
    = Done (Ok ()) (mkSys (disk s) (io s) (send (cached kd ack res) (mem s))).
Proof.
  intros Hid. destruct kd; simpl;
    unfold handleStartSealing, handleFinishRotation, handleRotationComplete, mbind, sys_bind, get_mem;
    by rewrite Hid.
Qed.

Lemma ends_sync_close {A} f (p : sys Writer A) (s : Sys Writer) P Q :
  (forall e, ends p (mkSys (disk s) e (mem s)) P Q) -> (forall d, Q d (mem s)) ->
  ends (attempt (FSync f);; attempt FClose;; p) s P Q.
Proof.
  intros Hp HQ. apply ends_bind, ends_attempt, (ends_sync (fun _ => True)); auto; [by apply Forall_true|..]; intros;
    apply ends_bind, ends_attempt, ends_idle; auto.
Qed.

Lemma append_no_err m f (s : Sys Writer) :
  ends (append m f) s (fun r _ => r = Ok ()) (fun _ _ => True).
Proof.
  unfold append. destruct f as [name|]; [|by apply ends_modify].
  apply ends_bind, ends_modify, ends_bind, ends_get, ends_bind, ends_attempt.
  unfold ends at 1. destruct (writeLine _ _ _) as [r s'|]; [|done].
  apply ends_bind, ends_modify. destruct r; [|by apply ends_modify].
  by apply ends_bind, ends_modify, ends_modify.
Qed.

Lemma drain_no_err (ms : list Mutation) (s : Sys Writer) :
  ends (drain ms) s (fun r _ => r = Ok ()) (fun _ _ => True).
Proof.
  revert s. induction ms as [|m ms IH]; intros s; [by apply ends_ret|].
  apply ends_bind, ends_get, ends_bind. eapply ends_mono; [apply append_no_err| |done].
  intros r s' ->. apply IH.
Qed.

(** A first control message is answered and the answer cached, or it changes
    nothing (its file could not be opened). *)
Lemma handle_first kd id ack (s : Sys Writer) :
  controlRes (mem s) !! id = None ->
  ends (handle (control_msg kd id ack)) s
    (fun r s' => r = Ok () /\
       (mem s' = mem s /\ disk s' = disk s \/
        exists res l, sent (mem s') = l ++ [cached kd ack res] /\
                      controlRes (mem s') !! id = Some res))
    (fun _ _ => True).
Proof.
  intros Hid. destruct kd; simpl;
    unfold handleStartSealing, handleFinishRotation, handleRotationComplete;
    apply ends_bind, ends_get; rewrite Hid.
  - destruct (state (mem s)).
    2,3: apply ends_modify; answered.
    apply ends_bind, ends_attempt, (ends_change (fun _ => True)); [by apply Forall_true|done| | |done];
      [intros e _ _|intros q e _ _ _; apply ends_ret; auto].
    apply ends_bind, ends_modify, ends_bind. destruct (active (mem s)).
    + apply ends_sync_close; [|done]. intros e'. apply ends_modify, ends_modify. answered.
    + apply ends_ret, ends_modify. answered.
  - apply ends_bind. destruct (tmp (mem s)).
    + apply ends_sync_close; [|done]. intros e'. apply ends_modify, ends_modify. answered.
    + apply ends_ret, ends_modify. answered.
  - apply ends_bind, ends_attempt, (ends_change (fun _ => True)); [by apply Forall_true|done| | |done];
      [intros e _ _|intros q e _ _ _; apply ends_ret; auto].
    apply ends_bind, ends_modify, ends_bind. eapply ends_mono; [apply drain_no_err| |done].
    intros r s' ->. apply ends_modify. answered.
Qed.

(** Control messages are idempotent: once a message has been answered,
    handling it again, in any later state of the writer and whatever the disk
    does, gives the same answer on the new channel and changes nothing else; a
    message that was not answered changed nothing, so it can be sent again. *)
Theorem control_idempotent kd id ack (s s1 : Sys Writer) r :
  controlRes (mem s) !! id = None ->
  handle (control_msg kd id ack) s = Done r s1 ->
  r = Ok () /\
  (mem s1 = mem s /\ disk s1 = disk s \/
   exists v l, sent (mem s1) = l ++ [v] /\
     forall ack2 (s2 : Sys Writer), controlRes (mem s2) !! id = controlRes (mem s1) !! id ->
       handle (control_msg kd id ack2) s2
         = Done (Ok ()) (mkSys (disk s2) (io s2) (send (rechannel ack2 v) (mem s2)))).
Proof.
  intros Hid Hh. pose proof (handle_first kd id ack s Hid) as He. unfold ends in He.
  rewrite Hh in He. destruct He as [-> [He|(res & l & Hs & Hc)]]; split; auto.
  right. exists (cached kd ack res), l. split; [done|]. intros ack2 s2 H2.
  rewrite (handle_cached kd id ack2 res) by congruence. by destruct kd.
Qed.
End idempotence.

(** ** Concrete runs *)

(** A WAL just opened on an empty directory, with a hold limit of 2. *)
Definition fresh_disk : Disk := <[activeWALName := []]> ∅.
Definition fresh_writer : Writer :=
  set_files (Some activeWALName) None
    (newWriter (mkConfig 1024 2000 100000 2 100 5000 5 false) 0).

Definition put (k : string) (ch : nat) : Mutation := mkMutation (store_record OpPut k "v" 0) ch.

Definition any_record (r : Record_) : Prop := True.

Lemma put_fits k ch : m_fits any_record (put k ch).
Proof. by split_and!. Qed.

Lemma fresh_img : img None [] [] fresh_disk.
Proof. split_and!; try done. apply (decodes_full []). Qed.

Lemma fresh_ok SM k sc :
  covers (SnapshotMeaning := SM) [] None -> no_bad sc -> (N.of_nat k + 1 < 2 ^ 64)%N ->
  writer_ok any_record SM [] PIdle None 0 k (boot fresh_disk sc fresh_writer).
Proof.
  intros Hcov Hsc Hk. unfold writer_ok. simpl. split_and!; auto; try done; try lia.
  exists []. split_and!; try done. constructor; [exact fresh_img|constructor].
Qed.

(** It is the sync that makes a record durable: after the write alone a crash can
    leave the file as it was, or with part of the line; after the sync nothing but the
    whole line. *)
Example sync_needed :
  match WriteAppend activeWALName (line (mRecord (put "a" 0))) (boot fresh_disk [] ()) with
  | Done _ s =>
      bool_decide (fresh_disk ∈ remains s) = true /\
      bool_decide (<[activeWALName := take 5 (line (mRecord (put "a" 0)))]> fresh_disk ∈ remains s) = true /\
      match FSync activeWALName s with Done _ s' => remains s' = [disk s] | Crashed _ _ => False end
  | Crashed _ _ => False
  end.
Proof. vm_compute. auto. Qed.

(** The opened writer is the one that [Open] starts. *)
Example open_fresh :
  match Open (mkConfig 1024 2000 100000 2 100 5000 5 false)
          (good_hooks trace_load trace_step trace_snap) (boot ∅ [] ([], [])) with
  | Done r s => r = Ok () /\ writer (mem s).2 = fresh_writer /\ disk s = fresh_disk
  | Crashed _ _ => False
  end.
Proof. vm_compute. auto. Qed.

(** The machine crashes in the sync of the second record: of the images possible then
    it leaves one with the first bytes of its line. *)
Lemma acked_survive_witness :
  (match runLoop (MMutation <$> [put "a" 0; put "b" 1]) (boot fresh_disk [Good; Good; Good; CrashAt 4] fresh_writer) with
   | Done r s' => False
   | Crashed d w => exists extra, length extra <= 1 /\
       recovers trace_load trace_step trace_snap (number 0 (acked (sent w) ++ extra)) None d /\
       length (acked (sent w)) = 1
   end) /\
  (match runLoop (MMutation <$> [put "a" 0; put "b" 1]) (boot fresh_disk [] fresh_writer) with
   | Done r s' => r = Ok () /\ length (acked (sent (mem s'))) = 2 /\
       forall d, d ∈ remains s' -> recovers trace_load trace_step trace_snap (number 0 (acked (sent (mem s')))) None d
   | Crashed d w => False
   end).
Proof.
  split.
  - pose proof (acked_survive trace_load trace_step trace_snap any_record [] PIdle None 0 [put "a" 0; put "b" 1]
      (boot fresh_disk [Good; Good; Good; CrashAt 4] fresh_writer)) as H.
    destruct (runLoop _ _) as [r s'|d w] eqn:E; [by vm_compute in E|].
    destruct H as (extra & Hl & _ & Hr).
    + apply fresh_ok; [done|repeat constructor|done].
    + repeat constructor.
    + exists extra. split; [exact Hl|]. split; [exact Hr|].
      vm_compute in E. injection E as <- <-. reflexivity.
  - pose proof (acked_survive trace_load trace_step trace_snap any_record [] PIdle None 0 [put "a" 0; put "b" 1]
      (boot fresh_disk [] fresh_writer)) as H.
    destruct (runLoop _ _) as [r s'|d w] eqn:E; [|by vm_compute in E].
    destruct H as (Hr & Hd).
    + apply fresh_ok; [done|constructor|done].
    + repeat constructor.
    + split; [exact Hr|]. split; [|exact Hd]. vm_compute in E. injection E as <- <-. reflexivity.
Defined.

(** *** A store of keys and values *)

Abbreviation KV := (gmap string snapEntry).
Definition kv_step (m : KV) (r : Record_) : KV :=
  match op r with
  | OpPut => <[rkey r := mkSnapEntry (val r) 0]> m
  | OpDelete => delete (rkey r) m
  | _ => m
  end.
Definition kv_load (m : KV) (es : list SnapshotEntry) : KV :=
  foldl (fun d e => <[skey e := mkSnapEntry (sval e) (sexp e)]> d) m es.
Definition kv_entries (m : KV) : list SnapshotEntry :=
  (fun p => mkSnapshotEntry p.1 (snVal p.2) (snExp p.2)) <$> map_to_list m.
Definition kv_snap (m : KV) : result (list SnapshotEntry) := Ok (kv_entries m).

(** The snapshot of the store that has applied what was acknowledged. *)
Definition kv_snapshotFn (x : WAL) : result (list SnapshotEntry) :=
  Ok (kv_entries (foldl kv_step ∅ (logged_since [] x))).

Lemma kv_load_entries (m : KV) : kv_load ∅ (kv_entries m) = m.
Proof.
  unfold kv_load, kv_entries. rewrite <- (list_to_map_to_list m) at 2.
  assert (forall (l : list (string * snapEntry)) (m0 : KV), NoDup l.*1 ->
    foldl (fun d e => <[skey e := mkSnapEntry (sval e) (sexp e)]> d) m0
      ((fun p => mkSnapshotEntry p.1 (snVal p.2) (snExp p.2)) <$> l) = list_to_map l ∪ m0) as H.
  { induction l as [|[k e] l IH]; intros m0 Hn; cbn [fmap list_fmap foldl list_to_map foldr fst snd skey sval sexp uncurry] in *.
    { symmetry. apply (left_id_L ∅ (∪)). }
   
    apply NoDup_cons in Hn as [Hk Hn]. rewrite IH by done. rewrite <- insert_union_l, insert_union_r; [by destruct e|].
    by apply not_elem_of_list_to_map_1. }
  rewrite H by apply NoDup_fst_map_to_list. apply (right_id_L ∅ (∪)).
Qed.

(** What the last of the records about [k] makes of it. *)
Definition kv_effect (k : string) (l : list Record_) : option (option snapEntry) :=
  foldl (fun a r => if decide (rkey r = k)
                    then match op r with
                         | OpPut => Some (Some (mkSnapEntry (val r) 0))
                         | OpDelete => Some None
                         | _ => a
                         end
                    else a) None l.

Lemma kv_lookup (m : KV) l k : foldl kv_step m l !! k = default (m !! k) (kv_effect k l).
Proof.
  induction l as [|r l IH] using rev_ind; [done|]. unfold kv_effect in *. rewrite !foldl_snoc. unfold kv_step at 1.
  destruct (op r); rewrite ?lookup_insert, ?lookup_delete; case_decide; done.
Qed.

Lemma kv_idempotent : replay_idempotent kv_step ∅.
Proof.
  intros l1 l2. apply map_eq. intros k. rewrite kv_lookup, foldl_app, !(kv_lookup (foldl kv_step ∅ l1)).
  by destruct (kv_effect k l2).
Qed.

Lemma kv_current : snapshots_current kv_load kv_step ∅ kv_snapshotFn [].
Proof.
  intros x es [= <-] Hb. exists (length (logged_since [] x)). split; [lia|]. rewrite take_ge by done.
  unfold snapshotEntries. cbn [Data from_option id].
  transitivity (kv_load ∅ (kv_entries (kv_load ∅ (kv_entries (foldl kv_step ∅ (logged_since [] x)))))); [done|].
  by rewrite !kv_load_entries.
Qed.

Definition sample_wal (sc : list outcome) : Sys WAL :=
  boot fresh_disk sc
    (mkWAL fresh_writer (newManager DefaultConfig) false 10
       (feed_of [[put "a" 0]; [put "b" 1; put "c" 2]; [put "d" 3; put "e" 4]])).

Abbreviation kv_meaning := (store_meaning kv_load kv_step ∅).

Lemma sample_wal_ok sc : no_bad sc -> wal_ok any_record kv_meaning [] PIdle None 3 (sample_wal sc).
Proof.
  intros Hsc. exists [[put "a" 0]; [put "b" 1; put "c" 2]; [put "d" 3; put "e" 4]].
  split; [done|]. split; [repeat constructor|]. split; [by apply fresh_ok|]. split; [done|].
  vm_compute. discriminate.
Qed.

Lemma kv_work : snapshots_work kv_snapshotFn.
Proof. intros x b. by eexists. Qed.

(** A rotation that ends, and one that crashes while the manager syncs the snapshot,
    with three records in the log by then. *)
Lemma rotation_crash_safe_witness :
  (match rotateOnce kv_snapshotFn (sample_wal []) with
   | Done r s' => r = Ok () /\
       forall d, d ∈ remains s' -> restores kv_load kv_step kv_snap ∅ (logged_since [] (mem s')) d
   | Crashed d x => False
   end) /\
  (match rotateOnce kv_snapshotFn (sample_wal [Good; Good; Good; Good; Good; Good; Good; CrashAt 4]) with
   | Done r s' => False
   | Crashed d x => exists extra, length extra <= 1 /\
       restores kv_load kv_step kv_snap ∅ (number 0 (acked (sent (writer x)) ++ extra)) d
   end).
Proof.
  split.
  - pose proof (rotation_crash_safe kv_load kv_step kv_snap ∅ any_record kv_snapshotFn [] None 0
      (sample_wal []) kv_idempotent kv_work kv_current (sample_wal_ok [] ltac:(constructor))) as H.
    destruct (rotateOnce kv_snapshotFn (sample_wal [])) as [r s'|d x] eqn:E; [|by vm_compute in E].
    destruct H as (Hr & _ & H). split; [exact Hr|exact H].
  - pose proof (rotation_crash_safe kv_load kv_step kv_snap ∅ any_record kv_snapshotFn [] None 0
      (sample_wal [Good; Good; Good; Good; Good; Good; Good; CrashAt 4]) kv_idempotent kv_work kv_current
      (sample_wal_ok [Good; Good; Good; Good; Good; Good; Good; CrashAt 4] ltac:(repeat constructor))) as H.
    destruct (rotateOnce kv_snapshotFn (sample_wal _)) as [r s'|d x] eqn:E; [by vm_compute in E|].
    destruct H as (extra & Hl & _ & H). exists extra. split; [exact Hl|exact H].
Defined.

Definition rotating_writer : Writer :=
  set_state StateROTATING (set_files None None fresh_writer).

Lemma hold_fifo_witness :
  ends (runLoop ((MMutation <$> [put "a" 0; put "b" 1]) ++
                 MRotationComplete 1 7 :: (MMutation <$> [put "c" 2])))
    (boot fresh_disk [] rotating_writer)
    (fun r s' => r = Ok () /\ writer_ok any_record any_snapshot [] PIdle None 1 0 s' /\
                 acked (sent (mem s')) = mRecord <$> [put "a" 0; put "b" 1; put "c" 2])
    (crash_ok any_record any_snapshot [] None).
Proof.
  apply (hold_fifo any_record [] None 0 0 1 7 [put "a" 0; put "b" 1] [put "c" 2]).
  - unfold writer_ok. simpl. split_and!; auto; try done; try constructor. exists []. split_and!; try done.
    constructor; [exact fresh_img|constructor].
  - reflexivity.
  - simpl. lia.
  - lia.
  - repeat constructor.
Defined.

Lemma control_idempotent_witness :
  exists s1 v l,
    handle (control_msg KStartSealing 1 7) (boot fresh_disk [] fresh_writer) = Done (Ok ()) s1 /\
    sent (mem s1) = l ++ [v] /\
    handle (control_msg KStartSealing 1 8) s1
      = Done (Ok ()) (mkSys (disk s1) (io s1) (send (rechannel 8 v) (mem s1))).
Proof.
  destruct (handle (control_msg KStartSealing 1 7) (boot fresh_disk [] fresh_writer)) as [r s1|d w] eqn:E;
    [|by vm_compute in E].
  destruct (control_idempotent KStartSealing 1 7 (boot fresh_disk [] fresh_writer) s1 r)
    as (Hr & [[_ Hd]|(v & l & Hs & H)]).
  - reflexivity.
  - exact E.
  - exfalso. vm_compute in E. injection E as <- <-. vm_compute in Hd. discriminate.
  - subst r. exists s1, v, l. split; [reflexivity|]. split; [exact Hs|]. by apply H.
Defined.

(** ** Where durability falls short *)

(** An append that fails has used up its index and may have left part of its
    line: the writer goes on and acknowledges the next record, and from then on
    the directory cannot be recovered. *)
Theorem failed_append_poisons :
  exists s' w', runLoop (MMutation <$> [put "a" 0; put "b" 1]) (boot fresh_disk [Bad 0] fresh_writer)
              = Done (Ok ()) s' /\ mem s' = w' /\
    sent w' = [SentResult (put "a" 0) (Some IOError); SentResult (put "b" 1) None] /\
    exists s2, Recover (good_hooks trace_load trace_step trace_snap) (boot (disk s') [] ([], []))
                 = Done (Err (Wrapped "wal: index gap")) s2.
Proof. do 2 eexists. split; [vm_compute; reflexivity|]. split; [reflexivity|]. split; [reflexivity|].
  eexists. vm_compute. reflexivity.
Qed.
