(* ===== verification/WalHooks.v ===== *)
(** * Recovery into a store that can refuse records

    The recovery theorems are about stores that accept everything. A store whose
    hooks can fail is reduced to one that does not: it notes the first error and
    ignores what follows. If none was noted, both recover alike, crashes
    included. Also here: what recovery leaves alone on the disk. *)

From S2P Require Import Prelude WalTypes Os WalRecovery WalRecoveryProps WalRecoveryThms WalWriter WalThms.

(** ** Noting errors *)

Section tolerant.
Context {J : Json} {S : Type}.

Definition noting (f : S -> option error * S) (p : option error * S) : option error * S :=
  match p.1 with Some _ => p | None => f p.2 end.

Context (load : list SnapshotEntry -> S -> option error * S) (apply : Record_ -> S -> option error * S).

Definition noting_hooks (snap : S -> result (list SnapshotEntry)) : Hooks (option error * S) :=
  good_hooks (fun p es => noting (load es) p) (fun p r => noting (apply r) p) (fun p => snap p.2).

(** [m] does what [m'] does in a machine whose calls succeed until it crashes, as
    long as [m'] notes no error when no call fails; a noted error stays. *)
Definition sim {A} (m : sys S A) (m' : sys (option error * S) A) : Prop :=
  (forall d sc l x r s1, no_bad sc -> m' (mkSys d (mkMachine [] l) (None, x)) = Done r s1 -> (mem s1).1 = None ->
     script s1 = [] /\
     match m (mkSys d (mkMachine sc l) x) with
     | Done r' s' => r' = r /\ s' = mkSys (disk s1) (io s') (mem s1).2 /\ images (io s') = images (io s1) /\
         no_bad (script s') /\ (sc = [] -> script s' = []) /\
         m' (mkSys d (mkMachine sc l) (None, x)) = Done r (mkSys (disk s1) (io s') (mem s1))
     | Crashed d' _ => exists y, m' (mkSys d (mkMachine sc l) (None, x)) = Crashed d' y
     end) /\
  (forall s r s', m' s = Done r s' -> (mem s).1 <> None -> (mem s').1 <> None).

Lemma sim_bind {A B} (m : sys S A) m' (f : A -> sys S B) f' :
  sim m m' -> (forall a, sim (f a) (f' a)) -> sim (m ≫= f) (m' ≫= f').
Proof.
  intros [H1 H2] Hf. unfold mbind, sys_bind. split.
  - intros d sc l x r s1 Hsc E Hn.
    destruct (m' (mkSys d (mkMachine [] l) (None, x))) as [[a|e] [d1 [sc1 l1] [e1 x1]]|] eqn:Em; [| |done].
    + destruct e1 as [e1|]; [exfalso; apply (proj2 (Hf a) _ _ _ E); [done|exact Hn]|].
      destruct (H1 _ _ _ _ _ _ Hsc Em eq_refl) as [Hq H]. unfold script in Hq. cbn [io outcomes] in Hq. subst sc1.
      destruct (m (mkSys d (mkMachine sc l) x)) as [r' [d' [sc' l'] x']|d' x'].
      * destruct H as (-> & [= -> ->] & Hl & Hsc' & Hnil & ->). unfold script in Hsc', Hnil.
        cbn [io images outcomes disk mem snd] in *. subst l'.
        destruct (proj1 (Hf a) _ _ _ _ _ _ Hsc' E Hn) as [Hq2 H']. split; [done|].
        destruct (f a _) as [r2 s2|d2 x2]; [|done]. destruct H' as (-> & Hs2 & Hl2 & Hnb & Hnil' & E'). split_and!; auto.
      * destruct H as [y ->]. split; [|by exists y]. by apply (proj1 (Hf a) d1 [] l1 x1 r s1); [constructor|..].
    + injection E as <- <-. destruct (H1 _ _ _ _ _ _ Hsc Em Hn) as [Hq H]. split; [done|].
      destruct (m (mkSys d (mkMachine sc l) x)) as [r' s'|d' x']; [|by destruct H as [y ->]; exists y].
      destruct H as (-> & Hs' & Hl & Hnb & Hnil & ->). done.
  - intros s r s' E Hn. destruct (m' s) as [[a|e] s1|] eqn:Em; [| |done].
    + eapply (proj2 (Hf a)); [exact E|]. by eapply H2.
    + injection E as <- <-. by eapply H2.
Qed.

(** A computation that does not look at the store. *)
Lemma sim_ret {A} (a : A) : sim (mret a) (mret a).
Proof. split; [by intros d sc l x r s1 Hsc [= <- <-]|by intros s r s' [= <- <-]]. Qed.
Lemma sim_fail {A} e : sim (A := A) (fail e) (fail e).
Proof. split; [by intros d sc l x r s1 Hsc [= <- <-]|by intros s r s' [= <- <-]]. Qed.
Lemma sim_respond ok bad crash :
  sim (fun s => respond (ok (disk s) (images (io s))) (bad (disk s) (images (io s))) (crash (disk s) (images (io s))) s)
      (fun s => respond (ok (disk s) (images (io s))) (bad (disk s) (images (io s))) (crash (disk s) (images (io s))) s).
Proof.
  unfold respond, script. split.
  - intros d sc l x r s1 Hsc [= <- <-] Hn. cbn [io outcomes images disk mem]. split; [done|].
    destruct sc as [|[] sc]; [done| | |by eexists].
    + split_and!; try done. by apply Forall_inv_tail in Hsc.
    + by apply Forall_inv in Hsc.
  - intros s r s' E Hn. by destruct (outcomes (io s)) as [|[]]; inversion E; subst.
Qed.
Lemma sim_change good part spread : sim (change good part spread) (change good part spread).
Proof.
  apply (sim_respond (fun d l => (good d, others (good d) ((d :: l) ++ ((d :: l) ≫= spread d))))
    (fun d l n => (part n d, (d :: l) ++ ((d :: l) ≫= spread d))) (fun d l => (d :: l) ++ ((d :: l) ≫= spread d))).
Qed.
Lemma sim_sync keep : sim (sync keep) (sync keep).
Proof.
  apply (sim_respond (fun d l => (d, synced keep d l)) (fun d l _ => (d, l)) (fun d l => d :: l)).
Qed.
Lemma sim_idle : sim idle idle.
Proof. apply (sim_respond (fun d l => (d, l)) (fun d l _ => (d, l)) (fun d l => d :: l)). Qed.
Lemma sim_exists name : sim (exists_file name) (exists_file name).
Proof. split; [by intros d sc l x r s1 Hsc [= <- <-]|by intros s r s' [= <- <-]]. Qed.
Lemma sim_content name : sim (content name) (content name).
Proof.
  unfold content. split.
  - intros d sc l x r s1 Hsc E Hn. cbn [disk] in *. by destruct (d !! name); injection E as <- <-.
  - intros s r s' E Hn. by destruct (disk s !! name); injection E as <- <-.
Qed.
Lemma sim_attempt {A} (m : sys S A) m' : sim m m' -> sim (attempt m) (attempt m').
Proof.
  intros [H1 H2]. unfold attempt. split.
  - intros d sc l x r s1 Hsc E Hn. destruct (m' (mkSys d (mkMachine [] l) (None, x))) as [r1 s1'|] eqn:Em; [|done]. injection E as <- <-.
    destruct (H1 _ _ _ _ _ _ Hsc Em Hn) as [Hq H]. split; [done|]. destruct (m (mkSys d (mkMachine sc l) x)) as [r' s'|d' x'].
    + destruct H as (-> & Hs' & Hl & Hnb & Hnil & ->). done.
    + destruct H as [y ->]. by exists y.
  - intros s r s' E Hn. destruct (m' _) as [r1 s1|] eqn:Em; [|done]. injection E as <- <-. by eapply H2.
Qed.
Lemma sim_wrap {A} t (m : sys S A) m' : sim m m' -> sim (wrap t m) (wrap t m').
Proof.
  intros [H1 H2]. unfold wrap. split.
  - intros d sc l x r s1 Hsc E Hn.
    destruct (m' (mkSys d (mkMachine [] l) (None, x))) as [[a|e] s1'|] eqn:Em; [| |done]; injection E as <- <-;
      destruct (H1 _ _ _ _ _ _ Hsc Em Hn) as [Hq H]; (split; [done|]); destruct (m (mkSys d (mkMachine sc l) x)) as [r' s'|d' x'].
    1, 3: by destruct H as (-> & Hs' & Hl & Hnb & Hnil & ->).
    all: by destruct H as [y ->]; exists y.
  - intros s r s' E Hn. destruct (m' _) as [[a|e] s1|] eqn:Em; [| |done]; injection E as <- <-; by eapply H2.
Qed.
Lemma sim_hook (f : S -> option error * S) : sim (run_hook f) (run_hook (fun p => (None, noting f p))).
Proof.
  unfold run_hook, get_mem, put_mem, mbind, sys_bind, noting. split.
  - intros d sc l x r s1 Hsc. cbn [mem io disk fst snd]. destruct (f x) as [[e|] x'] eqn:Ef; intros [= <- <-]; done.
  - intros s r s' E Hn. inversion E; subst. simpl. destruct ((mem s).1) eqn:E1; [by rewrite E1|done].
Qed.

Create HintDb sim.
#[local] Hint Resolve sim_ret sim_fail sim_change sim_sync sim_idle sim_exists sim_content sim_attempt sim_wrap sim_hook : sim.
Ltac sim_prim := first [apply sim_change | apply sim_sync | apply sim_idle].
Ltac sim_step := first [solve [eauto with sim] | apply sim_bind | apply sim_attempt | apply sim_wrap].
Ltac sim_go := repeat (sim_step; intros); try solve [eauto with sim].

Lemma sim_ReadFile name : sim (ReadFile name) (ReadFile name).
Proof. unfold ReadFile. sim_go. Qed.
Lemma sim_OpenExisting name : sim (OpenExisting name) (OpenExisting name).
Proof. unfold OpenExisting. sim_go. Qed.
#[local] Hint Resolve sim_ReadFile sim_OpenExisting : sim.

Let f : Record_ -> S -> option error * S := apply.
Let f' := fun (r : Record_) (p : option error * S) => (None : option error, noting (apply r) p).

Lemma sim_replayRec last rec : sim (replayRec (Some f) last rec) (replayRec (Some f') last rec).
Proof.
  unfold replayRec. destruct (validateRec rec last); [apply sim_fail|]. case_match; [|apply sim_ret].
  apply sim_bind; [apply sim_hook|]. intros. apply sim_ret.
Qed.

Lemma sim_replayLines lines last : sim (replayLines (Some f) last lines) (replayLines (Some f') last lines).
Proof.
  revert last. induction lines as [|line lines IH]; intros last; [apply sim_ret|]. cbn [replayLines].
  case_match; [apply sim_fail|]. destruct (json_unrecord line); [|apply sim_fail]. apply sim_bind; [apply sim_replayRec|done].
Qed.

Lemma sim_replayWALFile path last : sim (replayWALFile path last (Some f)) (replayWALFile path last (Some f')).
Proof.
  unfold replayWALFile. apply sim_bind; [apply sim_ReadFile|]. intros data. case_match; [apply sim_ret|].
  destruct (splitFile data) as [lines partial]. apply sim_bind; [apply sim_replayLines|]. intros last1.
  case_match; [apply sim_ret|]. destruct (json_unrecord partial) as [rec|].
  - apply sim_bind; [apply sim_replayRec|]. intros last2. apply sim_bind; [apply sim_OpenExisting|]. intros _.
    apply sim_bind; [apply sim_attempt; sim_prim|]. intros [u|e]; (apply sim_bind; [|intros; first [apply sim_ret|apply sim_fail]]);
      [sim_prim|apply sim_attempt; sim_prim].
  - apply sim_bind; [sim_prim|]. intros. apply sim_ret.
Qed.

Lemma sim_copyInto out p : sim (copyInto out p) (copyInto out p).
Proof.
  unfold copyInto. apply sim_bind; [apply sim_exists|]. intros []; [|apply sim_ret].
  apply sim_bind; [apply sim_attempt, sim_OpenExisting|]. intros [u|e].
  - apply sim_bind; [apply sim_content|]. intros b. apply sim_bind; [apply sim_attempt; sim_prim|].
    intros [|]; sim_go; sim_prim.
  - sim_go; sim_prim.
Qed.

Lemma sim_rebuildActive a t : sim (rebuildActive a t) (rebuildActive a t).
Proof.
  unfold rebuildActive. apply sim_bind; [sim_prim|]. intros _. apply sim_bind; [apply sim_copyInto|]. intros _.
  apply sim_bind; [apply sim_copyInto|]. intros _. apply sim_bind; [apply sim_attempt; sim_prim|]. intros [|]; sim_go; sim_prim.
Qed.

Lemma sim_Recover snap :
  sim (Recover (mkHooks (Some load) (Some apply) snap)) (Recover (noting_hooks snap)).
Proof.
  unfold Recover, noting_hooks, good_hooks. cbn [hApplySnapshot hApplyRecord]. apply sim_bind.
  { unfold dropSnapshotTmp. apply sim_bind; [apply sim_exists|]. intros []; sim_go; sim_prim. }
  intros _. apply sim_bind.
  { unfold loadSnapshot. cbn [hApplySnapshot]. apply sim_bind; [apply sim_exists|]. intros []; [|apply sim_ret].
    apply sim_bind.
    - apply sim_wrap. unfold readSnapshot. apply sim_bind; [apply sim_ReadFile|]. intros b.
      destruct (json_unsnapshot b); [apply sim_ret|apply sim_fail].
    - intros sn. apply sim_bind; [apply sim_hook|]. intros. apply sim_ret. }
  intros last. apply sim_bind; [apply sim_exists|]. intros e1. apply sim_bind; [destruct e1; [apply sim_replayWALFile|apply sim_ret]|].
  intros last1. apply sim_bind; [apply sim_exists|]. intros e2. apply sim_bind; [destruct e2; [apply sim_replayWALFile|apply sim_ret]|].
  intros last2. apply sim_bind; [destruct e2; [apply sim_rebuildActive|apply sim_ret]|]. intros. apply sim_ret.
Qed.

(** Recovery into a store that accepts the snapshot and the records after it, in a
    machine that may crash. *)
Lemma Recover_onto {JL : JsonLaws} h o n snap (d : Disk) sc (x y : S) :
  history h -> holds h o n d -> no_bad sc ->
  foldl (fun p r => noting (apply r) p)
    (match o with Some sd => noting (load (snapshotEntries sd)) (None, x) | None => (None, x) end)
    (span h (boundary o) n) = (None, y) ->
  match Recover (mkHooks (Some load) (Some apply) snap) (boot d sc x) with
  | Done r s' => r = Ok (N.of_nat n) /\ mem s' = y /\ no_bad (script s') /\ (sc = [] -> script s' = []) /\
      disk s' !! tmpWALName = None /\
      exists L, framed (disk s') activeWALName L /\ chain h (boundary o) L n /\ Forall (img o L []) (remains s')
  | Crashed d' _ => holds h o n d' /\ sc <> []
  end.
Proof.
  intros Hh Hd Hsc Hy. pose proof (holds_disks _ _ _ _ Hd) as Hds.
  pose proof (Recover_ends (fun p es => noting (load es) p) (fun p r => noting (apply r) p) h o n
    (fun p => snap p.2) (boot d [] (None, x)) Hh Hds) as He.
  pose proof (Recover_ends (fun p es => noting (load es) p) (fun p r => noting (apply r) p) h o n
    (fun p => snap p.2) (boot d sc (None, x)) Hh Hds) as Hc.
  unfold ends in He, Hc. fold (noting_hooks snap) in He, Hc.
  destruct (Recover (noting_hooks snap) (boot d [] (None, x))) as [r s'|d' m'] eqn:E; [|by destruct He as [_ []]].
  destruct r as [v|e]; [|by destruct He as [[] _]]. destruct He as (-> & Hm & Ht & Ha & _).
  assert (mem s' = (None, y)) as Hm' by (rewrite Hm; exact Hy).
  destruct (proj1 (sim_Recover snap) d sc [] x _ _ Hsc E) as [Hq H]; [by rewrite Hm'|].
  unfold boot in *. destruct (Recover (mkHooks _ _ snap) (mkSys d (mkMachine sc []) x)) as [r2 s2|d2 x2].
  - destruct H as (-> & Hs2 & Hl & Hnb & Hnil & _). destruct s2 as [d2 io2 x2]. injection Hs2 as -> ->. rewrite Hm'.
    cbn [io] in Hl. unfold remains in *. cbn [disk io] in *. by rewrite Hl.
  - destruct H as [z Hz]. rewrite Hz in Hc. exact Hc.
Qed.

(** The same without a snapshot. *)
Lemma Recover_into {JL : JsonLaws} h n snap (d : Disk) (x y : S) :
  history h -> holds h None n d ->
  foldl (fun p r => noting (apply r) p) (None, x) (take n h) = (None, y) ->
  exists s', Recover (mkHooks (Some load) (Some apply) snap) (boot d [] x) = Done (Ok (N.of_nat n)) s' /\
    mem s' = y /\ script s' = [].
Proof.
  intros Hh Hd Hy. pose proof (Recover_onto h None n snap d [] x y Hh Hd ltac:(by constructor)) as H.
  unfold span in H. cbn [boundary] in H. rewrite Nat.sub_0_r, drop_0 in H. specialize (H Hy).
  destruct (Recover _ _) as [r s'|d' m]; [|by destruct H as [_ []]]. destruct H as (-> & Hm & _ & Hq & _). eauto.
Qed.
End tolerant.

(** ** Files that recovery does not touch *)

Section leaves.
Context {J : Json} {S : Type}.

Definition wal_files : list string := [snapshotTmpName; activeWALName; tmpWALName; rebuildTmpName].

Definition leaves {A} (m : sys S A) : Prop := forall s r s', m s = Done r s' ->
  forall k, k ∉ wal_files -> disk s' !! k = disk s !! k.

Lemma leaves_bind {A B} (m : sys S A) (g : A -> sys S B) : leaves m -> (forall a, leaves (g a)) -> leaves (m ≫= g).
Proof.
  intros Hm Hg s r s'. unfold mbind, sys_bind. destruct (m s) as [[a|e] s1|] eqn:E; [| |done].
  - intros E' k Hk. rewrite (Hg a _ _ _ E' k Hk). by eapply Hm.
  - intros [= <- <-]. by eapply Hm.
Qed.
Lemma leaves_ret {A} (a : A) : leaves (mret a).
Proof. by intros s r s' [= <- <-]. Qed.
Lemma leaves_fail {A} e : leaves (A := A) (fail e).
Proof. by intros s r s' [= <- <-]. Qed.
Lemma leaves_exists name : leaves (exists_file name).
Proof. by intros s r s' [= <- <-]. Qed.
Lemma leaves_content name : leaves (content name).
Proof. intros s r s'. unfold content. by case_match; intros [= <- <-]. Qed.
Lemma leaves_attempt {A} (m : sys S A) : leaves m -> leaves (attempt m).
Proof. intros Hm s r s'. unfold attempt. destruct (m s) eqn:E; [|done]. intros [= <- <-]. by eapply Hm. Qed.
Lemma leaves_wrap {A} t (m : sys S A) : leaves m -> leaves (wrap t m).
Proof. intros Hm s r s'. unfold wrap. destruct (m s) as [[]|] eqn:E; [| |done]; intros [= <- <-]; by eapply Hm. Qed.
Lemma leaves_hook (g : S -> option error * S) : leaves (run_hook g).
Proof.
  intros s r s'. unfold run_hook, get_mem, put_mem, mbind, sys_bind. simpl.
  destruct (g (mem s)) as [[e|] x]; intros E; by inversion E.
Qed.
Lemma leaves_change good part spread :
  (forall d k, k ∉ wal_files -> good d !! k = d !! k) -> (forall i d k, k ∉ wal_files -> part i d !! k = d !! k) ->
  leaves (change good part spread).
Proof. intros Hg Hp s r s'. unfold change, respond. destruct (script s) as [|[]]; intros E k Hk; inversion E; subst; simpl; auto. Qed.
Lemma leaves_sync keep : leaves (sync keep).
Proof. intros s r s'. unfold sync, respond. by destruct (script s) as [|[]]; intros E k Hk; inversion E; subst. Qed.
Lemma leaves_idle : leaves idle.
Proof. intros s r s'. unfold idle, respond. by destruct (script s) as [|[]]; intros E k Hk; inversion E; subst. Qed.

Lemma other_file k name : k ∉ wal_files -> name ∈ wal_files -> k <> name.
Proof. by intros H1 H2 ->. Qed.

Lemma leaves_append name b : name ∈ wal_files -> leaves (WriteAppend name b).
Proof.
  intros Hn. apply leaves_change; intros; unfold append_to; case_match; auto;
    rewrite lookup_insert_ne by (intros ->; by eapply other_file); done.
Qed.
Lemma leaves_trunc name : name ∈ wal_files -> leaves (OpenTrunc name).
Proof. intros Hn. apply leaves_change; intros; [rewrite lookup_insert_ne by (intros ->; by eapply other_file)|]; done. Qed.
Lemma leaves_truncate name i : name ∈ wal_files -> leaves (Truncate name i).
Proof.
  intros Hn. apply leaves_change; intros; [|done]. unfold truncate. case_match; [|done].
  rewrite lookup_insert_ne by (intros ->; by eapply other_file). done.
Qed.
Lemma leaves_remove name : name ∈ wal_files -> leaves (Remove name).
Proof. intros Hn. apply leaves_change; intros; [rewrite lookup_delete_ne by (intros ->; by eapply other_file)|]; done. Qed.
Lemma leaves_rename from to : from ∈ wal_files -> to ∈ wal_files -> leaves (Rename from to).
Proof.
  intros Hf Ht. apply leaves_change; intros; [|done]. unfold rename_disk. case_match; [|done].
  rewrite lookup_delete_ne, lookup_insert_ne by (intros ->; by eapply other_file). done.
Qed.
Lemma leaves_read name : leaves (ReadFile name).
Proof. apply leaves_bind; [apply leaves_idle|intros; apply leaves_content]. Qed.
Lemma leaves_open name : leaves (OpenExisting name).
Proof. apply leaves_bind; [apply leaves_idle|]. intros. apply leaves_bind; [apply leaves_content|intros; apply leaves_ret]. Qed.

Create HintDb leaves.
#[local] Hint Resolve leaves_ret leaves_fail leaves_exists leaves_content leaves_hook leaves_append leaves_idle leaves_sync leaves_trunc
  leaves_truncate leaves_remove leaves_rename leaves_read leaves_open : leaves.

(** Walks through a program by its binds, tests and matches. *)
Ltac leaves_go :=
  repeat first [ solve [eauto with leaves] | apply leaves_bind; [|intros] | apply leaves_attempt | apply leaves_wrap
               | case_match ].

Lemma leaves_replayRec f last rec : leaves (replayRec f last rec).
Proof. unfold replayRec. leaves_go. Qed.
#[local] Hint Resolve leaves_replayRec : leaves.

Lemma leaves_replayLines f lines last : leaves (replayLines f last lines).
Proof. revert last. induction lines as [|line lines IH]; intros last; cbn [replayLines]; leaves_go. Qed.
#[local] Hint Resolve leaves_replayLines : leaves.

Lemma leaves_replayWALFile path last f : path ∈ wal_files -> leaves (replayWALFile path last f).
Proof. intros Hp. unfold replayWALFile, FClose. leaves_go. Qed.

Lemma leaves_copyInto out p : out ∈ wal_files -> leaves (copyInto out p).
Proof. intros Ho. unfold copyInto, FClose. leaves_go. Qed.
#[local] Hint Resolve leaves_replayWALFile leaves_copyInto : leaves.

Lemma leaves_Recover hooks : leaves (Recover hooks).
Proof.
  assert (snapshotTmpName ∈ wal_files /\ activeWALName ∈ wal_files /\ tmpWALName ∈ wal_files /\ rebuildTmpName ∈ wal_files)
    as (? & ? & ? & ?) by (unfold wal_files; rewrite !elem_of_cons; tauto).
  unfold Recover, dropSnapshotTmp, loadSnapshot, readSnapshot, rebuildActive, FSync, FClose, syncDir. leaves_go.
Qed.
End leaves.
