(* ===== verification/WalQuiet.v ===== *)
(** * The WAL: what a rotation leaves alone

    A rotation during which no mutation arrives acknowledges none. *)

From S2P Require Import Prelude WalTypes Os WalRecovery WalWriter WalThms.

(** ** Relations that a program keeps, whatever its calls do *)

Section frames.
Context {S : Type} (R : relation S) {HR : PreOrder R}.

Definition frames {A} (m : sys S A) : Prop := forall s,
  match m s with Done _ s' => R (mem s) (mem s') | Crashed _ x => R (mem s) x end.

Lemma frames_bind {A B} (m : sys S A) (f : A -> sys S B) : frames m -> (forall a, frames (f a)) -> frames (m ≫= f).
Proof using HR.
  intros Hm Hf s. specialize (Hm s). unfold mbind, sys_bind. destruct (m s) as [[a|e] s'|d x]; [|done|done].
  specialize (Hf a s'). revert Hf. destruct (f a s'); intros Hf; etrans; eauto.
Qed.
Lemma frames_ret {A} (a : A) : frames (mret a).
Proof using HR. intros s. simpl. reflexivity. Qed.
Lemma frames_fail {A} e : frames (A := A) (fail e).
Proof using HR. intros s. simpl. reflexivity. Qed.
Lemma frames_respond ok bad crash : frames (respond ok bad crash).
Proof using HR. intros s. unfold respond. destruct (script s) as [|[]]; simpl; reflexivity. Qed.
Lemma frames_change good part spread : frames (change good part spread).
Proof using HR. intros s. apply frames_respond. Qed.
Lemma frames_sync keep : frames (sync keep).
Proof using HR. intros s. apply frames_respond. Qed.
Lemma frames_idle : frames idle.
Proof using HR. intros s. apply frames_respond. Qed.
Lemma frames_exists name : frames (exists_file name).
Proof using HR. intros s. simpl. reflexivity. Qed.
Lemma frames_get : frames get_mem.
Proof using HR. intros s. simpl. reflexivity. Qed.
Lemma frames_attempt {A} (m : sys S A) : frames m -> frames (attempt m).
Proof using Type. intros Hm s. specialize (Hm s). unfold attempt. by destruct (m s). Qed.
Lemma frames_wrap {A} t (m : sys S A) : frames m -> frames (wrap t m).
Proof using Type. intros Hm s. specialize (Hm s). unfold wrap. by destruct (m s) as [[]|]. Qed.
End frames.

(** ** Control messages *)

(** Nothing was held, nothing is, and no mutation was acknowledged. *)
Definition quiet (w w' : Writer) : Prop := hold w = [] -> hold w' = [] /\ acked (sent w') = acked (sent w).

#[export] Instance quiet_preorder : PreOrder quiet.
Proof. split; [by intros w Hw|]. intros w1 w2 w3 H1 H2 Hw. destruct (H1 Hw) as [Hw2 <-]. by apply H2. Qed.

Definition is_control (m : Msg) : Prop := match m with MMutation _ => False | _ => True end.

Section rotation.
Context {J : Json}.

Lemma frames_modify f : (forall w, quiet w (f w)) -> frames quiet (modify f).
Proof. intros H s. apply H. Qed.

Lemma quiet_send x w w' :
  (match x with SentResult _ None => False | _ => True end) -> quiet w w' -> quiet w (send x w').
Proof. intros Hx H Hw. destruct (H Hw) as [Hh Ha]. split; [done|]. cbn [send sent]. by rewrite acked_other. Qed.

Create HintDb quiet.
#[local] Hint Resolve frames_ret frames_fail frames_change frames_sync frames_idle frames_exists frames_get quiet_send : quiet.

(** Walks through a handler; the changes of the writer's state are by computation. *)
Ltac quiet_go :=
  repeat first [ solve [eauto with quiet typeclass_instances]
               | apply frames_modify; intros w; try (apply quiet_send; [done|]); by intros Hw
               | apply frames_bind; [apply _| |intros] | apply frames_attempt | case_match ].

Lemma frames_handle m : is_control m -> frames quiet (handle m).
Proof.
  destruct m as [m|id ack|id ack|id ack]; [done|..]; intros _; cbn [handle].
  - unfold handleStartSealing, OpenAppend, FSync, FClose. quiet_go.
  - unfold handleFinishRotation, FSync, FClose. quiet_go.
  - intros s. destruct (decide (hold (mem s) = [])) as [Hh|Hh].
    2:{ destruct (handleRotationComplete id ack s); by intros Hw. }
    unfold handleRotationComplete, mbind at 1, sys_bind at 1, get_mem. rewrite Hh. cbn [drain].
    destruct (controlRes (mem s) !! id); [by apply (frames_modify (send _)); intros w; apply quiet_send; [|intros Hw]|].
    match goal with |- match ?m s with _ => _ end => enough (frames quiet m) as H by apply H end.
    unfold OpenAppend. quiet_go.
Qed.

(** ** The manager *)

(** The manager has nothing to hand on. *)
Definition quiet_wal (x y : WAL) : Prop :=
  feed x = [] -> feed y = [] /\ closed y = closed x /\ quiet (writer x) (writer y).

#[export] Instance quiet_wal_preorder : PreOrder quiet_wal.
Proof.
  split; [by intros x Hx|]. intros x y z H1 H2 Hx. destruct (H1 Hx) as (Hy & <- & Hq). destruct (H2 Hy) as (Hz & -> & Hq2).
  split; [done|]. split; [done|]. by etrans.
Qed.


Lemma frames_on_writer {A} (p : sys Writer A) : frames quiet p -> frames quiet_wal (on_writer p).
Proof.
  intros Hp s. specialize (Hp (mkSys (disk s) (io s) (writer (mem s)))). unfold on_writer.
  destruct (p _) as [r s'|d w]; by intros Hf.
Qed.

(** Reading the state and putting back a changed one. *)
Lemma frames_update {A} (g : WAL -> WAL) (k : WAL -> sys WAL A) :
  (forall x, quiet_wal x (g x)) -> (forall x, frames quiet_wal (k x)) -> frames quiet_wal (x ← get_mem; put_mem (g x);; k x).
Proof.
  intros Hg Hk s. unfold mbind, sys_bind, get_mem, put_mem. specialize (Hk (mem s) (mkSys (disk s) (io s) (g (mem s)))).
  specialize (Hg (mem s)). cbn [mem] in Hk. revert Hk. destruct (k _ _); intros Hk; exact (transitivity Hg Hk).
Qed.

Lemma frames_newID : frames quiet_wal newID.
Proof. unfold newID. apply frames_update; [by intros x Hx|]. intros x. apply frames_ret, _. Qed.

Lemma frames_roundTrip attempts mk : (forall ack, is_control (mk ack)) -> frames quiet_wal (roundTrip attempts mk).
Proof.
  intros Hmk. induction attempts as [|attempts IH]; cbn [roundTrip]; [apply frames_fail, _|].
  intros s. destruct (decide (feed (mem s) = [])) as [Hf|Hf].
  2:{ match goal with |- match ?m with _ => _ end => destruct m end; by intros Hx. }
  unfold mbind at 1, sys_bind at 1, next_send, mbind at 1, sys_bind at 1, get_mem at 1. unfold mbind at 1, sys_bind at 1, put_mem. rewrite Hf.
  cbn [mret sys_ret hd tl app]. set (s1 := mkSys _ _ _).
  enough (frames quiet_wal (on_writer (runLoop [mk (nextCh (mem s))]);;
            x ← get_mem; match received (nextCh (mem s)) (sent (writer x)) with Some v => mret v | None => roundTrip attempts mk end)) as H.
  { specialize (H s1). assert (quiet_wal (mem s) (mem s1)) as H1 by (by intros Hx). revert H.
    match goal with |- match ?m with _ => _ end -> _ => destruct m end; intros H; exact (transitivity H1 H). }
  apply frames_bind; [apply _| |].
  - apply frames_on_writer. cbn [runLoop]. apply frames_bind; [apply _|by apply frames_handle|]. intros _. apply frames_ret, _.
  - intros _. apply frames_bind; [apply _|apply frames_get, _|]. intros x. destruct (received _ _); [apply frames_ret, _|done].
Qed.

Lemma frames_control mk : (forall id ack, is_control (mk id ack)) -> frames quiet_wal (control mk).
Proof.
  intros Hmk. unfold control. apply frames_bind; [apply _|apply frames_newID|]. intros id.
  apply frames_bind; [apply _|apply frames_get, _|]. intros x. by apply frames_roundTrip.
Qed.

#[local] Hint Resolve frames_control : quiet.

Lemma frames_rotateOnce snapshotFn : frames quiet_wal (rotateOnce snapshotFn).
Proof.
  unfold rotateOnce, sendStartSealing, sendFinishRotation, sendRotationComplete, writeSnapshot, rotateFiles, OpenTrunc, WriteAppend,
    FSync, FClose, Rename, syncDir.
  repeat first [ solve [eauto with quiet typeclass_instances] | apply frames_control; done | apply frames_wrap
               | apply frames_bind; [apply _| |intros] | apply frames_attempt | case_match ].
Qed.

Lemma frames_tick snapshotFn : frames quiet_wal (tick snapshotFn).
Proof.
  assert (forall n, frames quiet_wal (rotateWithRetry snapshotFn n)) as Hr.
  { induction n as [|n IH]; cbn [rotateWithRetry]; [apply frames_fail, _|]. apply frames_bind; [apply _|apply frames_attempt, frames_rotateOnce|].
    intros [|]; [apply frames_ret, _|done]. }
  intros s. unfold tick, mbind at 1, sys_bind at 1, get_mem at 1. destruct (disableRotation _); [apply (frames_ret quiet_wal ())|].
  destruct (_ || _)%bool; [apply (frames_ret quiet_wal ())|].
  match goal with |- match ?m s with _ => _ end => enough (frames quiet_wal
    (y ← get_mem; put_mem (set_manager (set_rotating true (manager y)) y);; rotateWithRetry snapshotFn (Z.to_nat (maxRetries (manager y)));;
     x ← get_mem; put_mem (set_manager (set_rotating false (manager x)) x))) as H; [exact (H s)|] end.
  apply frames_update; [by intros x Hx|]. intros x. apply frames_bind; [apply _|apply Hr|]. intros _ t. by intros Hx.
Qed.
End rotation.
