(* ===== verification/Standalone.v ===== *)
(** * The standalone server (cmd/cacheyd/main.go: runStandalone)

    One node: a store, its write-ahead log on a directory, the log's manager that
    rotates it, requests. The log of the running store is the whole state of the
    writer, the manager and the disk under them, so that a store operation is a
    transition of all of it. *)

From S2P Require Import Prelude WalTypes Os WalRecovery WalWriter BTree Expiration Store StoreThms.

Section standalone.
Context {J : Json}.

(** The WAL under a running store: the writer, manager and disk, and how long the
    appends to come wait; or what a crash has left of them. *)
Inductive DiskWal : Type :=
  | Up (wait : nat -> patience) (s : Sys WAL)
  | Down (d : Disk) (x : WAL).

(** [WAL.Append] as the store calls it. *)
#[export] Instance DiskWal_wal : Wal DiskWal := fun w rec =>
  match w with
  | Down d x => (w, Some IOError)
  | Up wait s =>
      match Append (wait 0) rec s with
      | Done (Ok _) s' => (Up (fun k => wait (S k)) s', None)
      | Done (Err e) s' => (Up (fun k => wait (S k)) s', Some e)
      | Crashed d x => (Down d x, Some IOError)
      end
  end.

(** The directories that the machine may come up with, when it stops or crashes
    now. *)
Definition leaves_of (w : DiskWal) : list Disk := match w with Up _ s => remains s | Down d _ => [d] end.

Context {I : Type} {EI : ExpirationIndex I} {EL : ExpirationIndexLaws I}.
Abbreviation Store := (CacheyStore I DiskWal).

(** ** Starting *)

(** The store while it recovers, and the clock that its hooks read; [None]: a hook
    panicked. *)
Record Boot : Type := mkBoot { bStore : option Store; bClock : nat -> Z }.

Definition boot_ApplySnapshot (es : list SnapshotEntry) (b : Boot) : option error * Boot :=
  (None, mkBoot (s ← bStore b; ApplySnapshot s es) (bClock b)).

Definition boot_ApplyRecord (rec : Record_) (b : Boot) : option error * Boot :=
  match bStore b ≫= (fun s => ApplyRecord s (bClock b 0) rec) with
  | Some (e, s) => (e, mkBoot (Some s) (fun k => bClock b (S k)))
  | None => (None, mkBoot None (bClock b))
  end.

Definition boot_Snapshot (b : Boot) : result (list SnapshotEntry) :=
  match bStore b with
  | Some s => Ok (Store.Snapshot s (bClock b 0))
  | None => Err IOError
  end.

Definition standalone_hooks : Hooks Boot := mkHooks (Some boot_ApplySnapshot) (Some boot_ApplyRecord) boot_Snapshot.

(** How the start ends: with a store that serves, an error exit, a panic, or a
    crash of the machine. *)
Inductive Started : Type :=
  | Serving (s : Store)
  | Exited (e : error)
  | Panicked
  | Halted (d : Disk).

Definition runStandalone (clk : nat -> Z) (wait : nat -> patience) (sc : list outcome) (d : Disk) : Started :=
  match Open DefaultConfig standalone_hooks (boot d sc (mkBoot (Some NewCacheyStore) clk)) with
  | Crashed d _ => Halted d
  | Done (Err e) _ => Exited e
  | Done (Ok _) s =>
      match bStore (mem s).1 with
      | Some st => Serving (SetWAL st (Up wait (mkSys (disk s) (io s) (mem s).2)))
      | None => Panicked
      end
  end.

(** ** Running *)

(** What happens to a running server: a request, a pass of the expiration loop
    (among the requests), a tick of the log's manager. *)
Inductive Event : Type := EvRequest (r : request) | EvTick (now : Z).

(** A tick snapshots the store at [now] when it rotates. A rotation that fails
    ends the process. *)
Definition manager_tick (now : Z) (s : Store) : Store :=
  match wal s with
  | Some (Up wait x) =>
      match tick (fun _ => Ok (Store.Snapshot s now)) x with
      | Done (Ok _) x' => with_wal s (Some (Up wait x'))
      | Done (Err _) x' => with_wal s (Some (Down (disk x') (mem x')))
      | Crashed d y => with_wal s (Some (Down d y))
      end
  | _ => s
  end.

Definition happen (s : Store) (ev : Event) : option Store :=
  match ev with
  | EvRequest r => serve s r
  | EvTick now => Some (manager_tick now s)
  end.

Definition live_through (s : Store) (evs : list Event) : option Store :=
  foldl (fun o ev => s ← o; happen s ev) (Some s) evs.
End standalone.
