(* ===== verification/StandaloneThms.v ===== *)
(** * The standalone server: what survives a crash

    The store, the writer, the manager and recovery together: whatever requests
    were served and wherever the machine crashed, the server that is started on
    the directory has the store of the acknowledged requests. *)

From S2P Require Import Prelude WalTypes WalCodec Os WalRecovery WalRecoveryProps WalRecoveryThms WalHooks WalWriter WalThms WalProps WalQuiet BTree BTreeThms Expiration Store StoreProps StoreThms Standalone.

(** ** What a directory stands for *)

Lemma apply_data_index now d r i : apply_data now d (with_logIndex r i) = apply_data now d r.
Proof. done. Qed.

Definition base_data (o : option snapshotData) : gmap string Entry :=
  match o with Some sd => load_data ∅ (snapshotEntries sd) | None => ∅ end.

(** The snapshot, and the records after its boundary applied to it. *)
Definition image (now : Z) (h : list Record_) (o : option snapshotData) : gmap string Entry :=
  foldl (apply_data now) (base_data o) (span h (boundary o) (length h)).

(** The records of a history after the boundary, when it grows. *)
Lemma span_snoc h r b : b <= length h -> span (h ++ [r]) b (length (h ++ [r])) = span h b (length h) ++ [r].
Proof.
  intros Hb. unfold span. rewrite length_app. cbn [length]. rewrite drop_app_le by lia.
  rewrite !take_ge; [done|rewrite length_drop; lia|rewrite length_app, length_drop; simpl; lia].
Qed.

Lemma image_snoc now h o r : boundary o <= length h -> image now (h ++ [r]) o = apply_data now (image now h o) r.
Proof. intros Hb. unfold image. by rewrite span_snoc, foldl_snoc by done. Qed.

Section texts.
(** The texts that JSON carries unchanged. *)
Context (text : string -> Prop).

Definition textual (d : gmap string Entry) : Prop := forall k e, d !! k = Some e -> text k /\ text (Value e).
Definition text_record (r : Record_) : Prop := text (rkey r) /\ text (val r).

Lemma textual_apply now d r : textual d -> text_record r -> textual (apply_data now d r).
Proof.
  intros Hd [Hk Hv] k e. unfold apply_data, put_data, ttl_data. destruct (op r); try apply Hd.
  - rewrite lookup_insert. case_decide; [|apply Hd]. intros [= <-]. by subst k.
  - rewrite lookup_delete. case_decide; [done|apply Hd].
  - destruct (d !! rkey r) as [e0|] eqn:E; [|apply Hd]. case_match.
    + rewrite lookup_delete. case_decide; [done|apply Hd].
    + rewrite lookup_insert. case_decide; [|apply Hd]. intros [= <-]. subst k. split; [done|]. by apply (Hd _ _ E).
Qed.

(** A record that does not expire by [now], of the store, with texts that JSON
    carries. *)
Definition fine (now : Z) (r : Record_) : Prop := unexpired now r /\ text_record r.

Definition fine_data (now : Z) (d : gmap string Entry) : Prop := all_live now d /\ textual d.

Lemma fine_data_apply now d r : fine_data now d -> fine now r -> fine_data now (apply_data now d r).
Proof. intros [Hl Ht] [Hu Hx]. split; [by apply all_live_apply|by apply textual_apply]. Qed.

Lemma fine_data_replay now d rs : fine_data now d -> Forall (fine now) rs -> fine_data now (foldl (apply_data now) d rs).
Proof. intros Hd Hr. revert d Hd. induction Hr as [|r rs Hr _ IH]; intros d Hd; [done|]. by apply IH, fine_data_apply. Qed.

(** Replaying records again changes nothing. *)
Lemma replay_again now d rs : all_live now d -> Forall (unexpired now) rs ->
  foldl (apply_data now) (foldl (apply_data now) d rs) rs = foldl (apply_data now) d rs.
Proof.
  intros Hd Hr. apply map_eq. intros k. rewrite !replay_lookup by auto using all_live_replay. apply effects_idem.
Qed.

(** The directory's part of the state: a history, a snapshot at its boundary, and
    nothing that expires by [now]. *)
Definition clean (now : Z) (h : list Record_) (o : option snapshotData) : Prop :=
  boundary o <= length h /\ fine_data now (base_data o) /\ Forall (fine now) (span h (boundary o) (length h)).

Lemma clean_snoc now h o r : clean now h o -> fine now r -> clean now (h ++ [r]) o.
Proof.
  intros (Hb & Hd & Hr) Hf. split; [rewrite length_app; simpl; lia|]. split; [done|]. rewrite span_snoc by done.
  apply Forall_app. split; [done|by constructor].
Qed.

Lemma fine_image now h o : clean now h o -> fine_data now (image now h o).
Proof. intros (_ & Hd & Hr). by apply fine_data_replay. Qed.
End texts.

(** ** Snapshots *)

(** The entries of a map, loaded into an empty store, are the map. *)
Lemma load_entries (m : gmap string snapEntry) k :
  load_data ∅ ((fun p => mkSnapshotEntry p.1 (snVal p.2) (snExp p.2)) <$> map_to_list m) !! k =
  (fun e => mkEntry (snVal e) (snExp e)) <$> m !! k.
Proof.
  set (l := (fun p : string * snapEntry => mkSnapshotEntry p.1 (snVal p.2) (snExp p.2)) <$> map_to_list m).
  assert (skey <$> l = (map_to_list m).*1) as Hk by (unfold l; rewrite <- list_fmap_compose; done).
  assert (NoDup (skey <$> l)) as Hn by (rewrite Hk; apply NoDup_fst_map_to_list).
  destruct (m !! k) as [e|] eqn:E; simpl.
  - apply (load_data_present l ∅ (mkSnapshotEntry k (snVal e) (snExp e)) Hn). unfold l. apply list_elem_of_fmap.
    exists (k, e). split; [done|]. by apply elem_of_map_to_list.
  - rewrite load_data_absent; [apply lookup_empty|]. rewrite Hk, list_elem_of_fmap. intros ([k' e] & -> & He).
    apply elem_of_map_to_list in He. simpl in E. congruence.
Qed.

Lemma snapshot_map_load es : snapshot_map es = (fun e : Entry => mkSnapEntry (Value e) (EExp e)) <$> load_data ∅ es.
Proof.
  unfold snapshot_map, load_data. rewrite <- (fmap_empty (fun e : Entry => mkSnapEntry (Value e) (EExp e))) at 1.
  generalize (∅ : gmap string Entry). induction es as [|e es IH]; intros d; simpl; [done|].
  rewrite <- IH. by rewrite fmap_insert.
Qed.

(** What a snapshot file of the live entries stands for. *)
Lemma base_data_snapshot {I W : Type} {EI : ExpirationIndex I} {EL : ExpirationIndexLaws I} {WW : Wal W}
    (s : CacheyStore I W) (now now' : Z) b :
  all_live now (data s) -> (now' <= now)%Z ->
  base_data (Some (mkSnapshotData b (Some (snapshot_map (Store.Snapshot s now'))))) = data s.
Proof.
  intros Hl Hle. apply map_eq. intros k. unfold base_data, snapshotEntries. cbn [Data from_option id].
  rewrite load_entries, snapshot_map_load, lookup_fmap, load_Snapshot. destruct (data s !! k) as [e|] eqn:E; [|done].
  rewrite (isExpired_earlier now' now e Hle (Hl _ _ E)). by destruct e.
Qed.

(** The snapshot file is the old one, or one with the entries [es] that a rotation has
    written. *)
Definition taken (es : list SnapshotEntry) (o o' : option snapshotData) : Prop :=
  o' = o \/ exists b, boundary o <= N.to_nat b /\ o' = Some (mkSnapshotData b (Some (snapshot_map es))).

Definition taken_meaning (es : list SnapshotEntry) (o : option snapshotData) : SnapshotMeaning :=
  {| covers _ := taken es o; covers_more _ _ _ H := H |}.

Lemma taken_mean es o h0 : @snapshots_mean (taken_meaning es o) (fun _ => Ok es) h0.
Proof.
  intros x es' o' b [= <-] _ Ho Hb _. right. exists (N.of_nat b). split; [|done]. rewrite Nat2N.id.
  destruct Ho as [->|(b' & Hle & ->)]; [done|]. simpl in Hb. lia.
Qed.

(** A rotation's snapshot stands for the same state. *)
Lemma image_rotated {I W : Type} {EI : ExpirationIndex I} {EL : ExpirationIndexLaws I} {WW : Wal W} text (s : CacheyStore I W)
    (now now' : Z) h o o' :
  clean text now h o -> image now h o = data s -> (now' <= now)%Z -> boundary o' <= length h ->
  taken (Store.Snapshot s now') o o' -> clean text now h o' /\ image now h o' = data s.
Proof.
  intros Hc Hi Hle Hb [->|(b & Hbo & ->)]; [done|].
  pose proof (fine_image _ _ _ _ Hc) as Hf. rewrite Hi in Hf. destruct Hc as (Hb0 & Hd0 & Hr0).
  set (o' := Some _) in *. assert (boundary o' = N.to_nat b) as Ho by done.
  assert (base_data o' = data s) as Hbase by (apply (base_data_snapshot s now); [apply Hf|done]).
  assert (span h (boundary o) (length h) = span h (boundary o) (boundary o') ++ span h (boundary o') (length h)) as Hsp.
  { unfold span. rewrite (take_ge (drop (boundary o) h)), (take_ge (drop (boundary o') h)) by (rewrite length_drop; lia).
    rewrite <- (take_drop (boundary o' - boundary o) (drop (boundary o) h)) at 1. rewrite drop_drop. do 2 f_equal. lia. }
  rewrite Hsp in Hr0. apply Forall_app in Hr0 as [Hr1 Hr2]. split.
  - split; [done|]. split; [by rewrite Hbase|done].
  - unfold image in *. rewrite Hbase, <- Hi, Hsp, foldl_app. apply replay_again.
    + apply (fine_data_replay text now (base_data o)); [done|done].
    + eapply Forall_impl; [exact Hr2|]. by intros r [? _].
Qed.

(** ** Two facts about the writer *)

Lemma ends_and {S A} (m : sys S A) s (P P' : result A -> Sys S -> Prop) (Q Q' : Disk -> S -> Prop) :
  ends m s P Q -> ends m s P' Q' -> ends m s (fun r s' => P r s' /\ P' r s') (fun d x => Q d x /\ Q' d x).
Proof. unfold ends. by destruct (m s). Qed.

Section writer.
Context {J : Json} {JL : JsonLaws}.

(** A crash in an append has sent nothing. *)
Lemma append_crash_sent m f (s : Sys Writer) :
  ends (append m f) s (fun _ _ => True) (fun _ w => sent w = sent (mem s)).
Proof.
  unfold append. destruct f as [name|]; [|by apply ends_modify].
  apply ends_bind, ends_modify, ends_bind, ends_get, ends_bind, ends_attempt. cbn [mem set_index lastIndex].
  assert (forall (r : result ()) s', ends (modify (fun w => set_index (lastIndex w) (lastIndex w) w);;
      match r with
      | Err e => modify (send (SentResult m (Some e)))
      | Ok _ => modify (fun w => if decide (active w = Some name) then set_counts (tmpCount w) (countAtomic w + 1)%Z w
                                 else set_counts (tmpCount w + 1)%Z (countAtomic w) w);; modify (send (SentResult m None))
      end) s' (fun (_ : result ()) _ => True) (fun _ w => sent w = sent (mem s))) as Hrest.
  { intros r s'. apply ends_bind, ends_modify. destruct r as [u|e]; [apply ends_bind, ends_modify|]; by apply ends_modify. }
  unfold writeLine. destruct (marshal _) as [line|e]; [|apply Hrest].
  apply ends_bind, (ends_change (fun _ => True)); cbn [mem]; [by apply Forall_true|done| |intros; apply (Hrest (Err _))|done].
  intros e _ _. apply (ends_sync (fun _ => True)); cbn [mem]; [by apply Forall_true|intros; apply (Hrest (Ok ()))|intros; apply (Hrest (Err _))|done].
Qed.

(** In normal operation nothing is held, so what may be in flight does not
    matter. *)
Lemma writer_ok_may may may' SM SM' h0 o c k s :
  writer_ok may SM h0 PIdle o c k s -> covers (SnapshotMeaning := SM') (h0 ++ number (length h0) (acked (sent (mem s)))) o ->
  writer_ok may' SM' h0 PIdle o c k s.
Proof.
  intros (Hnb & Hh & Hi & Hroom & Hhold & Hctl & Hs & Hb & Hp) Hcov. split_and!; try done.
  destruct Hp as (_ & _ & _ & -> & _). constructor.
Qed.

(** More room in the index. *)
Lemma writer_ok_room may SM h0 o c k k' s :
  writer_ok may SM h0 PIdle o c k s -> (N.of_nat (length (h0 ++ number (length h0) (acked (sent (mem s)))) + k') + 1 < 2 ^ 64)%N ->
  writer_ok may SM h0 PIdle o c k' s.
Proof.
  intros (Hnb & Hh & Hi & Hroom & Hhold & Hctl & Hs & Hb & Hp) Hr. split_and!; try done.
  destruct Hp as (_ & _ & _ & -> & _). simpl. by rewrite Nat.add_0_r.
Qed.
End writer.

(** ** The running server *)

Section server.
Context {J : Json} {JL : JsonLaws} {I : Type} {EI : ExpirationIndex I} {EL : ExpirationIndexLaws I}.

(** JSON carries records and snapshots of texts. *)
Context (text : string -> Prop).
Context (text_json : forall o k v e i, text k -> text v -> json_fits (with_logIndex (store_record o k v e) i)).
Context (text_snap : forall b es, Forall (fun e => text (skey e) /\ text (sval e)) es ->
                       snap_fits (mkSnapshotData b (Some (snapshot_map es)))).

(** A time that no clock reading exceeds and before which nothing expires, and the
    records that clients ask for. *)
Context (now : Z) (asked : Record_ -> Prop).

(** The history of a directory and what was appended to it. *)
Definition full (h0 rs : list Record_) : list Record_ := h0 ++ number (length h0) rs.

Lemma full_snoc h0 rs r : full h0 (rs ++ [r]) = full h0 rs ++ [with_logIndex r (N.of_nat (S (length (full h0 rs))))].
Proof. unfold full. rewrite number_snoc, app_assoc, length_app, length_number. done. Qed.

Definition acks (x : WAL) : list Record_ := acked (sent (writer x)).
Definition no_record (r : Record_) : Prop := False.

(** Between requests: the directory and the writer stand for [dat0] with the
    acknowledged records applied; room for [k] more. *)
Definition up_ok (h0 : list Record_) (dat0 : gmap string Entry) (k : nat) (x : Sys WAL) : Prop :=
  closed (mem x) = false /\ feed (mem x) = [] /\ (nextID (manager (mem x)) + 3 * N.of_nat k < 2 ^ 64)%N /\
  (1 <= maxRetries (manager (mem x)))%Z /\
  exists o, writer_ok no_record any_snapshot h0 PIdle o (nextID (manager (mem x))) k (wsys x) /\
    clean text now (full h0 (acks (mem x))) o /\
    image now (full h0 (acks (mem x))) o = foldl (apply_data now) dat0 (acks (mem x)).

(** After a crash: the directory may hold the record that was being written. *)
Definition down_ok (h0 : list Record_) (dat0 : gmap string Entry) (k : nat) (d : Disk) (x : WAL) : Prop :=
  exists o extra, length extra <= 1 /\ Forall asked extra /\
    let h := full h0 (acks x ++ extra) in
    history h /\ holds h o (length h) d /\ clean text now h o /\
    image now h o = foldl (apply_data now) dat0 (acks x ++ extra) /\ (N.of_nat (length h + k) + 1 < 2 ^ 64)%N.

(** A record the store writes. *)
Definition rec_ok (r : Record_) : Prop :=
  knownOp (op r) = true /\ (forall i, json_fits (with_logIndex r i)) /\ fine text now r /\ asked r.

Lemma fine_index r i : fine text now r -> fine text now (with_logIndex r i).
Proof. done. Qed.

Lemma up_ok_weak h0 dat0 k x : up_ok h0 dat0 (S k) x -> up_ok h0 dat0 k x.
Proof.
  intros (Hc & Hf & Hid & Hr & o & Hw & Hcl & Him). split_and!; [done|done|lia|done|]. exists o. split; [|done].
  eapply writer_ok_room; [exact Hw|]. destruct Hw as (_ & _ & _ & Hroom & _). lia.
Qed.

(** One more record at the end of a clean history. *)
Lemma image_grows h0 rs r o dat0 :
  clean text now (full h0 rs) o -> image now (full h0 rs) o = foldl (apply_data now) dat0 rs -> fine text now r ->
  clean text now (full h0 (rs ++ [r])) o /\ image now (full h0 (rs ++ [r])) o = foldl (apply_data now) dat0 (rs ++ [r]).
Proof.
  intros Hc Hi Hf. rewrite full_snoc. split; [by apply clean_snoc|]. rewrite image_snoc by apply Hc.
  rewrite apply_data_index, foldl_snoc. by rewrite Hi.
Qed.

Lemma Append_up h0 dat0 k x rec :
  up_ok h0 dat0 (S k) x -> rec_ok rec ->
  match Append Waits rec x with
  | Done r x' => r = Ok () /\ up_ok h0 dat0 k x' /\ acks (mem x') = acks (mem x) ++ [rec]
  | Crashed d y => down_ok h0 dat0 k d y /\ acks y = acks (mem x)
  end.
Proof.
  intros (Hc & Hf & Hid & Hr & o & Hw & Hcl & Him) (Hop & Hjs & Hfine & Hasked).
  unfold Append, mbind at 1, sys_bind at 1, get_mem at 1. rewrite Hc.
  unfold mbind at 1, sys_bind at 1, next_send, mbind at 1, sys_bind at 1, get_mem at 1. unfold mbind at 1, sys_bind at 1, put_mem. rewrite Hf.
  cbn [mret sys_ret hd tl app mem disk io]. set (ch := nextCh (mem x)). set (m := mkMutation rec ch).
  set (w := wsys x) in *. apply (writer_ok_may no_record (eq rec) any_snapshot any_snapshot) in Hw; [|done].
  assert (m_fits (eq rec) m) as Hm by (split_and!; done).
  pose proof (ends_and _ _ _ _ _ _ (append_idle (may := eq rec) (SM := any_snapshot) h0 o _ k w m Hw Hm) (append_crash_sent m (Some activeWALName) w)) as He.
  assert (runLoop [MMutation m] w = match append m (Some activeWALName) w with Done (Ok _) s' => Done (Ok ()) s' | z => z end) as Hrun.
  { destruct Hw as (_ & _ & _ & _ & _ & _ & _ & _ & Hst & Ha & _). cbn [runLoop handle]. unfold handleMutation, mbind, sys_bind, get_mem.
    rewrite Hst, Ha. by destruct (append m (Some activeWALName) w) as [[[]|e] s'|d' w']. }
  unfold ends in He. unfold mbind at 1, sys_bind at 1, on_writer. cbn [disk io mem writer manager closed nextCh feed].
  change (mkSys (disk x) (io x) (writer (mem x))) with w. rewrite Hrun.
  destruct (append m (Some activeWALName) w) as [r s'|d w'].
  - destruct He as [(-> & Hw' & Hs') _]. unfold mbind at 1, sys_bind at 1, get_mem. cbn [mem writer].
    unfold received. rewrite Hs', filter_app. cbn [filter list_filter sent_ch mResultCh m]. rewrite decide_True by done. rewrite last_snoc.
    assert (acked (sent (mem s')) = acks (mem x) ++ [rec]) as Hack by (rewrite Hs', acked_snoc; done).
    split; [done|]. split; [|exact Hack]. split_and!; [done|done|cbn [mem manager]; lia|done|]. exists o. cbn [mem manager].
    unfold acks. cbn [mem writer]. rewrite Hack. split; [|by apply image_grows].
    apply (writer_ok_may (eq rec) no_record any_snapshot any_snapshot); [by destruct s'|done].
  - destruct He as [(extra & Hl & Hex & Hh & Hho & _) Hs]. assert (acks (mkWAL w' (manager (mem x)) (closed (mem x)) (S ch) []) = acks (mem x)) as Hack.
    { unfold acks. cbn [writer]. by rewrite Hs. }
    split; [|exact Hack]. exists o, extra. fold (full h0 (acked (sent w') ++ extra)) in Hh, Hho.
    replace (acked (sent w')) with (acks (mem x)) in Hh, Hho by (by rewrite Hs). rewrite Hack.
    assert (extra = [] \/ extra = [rec]) as He'.
    { destruct extra as [|e [|]]; [by left| |simpl in Hl; lia]. right. by apply Forall_inv in Hex as ->. }
    destruct Hw as (_ & _ & _ & Hroom & _).
    change (N.of_nat (length (full h0 (acks (mem x))) + length (hold (mem w)) + S k) + 1 < 2 ^ 64)%N in Hroom.
    destruct He' as [->| ->]; rewrite ?app_nil_r in *.
    + split; [simpl; lia|]. split; [constructor|]. split_and!; try done; [apply Hcl..|lia].
    + split; [simpl; lia|]. split; [by constructor|]. destruct (image_grows h0 (acks (mem x)) rec o dat0 Hcl Him Hfine) as [Hcl' Him'].
      split_and!; try done; [apply Hcl'..|]. rewrite full_snoc, length_app. simpl. lia.
Qed.

(** The log under the store: what it has acknowledged, and its invariant. *)
Definition wlog (w : DiskWal) : list Record_ := match w with Up _ x => acks (mem x) | Down _ x => acks x end.
Definition wok (h0 : list Record_) (dat0 : gmap string Entry) (k : nat) (w : DiskWal) : Prop :=
  match w with
  | Up wait x => (forall i, wait i = Waits) /\ up_ok h0 dat0 k x
  | Down d x => down_ok h0 dat0 k d x
  end.

Lemma wok_weak h0 dat0 k w : wok h0 dat0 (S k) w -> wok h0 dat0 k w.
Proof.
  destruct w as [wait x|d x]; cbn [wok]; [intros [? ?]; split; [done|by apply up_ok_weak]|].
  intros (o & extra & Hl & Hf & Hh & Hho & Hc & Hi & Hr). exists o, extra. cbv zeta in *. do 6 (split; [done|]). lia.
Qed.

Lemma disk_acks_logged h0 dat0 : acks_logged wlog (wok h0 dat0) rec_ok.
Proof.
  intros k w r w' e Hw Hr E. destruct w as [wait x|d x].
  - destruct Hw as [Hwait Hx]. pose proof (Append_up h0 dat0 k x r Hx Hr) as Ha. unfold wal_append, DiskWal_wal in E. rewrite Hwait in E.
    destruct (Append Waits r x) as [res x'|d y].
    + destruct Ha as (-> & Hx' & Hack). injection E as <- <-. done.
    + destruct Ha as [Hd Hack]. injection E as <- <-. done.
  - injection E as <- <-. split; [by apply (wok_weak h0 dat0 k (Down d x))|done].
Qed.

(** ** Rotations *)

(** The snapshot of a store whose data is fine can be written. *)
Lemma snapshot_works (s : CacheyStore I DiskWal) now' :
  fine_data text now (data s) -> snapshots_work (fun _ => Ok (Store.Snapshot s now')).
Proof using text_snap.
  intros [_ Ht] x b. eexists. split; [done|]. apply text_snap, Forall_forall. intros e He.
  apply elem_of_Snapshot in He as (en & Hen & _ & -> & _). by apply (Ht _ _ Hen).
Qed.

(** A tick, from the invariant of the manager. *)
Lemma tick_ok {may SM} snapshotFn h0 o j (x : Sys WAL) :
  snapshots_work snapshotFn -> @snapshots_mean SM snapshotFn h0 -> wal_ok may SM h0 PIdle o (3 + j) x ->
  ends (tick snapshotFn) x (fun r x' => r = Ok () /\ exists o', wal_ok may SM h0 PIdle o' j x')
    (fun d y => exists o', crash_ok may SM h0 o' d (writer y)).
Proof using Type.
  intros Hsf Hmean Hx.
  assert (wal_ok may SM h0 PIdle o (3 + j) (mkSys (disk x) (io x) (set_manager (set_rotating true (manager (mem x))) (mem x)))) as Hset.
  { destruct Hx as (mss & H). by exists mss. }
  assert (wal_ok may SM h0 PIdle o j x) as Hj.
  { destruct Hx as (mss & ? & ? & ? & ? & ?). exists mss. split_and!; try done. lia. }
  assert ((1 <= maxRetries (manager (mem x)))%Z) as Hret by (by destruct Hx as (mss & ? & ? & ? & ? & ?)).
  apply ends_bind, ends_get. cbv zeta. destruct (disableRotation _); [split; [done|]; by exists o|].
  destruct (_ || _)%bool; [split; [done|]; by exists o|].
  apply ends_bind, ends_put. destruct (Z.to_nat (maxRetries (manager (mem x)))) as [|n] eqn:En; [lia|].
  apply ends_bind. cbn [rotateWithRetry]. apply ends_bind, ends_attempt.
  eapply ends_mono; [apply (rotateOnce_ok (may := may) snapshotFn h0 o j); [done|done|exact Hset]| |done].
  intros r x' (-> & o' & Hx'). apply ends_ret, ends_bind, ends_get, ends_put. split; [done|]. exists o'.
  destruct Hx' as (mss & H). by exists mss.
Qed.

Lemma tick_up h0 dat0 k x (s : CacheyStore I DiskWal) now' :
  up_ok h0 dat0 (S k) x -> data s = foldl (apply_data now) dat0 (acks (mem x)) -> (now' <= now)%Z ->
  match tick (fun _ => Ok (Store.Snapshot s now')) x with
  | Done r x' => r = Ok () /\ up_ok h0 dat0 k x' /\ acks (mem x') = acks (mem x)
  | Crashed d y => down_ok h0 dat0 k d y /\ acks y = acks (mem x)
  end.
Proof using text_snap EL.
  intros (Hc & Hf & Hid & Hr & o & Hw & Hcl & Him) Hdat Hle.
  set (sf := fun _ : WAL => Ok (Store.Snapshot s now')). rewrite <- Hdat in Him.
  pose proof (frames_tick sf x) as Hq. pose proof (snapshot_works s now' ltac:(rewrite <- Him; by apply fine_image)) as Hsf.
  assert (hold (writer (mem x)) = []) as Hhold by (destruct Hw as (_ & _ & _ & _ & _ & _ & _ & _ & Hp); apply Hp).
  assert (N.of_nat (length (full h0 (acks (mem x))) + S k) + 1 < 2 ^ 64)%N as Hroom.
  { destruct Hw as (_ & _ & _ & Hroom & _). cbn [wsys mem] in Hroom. rewrite Hhold in Hroom. unfold full, acks. simpl in Hroom. lia. }
  set (SM := taken_meaning (Store.Snapshot s now') o).
  assert (wal_ok no_record SM h0 PIdle o (3 + 3 * N.of_nat k) x) as Hx1.
  { exists []. split; [done|]. split; [constructor|]. split; [|split; [lia|done]].
    apply (writer_ok_room _ _ h0 o _ (S k)); [apply (writer_ok_may no_record _ any_snapshot); [exact Hw|by left]|]. unfold full, acks in Hroom. unfold pending. simpl. lia. }
  pose proof (tick_ok (SM := SM) sf h0 o (3 * N.of_nat k) x Hsf (taken_mean _ _ _) Hx1) as He. unfold ends in He. destruct (tick sf x) as [r x'|d y].
  - destruct He as (-> & o' & mss & Hf' & _ & Hw' & Hid' & Hr'). destruct (Hq Hf) as (Hfe & Hcl' & Hqw). destruct (Hqw Hhold) as [_ Hack].
    fold (acks (mem x')) (acks (mem x)) in Hack. split; [done|]. split; [|done]. split_and!; [by rewrite Hcl'|done|done|done|].
    assert (taken (Store.Snapshot s now') o o') as Ho' by apply Hw'.
    exists o'. rewrite Hack, <- Hdat. split; [eapply writer_ok_room; [apply (writer_ok_may no_record no_record SM any_snapshot); [exact Hw'|done]|]; cbn [wsys mem]; fold (acks (mem x')); rewrite Hack; unfold full in Hroom; lia|].
    apply (image_rotated text s now now' _ o o'); try done. destruct Hw' as (_ & _ & _ & _ & _ & _ & _ & Hb & _). cbn [wsys mem] in Hb.
    fold (acks (mem x')) in Hb. by rewrite Hack in Hb.
  - destruct He as (o' & extra & Hl & Hex & Hh & Hho & Ho'). destruct (Hq Hf) as (_ & _ & Hqw). destruct (Hqw Hhold) as [_ Hack].
    fold (acks y) (acks (mem x)) in Hack. split; [|done]. assert (extra = []) as -> by (destruct extra; [done|by apply Forall_inv in Hex]).
    exists o', []. split; [simpl; lia|]. split; [constructor|]. rewrite app_nil_r in *. fold (acks y) in Hh, Hho. rewrite Hack in Hh, Hho |- *. cbv zeta.
    fold (full h0 (acks (mem x))) in Hh, Hho. split; [done|]. split; [done|]. rewrite <- Hdat.
    destruct (image_rotated text s now now' _ o o' Hcl Him Hle) as [? ?]; [by destruct Hho as (_ & Hb & _)|done|].
    split; [done|]. split; [done|]. lia.
Qed.

(** ** Events *)

Definition asks (ev : Event) : option Record_ := match ev with EvRequest r => logs r | EvTick _ => None end.

(** A clock that [now] bounds, an expiry after [now], texts that JSON carries. *)
Definition ev_ok (ev : Event) : Prop :=
  match ev with
  | EvRequest r => within now r /\ forall rec, logs r = Some rec -> text_record text rec
  | EvTick t => (t <= now)%Z
  end.

Lemma logs_ok r rec :
  within now r -> logs r = Some rec -> text_record text rec -> asked rec -> rec_ok rec.
Proof using text_json.
  intros Hr Hl Ht Ha. split; [destruct r; by inversion Hl|].
  split; [intros i; destruct Ht; destruct r; inversion Hl; subst; by apply text_json|]. split; [|done]. split; [|done].
  destruct r; inversion Hl; subst; [done..|]. by intros _; apply Hr.
Qed.

Abbreviation alive h0 dat0 k s := (logged wlog (wok h0 dat0) k now dat0 s).

Lemma happen_logged h0 dat0 k (s : CacheyStore I DiskWal) ev :
  alive h0 dat0 (S k) s -> ev_ok ev -> (forall rec, asks ev = Some rec -> asked rec) ->
  exists s', happen s ev = Some s' /\ alive h0 dat0 k s'.
Proof using text_json text_snap EL.
  intros Hs Hev Hask. destruct ev as [r|t]; cbn [happen ev_ok asks] in *.
  - destruct Hev as [Hr Hx]. eapply serve_logged; [apply disk_acks_logged|apply wok_weak|exact Hs|exact Hr|].
    intros rec Hrec. by apply (logs_ok r); auto.
  - exists (manager_tick t s). split; [done|]. destruct Hs as (Hok & Hl & w & Hw & Hk & Hu & Hd). unfold manager_tick. rewrite Hw.
    destruct w as [wait x|d x].
    + destruct Hk as [Hwait Hx]. pose proof (tick_up h0 dat0 k x s t Hx Hd Hev) as Ht. cbn [wlog] in *. destruct (tick _ x) as [r x'|d y].
      * destruct Ht as (-> & Hx' & Ha). split; [done|]. split; [done|]. exists (Up wait x'). cbn [wlog wok]. by rewrite Ha.
      * destruct Ht as [Hy Ha]. split; [done|]. split; [done|]. exists (Down d y). cbn [wlog wok]. by rewrite Ha.
    + split; [done|]. split; [done|]. exists (Down d x). split; [done|]. split; [by apply (wok_weak _ _ _ (Down d x))|done].
Qed.

Lemma live_logged h0 dat0 k evs (s : CacheyStore I DiskWal) :
  alive h0 dat0 (length evs + k) s -> Forall ev_ok evs -> (forall rec, Some rec ∈ asks <$> evs -> asked rec) ->
  exists s', live_through s evs = Some s' /\ alive h0 dat0 k s'.
Proof using text_json text_snap EL.
  intros Hs Hevs. revert s Hs. induction Hevs as [|ev evs Hev _ IH]; intros s Hs Hask; [by exists s|]. rewrite fmap_cons in Hask.
  destruct (happen_logged h0 dat0 (length evs + k) s ev Hs Hev) as (s1 & E1 & Hs1).
  { intros rec Hrec. apply Hask. rewrite Hrec. left. }
  unfold live_through. simpl. rewrite E1. apply IH; [done|]. intros rec Hrec. apply Hask. by right.
Qed.

(** ** Directories *)

(** The directory stands for [dat], with room for [k] more records. *)
Definition keeps (k : nat) (d : Disk) (dat : gmap string Entry) : Prop :=
  exists h o, history h /\ holds h o (length h) d /\ clean text now h o /\ image now h o = dat /\
    (N.of_nat (length h + k) + 1 < 2 ^ 64)%N /\ (3 * N.of_nat k < 2 ^ 64)%N.

(** What a server leaves, stopped at any time. *)
Lemma wok_keeps h0 dat0 k w :
  (3 * N.of_nat k < 2 ^ 64)%N -> wok h0 dat0 k w ->
  exists extra, length extra <= 1 /\ Forall asked extra /\
    forall d, d ∈ leaves_of w -> keeps k d (foldl (apply_data now) dat0 (wlog w ++ extra)).
Proof using Type.
  intros Hk Hw. destruct w as [wait x|d x]; cbn [wok wlog leaves_of] in *.
  - destruct Hw as (_ & _ & _ & _ & _ & o & Hw & Hc & Hi). exists []. split; [simpl; lia|]. split; [constructor|]. rewrite app_nil_r.
    intros d Hd. exists (full h0 (acks (mem x))), o. destruct Hw as (_ & Hh & _ & Hroom & _ & _ & _ & Hb & Hp). cbn [wsys mem disk] in *.
    split; [done|]. split; [eapply remains_R; [|exact Hd]; by eapply phase_holds|].
    split; [done|]. split; [done|]. split; [|done]. unfold full, acks. lia.
  - destruct Hw as (o & extra & Hl & Ha & Hh & Hho & Hc & Hi & Hr). exists extra. split; [done|]. split; [done|].
    intros d' ->%list_elem_of_singleton. by eexists _, o.
Qed.

(** ** The start *)

Lemma apply_data_live n d r : all_live now d -> (n <= now)%Z -> apply_data n d r = apply_data now d r.
Proof using Type. intros Hl Hn. unfold apply_data. destruct (op r); try done. by apply ttl_data_live. Qed.

Lemma boot_replay rs (st : CacheyStore I DiskWal) (clk : nat -> Z) :
  store_ok st -> fine_data text now (data st) -> Forall (fine text now) rs -> Forall (fun r => knownOp (op r) = true) rs ->
  (forall i, (clk i <= now)%Z) ->
  exists st' clk', foldl (fun p r => noting (boot_ApplyRecord r) p) (None, mkBoot (Some st) clk) rs = (None, mkBoot (Some st') clk') /\
    data st' = foldl (apply_data now) (data st) rs /\ store_ok st' /\ (forall i, (clk' i <= now)%Z).
Proof using EL.
  intros Hok Hd Hf. revert st clk Hok Hd. induction Hf as [|r rs Hr _ IH]; intros st clk Hok Hd Hn Hclk; [by exists st, clk|].
  apply Forall_cons in Hn as [Hn Hns]. destruct (ApplyRecord_moves st (clk 0) r Hok) as (e & st1 & E & Hd1 & _ & Hok1 & _ & He).
  assert (e = None) as -> by (destruct e; [|done]; destruct (proj1 He ltac:(done)) as [o Ho]; by rewrite Ho in Hn).
  rewrite apply_data_live in Hd1 by (done || apply Hd). cbn [foldl]. unfold noting at 2. cbn [fst snd]. unfold boot_ApplyRecord at 2.
  cbn [bStore bClock mbind option_bind]. rewrite E, <- Hd1. apply IH; [done| |done|intros; apply Hclk].
  rewrite Hd1. by apply fine_data_apply.
Qed.

Lemma history_known h m n : history h -> Forall (fun r => knownOp (op r) = true) (span h m n).
Proof using Type.
  intros [_ Hh]. apply Forall_forall. intros r Hr. unfold span in Hr. apply list_elem_of_lookup in Hr as [i [Hi _]%lookup_take_Some].
  rewrite lookup_drop in Hi. by apply Hh in Hi as (_ & ? & _).
Qed.

(** The store that the hooks of recovery build. *)
Lemma boot_onto h o (clk : nat -> Z) :
  history h -> clean text now h o -> (forall i, (clk i <= now)%Z) ->
  exists (st : CacheyStore I DiskWal) clk', foldl (fun p r => noting (boot_ApplyRecord r) p)
      (match o with Some sd => noting (boot_ApplySnapshot (snapshotEntries sd)) (None, mkBoot (Some NewCacheyStore) clk)
       | None => (None, mkBoot (Some NewCacheyStore) clk) end) (span h (boundary o) (length h)) = (None, mkBoot (Some st) clk') /\
    data st = image now h o /\ store_ok st.
Proof using EL.
  intros Hh (Hb & Hd & Hr) Hclk.
  assert (exists st : CacheyStore I DiskWal, match o with Some sd => noting (boot_ApplySnapshot (snapshotEntries sd)) (None, mkBoot (Some NewCacheyStore) clk)
       | None => (None, mkBoot (Some NewCacheyStore) clk) end = (None, mkBoot (Some st) clk) /\ data st = base_data o /\ store_ok st) as (st & -> & Hst & Hok).
  { destruct o as [sd|]; [|exists NewCacheyStore; split; [done|split; [done|apply store_ok_New]]].
    destruct (ApplySnapshot_moves (snapshotEntries sd) (NewCacheyStore : CacheyStore I DiskWal) store_ok_New) as (st & E & Hd' & _ & Hok).
    exists st. unfold noting, boot_ApplySnapshot. cbn [fst snd bStore mbind option_bind bClock]. by rewrite E. }
  destruct (boot_replay (span h (boundary o) (length h)) st clk Hok) as (st' & clk' & E & Hd' & Hok' & _);
    [by rewrite Hst|done|by apply history_known|done|]. exists st', clk'. split; [done|]. by rewrite Hd', Hst.
Qed.

(** The writer that the start opens. *)
Lemma opened_ok may SM h o k d e L :
  history h -> boundary o <= length h -> covers (SnapshotMeaning := SM) h o -> no_bad (outcomes e) ->
  d !! tmpWALName = None -> framed d activeWALName L -> chain h (boundary o) L (length h) ->
  Forall (img o L []) (create activeWALName d :: images e) -> (N.of_nat (length h + k) + 1 < 2 ^ 64)%N ->
  writer_ok may SM h PIdle o 0 k (mkSys (create activeWALName d) e
    (set_state StateIDLE (set_files (Some activeWALName) None (newWriter DefaultConfig (N.of_nat (length h)))))).
Proof using Type.
  intros Hh Hb Hcov He Ht Ha Hc Hi Hk.
  unfold writer_ok, number. cbn [mem disk io sent set_state set_files newWriter acked omap list_omap imap lastIndex hold controlRes length].
  rewrite app_nil_r. split_and!; try done.
  - cbn [list_omap length]. lia.
  - do 4 (split; [done|]). unfold create, framed in *. destruct (d !! activeWALName) as [c|] eqn:E.
    + split; [done|]. exists L. split; [by rewrite E, Ha|done].
    + split; [by rewrite lookup_insert_ne|]. exists L. subst L. split; [apply lookup_insert_eq|done].
Qed.

(** Opening the active WAL on what recovery leaves. *)
Lemma openActive_ok h o k L (s1 : Sys Writer) :
  history h -> boundary o <= length h -> no_bad (script s1) -> mem s1 = newWriter DefaultConfig (N.of_nat (length h)) ->
  disk s1 !! tmpWALName = None -> framed (disk s1) activeWALName L -> chain h (boundary o) L (length h) ->
  Forall (img o L []) (remains s1) -> (N.of_nat (length h + k) + 1 < 2 ^ 64)%N ->
  ends openActive s1
    (fun r s2 => r = Ok () /\ writer_ok no_record any_snapshot h PIdle o 0 k s2 /\ sent (mem s2) = [])
    (fun d _ => holds h o (length h) d).
Proof using Type.
  intros Hh Hb Hnb Hm Ht Ha Hc Hi Hk.
  assert (forall i, img o L [] i -> img o L [] (create activeWALName i)) as Hcr.
  { intros i Hr. unfold create. destruct (i !! activeWALName) eqn:E; [done|]. apply (img_active o L []); [done|].
    destruct Hr as (_ & HA & _). unfold wal_file in HA. rewrite E in HA. subst L. apply (decodes_full []). }
  apply ends_bind, (ends_change_nb (img o L [])); [done|done| | |].
  - intros i i' Hr [_ ->]%elem_of_if_same. auto.
  - intros e He HRe. apply ends_modify. cbn [mem disk io]. rewrite Hm. split; [done|]. split; [|done].
    apply (opened_ok _ _ h o k (disk s1) e L); try done. constructor; [|done]. apply Hcr. by apply Forall_inv in Hi.
  - intros d Hd. apply (img_holds _ _ _ L []); [done|by rewrite app_nil_r|done].
Qed.

(** [Open] past the making of the directory. *)
Lemma started h o k d sc (clk : nat -> Z) wait :
  history h -> holds h o (length h) d -> clean text now h o -> no_bad sc -> (forall i, (clk i <= now)%Z) -> (forall i, wait i = Waits) ->
  (N.of_nat (length h + k) + 1 < 2 ^ 64)%N -> (3 * N.of_nat k < 2 ^ 64)%N ->
  match Recover standalone_hooks (boot d sc (mkBoot (Some NewCacheyStore) clk)) with
  | Done (Ok last) s1 => exists st : CacheyStore I DiskWal, bStore (mem s1) = Some st /\ data st = image now h o /\
      match openActive (mkSys (disk s1) (io s1) (newWriter DefaultConfig last)) with
      | Done r s2 => r = Ok () /\
          alive h (data st) k (SetWAL st (Up wait (mkSys (disk s2) (io s2) (mkWAL (mem s2) (newManager DefaultConfig) false 0 []))))
      | Crashed d' _ => holds h o (length h) d'
      end
  | Done (Err _) _ => False
  | Crashed d' _ => holds h o (length h) d'
  end.
Proof using EL.
  intros Hh Hho Hc Hsc Hclk Hwait Hk Hk3. destruct (boot_onto h o clk Hh Hc Hclk) as (st & clk' & Hst & Hdat & Hok).
  pose proof (Recover_onto boot_ApplySnapshot boot_ApplyRecord h o (length h) boot_Snapshot d sc _ _ Hh Hho Hsc Hst) as Hrec.
  fold standalone_hooks in Hrec. destruct (Recover _ _) as [r s1|d' x]; [|apply Hrec].
  destruct Hrec as (-> & Hm & Hsc1 & _ & Ht & L & HL & HcL & HiL). exists st. rewrite Hm. split; [done|]. split; [done|].
  pose proof (openActive_ok h o k L (mkSys (disk s1) (io s1) (newWriter DefaultConfig (N.of_nat (length h)))) Hh
    ltac:(apply Hc) Hsc1 eq_refl Ht HL HcL HiL Hk) as He. unfold ends in He.
  destruct (openActive _) as [r s2|d' w]; [|done]. destruct He as (-> & Hw & Hs). split; [done|].
  split; [done|]. pose proof (fine_image _ _ _ _ Hc) as [Hl _]. rewrite <- Hdat in Hl. split; [done|].
  assert (acks (mkWAL (mem s2) (newManager DefaultConfig) false 0 []) = []) as Hack by (unfold acks; cbn [writer]; by rewrite Hs).
  eexists. split; [reflexivity|]. cbn [wok wlog mem]. rewrite Hack. split; [|split; [constructor|done]].
  split; [done|]. split_and!; [done|done|done|done|]. exists o. cbn [mem]. rewrite Hack. unfold full, number, imap. rewrite app_nil_r.
  split; [by destruct s2|]. split; [done|]. by rewrite Hdat.
Qed.

Lemma start_ok k d dat (clk : nat -> Z) wait sc :
  keeps k d dat -> (forall i, (clk i <= now)%Z) -> (forall i, wait i = Waits) -> no_bad sc ->
  match runStandalone (I := I) clk wait sc d with
  | Serving s => data s = dat /\ exists h, alive h dat k s
  | Halted d' => keeps k d' dat
  | Exited _ | Panicked => False
  end.
Proof using EL.
  intros (h & o & Hh & Hho & Hc & <- & Hk & Hk3) Hclk Hwait Hsc.
  assert (forall d', holds h o (length h) d' -> keeps k d' (image now h o)) as Hkeep by (intros d' Hd'; exists h, o; done).
  unfold runStandalone, Open. unfold mbind at 1, sys_bind at 1, idle, respond, boot, script, remains. cbn [io outcomes images disk mem fst snd].
  destruct sc as [|[|n|i] sc']; [|apply Forall_inv_tail in Hsc|by apply Forall_inv in Hsc|].
  3:{ apply Hkeep. by destruct i. }
  all: pose proof (started h o k d _ clk wait Hh Hho Hc Hsc Hclk Hwait Hk Hk3) as Hs; unfold boot in Hs.
  all: destruct (Recover _ _) as [[last|e] s1|d' x]; [|done|by apply Hkeep].
  all: destruct Hs as (st & Hst & Hdat & Hs); destruct (openActive _) as [r s2|d' w]; [|by apply Hkeep].
  all: destruct Hs as [-> Hs]; cbn [mem fst snd disk io]; rewrite Hst; split; [done|]; exists h; by rewrite <- Hdat.
Qed.
End server.

(** C14: a standalone server is started on a directory which stands for [dat], on a
    machine whose file calls succeed until it crashes in one of them. It either
    crashes in the start, and the directory left still stands for [dat], or serves
    [dat]. Requests and log rotations then run without a panic, and whenever it stops
    or crashes, every image that the disk may be left with stands for the contents of
    its store, with at most one record besides that a client had asked for; so the
    next start serves every acknowledged mutation. The conditions: no file call
    returns an error; every append waits for its result; the keys and values are
    texts that JSON carries unchanged; and nothing expires by the time [now] that
    bounds all clock readings, in the run and in the directory (an expiry that is set
    again may be lost, see the findings). *)
Theorem standalone_survives {J : Json} {JL : JsonLaws} {I : Type} {EI : ExpirationIndex I} {EL : ExpirationIndexLaws I}
    (text : string -> Prop) (now : Z) (k : nat) (d : Disk) (dat : gmap string Entry) (clk : nat -> Z) (wait : nat -> patience)
    (sc : list outcome) (evs : list Event) :
  (forall o k v e i, text k -> text v -> json_fits (with_logIndex (store_record o k v e) i)) ->
  (forall b es, Forall (fun e => text (skey e) /\ text (sval e)) es -> snap_fits (mkSnapshotData b (Some (snapshot_map es)))) ->
  keeps text now (length evs + k) d dat -> (forall i, (clk i <= now)%Z) -> (forall i, wait i = Waits) -> no_bad sc ->
  Forall (ev_ok text now) evs ->
  match runStandalone (I := I) clk wait sc d with
  | Serving s => data s = dat /\
      exists s' w extra, live_through s evs = Some s' /\ wal s' = Some w /\
        length extra <= 1 /\ Forall (fun r => Some r ∈ asks <$> evs) extra /\
        forall d', d' ∈ leaves_of w -> keeps text now k d' (foldl (apply_data now) (data s') extra)
  | Halted d' => keeps text now (length evs + k) d' dat
  | Exited _ | Panicked => False
  end.
Proof.
  intros Hj Hs Hd Hclk Hwait Hsc Hevs. set (asked := fun r => Some r ∈ asks <$> evs).
  pose proof (start_ok text now asked _ _ _ clk wait sc Hd Hclk Hwait Hsc) as Hst.
  assert (3 * N.of_nat k < 2 ^ 64)%N as Hk by (destruct Hd as (? & ? & ?); lia).
  destruct (runStandalone clk wait sc d) as [s|e| |d']; try done. destruct Hst as (Hdat & h & Hal). split; [done|].
  destruct (live_logged text Hj Hs now asked h dat k evs s Hal Hevs) as (s' & E & _ & _ & w & Hw & Hok & _ & Hd'); [done|].
  destruct (wok_keeps _ _ _ _ _ _ _ Hk Hok) as (extra & Hl & Ha & Hkeep). exists s', w, extra.
  split_and!; try done. intros d' Hin. rewrite Hd', <- foldl_app. auto.
Qed.

(** Two puts, the machine crashes in the write of the second. *)
Lemma empty_keeps : keeps (fun _ => True) 20 4 ∅ ∅.
Proof.
  exists [], None. split; [split; [done|intros i r; by rewrite lookup_nil]|].
  split; [split; [done|]; split; [simpl; lia|]; by exists [], []|].
  split; [|done]. split; [simpl; lia|]. split; [|constructor]. by split; intros k e; unfold base_data; rewrite lookup_empty.
Qed.

Definition crash_evs : list Event := [EvRequest (ReqPut "a" "1"); EvTick 11; EvRequest (ReqPut "b" "2"); EvRequest (ReqGet 12 12 "a")].
Definition crash_script : list outcome := [Good; Good; Good; Good; CrashAt 3].

(** The start succeeds, [a] is served, [b] is not, and the directory left stands
    for what was served, with [b] at most. *)
Lemma standalone_survives_witness :
  match runStandalone (I := Index) (fun _ => 5%Z) (fun _ => Waits) crash_script ∅ with
  | Serving s => data s = ∅ /\
      exists s' w extra, live_through s crash_evs = Some s' /\ wal s' = Some w /\
        length extra <= 1 /\ Forall (fun r => Some r ∈ asks <$> crash_evs) extra /\
        forall d', d' ∈ leaves_of w -> keeps (fun _ => True) 20 0 d' (foldl (apply_data 20) (data s') extra)
  | _ => False
  end.
Proof.
  pose proof (standalone_survives (I := Index) (fun _ => True) 20 0 ∅ ∅ (fun _ => 5%Z) (fun _ => Waits) crash_script crash_evs) as H.
  assert (exists s, runStandalone (I := Index) (fun _ => 5%Z) (fun _ => Waits) crash_script ∅ = Serving s) as [s E] by (vm_compute; eauto).
  rewrite E in *. apply H; [done|done|exact empty_keeps|lia|done|by repeat constructor|].
  repeat constructor; simpl; try lia; by intros.
Defined.

Example crash_seen :
  match runStandalone (I := Index) (fun _ => 5%Z) (fun _ => Waits) crash_script ∅ with
  | Serving s =>
      match live_through s crash_evs with
      | Some s' => data s' !! "a" = Some (mkEntry "1" 0) /\ data s' !! "b" = None /\
          match wal s' with Some (Down d _) => is_Some (d !! activeWALName) | _ => False end
      | None => False
      end
  | _ => False
  end.
Proof. vm_compute. eauto. Qed.
