(* ===== verification/RaftLog.v ===== *)
(** * The replicated log and the Raft messages (internal/raft/log.go, message.go)

    Indices and terms are [nat]: they count log entries and elections, and the
    code never comes near 2^64. A slice index out of range is a panic, [None]. *)

From S2P Require Import Prelude WalTypes.

Record Configuration : Type := mkConfiguration {
  Voters : list string;
  Addrs : gmap string string
}.

(** A nil [Command] or [Config] is [None]. *)
Record Entry : Type := mkEntry {
  eTerm : nat;
  eCommand : option bytes;
  eConfig : option Configuration
}.

#[export] Instance Configuration_eq_dec : EqDecision Configuration.
Proof. solve_decision. Defined.
#[export] Instance Entry_eq_dec : EqDecision Entry.
Proof. solve_decision. Defined.

Definition noop (t : nat) : Entry := mkEntry t None None.

Record Log : Type := mkLog { base : nat; entries : list Entry }.

Definition NewLog : Log := mkLog 0 [noop 0].

(** [l.base + len(l.entries) - 1]. *)
Definition log_lastIndex (l : Log) : nat := base l + length (entries l) - 1.
Definition log_lastTerm (l : Log) : option nat := eTerm <$> last (entries l).
Definition baseIndex (l : Log) : nat := base l.

(** [l.entries[i-l.base]]: below the base the index wraps around and panics. *)
Definition entryAt (l : Log) (i : nat) : option Entry :=
  if (i <? base l)%nat then None else entries l !! (i - base l).
Definition termAt (l : Log) (i : nat) : option nat := eTerm <$> entryAt l i.

Definition log_append (l : Log) (es : list Entry) : Log := mkLog (base l) (entries l ++ es).

(** Slicing beyond the length panics too (the capacity is not relied on). *)
Definition truncate (l : Log) (from : nat) : option Log :=
  if ((from <? base l) || (length (entries l) <? from - base l))%nat then None
  else Some (mkLog (base l) (take (from - base l) (entries l))).

Definition log_set (l : Log) (i : nat) (e : Entry) : Log :=
  if (i <? base l)%nat then l
  else
    let es := if (i <? base l + length (entries l))%nat then take (i - base l) (entries l)
              else entries l in
    mkLog (base l) (es ++ [e]).

Definition slice (l : Log) (from : nat) : option (list Entry) :=
  if ((from <? base l) || (length (entries l) <? from - base l))%nat then None
  else Some (drop (from - base l) (entries l)).

Definition compact (l : Log) (lastIncluded lastIncludedTerm : nat) : option Log :=
  if (log_lastIndex l <=? lastIncluded)%nat then Some (mkLog lastIncluded [noop lastIncludedTerm])
  else if (lastIncluded + 1 <? base l)%nat then None
  else Some (mkLog lastIncluded (noop lastIncludedTerm :: drop (lastIncluded + 1 - base l) (entries l))).

Definition reset (l : Log) (i t : nat) : Log := mkLog i [noop t].

(** ** Messages *)

Record RequestVote : Type := mkRequestVote {
  rvTerm : nat; rvCandidateID : string; rvLastLogIndex : nat; rvLastLogTerm : nat
}.
Record RequestVoteReply : Type := mkRequestVoteReply { rrTerm : nat; rrVoteGranted : bool }.
Record AppendEntries : Type := mkAppendEntries {
  aeTerm : nat; aeLeaderID : string; aePrevLogIndex : nat; aePrevLogTerm : nat;
  aeEntries : list Entry; aeLeaderCommit : nat
}.
Record AppendEntriesReply : Type := mkAppendEntriesReply { arTerm : nat; arSuccess : bool }.
Record InstallSnapshot : Type := mkInstallSnapshot {
  isTerm : nat; isLeaderID : string; isLastIncludedIndex : nat; isLastIncludedTerm : nat; isData : bytes
}.
Record InstallSnapshotReply : Type := mkInstallSnapshotReply { irTerm : nat }.

(** ** The log as a partial function from indices to entries

    [log_ok]: the dummy entry is there. The entries above the base are what the
    operations are about. *)

Definition log_ok (l : Log) : Prop := entries l <> [].

Lemma log_ok_length l : log_ok l -> 1 <= length (entries l).
Proof. unfold log_ok. destruct (entries l); simpl; [done|lia]. Qed.

Lemma lastIndex_base l : log_ok l -> base l <= log_lastIndex l.
Proof. intros H%log_ok_length. unfold log_lastIndex. lia. Qed.

Lemma length_entries l : log_ok l -> length (entries l) = log_lastIndex l - base l + 1.
Proof. intros H%log_ok_length. unfold log_lastIndex. lia. Qed.

Lemma entryAt_Some l i : log_ok l -> base l <= i <= log_lastIndex l -> exists e, entryAt l i = Some e.
Proof.
  intros Hl Hi. unfold entryAt. rewrite (proj2 (Nat.ltb_ge _ _)) by lia.
  apply lookup_lt_is_Some. rewrite length_entries by done. lia.
Qed.

Lemma entryAt_range l i e : log_ok l -> entryAt l i = Some e -> base l <= i <= log_lastIndex l.
Proof.
  intros Hl. unfold entryAt. case_match eqn:E; [done|]. bool_to_prop.
  intros Hi%lookup_lt_Some. rewrite length_entries in Hi by done.
  pose proof (lastIndex_base l Hl). lia.
Qed.

Lemma lastIndex_append l es : log_ok l -> log_lastIndex (log_append l es) = log_lastIndex l + length es.
Proof. intros H%log_ok_length. unfold log_lastIndex, log_append. simpl. rewrite length_app. lia. Qed.

Lemma log_ok_append l es : log_ok l -> log_ok (log_append l es).
Proof. unfold log_ok, log_append. simpl. by destruct (entries l). Qed.

Lemma entryAt_append_old l es i : log_ok l -> i <= log_lastIndex l -> entryAt (log_append l es) i = entryAt l i.
Proof.
  intros Hl Hi. unfold entryAt, log_append. simpl. case_match eqn:E; [done|]. bool_to_prop.
  apply lookup_app_l. rewrite length_entries by done. lia.
Qed.

Lemma entryAt_append_new l e : log_ok l -> entryAt (log_append l [e]) (log_lastIndex l + 1) = Some e.
Proof.
  intros Hl. pose proof (lastIndex_base l Hl). unfold entryAt, log_append. simpl.
  rewrite (proj2 (Nat.ltb_ge _ _)) by lia. apply list_lookup_middle.
  rewrite length_entries by done. lia.
Qed.

(** Truncation keeps exactly the entries below the cut. *)
Lemma truncate_spec l from :
  log_ok l -> base l < from <= log_lastIndex l + 1 ->
  exists l', truncate l from = Some l' /\ log_ok l' /\ base l' = base l /\ log_lastIndex l' = from - 1 /\
    forall i, i < from -> entryAt l' i = entryAt l i.
Proof.
  intros Hl Hr. pose proof (lastIndex_base l Hl). unfold truncate.
  rewrite (proj2 (Nat.ltb_ge _ _)) by lia. simpl.
  rewrite (proj2 (Nat.ltb_ge _ _)) by (rewrite length_entries by done; lia).
  eexists. split; [done|]. split; [|split; [done|]].
  - unfold log_ok. simpl. intros Hz%(f_equal length). rewrite length_take in Hz.
    apply log_ok_length in Hl. simpl in Hz. lia.
  - unfold log_lastIndex at 1. simpl. rewrite length_take, length_entries by done. split; [lia|].
    intros i Hi. unfold entryAt. simpl. case_match eqn:E; [done|]. bool_to_prop.
    apply lookup_take_lt. lia.
Qed.

(** [set] at an index above the base and at most one past the end replaces the
    entry there and drops what follows. *)
Lemma log_set_spec l i e :
  log_ok l -> base l < i <= log_lastIndex l + 1 ->
  let l' := log_set l i e in
  log_ok l' /\ base l' = base l /\ log_lastIndex l' = i /\ entryAt l' i = Some e /\
  forall j, j < i -> entryAt l' j = entryAt l j.
Proof.
  intros Hl Hr l'. pose proof (lastIndex_base l Hl).
  assert (l' = mkLog (base l) (take (i - base l) (entries l) ++ [e])) as ->.
  { unfold l', log_set. rewrite (proj2 (Nat.ltb_ge _ _)) by lia.
    destruct (Nat.ltb_spec i (base l + length (entries l))); [done|].
    by rewrite take_ge by lia. }
  assert (length (take (i - base l) (entries l)) = i - base l) as Hlen
    by (rewrite length_take, length_entries by done; lia).
  split; [by unfold log_ok; simpl; destruct (take _ _)|]. split; [done|].
  split; [unfold log_lastIndex; simpl; rewrite length_app, Hlen; simpl; lia|].
  unfold entryAt. simpl. split.
  - rewrite (proj2 (Nat.ltb_ge _ _)) by lia. by apply list_lookup_middle.
  - intros j Hj. case_match eqn:E; [done|]. bool_to_prop.
    rewrite lookup_app_l by lia. apply lookup_take_lt. lia.
Qed.

(** Compaction keeps the entries above the point and the term at it. *)
Lemma compact_spec l i t :
  log_ok l -> base l <= i <= log_lastIndex l -> termAt l i = Some t ->
  exists l', compact l i t = Some l' /\ log_ok l' /\ base l' = i /\ log_lastIndex l' = log_lastIndex l /\
    termAt l' i = Some t /\ forall j, i < j -> entryAt l' j = entryAt l j.
Proof.
  intros Hl Hi Ht. unfold compact. destruct (Nat.leb_spec (log_lastIndex l) i).
  - assert (i = log_lastIndex l) as -> by lia. eexists. split; [done|]. split; [done|].
    split; [done|]. split; [unfold log_lastIndex at 1; simpl; lia|].
    split; [unfold termAt, entryAt; simpl; by rewrite Nat.ltb_irrefl, Nat.sub_diag|].
    intros j Hj. unfold entryAt. simpl.
    rewrite !(proj2 (Nat.ltb_ge _ _)) by lia. rewrite !lookup_ge_None_2; [done| |simpl; lia].
    rewrite length_entries by done. lia.
  - rewrite (proj2 (Nat.ltb_ge _ _)) by lia. eexists. split; [done|]. split; [done|]. split; [done|].
    split; [unfold log_lastIndex at 1; simpl; rewrite length_drop, length_entries by done; lia|].
    split; [unfold termAt, entryAt; simpl; by rewrite Nat.ltb_irrefl, Nat.sub_diag|].
    intros j Hj. unfold entryAt. simpl. rewrite !(proj2 (Nat.ltb_ge _ _)) by lia.
    replace (j - i) with (S (j - i - 1)) by lia. simpl. rewrite lookup_drop. f_equal. lia.
Qed.

Lemma slice_spec l from :
  log_ok l -> base l <= from <= log_lastIndex l + 1 ->
  exists es, slice l from = Some es /\ length es = log_lastIndex l + 1 - from /\
    forall k, es !! k = entryAt l (from + k).
Proof.
  intros Hl Hr. pose proof (lastIndex_base l Hl). unfold slice.
  rewrite (proj2 (Nat.ltb_ge _ _)) by lia. simpl.
  rewrite (proj2 (Nat.ltb_ge _ _)) by (rewrite length_entries by done; lia).
  eexists. split; [done|]. split; [rewrite length_drop, length_entries by done; lia|].
  intros k. rewrite lookup_drop. unfold entryAt. rewrite (proj2 (Nat.ltb_ge _ _)) by lia. f_equal. lia.
Qed.

Lemma lastTerm_spec l : log_ok l -> log_lastTerm l = termAt l (log_lastIndex l).
Proof.
  intros Hl. unfold log_lastTerm, termAt, entryAt. pose proof (lastIndex_base l Hl).
  rewrite (proj2 (Nat.ltb_ge _ _)) by lia. rewrite last_lookup. do 2 f_equal.
  rewrite length_entries by done. lia.
Qed.
