(* ===== verification/Raft.v ===== *)
(** * A Raft node (internal/raft: raft.go, read.go, persist.go, snapshot.go, meta.go)

    The node's state is a record with the source's fields; the mutex makes each
    handler one step, a function from the state to the state. The log store, the
    snapshot store, the meta store and the state machine are interfaces in the
    source and classes here. An RPC is split where the source drops the lock: the
    function that builds the request and the one that handles the reply. The
    election timer, the role observer and the log output change no state and are
    left out. [None] is a panic. *)

From S2P Require Import Prelude WalTypes RaftLog.

Inductive Role : Type := RoleFollower | RoleCandidate | RoleLeader.

#[export] Instance Role_eq_dec : EqDecision Role.
Proof. solve_decision. Defined.

Record Snapshot : Type := mkSnapshot {
  LastIncludedIndex : nat; LastIncludedTerm : nat; SData : bytes
}.

Record CommittedMeta : Type := mkCommittedMeta {
  mVoters : list string; mAddrs : gmap string string; mIndex : nat
}.

(** ** Interfaces *)

(** The replicated state machine: the apply function and the two snapshot
    callbacks of [SetSnapshotCallbacks]. *)
Class StateMachine (F : Type) : Type := {
  sm_apply : F -> Entry -> F;
  sm_take : F -> result bytes;
  sm_install : F -> bytes -> option error * F
}.

Class SnapshotStore (SS : Type) : Type := {
  ss_save : SS -> Snapshot -> SS * option error;
  ss_load : SS -> result (option Snapshot)
}.

Class MetaStore (MS : Type) : Type := {
  ms_save : MS -> CommittedMeta -> MS * option error;
  ms_load : MS -> result (option CommittedMeta)
}.

(** [encoding/json] on configurations. *)
Class ConfigJson : Type := {
  json_config : Configuration -> result bytes;
  json_unconfig : bytes -> option Configuration
}.

(** ** State *)

Record Node (F W SS MS : Type) : Type := mkNode {
  nid : string;
  peers : list string;
  role : Role;
  currentTerm : nat;
  votedFor : string;
  nlog : Log;
  logStore : option W;
  commitIndex : nat;
  lastApplied : nat;
  leaderID : string;
  noopIndex : nat;
  nextIndex : gmap string nat;
  matchIndex : gmap string nat;
  joining : gset string;
  snapshotStore : option SS;
  snapshotThreshold : nat;
  metaStore : option MS;
  pendingStepDown : bool;
  removed : bool;
  addrs : gmap string string;
  fsm : F
}.
Arguments mkNode {F W SS MS} _ _ _ _ _ _ _ _ _ _ _ _ _ _ _ _ _ _ _ _ _.
Arguments nid {F W SS MS} _.
Arguments peers {F W SS MS} _.
Arguments role {F W SS MS} _.
Arguments currentTerm {F W SS MS} _.
Arguments votedFor {F W SS MS} _.
Arguments nlog {F W SS MS} _.
Arguments logStore {F W SS MS} _.
Arguments commitIndex {F W SS MS} _.
Arguments lastApplied {F W SS MS} _.
Arguments leaderID {F W SS MS} _.
Arguments noopIndex {F W SS MS} _.
Arguments nextIndex {F W SS MS} _.
Arguments matchIndex {F W SS MS} _.
Arguments joining {F W SS MS} _.
Arguments snapshotStore {F W SS MS} _.
Arguments snapshotThreshold {F W SS MS} _.
Arguments metaStore {F W SS MS} _.
Arguments pendingStepDown {F W SS MS} _.
Arguments removed {F W SS MS} _.
Arguments addrs {F W SS MS} _.
Arguments fsm {F W SS MS} _.

Section setters.
Context {F W SS MS : Type}.
Implicit Types n : Node F W SS MS.

Definition set_peers (x : list string) n : Node F W SS MS :=
  mkNode (nid n) x (role n) (currentTerm n) (votedFor n) (nlog n) (logStore n) (commitIndex n)
    (lastApplied n) (leaderID n) (noopIndex n) (nextIndex n) (matchIndex n) (joining n)
    (snapshotStore n) (snapshotThreshold n) (metaStore n) (pendingStepDown n) (removed n)
    (addrs n) (fsm n).
Definition set_role (x : Role) n : Node F W SS MS :=
  mkNode (nid n) (peers n) x (currentTerm n) (votedFor n) (nlog n) (logStore n) (commitIndex
    n) (lastApplied n) (leaderID n) (noopIndex n) (nextIndex n) (matchIndex n) (joining n)
    (snapshotStore n) (snapshotThreshold n) (metaStore n) (pendingStepDown n) (removed n)
    (addrs n) (fsm n).
Definition set_term (x : nat) n : Node F W SS MS :=
  mkNode (nid n) (peers n) (role n) x (votedFor n) (nlog n) (logStore n) (commitIndex n)
    (lastApplied n) (leaderID n) (noopIndex n) (nextIndex n) (matchIndex n) (joining n)
    (snapshotStore n) (snapshotThreshold n) (metaStore n) (pendingStepDown n) (removed n)
    (addrs n) (fsm n).
Definition set_votedFor (x : string) n : Node F W SS MS :=
  mkNode (nid n) (peers n) (role n) (currentTerm n) x (nlog n) (logStore n) (commitIndex n)
    (lastApplied n) (leaderID n) (noopIndex n) (nextIndex n) (matchIndex n) (joining n)
    (snapshotStore n) (snapshotThreshold n) (metaStore n) (pendingStepDown n) (removed n)
    (addrs n) (fsm n).
Definition set_log (x : Log) n : Node F W SS MS :=
  mkNode (nid n) (peers n) (role n) (currentTerm n) (votedFor n) x (logStore n) (commitIndex
    n) (lastApplied n) (leaderID n) (noopIndex n) (nextIndex n) (matchIndex n) (joining n)
    (snapshotStore n) (snapshotThreshold n) (metaStore n) (pendingStepDown n) (removed n)
    (addrs n) (fsm n).
Definition set_logStore (x : option W) n : Node F W SS MS :=
  mkNode (nid n) (peers n) (role n) (currentTerm n) (votedFor n) (nlog n) x (commitIndex n)
    (lastApplied n) (leaderID n) (noopIndex n) (nextIndex n) (matchIndex n) (joining n)
    (snapshotStore n) (snapshotThreshold n) (metaStore n) (pendingStepDown n) (removed n)
    (addrs n) (fsm n).
Definition set_commitIndex (x : nat) n : Node F W SS MS :=
  mkNode (nid n) (peers n) (role n) (currentTerm n) (votedFor n) (nlog n) (logStore n) x
    (lastApplied n) (leaderID n) (noopIndex n) (nextIndex n) (matchIndex n) (joining n)
    (snapshotStore n) (snapshotThreshold n) (metaStore n) (pendingStepDown n) (removed n)
    (addrs n) (fsm n).
Definition set_lastApplied (x : nat) n : Node F W SS MS :=
  mkNode (nid n) (peers n) (role n) (currentTerm n) (votedFor n) (nlog n) (logStore n)
    (commitIndex n) x (leaderID n) (noopIndex n) (nextIndex n) (matchIndex n) (joining n)
    (snapshotStore n) (snapshotThreshold n) (metaStore n) (pendingStepDown n) (removed n)
    (addrs n) (fsm n).
Definition set_leaderID (x : string) n : Node F W SS MS :=
  mkNode (nid n) (peers n) (role n) (currentTerm n) (votedFor n) (nlog n) (logStore n)
    (commitIndex n) (lastApplied n) x (noopIndex n) (nextIndex n) (matchIndex n) (joining n)
    (snapshotStore n) (snapshotThreshold n) (metaStore n) (pendingStepDown n) (removed n)
    (addrs n) (fsm n).
Definition set_noopIndex (x : nat) n : Node F W SS MS :=
  mkNode (nid n) (peers n) (role n) (currentTerm n) (votedFor n) (nlog n) (logStore n)
    (commitIndex n) (lastApplied n) (leaderID n) x (nextIndex n) (matchIndex n) (joining n)
    (snapshotStore n) (snapshotThreshold n) (metaStore n) (pendingStepDown n) (removed n)
    (addrs n) (fsm n).
Definition set_nextIndex (x : gmap string nat) n : Node F W SS MS :=
  mkNode (nid n) (peers n) (role n) (currentTerm n) (votedFor n) (nlog n) (logStore n)
    (commitIndex n) (lastApplied n) (leaderID n) (noopIndex n) x (matchIndex n) (joining n)
    (snapshotStore n) (snapshotThreshold n) (metaStore n) (pendingStepDown n) (removed n)
    (addrs n) (fsm n).
Definition set_matchIndex (x : gmap string nat) n : Node F W SS MS :=
  mkNode (nid n) (peers n) (role n) (currentTerm n) (votedFor n) (nlog n) (logStore n)
    (commitIndex n) (lastApplied n) (leaderID n) (noopIndex n) (nextIndex n) x (joining n)
    (snapshotStore n) (snapshotThreshold n) (metaStore n) (pendingStepDown n) (removed n)
    (addrs n) (fsm n).
Definition set_joining (x : gset string) n : Node F W SS MS :=
  mkNode (nid n) (peers n) (role n) (currentTerm n) (votedFor n) (nlog n) (logStore n)
    (commitIndex n) (lastApplied n) (leaderID n) (noopIndex n) (nextIndex n) (matchIndex n) x
    (snapshotStore n) (snapshotThreshold n) (metaStore n) (pendingStepDown n) (removed n)
    (addrs n) (fsm n).
Definition set_snapshotStore (x : option SS) n : Node F W SS MS :=
  mkNode (nid n) (peers n) (role n) (currentTerm n) (votedFor n) (nlog n) (logStore n)
    (commitIndex n) (lastApplied n) (leaderID n) (noopIndex n) (nextIndex n) (matchIndex n)
    (joining n) x (snapshotThreshold n) (metaStore n) (pendingStepDown n) (removed n) (addrs
    n) (fsm n).
Definition set_metaStore (x : option MS) n : Node F W SS MS :=
  mkNode (nid n) (peers n) (role n) (currentTerm n) (votedFor n) (nlog n) (logStore n)
    (commitIndex n) (lastApplied n) (leaderID n) (noopIndex n) (nextIndex n) (matchIndex n)
    (joining n) (snapshotStore n) (snapshotThreshold n) x (pendingStepDown n) (removed n)
    (addrs n) (fsm n).
Definition set_pendingStepDown (x : bool) n : Node F W SS MS :=
  mkNode (nid n) (peers n) (role n) (currentTerm n) (votedFor n) (nlog n) (logStore n)
    (commitIndex n) (lastApplied n) (leaderID n) (noopIndex n) (nextIndex n) (matchIndex n)
    (joining n) (snapshotStore n) (snapshotThreshold n) (metaStore n) x (removed n) (addrs n)
    (fsm n).
Definition set_removed (x : bool) n : Node F W SS MS :=
  mkNode (nid n) (peers n) (role n) (currentTerm n) (votedFor n) (nlog n) (logStore n)
    (commitIndex n) (lastApplied n) (leaderID n) (noopIndex n) (nextIndex n) (matchIndex n)
    (joining n) (snapshotStore n) (snapshotThreshold n) (metaStore n) (pendingStepDown n) x
    (addrs n) (fsm n).
Definition set_addrs (x : gmap string string) n : Node F W SS MS :=
  mkNode (nid n) (peers n) (role n) (currentTerm n) (votedFor n) (nlog n) (logStore n)
    (commitIndex n) (lastApplied n) (leaderID n) (noopIndex n) (nextIndex n) (matchIndex n)
    (joining n) (snapshotStore n) (snapshotThreshold n) (metaStore n) (pendingStepDown n)
    (removed n) x (fsm n).
Definition set_fsm (x : F) n : Node F W SS MS :=
  mkNode (nid n) (peers n) (role n) (currentTerm n) (votedFor n) (nlog n) (logStore n)
    (commitIndex n) (lastApplied n) (leaderID n) (noopIndex n) (nextIndex n) (matchIndex n)
    (joining n) (snapshotStore n) (snapshotThreshold n) (metaStore n) (pendingStepDown n)
    (removed n) (addrs n) x.
End setters.


(** [RegisterPeer] of every address that is not empty. *)
Definition register_all (cfg known : gmap string string) : gmap string string :=
  filter (fun p => p.2 <> "") cfg ∪ known.

Section raft.
Context {F W SS MS : Type}.
Context `{!StateMachine F} `{!Wal W} `{!SnapshotStore SS} `{!MetaStore MS} `{!Json} `{!ConfigJson}.
Abbreviation Nd := (Node F W SS MS).
Implicit Types n : Nd.

(** [NewNode]: an empty id is refused; a threshold of 0 becomes the default. *)
Definition NewNode (id : string) (ps : list string) (threshold : nat) (f : F) : result Nd :=
  if String.eqb id "" then Err (Wrapped "raft: node id is required")
  else Ok (mkNode id ps RoleFollower 0 "" NewLog None 0 0 "" 0 ∅ ∅ ∅ None
             (if (threshold =? 0)%nat then 2000 else threshold) None false false ∅ f).

Definition SetLogStore (w : W) n : Nd := set_logStore (Some w) n.
Definition SetSnapshotStore (ss : SS) n : Nd := set_snapshotStore (Some ss) n.
Definition SetMetaStore (ms : MS) n : Nd := set_metaStore (Some ms) n.

Definition isVoter n (id : string) : bool := bool_decide (id ∈ peers n).
Definition majorityLocked n : nat := (length (peers n) + 1) / 2 + 1.
Definition replicateSetLocked n : gset string := list_to_set (peers n) ∪ joining n.
Definition VotersOf n : list string := nid n :: peers n.
Definition IsLeader n : bool := bool_decide (role n = RoleLeader).

(** A missing key of a Go map reads as 0. *)
Definition get0 (m : gmap string nat) (k : string) : nat := default 0 (m !! k).

(** ** Persistence (persist.go) *)

Definition with_raft (r : Record_) (t i : nat) : Record_ :=
  mkRecord (op r) (rkey r) (val r) (rexp r) (logIndex r) (N.of_nat t) (N.of_nat i) (config r) (rdata r).

(** The WAL record of an entry. *)
Definition entryRecord (e : Entry) : result Record_ :=
  match eConfig e with
  | Some c =>
      match json_config c with
      | Ok b => Ok (mkRecord OpConfig "" "" 0 0 0 0 b [])
      | Err err => Err err
      end
  | None =>
      match eCommand e with
      | Some b => match json_unrecord b with
                  | Some r => Ok r
                  | None => Err (Wrapped "json")
                  end
      | None => Ok (mkRecord OpNoop "" "" 0 0 0 0 [] [])
      end
  end.

(** [walLogStore.AppendEntry]. *)
Definition AppendEntry (w : W) (idx t : nat) (e : Entry) : W * option error :=
  match entryRecord e with
  | Err err => (w, Some err)
  | Ok r => wal_append w (with_raft r t idx)
  end.

Definition persistEntryLocked n (idx : nat) (e : Entry) : Nd * option error :=
  match logStore n with
  | None => (n, None)
  | Some w => let '(w', err) := AppendEntry w idx (eTerm e) e in (set_logStore (Some w') n, err)
  end.

(** The entry that a recovered record stands for. *)
Definition recordEntry (rec : Record_) : result Entry :=
  match op rec with
  | OpConfig => match json_unconfig (config rec) with
                | Some c => Ok (mkEntry (N.to_nat (term rec)) None (Some c))
                | None => Err (Wrapped "json")
                end
  | OpNoop => Ok (noop (N.to_nat (term rec)))
  | _ => match json_record rec with
         | Ok cmd => Ok (mkEntry (N.to_nat (term rec)) (Some cmd) None)
         | Err err => Err err
         end
  end.

Definition others n (voters : list string) : list string := filter (fun id => id <> nid n) voters.

Definition ApplyRecoveredRecord n (rec : Record_) : Nd * option error :=
  match recordEntry rec with
  | Err err => (n, Some err)
  | Ok e =>
      let i := N.to_nat (raftIndex rec) in
      if (i <=? baseIndex (nlog n))%nat then (n, None)
      else
        let n := set_log (log_set (nlog n) i e) n in
        match eConfig e with
        | None => (n, None)
        | Some c =>
            let n := set_peers (others n (Voters c)) n in
            (set_addrs (register_all (Addrs c) (addrs n)) n, None)
        end
  end.

(** ** Snapshots (snapshot.go) *)

Definition maybeCompactLocked n : option Nd :=
  if (snapshotThreshold n =? 0)%nat then Some n
  else if (log_lastIndex (nlog n) - baseIndex (nlog n) <? snapshotThreshold n)%nat then Some n
  else
    let idx := lastApplied n in
    if (idx <=? baseIndex (nlog n))%nat then Some n
    else
      t ← termAt (nlog n) idx;
      match sm_take (fsm n) with
      | Err _ => Some n
      | Ok d =>
          let '(n, err) :=
            match snapshotStore n with
            | None => (n, None)
            | Some ss => let '(ss', err) := ss_save ss (mkSnapshot idx t d) in
                         (set_snapshotStore (Some ss') n, err)
            end in
          match err with
          | Some _ => Some n
          | None => l ← compact (nlog n) idx t; Some (set_log l n)
          end
      end.

Definition RestoreSnapshot n (snap : Snapshot) : Nd * option error :=
  let '(err, f) := sm_install (fsm n) (SData snap) in
  let n := set_fsm f n in
  match err with
  | Some e => (n, Some e)
  | None =>
      let i := LastIncludedIndex snap in
      let n := set_log (reset (nlog n) i (LastIncludedTerm snap)) n in
      let n := if (commitIndex n <? i)%nat then set_commitIndex i n else n in
      let n := if (lastApplied n <? i)%nat then set_lastApplied i n else n in
      (n, None)
  end.

(** ** Membership (raft.go, meta.go) *)

(** Leader bookkeeping for the voters of a new configuration. *)
Definition track_new n (voters : list string) : Nd :=
  foldl (fun n id =>
    match nextIndex n !! id with
    | Some _ => n
    | None => set_matchIndex (<[id := 0]> (matchIndex n))
                (set_nextIndex (<[id := log_lastIndex (nlog n) + 1]> (nextIndex n)) n)
    end) n voters.

(** Drop the bookkeeping of those of [ids] that are not voters any more. *)
Definition drop_non_voters n (ids : list string) : Nd :=
  foldl (fun n id =>
    if isVoter n id then n
    else set_matchIndex (delete id (matchIndex n)) (set_nextIndex (delete id (nextIndex n)) n))
    n ids.

Definition applyConfigLocked n (cfg : Configuration) (idx : nat) : Nd :=
  let n := set_addrs (register_all (Addrs cfg) (addrs n)) n in
  let oldPeers := peers n in
  let n := set_peers (others n (Voters cfg)) n in
  let n := set_removed (negb (bool_decide (nid n ∈ Voters cfg))) n in
  let n := if IsLeader n then drop_non_voters (track_new n (Voters cfg)) oldPeers else n in
  let n := set_joining ∅ (drop_non_voters n (elements (joining n))) in
  let n := if (IsLeader n && removed n)%bool then set_pendingStepDown true n else n in
  match metaStore n with
  | None => n
  | Some ms => set_metaStore (Some (ms_save ms (mkCommittedMeta (Voters cfg) (Addrs cfg) idx)).1) n
  end.

Definition AdoptCommittedMeta n (m : CommittedMeta) : Nd :=
  let n' := set_peers (others n (mVoters m)) n in
  let n' := set_removed (negb (bool_decide (nid n ∈ mVoters m))) n' in
  set_addrs (register_all (mAddrs m) (addrs n)) n'.

(** ** Applying committed entries *)

Definition applyOne n : option Nd :=
  let n := set_lastApplied (lastApplied n + 1) n in
  e ← entryAt (nlog n) (lastApplied n);
  match eConfig e, eCommand e with
  | Some c, _ => Some (applyConfigLocked n c (lastApplied n))
  | None, Some _ => maybeCompactLocked (set_fsm (sm_apply (fsm n) e) n)
  | None, None => Some n
  end.

Fixpoint applyLoop (k : nat) n : option Nd :=
  match k with
  | O => Some n
  | S k' => n' ← applyOne n; applyLoop k' n'
  end.

(** One iteration per index in (lastApplied, commitIndex]. *)
Definition applyCommittedLocked n : option Nd := applyLoop (commitIndex n - lastApplied n) n.

(** ** Commitment *)

Definition countMatch n (N : nat) : nat :=
  1 + size (filter (fun p : string * nat => N <= p.2) (matchIndex n)).

(** The loop over the candidate indices: the new commit index. *)
Fixpoint commitScan n (commit : nat) (Ns : list nat) : option nat :=
  match Ns with
  | [] => Some commit
  | N :: Ns' =>
      t ← termAt (nlog n) N;
      if negb (t =? currentTerm n)%nat then commitScan n commit Ns'
      else if (majorityLocked n <=? countMatch n N)%nat then commitScan n N Ns'
      else Some commit
  end.

Definition updateCommitIndexLocked n : option Nd :=
  c ← commitScan n (commitIndex n)
        (seq (commitIndex n + 1) (log_lastIndex (nlog n) - commitIndex n));
  applyCommittedLocked (set_commitIndex c n).

(** ** Elections *)

Definition stepDownLocked n (t : nat) : Nd :=
  set_noopIndex 0 (set_leaderID "" (set_votedFor "" (set_role RoleFollower (set_term t n)))).

Definition becomeCandidate n : bool * Nd :=
  if (IsLeader n || removed n)%bool then (false, n)
  else (true, set_leaderID "" (set_votedFor (nid n)
               (set_term (currentTerm n + 1) (set_role RoleCandidate n)))).

(** Fresh bookkeeping for every voter. *)
Definition reset_progress n : Nd :=
  foldl (fun n p => set_matchIndex (<[p := 0]> (matchIndex n))
                      (set_nextIndex (<[p := log_lastIndex (nlog n) + 1]> (nextIndex n)) n))
    n (peers n).

Definition tryBecomeLeader n (t : nat) : option (bool * Nd) :=
  if (IsLeader n && (currentTerm n =? t)%nat)%bool then Some (true, n)
  else if (negb (bool_decide (role n = RoleCandidate)) || negb (currentTerm n =? t)%nat)%bool
  then Some (false, n)
  else
    let noopIdx := log_lastIndex (nlog n) + 1 in
    let '(n, err) := persistEntryLocked n noopIdx (noop t) in
    match err with
    | Some _ => Some (false, n)
    | None =>
        let n := set_noopIndex noopIdx (set_leaderID (nid n) (set_role RoleLeader n)) in
        let n := reset_progress n in
        let n := set_log (log_append (nlog n) [noop t]) n in
        n ← updateCommitIndexLocked n; Some (true, n)
    end.

(** An election in progress: what [startElection] captured, and the votes
    counted so far. *)
Record Election : Type := mkElection {
  elTerm : nat; elLastLogIndex : nat; elLastLogTerm : nat; elMajority : nat;
  elPeers : list string; elVotes : nat
}.

Definition startElection n : option (Election * Nd) :=
  lt ← log_lastTerm (nlog n);
  let el := mkElection (currentTerm n) (log_lastIndex (nlog n)) lt (majorityLocked n) (peers n) 1 in
  if (length (peers n) =? 0)%nat then
    '(_, n) ← tryBecomeLeader n (currentTerm n); Some (el, n)
  else Some (el, n).

(** The request a vote goroutine sends. *)
Definition voteRequest n (el : Election) : RequestVote :=
  mkRequestVote (elTerm el) (nid n) (elLastLogIndex el) (elLastLogTerm el).

(** What it does with the reply; the flag says that a broadcast follows. *)
Definition onVoteReply n (el : Election) (reply : RequestVoteReply) : option (bool * Election * Nd) :=
  if (currentTerm n <? rrTerm reply)%nat then Some (false, el, stepDownLocked n (rrTerm reply))
  else
    let stillCandidate := (bool_decide (role n = RoleCandidate) && (currentTerm n =? elTerm el)%nat)%bool in
    if (negb stillCandidate || negb (rrVoteGranted reply))%bool then Some (false, el, n)
    else
      let el := mkElection (elTerm el) (elLastLogIndex el) (elLastLogTerm el) (elMajority el)
                  (elPeers el) (elVotes el + 1) in
      if (elMajority el <=? elVotes el)%nat then
        '(ok, n) ← tryBecomeLeader n (elTerm el); Some (ok, el, n)
      else Some (false, el, n).

Definition HandleRequestVote n (args : RequestVote) : option (RequestVoteReply * Nd) :=
  let t := currentTerm n in
  if (rvTerm args <? t)%nat then Some (mkRequestVoteReply t false, n)
  else
    let n := if (t <? rvTerm args)%nat
             then set_leaderID "" (set_role RoleFollower (set_votedFor "" (set_term (rvTerm args) n)))
             else n in
    lastTerm ← log_lastTerm (nlog n);
    let upToDate := ((lastTerm <? rvLastLogTerm args)%nat ||
      ((rvLastLogTerm args =? lastTerm)%nat && (log_lastIndex (nlog n) <=? rvLastLogIndex args)%nat))%bool in
    if ((String.eqb (votedFor n) "" || String.eqb (votedFor n) (rvCandidateID args)) && upToDate)%bool
    then Some (mkRequestVoteReply t true, set_votedFor (rvCandidateID args) n)
    else Some (mkRequestVoteReply t false, n).

(** ** Replication, follower side *)

(** Persist the entries that the log does not have yet; [false] when the log
    store refused one. *)
Fixpoint persistMissing n (idx : nat) (es : list Entry) : option (bool * Nd) :=
  match es with
  | [] => Some (true, n)
  | e :: es' =>
      have ← (if (idx <=? log_lastIndex (nlog n))%nat
              then t ← termAt (nlog n) idx; Some (t =? eTerm e)%nat else Some false);
      if (have : bool) then persistMissing n (S idx) es'
      else
        let '(n, err) := persistEntryLocked n idx e in
        match err with
        | Some _ => Some (false, n)
        | None => persistMissing n (S idx) es'
        end
  end.

(** Put the entries in the log, cutting it at the first conflict. *)
Fixpoint installEntries n (idx : nat) (es : list Entry) : option Nd :=
  match es with
  | [] => Some n
  | e :: es' =>
      n ← (if (idx <=? log_lastIndex (nlog n))%nat then
             t ← termAt (nlog n) idx;
             if negb (t =? eTerm e)%nat then
               l ← truncate (nlog n) idx;
               let n := set_log (log_append l [e]) n in
               let n := if (idx <=? lastApplied n)%nat then set_lastApplied (idx - 1) n else n in
               Some (if (idx <=? commitIndex n)%nat then set_commitIndex (idx - 1) n else n)
             else Some n
           else Some (set_log (log_append (nlog n) [e]) n));
      installEntries n (S idx) es'
  end.

Definition HandleAppendEntries n (args : AppendEntries) : option (AppendEntriesReply * Nd) :=
  let reject := mkAppendEntriesReply (currentTerm n) false in
  if (aeTerm args <? currentTerm n)%nat then Some (reject, n)
  else
    let n := if (currentTerm n <? aeTerm args)%nat
             then set_votedFor "" (set_term (aeTerm args) n) else n in
    let n := set_leaderID (aeLeaderID args) (set_role RoleFollower n) in
    let prev := aePrevLogIndex args in
    if (log_lastIndex (nlog n) <? prev)%nat then Some (reject, n)
    else if (prev <? baseIndex (nlog n))%nat then Some (reject, n)
    else
      conflict ← (if (0 <? prev)%nat
                  then t ← termAt (nlog n) prev; Some (negb (t =? aePrevLogTerm args)%nat)
                  else Some false);
      if (conflict : bool) then Some (reject, n)
      else
        '(durable, n) ← persistMissing n (prev + 1) (aeEntries args);
        if negb durable then Some (reject, n)
        else
          n ← installEntries n (prev + 1) (aeEntries args);
          let n := if (commitIndex n <? aeLeaderCommit args)%nat
                   then set_commitIndex (aeLeaderCommit args `min` log_lastIndex (nlog n)) n else n in
          n ← applyCommittedLocked n;
          Some (mkAppendEntriesReply (arTerm reject) true, n).

Definition HandleInstallSnapshot n (args : InstallSnapshot) : option (InstallSnapshotReply * Nd) :=
  let reply := mkInstallSnapshotReply (currentTerm n) in
  if (isTerm args <? currentTerm n)%nat then Some (reply, n)
  else
    let n := if (currentTerm n <? isTerm args)%nat
             then set_votedFor "" (set_term (isTerm args) n) else n in
    let n := set_leaderID (isLeaderID args) (set_role RoleFollower n) in
    let i := isLastIncludedIndex args in
    if (i <=? lastApplied n)%nat then Some (mkInstallSnapshotReply (currentTerm n), n)
    else
      let '(err, f) := sm_install (fsm n) (isData args) in
      let n := set_fsm f n in
      match err with
      | Some _ => Some (reply, n)
      | None =>
          let n := match snapshotStore n with
                   | None => n
                   | Some ss => set_snapshotStore
                       (Some (ss_save ss (mkSnapshot i (isLastIncludedTerm args) (isData args))).1) n
                   end in
          conflict ← (if (log_lastIndex (nlog n) <? i)%nat then Some true
                      else t ← termAt (nlog n) i; Some (negb (t =? isLastIncludedTerm args)%nat));
          l ← (if (conflict : bool) then Some (reset (nlog n) i (isLastIncludedTerm args))
               else compact (nlog n) i (isLastIncludedTerm args));
          let n := set_log l n in
          let n := if (commitIndex n <? i)%nat then set_commitIndex i n else n in
          Some (mkInstallSnapshotReply (currentTerm n), set_lastApplied i n)
      end.

(** ** Replication, leader side *)

Definition appendEntryLocked n (e : Entry) : option (result nat * Nd) :=
  let idx := log_lastIndex (nlog n) + 1 in
  let '(n, err) := persistEntryLocked n idx e in
  match err with
  | Some e => Some (Err e, n)
  | None =>
      n ← updateCommitIndexLocked (set_log (log_append (nlog n) [e]) n);
      Some (Ok idx, n)
  end.

Definition Propose n (command : bytes) : option (result nat * Nd) :=
  if negb (IsLeader n) then Some (Err RaftNotLeader, n)
  else appendEntryLocked n (mkEntry (currentTerm n) (Some command) None).

(** What [replicateTo] does under its first lock. *)
Inductive Replication : Type :=
  | RepNothing
  | RepAppend (args : AppendEntries)
  | RepSnapshot.

Definition replicateTo n (peer : string) : option Replication :=
  if negb (IsLeader n) then Some RepNothing
  else
    let nextIdx := get0 (nextIndex n) peer in
    if (nextIdx <=? baseIndex (nlog n))%nat then Some RepSnapshot
    else
      let prev := nextIdx - 1 in
      t ← termAt (nlog n) prev;
      es ← slice (nlog n) nextIdx;
      Some (RepAppend (mkAppendEntries (currentTerm n) (nid n) prev t es (commitIndex n))).

Definition onAppendReply n (peer : string) (args : AppendEntries) (reply : AppendEntriesReply)
    : option Nd :=
  if (currentTerm n <? arTerm reply)%nat then Some (stepDownLocked n (arTerm reply))
  else if (negb (IsLeader n) || (arTerm reply <? currentTerm n)%nat)%bool then Some n
  else if arSuccess reply then
    let newMatch := aePrevLogIndex args + length (aeEntries args) in
    let n := if (get0 (matchIndex n) peer <? newMatch)%nat
             then set_nextIndex (<[peer := newMatch + 1]> (nextIndex n))
                    (set_matchIndex (<[peer := newMatch]> (matchIndex n)) n)
             else n in
    updateCommitIndexLocked n
  else if (1 <? get0 (nextIndex n) peer)%nat
  then Some (set_nextIndex (<[peer := get0 (nextIndex n) peer - 1]> (nextIndex n)) n)
  else Some n.

(** [None]: there is nothing to send. *)
Definition sendSnapshot n : option (Snapshot * InstallSnapshot) :=
  if negb (IsLeader n) then None
  else match snapshotStore n with
       | None => None
       | Some ss =>
           match ss_load ss with
           | Ok (Some snap) =>
               Some (snap, mkInstallSnapshot (currentTerm n) (nid n) (LastIncludedIndex snap)
                             (LastIncludedTerm snap) (SData snap))
           | _ => None
           end
       end.

Definition onSnapshotReply n (peer : string) (snap : Snapshot) (reply : InstallSnapshotReply)
    : option Nd :=
  if (currentTerm n <? irTerm reply)%nat then Some (stepDownLocked n (irTerm reply))
  else if (negb (IsLeader n) || (irTerm reply <? currentTerm n)%nat)%bool then Some n
  else
    let i := LastIncludedIndex snap in
    let n := if (get0 (matchIndex n) peer <? i + 1)%nat
             then set_nextIndex (<[peer := i + 1]> (nextIndex n))
                    (set_matchIndex (<[peer := i]> (matchIndex n)) n)
             else n in
    updateCommitIndexLocked n.

(** ** Membership changes *)

(** Up to the wait for the entry to be applied. *)
Definition AddServer n (id addr : string) : option (result nat * Nd) :=
  if negb (IsLeader n) then Some (Err RaftNotLeader, n)
  else if (isVoter n id || bool_decide (id ∈ joining n))%bool
  then Some (Err (Wrapped ("raft: " +:+ id +:+ " is already a member")), n)
  else
    let n := if String.eqb addr "" then n else set_addrs (<[id := addr]> (addrs n)) n in
    let n := set_joining ({[id]} ∪ joining n) n in
    let n := set_matchIndex (<[id := 0]> (matchIndex n)) (set_nextIndex (<[id := 1]> (nextIndex n)) n) in
    let voters := nid n :: peers n ++ [id] in
    let known := filter (fun p => p.1 ∈ voters /\ p.2 <> "") (addrs n) in
    let cfgAddrs := if String.eqb addr "" then known else known ∪ {[id := addr]} in
    appendEntryLocked n (mkEntry (currentTerm n) None (Some (mkConfiguration voters cfgAddrs))).

Definition RemoveServer n (id : string) : option (result nat * Nd) :=
  if negb (IsLeader n) then Some (Err RaftNotLeader, n)
  else if (negb (String.eqb id (nid n)) && negb (isVoter n id))%bool
  then Some (Err (Wrapped ("raft: " +:+ id +:+ " is not a member")), n)
  else
    let voters := (if String.eqb id (nid n) then [] else [nid n]) ++ filter (fun p => p <> id) (peers n) in
    appendEntryLocked n (mkEntry (currentTerm n) None (Some (mkConfiguration voters ∅))).

(** [WaitApplied] returns once this holds. *)
Definition applied n (idx : nat) : bool := (idx <=? lastApplied n)%nat.

(** The step-down of a leader that removed itself, after its last heartbeat. *)
Definition finishStepDown n : Nd :=
  if (IsLeader n && pendingStepDown n)%bool
  then set_pendingStepDown false (set_noopIndex 0 (set_leaderID "" (set_role RoleFollower n)))
  else n.

(** ** Linearizable reads (read.go) *)

Definition confirmArgs n : option AppendEntries :=
  lt ← log_lastTerm (nlog n);
  Some (mkAppendEntries (currentTerm n) (nid n) (log_lastIndex (nlog n)) lt [] (commitIndex n)).

(** The replies handled before [confirmLeadership] wakes up: the successful
    acknowledgements, and whether a higher term was seen. *)
Fixpoint countAcks n (acks : nat) (stepped : bool) (replies : list AppendEntriesReply)
    : nat * bool * Nd :=
  match replies with
  | [] => (acks, stepped, n)
  | r :: rest =>
      if (currentTerm n <? arTerm r)%nat
      then countAcks (stepDownLocked n (arTerm r)) acks true rest
      else countAcks n (if arSuccess r then acks + 1 else acks) stepped rest
  end.

(** [finished]: every request has returned, with a reply or an error, and the
    channel is closed. *)
Definition confirmLeadership n (replies : list AppendEntriesReply) (finished : bool)
    : option error * Nd :=
  if (length (peers n) =? 0)%nat then (None, n)
  else if negb (IsLeader n) then (Some RaftNotLeader, n)
  else
    let majority := majorityLocked n in
    let '(acks, stepped, n) := countAcks n 1 false replies in
    if (stepped || (majority <=? acks)%nat || finished)%bool then
      if (stepped || negb (IsLeader n))%bool then (Some RaftNotLeader, n) else (None, n)
    else (Some CtxDone, n).

(** A read whose waits are over or time out at once. *)
Definition ReadIndex n (replies : list AppendEntriesReply) (finished : bool) : result nat * Nd :=
  if negb (IsLeader n) then (Err RaftNotLeader, n)
  else if (commitIndex n <? noopIndex n)%nat then (Err CtxDone, n)
  else
    let readIdx := commitIndex n in
    let '(err, n) := confirmLeadership n replies finished in
    match err with
    | Some e => (Err e, n)
    | None => if (lastApplied n <? readIdx)%nat then (Err CtxDone, n) else (Ok readIdx, n)
    end.
End raft.
