(* ===== verification/RaftProps.v ===== *)
(** * A Raft node: its invariant and the lemmas about its handlers *)

From S2P Require Import Prelude WalTypes RaftLog Raft.

Section raft_props.
Context {F W SS MS : Type}.
Context {SMF : StateMachine F} {WalW : Wal W} {SSS : SnapshotStore SS} {MSS : MetaStore MS}
  {J : Json} {CJ : ConfigJson}.
Implicit Types n : Node F W SS MS.

(** The log reaches from the snapshot to what is applied, and everything
    committed is applied. *)
Definition node_ok n : Prop :=
  log_ok (nlog n) /\ base (nlog n) <= lastApplied n /\ lastApplied n = commitIndex n /\
  commitIndex n <= log_lastIndex (nlog n).

(** The fields that decide elections: [n'] has not gone back to an older term,
    and has not changed a vote within a term. *)
Definition vote_stable n n' : Prop :=
  nid n' = nid n /\ currentTerm n <= currentTerm n' /\
  (currentTerm n' = currentTerm n -> votedFor n <> "" -> votedFor n' = votedFor n).

Lemma vote_stable_refl n : vote_stable n n.
Proof. by repeat split. Qed.

Lemma vote_stable_trans n1 n2 n3 : vote_stable n1 n2 -> vote_stable n2 n3 -> vote_stable n1 n3.
Proof.
  intros (? & ? & Hv) (? & ? & Hv'). split; [congruence|]. split; [lia|]. intros ? Hne.
  rewrite Hv'; [apply Hv; [lia|done]|lia|]. rewrite Hv; [done|lia|done].
Qed.

(** A node that is not a follower after a step was in the same role and term
    before it. *)
Definition role_keep n n' : Prop :=
  role n' <> RoleFollower -> role n' = role n /\ currentTerm n' = currentTerm n.

Lemma role_keep_refl n : role_keep n n.
Proof. done. Qed.

Lemma role_keep_follower n n' : role n' = RoleFollower -> role_keep n n'.
Proof. intros Hr Hne. congruence. Qed.

(** A request of another leader was refused, or the node follows it now. *)
Definition follows n n' : Prop := n' = n \/ role n' = RoleFollower.

Lemma follows_refl n : follows n n.
Proof. by left. Qed.

Lemma follows_follower n n' : role n' = RoleFollower -> follows n n'.
Proof. by right. Qed.

Lemma follows_keep n n' : follows n n' -> role_keep n n'.
Proof. intros [->|?]; [apply role_keep_refl|by apply role_keep_follower]. Qed.

(** [n'] is [n] as far as the election state, the log, the progress and the
    state machine go. *)
Definition same_core n n' : Prop :=
  nid n' = nid n /\ role n' = role n /\ currentTerm n' = currentTerm n /\ votedFor n' = votedFor n /\
  nlog n' = nlog n /\ commitIndex n' = commitIndex n /\ lastApplied n' = lastApplied n /\
  fsm n' = fsm n /\ logStore n' = logStore n.

Lemma same_core_refl n : same_core n n.
Proof. by repeat split. Qed.

Lemma same_core_trans n1 n2 n3 : same_core n1 n2 -> same_core n2 n3 -> same_core n1 n3.
Proof. unfold same_core. intros (?&?&?&?&?&?&?&?&?) (?&?&?&?&?&?&?&?&?). repeat split; congruence. Qed.

Lemma foldl_core {A} (f : Node F W SS MS -> A -> Node F W SS MS) (l : list A) n :
  (forall n x, same_core n (f n x)) -> same_core n (foldl f n l).
Proof.
  intros Hf. revert n. induction l as [|x l IH]; intros n; [apply same_core_refl|].
  simpl. eapply same_core_trans; [apply Hf|apply IH].
Qed.

Lemma track_new_core n voters : same_core n (track_new n voters).
Proof. apply foldl_core. intros n' x. by destruct (nextIndex n' !! x). Qed.

Lemma drop_non_voters_core n ids : same_core n (drop_non_voters n ids).
Proof. apply foldl_core. intros n' x. by destruct (isVoter n' x). Qed.

Lemma reset_progress_core n : same_core n (reset_progress n).
Proof. apply foldl_core. by intros n' x. Qed.

Lemma applyConfig_core n cfg idx : same_core n (applyConfigLocked n cfg idx).
Proof.
  unfold applyConfigLocked. set (n1 := set_removed _ _).
  assert (same_core n n1) as H1 by (by repeat split).
  set (n2 := if IsLeader n1 then _ else _).
  assert (same_core n n2) as H2.
  { unfold n2. destruct (IsLeader n1); [|done].
    eapply same_core_trans; [exact H1|].
    eapply same_core_trans; [apply track_new_core|apply drop_non_voters_core]. }
  set (n3 := set_joining _ _).
  assert (same_core n n3) as H3.
  { eapply same_core_trans; [exact H2|].
    eapply same_core_trans; [apply (drop_non_voters_core n2 (elements (joining n2)))|by repeat split]. }
  set (n4 := if (IsLeader n3 && removed n3)%bool then set_pendingStepDown true n3 else n3).
  assert (same_core n n4) as H4.
  { unfold n4. destruct (_ && _)%bool; [|done]. eapply same_core_trans; [exact H3|by repeat split]. }
  destruct (metaStore n4); [|done]. eapply same_core_trans; [exact H4|by repeat split].
Qed.

(** ** Applying *)

(** [n'] applied up to [lastApplied n'], and differs from [n] in the state
    machine, the progress and what compaction changes: entries above the
    applied index are untouched. *)
Definition advanced n n' : Prop :=
  nid n' = nid n /\ role n' = role n /\ currentTerm n' = currentTerm n /\ votedFor n' = votedFor n /\
  commitIndex n' = commitIndex n /\ logStore n' = logStore n /\
  log_ok (nlog n') /\ base (nlog n) <= base (nlog n') <= lastApplied n' /\
  log_lastIndex (nlog n') = log_lastIndex (nlog n) /\
  (forall i, base (nlog n') < i -> entryAt (nlog n') i = entryAt (nlog n) i) /\
  termAt (nlog n') (base (nlog n')) = termAt (nlog n) (base (nlog n')).

Lemma advanced_trans n1 n2 n3 : advanced n1 n2 -> advanced n2 n3 -> advanced n1 n3.
Proof.
  intros (?&?&?&?&?&?&?&?&?&He&Ht) (?&?&?&?&?&?&?&?&?&He'&Ht'). unfold advanced.
  split_and!; try congruence; try lia.
  - intros i Hi. rewrite He' by done. apply He. lia.
  - rewrite Ht'. destruct (decide (base (nlog n3) = base (nlog n2))) as [->|]; [done|].
    unfold termAt. by rewrite He by lia.
Qed.

Lemma maybeCompact_ok n :
  log_ok (nlog n) -> base (nlog n) <= lastApplied n <= log_lastIndex (nlog n) ->
  exists n', maybeCompactLocked n = Some n' /\ advanced n n' /\ lastApplied n' = lastApplied n /\
             fsm n' = fsm n.
Proof.
  intros Hl Hr.
  assert (advanced n n) as Hrefl by (unfold advanced; split_and!; auto; lia).
  unfold maybeCompactLocked, baseIndex.
  destruct (snapshotThreshold n =? 0)%nat; [eauto 10|].
  destruct (_ <? snapshotThreshold n)%nat; [eauto 10|].
  destruct (Nat.leb_spec (lastApplied n) (base (nlog n))); [eauto 10|].
  destruct (entryAt_Some (nlog n) (lastApplied n) Hl ltac:(lia)) as [e He].
  unfold termAt at 1. rewrite He. simpl.
  destruct (sm_take (fsm n)) as [d|err]; [|eauto 10].
  set (p := match snapshotStore n with Some _ => _ | None => _ end).
  assert (same_core n p.1) as Hp.
  { unfold p. destruct (snapshotStore n) as [ss|]; [|apply same_core_refl].
    by destruct (ss_save ss _). }
  destruct p as [n1 err]. simpl in Hp. destruct Hp as (Hn&Hro&Hte&Hv&Hlg&Hc&Hla&Hf&Hls).
  destruct err as [err|].
  - eexists. split; [done|]. split; [|done]. unfold advanced. rewrite Hlg, Hla. split_and!; auto; lia.
  - assert (termAt (nlog n) (lastApplied n) = Some (eTerm e)) as Ht by (unfold termAt; by rewrite He).
    destruct (compact_spec (nlog n) (lastApplied n) (eTerm e) Hl ltac:(lia) Ht)
      as (l & Hcl & Hlok & Hb & Hlast & Htl & Hel).
    rewrite Hlg, Hcl. simpl. eexists. split; [done|]. split; [|done]. unfold advanced. simpl.
    rewrite Hb, Hla. split_and!; auto; try lia. congruence.
Qed.

(** A client command, as opposed to a no-op or a configuration. *)
Definition is_command (e : Entry) : Prop := eConfig e = None /\ eCommand e <> None.

#[global] Instance is_command_dec e : Decision (is_command e).
Proof. unfold is_command. apply _. Defined.

Lemma applyOne_ok n :
  log_ok (nlog n) -> base (nlog n) <= lastApplied n < log_lastIndex (nlog n) ->
  exists n' e, applyOne n = Some n' /\ advanced n n' /\ lastApplied n' = lastApplied n + 1 /\
    entryAt (nlog n) (lastApplied n + 1) = Some e /\
    fsm n' = (if decide (is_command e) then sm_apply (fsm n) e else fsm n).
Proof.
  intros Hl Hr. unfold applyOne. simpl.
  destruct (entryAt_Some (nlog n) (lastApplied n + 1) Hl ltac:(lia)) as [e He].
  rewrite He. simpl. set (n1 := set_lastApplied _ n).
  assert (forall n2, same_core n1 n2 -> advanced n n2 /\ lastApplied n2 = lastApplied n + 1) as Hsame.
  { intros n2 (?&?&?&?&Hlg&?&Hla&?&?). unfold advanced. rewrite Hlg, Hla. simpl.
    split_and!; auto; lia. }
  destruct (eConfig e) as [c|] eqn:Ec.
  - eexists _, e. split; [done|]. pose proof (applyConfig_core n1 c (lastApplied n + 1)) as Hcore.
    destruct (Hsame _ Hcore) as [? ?]. split_and!; auto.
    rewrite decide_False by (by intros [? _]; congruence). apply Hcore.
  - destruct (eCommand e) as [b|] eqn:Eb.
    + destruct (maybeCompact_ok (set_fsm (sm_apply (fsm n) e) n1)) as (n2 & -> & Ha & Hla & Hf).
      { done. } { simpl. lia. }
      eexists _, e. split; [done|]. split; [|split; [exact Hla|split; [done|]]].
      * eapply advanced_trans; [|exact Ha]. unfold advanced. simpl. split_and!; auto; lia.
      * rewrite Hf. by rewrite decide_True by (split; congruence).
    + eexists _, e. split; [done|]. destruct (Hsame n1 (same_core_refl n1)). split_and!; auto.
      by rewrite decide_False by (intros [_ ?]; congruence).
Qed.

(** The entries at the indices [a+1] to [a+k]. *)
Definition log_between (l : Log) (a k : nat) : list Entry := omap (entryAt l) (seq (a + 1) k).

Lemma log_between_agree l l' a k :
  (forall i, a < i -> entryAt l' i = entryAt l i) -> log_between l' a k = log_between l a k.
Proof.
  intros H. apply list_omap_ext, Forall_Forall2_diag, Forall_forall.
  intros i Hi%elem_of_seq. apply H. lia.
Qed.

Lemma applyLoop_ok k n :
  log_ok (nlog n) -> base (nlog n) <= lastApplied n -> lastApplied n + k <= log_lastIndex (nlog n) ->
  exists n', applyLoop k n = Some n' /\ advanced n n' /\ lastApplied n' = lastApplied n + k /\
    fsm n' = foldl sm_apply (fsm n) (filter is_command (log_between (nlog n) (lastApplied n) k)).
Proof.
  revert n. induction k as [|k IH]; intros n Hl Hb Hk.
  { exists n. split; [done|]. rewrite Nat.add_0_r. split_and!; auto.
    unfold advanced. split_and!; auto; lia. }
  destruct (applyOne_ok n Hl ltac:(lia)) as (n1 & e & E1 & A1 & L1 & He & F1).
  assert (A1' := A1). destruct A1' as (_&_&_&_&_&_&Hl1&Hb1&Hlast1&He1&_).
  destruct (IH n1 Hl1 ltac:(lia) ltac:(lia)) as (n2 & E2 & A2 & L2 & F2).
  exists n2. cbn [applyLoop]. rewrite E1. simpl. rewrite E2.
  split; [done|]. split; [by eapply advanced_trans|]. split; [lia|].
  rewrite F2, F1, L1.
  rewrite (log_between_agree (nlog n)) by (intros i Hi; apply He1; lia).
  change (log_between (nlog n) (lastApplied n) (S k))
    with (omap (entryAt (nlog n)) ([lastApplied n + 1] ++ seq (S (lastApplied n + 1)) k)).
  rewrite (omap_app _ [lastApplied n + 1] (seq (S (lastApplied n + 1)) k)).
  change (omap (entryAt (nlog n)) [lastApplied n + 1])
    with (match entryAt (nlog n) (lastApplied n + 1) with Some y => [y] | None => [] end).
  rewrite He, filter_app, filter_cons, filter_nil. unfold log_between.
  replace (lastApplied n + 1 + 1) with (S (lastApplied n + 1)) by lia.
  by destruct (decide (is_command e)).
Qed.

Lemma applyCommitted_ok n :
  log_ok (nlog n) -> base (nlog n) <= lastApplied n <= commitIndex n ->
  commitIndex n <= log_lastIndex (nlog n) ->
  exists n', applyCommittedLocked n = Some n' /\ advanced n n' /\ node_ok n' /\
    fsm n' = foldl sm_apply (fsm n)
      (filter is_command (log_between (nlog n) (lastApplied n) (commitIndex n - lastApplied n))).
Proof.
  intros Hl Hb Hc. destruct (applyLoop_ok (commitIndex n - lastApplied n) n Hl ltac:(lia) ltac:(lia))
    as (n' & E & A & L & Hf).
  exists n'. split; [done|]. split; [done|]. split; [|done].
  destruct A as (_&_&_&_&Hco&_&Hl'&Hb'&Hlast&_). unfold node_ok. split_and!; auto; lia.
Qed.

(** ** Commitment *)

Definition quorum_at n (N : nat) : Prop :=
  termAt (nlog n) N = Some (currentTerm n) /\ majorityLocked n <= countMatch n N.

Lemma commitScan_ok n c Ns :
  log_ok (nlog n) -> (forall N, N ∈ Ns -> base (nlog n) <= N <= log_lastIndex (nlog n)) ->
  exists c', commitScan n c Ns = Some c' /\ (c' = c \/ c' ∈ Ns /\ quorum_at n c').
Proof.
  intros Hl. revert c. induction Ns as [|N Ns IH]; intros c HN; [eauto|]. cbn [commitScan].
  destruct (entryAt_Some (nlog n) N Hl (HN N ltac:(left))) as [e He].
  assert (termAt (nlog n) N = Some (eTerm e)) as Ht by (unfold termAt; by rewrite He).
  rewrite Ht. simpl.
  assert (forall N', N' ∈ Ns -> base (nlog n) <= N' <= log_lastIndex (nlog n)) as HN'
    by (intros; apply HN; by right).
  destruct (Nat.eqb_spec (eTerm e) (currentTerm n)); simpl.
  - destruct (Nat.leb_spec (majorityLocked n) (countMatch n N)); [|eauto].
    destruct (IH N HN') as (c' & -> & [->|[? ?]]); exists c' || exists N; split; auto.
    + right. split; [left|]. split; [congruence|done].
    + right. split; [by right|done].
  - destruct (IH c HN') as (c' & -> & [->|[? ?]]); eexists; split; eauto.
    right. split; [by right|done].
Qed.

(** The commit index moves only to an index of the current term that a
    majority has, and everything up to it is applied. *)
Lemma updateCommit_ok n :
  log_ok (nlog n) -> base (nlog n) <= lastApplied n <= commitIndex n ->
  commitIndex n <= log_lastIndex (nlog n) ->
  exists c n', updateCommitIndexLocked n = Some n' /\ advanced (set_commitIndex c n) n' /\ node_ok n' /\
    commitIndex n' = c /\ (c = commitIndex n \/ commitIndex n < c <= log_lastIndex (nlog n) /\ quorum_at n c) /\
    fsm n' = foldl sm_apply (fsm n)
      (filter is_command (log_between (nlog n) (lastApplied n) (c - lastApplied n))).
Proof.
  intros Hl Hb Hc. unfold updateCommitIndexLocked.
  destruct (commitScan_ok n (commitIndex n)
    (seq (commitIndex n + 1) (log_lastIndex (nlog n) - commitIndex n)) Hl) as (c & Ec & Hcc).
  { intros N HN%elem_of_seq. lia. }
  rewrite Ec. simpl.
  assert (commitIndex n <= c <= log_lastIndex (nlog n)) as Hr.
  { destruct Hcc as [->|[HN%elem_of_seq _]]; lia. }
  destruct (applyCommitted_ok (set_commitIndex c n)) as (n' & E & A & Hok & Hf);
    [done|simpl; lia|simpl; lia|].
  exists c, n'. split; [done|]. split; [done|]. split; [done|].
  split; [by apply A|]. split; [|done].
  destruct Hcc as [->|[HN%elem_of_seq Hq]]; [by left|right]. split; [lia|done].
Qed.

(** ** Handlers *)

(** [n'] is [n] with another log store. *)
Definition restored n n' : Prop := exists w, n' = set_logStore w n.

Lemma set_logStore_id n : n = set_logStore (logStore n) n.
Proof. by destruct n. Qed.

Lemma persistEntry_frame n idx e : restored n (persistEntryLocked n idx e).1.
Proof.
  unfold persistEntryLocked. destruct (logStore n) as [w|] eqn:E.
  - destruct (AppendEntry w idx (eTerm e) e) as [w' err]. by exists (Some w').
  - exists (logStore n). apply set_logStore_id.
Qed.

Lemma node_ok_restored n n' : restored n n' -> node_ok n -> node_ok n'.
Proof. by intros [w ->]. Qed.

Lemma tryBecomeLeader_ok n t :
  node_ok n ->
  exists b n', tryBecomeLeader n t = Some (b, n') /\ node_ok n' /\ nid n' = nid n /\
    currentTerm n' = currentTerm n /\ votedFor n' = votedFor n /\
    (role n' = role n \/ role n = RoleCandidate /\ role n' = RoleLeader /\ currentTerm n = t).
Proof.
  intros (Hl & Hb & Hac & Hc). unfold tryBecomeLeader.
  destruct (IsLeader n && _)%bool; [by eexists _, n; repeat split; auto|].
  destruct (negb _ || _)%bool eqn:Ec; [by eexists _, n; repeat split; auto|]. bool_to_prop.
  pose proof (persistEntry_frame n (log_lastIndex (nlog n) + 1) (noop t)) as [w Hw].
  destruct (persistEntryLocked n _ _) as [n1 err]. simpl in Hw. subst n1.
  destruct err as [err|]; [by eexists _, _; repeat split; auto|].
  set (n2 := set_noopIndex _ _). pose proof (reset_progress_core n2) as (Hn&Hro&Hte&Hv&Hlg&Hco&Hla&_&_).
  set (n3 := reset_progress n2) in *. simpl in Hn, Hro, Hte, Hv, Hlg, Hco, Hla.
  destruct (updateCommit_ok (set_log (log_append (nlog n3) [noop t]) n3)) as (c & n' & -> & A & Hok & _);
    cbn [nlog set_log commitIndex lastApplied base]; rewrite ?Hlg, ?Hco, ?Hla, ?lastIndex_append by done.
  - by apply log_ok_append.
  - unfold log_append. simpl. lia.
  - simpl. lia.
  - destruct A as (An&Aro&Ate&Av&_). simpl in *. exists true, n'. split; [done|]. split; [done|].
    rewrite An, Ate, Av, Aro, Hn, Hte, Hv, Hro. split_and!; auto.
Qed.

Lemma persistMissing_ok n idx es :
  log_ok (nlog n) -> base (nlog n) <= idx ->
  exists b n', persistMissing n idx es = Some (b, n') /\ restored n n'.
Proof.
  revert n idx. induction es as [|e es IH]; intros n idx Hl Hb.
  { exists true, n. split; [done|]. exists (logStore n). apply set_logStore_id. }
  cbn [persistMissing].
  assert (exists h, (if (idx <=? log_lastIndex (nlog n))%nat
              then t ← termAt (nlog n) idx; Some (t =? eTerm e)%nat else Some false) = Some h) as [h ->].
  { destruct (Nat.leb_spec idx (log_lastIndex (nlog n))); [|eauto].
    destruct (entryAt_Some (nlog n) idx Hl ltac:(lia)) as [e' He].
    unfold termAt. rewrite He. simpl. eauto. }
  simpl. destruct h; [apply IH; [done|lia]|].
  pose proof (persistEntry_frame n idx e) as [w Hw].
  destruct (persistEntryLocked n idx e) as [n1 err]. simpl in Hw. subst n1.
  destruct err as [err|]; [eexists _, _; split; [done|by exists w]|].
  destruct (IH (set_logStore w n) (S idx)) as (b & n' & E & [w' ->]); [done|simpl; lia|].
  eexists _, _. split; [exact E|]. by exists w'.
Qed.

(** ** The follower's side of replication *)

Definition same_election n n' : Prop :=
  nid n' = nid n /\ role n' = role n /\ currentTerm n' = currentTerm n /\ votedFor n' = votedFor n.

(** Installing one entry. *)
Definition installOne n (idx : nat) (e : Entry) : option (Node F W SS MS) :=
  if (idx <=? log_lastIndex (nlog n))%nat then
    t ← termAt (nlog n) idx;
    if negb (t =? eTerm e)%nat then
      l ← truncate (nlog n) idx;
      let n := set_log (log_append l [e]) n in
      let n := if (idx <=? lastApplied n)%nat then set_lastApplied (idx - 1) n else n in
      Some (if (idx <=? commitIndex n)%nat then set_commitIndex (idx - 1) n else n)
    else Some n
  else Some (set_log (log_append (nlog n) [e]) n).

Lemma installOne_ok n idx e :
  node_ok n -> base (nlog n) < idx <= log_lastIndex (nlog n) + 1 ->
  exists n', installOne n idx e = Some n' /\ node_ok n' /\ same_election n n' /\
    logStore n' = logStore n /\ base (nlog n') = base (nlog n) /\ idx <= log_lastIndex (nlog n') /\
    termAt (nlog n') idx = Some (eTerm e) /\
    (forall j, j < idx -> entryAt (nlog n') j = entryAt (nlog n) j).
Proof.
  intros (Hl & Hb & Hac & Hc) Hi. unfold installOne.
  destruct (Nat.leb_spec idx (log_lastIndex (nlog n))).
  - destruct (entryAt_Some (nlog n) idx Hl ltac:(lia)) as [e' He].
    assert (termAt (nlog n) idx = Some (eTerm e')) as Ht by (unfold termAt; by rewrite He).
    rewrite Ht. simpl. destruct (Nat.eqb_spec (eTerm e') (eTerm e)) as [Heq|_]; simpl.
    { exists n. split_and!; auto; try (by repeat split); try congruence. }
    destruct (truncate_spec (nlog n) idx Hl ltac:(lia)) as (l & -> & Hlok & Hbl & Hlast & Hel). simpl.
    eexists. split; [done|].
    set (n1 := set_log (log_append l [e]) n).
    set (n2 := if (idx <=? lastApplied n)%nat then set_lastApplied (idx - 1) n1 else n1).
    set (n3 := if (idx <=? commitIndex n2)%nat then _ else _).
    assert (nlog n3 = log_append l [e] /\ logStore n3 = logStore n /\ same_election n n3 /\
            lastApplied n3 = (if (idx <=? lastApplied n)%nat then idx - 1 else lastApplied n) /\
            commitIndex n3 = (if (idx <=? commitIndex n)%nat then idx - 1 else commitIndex n))
      as (Hlg & Hls & Hse & Hla & Hco).
    { unfold n3, n2. destruct (idx <=? lastApplied n)%nat; simpl;
        destruct (idx <=? commitIndex n)%nat; by repeat split. }
    unfold node_ok. rewrite Hlg, Hla, Hco, lastIndex_append, Hlast by done.
    change (base (log_append l [e])) with (base l).
    split.
    { rewrite Hac. destruct (Nat.leb_spec idx (commitIndex n)); split_and!;
        auto using log_ok_append; simpl; lia. }
    split_and!; auto; [simpl; lia| |].
    + unfold termAt. replace idx with (log_lastIndex l + 1) by lia. by rewrite entryAt_append_new.
    + intros j Hj. rewrite entryAt_append_old by (done || lia). by apply Hel.
  - eexists. split; [done|]. assert (idx = log_lastIndex (nlog n) + 1) as -> by lia.
    unfold node_ok. simpl. rewrite lastIndex_append by done. simpl.
    split_and!; auto using log_ok_append; try lia; try by repeat split.
    + unfold termAt. by rewrite entryAt_append_new.
    + intros j Hj. apply entryAt_append_old; [done|lia].
Qed.

Lemma installEntries_ok n idx es :
  node_ok n -> base (nlog n) < idx <= log_lastIndex (nlog n) + 1 ->
  exists n', installEntries n idx es = Some n' /\ node_ok n' /\ same_election n n' /\
    logStore n' = logStore n /\ base (nlog n') = base (nlog n) /\
    (forall j, j < idx -> entryAt (nlog n') j = entryAt (nlog n) j) /\
    (forall i e, es !! i = Some e -> termAt (nlog n') (idx + i) = Some (eTerm e)).
Proof.
  revert n idx. induction es as [|e es IH]; intros n idx Hok Hi.
  { exists n. by repeat split; try apply Hok. }
  destruct (installOne_ok n idx e Hok Hi) as (n1 & E1 & Hok1 & Hse1 & Hls1 & Hb1 & Hlast1 & Ht1 & He1).
  destruct (IH n1 (S idx) Hok1 ltac:(lia)) as (n2 & E2 & Hok2 & Hse2 & Hls2 & Hb2 & He2 & Ht2).
  exists n2. split.
  { change (installEntries n idx (e :: es)) with (n' ← installOne n idx e; installEntries n' (S idx) es).
    rewrite E1. exact E2. }
  split; [done|]. split.
  { destruct Hse1 as (?&?&?&?), Hse2 as (?&?&?&?). repeat split; congruence. }
  split_and!; try congruence.
  - intros j Hj. rewrite He2, He1 by lia. done.
  - intros [|i] e' Hi'; simpl in Hi'.
    + simplify_eq. rewrite Nat.add_0_r. unfold termAt in *. by rewrite He2 by lia.
    + rewrite <- Nat.add_succ_comm. by apply Ht2.
Qed.

(** What a follower's log looks like after a successful AppendEntries. *)
Definition installed n n' (prev : nat) (es : list Entry) : Prop :=
  (forall j, base (nlog n') <= j <= prev -> termAt (nlog n') j = termAt (nlog n) j) /\
  (forall i e, es !! i = Some e -> base (nlog n') <= prev + 1 + i ->
     termAt (nlog n') (prev + 1 + i) = Some (eTerm e)).

Lemma HandleAppendEntries_ok n args :
  node_ok n ->
  exists reply n', HandleAppendEntries n args = Some (reply, n') /\ node_ok n' /\ vote_stable n n' /\
    follows n n' /\
    (arSuccess reply = true ->
       currentTerm n' = aeTerm args /\ installed n n' (aePrevLogIndex args) (aeEntries args) /\
       (aeLeaderCommit args `min` (log_lastIndex (nlog n')) <= commitIndex n')).
Proof.
  intros Hok. unfold HandleAppendEntries.
  destruct (Nat.ltb_spec (aeTerm args) (currentTerm n)).
  { eexists _, n. split; [done|]. split_and!; auto using vote_stable_refl, follows_refl; done. }
  set (n0 := if (currentTerm n <? aeTerm args)%nat then _ else n).
  set (n1 := set_leaderID _ (set_role RoleFollower n0)).
  assert (nlog n1 = nlog n /\ commitIndex n1 = commitIndex n /\ lastApplied n1 = lastApplied n /\
          logStore n1 = logStore n /\ currentTerm n1 = aeTerm args /\ vote_stable n n1 /\ role n1 = RoleFollower)
    as (Hlg & Hco & Hla & Hls & Hte & Hvs & Hro).
  { unfold n1, n0. destruct (Nat.ltb_spec (currentTerm n) (aeTerm args)); simpl; repeat split; simpl; auto; lia. }
  assert (node_ok n1) as Hok1 by (unfold node_ok in *; by rewrite Hlg, Hco, Hla).
  clearbody n1. clear n0.
  assert (forall n2, node_ok n2 -> same_election n1 n2 ->
            vote_stable n n2 /\ follows n n2) as Hkeep.
  { intros n2 _ (Hn&Hr&Ht&Hv). split; [|apply follows_follower; congruence]. unfold vote_stable in *.
    rewrite Hn, Ht, Hv. done. }
  destruct (Hkeep n1 Hok1 ltac:(by repeat split)) as [Hv1 Hr1].
  destruct (Nat.ltb_spec (log_lastIndex (nlog n1)) (aePrevLogIndex args)).
  { eexists _, n1. split; [done|]. split_and!; auto; done. }
  unfold baseIndex. destruct (Nat.ltb_spec (aePrevLogIndex args) (base (nlog n1))).
  { eexists _, n1. split; [done|]. split_and!; auto; done. }
  destruct Hok1 as (Hl1 & Hb1 & Hac1 & Hc1).
  match goal with |- context [mbind _ ?c] =>
    assert (exists b, c = Some b) as [b Eb] end.
  { destruct (0 <? aePrevLogIndex args)%nat; [|eauto].
    destruct (entryAt_Some (nlog n1) (aePrevLogIndex args) Hl1 ltac:(lia)) as [e He].
    unfold termAt. rewrite He. simpl. eauto. }
  rewrite Eb. simpl. destruct b.
  { eexists _, n1. split; [done|]. split_and!; auto; done. }
  destruct (persistMissing_ok n1 (aePrevLogIndex args + 1) (aeEntries args) Hl1 ltac:(lia))
    as (durable & n2 & -> & [w ->]). simpl.
  set (n2 := set_logStore w n1).
  assert (node_ok n2) as Hok2 by done.
  destruct durable; simpl.
  2:{ eexists _, n2. split; [done|]. destruct (Hkeep n2 Hok2 ltac:(by repeat split)).
      split_and!; auto; done. }
  destruct (installEntries_ok n2 (aePrevLogIndex args + 1) (aeEntries args) Hok2 ltac:(simpl; lia))
    as (n3 & -> & Hok3 & Hse3 & Hls3 & Hb3 & He3 & Ht3). simpl.
  set (n4 := if (commitIndex n3 <? aeLeaderCommit args)%nat then _ else n3).
  assert (nlog n4 = nlog n3 /\ lastApplied n4 = lastApplied n3 /\ same_election n3 n4 /\
          commitIndex n3 <= commitIndex n4 <= log_lastIndex (nlog n3) /\
          aeLeaderCommit args `min` log_lastIndex (nlog n3) <= commitIndex n4)
    as (Hlg4 & Hla4 & Hse4 & Hco4 & Hmin4).
  { destruct Hok3 as (_ & _ & _ & Hc3). unfold n4.
    destruct (Nat.ltb_spec (commitIndex n3) (aeLeaderCommit args)); simpl; repeat split; lia. }
  clearbody n4. destruct Hok3 as (Hl3 & Hb3' & Hac3 & Hc3).
  destruct (applyCommitted_ok n4) as (n5 & -> & A5 & Hok5 & _);
    [by rewrite Hlg4|rewrite Hlg4; lia|rewrite Hlg4; lia|].
  simpl. eexists _, n5. split; [done|]. split; [done|].
  destruct A5 as (An&Ar&At&Av&Ac&_&Al&Ab&Alast&Ae&Atb).
  assert (same_election n1 n5) as Hse5.
  { destruct Hse3 as (?&?&?&?), Hse4 as (?&?&?&?). simpl in *. repeat split; congruence. }
  destruct (Hkeep n5 Hok5 Hse5). split_and!; auto. intros _.
  split; [destruct Hse5 as (_&_&->&_); done|]. split; [|rewrite Alast, Ac, Hlg4; done].
  assert (forall j, base (nlog n5) <= j -> termAt (nlog n5) j = termAt (nlog n3) j) as Hterm.
  { intros j Hj. rewrite <- Hlg4. destruct (decide (j = base (nlog n5))) as [->|]; [done|].
    unfold termAt. by rewrite Ae by lia. }
  split.
  - intros j Hj. rewrite Hterm by lia. unfold termAt. rewrite He3 by lia. simpl. by rewrite Hlg.
  - intros i e Hi Hj. rewrite Hterm by done. by apply Ht3.
Qed.

Lemma HandleInstallSnapshot_ok n args :
  node_ok n ->
  exists reply n', HandleInstallSnapshot n args = Some (reply, n') /\ node_ok n' /\ vote_stable n n' /\
    follows n n'.
Proof.
  intros Hok. unfold HandleInstallSnapshot.
  destruct (Nat.ltb_spec (isTerm args) (currentTerm n)).
  { eexists _, n. split_and!; auto using vote_stable_refl, follows_refl. }
  set (n0 := if (currentTerm n <? isTerm args)%nat then _ else n).
  set (n1 := set_leaderID _ (set_role RoleFollower n0)).
  assert (nlog n1 = nlog n /\ commitIndex n1 = commitIndex n /\ lastApplied n1 = lastApplied n /\
          vote_stable n n1 /\ role n1 = RoleFollower) as (Hlg & Hco & Hla & Hvs & Hro).
  { unfold n1, n0. destruct (Nat.ltb_spec (currentTerm n) (isTerm args)); simpl; repeat split; simpl; auto; lia. }
  assert (node_ok n1) as Hok1 by (unfold node_ok in *; by rewrite Hlg, Hco, Hla).
  clearbody n1. clear n0.
  destruct (Nat.leb_spec (isLastIncludedIndex args) (lastApplied n1)).
  { eexists _, n1. split_and!; auto using follows_follower. }
  destruct (sm_install (fsm n1) (isData args)) as [[err|] f].
  { eexists _, (set_fsm f n1). split_and!; auto using follows_follower. }
  set (n2 := match snapshotStore (set_fsm f n1) with Some _ => _ | None => _ end).
  assert (nlog n2 = nlog n1 /\ commitIndex n2 = commitIndex n1 /\ lastApplied n2 = lastApplied n1 /\
          vote_stable n n2 /\ role n2 = RoleFollower) as (Hlg2 & Hco2 & Hla2 & Hvs2 & Hro2).
  { unfold n2. destruct (snapshotStore (set_fsm f n1)); by repeat split; try apply Hvs. }
  clearbody n2. destruct Hok1 as (Hl & Hb & Hac & Hc). rewrite <- Hlg2 in *.
  set (i := isLastIncludedIndex args) in *. set (t := isLastIncludedTerm args).
  assert (forall l, log_ok l -> base l = i -> i <= log_lastIndex l ->
    let n3 := set_log l n2 in
    let n4 := if (commitIndex n3 <? i)%nat then set_commitIndex i n3 else n3 in
    node_ok (set_lastApplied i n4) /\ vote_stable n (set_lastApplied i n4) /\
    role (set_lastApplied i n4) = RoleFollower) as Hfin.
  { intros l Hlok Hbl Hil. simpl. rewrite (proj2 (Nat.ltb_lt _ _)) by lia.
    unfold node_ok. simpl. split_and!; auto; lia. }
  destruct (Nat.ltb_spec (log_lastIndex (nlog n2)) i); simpl.
  { destruct (Hfin (reset (nlog n2) i t)) as (? & ? & ?); [done|done|unfold log_lastIndex; simpl; lia|].
    eexists _, _. split; [done|]. split_and!; auto using follows_follower. }
  destruct (entryAt_Some (nlog n2) i Hl ltac:(lia)) as [e He].
  assert (termAt (nlog n2) i = Some (eTerm e)) as Ht by (unfold termAt; by rewrite He).
  rewrite Ht. simpl. destruct (Nat.eqb_spec (eTerm e) t) as [Heq|_]; simpl.
  - destruct (compact_spec (nlog n2) i t Hl ltac:(lia)) as (l & -> & Hlok & Hbl & Hlast & _);
      [by rewrite Ht, Heq|]. simpl.
    destruct (Hfin l) as (? & ? & ?); [done|done|lia|]. eexists _, _. split; [done|]. split_and!; auto using follows_follower.
  - destruct (Hfin (reset (nlog n2) i t)) as (? & ? & ?); [done|done|unfold log_lastIndex; simpl; lia|].
    eexists _, _. split; [done|]. split_and!; auto using follows_follower.
Qed.

(** A vote is granted in the candidate's term to nobody else. *)
Lemma HandleRequestVote_ok n args :
  node_ok n ->
  exists reply n', HandleRequestVote n args = Some (reply, n') /\ node_ok n' /\ vote_stable n n' /\
    peers n' = peers n /\ role_keep n n' /\
    (rrVoteGranted reply = true ->
       currentTerm n' = rvTerm args /\ votedFor n' = rvCandidateID args /\
       (currentTerm n = rvTerm args -> votedFor n = "" \/ votedFor n = rvCandidateID args)).
Proof.
  intros Hok. unfold HandleRequestVote.
  destruct (Nat.ltb_spec (rvTerm args) (currentTerm n)).
  { eexists _, n. split_and!; auto using vote_stable_refl, role_keep_refl; done. }
  set (n1 := if (currentTerm n <? rvTerm args)%nat then _ else n).
  assert (node_ok n1 /\ vote_stable n n1 /\ currentTerm n1 = rvTerm args /\ peers n1 = peers n /\
          role_keep n n1 /\
          (currentTerm n = rvTerm args -> votedFor n1 = votedFor n))
    as (Hok1 & Hvs1 & Hte1 & Hp1 & Hro1 & Hvf1).
  { unfold n1. destruct (Nat.ltb_spec (currentTerm n) (rvTerm args)); simpl;
      split_and!; auto using vote_stable_refl, role_keep_refl, role_keep_follower; try lia; repeat split; simpl; lia || done. }
  clearbody n1. rewrite lastTerm_spec by apply Hok1.
  destruct (entryAt_Some (nlog n1) (log_lastIndex (nlog n1)) (proj1 Hok1)) as [e He].
  { pose proof (lastIndex_base (nlog n1) (proj1 Hok1)). lia. }
  unfold termAt. rewrite He. simpl.
  match goal with |- context [if (?a && ?b)%bool then _ else _] => destruct a eqn:Ea; destruct b eqn:Eb end;
    simpl; try (eexists _, n1; split_and!; auto; done).
  eexists _, _. split; [done|]. bool_to_prop. split_and!; auto.
  - destruct Hvs1 as (Hn & Hle & Hv). split; [done|]. split; [done|]. simpl. intros Heq Hne.
    specialize (Hv Heq Hne). destruct Ea as [Ea|Ea]; bool_to_prop; congruence.
  - intros _. simpl. split_and!; auto. intros Heq. rewrite <- (Hvf1 Heq).
    destruct Ea as [Ea|Ea]; bool_to_prop; auto.
Qed.

Lemma vote_stable_same n n' :
  nid n' = nid n -> currentTerm n' = currentTerm n -> votedFor n' = votedFor n -> vote_stable n n'.
Proof. intros Hn Ht Hv. split; [done|]. rewrite Ht, Hv. done. Qed.

Lemma stepDown_ok n t : node_ok n -> currentTerm n < t ->
  node_ok (stepDownLocked n t) /\ vote_stable n (stepDownLocked n t).
Proof. intros Hok Ht. split; [done|]. split; [done|]. simpl. split; lia. Qed.

Lemma appendEntry_ok n e :
  node_ok n ->
  exists r n', appendEntryLocked n e = Some (r, n') /\ node_ok n' /\ same_election n n'.
Proof.
  intros (Hl & Hb & Hac & Hc). unfold appendEntryLocked.
  pose proof (persistEntry_frame n (log_lastIndex (nlog n) + 1) e) as [w Hw].
  destruct (persistEntryLocked n _ e) as [n1 err]. simpl in Hw. subst n1.
  destruct err as [err|]; [by eexists _, _; split_and!; [done| |repeat split]|].
  destruct (updateCommit_ok (set_log (log_append (nlog (set_logStore w n)) [e]) (set_logStore w n)))
    as (c & n' & -> & A & Hok & _); simpl; rewrite ?lastIndex_append by done.
  - by apply log_ok_append.
  - lia.
  - lia.
  - eexists _, n'. split; [done|]. split; [done|]. destruct A as (?&?&?&?&_). by repeat split.
Qed.

Lemma updateCommit_progress n (m : gmap string nat) (nx : gmap string nat) :
  node_ok n ->
  exists n', updateCommitIndexLocked (set_nextIndex nx (set_matchIndex m n)) = Some n' /\ node_ok n' /\
    same_election n n'.
Proof.
  intros (Hl & Hb & Hac & Hc).
  destruct (updateCommit_ok (set_nextIndex nx (set_matchIndex m n))) as (c & n' & -> & A & Hok & _);
    simpl; [done|lia|done|].
  exists n'. split; [done|]. split; [done|]. destruct A as (?&?&?&?&_). by repeat split.
Qed.

Lemma set_progress_id n : n = set_nextIndex (nextIndex n) (set_matchIndex (matchIndex n) n).
Proof. by destruct n. Qed.

Lemma onAppendReply_ok n peer args reply :
  node_ok n ->
  exists n', onAppendReply n peer args reply = Some n' /\ node_ok n' /\ vote_stable n n' /\
    role_keep n n'.
Proof.
  intros Hok. unfold onAppendReply.
  destruct (Nat.ltb_spec (currentTerm n) (arTerm reply)).
  { eexists. split; [done|]. destruct (stepDown_ok n (arTerm reply)); auto using role_keep_follower. }
  destruct (_ || _)%bool; [exists n; split_and!; auto using vote_stable_refl, role_keep_refl|].
  destruct (arSuccess reply).
  - set (n1 := if (_ <? _)%nat then _ else n).
    assert (exists m nx, n1 = set_nextIndex nx (set_matchIndex m n)) as (m & nx & ->).
    { unfold n1. destruct (_ <? _)%nat; [by eexists _, _|]. eexists _, _. apply set_progress_id. }
    destruct (updateCommit_progress n m nx Hok) as (n' & -> & Hok' & (?&?&?&?)).
    exists n'. split; [done|]. split_and!; auto using vote_stable_same. intros _. split; congruence.
  - destruct (_ <? _)%nat; eexists; (split; [done|]); split_and!; auto using vote_stable_refl, vote_stable_same, role_keep_refl. done.
Qed.

Lemma onSnapshotReply_ok n peer snap reply :
  node_ok n ->
  exists n', onSnapshotReply n peer snap reply = Some n' /\ node_ok n' /\ vote_stable n n' /\
    role_keep n n'.
Proof.
  intros Hok. unfold onSnapshotReply.
  destruct (Nat.ltb_spec (currentTerm n) (irTerm reply)).
  { eexists. split; [done|]. destruct (stepDown_ok n (irTerm reply)); auto using role_keep_follower. }
  destruct (_ || _)%bool; [exists n; split_and!; auto using vote_stable_refl, role_keep_refl|].
  set (n1 := if (_ <? _)%nat then _ else n).
  assert (exists m nx, n1 = set_nextIndex nx (set_matchIndex m n)) as (m & nx & ->).
  { unfold n1. destruct (_ <? _)%nat; [by eexists _, _|]. eexists _, _. apply set_progress_id. }
  destruct (updateCommit_progress n m nx Hok) as (n' & -> & Hok' & (?&?&?&?)).
  exists n'. split; [done|]. split_and!; auto using vote_stable_same. intros _. split; congruence.
Qed.

Lemma onVoteReply_ok n el reply :
  node_ok n ->
  exists b el' n', onVoteReply n el reply = Some (b, el', n') /\ node_ok n' /\ vote_stable n n'.
Proof.
  intros Hok. unfold onVoteReply.
  destruct (Nat.ltb_spec (currentTerm n) (rrTerm reply)).
  { eexists _, _, _. split; [done|]. by apply stepDown_ok. }
  destruct (_ || _)%bool; [eexists _, _, n; split_and!; auto using vote_stable_refl|]. simpl.
  destruct (_ <=? _)%nat; [|eexists _, _, n; split_and!; auto using vote_stable_refl].
  destruct (tryBecomeLeader_ok n (elTerm el) Hok) as (b & n' & -> & Hok' & ? & ? & ? & _). simpl.
  eexists _, _, n'. split; [done|]. split; [done|]. by apply vote_stable_same.
Qed.
End raft_props.
