(* ===== verification/RaftInstances.v ===== *)
(** * Concrete instances of a Raft node's interfaces, for runnable examples *)

From S2P Require Import Prelude WalTypes WalCodec RaftLog Raft.

(** A state machine that remembers what it applied. *)
Definition TraceFsm : Type := list Entry.
#[export] Instance TraceFsm_sm : StateMachine TraceFsm := {|
  sm_apply f e := f ++ [e];
  sm_take f := Ok [];
  sm_install f _ := (None, [])
|}.

(** A WAL that never fails, as the list of its records. *)
Definition RaftWal : Type := list Record_.
#[export] Instance RaftWal_wal : Wal RaftWal := fun w r => (w ++ [r], None).

Definition MemSnapshots : Type := option Snapshot.
#[export] Instance MemSnapshots_ss : SnapshotStore MemSnapshots := {|
  ss_save _ s := (Some s, None);
  ss_load ss := Ok ss
|}.

Definition MemMeta : Type := option CommittedMeta.
#[export] Instance MemMeta_ms : MetaStore MemMeta := {|
  ms_save _ m := (Some m, None);
  ms_load ms := Ok ms
|}.

#[export] Instance Configuration_countable : Countable Configuration.
Proof.
  apply (inj_countable' (fun c => (Voters c, Addrs c)) (fun p => mkConfiguration p.1 p.2)). by intros [].
Defined.

#[export] Instance BitConfigJson : ConfigJson := {|
  json_config c := Ok (write_bits (encode c));
  json_unconfig := read_value
|}.

Definition MemNode : Type := Node TraceFsm RaftWal MemSnapshots MemMeta.

(** A node of a cluster, with its stores. *)
Definition mem_node (id : string) (ps : list string) : MemNode :=
  mkNode id ps RoleFollower 0 "" NewLog (Some []) 0 0 "" 0 ∅ ∅ ∅ (Some None) 2000 (Some None)
    false false ∅ [].

(** A command that the log store accepts. *)
Definition put_command (k v : string) : bytes :=
  match json_record (store_record OpPut k v 0) with Ok b => b | Err _ => [] end.

(** The result of a run that does not panic. *)
Definition ran_to {A : Type} (o : option A) (a : A) : A := default a o.
