(* ===== verification/RaftThms.v ===== *)
(** * A Raft node: its properties *)

From S2P Require Import Prelude WalTypes WalCodec RaftLog Raft RaftProps RaftInstances.

(** Everything that can happen to a running node: timers, RPCs, replies, client
    and membership requests. *)
Inductive input : Type :=
  | IBecomeCandidate
  | IStartElection
  | IVoteReply (el : Election) (reply : RequestVoteReply)
  | IRequestVote (args : RequestVote)
  | IAppendEntries (args : AppendEntries)
  | IInstallSnapshot (args : InstallSnapshot)
  | IPropose (command : bytes)
  | IAppendReply (peer : string) (args : AppendEntries) (reply : AppendEntriesReply)
  | ISnapshotReply (peer : string) (snap : Snapshot) (reply : InstallSnapshotReply)
  | IAddServer (id addr : string)
  | IRemoveServer (id : string)
  | IFinishStepDown
  | IRead (replies : list AppendEntriesReply) (finished : bool).

Section raft_thms.
Context {F W SS MS : Type}.
Context {SMF : StateMachine F} {WalW : Wal W} {SSS : SnapshotStore SS} {MSS : MetaStore MS}
  {J : Json} {CJ : ConfigJson}.
Implicit Types n : Node F W SS MS.

Definition raft_step n (i : input) : option (Node F W SS MS) :=
  match i with
  | IBecomeCandidate => Some (becomeCandidate n).2
  | IStartElection => snd <$> startElection n
  | IVoteReply el reply => snd <$> onVoteReply n el reply
  | IRequestVote args => snd <$> HandleRequestVote n args
  | IAppendEntries args => snd <$> HandleAppendEntries n args
  | IInstallSnapshot args => snd <$> HandleInstallSnapshot n args
  | IPropose command => snd <$> Propose n command
  | IAppendReply peer args reply => onAppendReply n peer args reply
  | ISnapshotReply peer snap reply => onSnapshotReply n peer snap reply
  | IAddServer id addr => snd <$> AddServer n id addr
  | IRemoveServer id => snd <$> RemoveServer n id
  | IFinishStepDown => Some (finishStepDown n)
  | IRead replies finished => Some (ReadIndex n replies finished).2
  end.

Definition raft_run n (evs : list input) : option (Node F W SS MS) :=
  foldl (fun o i => n ← o; raft_step n i) (Some n) evs.

Lemma countAcks_ok replies n acks stepped :
  node_ok n ->
  node_ok (countAcks n acks stepped replies).2 /\ vote_stable n (countAcks n acks stepped replies).2.
Proof.
  revert n acks stepped. induction replies as [|r replies IH]; intros n acks stepped Hok;
    [auto using vote_stable_refl|].
  simpl. destruct (Nat.ltb_spec (currentTerm n) (arTerm r)); [|by apply IH].
  destruct (stepDown_ok n (arTerm r) Hok) as [Hok' Hv]; [lia|].
  destruct (IH (stepDownLocked n (arTerm r)) acks true Hok'). split; [done|].
  by eapply vote_stable_trans.
Qed.

Lemma confirmLeadership_ok n replies finished :
  node_ok n ->
  node_ok (confirmLeadership n replies finished).2 /\
  vote_stable n (confirmLeadership n replies finished).2.
Proof.
  intros Hok. unfold confirmLeadership.
  destruct (length (peers n) =? 0)%nat; [auto using vote_stable_refl|].
  destruct (negb (IsLeader n)); [auto using vote_stable_refl|].
  pose proof (countAcks_ok replies n 1 false Hok) as H.
  destruct (countAcks n 1 false replies) as [[acks stepped] n']. simpl in H.
  destruct (_ || _)%bool; [|done]. by destruct (_ || _)%bool.
Qed.

Lemma ReadIndex_ok n replies finished :
  node_ok n ->
  node_ok (ReadIndex n replies finished).2 /\ vote_stable n (ReadIndex n replies finished).2.
Proof.
  intros Hok. unfold ReadIndex. destruct (negb (IsLeader n)); [auto using vote_stable_refl|].
  destruct (_ <? _)%nat; [auto using vote_stable_refl|].
  pose proof (confirmLeadership_ok n replies finished Hok) as H.
  destruct (confirmLeadership n replies finished) as [[e|] n']; [done|]. simpl in *.
  by destruct (_ <? _)%nat.
Qed.

Lemma same_election_stable n n' : same_election n n' -> vote_stable n n'.
Proof. intros (?&?&?&?). by apply vote_stable_same. Qed.

Lemma startElection_ok n :
  node_ok n ->
  exists el n', startElection n = Some (el, n') /\ node_ok n' /\ vote_stable n n'.
Proof.
  intros Hok. unfold startElection. rewrite lastTerm_spec by apply Hok.
  destruct (entryAt_Some (nlog n) (log_lastIndex (nlog n)) (proj1 Hok)) as [e He].
  { pose proof (lastIndex_base (nlog n) (proj1 Hok)). lia. }
  unfold termAt. rewrite He. simpl. destruct (_ =? 0)%nat.
  - destruct (tryBecomeLeader_ok n (currentTerm n) Hok) as (b & n' & -> & Hok' & ? & ? & ? & _).
    simpl. eexists _, n'. split; [done|]. split; [done|]. by apply vote_stable_same.
  - eexists _, n. auto using vote_stable_refl.
Qed.

Lemma raft_step_ok n i :
  node_ok n -> exists n', raft_step n i = Some n' /\ node_ok n' /\ vote_stable n n'.
Proof.
  intros Hok. destruct i; simpl.
  - unfold becomeCandidate. destruct (_ || _)%bool; eexists; (split; [done|]); split;
      auto using vote_stable_refl. split; [done|]. simpl. split; lia.
  - destruct (startElection_ok n Hok) as (el & n' & -> & ? & ?). eauto.
  - destruct (onVoteReply_ok n el reply Hok) as (b & el' & n' & -> & ? & ?). eauto.
  - destruct (HandleRequestVote_ok n args Hok) as (r & n' & -> & ? & ? & _). eauto.
  - destruct (HandleAppendEntries_ok n args Hok) as (r & n' & -> & ? & ? & _). eauto.
  - destruct (HandleInstallSnapshot_ok n args Hok) as (r & n' & -> & ? & ? & _). eauto.
  - unfold Propose. destruct (negb (IsLeader n)); [eauto using vote_stable_refl|].
    destruct (appendEntry_ok n (mkEntry (currentTerm n) (Some command) None) Hok) as (r & n' & -> & ? & ?).
    eauto using same_election_stable.
  - destruct (onAppendReply_ok n peer args reply Hok) as (n' & -> & ? & ? & _). eauto.
  - destruct (onSnapshotReply_ok n peer snap reply Hok) as (n' & -> & ? & ? & _). eauto.
  - unfold AddServer. destruct (negb (IsLeader n)); [eauto using vote_stable_refl|].
    destruct (_ || _)%bool; [eauto using vote_stable_refl|].
    set (n1 := set_matchIndex _ _).
    assert (node_ok n1 /\ same_election n n1) as [Hok1 Hse].
    { unfold n1. destruct (String.eqb addr ""); by split. }
    match goal with |- context [appendEntryLocked n1 ?e] =>
      destruct (appendEntry_ok n1 e Hok1) as (r & n' & -> & ? & Hse') end.
    eexists. split; [done|]. split; [done|]. eapply vote_stable_trans; by apply same_election_stable.
  - unfold RemoveServer. destruct (negb (IsLeader n)); [eauto using vote_stable_refl|].
    destruct (_ && _)%bool; [eauto using vote_stable_refl|].
    match goal with |- context [appendEntryLocked n ?e] =>
      destruct (appendEntry_ok n e Hok) as (r & n' & -> & ? & ?) end.
    eauto using same_election_stable.
  - unfold finishStepDown. destruct (_ && _)%bool; eexists; (split; [done|]);
      auto using vote_stable_refl, vote_stable_same.
  - eexists. split; [done|]. by apply ReadIndex_ok.
Qed.

(** [replicateTo] panics exactly when the leader's next index for the peer lies
    beyond the end of its log: the log is then indexed out of its range. *)
Lemma replicateTo_panics n peer :
  node_ok n ->
  (replicateTo n peer = None <->
   IsLeader n = true /\ log_lastIndex (nlog n) + 1 < get0 (nextIndex n) peer).
Proof.
  intros (Hl & Hb & Hac & Hc). unfold replicateTo. destruct (IsLeader n); simpl; [|split; [done|by intros [? _]]].
  unfold baseIndex. destruct (Nat.leb_spec (get0 (nextIndex n) peer) (base (nlog n))) as [Hle|Hlt].
  { split; [done|]. pose proof (lastIndex_base (nlog n) Hl). intros [_ ?]. lia. }
  destruct (decide (get0 (nextIndex n) peer <= log_lastIndex (nlog n) + 1)) as [Hin|Hout].
  - destruct (entryAt_Some (nlog n) (get0 (nextIndex n) peer - 1) Hl ltac:(lia)) as [e He].
    destruct (slice_spec (nlog n) (get0 (nextIndex n) peer) Hl ltac:(lia)) as (es & Hes & _).
    unfold termAt. rewrite He, Hes. simpl. split; [done|]. intros [_ ?]. lia.
  - split; [intros _; split; [done|lia]|]. intros _. unfold termAt.
    destruct (entryAt (nlog n) (get0 (nextIndex n) peer - 1)) as [e|] eqn:He; [|done].
    apply entryAt_range in He; [lia|done].
Qed.

(** What a goroutine of the node does while it holds the lock: a handler or a
    timer, or the sending half of [replicateTo], which
    [broadcastAppendEntries] starts for every peer of [replicateSetLocked] and
    which may go on to [sendSnapshot]. Sending leaves the node as it is. *)
Inductive turn : Type :=
  | THandle (i : input)
  | TReplicate (peer : string).

Definition node_turn n (t : turn) : option (Node F W SS MS) :=
  match t with
  | THandle i => raft_step n i
  | TReplicate peer => (fun _ => n) <$> replicateTo n peer
  end.

Definition node_turns n (ts : list turn) : option (Node F W SS MS) :=
  foldl (fun o t => n ← o; node_turn n t) (Some n) ts.


(** Committed entries reach the state machine in log order, each once: the
    new state is the old one with the commands at the indices from the applied
    one to the commit index applied in order (compaction in between changes
    nothing), no-ops and configurations skipped. *)
Theorem applied_in_order n :
  log_ok (nlog n) -> base (nlog n) <= lastApplied n <= commitIndex n ->
  commitIndex n <= log_lastIndex (nlog n) ->
  exists n', applyCommittedLocked n = Some n' /\ lastApplied n' = commitIndex n /\
    fsm n' = foldl sm_apply (fsm n)
      (filter is_command (log_between (nlog n) (lastApplied n) (commitIndex n - lastApplied n))) /\
    (forall i, base (nlog n') < i -> entryAt (nlog n') i = entryAt (nlog n) i) /\
    logStore n' = logStore n.
Proof.
  intros Hl Hb Hc. destruct (applyCommitted_ok n Hl Hb Hc) as (n' & E & A & Hok & Hf).
  exists n'. destruct A as (_&_&_&_&Hco&Hls&_&_&_&He&_), Hok as (_&_&Hac&_).
  split_and!; auto. congruence.
Qed.

(** The leader commits by counting: its commit index moves only forward,
    and only to an index whose entry has the current term and which at least a
    majority (counting itself) has acknowledged; the state machine then has
    exactly the commands up to it. *)
Theorem commit_needs_majority n :
  node_ok n ->
  exists n', updateCommitIndexLocked n = Some n' /\ node_ok n' /\
    (commitIndex n' = commitIndex n \/
     commitIndex n < commitIndex n' /\ termAt (nlog n) (commitIndex n') = Some (currentTerm n) /\
     majorityLocked n <= countMatch n (commitIndex n')) /\
    fsm n' = foldl sm_apply (fsm n) (filter is_command
      (log_between (nlog n) (lastApplied n) (commitIndex n' - lastApplied n))).
Proof.
  intros (Hl & Hb & Hac & Hc). destruct (updateCommit_ok n Hl ltac:(lia) Hc)
    as (c & n' & E & A & Hok & Hco & Hcc & Hf).
  exists n'. rewrite Hco. split; [done|]. split; [done|]. split; [|done].
  destruct Hcc as [->|[? [? ?]]]; [by left|right]. split_and!; auto. lia.
Qed.

(** A successful AppendEntries leaves the follower's log equal in terms to
    the leader's: below the request nothing changed, the request's entries are
    there, the term is the leader's, and everything the leader has committed
    as far as the log reaches is committed. *)
Theorem AppendEntries_installs n args :
  node_ok n ->
  exists reply n', HandleAppendEntries n args = Some (reply, n') /\ node_ok n' /\
    (aeTerm args < currentTerm n -> arSuccess reply = false /\ n' = n) /\
    (arSuccess reply = true ->
       currentTerm n' = aeTerm args /\ installed n n' (aePrevLogIndex args) (aeEntries args) /\
       aeLeaderCommit args `min` log_lastIndex (nlog n') <= commitIndex n').
Proof.
  intros Hok. destruct (HandleAppendEntries_ok n args Hok) as (reply & n' & E & Hok' & _ & _ & Hs).
  exists reply, n'. split_and!; auto. intros Hlt. unfold HandleAppendEntries in E.
  rewrite (proj2 (Nat.ltb_lt _ _)) in E by done. by simplify_eq.
Qed.

(** What a leader sends is consistent: to a peer whose next index is
    within its log, [replicateTo] does not panic and either falls back to a
    snapshot or sends its whole log from that index with the index and term
    before it, and a commit index that the message's entries reach. *)
Theorem replicateTo_sound n peer :
  node_ok n -> get0 (nextIndex n) peer <= log_lastIndex (nlog n) + 1 ->
  exists a, replicateTo n peer = Some a /\
    match a with
    | RepNothing => role n <> RoleLeader
    | RepSnapshot => get0 (nextIndex n) peer <= base (nlog n)
    | RepAppend args =>
        aeTerm args = currentTerm n /\ aeLeaderID args = nid n /\
        termAt (nlog n) (aePrevLogIndex args) = Some (aePrevLogTerm args) /\
        (forall k, aeEntries args !! k = entryAt (nlog n) (aePrevLogIndex args + 1 + k)) /\
        aePrevLogIndex args + length (aeEntries args) = log_lastIndex (nlog n) /\
        aeLeaderCommit args <= aePrevLogIndex args + length (aeEntries args)
    end.
Proof.
  intros (Hl & Hb & Hac & Hc) Hn. unfold replicateTo.
  destruct (negb (IsLeader n)) eqn:El.
  { eexists. split; [done|]. unfold IsLeader in El. by bool_to_prop. }
  unfold baseIndex. destruct (Nat.leb_spec (get0 (nextIndex n) peer) (base (nlog n))); [eauto|].
  destruct (entryAt_Some (nlog n) (get0 (nextIndex n) peer - 1) Hl ltac:(lia)) as [e He].
  destruct (slice_spec (nlog n) (get0 (nextIndex n) peer) Hl ltac:(lia)) as (es & Hes & Hlen & Hk).
  unfold termAt at 1. rewrite He, Hes. simpl. eexists. split; [done|]. simpl.
  split_and!; auto; try lia.
  - unfold termAt. by rewrite He.
  - intros k. rewrite Hk. f_equal. lia.
Qed.
End raft_thms.

(** ** Concrete runs *)

(** A leader of term 1 in a cluster of three, with its no-op at index 1. *)
Definition sample_leader : MemNode :=
  ran_to (raft_run (mem_node "a" ["b"; "c"])
    [IBecomeCandidate; IVoteReply (mkElection 1 0 0 2 ["b"; "c"] 1) (mkRequestVoteReply 0 true)])
    (mem_node "a" []).

Lemma mem_node_ok id ps : node_ok (mem_node id ps).
Proof. unfold node_ok. simpl. split_and!; [done|lia|lia|lia]. Qed.

Lemma sample_leader_ok : node_ok sample_leader /\ role sample_leader = RoleLeader.
Proof.
  split; [|vm_compute; reflexivity]. unfold node_ok. vm_compute. split_and!; [done|lia|lia|lia].
Qed.


(** The leader with a client command committed and not yet applied. *)
Definition sample_committed : MemNode :=
  set_commitIndex 2 (set_log (log_append (nlog sample_leader)
    [mkEntry 1 (Some (put_command "k" "v")) None]) sample_leader).

Lemma applied_in_order_witness :
  exists n', applyCommittedLocked sample_committed = Some n' /\ lastApplied n' = 2 /\
    fsm n' = [mkEntry 1 (Some (put_command "k" "v")) None].
Proof.
  destruct (applied_in_order sample_committed) as (n' & E & Hl & Hf & _).
  - vm_compute. discriminate.
  - vm_compute. lia.
  - vm_compute. lia.
  - exists n'. split; [exact E|]. split; [exact Hl|]. rewrite Hf. vm_compute. reflexivity.
Defined.

(** One follower has acknowledged index 1. *)
Definition sample_acked : MemNode := set_matchIndex {[ "b" := 1; "c" := 0 ]} sample_leader.

Lemma commit_needs_majority_witness :
  exists n', updateCommitIndexLocked sample_acked = Some n' /\ node_ok n' /\
    (commitIndex n' = 0 \/ 0 < commitIndex n' /\ 2 <= countMatch sample_acked (commitIndex n')).
Proof.
  destruct (commit_needs_majority sample_acked) as (n' & E & Hok & Hc & _).
  - unfold node_ok. vm_compute. split_and!; [done|lia|lia|lia].
  - exists n'. split; [exact E|]. split; [exact Hok|].
    assert (commitIndex sample_acked = 0) as H0 by (vm_compute; reflexivity).
    assert (majorityLocked sample_acked = 2) as H2 by (vm_compute; reflexivity).
    rewrite H0, H2 in Hc. destruct Hc as [?|(? & _ & ?)]; auto.
Defined.

Lemma AppendEntries_installs_witness :
  exists reply n', HandleAppendEntries sample_leader
      (mkAppendEntries 2 "b" 0 0 [noop 2; mkEntry 2 (Some (put_command "k" "v")) None] 2) = Some (reply, n') /\
    arSuccess reply = true /\ currentTerm n' = 2 /\ termAt (nlog n') 1 = Some 2 /\ termAt (nlog n') 2 = Some 2.
Proof.
  destruct (AppendEntries_installs sample_leader
    (mkAppendEntries 2 "b" 0 0 [noop 2; mkEntry 2 (Some (put_command "k" "v")) None] 2))
    as (reply & n' & E & Hok & _ & Hs).
  - apply sample_leader_ok.
  - assert (arSuccess reply = true /\ base (nlog n') = 0) as [Hr Hb].
    { vm_compute in E. injection E as <- <-. split; reflexivity. }
    destruct (Hs Hr) as (Ht & [_ Hi] & _). exists reply, n'.
    split; [exact E|]. split; [exact Hr|]. split; [exact Ht|]. split.
    + apply (Hi 0 (noop 2)); [reflexivity|rewrite Hb; simpl; lia].
    + apply (Hi 1 (mkEntry 2 (Some (put_command "k" "v")) None)); [reflexivity|rewrite Hb; simpl; lia].
Defined.

Lemma replicateTo_sound_witness :
  exists args, replicateTo sample_leader "b" = Some (RepAppend args) /\ aePrevLogIndex args = 0 /\
    aeEntries args = [noop 1] /\ aeLeaderCommit args <= aePrevLogIndex args + length (aeEntries args).
Proof.
  destruct (replicateTo_sound sample_leader "b") as (a & E & Ha).
  - apply sample_leader_ok.
  - vm_compute. lia.
  - destruct a as [|args|]; try (vm_compute in E; discriminate).
    exists args. split; [exact E|]. destruct Ha as (_ & _ & _ & _ & _ & Hc).
    vm_compute in E. injection E as <-. split; [reflexivity|]. split; [reflexivity|]. exact Hc.
Defined.

(** ** Where the node falls short of its comments *)

(** A leader cut off from all its peers, whose requests all fail at once,
    confirms its leadership: the wait ends when every request has returned and
    the acknowledgements are not counted again. *)
Theorem read_without_quorum :
  exists n : MemNode, IsLeader n = true /\ length (peers n) = 2 /\
    ReadIndex n [] true = (Ok 1, n).
Proof.
  exists (ran_to (updateCommitIndexLocked sample_acked) sample_acked).
  split; [vm_compute; reflexivity|]. split; [vm_compute; reflexivity|]. vm_compute. reflexivity.
Qed.

(** A joining member, not a voter, is counted: with two voters (itself and
    ["b"], a quorum of 2) the leader commits with the joining ["x"]'s
    acknowledgement alone. *)
Theorem joining_counted :
  exists n n' : MemNode, peers n = ["b"] /\ "x" ∈ joining n /\ matchIndex n !! "b" = Some 0 /\
    commitIndex n = 0 /\ updateCommitIndexLocked n = Some n' /\ commitIndex n' = 1.
Proof.
  exists (set_peers ["b"] (set_joining {["x"]} (set_matchIndex {[ "b" := 0; "x" := 1 ]} sample_leader))).
  eexists. split; [reflexivity|]. split; [by apply elem_of_singleton|]. split; [reflexivity|].
  split; [reflexivity|]. split; vm_compute; reflexivity.
Qed.

(** A re-elected leader resets its progress for voters only: the next index of a
    member that was joining before can point past the log, and replicating to it
    panics. *)
Theorem joining_panics :
  exists n : MemNode,
    raft_run (mem_node "a" ["b"; "c"; "d"; "e"])
      [IBecomeCandidate; IVoteReply (mkElection 1 0 0 3 ["b"; "c"; "d"; "e"] 2) (mkRequestVoteReply 0 true);
       IAddServer "x" "addr"; IPropose (put_command "k" "1"); IPropose (put_command "k" "2");
       IAppendReply "x" (mkAppendEntries 1 "a" 0 0 [noop 1; noop 1; noop 1; noop 1] 0)
         (mkAppendEntriesReply 1 true);
       IAppendEntries (mkAppendEntries 2 "b" 0 0 [noop 2] 0);
       IBecomeCandidate; IVoteReply (mkElection 3 1 2 3 ["b"; "c"; "d"; "e"] 2) (mkRequestVoteReply 2 true)]
    = Some n /\ IsLeader n = true /\ "x" ∈ replicateSetLocked n /\ replicateTo n "x" = None.
Proof.
  eexists. split; [vm_compute; reflexivity|]. split; [reflexivity|].
  split; vm_compute; reflexivity.
Qed.
