(* ===== verification/RaftDriver.v ===== *)
(** * The election timer of a Raft node (internal/raft/raft.go)

    [electionLoop] with the timer it waits for, and the inputs of a node that put a
    token into the channel [electionReset]. A step has the time at which it is made;
    random numbers are arguments. Replies to snapshots and to the heartbeats of a
    read, which can reset the timer too, are not among the inputs here. *)

From S2P Require Import Prelude WalTypes WalCodec RaftLog Raft RaftProps RaftInstances.

Section driver.
Context {F W SS MS : Type}.
Context {SMF : StateMachine F} {WalW : Wal W} {SSS : SnapshotStore SS} {MSS : MetaStore MS}
  {J : Json} {CJ : ConfigJson}.

(** [cfg.ElectionTimeout], which [NewNode] makes positive. *)
Context (timeout : Z).

Record Timed : Type := mkTimed {
  tnode : Node F W SS MS;
  deadline : Z;            (* when the timer fires *)
  electionReset : bool;    (* whether the channel has its one token *)
  stopCh : bool;           (* closed *)
  doneCh : bool            (* closed: the loop has returned *)
}.

(** [rnd] is what [rng.Int63n] gives. *)
Definition randomElectionTimeout (rnd : Z) : Z := timeout + rnd.

(** [resetElectionTimer]: a token that does not fit is dropped. *)
Definition resetElectionTimer (when : bool) (x : Timed) : Timed :=
  mkTimed (tnode x) (deadline x) (when || electionReset x) (stopCh x) (doneCh x).
Definition set_node (n : Node F W SS MS) (x : Timed) : Timed :=
  mkTimed n (deadline x) (electionReset x) (stopCh x) (doneCh x).
Definition arm (now rnd : Z) (token : bool) (x : Timed) : Timed :=
  mkTimed (tnode x) (now + randomElectionTimeout rnd) token (stopCh x) (doneCh x).

(** ** When the handlers reset the timer *)

Definition vote_resets (n : Node F W SS MS) (args : RequestVote) (reply : RequestVoteReply) : bool :=
  negb (rvTerm args <? currentTerm n)%nat && ((currentTerm n <? rvTerm args)%nat || rrVoteGranted reply).
Definition append_resets (n : Node F W SS MS) (args : AppendEntries) : bool := negb (aeTerm args <? currentTerm n)%nat.
Definition snapshot_resets (n : Node F W SS MS) (args : InstallSnapshot) : bool := negb (isTerm args <? currentTerm n)%nat.

Inductive Input : Type :=
| IVote (args : RequestVote) | IAppend (args : AppendEntries) | ISnapshot (args : InstallSnapshot)
| IVoteReply (el : Election) (reply : RequestVoteReply) | IAppendReply (peer : string) (args : AppendEntries) (reply : AppendEntriesReply)
| IReset (rnd : Z) | ITimer (rnd : Z) | IStop | IEnd.

(** The loop's case for the timer. *)
Definition campaign (n : Node F W SS MS) : option (Node F W SS MS) :=
  if IsLeader n then Some n
  else let '(ok, n) := becomeCandidate n in
       if (ok : bool) then '(_, n) ← startElection n; Some n else Some n.

(** [None]: the input cannot come now, or the node panics. *)
Definition step (x : Timed) (e : Z * Input) : option Timed :=
  let n := tnode x in
  match e.2 with
  | IVote args => '(r, n') ← HandleRequestVote n args; Some (resetElectionTimer (vote_resets n args r) (set_node n' x))
  | IAppend args => '(_, n') ← HandleAppendEntries n args; Some (resetElectionTimer (append_resets n args) (set_node n' x))
  | ISnapshot args => '(_, n') ← HandleInstallSnapshot n args; Some (resetElectionTimer (snapshot_resets n args) (set_node n' x))
  | IVoteReply el r => '(_, _, n') ← onVoteReply n el r; Some (resetElectionTimer (currentTerm n <? rrTerm r)%nat (set_node n' x))
  | IAppendReply p args r => n' ← onAppendReply n p args r; Some (resetElectionTimer (currentTerm n <? arTerm r)%nat (set_node n' x))
  | IReset rnd => if (electionReset x && negb (doneCh x))%bool then Some (arm e.1 rnd false x) else None
  | ITimer rnd =>
      if ((deadline x <=? e.1)%Z && negb (doneCh x))%bool
      then n' ← campaign n; Some (arm e.1 rnd (electionReset x) (set_node n' x)) else None
  | IStop => Some (mkTimed n (deadline x) (electionReset x) true (doneCh x))
  | IEnd => if (stopCh x && negb (doneCh x))%bool then Some (mkTimed n (deadline x) (electionReset x) (stopCh x) true) else None
  end.

Fixpoint run (x : Timed) (es : list (Z * Input)) : option Timed :=
  match es with [] => Some x | e :: es' => x' ← step x e; run x' es' end.

(** ** Timing *)

Definition rearms (i : Input) : bool := match i with IReset _ | ITimer _ => true | _ => false end.

(** An input not before [t], its random number in range. *)
Definition from (t : Z) (e : Z * Input) : Prop :=
  (t <= e.1)%Z /\ match e.2 with IReset rnd | ITimer rnd => (0 <= rnd < timeout)%Z | _ => True end.

Lemma step_deadline x e x' :
  step x e = Some x' -> rearms e.2 = false -> deadline x' = deadline x.
Proof.
  destruct e as [now i]. unfold step. cbn [fst snd]. intros Hs Hr.
  destruct i; try discriminate Hr; repeat (case_match; try discriminate); simplify_option_eq; try done;
    repeat (case_match; simplify_option_eq; try done).
Qed.

Lemma step_rearms x e x' t :
  step x e = Some x' -> from t e -> rearms e.2 = true -> (t + timeout <= deadline x')%Z.
Proof.
  destruct e as [now i]. unfold step, from. cbn [fst snd]. intros Hs [Ht Hi] Hr.
  destruct i as [| | | | |rnd|rnd| |]; try discriminate Hr.
  - destruct (electionReset x && _)%bool; [|done]. injection Hs as <-. cbn. unfold randomElectionTimeout. lia.
  - destruct ((deadline x <=? now)%Z && _)%bool; [|done]. destruct (campaign (tnode x)); [|done].
    injection Hs as <-. cbn. unfold randomElectionTimeout. lia.
Qed.

Lemma run_deadline x es x' t :
  run x es = Some x' -> Forall (from t) es -> (t + timeout <= deadline x)%Z -> (t + timeout <= deadline x')%Z.
Proof.
  revert x. induction es as [|e es IH]; intros x Hrun Hall Hd; cbn in Hrun; [by simplify_eq|].
  destruct (step x e) as [x1|] eqn:He; [|done]. apply Forall_cons in Hall as [Hf Hall].
  apply (IH x1); [done..|]. destruct (rearms e.2) eqn:Hr; [by eapply step_rearms|]. by rewrite (step_deadline x e).
Qed.

Lemma run_quiet x es x' :
  run x es = Some x' -> Forall (fun e => rearms e.2 = false) es -> deadline x' = deadline x.
Proof.
  revert x. induction es as [|e es IH]; intros x Hrun Hall; cbn in Hrun; [by simplify_eq|].
  destruct (step x e) as [x1|] eqn:He; [|done]. apply Forall_cons in Hall as [Hf Hall].
  rewrite <- (step_deadline x e x1); [by apply IH|done..].
Qed.

(** A request of a leader that is not out of date leaves a token for the timer. *)
Lemma append_token x now args x' :
  step x (now, IAppend args) = Some x' -> (currentTerm (tnode x) <= aeTerm args)%nat -> electionReset x' = true.
Proof.
  unfold step. cbn. intros Hs Hle. destruct (HandleAppendEntries _ _) as [[r n']|]; simplify_option_eq. cbn.
  unfold append_resets. by rewrite (proj2 (Nat.ltb_ge _ _) Hle).
Qed.

(** A candidacy of a node that has peers. *)
Lemma campaign_starts n :
  IsLeader n = false -> removed n = false -> peers n <> [] -> log_ok (nlog n) ->
  exists n', campaign n = Some n' /\ role n' = RoleCandidate /\ currentTerm n' = S (currentTerm n) /\ votedFor n' = nid n.
Proof.
  intros Hl Hr Hp Hlog. unfold campaign, becomeCandidate. rewrite Hl, Hr. cbn [orb].
  unfold startElection. cbn [nlog peers set_leaderID set_votedFor set_term set_role].
  assert (is_Some (log_lastTerm (nlog n))) as [lt Hlt].
  { unfold log_lastTerm. destruct (last (entries (nlog n))) eqn:E; [cbn; eauto|]. by apply last_None in E. }
  rewrite Hlt. cbn [mbind option_bind]. destruct (peers n) as [|p ps] eqn:Ep; [done|]. cbn.
  eexists. split; [reflexivity|]. cbn. repeat split. lia.
Qed.

(** A timer that was set at [t] fires between one and two timeouts later: however the
    node is driven, it does not campaign before [t + timeout]; and unless it is set
    anew, a node that is neither leader nor removed can campaign from [t + 2 * timeout]
    on, and is then a candidate of the next term that has voted for itself. *)
Theorem election_timing x es x' t :
  (t + timeout <= deadline x < t + 2 * timeout)%Z -> Forall (from t) es -> run x es = Some x' ->
  (forall now rnd x2, step x' (now, ITimer rnd) = Some x2 -> (t + timeout <= now)%Z) /\
  (Forall (fun e => rearms e.2 = false) es -> doneCh x' = false ->
   IsLeader (tnode x') = false -> removed (tnode x') = false -> peers (tnode x') <> [] -> log_ok (nlog (tnode x')) ->
   forall now rnd, (t + 2 * timeout <= now)%Z ->
   exists x2, step x' (now, ITimer rnd) = Some x2 /\ role (tnode x2) = RoleCandidate /\
     currentTerm (tnode x2) = S (currentTerm (tnode x')) /\ votedFor (tnode x2) = nid (tnode x') /\
     deadline x2 = (now + randomElectionTimeout rnd)%Z).
Proof.
  intros [Hlo Hhi] Hall Hrun. split.
  - intros now rnd x2. unfold step. cbn. pose proof (run_deadline x es x' t Hrun Hall Hlo).
    destruct (Z.leb_spec (deadline x') now); cbn; [lia|done].
  - intros Hq Hdone Hl Hr Hp Hlog now rnd Hnow. destruct (campaign_starts (tnode x') Hl Hr Hp Hlog) as (n' & Hc & Hrole & Hterm & Hvote).
    unfold step. cbn. rewrite (run_quiet x es x' Hrun Hq), Hdone, (proj2 (Z.leb_le _ _)) by lia. cbn. rewrite Hc. cbn.
    eexists. split; [reflexivity|]. done.
Qed.
End driver.

(** A follower whose heartbeat came, but whose loop did not get to it, and that then
    hears nothing more. *)
Definition quiet_follower : Timed :=
  mkTimed (mem_node "a" ["b"; "c"]) 700 false false false.
Definition one_heartbeat : list (Z * Input) := [(100%Z, IAppend (mkAppendEntries 1 "b" 0 0 [] 0))].

Lemma election_timing_example :
  exists x' x2, run 500 quiet_follower one_heartbeat = Some x' /\ electionReset x' = true /\
    step 500 x' (1000%Z, ITimer 17) = Some x2 /\ role (tnode x2) = RoleCandidate /\ currentTerm (tnode x2) = 2%nat.
Proof.
  destruct (run 500 quiet_follower one_heartbeat) as [x'|] eqn:Hrun; [|discriminate Hrun].
  destruct (election_timing 500 quiet_follower one_heartbeat x' 0) as [_ Hc]; [cbn; lia|by repeat constructor|done|].
  injection Hrun as <-. destruct (Hc ltac:(by repeat constructor) eq_refl eq_refl eq_refl ltac:(done) ltac:(done) 1000%Z 17%Z)
    as (x2 & Hs & Hrole & Hterm & _); [lia|].
  eexists _, x2. split; [reflexivity|]. done.
Qed.
