(* ===== verification/RaftElection.v ===== *)
(** * Election safety in a cluster with fixed membership

    A cluster is a map of nodes with the elections in progress. Each step is one
    handler of one node; messages may be delayed, lost, duplicated and arrive in
    any order, and anything but a vote may have any contents. Two records of the
    past are kept besides: the votes granted and the leaders of each term. A
    node does not restart: the term and the vote are in memory only, and the
    source accepts that a restarted node may vote twice (meta.go). *)

From S2P Require Import Prelude WalTypes WalCodec RaftLog Raft RaftProps RaftInstances RaftThms.

Section election.
Context {F W SS MS : Type}.
Context {SMF : StateMachine F} {WalW : Wal W} {SSS : SnapshotStore SS} {MSS : MetaStore MS}
  {J : Json} {CJ : ConfigJson}.
Abbreviation Nd := (Node F W SS MS).
Implicit Types n : Nd.

(** The members of the cluster. *)
Context (ms : gset string).

Record cluster : Type := mkCluster {
  nodes : gmap string Nd;
  elections : list (string * Election * gset string);
  votes : gset (string * nat * string);
  leaders : gset (nat * string)
}.

(** The other members, in any order. *)
Definition static_peers n : Prop :=
  nid n ∈ ms /\ NoDup (peers n) /\ list_to_set (peers n) =@{gset string} ms ∖ {[nid n]}.

(** Node [i] moves to [n]; if it is a leader now, that is recorded. *)
Definition moved (c : cluster) (i : string) n (els : list (string * Election * gset string)) (vs : gset (string * nat * string)) : cluster :=
  mkCluster (<[i := n]> (nodes c)) els (vs ∪ votes c)
    (if decide (role n = RoleLeader) then {[(currentTerm n, i)]} ∪ leaders c else leaders c).

(** The inputs that have nothing to do with an election. *)
Definition ordinary (i : input) : Prop :=
  match i with
  | IBecomeCandidate | IStartElection | IVoteReply _ _ | IRequestVote _ => False
  | _ => True
  end.

Inductive cstep (c : cluster) : cluster -> Prop :=
  | cs_candidate i n b n' :
      nodes c !! i = Some n -> becomeCandidate n = (b, n') ->
      cstep c (moved c i n' (elections c) (if b then {[(i, currentTerm n', i)]} else ∅))
  | cs_start i n el n' :
      nodes c !! i = Some n -> startElection n = Some (el, n') -> peers n' = peers n ->
      cstep c (moved c i n' (elections c ++ [(i, el, ∅)]) ∅)
  | cs_vote i n args reply n' :
      nodes c !! i = Some n -> HandleRequestVote n args = Some (reply, n') -> rvCandidateID args <> "" ->
      cstep c (moved c i n' (elections c)
                 (if rrVoteGranted reply then {[(i, rvTerm args, rvCandidateID args)]} else ∅))
  | cs_count k i el seen p n reply b el' n' :
      elections c !! k = Some (i, el, seen) -> nodes c !! i = Some n ->
      p ∈ elPeers el -> (p ∉ seen) ->
      (rrVoteGranted reply = true -> (p, elTerm el, i) ∈ votes c) ->
      onVoteReply n el reply = Some (b, el', n') -> peers n' = peers n ->
      cstep c (moved c i n' (<[k := (i, el', {[p]} ∪ seen)]> (elections c)) ∅)
  | cs_other i n inp n' :
      nodes c !! i = Some n -> ordinary inp -> raft_step n inp = Some n' -> peers n' = peers n ->
      cstep c (moved c i n' (elections c) ∅).

Inductive reachable : cluster -> Prop :=
  | reach_init c :
      elections c = [] -> votes c = ∅ -> leaders c = ∅ -> "" ∉ ms ->
      (forall i n, nodes c !! i = Some n ->
         nid n = i /\ node_ok n /\ static_peers n /\ role n = RoleFollower) ->
      reachable c
  | reach_step c c' : reachable c -> cstep c c' -> reachable c'.

Definition quorum : nat := size ms / 2 + 1.

(** What holds of every node. *)
Definition node_inv (c : cluster) (i : string) n : Prop :=
  nid n = i /\ node_ok n /\ static_peers n /\
  (role n <> RoleFollower -> votedFor n = i /\ (i, currentTerm n, i) ∈ votes c) /\
  (role n = RoleLeader -> (currentTerm n, i) ∈ leaders c).

(** A vote on record is the voter's vote in that term. *)
Definition vote_inv (c : cluster) (v : string) (t : nat) (cand : string) : Prop :=
  cand <> "" /\ exists n, nodes c !! v = Some n /\
    (t < currentTerm n \/ t = currentTerm n /\ votedFor n = cand).

Definition election_inv (c : cluster) (i : string) (el : Election) (seen : gset string) : Prop :=
  elMajority el = quorum /\ list_to_set (elPeers el) ⊆ ms ∖ {[i]} /\
  exists granted : gset string, granted ⊆ seen /\ seen ⊆ ms ∖ {[i]} /\
    elVotes el = 1 + size granted /\ forall p, p ∈ granted -> (p, elTerm el, i) ∈ votes c.

Definition leader_inv (c : cluster) (t : nat) (i : string) : Prop :=
  exists Q, Q ⊆ ms /\ quorum <= size Q /\ forall q, q ∈ Q -> (q, t, i) ∈ votes c.

Record cluster_inv (c : cluster) : Prop := {
  inv_empty : "" ∉ ms;
  inv_nodes : forall i n, nodes c !! i = Some n -> node_inv c i n;
  inv_votes : forall v t cand, (v, t, cand) ∈ votes c -> vote_inv c v t cand;
  inv_once : forall v t c1 c2, (v, t, c1) ∈ votes c -> (v, t, c2) ∈ votes c -> c1 = c2;
  inv_elections : forall i el seen, (i, el, seen) ∈ elections c -> election_inv c i el seen;
  inv_leaders : forall t i, (t, i) ∈ leaders c -> leader_inv c t i
}.

Lemma majority_quorum n : static_peers n -> majorityLocked n = quorum.
Proof.
  intros (Hi & Hnd & Hp). unfold majorityLocked, quorum. do 2 f_equal.
  assert (length (peers n) = size (ms ∖ {[nid n]})) as ->
    by (rewrite <- Hp; by rewrite size_list_to_set).
  rewrite size_difference by set_solver. rewrite size_singleton.
  assert (size ms <> 0) by (intros Hz%size_empty_inv; set_solver). lia.
Qed.

(** Two majorities have a member in common. *)
Lemma quorums_meet (Q1 Q2 : gset string) :
  Q1 ⊆ ms -> Q2 ⊆ ms -> quorum <= size Q1 -> quorum <= size Q2 -> exists q, q ∈ Q1 /\ q ∈ Q2.
Proof.
  intros H1 H2 S1 S2. unfold quorum in *.
  destruct (decide (Q1 ∩ Q2 = ∅)) as [He|Hne]; [exfalso|].
  - assert (size (Q1 ∪ Q2) <= size ms) as Hle by (apply subseteq_size; set_solver).
    rewrite size_union in Hle by set_solver.
    pose proof (Nat.div_mod_eq (size ms) 2). pose proof (Nat.mod_upper_bound (size ms) 2). lia.
  - apply set_choose_L in Hne as [q Hq]. exists q. set_solver.
Qed.

(** ** Steps keep the invariant *)

(** Votes that elect [i] in term [t]. *)
Definition elected (vs : gset (string * nat * string)) (t : nat) (i : string) : Prop :=
  exists Q, Q ⊆ ms /\ quorum <= size Q /\ forall q, q ∈ Q -> (q, t, i) ∈ vs.

Lemma elected_mono vs vs' t i : vs ⊆ vs' -> elected vs t i -> elected vs' t i.
Proof. intros Hsub (Q & ? & ? & H). exists Q. split_and!; auto. Qed.

(** The role of a node after a step: what it was, or a candidate that voted for
    itself, or a leader with a quorum. *)
Definition role_ok (vs : gset (string * nat * string)) n n' : Prop :=
  role n' <> RoleFollower ->
  role n' = role n /\ currentTerm n' = currentTerm n \/
  votedFor n' = nid n' /\ (nid n', currentTerm n', nid n') ∈ vs /\
    (role n' = RoleLeader -> elected vs (currentTerm n') (nid n')).

Lemma moved_inv c i n n' els vs :
  cluster_inv c -> nodes c !! i = Some n ->
  node_ok n' -> peers n' = peers n -> vote_stable n n' -> role_ok (vs ∪ votes c) n n' ->
  (forall v t cand, (v, t, cand) ∈ vs ->
     v = i /\ cand <> "" /\ t = currentTerm n' /\ votedFor n' = cand) ->
  (forall v t c1 c2, (v, t, c1) ∈ vs -> (v, t, c2) ∈ vs -> c1 = c2) ->
  (forall j el seen, (j, el, seen) ∈ els -> election_inv (moved c i n' els vs) j el seen) ->
  cluster_inv (moved c i n' els vs).
Proof.
  intros [He Hnodes Hvotes Honce Hels Hleaders] Hi Hok Hpeers Hvs Hrole Hnew Hnew1 Hels'.
  destruct (Hnodes i n Hi) as (Hid & _ & Hst & Hcand & Hlead).
  assert (nid n' = i) as Hid' by (destruct Hvs; congruence).
  assert (i <> "") as Hine by (destruct Hst as [Hin _]; rewrite Hid in Hin; intros Hz; by rewrite Hz in Hin).
  assert (static_peers n') as Hst'.
  { unfold static_peers in *. by rewrite Hid', Hpeers, <- Hid. }
  assert (leaders c ⊆ leaders (moved c i n' els vs)) as Hlsub.
  { simpl. case_decide; [apply union_subseteq_r|done]. }
  split; [done| | | | |]; simpl votes.
  - intros j m. simpl. rewrite lookup_insert. case_decide as Hij.
    + intros [= <-]. subst j. split_and!; auto.
      * intros Hr. destruct (Hrole Hr) as [[Hr' Ht']|(? & ? & _)]; [|rewrite Hid' in *; auto].
        destruct Hcand as [Hv Hin]; [congruence|]. destruct Hvs as (_ & _ & Hvs).
        rewrite Hvs, Ht' by (done || congruence). split; [done|by apply elem_of_union_r].
      * intros Hr. simpl. rewrite decide_True by done. apply elem_of_union_l. by apply elem_of_singleton.
    + intros Hm. destruct (Hnodes j m Hm) as (? & ? & ? & Hc & Hl). split_and!; auto.
      intros Hr. destruct (Hc Hr). split; [done|by apply elem_of_union_r].
  - intros v t cand [Hin|Hin]%elem_of_union.
    + destruct (Hnew v t cand Hin) as (-> & ? & -> & ?). split; [done|].
      exists n'. simpl. rewrite lookup_insert_eq. auto.
    + destruct (Hvotes v t cand Hin) as (Hne & m & Hm & Hcase). split; [done|].
      destruct (decide (v = i)) as [->|].
      * exists n'. simpl. rewrite lookup_insert_eq. split; [done|]. simplify_eq.
        destruct Hvs as (_ & Hle & Hvs). destruct Hcase as [?|[-> Hvf]]; [left; lia|].
        destruct (decide (currentTerm n' = currentTerm n)) as [Heq|]; [right|left; lia].
        rewrite Hvs by congruence. auto.
      * exists m. simpl. by rewrite lookup_insert_ne.
  - assert (forall v t c1 c2, (v, t, c1) ∈ vs -> (v, t, c2) ∈ votes c -> c1 = c2) as Hmix.
    { intros v t c1 c2 H1 H2. destruct (Hnew v t c1 H1) as (-> & ? & -> & <-).
      destruct (Hvotes _ _ _ H2) as (Hne & m & Hm & Hcase). simplify_eq.
      destruct Hvs as (_ & Hle & Hvs). destruct Hcase as [?|[Heq Hvf]]; [lia|].
      rewrite Hvs by congruence. done. }
    intros v t c1 c2 [H1|H1]%elem_of_union [H2|H2]%elem_of_union; eauto.
    symmetry. eauto.
  - done.
  - intros t j. simpl. case_decide as Hr.
    + intros [Hin%elem_of_singleton|Hin]%elem_of_union.
      * injection Hin as -> ->.
        destruct (Hrole ltac:(congruence)) as [[Hr' Ht']|(_ & _ & Hel)].
        -- rewrite Ht'. eapply elected_mono; [|apply Hleaders, Hlead; congruence]. apply union_subseteq_r.
        -- rewrite <- Hid'. by apply Hel.
      * eapply elected_mono; [|by apply Hleaders]. apply union_subseteq_r.
    + intros Hin. eapply elected_mono; [|by apply Hleaders]. apply union_subseteq_r.
Qed.

(** Elections that a step does not touch. *)
Lemma election_inv_moved c i n els vs j el seen :
  election_inv c j el seen -> election_inv (moved c i n els vs) j el seen.
Proof.
  intros (Hm & Hp & granted & ? & ? & ? & Hv). split; [done|]. split; [done|]. exists granted.
  split_and!; auto. intros p Hg. simpl. apply elem_of_union_r. auto.
Qed.

Lemma role_keep_ok vs n n' : role_keep n n' -> role_ok vs n n'.
Proof. intros H Hr. left. by apply H. Qed.

Lemma same_election_keep n n' : same_election n n' -> role_keep n n'.
Proof. intros (?&?&?&?) _. auto. Qed.

Lemma countAcks_keep replies n acks stepped : role_keep n (countAcks n acks stepped replies).2.
Proof.
  revert n acks stepped. induction replies as [|r replies IH]; intros n acks stepped; [done|].
  simpl. destruct (_ <? _)%nat; [|apply IH]. intros Hr.
  destruct (IH (stepDownLocked n (arTerm r)) acks true Hr) as [Hr' _]. simpl in Hr'. congruence.
Qed.

Lemma ordinary_keep n inp n' :
  node_ok n -> ordinary inp -> raft_step n inp = Some n' -> role_keep n n'.
Proof.
  intros Hok Ho. destruct inp; try done; simpl.
  - destruct (HandleAppendEntries_ok n args Hok) as (r & n1 & -> & _ & _ & Hk & _). simpl.
    intros [= <-]. by apply follows_keep.
  - destruct (HandleInstallSnapshot_ok n args Hok) as (r & n1 & -> & _ & _ & Hk). simpl.
    intros [= <-]. by apply follows_keep.
  - unfold Propose. destruct (negb (IsLeader n)); [by intros [= <-]|].
    destruct (appendEntry_ok n (mkEntry (currentTerm n) (Some command) None) Hok) as (r & n1 & -> & _ & Hs).
    intros [= <-]. by apply same_election_keep.
  - destruct (onAppendReply_ok n peer args reply Hok) as (n1 & -> & _ & _ & Hk). by intros [= <-].
  - destruct (onSnapshotReply_ok n peer snap reply Hok) as (n1 & -> & _ & _ & Hk). by intros [= <-].
  - unfold AddServer. destruct (negb (IsLeader n)); [by intros [= <-]|].
    destruct (_ || _)%bool; [by intros [= <-]|].
    match goal with |- context [appendEntryLocked ?m ?e] =>
      assert (node_ok m /\ same_election n m) as [Hok1 (?&?&?&?)]
        by (destruct (String.eqb addr ""); by split);
      destruct (appendEntry_ok m e Hok1) as (r & n2 & -> & _ & (?&?&?&?)) end.
    intros [= <-] _. split; congruence.
  - unfold RemoveServer. destruct (negb (IsLeader n)); [by intros [= <-]|].
    destruct (_ && _)%bool; [by intros [= <-]|].
    match goal with |- context [appendEntryLocked n ?e] =>
      destruct (appendEntry_ok n e Hok) as (r & n1 & -> & _ & Hs) end.
    intros [= <-]. by apply same_election_keep.
  - unfold finishStepDown. destruct (_ && _)%bool; by intros [= <-].
  - intros [= <-]. unfold ReadIndex. destruct (negb (IsLeader n)); [done|].
    destruct (_ <? _)%nat; [done|]. unfold confirmLeadership.
    destruct (_ =? 0)%nat; [by simpl; destruct (_ <? _)%nat|].
    destruct (negb (IsLeader n)); [done|].
    pose proof (countAcks_keep replies n 1 false) as Hk.
    destruct (countAcks n 1 false replies) as [[acks stepped] n1]. simpl in Hk.
    destruct (_ || _)%bool; [|done]. destruct (_ || _)%bool; [done|]. simpl.
    by destruct (_ <? _)%nat.
Qed.

Lemma startElection_cases n el n' :
  node_ok n -> startElection n = Some (el, n') ->
  elMajority el = majorityLocked n /\ elPeers el = peers n /\ elVotes el = 1 /\
  nid n' = nid n /\ currentTerm n' = currentTerm n /\ votedFor n' = votedFor n /\
  (role n' = role n \/ role n = RoleCandidate /\ role n' = RoleLeader /\ peers n = []).
Proof.
  intros Hok. unfold startElection. destruct (log_lastTerm (nlog n)); simpl; [|done].
  destruct (length (peers n) =? 0)%nat eqn:E; [|intros [= <- <-]; by auto 10].
  bool_to_prop. apply nil_length_inv in E.
  destruct (tryBecomeLeader_ok n (currentTerm n) Hok) as (b & n1 & -> & _ & ? & ? & ? & Hr). simpl.
  intros [= <- <-]. split_and!; auto. destruct Hr as [?|(? & ? & _)]; auto.
Qed.

Lemma onVoteReply_cases n el reply b el' n' :
  node_ok n -> onVoteReply n el reply = Some (b, el', n') ->
  el' = el /\ role_keep n n' \/
  rrVoteGranted reply = true /\ role n = RoleCandidate /\ currentTerm n = elTerm el /\
  elTerm el' = elTerm el /\ elMajority el' = elMajority el /\ elPeers el' = elPeers el /\
  elVotes el' = elVotes el + 1 /\ nid n' = nid n /\ currentTerm n' = currentTerm n /\ votedFor n' = votedFor n /\
  (role n' = role n \/ role n' = RoleLeader /\ elMajority el <= elVotes el + 1).
Proof.
  intros Hok. unfold onVoteReply.
  destruct (_ <? _)%nat; [intros [= <- <- <-]; left; split; [done|by apply role_keep_follower]|].
  destruct (negb _ || _)%bool eqn:E; [intros [= <- <- <-]; by left|]. simpl. bool_to_prop.
  destruct (Nat.leb_spec (elMajority el) (elVotes el + 1)).
  - destruct (tryBecomeLeader_ok n (elTerm el) Hok) as (b1 & n1 & -> & _ & ? & ? & ? & Hr). simpl.
    intros [= <- <- <-]. right. simpl. split_and!; auto. destruct Hr as [?|(_ & ? & _)]; auto.
  - intros [= <- <- <-]. right. simpl. split_and!; auto.
Qed.

Lemma moved_elections c i n' els vs :
  cluster_inv c -> (forall e, e ∈ els -> e ∈ elections c) ->
  forall j el seen, (j, el, seen) ∈ els -> election_inv (moved c i n' els vs) j el seen.
Proof. intros Hc Hsub j el seen Hin. apply election_inv_moved, (inv_elections c Hc). auto. Qed.

#[local] Set Default Proof Using "All".

Lemma candidate_inv c i n b n' :
  cluster_inv c -> nodes c !! i = Some n -> becomeCandidate n = (b, n') ->
  cluster_inv (moved c i n' (elections c) (if b then {[(i, currentTerm n', i)]} else ∅)).
Proof.
  intros Hc Hi E. destruct (inv_nodes c Hc i n Hi) as (Hid & Hok & Hst & _).
  destruct (raft_step_ok n IBecomeCandidate Hok) as (n1 & E1 & Hok' & Hvs). simpl in E1.
  rewrite E in E1. simpl in E1. injection E1 as <-.
  assert (i <> "") as Hne.
  { intros ->. apply (inv_empty c Hc). rewrite <- Hid. apply Hst. }
  unfold becomeCandidate in E. destruct (IsLeader n || removed n)%bool; injection E as <- <-.
  - apply (moved_inv c i n); auto using moved_elections; [by apply role_keep_ok|set_solver..].
  - apply (moved_inv c i n); auto using moved_elections; simpl.
    + intros _. right. simpl. split_and!; [done| |done]. rewrite Hid.
      apply elem_of_union_l. by apply elem_of_singleton.
    + intros v t cand Hin%elem_of_singleton. by simplify_eq.
    + intros v t c1 c2 H1%elem_of_singleton H2%elem_of_singleton. by simplify_eq.
Qed.

Lemma start_inv c i n el n' :
  cluster_inv c -> nodes c !! i = Some n -> startElection n = Some (el, n') -> peers n' = peers n ->
  cluster_inv (moved c i n' (elections c ++ [(i, el, ∅)]) ∅).
Proof.
  intros Hc Hi E Hp. destruct (inv_nodes c Hc i n Hi) as (Hid & Hok & Hst & Hcand & _).
  destruct (startElection_ok n Hok) as (el1 & n1 & E1 & Hok' & Hvs).
  rewrite E in E1. injection E1 as <- <-.
  destruct (startElection_cases n el n' Hok E) as (Hm & Hps & Hv & Hn & Ht & Hvf & Hr).
  apply (moved_inv c i n); auto; [|set_solver..|].
  - intros Hrole. destruct Hr as [Hr|(Hr & Hr' & Hemp)]; [by left|right].
    destruct Hcand as [Hself Hin]; [congruence|]. rewrite Hn, Ht, Hvf, Hid.
    split; [done|]. split; [by apply elem_of_union_r|]. intros _. exists {[i]}.
    split; [apply singleton_subseteq_l; rewrite <- Hid; apply Hst|].
    rewrite size_singleton. split.
    + rewrite <- (majority_quorum n Hst). unfold majorityLocked. by rewrite Hemp.
    + intros q ->%elem_of_singleton. by apply elem_of_union_r.
  - intros j el' seen [Hin|Hin%list_elem_of_singleton]%elem_of_app.
    + apply election_inv_moved. by apply (inv_elections c Hc).
    + injection Hin as -> -> ->. split; [rewrite Hm; by apply majority_quorum|].
      split; [rewrite Hps, <- Hid; by destruct Hst as (_ & _ & ->)|].
      exists ∅. split; [done|]. split; [apply empty_subseteq|]. rewrite size_empty. split; [done|].
      intros p. by rewrite elem_of_empty.
Qed.

Lemma vote_step_inv c i n args reply n' :
  cluster_inv c -> nodes c !! i = Some n -> HandleRequestVote n args = Some (reply, n') ->
  rvCandidateID args <> "" ->
  cluster_inv (moved c i n' (elections c)
    (if rrVoteGranted reply then {[(i, rvTerm args, rvCandidateID args)]} else ∅)).
Proof.
  intros Hc Hi E Hne. destruct (inv_nodes c Hc i n Hi) as (Hid & Hok & Hst & _).
  destruct (HandleRequestVote_ok n args Hok) as (r1 & n1 & E1 & Hok' & Hvs & Hp & Hk & Hg).
  rewrite E in E1. injection E1 as <- <-.
  destruct (rrVoteGranted reply).
  - destruct Hg as (Ht & Hv & _); [done|].
    apply (moved_inv c i n); auto using moved_elections; [by apply role_keep_ok| |].
    + intros v t cand Hin%elem_of_singleton. by simplify_eq.
    + intros v t c1 c2 H1%elem_of_singleton H2%elem_of_singleton. by simplify_eq.
  - apply (moved_inv c i n); auto using moved_elections; [by apply role_keep_ok|set_solver..].
Qed.

Lemma count_inv c k i el seen p n reply b el' n' :
  cluster_inv c -> elections c !! k = Some (i, el, seen) -> nodes c !! i = Some n ->
  p ∈ elPeers el -> (p ∉ seen) ->
  (rrVoteGranted reply = true -> (p, elTerm el, i) ∈ votes c) ->
  onVoteReply n el reply = Some (b, el', n') -> peers n' = peers n ->
  cluster_inv (moved c i n' (<[k := (i, el', {[p]} ∪ seen)]> (elections c)) ∅).
Proof.
  intros Hc Hk Hi Hp Hseen Hvote E Hpe. destruct (inv_nodes c Hc i n Hi) as (Hid & Hok & Hst & Hcand & _).
  destruct (onVoteReply_ok n el reply Hok) as (b1 & el1 & n1 & E1 & Hok' & Hvs).
  rewrite E in E1. injection E1 as <- <- <-.
  destruct (inv_elections c Hc i el seen) as (Hm & Hps & granted & Hg & Hs & Hv & Hgv);
    [by eapply list_elem_of_lookup_2|].
  assert (p ∈ ms ∖ {[i]}) as Hpm by (apply Hps; by apply elem_of_list_to_set).
  assert ({[p]} ∪ seen ⊆ ms ∖ {[i]}) as Hs'.
  { apply union_subseteq. split; [by apply singleton_subseteq_l|done]. }
  assert (p ∉ granted) as Hpg by (intros Hin'; by apply Hseen, Hg).
  assert (size ({[p]} ∪ granted) = 1 + size granted) as Hsize1.
  { rewrite size_union, size_singleton; [done|]. by apply disjoint_singleton_l. }
  assert ({[p]} ∪ granted ⊆ ms ∖ {[i]}) as Hgs.
  { etrans; [|exact Hs']. by apply union_mono_l. }
  assert (size ({[i]} ∪ ({[p]} ∪ granted)) = 2 + size granted) as Hsize2.
  { rewrite size_union, size_singleton, Hsize1; [done|]. apply disjoint_singleton_l.
    intros Hin'%Hgs. by apply elem_of_difference in Hin' as [_ []%not_elem_of_singleton]. }
  pose proof (onVoteReply_cases n el reply b el' n' Hok E) as Hcase.
  apply (moved_inv c i n); auto; [|set_solver..|].
  - destruct Hcase as [[_ Hkeep]|(Hgr & Hcd & Hct & _ & _ & _ & _ & Hn & Ht & Hvf & Hr)];
      [by apply role_keep_ok|].
    intros _. destruct Hr as [Hr|[Hr Hmaj]]; [by left|right].
    destruct Hcand as [Hself Hin]; [congruence|]. rewrite Hn, Ht, Hvf, Hid.
    split; [done|]. split; [by apply elem_of_union_r|]. intros _.
    exists ({[i]} ∪ ({[p]} ∪ granted)). split; [|split].
    + apply union_subseteq. split; [apply singleton_subseteq_l; rewrite <- Hid; apply Hst|].
      intros q Hq%Hgs. by apply elem_of_difference in Hq as [? _].
    + rewrite Hsize2. rewrite Hm in Hmaj. lia.
    + intros q. rewrite !elem_of_union, !elem_of_singleton. rewrite Hct.
      intros [->|[->|Hq]]; right; [congruence|by apply Hvote|by apply Hgv].
  - intros j elj sj Hin. apply list_elem_of_lookup in Hin as [m Hin].
    rewrite list_lookup_insert_Some in Hin. destruct Hin as [(<- & Heq & _)|[_ Hin]].
    2:{ apply election_inv_moved, (inv_elections c Hc). by eapply list_elem_of_lookup_2. }
    apply (inj2 pair) in Heq as [Heq <-]. apply (inj2 pair) in Heq as [<- <-].
    destruct Hcase as [[-> _]|(Hgr & _ & _ & Ht & Hm' & Hp' & Hv' & _)].
    + apply election_inv_moved. split; [done|]. split; [done|]. exists granted.
      split_and!; auto. by apply union_subseteq_r'.
    + split; [by rewrite Hm'|]. split; [by rewrite Hp'|].
      exists ({[p]} ∪ granted). split; [by apply union_mono_l|]. split; [done|]. rewrite Ht.
      split; [rewrite Hsize1; lia|].
      intros q. simpl. rewrite !elem_of_union, elem_of_singleton. intros [->|Hq]; auto.
Qed.

Lemma cstep_inv c c' : cluster_inv c -> cstep c c' -> cluster_inv c'.
Proof.
  intros Hc [i n b n' Hi E|i n el n' Hi E Hp|i n args reply n' Hi E Hne
            |k i el seen p n reply b el' n' Hk Hi Hp Hs Hv E Hpe|i n inp n' Hi Ho E Hp].
  - by apply (candidate_inv c i n).
  - by apply (start_inv c i n).
  - by apply (vote_step_inv c i n).
  - by eapply count_inv.
  - destruct (inv_nodes c Hc i n Hi) as (Hid & Hok & Hst & _).
    destruct (raft_step_ok n inp Hok) as (n1 & E1 & Hok' & Hvs). rewrite E in E1. injection E1 as <-.
    apply (moved_inv c i n); auto using moved_elections; [|set_solver..].
    apply role_keep_ok. by eapply ordinary_keep.
Qed.

Lemma reachable_inv c : reachable c -> cluster_inv c.
Proof.
  induction 1 as [c He Hv Hl Hms Hn|c c' _ IH Hs]; [|by eapply cstep_inv].
  split; [done| | | | |].
  - intros i n Hi. destruct (Hn i n Hi) as (? & ? & ? & Hr). split_and!; auto; congruence.
  - intros v t cand. rewrite Hv. by intros ?%elem_of_empty.
  - intros v t c1 c2. rewrite Hv. by intros ?%elem_of_empty.
  - intros i el seen. rewrite He. by intros ?%elem_of_nil.
  - intros t i. rewrite Hl. by intros ?%elem_of_empty.
Qed.

Lemma one_leader c t i j : cluster_inv c -> (t, i) ∈ leaders c -> (t, j) ∈ leaders c -> i = j.
Proof.
  intros Hr Hi Hj. destruct (inv_leaders c Hr t i Hi) as (Q1 & H1 & S1 & V1), (inv_leaders c Hr t j Hj) as (Q2 & H2 & S2 & V2).
  destruct (quorums_meet Q1 Q2 H1 H2 S1 S2) as (q & Hq1 & Hq2). by apply (inv_once c Hr q t); auto.
Qed.

(** C7: election safety: in a cluster with fixed membership, whatever is lost,
    delayed, reordered or duplicated, no two nodes ever become leader in the
    same term. *)
Theorem election_safety c t i j :
  reachable c -> (t, i) ∈ leaders c -> (t, j) ∈ leaders c -> i = j.
Proof.
  intros Hr%reachable_inv Hi Hj. by apply (one_leader c t).
Qed.

(** A node that acts as leader has won a majority of its term: a quorum of
    members has voted for it in that term, and for nobody else. *)
Theorem leader_has_quorum c i n :
  reachable c -> nodes c !! i = Some n -> role n = RoleLeader ->
  exists Q : gset string, Q ⊆ ms /\ size ms / 2 + 1 <= size Q /\
    forall q, q ∈ Q -> (q, currentTerm n, i) ∈ votes c /\
      forall cand, (q, currentTerm n, cand) ∈ votes c -> cand = i.
Proof.
  intros Hr%reachable_inv Hi Hl. destruct (inv_nodes c Hr i n Hi) as (_ & _ & _ & _ & Hlead).
  destruct (inv_leaders c Hr _ _ (Hlead Hl)) as (Q & H1 & S1 & V1).
  exists Q. split; [done|]. split; [done|]. intros q Hq. split; [auto|]. intros cand Hc.
  by apply (inv_once c Hr q (currentTerm n)); auto.
Qed.
End election.

(** ** A concrete election *)

Definition trio : gset string := {["a"; "b"; "c"]}.

Definition trio_peers (id : string) : list string := filter (fun p => p <> id) ["a"; "b"; "c"].

Definition trio_start : cluster (F := TraceFsm) (W := RaftWal) (SS := MemSnapshots) (MS := MemMeta) :=
  mkCluster {[ "a" := mem_node "a" (trio_peers "a"); "b" := mem_node "b" (trio_peers "b");
               "c" := mem_node "c" (trio_peers "c") ]} [] ∅ ∅.

Lemma trio_reachable : reachable trio trio_start.
Proof.
  apply reach_init; try done. intros i n Hi.
  assert (forall id, id ∈ ["a"; "b"; "c"] -> nid (mem_node id (trio_peers id)) = id /\
            node_ok (mem_node id (trio_peers id)) /\ static_peers trio (mem_node id (trio_peers id)) /\
            role (mem_node id (trio_peers id)) = RoleFollower) as Hall.
  { intros id Hid. split; [done|]. split; [apply mem_node_ok|]. split; [|done].
    unfold static_peers. cbn [nid peers mem_node].
    split; [unfold trio; set_solver|]. split; [apply NoDup_filter; repeat constructor; set_solver|].
    apply set_eq. intros x. unfold trio_peers, trio. rewrite elem_of_list_to_set, list_elem_of_filter.
    set_solver. }
  unfold trio_start in Hi. cbn [nodes] in Hi.
  apply lookup_insert_Some in Hi as [[<- <-]|[_ Hi]]; [apply Hall; set_solver|].
  apply lookup_insert_Some in Hi as [[<- <-]|[_ Hi]]; [apply Hall; set_solver|].
  apply lookup_singleton_Some in Hi as [<- <-]. apply Hall; set_solver.
Qed.

(** ["a"] campaigns, ["b"] votes for it, and it becomes the leader of term 1. *)
Definition a0 : MemNode := mem_node "a" (trio_peers "a").
Definition b0 : MemNode := mem_node "b" (trio_peers "b").
Definition a1 : MemNode := (becomeCandidate a0).2.
Definition a_election : Election := mkElection 1 0 0 2 (trio_peers "a") 1.
Definition b_vote : RequestVoteReply * MemNode :=
  ran_to (HandleRequestVote b0 (voteRequest a1 a_election)) (mkRequestVoteReply 0 false, b0).
Definition a_counted : bool * Election * MemNode :=
  ran_to (onVoteReply a1 a_election b_vote.1) (false, a_election, a1).

Definition trio1 := moved trio_start "a" a1 [] {[("a", 1, "a")]}.
Definition trio2 := moved trio1 "a" a1 [("a", a_election, ∅)] ∅.
Definition trio3 := moved trio2 "b" b_vote.2 [("a", a_election, ∅)] {[("b", 1, "a")]}.
Definition trio4 := moved trio3 "a" a_counted.2 [("a", a_counted.1.2, {["b"]} ∪ ∅)] ∅.

Lemma trio4_reachable : reachable trio trio4.
Proof.
  assert (reachable trio trio1) as H1.
  { eapply reach_step; [apply trio_reachable|]. by apply (cs_candidate trio_start "a" a0 true a1). }
  assert (reachable trio trio2) as H2.
  { eapply reach_step; [exact H1|]. apply (cs_start trio1 "a" a1 a_election a1); vm_compute; reflexivity. }
  assert (reachable trio trio3) as H3.
  { eapply reach_step; [exact H2|].
    apply (cs_vote trio2 "b" b0 (voteRequest a1 a_election) (mkRequestVoteReply 0 true) b_vote.2);
      [vm_compute; reflexivity|vm_compute; reflexivity|discriminate]. }
  eapply reach_step; [exact H3|].
  apply (cs_count trio3 0 "a" a_election ∅ "b" a1 b_vote.1 true a_counted.1.2 a_counted.2).
  - reflexivity.
  - vm_compute. reflexivity.
  - vm_compute. set_solver.
  - set_solver.
  - intros _. vm_compute. reflexivity.
  - vm_compute. reflexivity.
  - vm_compute. reflexivity.
Qed.

Lemma election_safety_witness : (1, "a") ∈ leaders trio4 /\ forall j, (1, j) ∈ leaders trio4 -> j = "a".
Proof.
  split; [vm_compute; reflexivity|]. intros j Hj.
  apply (election_safety trio trio4 1 j "a").
  - exact trio4_reachable.
  - exact Hj.
  - vm_compute. reflexivity.
Defined.

Lemma leader_has_quorum_witness :
  exists Q : gset string, Q ⊆ trio /\ 2 <= size Q /\ forall q, q ∈ Q -> (q, 1, "a") ∈ votes trio4.
Proof.
  destruct (leader_has_quorum trio trio4 "a" a_counted.2) as (Q & H1 & H2 & H3).
  - exact trio4_reachable.
  - vm_compute. reflexivity.
  - vm_compute. reflexivity.
  - exists Q. split; [exact H1|]. split; [exact H2|]. intros q Hq. exact (proj1 (H3 q Hq)).
Defined.
