(* ===== verification/RaftSpec.v ===== *)
(** * Raft as a protocol over logs

    An abstract Raft with fixed membership: a node has a term, a role, a log and a
    commit index; what was sent and granted is kept. Steps are the protocol's
    moves. The log of a term's leader is kept as well; every log is made of prefixes
    of those. Indices are positions in a log whose position 0 is the dummy entry. *)

From S2P Require Import Prelude WalTypes RaftLog Raft.

Record anode : Type := mkA { aTerm : nat; aRole : Role; aLog : list Entry; aCommit : nat }.

Record spec : Type := mkSpec {
  sNodes : gmap string anode;
  sReqs : list RequestVote;                         (* vote requests *)
  sGrants : list (string * RequestVote * list Entry); (* a voter, what it granted, its log then *)
  sApps : list AppendEntries;                       (* append requests *)
  sAccs : list (string * nat * list Entry);         (* a node, a term, the prefix of the leader's log it accepted *)
  sLogs : gmap nat (string * list Entry)            (* the leader of a term and its log *)
}.

Definition lastT (l : list Entry) : nat := default 0 (eTerm <$> last l).

(** The request of a candidate with the log [l]. *)
Definition request_of (t : nat) (i : string) (l : list Entry) : RequestVote := mkRequestVote t i (length l - 1) (lastT l).

Definition up_to_date (args : RequestVote) (l : list Entry) : Prop :=
  lastT l < rvLastLogTerm args \/ rvLastLogTerm args = lastT l /\ length l <= S (rvLastLogIndex args).

(** Putting entries in a log from a position on, cutting it at the first conflict. *)
Fixpoint install (l : list Entry) (idx : nat) (es : list Entry) : list Entry :=
  match es with
  | [] => l
  | e :: es' =>
      match l !! idx with
      | Some e' => if decide (eTerm e' = eTerm e) then install l (S idx) es' else install (take idx l ++ [e]) (S idx) es'
      | None => install (l ++ [e]) (S idx) es'
      end
  end.

(** The part of the leader's log that a request shows. *)
Definition shown (args : AppendEntries) (L : list Entry) : list Entry := take (S (aePrevLogIndex args) + length (aeEntries args)) L.

Section spec.
Context (ms : gset string).

Definition majority : nat := size ms / 2 + 1.

Definition set_node (i : string) (a : anode) (s : spec) : spec :=
  mkSpec (<[i := a]> (sNodes s)) (sReqs s) (sGrants s) (sApps s) (sAccs s) (sLogs s).
Definition add_req (r : RequestVote) (s : spec) : spec :=
  mkSpec (sNodes s) (r :: sReqs s) (sGrants s) (sApps s) (sAccs s) (sLogs s).
Definition add_grant (g : string * RequestVote * list Entry) (s : spec) : spec :=
  mkSpec (sNodes s) (sReqs s) (g :: sGrants s) (sApps s) (sAccs s) (sLogs s).
Definition add_app (r : AppendEntries) (s : spec) : spec :=
  mkSpec (sNodes s) (sReqs s) (sGrants s) (r :: sApps s) (sAccs s) (sLogs s).
Definition add_acc (g : string * nat * list Entry) (s : spec) : spec :=
  mkSpec (sNodes s) (sReqs s) (sGrants s) (sApps s) (g :: sAccs s) (sLogs s).
Definition set_tlog (t : nat) (i : string) (l : list Entry) (s : spec) : spec :=
  mkSpec (sNodes s) (sReqs s) (sGrants s) (sApps s) (sAccs s) (<[t := (i, l)]> (sLogs s)).

(** A leader's log grows: it is the log of its term, and accepted by itself. *)
Definition lead_with (i : string) (a : anode) (l : list Entry) (s : spec) : spec :=
  add_acc (i, aTerm a, l) (set_tlog (aTerm a) i l (set_node i (mkA (aTerm a) RoleLeader l (aCommit a)) s)).

Inductive astep (s : spec) : spec -> Prop :=
  | a_timeout i a t : sNodes s !! i = Some a -> aTerm a < t ->
      astep s (add_grant (i, request_of t i (aLog a), aLog a) (set_node i (mkA t RoleCandidate (aLog a) (aCommit a)) s))
  | a_down i a t : sNodes s !! i = Some a -> aTerm a <= t ->
      astep s (set_node i (mkA t RoleFollower (aLog a) (aCommit a)) s)
  | a_request i a : sNodes s !! i = Some a -> astep s (add_req (request_of (aTerm a) i (aLog a)) s)
  | a_grant i a args r : sNodes s !! i = Some a -> args ∈ sReqs s -> aTerm a <= rvTerm args -> up_to_date args (aLog a) ->
      (r = RoleFollower \/ r = aRole a /\ aTerm a = rvTerm args) ->
      astep s (add_grant (i, args, aLog a) (set_node i (mkA (rvTerm args) r (aLog a) (aCommit a)) s))
  | a_lead i a Q : sNodes s !! i = Some a -> aRole a = RoleCandidate -> sLogs s !! aTerm a = None ->
      Q ⊆ ms -> majority <= size Q ->
      (forall q, q ∈ Q -> exists args G, (q, args, G) ∈ sGrants s /\ rvTerm args = aTerm a /\ rvCandidateID args = i) ->
      astep s (lead_with i a (aLog a ++ [noop (aTerm a)]) s)
  | a_append i a e : sNodes s !! i = Some a -> aRole a = RoleLeader -> eTerm e = aTerm a ->
      astep s (lead_with i a (aLog a ++ [e]) s)
  | a_commit i a c e Q : sNodes s !! i = Some a -> aRole a = RoleLeader -> aLog a !! c = Some e -> eTerm e = aTerm a ->
      Q ⊆ ms -> majority <= size Q -> (forall q, q ∈ Q -> exists P, (q, aTerm a, P) ∈ sAccs s /\ S c <= length P) ->
      astep s (set_node i (mkA (aTerm a) RoleLeader (aLog a) c) s)
  | a_send i a args e : sNodes s !! i = Some a -> aRole a = RoleLeader -> aeTerm args = aTerm a ->
      aLog a !! aePrevLogIndex args = Some e -> eTerm e = aePrevLogTerm args ->
      shown args (aLog a) = take (S (aePrevLogIndex args)) (aLog a) ++ aeEntries args ->
      aeLeaderCommit args <= aCommit a -> aeLeaderCommit args <= aePrevLogIndex args + length (aeEntries args) ->
      astep s (add_app args s)
  | a_receive i a args e j L c : sNodes s !! i = Some a -> args ∈ sApps s -> aTerm a <= aeTerm args ->
      aLog a !! aePrevLogIndex args = Some e -> (aePrevLogIndex args = 0 \/ eTerm e = aePrevLogTerm args) ->
      sLogs s !! aeTerm args = Some (j, L) ->
      (c = aCommit a \/ aCommit a <= c /\ c <= aeLeaderCommit args) ->
      astep s (add_acc (i, aeTerm args, shown args L)
        (set_node i (mkA (aeTerm args) RoleFollower (install (aLog a) (S (aePrevLogIndex args)) (aeEntries args)) c) s)).

Definition ainit (s : spec) : Prop :=
  sReqs s = [] /\ sGrants s = [] /\ sApps s = [] /\ sAccs s = [] /\ sLogs s = ∅ /\
  forall i a, sNodes s !! i = Some a -> aLog a = [noop 0] /\ aCommit a = 0 /\ aRole a = RoleFollower.
End spec.
