(* ===== verification/RaftSpecThms.v ===== *)
(** * Safety of the abstract Raft

    Log matching, leader completeness, and the agreement of committed prefixes, by
    an invariant over the steps. *)

From S2P Require Import Prelude WalTypes RaftLog Raft RaftElection RaftSpec.

(** ** Lists and prefixes *)

Section prefixes.
Context {A : Type}.
Implicit Types l P : list A.

Lemma take_prefix k l : take k l `prefix_of` l.
Proof. exists (drop k l). by rewrite take_drop. Qed.

(** Two prefixes of one list, the shorter first. *)
Lemma prefix_meet P1 P2 l : P1 `prefix_of` l -> P2 `prefix_of` l -> length P1 <= length P2 -> P1 `prefix_of` P2.
Proof. intros H1 H2 Hle. destruct (prefix_weak_total P1 P2 l H1 H2) as [?|H]; [done|]. by rewrite (prefix_length_eq P2 P1 H). Qed.

Lemma prefix_take P k l : P `prefix_of` l -> length P <= k -> P `prefix_of` take k l.
Proof. intros H Hk. apply (prefix_meet _ _ l); [done|apply take_prefix|]. rewrite length_take. apply prefix_length in H. lia. Qed.

Lemma prefix_take_eq P l : P `prefix_of` l -> take (length P) l = P.
Proof. intros [k ->]. by rewrite take_app_length. Qed.

(** A prefix of [l ++ l'] that is not one of [l] ends in [l']. *)
Lemma prefix_app_new P l l' : P `prefix_of` l ++ l' -> ~ P `prefix_of` l -> length l < length P.
Proof.
  intros H Hn. destruct (decide (length l < length P)) as [?|Hle]; [done|]. destruct Hn.
  apply (prefix_meet _ _ (l ++ l')); [done|by exists l'|lia].
Qed.
End prefixes.

(** ** The invariant *)

Section inv.
Context (ms : gset string).

(** Every prefix of [l] that ends with an entry of a term is one of the log of that
    term's leader; no entry is later than [t]. *)
Definition good (s : spec) (t : nat) (l : list Entry) : Prop :=
  l !! 0 = Some (noop 0) /\
  forall k e, l !! S k = Some e -> 1 <= eTerm e <= t /\
    exists j L, sLogs s !! eTerm e = Some (j, L) /\ take (S (S k)) l `prefix_of` L.

(** The leader of term [t] does not have [P]. *)
Definition lacks (s : spec) (P : list Entry) (t : nat) : Prop := exists j L, sLogs s !! t = Some (j, L) /\ ~ P `prefix_of` L.

(** [l] has [P], or a leader after [t] and not after [t'] does not. *)
Definition kept (s : spec) (P : list Entry) (t t' : nat) (l : list Entry) : Prop :=
  P `prefix_of` l \/ exists t'', t < t'' <= t' /\ lacks s P t''.

Definition committed (s : spec) (t : nat) (P : list Entry) : Prop :=
  exists j L Q, sLogs s !! t = Some (j, L) /\ P `prefix_of` L /\ lastT P = t /\ 1 < length P /\
    Q ⊆ ms /\ majority ms <= size Q /\ forall q, q ∈ Q -> exists P2, (q, t, P2) ∈ sAccs s /\ P `prefix_of` P2.

(** The first [c] entries after the dummy are committed. *)
Definition commit_ok (s : spec) (t : nat) (l : list Entry) (c : nat) : Prop :=
  c < length l /\ (c = 0 \/ exists t0 P, t0 <= t /\ committed s t0 P /\ take (S c) l `prefix_of` P).

(** A grant that elected the leader of [t'], whose log is [L']. *)
Definition electing (s : spec) (t' : nat) (L' : list Entry) (q : string) : Prop :=
  exists args G, (q, args, G) ∈ sGrants s /\ rvTerm args = t' /\
    (exists e, L' !! rvLastLogIndex args = Some e /\ eTerm e = rvLastLogTerm args /\ eTerm e < t') /\
    forall t P P', (q, t, P') ∈ sAccs s -> t < t' -> P `prefix_of` P' ->
      P `prefix_of` G \/ exists t'', t < t'' < t' /\ lacks s P t''.

Definition asked (s : spec) (args : RequestVote) : Prop := args ∈ sReqs s \/ exists v G, (v, args, G) ∈ sGrants s.

Record inv (s : spec) : Prop := {
  i_log : forall i a, sNodes s !! i = Some a -> good s (aTerm a) (aLog a);
  i_tlog : forall t j L, sLogs s !! t = Some (j, L) -> 1 <= t /\ good s t L;
  i_leader : forall i a, sNodes s !! i = Some a -> aRole a = RoleLeader -> sLogs s !! aTerm a = Some (i, aLog a);
  i_cand : forall i a, sNodes s !! i = Some a -> aRole a = RoleCandidate -> forall e, e ∈ aLog a -> eTerm e < aTerm a;
  i_asked : forall args a, asked s args -> sNodes s !! rvCandidateID args = Some a ->
    rvTerm args <= aTerm a /\
    (aRole a = RoleCandidate -> rvTerm args = aTerm a -> args = request_of (aTerm a) (rvCandidateID args) (aLog a));
  i_grant : forall v args G, (v, args, G) ∈ sGrants s ->
    up_to_date args G /\ good s (rvTerm args) G /\ exists a, sNodes s !! v = Some a /\ rvTerm args <= aTerm a;
  i_app : forall args, args ∈ sApps s -> exists j L e, sLogs s !! aeTerm args = Some (j, L) /\
    L !! aePrevLogIndex args = Some e /\ eTerm e = aePrevLogTerm args /\
    shown args L = take (S (aePrevLogIndex args)) L ++ aeEntries args /\
    aeLeaderCommit args <= aePrevLogIndex args + length (aeEntries args) /\ commit_ok s (aeTerm args) L (aeLeaderCommit args);
  i_acc : forall q t P, (q, t, P) ∈ sAccs s -> exists j L a, sLogs s !! t = Some (j, L) /\ P `prefix_of` L /\
    sNodes s !! q = Some a /\ t <= aTerm a /\ forall P', P' `prefix_of` P -> kept s P' t (aTerm a) (aLog a);
  i_acc_grant : forall q t P args G, (q, t, P) ∈ sAccs s -> (q, args, G) ∈ sGrants s -> t < rvTerm args ->
    forall P', P' `prefix_of` P -> kept s P' t (rvTerm args) G;
  i_elected : forall t j L, sLogs s !! t = Some (j, L) ->
    exists Q, Q ⊆ ms /\ majority ms <= size Q /\ forall q, q ∈ Q -> electing s t L q;
  i_commit : forall i a, sNodes s !! i = Some a -> commit_ok s (aTerm a) (aLog a) (aCommit a)
}.

(** ** Log matching *)

Lemma good_agree s t1 t2 l1 l2 k e1 e2 :
  good s t1 l1 -> good s t2 l2 -> l1 !! k = Some e1 -> l2 !! k = Some e2 -> eTerm e1 = eTerm e2 ->
  take (S k) l1 = take (S k) l2.
Proof.
  intros [H1 G1] [H2 G2] E1 E2 Ht. destruct k as [|k].
  - rewrite (take_S_r _ _ _ E1), (take_S_r _ _ _ E2). simpl. congruence.
  - destruct (G1 k e1 E1) as (_ & j & L & EL & P1). destruct (G2 k e2 E2) as (_ & j2 & L2 & EL2 & P2).
    rewrite Ht in EL. rewrite EL in EL2. injection EL2 as <- <-.
    assert (length (take (S (S k)) l1) = S (S k)) as Hl1 by (apply lookup_lt_Some in E1; rewrite length_take; lia).
    assert (length (take (S (S k)) l2) = S (S k)) as Hl2 by (apply lookup_lt_Some in E2; rewrite length_take; lia).
    rewrite <- (prefix_take_eq _ _ P1), <- (prefix_take_eq _ _ P2). by rewrite Hl1, Hl2.
Qed.

Lemma good_terms s t l e : good s t l -> e ∈ l -> eTerm e <= t.
Proof.
  intros [H0 H] [k Hk]%list_elem_of_lookup. destruct k as [|k]; [|by apply H in Hk as [? _]; lia].
  rewrite H0 in Hk. injection Hk as <-. simpl. lia.
Qed.

(** The entries before one of term [t] are not later. *)
Lemma good_sorted s t l k k' e e' : inv s -> good s t l -> l !! k = Some e -> l !! k' = Some e' -> k <= k' -> eTerm e <= eTerm e'.
Proof.
  intros Hi [H0 H] Ek Ek' Hle. destruct k' as [|k'].
  { assert (k = 0) as -> by lia. by simplify_eq. }
  destruct (H k' e' Ek') as (_ & j & L & EL & HP). destruct (i_tlog s Hi _ _ _ EL) as [_ HL].
  apply (good_terms s _ L e HL). eapply elem_of_prefix; [|exact HP]. apply list_elem_of_lookup. exists k.
  rewrite lookup_take_lt by lia. done.
Qed.

(** ** Leader completeness *)

Lemma lastT_lookup l : l <> [] -> exists e, l !! (length l - 1) = Some e /\ eTerm e = lastT l.
Proof.
  intros Hne. destruct (last l) as [e|] eqn:E; [|by apply last_None in E]. exists e. unfold lastT. rewrite E. split; [|done].
  rewrite last_lookup in E. by rewrite <- E, Nat.sub_1_r.
Qed.

Lemma prefix_lookup_some {A} (P l : list A) k e : P `prefix_of` l -> P !! k = Some e -> l !! k = Some e.
Proof. intros H Hk. by eapply prefix_lookup_Some. Qed.

(** An entry of a good log, after the dummy, shows the log of its term's leader. *)
Lemma good_entry s t l k e : good s t l -> l !! k = Some e -> 1 <= eTerm e ->
  exists j L, sLogs s !! eTerm e = Some (j, L) /\ take (S k) l `prefix_of` L.
Proof.
  intros [H0 H] Hk Ht. destruct k as [|k]; [rewrite H0 in Hk; injection Hk as <-; simpl in Ht; lia|].
  by destruct (H k e Hk) as [_ ?].
Qed.

Theorem leader_complete s t P t' j' L' :
  inv s -> committed s t P -> t < t' -> sLogs s !! t' = Some (j', L') -> P `prefix_of` L'.
Proof.
  intros Hi Hc. revert j' L'. induction (lt_wf t') as [t' _ IH]. intros j' L' Ht EL'.
  destruct Hc as (j & L & Q & EL & HPL & Hlast & HP1 & HQ & HQs & Hacc).
  destruct (i_elected s Hi t' j' L' EL') as (Q' & HQ' & HQs' & Hel).
  destruct (quorums_meet ms Q Q' HQ HQ' HQs HQs') as (q & Hq & Hq').
  destruct (Hacc q Hq) as (P2 & Hin & HP2). destruct (Hel q Hq') as (args & G & Hg & Hat & (e' & He' & Het & Hlt) & Hk).
  destruct (Hk t P P2 Hin Ht HP2) as [HPG|(t2 & Ht2 & j2 & L2 & EL2 & Hn)].
  2:{ destruct Hn. apply (IH t2 ltac:(lia) j2 L2); [lia|done]. }
  destruct (i_grant s Hi q args G Hg) as (Hup & HG & _). destruct (i_tlog s Hi t' j' L' EL') as [_ HL'].
  destruct (i_tlog s Hi t j L EL) as [Ht1 HL].
  assert (P <> []) as Hne by (intros ->; simpl in HP1; lia). destruct (lastT_lookup P Hne) as (eP & HeP & HtP). rewrite Hlast in HtP.
  pose proof (prefix_lookup_some _ _ _ _ HPG HeP) as HeG. pose proof (prefix_length _ _ HPG) as HlenG.
  assert (G <> []) as HneG by (intros ->; simpl in HlenG; lia). destruct (lastT_lookup G HneG) as (g & Hg1 & Hg2).
  pose proof (good_sorted s _ G _ _ _ _ Hi HG HeG Hg1 ltac:(lia)) as Htm.
  destruct Hup as [Hup|[Hup Hle]].
  - destruct (good_entry s _ L' _ _ HL' He' ltac:(lia)) as (j3 & L3 & EL3 & HP3).
    assert (P `prefix_of` L3) as HPL3 by (apply (IH (eTerm e') ltac:(lia) j3 L3); [lia|done]).
    pose proof (lookup_lt_Some _ _ _ He') as Hx.
    destruct (decide (length P <= S (rvLastLogIndex args))) as [Hle|Hgt].
    + etrans; [|apply (take_prefix (S (rvLastLogIndex args)))]. apply (prefix_meet _ _ L3); [done|done|]. rewrite length_take. lia.
    + exfalso. assert (P !! rvLastLogIndex args = Some e') as HPe.
      { destruct (lookup_lt_is_Some_2 P (rvLastLogIndex args) ltac:(lia)) as [e2 He2]. rewrite He2.
        pose proof (prefix_lookup_some _ _ _ _ HPL3 He2) as H2.
        assert (take (S (rvLastLogIndex args)) L' !! rvLastLogIndex args = Some e') as H3 by (rewrite lookup_take_lt by lia; done).
        pose proof (prefix_lookup_some _ _ _ _ HP3 H3). congruence. }
      assert (e' ∈ L) as Hin' by (eapply elem_of_prefix; [|exact HPL]; by eapply list_elem_of_lookup_2).
      pose proof (good_terms s _ _ _ HL Hin'). lia.
  - destruct (good_entry s _ L' _ _ HL' He' ltac:(lia)) as (j3 & L3 & EL3 & HP3).
    destruct (good_entry s _ G _ _ HG Hg1 ltac:(lia)) as (j4 & L4 & EL4 & HP4).
    replace (eTerm g) with (eTerm e') in EL4 by lia. rewrite EL3 in EL4. injection EL4 as <- <-.
    pose proof (lookup_lt_Some _ _ _ He') as Hx.
    assert (take (S (length G - 1)) G = G) as HGall by (apply take_ge; lia). rewrite HGall in HP4.
    etrans; [exact HPG|]. etrans; [|apply (take_prefix (S (rvLastLogIndex args)))]. apply (prefix_meet _ _ L3); [done|done|].
    rewrite length_take. lia.
Qed.

(** Committed prefixes are prefixes of one another. *)
Lemma committed_total s t1 P1 t2 P2 :
  inv s -> committed s t1 P1 -> committed s t2 P2 -> P1 `prefix_of` P2 \/ P2 `prefix_of` P1.
Proof.
  intros Hi H1 H2. assert (H1' := H1). assert (H2' := H2).
  destruct H1' as (j1 & L1 & _ & E1 & HP1 & _), H2' as (j2 & L2 & _ & E2 & HP2 & _).
  destruct (Nat.lt_total t1 t2) as [Hlt|[->|Hlt]].
  - pose proof (leader_complete s t1 P1 t2 j2 L2 Hi H1 Hlt E2) as H. by apply (prefix_weak_total P1 P2 L2).
  - rewrite E1 in E2. injection E2 as <- <-. by apply (prefix_weak_total P1 P2 L1).
  - pose proof (leader_complete s t2 P2 t1 j1 L1 Hi H2 Hlt E1) as H. by apply (prefix_weak_total P1 P2 L1).
Qed.

(** ** Installing entries *)

Lemma install_spec (L es l : list Entry) idx :
  idx <= length l -> take idx l = take idx L ->
  (forall k e e', l !! k = Some e -> L !! k = Some e' -> eTerm e = eTerm e' -> take (S k) l = take (S k) L) ->
  take (idx + length es) L = take idx L ++ es ->
  let F := take (idx + length es) L in
  install l idx es = l /\ F `prefix_of` l \/ install l idx es = F /\ ~ F `prefix_of` l.
Proof.
  cbv zeta. revert l idx. induction es as [|e es IH]; intros l idx Hle Htk Hag Hsh.
  { left. simpl. split; [done|]. rewrite Nat.add_0_r, <- Htk. apply take_prefix. }
  cbn [length] in *. rewrite Nat.add_succ_r in *. change (S (idx + length es)) with (S idx + length es) in *.
  assert (L !! idx = Some e) as HLe.
  { assert (take (S idx + length es) L !! idx = Some e) as H.
    { rewrite Hsh, lookup_app_r; rewrite length_take; [|lia]. assert (length (take idx L) = idx) as Hl by (rewrite <- Htk, length_take; lia).
      rewrite length_take in Hl. by rewrite Hl, Nat.sub_diag. }
    by rewrite lookup_take_lt in H by lia. }
  assert (take (S idx + length es) L = take (S idx) L ++ es) as Hsh'.
  { rewrite (take_S_r _ _ _ HLe), <- app_assoc. exact Hsh. }
  assert (forall k x x', take (S idx) L !! k = Some x -> L !! k = Some x' -> eTerm x = eTerm x' ->
      take (S k) (take (S idx) L) = take (S k) L) as Hag2.
  { intros k x x' Hx _ _. apply lookup_lt_Some in Hx. rewrite length_take in Hx. rewrite take_take. f_equal. lia. }
  assert (~ take (S idx) L `prefix_of` l -> forall l2, l2 = take (S idx) L ->
    install l2 (S idx) es = take (S idx + length es) L /\ ~ take (S idx + length es) L `prefix_of` l) as Hcut.
  { intros Hn l2 ->. pose proof (lookup_lt_Some _ _ _ HLe) as HlL. split.
    - destruct (IH (take (S idx) L) (S idx)) as [[-> Hp]|[-> _]]; [rewrite length_take; lia|by rewrite take_idemp|done|done| |done].
      apply prefix_length_eq; [rewrite Hsh'; by exists es|by apply prefix_length].
    - intros Hp. apply Hn. etrans; [|exact Hp]. rewrite Hsh'. by exists es. }
  cbn [install]. destruct (l !! idx) as [e'|] eqn:El.
  - destruct (decide (eTerm e' = eTerm e)) as [Ht|Ht].
    + apply IH; [apply lookup_lt_Some in El; lia| |done|done]. by eapply Hag.
    + right. apply Hcut.
      * intros Hp. assert (l !! idx = Some e); [|congruence]. eapply prefix_lookup_some; [exact Hp|]. by rewrite lookup_take_lt by lia.
      * by rewrite Htk, (take_S_r _ _ _ HLe).
  - apply lookup_ge_None in El. right. apply Hcut.
    + intros Hp%prefix_length. rewrite length_take in Hp. apply lookup_lt_Some in HLe. lia.
    + rewrite (take_S_r _ _ _ HLe), <- Htk. by rewrite take_ge by lia.
Qed.

(** ** What a step leaves true *)

(** The leaders' logs have grown, by entries of their terms; nothing is forgotten. *)
Record ext (s s' : spec) : Prop := {
  x_logs : forall t j L, sLogs s !! t = Some (j, L) -> exists X, sLogs s' !! t = Some (j, L ++ X) /\ forall e, e ∈ X -> eTerm e = t;
  x_grants : forall g, g ∈ sGrants s -> g ∈ sGrants s';
  x_accs : forall g, g ∈ sAccs s -> g ∈ sAccs s'
}.

Lemma ext_same s s' : sLogs s' = sLogs s -> (forall g, g ∈ sGrants s -> g ∈ sGrants s') -> (forall g, g ∈ sAccs s -> g ∈ sAccs s') -> ext s s'.
Proof.
  intros El Hg Ha. split; [|done|done]. intros t j L E. exists []. rewrite El, app_nil_r. split; [done|]. by intros e He%elem_of_nil.
Qed.

Lemma good_ext s s' t l : ext s s' -> good s t l -> good s' t l.
Proof.
  intros Hx [H0 H]. split; [done|]. intros k e Hk. destruct (H k e Hk) as (Ht & j & L & EL & HP). split; [done|].
  destruct (x_logs s s' Hx _ _ _ EL) as (X & EX & _). exists j, (L ++ X). split; [done|]. by apply prefix_app_r.
Qed.

Lemma good_mono s t t' l : t <= t' -> good s t l -> good s t' l.
Proof. intros Hle [H0 H]. split; [done|]. intros k e Hk. destruct (H k e Hk) as (Ht & HL). split; [lia|done]. Qed.

Lemma good_prefix s t l P : good s t l -> P `prefix_of` l -> P <> [] -> good s t P.
Proof.
  intros [H0 H] HP Hne. split.
  - destruct P as [|e P]; [done|]. pose proof (prefix_lookup_some _ _ 0 e HP eq_refl) as Hz. rewrite H0 in Hz. by injection Hz as <-.
  - intros k e Hk. destruct (H k e (prefix_lookup_some _ _ _ _ HP Hk)) as (Ht & j & L & EL & HL). split; [done|]. exists j, L. split; [done|].
    etrans; [|exact HL]. apply prefix_take; [|rewrite length_take; lia]. etrans; [apply take_prefix|exact HP].
Qed.

Lemma lacks_ext s s' P t : ext s s' -> (forall e, e ∈ P -> eTerm e < t) -> lacks s P t -> lacks s' P t.
Proof.
  intros Hx HP (j & L & EL & Hn). destruct (x_logs s s' Hx _ _ _ EL) as (X & EX & HX). exists j, (L ++ X). split; [done|]. intros Hp.
  pose proof (prefix_app_new _ _ _ Hp Hn) as Hlen. destruct (lookup_lt_is_Some_2 P (length L) Hlen) as [e He].
  pose proof (prefix_lookup_some _ _ _ _ Hp He) as He'. rewrite lookup_app_r in He' by lia.
  apply list_elem_of_lookup_2 in He, He'. apply HX in He'. apply HP in He. lia.
Qed.

Lemma kept_ext s s' P t t' l : ext s s' -> (forall e, e ∈ P -> eTerm e <= t) -> kept s P t t' l -> kept s' P t t' l.
Proof.
  intros Hx HP [?|(t'' & Ht & Hl)]; [by left|right]. exists t''. split; [done|]. apply (lacks_ext s); [done| |done].
  intros e He. apply HP in He. lia.
Qed.

Lemma kept_mono s P t t1 t2 l : t1 <= t2 -> kept s P t t1 l -> kept s P t t2 l.
Proof. intros Hle [?|(t'' & Ht & Hl)]; [by left|right]. exists t''. split; [lia|done]. Qed.

Lemma committed_ext s s' t P : ext s s' -> committed s t P -> committed s' t P.
Proof.
  intros Hx (j & L & Q & EL & HP & Hl & H1 & HQ & HQs & Ha). destruct (x_logs s s' Hx _ _ _ EL) as (X & EX & _).
  exists j, (L ++ X), Q. split; [done|]. split; [by apply prefix_app_r|]. do 4 (split; [done|]).
  intros q Hq. destruct (Ha q Hq) as (P2 & Hin & HP2). exists P2. split; [|done]. by apply (x_accs s s' Hx).
Qed.

Lemma commit_ok_ext s s' t l c : ext s s' -> commit_ok s t l c -> commit_ok s' t l c.
Proof.
  intros Hx [Hc [->|(t0 & P & Ht & HP & Hl)]]; (split; [done|]); [by left|right]. exists t0, P. split; [done|]. split; [by apply (committed_ext s)|done].
Qed.

Lemma commit_ok_term s t t' l c : t <= t' -> commit_ok s t l c -> commit_ok s t' l c.
Proof. intros Hle [Hc [->|(t0 & P & Ht & HP & Hl)]]; (split; [done|]); [by left|right]. exists t0, P. split; [lia|done]. Qed.

(** Fewer entries, in a log that shares them. *)
Lemma commit_ok_shared s t l l' c c' : commit_ok s t l c -> c' <= c -> take (S c') l = take (S c') l' -> c' < length l' -> commit_ok s t l' c'.
Proof.
  intros [Hc H] Hle Htk Hlt. split; [done|]. destruct H as [->|(t0 & P & Ht & HP & Hl)]; [left; lia|right].
  exists t0, P. split; [done|]. split; [done|]. rewrite <- Htk. etrans; [|exact Hl]. apply prefix_take; [apply take_prefix|rewrite length_take; lia].
Qed.

(** The terms of an accepted prefix. *)
Lemma acc_terms s q t P P' : inv s -> (q, t, P) ∈ sAccs s -> P' `prefix_of` P -> forall e, e ∈ P' -> eTerm e <= t.
Proof.
  intros Hi Hin HP e He. destruct (i_acc s Hi q t P Hin) as (j & L & a & EL & HPL & _). destruct (i_tlog s Hi _ _ _ EL) as [_ HL].
  apply (good_terms s t L e HL). eapply elem_of_prefix; [exact He|]. by etrans.
Qed.

(** The grants that elected a leader stay so while the voters accept nothing older. *)
Lemma electing_ext s s' t L X q :
  inv s -> ext s s' -> (forall t0 P, (q, t0, P) ∈ sAccs s' -> t0 < t -> (q, t0, P) ∈ sAccs s) ->
  electing s t L q -> electing s' t (L ++ X) q.
Proof.
  intros Hi Hx Hnew (args & G & Hg & Ht & (e & He & Het & Hlt) & Hk). exists args, G. split; [by apply (x_grants s s' Hx)|]. split; [done|]. split.
  - exists e. split; [|done]. by apply lookup_app_l_Some.
  - intros t0 P P' Hin Hlt0 HP. apply Hnew in Hin; [|done]. destruct (Hk t0 P P' Hin Hlt0 HP) as [?|(t2 & Ht2 & Hl)]; [by left|right].
    exists t2. split; [done|]. apply (lacks_ext s); [done| |done]. intros x Hx'. pose proof (acc_terms s q t0 P' P Hi Hin HP x Hx'). lia.
Qed.

(** ** One node moves *)

(** What a new grant, request, append request and acceptance of the node [i] must
    satisfy. *)
Record fresh_ok (s s' : spec) (i : string) (a a' : anode) : Prop := {
  f_asked : forall args, asked s' args -> rvCandidateID args <> i -> asked s args;
  f_own : forall args, asked s' args -> rvCandidateID args = i -> rvTerm args <= aTerm a' /\
    (aRole a' = RoleCandidate -> rvTerm args = aTerm a' -> args = request_of (aTerm a') i (aLog a'));
  f_grant : forall v args G, (v, args, G) ∈ sGrants s' -> (v, args, G) ∈ sGrants s \/
    v = i /\ up_to_date args G /\ good s' (rvTerm args) G /\ aTerm a <= rvTerm args <= aTerm a' /\ G = aLog a;
  f_app : forall args, args ∈ sApps s' -> args ∈ sApps s \/
    exists j L e, sLogs s' !! aeTerm args = Some (j, L) /\ L !! aePrevLogIndex args = Some e /\ eTerm e = aePrevLogTerm args /\
      shown args L = take (S (aePrevLogIndex args)) L ++ aeEntries args /\
      aeLeaderCommit args <= aePrevLogIndex args + length (aeEntries args) /\ commit_ok s' (aeTerm args) L (aeLeaderCommit args);
  f_acc : forall q t P, (q, t, P) ∈ sAccs s' -> (q, t, P) ∈ sAccs s \/
    q = i /\ t = aTerm a' /\ P `prefix_of` aLog a' /\ exists j L, sLogs s' !! t = Some (j, L) /\ P `prefix_of` L;
  f_old : forall t P P', (i, t, P) ∈ sAccs s -> P' `prefix_of` P -> kept s' P' t (aTerm a') (aLog a')
}.

Lemma shown_app args L X : shown args L = take (S (aePrevLogIndex args)) L ++ aeEntries args ->
  is_Some (L !! aePrevLogIndex args) ->
  shown args (L ++ X) = take (S (aePrevLogIndex args)) (L ++ X) ++ aeEntries args.
Proof.
  unfold shown. intros H [e He]. pose proof (lookup_lt_Some _ _ _ He) as Hlt.
  assert (S (aePrevLogIndex args) + length (aeEntries args) <= length L) as Hle.
  { apply (f_equal length) in H. rewrite length_app, !length_take in H. lia. }
  rewrite !take_app_le by lia. done.
Qed.

Lemma inv_frame s s' i a a' :
  inv s -> sNodes s !! i = Some a -> sNodes s' = <[i := a']> (sNodes s) -> ext s s' -> aTerm a <= aTerm a' ->
  (forall t j L, sLogs s' !! t = Some (j, L) -> 1 <= t /\ good s' t L /\
     exists Q, Q ⊆ ms /\ majority ms <= size Q /\ forall q, q ∈ Q -> electing s' t L q) ->
  (forall j b, j <> i -> sNodes s !! j = Some b -> aRole b = RoleLeader -> sLogs s' !! aTerm b = sLogs s !! aTerm b) ->
  good s' (aTerm a') (aLog a') -> (aRole a' = RoleLeader -> sLogs s' !! aTerm a' = Some (i, aLog a')) ->
  (aRole a' = RoleCandidate -> forall e, e ∈ aLog a' -> eTerm e < aTerm a') ->
  commit_ok s' (aTerm a') (aLog a') (aCommit a') -> fresh_ok s s' i a a' -> inv s'.
Proof.
  intros Hi Ha Hn Hx Hle Hlogs Hoth Hgood Hlead Hcand Hcom Hf.
  assert (forall j b, sNodes s' !! j = Some b -> j = i /\ b = a' \/ j <> i /\ sNodes s !! j = Some b) as Hcase.
  { intros j b. rewrite Hn, lookup_insert. case_decide; [intros [= <-]; by left|by right]. }
  assert (forall v b, sNodes s !! v = Some b -> exists b', sNodes s' !! v = Some b' /\ aTerm b <= aTerm b') as Hterm.
  { intros v b Hv. rewrite Hn, lookup_insert. case_decide as Hd; [|by exists b]. subst v. rewrite Ha in Hv. injection Hv as <-. by exists a'. }
  split.
  - intros j b [[-> ->]|[_ Hb]]%Hcase; [done|]. apply (good_ext s); [done|]. by eapply i_log.
  - intros t j L EL. by destruct (Hlogs t j L EL) as (? & ? & _).
  - intros j b [[-> ->]|[Hne Hb]]%Hcase Hr; [by apply Hlead|]. rewrite (Hoth j b Hne Hb Hr). by apply i_leader.
  - intros j b [[-> ->]|[_ Hb]]%Hcase Hr; [by apply Hcand|]. by eapply i_cand.
  - intros args b Hask [[Hc ->]|[Hne Hb]]%Hcase.
    + destruct (f_own _ _ _ _ _ Hf args Hask Hc) as [Ho1 Ho2]. split; [done|]. intros Hr Ht. rewrite Hc. by apply Ho2.
    + apply (i_asked s Hi); [|done]. by apply (f_asked _ _ _ _ _ Hf).
  - intros v args G [Hin|(-> & ? & ? & ? & _)]%(f_grant _ _ _ _ _ Hf).
    + destruct (i_grant s Hi v args G Hin) as (? & ? & b & Hb & Ht). split; [done|]. split; [by apply (good_ext s)|].
      destruct (Hterm v b Hb) as (b' & ? & ?). exists b'. split; [done|lia].
    + split; [done|]. split; [done|]. exists a'. rewrite Hn, lookup_insert_eq. split; [done|lia].
  - intros args [Hin|H]%(f_app _ _ _ _ _ Hf); [|done].
    destruct (i_app s Hi args Hin) as (j & L & e & EL & He & Het & Hsh & Hlc & Hco). destruct (x_logs _ _ Hx _ _ _ EL) as (X & EX & _).
    exists j, (L ++ X), e. split; [done|]. split; [by apply lookup_app_l_Some|]. split; [done|]. split; [by apply shown_app|]. split; [done|].
    apply (commit_ok_ext s); [done|]. eapply commit_ok_shared; [exact Hco|done| |rewrite length_app; destruct Hco; lia].
    destruct Hco as [Hlt _]. by rewrite take_app_le by lia.
  - intros q t P [Hin|(-> & Htq & HP & j & L & EL & HPL)]%(f_acc _ _ _ _ _ Hf).
    + destruct (i_acc s Hi q t P Hin) as (j & L & b & EL & HPL & Hb & Ht & Hk). destruct (x_logs _ _ Hx _ _ _ EL) as (X & EX & _).
      destruct (Hterm q b Hb) as (b' & Hb' & Htt). exists j, (L ++ X), b'. split; [done|]. split; [by apply prefix_app_r|]. split; [done|]. split; [lia|].
      intros P' HP'. destruct (Hcase q b' Hb') as [[-> ->]|[Hne Hb2]]; [by eapply (f_old _ _ _ _ _ Hf)|].
      rewrite Hb2 in Hb. injection Hb as ->. apply (kept_ext s); [done| |by apply Hk]. by eapply acc_terms.
    + exists j, L, a'. split; [done|]. split; [done|]. rewrite Hn, lookup_insert_eq. split; [done|]. split; [lia|]. intros P' HP'. left. by etrans.
  - intros q t P args G [Hin|(Hq & Htq & _)]%(f_acc _ _ _ _ _ Hf) [Hg|(Hv & _ & _ & Ht & HG)]%(f_grant _ _ _ _ _ Hf) Hlt P' HP'; subst.
    + apply (kept_ext s); [done|by eapply acc_terms|]. by eapply i_acc_grant.
    + apply (kept_ext s); [done|by eapply acc_terms|]. destruct (i_acc s Hi i t P Hin) as (j & L & b & _ & _ & Hb & _ & Hk).
      rewrite Ha in Hb. injection Hb as <-. eapply kept_mono; [|by apply Hk]. lia.
    + destruct (i_grant s Hi i args G Hg) as (_ & _ & b & Hb & Ht). rewrite Ha in Hb. injection Hb as <-. lia.
    + lia.
  - intros t j L EL. by destruct (Hlogs t j L EL) as (_ & _ & ?).
  - intros j b [[-> ->]|[_ Hb]]%Hcase; [done|]. apply (commit_ok_ext s); [done|]. by eapply i_commit.
Qed.

(** The grants that elected the leaders still do after a step in which only the node
    [i] accepts, at a term not before its own. *)
Lemma elected_frame s s' i a t j L X :
  inv s -> ext s s' -> sNodes s !! i = Some a ->
  (forall q t0 P, (q, t0, P) ∈ sAccs s' -> (q, t0, P) ∈ sAccs s \/ q = i /\ aTerm a <= t0) ->
  sLogs s !! t = Some (j, L) -> exists Q, Q ⊆ ms /\ majority ms <= size Q /\ forall q, q ∈ Q -> electing s' t (L ++ X) q.
Proof.
  intros Hi Hx Ha Hnew EL. destruct (i_elected s Hi t j L EL) as (Q & HQ & HQs & Hel). exists Q. split; [done|]. split; [done|].
  intros q Hq. apply (electing_ext s); [done|done| |by apply Hel]. intros t0 P [?|[-> Hle]]%Hnew Hlt; [done|].
  destruct (Hel i Hq) as (args & G & Hg & Ht & _). destruct (i_grant s Hi i args G Hg) as (_ & _ & b & Hb & Htb).
  rewrite Ha in Hb. injection Hb as <-. lia.
Qed.

(** The same for a step that leaves the leaders' logs alone. *)
Lemma logs_frame s s' i a :
  inv s -> ext s s' -> sNodes s !! i = Some a -> sLogs s' = sLogs s ->
  (forall q t0 P, (q, t0, P) ∈ sAccs s' -> (q, t0, P) ∈ sAccs s \/ q = i /\ aTerm a <= t0) ->
  forall t j L, sLogs s' !! t = Some (j, L) -> 1 <= t /\ good s' t L /\
    exists Q, Q ⊆ ms /\ majority ms <= size Q /\ forall q, q ∈ Q -> electing s' t L q.
Proof.
  intros Hi Hx Ha El Hnew t j L E. rewrite El in E. destruct (i_tlog s Hi t j L E) as [H1 HL]. split; [done|]. split; [by apply (good_ext s)|].
  rewrite <- (app_nil_r L). by apply (elected_frame s s' i a t j L []).
Qed.

Lemma kept_log s P t t' l l' : l `prefix_of` l' -> kept s P t t' l -> kept s P t t' l'.
Proof. intros Hl [?|?]; [left; by etrans|by right]. Qed.

(** Accepted prefixes stay, at a later term and in a log that has grown. *)
Lemma acc_stays s s' i a t P P' t' l' :
  inv s -> ext s s' -> sNodes s !! i = Some a -> (i, t, P) ∈ sAccs s -> P' `prefix_of` P -> aTerm a <= t' -> aLog a `prefix_of` l' ->
  kept s' P' t t' l'.
Proof.
  intros Hi Hx Ha Hin HP Ht Hl. destruct (i_acc s Hi i t P Hin) as (j & L & b & _ & _ & Hb & _ & Hk). rewrite Ha in Hb. injection Hb as <-.
  apply (kept_ext s); [done|by eapply acc_terms|]. eapply kept_mono; [exact Ht|]. eapply kept_log; [exact Hl|]. by apply Hk.
Qed.

(** *** Steps that leave logs alone *)

(** A step by which [i] asks for votes or gives one. *)
Lemma voting_step s s' i a t r :
  inv s -> sNodes s !! i = Some a -> aTerm a <= t ->
  sNodes s' = <[i := mkA t r (aLog a) (aCommit a)]> (sNodes s) -> sLogs s' = sLogs s -> sApps s' = sApps s -> sAccs s' = sAccs s ->
  (forall g, g ∈ sGrants s -> g ∈ sGrants s') ->
  (r = RoleLeader -> aRole a = RoleLeader /\ aTerm a = t) ->
  (r = RoleCandidate -> aTerm a < t \/ aRole a = RoleCandidate /\ aTerm a = t) ->
  (forall args, asked s' args -> asked s args \/ args = request_of t i (aLog a)) ->
  (forall v args G, (v, args, G) ∈ sGrants s' -> (v, args, G) ∈ sGrants s \/
     v = i /\ up_to_date args G /\ rvTerm args = t /\ G = aLog a) ->
  inv s'.
Proof.
  intros Hi Ha Ht Hn El Eap Eac Hg Hlead Hcand Hask Hgr. pose proof (i_log s Hi i a Ha) as Hgood.
  assert (ext s s') as Hx by (apply ext_same; [done|done|by rewrite Eac]).
  assert (good s' t (aLog a)) as Hgood' by (apply (good_mono _ (aTerm a)); [done|by apply (good_ext s)]).
  apply (inv_frame s s' i a (mkA t r (aLog a) (aCommit a)) Hi Ha Hn Hx); simpl; [done| | |done| | | |].
  - eapply logs_frame; [done|done|exact Ha|done|]. rewrite Eac. by left.
  - intros. by rewrite El.
  - intros Hr. destruct (Hlead Hr) as [Hr' <-]. rewrite El. by apply i_leader.
  - intros Hr e He. destruct (Hcand Hr) as [Hlt|[Hr' <-]]; [|by eapply i_cand]. pose proof (good_terms s _ _ _ Hgood He). lia.
  - apply (commit_ok_term _ (aTerm a)); [done|]. apply (commit_ok_ext s); [done|]. by eapply i_commit.
  - split; simpl.
    + intros args [?| ->]%Hask Hne; [done|]. by simpl in Hne.
    + intros args [Hold| ->]%Hask Hc; [|done]. rewrite <- Hc in Ha. destruct (i_asked s Hi args a Hold Ha) as [Hle Heq].
      split; [lia|]. intros Hr Htt. destruct (Hcand Hr) as [?|[Hr' <-]]; [lia|]. rewrite <- Hc. by apply Heq.
    + intros v args G [?|(-> & Hup & <- & ->)]%Hgr; [by left|right]. done.
    + rewrite Eap. by left.
    + rewrite Eac. by left.
    + intros t0 P P' Hin HP. by eapply acc_stays.
Qed.

Lemma step_timeout s i a t : inv s -> sNodes s !! i = Some a -> aTerm a < t ->
  inv (add_grant (i, request_of t i (aLog a), aLog a) (set_node i (mkA t RoleCandidate (aLog a) (aCommit a)) s)).
Proof.
  intros Hi Ha Ht. apply (voting_step s _ i a t RoleCandidate); [done|done|lia|done|done|done|done| |done|by left| |].
  - intros g. apply list_elem_of_further.
  - intros args [?|(v & G & Hin)]; [left; by left|]. apply elem_of_cons in Hin as [[= -> -> ->]|Hin]; [by right|left; right; eauto].
  - intros v args G [[= -> -> ->]|Hin]%elem_of_cons; [right|by left]. split; [done|]. split; [|done]. right. split; [done|]. simpl. lia.
Qed.

Lemma step_down s i a t : inv s -> sNodes s !! i = Some a -> aTerm a <= t ->
  inv (set_node i (mkA t RoleFollower (aLog a) (aCommit a)) s).
Proof. intros Hi Ha Ht. apply (voting_step s _ i a t RoleFollower); try done; by left. Qed.

Lemma step_request s i a : inv s -> sNodes s !! i = Some a -> inv (add_req (request_of (aTerm a) i (aLog a)) s).
Proof.
  intros Hi Ha. apply (voting_step s _ i a (aTerm a) (aRole a)); [done|done|done| |done|done|done|done|done|by right| |by left].
  - simpl. symmetry. apply insert_id. rewrite Ha. by destruct a.
  - intros args [Hin|?]; [|left; by right]. apply elem_of_cons in Hin as [->|?]; [by right|left; by left].
Qed.

Lemma step_grant s i a args r : inv s -> sNodes s !! i = Some a -> args ∈ sReqs s -> aTerm a <= rvTerm args -> up_to_date args (aLog a) ->
  (r = RoleFollower \/ r = aRole a /\ aTerm a = rvTerm args) ->
  inv (add_grant (i, args, aLog a) (set_node i (mkA (rvTerm args) r (aLog a) (aCommit a)) s)).
Proof.
  intros Hi Ha Hin Ht Hup Hr. apply (voting_step s _ i a (rvTerm args) r); [done|done|done|done|done|done|done| | | | |].
  - intros g. apply list_elem_of_further.
  - intros ->. by destruct Hr as [?|[-> ->]].
  - intros ->. destruct Hr as [?|[-> ->]]; [done|by right].
  - intros args' [?|(v & G & H)]; [left; by left|]. apply elem_of_cons in H as [[= -> -> ->]|?]; left; [by left|right; eauto].
  - intros v args' G [[= -> -> ->]|?]%elem_of_cons; [by right|by left].
Qed.

(** A node's commit index, and requests, as a leader. *)
Lemma step_leading s s' i a c :
  inv s -> sNodes s !! i = Some a -> sNodes s' = <[i := mkA (aTerm a) (aRole a) (aLog a) c]> (sNodes s) -> sLogs s' = sLogs s ->
  sReqs s' = sReqs s -> sGrants s' = sGrants s -> sAccs s' = sAccs s -> commit_ok s' (aTerm a) (aLog a) c ->
  (forall args, args ∈ sApps s' -> args ∈ sApps s \/
    exists j L e, sLogs s' !! aeTerm args = Some (j, L) /\ L !! aePrevLogIndex args = Some e /\ eTerm e = aePrevLogTerm args /\
      shown args L = take (S (aePrevLogIndex args)) L ++ aeEntries args /\
      aeLeaderCommit args <= aePrevLogIndex args + length (aeEntries args) /\ commit_ok s' (aeTerm args) L (aeLeaderCommit args)) ->
  inv s'.
Proof.
  intros Hi Ha Hn El Er Eg Eac Hco Happ.
  assert (ext s s') as Hx by (apply ext_same; [done|by rewrite Eg|by rewrite Eac]).
  assert (forall args, asked s' args -> asked s args) as Hask by (unfold asked; by rewrite Er, Eg).
  apply (inv_frame s s' i a (mkA (aTerm a) (aRole a) (aLog a) c) Hi Ha Hn Hx); simpl; [done| | | | | |done|].
  - eapply logs_frame; [done|done|exact Ha|done|]. rewrite Eac. by left.
  - intros. by rewrite El.
  - apply (good_ext s); [done|]. by apply (i_log s Hi i a).
  - intros Hr. rewrite El. by apply i_leader.
  - intros Hr. by apply (i_cand s Hi i a).
  - split; simpl.
    + intros args Hold _. by apply Hask.
    + intros args Hold%Hask Hc. rewrite <- Hc in Ha. destruct (i_asked s Hi args a Hold Ha) as [Hle Heq]. rewrite <- Hc. done.
    + rewrite Eg. by left.
    + done.
    + rewrite Eac. by left.
    + intros t0 P P' Hin HP. by eapply acc_stays.
Qed.

Lemma step_commit s i a c e Q : inv s -> sNodes s !! i = Some a -> aRole a = RoleLeader -> aLog a !! c = Some e -> eTerm e = aTerm a ->
  Q ⊆ ms -> majority ms <= size Q -> (forall q, q ∈ Q -> exists P, (q, aTerm a, P) ∈ sAccs s /\ S c <= length P) ->
  inv (set_node i (mkA (aTerm a) RoleLeader (aLog a) c) s).
Proof.
  intros Hi Ha Hr He Het HQ HQs Hacc. pose proof (i_leader s Hi i a Ha Hr) as EL. destruct (i_tlog s Hi _ _ _ EL) as [Ht1 HL].
  pose proof (lookup_lt_Some _ _ _ He) as Hlt.
  apply (step_leading s _ i a c); [done|done|by rewrite Hr|done|done|done|done| |by left].
  split; [done|]. right. exists (aTerm a), (take (S c) (aLog a)). split; [done|]. split; [|done].
  exists i, (aLog a), Q. split; [done|]. split; [apply take_prefix|]. split; [|split; [|split; [done|split; [done|]]]].
  - unfold lastT. by rewrite (take_S_r _ _ _ He), last_snoc.
  - rewrite length_take. destruct c as [|c]; [|lia]. destruct HL as [H0 _]. rewrite H0 in He. injection He as <-. simpl in Het. lia.
  - intros q Hq. destruct (Hacc q Hq) as (P & Hin & Hlen). exists P. split; [done|].
    destruct (i_acc s Hi q _ P Hin) as (j & L & b & EL2 & HP & _). rewrite EL in EL2. injection EL2 as <- <-.
    apply (prefix_meet _ _ (aLog a)); [apply take_prefix|done|]. rewrite length_take. lia.
Qed.

Lemma step_send s i a args e : inv s -> sNodes s !! i = Some a -> aRole a = RoleLeader -> aeTerm args = aTerm a ->
  aLog a !! aePrevLogIndex args = Some e -> eTerm e = aePrevLogTerm args ->
  shown args (aLog a) = take (S (aePrevLogIndex args)) (aLog a) ++ aeEntries args ->
  aeLeaderCommit args <= aCommit a -> aeLeaderCommit args <= aePrevLogIndex args + length (aeEntries args) ->
  inv (add_app args s).
Proof.
  intros Hi Ha Hr Ht He Het Hsh Hc Hlc. pose proof (i_leader s Hi i a Ha Hr) as EL. pose proof (i_commit s Hi i a Ha) as Hco.
  assert (ext s (add_app args s)) as Hx by (by apply ext_same).
  apply (step_leading s _ i a (aCommit a)); [done|done| |done|done|done|done| |].
  - simpl. symmetry. apply insert_id. rewrite Ha. by destruct a.
  - by apply (commit_ok_ext s).
  - intros args' [->|?]%elem_of_cons; [right|by left]. exists i, (aLog a), e. simpl. rewrite Ht. do 5 (split; [done|]).
    apply (commit_ok_ext s); [done|]. eapply commit_ok_shared; [exact Hco|done|done|]. destruct Hco. lia.
Qed.
(** *** The leader's log grows *)

Lemma good_snoc s t l e j : good s t l -> 1 <= t -> eTerm e = t -> sLogs s !! t = Some (j, l ++ [e]) -> good s t (l ++ [e]).
Proof.
  intros [H0 H] Ht He EL. split; [by apply lookup_app_l_Some|]. intros k x Hk.
  assert (k < length l) as Hkl. { apply lookup_lt_Some in Hk. rewrite length_app in Hk. simpl in Hk. lia. }
  apply lookup_app_Some in Hk as [Hk|[Hle Hk]].
  - destruct (H k x Hk) as (? & j' & L & EL' & HP). split; [done|]. exists j', L. split; [done|]. apply lookup_lt_Some in Hk.
    by rewrite take_app_le by lia.
  - apply list_lookup_singleton_Some in Hk as [_ <-]. split; [lia|]. exists j, (l ++ [e]). split; [by rewrite He|]. apply take_prefix.
Qed.

Lemma step_lead_with s i a e :
  inv s -> sNodes s !! i = Some a -> eTerm e = aTerm a -> 1 <= aTerm a ->
  (sLogs s !! aTerm a = None \/ sLogs s !! aTerm a = Some (i, aLog a)) ->
  (forall s', s' = lead_with i a (aLog a ++ [e]) s -> ext s s' ->
     exists Q, Q ⊆ ms /\ majority ms <= size Q /\ forall q, q ∈ Q -> electing s' (aTerm a) (aLog a ++ [e]) q) ->
  inv (lead_with i a (aLog a ++ [e]) s).
Proof.
  intros Hi Ha He Ht1 Hold Hel. set (s' := lead_with _ _ _ _) in *.
  assert (ext s s') as Hx.
  { split; [|done|intros; by apply list_elem_of_further]. intros t j L EL. simpl. rewrite lookup_insert. case_decide as Hd.
    - subst t. destruct Hold as [Hn|Ho]; simplify_eq. exists [e]. split; [done|]. by intros x ->%list_elem_of_singleton.
    - exists []. rewrite app_nil_r. split; [done|]. by intros x ?%elem_of_nil. }
  assert (sLogs s' !! aTerm a = Some (i, aLog a ++ [e])) as EL by (simpl; by rewrite lookup_insert_eq).
  assert (good s' (aTerm a) (aLog a ++ [e])) as Hgood. { eapply good_snoc; [|done|done|done]. apply (good_ext s); [done|]. by eapply i_log. }
  apply (inv_frame s s' i a (mkA (aTerm a) RoleLeader (aLog a ++ [e]) (aCommit a)) Hi Ha eq_refl Hx); simpl; [done| | |done|done|done| |].
  - intros t j L. rewrite lookup_insert. case_decide as Hd; [intros [= <- <-]|intros E].
    + subst t. split; [done|]. split; [done|]. by apply Hel.
    + destruct (i_tlog s Hi t j L E) as [? HL]. split; [done|]. split; [by apply (good_ext s)|]. rewrite <- (app_nil_r L).
      apply (elected_frame s s' i a t j L [] Hi Hx Ha); [|done]. intros q t0 P [[= -> -> ->]|?]%elem_of_cons; [by right|by left].
  - intros j b Hne Hb Hr. rewrite lookup_insert_ne; [done|]. intros Heq. pose proof (i_leader s Hi j b Hb Hr) as E. rewrite <- Heq in E.
    destruct Hold; congruence.
  - apply (commit_ok_ext s); [done|]. destruct (i_commit s Hi i a Ha) as [Hlt Hco].
    eapply commit_ok_shared; [by split|done|by rewrite take_app_le by lia|rewrite length_app; lia].
  - split; simpl.
    + done.
    + intros args Hask Hc. rewrite <- Hc in Ha. destruct (i_asked s Hi args a Hask Ha) as [Hle _]. done.
    + by left.
    + by left.
    + intros q t P [[= -> -> ->]|?]%elem_of_cons; [right|by left]. split; [done|]. split; [done|]. split; [done|]. by exists i, (aLog a ++ [e]).
    + intros t0 P P' Hin HP. eapply acc_stays; [done|done|done|done|done|done|by exists [e]].
Qed.

Lemma step_append s i a e : inv s -> sNodes s !! i = Some a -> aRole a = RoleLeader -> eTerm e = aTerm a ->
  inv (lead_with i a (aLog a ++ [e]) s).
Proof.
  intros Hi Ha Hr He. pose proof (i_leader s Hi i a Ha Hr) as EL. destruct (i_tlog s Hi _ _ _ EL) as [Ht1 _].
  apply step_lead_with; [done|done|done|done|by right|]. intros s' -> Hx. eapply elected_frame; [done|done|done| |done].
  intros q t0 P [[= -> -> ->]|?]%elem_of_cons; [by right|by left].
Qed.

(** Who was asked by a candidate was shown its log. *)
Lemma granted_own s i a q args G : inv s -> sNodes s !! i = Some a -> aRole a = RoleCandidate ->
  (q, args, G) ∈ sGrants s -> rvTerm args = aTerm a -> rvCandidateID args = i -> args = request_of (aTerm a) i (aLog a).
Proof.
  intros Hi Ha Hr Hg Ht Hc. rewrite <- Hc in Ha. destruct (i_asked s Hi args a) as [_ H]; [right; eauto|done|]. rewrite <- Hc. by apply H.
Qed.

Lemma step_lead s i a Q : inv s -> sNodes s !! i = Some a -> aRole a = RoleCandidate -> sLogs s !! aTerm a = None ->
  Q ⊆ ms -> majority ms <= size Q ->
  (forall q, q ∈ Q -> exists args G, (q, args, G) ∈ sGrants s /\ rvTerm args = aTerm a /\ rvCandidateID args = i) ->
  inv (lead_with i a (aLog a ++ [noop (aTerm a)]) s).
Proof.
  intros Hi Ha Hr Hnone HQ HQs Hg. pose proof (i_log s Hi i a Ha) as Hgood. pose proof (i_cand s Hi i a Ha Hr) as Hc.
  assert (1 <= aTerm a) as Ht1. { specialize (Hc (noop 0)). destruct Hgood as [H0 _]. apply list_elem_of_lookup_2 in H0. apply Hc in H0. simpl in H0. lia. }
  apply step_lead_with; [done|done|done|done|by left|]. intros s' -> Hx. exists Q. split; [done|]. split; [done|].
  intros q Hq. destruct (Hg q Hq) as (args & G & Hin & Ht & Hci). pose proof (granted_own s i a q args G Hi Ha Hr Hin Ht Hci) as ->.
  assert (aLog a <> []) as Hne by (destruct Hgood as [H0 _]; intros E; by rewrite E in H0).
  exists (request_of (aTerm a) i (aLog a)), G. split; [by apply (x_grants _ _ Hx)|]. split; [done|]. split.
  - destruct (lastT_lookup (aLog a) Hne) as (e & He & Het). exists e. simpl. split; [by apply lookup_app_l_Some|]. split; [done|].
    apply Hc. by eapply list_elem_of_lookup_2.
  - intros t P P' Hacc Hlt HP. apply elem_of_cons in Hacc as [[= -> -> ->]|Hacc]; [lia|].
    destruct (i_acc_grant s Hi q t P' _ G Hacc Hin Hlt P HP) as [?|(t2 & Ht2 & Hl)]; [by left|right]. simpl in Ht2.
    assert (t2 <> aTerm a) as Hn2. { intros ->. destruct Hl as (j & L & E & _). congruence. }
    exists t2. split; [lia|]. apply (lacks_ext s); [done| |done]. intros x Hx'. pose proof (acc_terms s q t P' P Hi Hacc HP x Hx'). lia.
Qed.
(** *** A node accepts entries *)

(** Where a conflict cuts a log, what was cut was not of the leader's. *)
Lemma cut_keeps (P F l L : list Entry) : P `prefix_of` l -> P `prefix_of` L -> F `prefix_of` L -> ~ F `prefix_of` l -> P `prefix_of` F.
Proof.
  intros HP HPL HFL Hn. destruct (prefix_weak_total P F L HPL HFL) as [?|H]; [done|]. destruct Hn. by etrans.
Qed.

(** What is committed in a log is in the log of a leader at a term not before. *)
Lemma commit_in_leader s t l c t' j L : inv s -> good s t l -> commit_ok s t l c -> t <= t' -> sLogs s !! t' = Some (j, L) -> take (S c) l `prefix_of` L.
Proof.
  intros Hi Hg [Hc [->|(t0 & P & Ht & HP & Hl)]] Hle EL.
  - destruct Hg as [H0 _], (i_tlog s Hi _ _ _ EL) as [_ [H1 _]]. rewrite (take_S_r _ _ _ H0). simpl. destruct L as [|x L]; [done|]. simpl in H1.
    injection H1 as ->. by exists L.
  - etrans; [exact Hl|]. destruct (decide (t0 = t')) as [->|].
    + destruct HP as (j2 & L2 & Q & E2 & HP2 & _). rewrite EL in E2. by injection E2 as <- <-.
    + apply (leader_complete s t0 P t' j L); [done|done|lia|done].
Qed.

Lemma step_receive s i a args e j L c : inv s -> sNodes s !! i = Some a -> args ∈ sApps s -> aTerm a <= aeTerm args ->
  aLog a !! aePrevLogIndex args = Some e -> (aePrevLogIndex args = 0 \/ eTerm e = aePrevLogTerm args) ->
  sLogs s !! aeTerm args = Some (j, L) ->
  (c = aCommit a \/ aCommit a <= c /\ c <= aeLeaderCommit args) ->
  inv (add_acc (i, aeTerm args, shown args L)
    (set_node i (mkA (aeTerm args) RoleFollower (install (aLog a) (S (aePrevLogIndex args)) (aeEntries args)) c) s)).
Proof.
  intros Hi Ha Happ Ht He Hprev EL Hc. pose proof (i_log s Hi i a Ha) as Hgood.
  destruct (i_app s Hi args Happ) as (j' & L' & e' & EL' & He' & Het & Hsh & Hlc & Hco). rewrite EL in EL'. injection EL' as <- <-.
  destruct (i_tlog s Hi _ _ _ EL) as [_ HL].
  assert (eTerm e = eTerm e') as Hee.
  { destruct Hprev as [H0|H0]; [|congruence]. rewrite H0 in He, He'. destruct Hgood as [G0 _], HL as [L0 _]. congruence. }
  pose proof (good_agree s _ _ _ _ _ _ _ Hgood HL He He' Hee) as Htk.
  assert (exists l', l' = install (aLog a) (S (aePrevLogIndex args)) (aeEntries args) /\ shown args L `prefix_of` l' /\
    (l' = aLog a \/ l' = shown args L /\ ~ shown args L `prefix_of` aLog a)) as (l' & <- & HF & Hl').
  { eexists. split; [done|]. destruct (install_spec L (aeEntries args) (aLog a) (S (aePrevLogIndex args))) as [[-> H]|[-> H]].
    - apply lookup_lt_Some in He. lia.
    - done.
    - intros. by eapply good_agree.
    - exact Hsh.
    - split; [exact H|by left].
    - split; [done|by right]. }
  set (s' := add_acc _ _).
  assert (ext s s') as Hx by (apply ext_same; [done|done|intros; by apply list_elem_of_further]).
  assert (shown args L `prefix_of` L) as HFL by apply take_prefix.
  assert (good s' (aeTerm args) l') as Hgood'.
  { apply (good_ext s); [done|]. destruct Hl' as [->|[-> _]]; [by apply (good_mono _ (aTerm a))|]. eapply good_prefix; [exact HL|done|].
    unfold shown. intros E%(f_equal length). rewrite length_take in E. cbn [length] in E. apply lookup_lt_Some in He'. lia. }
  assert (forall P, P `prefix_of` aLog a -> P `prefix_of` L -> P `prefix_of` l') as Hkeep.
  { intros P HP HPL. destruct Hl' as [->|[-> Hn]]; [done|]. by apply (cut_keeps P _ (aLog a) L). }
  pose proof (i_commit s Hi i a Ha) as Hca.
  apply (inv_frame s s' i a (mkA (aeTerm args) RoleFollower l' c) Hi Ha eq_refl Hx); simpl; [done| |done|done|done|done| |].
  - apply (logs_frame s s' i a Hi Hx Ha eq_refl). intros q t0 P [[= -> -> ->]|?]%elem_of_cons; [by right|by left].
  - apply (commit_ok_ext s); [done|]. destruct Hc as [->|[_ Hc]].
    + assert (take (S (aCommit a)) (aLog a) `prefix_of` l') as Hp.
      { apply Hkeep; [apply take_prefix|]. by eapply (commit_in_leader s (aTerm a)). }
      assert (length (take (S (aCommit a)) (aLog a)) = S (aCommit a)) as Hlen by (rewrite length_take; destruct Hca; lia).
      eapply commit_ok_shared; [eapply commit_ok_term; [exact Ht|exact Hca]|done| |apply prefix_length in Hp; lia].
      rewrite <- Hlen at 2. by rewrite (prefix_take_eq _ _ Hp).
    + destruct Hco as [Hcl Hco]. assert (S c <= length (shown args L)) as Hlen.
      { rewrite Hsh, length_app, length_take. apply lookup_lt_Some in He'. lia. }
      eapply commit_ok_shared; [split; [exact Hcl|exact Hco]|done| |apply prefix_length in HF; lia].
      destruct HF as [Y ->], HFL as [Z HZ]. rewrite HZ at 1. rewrite !take_app_le by lia. done.
  - split; simpl.
    + done.
    + intros args' Hask Hci. rewrite <- Hci in Ha. destruct (i_asked s Hi args' a Hask Ha) as [Hle _]. split; [lia|done].
    + by left.
    + by left.
    + intros q t P [[= -> -> ->]|?]%elem_of_cons; [right|by left]. split; [done|]. split; [done|]. split; [done|]. by exists j, L.
    + intros t P P' Hin HP. destruct (i_acc s Hi i t P Hin) as (j0 & L0 & b & EL0 & HPL0 & Hb & Htb & Hk). rewrite Ha in Hb. injection Hb as <-.
      apply (kept_ext s); [done|by eapply acc_terms|]. destruct (Hk P' HP) as [Hp|Hl]; [|eapply kept_mono; [exact Ht|by right]].
      destruct (decide (P' `prefix_of` L)) as [HpL|HnL]; [left; by apply Hkeep|right]. exists (aeTerm args). split; [|by exists j, L].
      assert (t <> aeTerm args); [|lia]. intros ->. rewrite EL in EL0. injection EL0 as <- <-. destruct HnL. etrans; [exact HP|done].
Qed.
(** ** Reachable states *)

Lemma astep_inv s s' : astep ms s s' -> inv s -> inv s'.
Proof.
  intros Hst Hi. destruct Hst.
  - by apply step_timeout.
  - by apply step_down.
  - by apply step_request.
  - by apply step_grant.
  - by eapply step_lead.
  - by apply step_append.
  - by eapply step_commit.
  - by eapply step_send.
  - by eapply step_receive.
Qed.

Lemma ainit_inv s : ainit s -> inv s.
Proof.
  intros (Er & Eg & Ep & Ea & El & Hn).
  assert (forall args, ~ asked s args) as Hna. { intros args [H|(v & G & H)]; [rewrite Er in H|rewrite Eg in H]; by apply elem_of_nil in H. }
  split.
  - intros i a Ha. destruct (Hn i a Ha) as (-> & _). split; [done|]. intros k e. by rewrite lookup_cons_ne_0.
  - intros t j L. by rewrite El, lookup_empty.
  - intros i a Ha Hr. destruct (Hn i a Ha) as (_ & _ & Hr'). congruence.
  - intros i a Ha Hr. destruct (Hn i a Ha) as (_ & _ & Hr'). congruence.
  - intros args a Hask. by destruct (Hna args).
  - intros v args G Hin. rewrite Eg in Hin. by apply elem_of_nil in Hin.
  - intros args Hin. rewrite Ep in Hin. by apply elem_of_nil in Hin.
  - intros q t P Hin. rewrite Ea in Hin. by apply elem_of_nil in Hin.
  - intros q t P args G Hin. rewrite Ea in Hin. by apply elem_of_nil in Hin.
  - intros t j L. by rewrite El, lookup_empty.
  - intros i a Ha. destruct (Hn i a Ha) as (-> & -> & _). split; [simpl; lia|by left].
Qed.

Lemma asteps_inv s s' : rtc (astep ms) s s' -> inv s -> inv s'.
Proof. induction 1 as [|x y z Hst _ IH]; [done|]. intros Hi. by apply IH, (astep_inv x). Qed.

(** The committed entries of two nodes agree. *)
Lemma commits_agree s i a j b : inv s -> sNodes s !! i = Some a -> sNodes s !! j = Some b -> aCommit a <= aCommit b ->
  take (S (aCommit a)) (aLog a) `prefix_of` take (S (aCommit b)) (aLog b).
Proof.
  intros Hi Ha Hb Hle. pose proof (i_commit s Hi i a Ha) as [Hla Hca]. pose proof (i_commit s Hi j b Hb) as [Hlb Hcb].
  pose proof (i_log s Hi i a Ha) as [Ga _]. pose proof (i_log s Hi j b Hb) as [Gb _].
  assert (length (take (S (aCommit a)) (aLog a)) <= length (take (S (aCommit b)) (aLog b))) as Hlen by (rewrite !length_take; lia).
  destruct Hca as [E|(t1 & P1 & _ & HP1 & Hl1)].
  - rewrite E, (take_S_r _ _ _ Ga). simpl. destruct (aLog b) as [|x lb]; [done|]. injection Gb as ->. simpl. by exists (take (aCommit b) lb).
  - destruct Hcb as [E|(t2 & P2 & _ & HP2 & Hl2)].
    + assert (aCommit a = 0) as E2 by lia. rewrite E, E2, (take_S_r _ _ _ Ga), (take_S_r _ _ _ Gb). done.
    + destruct (committed_total s t1 P1 t2 P2 Hi HP1 HP2) as [H|H].
      * apply (prefix_meet _ _ P2); [by etrans|done|done].
      * apply (prefix_meet _ _ P1); [done|by etrans|done].
Qed.
End inv.
