(* ===== verification/Protocol.v ===== *)
(** * The client protocol (internal/protocol, internal/server/errors.go, pkg/client)

    Requests and successful replies are commands, failed replies are statuses,
    each one JSON object on a line. *)

From S2P Require Import Prelude WalTypes WalCodec.
From Stdlib Require Import Ascii.
From stdpp Require Import pretty.

(** ** Status codes (status.go) *)

(** [Code] is a uint32. *)
Abbreviation Code := N.

Definition CodeOK : Code := 0%N.
Definition CodeUnknown : Code := 2%N.
Definition CodeInvalidArgument : Code := 3%N.
Definition CodeNotFound : Code := 5%N.
Definition CodeUnimplemented : Code := 12%N.
Definition CodeUnavailable : Code := 14%N.

Definition Code_String (c : Code) : string :=
  match c with
  | 0 => "OK"
  | 1 => "Canceled"
  | 2 => "Unknown"
  | 3 => "InvalidArgument"
  | 4 => "DeadlineExceeded"
  | 5 => "NotFound"
  | 6 => "AlreadyExists"
  | 7 => "PermissionDenied"
  | 8 => "ResourceExhausted"
  | 9 => "FailedPrecondition"
  | 10 => "Aborted"
  | 11 => "OutOfRange"
  | 12 => "Unimplemented"
  | 13 => "Internal"
  | 14 => "Unavailable"
  | 15 => "DataLoss"
  | 16 => "Unauthenticated"
  | _ => "Code(" +:+ pretty c +:+ ")"
  end%N.

(** ** Commands (command.go) *)

(** A string type: its constants, and any other text a request may carry. *)
Inductive CommandType : Type :=
  | GET | PUT | DEL | ALV | TTL | JOIN
  | OtherCommand (s : string).

Record Command : Type := mkCommand {
  CType : CommandType;
  CKey : string;
  CVal : string;
  CTTL : Z
}.

#[export] Instance CommandType_eq_dec : EqDecision CommandType.
Proof. solve_decision. Defined.
#[export] Instance Command_eq_dec : EqDecision Command.
Proof. solve_decision. Defined.

Definition set_CVal (v : string) (c : Command) : Command := mkCommand (CType c) (CKey c) v (CTTL c).

(** [encoding/json] on commands and statuses; a status is its code and message. *)
Class ProtoJson : Type := {
  json_command : Command -> result bytes;
  json_uncommand : bytes -> option Command;
  json_status : Code * string -> result bytes;
  json_unstatus : bytes -> option (Code * string)
}.

(** One line that holds one JSON object. *)
Definition json_object (b : bytes) : Prop :=
  (nl ∉ b) /\ exists m, b = "{"%char :: m ++ ["}"%char].

(** What the code relies on, for values whose strings are valid UTF-8: an
    encoding is an object on one line and decodes to the value; a command read
    as a status, which it shares no key with, leaves both fields zero. *)
Class ProtoJsonLaws {PJ : ProtoJson} : Type := {
  cmd_fits : Command -> Prop;
  status_fits : Code * string -> Prop;
  json_command_ok : forall c, cmd_fits c ->
    exists b, json_command c = Ok b /\ json_object b /\ json_uncommand b = Some c /\
      json_unstatus b = Some (0%N, "");
  json_status_ok : forall s, status_fits s ->
    exists b, json_status s = Ok b /\ json_object b /\ json_unstatus b = Some s
}.
Arguments ProtoJsonLaws PJ : clear implicits.

(** ** Errors (error.go, internal/server/errors.go) *)

Definition ErrInvalidRequest : error := Status CodeInvalidArgument "invalid command".
Definition ErrInvalidCommand : error := Status CodeUnimplemented "invalid command".

(** [err.Error()]; a context is only ever given a timeout here. The text of an
    error of the operating system is [io]. *)
Definition Error (io : string) (e : error) : string :=
  match e with
  | Status _ message => message
  | RaftNotLeader => "raft: not leader"
  | HotStuffNotLeader => "hotstuff: not leader"
  | HotStuffBusy => "hotstuff: leader busy: previous block's QC not formed"
  | HotStuffUnknownBlock => "hotstuff: unknown block"
  | WalBusy => "wal: busy, retry later"
  | WalClosed => "wal: closed"
  | BTreeNotFound => "btree: expiration entry not found"
  | CtxDone => "context deadline exceeded"
  | IOError => io
  | Wrapped text => text
  end.

(** The quote character. *)
Definition q : string := String (Ascii.ascii_of_nat 34) EmptyString.

Section protocol.
Context {PJ : ProtoJson}.

(** ** parser.go *)

Definition DeSerializeCommand (data : bytes) : result Command :=
  match data with
  | [] => Err ErrInvalidRequest
  | _ =>
      match json_uncommand data with
      | Some cmd => Ok cmd
      | None => Err ErrInvalidRequest
      end
  end.

Definition Serialize (cmd : Command) : result bytes :=
  match json_command cmd with
  | Ok b => Ok b
  | Err _ => Err ErrInvalidRequest
  end.

(** [statusBytes] (internal/server/errors.go). *)
Definition statusBytes (io : string) (e : error) : bytes :=
  let code := match e with Status c _ => c | _ => CodeUnknown end in
  match json_status (code, Error io e) with
  | Ok b => b
  | Err _ =>
      String.list_ascii_of_string
        ("{" +:+ q +:+ "code" +:+ q +:+ ":13," +:+ q +:+ "message" +:+ q +:+ ":" +:+
         q +:+ "internal error" +:+ q +:+ "}")
  end.
End protocol.

(** ** strings.TrimSpace

    Unicode white space in UTF-8: six ASCII characters, two of two bytes and
    seventeen of three. *)

Definition byte_is (n : nat) (c : Ascii.ascii) : bool := (Ascii.nat_of_ascii c =? n)%nat.

Definition space1 (c : Ascii.ascii) : bool :=
  let n := Ascii.nat_of_ascii c in ((9 <=? n) && (n <=? 13) || (n =? 32))%nat%bool.
Definition space2 (c d : Ascii.ascii) : bool :=
  byte_is 194 c && (byte_is 133 d || byte_is 160 d).
Definition space3 (c d e : Ascii.ascii) : bool :=
  let n := Ascii.nat_of_ascii e in
  (byte_is 225 c && byte_is 154 d && byte_is 128 e) ||
  (byte_is 226 c && byte_is 128 d &&
     ((128 <=? n) && (n <=? 138) || (n =? 168) || (n =? 169) || (n =? 175))%nat%bool) ||
  (byte_is 226 c && byte_is 129 d && byte_is 159 e) ||
  (byte_is 227 c && byte_is 128 d && byte_is 128 e).

(** Trim the front; [s2] and [s3] recognise the multi-byte spaces in the
    direction of the list. *)
Fixpoint trimLeft (s2 : Ascii.ascii -> Ascii.ascii -> bool)
    (s3 : Ascii.ascii -> Ascii.ascii -> Ascii.ascii -> bool) (l : bytes) : bytes :=
  match l with
  | [] => []
  | c :: l1 =>
      if space1 c then trimLeft s2 s3 l1
      else match l1 with
           | [] => l
           | d :: l2 =>
               if s2 c d then trimLeft s2 s3 l2
               else match l2 with
                    | [] => l
                    | e :: l3 => if s3 c d e then trimLeft s2 s3 l3 else l
                    end
           end
  end.

Definition TrimSpace (l : bytes) : bytes :=
  rev (trimLeft (fun c d => space2 d c) (fun c d e => space3 e d c)
        (rev (trimLeft space2 space3 l))).

(** ** pkg/client *)

Section client.
Context {PJ : ProtoJson}.

(** The reply line, as [SendCommand] reads it. *)
Definition readReply (line : bytes) : result bytes :=
  let response := TrimSpace line in
  match json_unstatus response with
  | Some (code, message) =>
      if negb (code =? 0)%N then Err (Status code message) else Ok response
  | None => Ok response
  end.

(** [conn] stands for the connection: the line read back for what was
    written, or the error of the write or of the read. *)
Definition SendCommand (conn : bytes -> result bytes) (cmd : Command) : result bytes :=
  match Serialize cmd with
  | Err e => Err e
  | Ok data =>
      match conn (data ++ [nl]) with
      | Err e => Err e
      | Ok line => readReply line
      end
  end.
End client.

(** [strings.CutPrefix]. *)
Fixpoint CutPrefix (s prefix : string) {struct prefix} : option string :=
  match prefix, s with
  | EmptyString, _ => Some s
  | String a prefix', String b s' => if Ascii.eqb a b then CutPrefix s' prefix' else None
  | String _ _, EmptyString => None
  end.

Definition RedirectLeader (e : error) : option string :=
  match e with
  | Status code message =>
      if negb (code =? CodeUnavailable)%N then None
      else match CutPrefix message "not leader: " with
           | Some addr => if String.eqb addr "" then None else Some addr
           | None => None
           end
  | _ => None
  end.

(** ** Lemmas *)

Lemma CutPrefix_app (p s : string) : CutPrefix (p +:+ s) p = Some s.
Proof. induction p as [|a p IH]; simpl; [done|]. by rewrite Ascii.eqb_refl. Qed.

Lemma RedirectLeader_status (a : string) :
  a <> "" -> RedirectLeader (Status CodeUnavailable ("not leader: " +:+ a)) = Some a.
Proof.
  intros H. unfold RedirectLeader. rewrite CutPrefix_app. by rewrite (proj2 (String.eqb_neq _ _)).
Qed.

Lemma CutPrefix_Some (s p r : string) : CutPrefix s p = Some r -> s = p +:+ r.
Proof.
  revert s. induction p as [|a p IH]; intros s; simpl; [by intros [= ->]|].
  destruct s as [|b s]; [done|]. destruct (Ascii.eqb_spec a b) as [->|]; [|done].
  intros H%IH. by rewrite H.
Qed.

(** A character that is no white space and no lead or final byte of one. *)
Definition solid (c : Ascii.ascii) : bool :=
  negb (space1 c) && (Ascii.nat_of_ascii c <? 128)%nat.

Lemma solid_not (c : Ascii.ascii) (n : nat) : solid c = true -> 128 <= n -> byte_is n c = false.
Proof. unfold solid, byte_is. intros H Hn. bool_to_prop. apply Nat.eqb_neq. lia. Qed.

Lemma solid_space2 (c d : Ascii.ascii) : solid c = true -> space2 c d = false /\ space2 d c = false.
Proof.
  intros H. unfold space2. rewrite !(solid_not c) by (done || lia). by rewrite !andb_false_r.
Qed.

Lemma solid_space3 (c d e : Ascii.ascii) : solid c = true -> space3 c d e = false /\ space3 e d c = false.
Proof.
  intros H. assert (Ascii.nat_of_ascii c < 128) as Hc by (unfold solid in H; bool_to_prop; lia).
  unfold space3. rewrite !(solid_not c) by (done || lia).
  rewrite (proj2 (Nat.leb_gt 128 (Ascii.nat_of_ascii c)) Hc).
  rewrite !(proj2 (Nat.eqb_neq (Ascii.nat_of_ascii c) _)) by lia.
  by rewrite !andb_false_r, !andb_false_l, !orb_false_r.
Qed.

Lemma trimLeft_solid s2 s3 c l :
  solid c = true -> (forall d, s2 c d = false) -> (forall d e, s3 c d e = false) ->
  trimLeft s2 s3 (c :: l) = c :: l.
Proof.
  intros Hc H2 H3. simpl. unfold solid in Hc. apply andb_true_iff in Hc as [Hc _].
  apply negb_true_iff in Hc. rewrite Hc. destruct l as [|d [|e l]]; [done| |].
  - by rewrite H2.
  - by rewrite H2, H3.
Qed.

(** A framed object survives the client's trimming. *)
Lemma TrimSpace_object (b : bytes) : json_object b -> TrimSpace (b ++ [nl]) = b.
Proof.
  intros (_ & m & ->). unfold TrimSpace. simpl app.
  rewrite (trimLeft_solid space2 space3);
    [|done|intros; by apply (solid_space2 "{")|intros; by apply (solid_space3 "{")].
  replace (rev ("{"%char :: (m ++ ["}"%char]) ++ [nl])) with (nl :: "}"%char :: rev ("{"%char :: m))
    by (simpl; by rewrite !rev_app_distr).
  set (s2 := fun c d => space2 d c). set (s3 := fun c d e => space3 e d c).
  change (trimLeft s2 s3 (nl :: "}"%char :: rev ("{"%char :: m)))
    with (trimLeft s2 s3 ("}"%char :: rev ("{"%char :: m))).
  rewrite (trimLeft_solid s2 s3);
    [|done|intros; by apply (solid_space2 "}")|intros; by apply (solid_space3 "}")].
  simpl. by rewrite rev_app_distr, rev_involutive.
Qed.

(** ** A concrete codec

    A tag and the value's binary code between braces. *)

#[export] Instance CommandType_countable : Countable CommandType.
Proof.
  apply (inj_countable'
    (fun t => match t with
      | GET => inl 0 | PUT => inl 1 | DEL => inl 2 | ALV => inl 3 | TTL => inl 4 | JOIN => inl 5
      | OtherCommand s => inr s end : nat + string)
    (fun x => match x with
      | inl 0 => GET | inl 1 => PUT | inl 2 => DEL | inl 3 => ALV | inl 4 => TTL | inl _ => JOIN
      | inr s => OtherCommand s end)).
  by intros [].
Defined.

#[export] Instance Command_countable : Countable Command.
Proof.
  apply (inj_countable' (fun c => (CType c, CKey c, CVal c, CTTL c))
    (fun '(t, k, v, z) => mkCommand t k v z)). by intros [].
Defined.

Definition frame (tag : Ascii.ascii) (b : bytes) : bytes := "{"%char :: (tag :: b) ++ ["}"%char].

Definition unframe (tag : Ascii.ascii) (b : bytes) : option bytes :=
  match b with
  | o :: t :: rest =>
      if (Ascii.eqb o "{" && Ascii.eqb t tag && bool_decide (last rest = Some "}"%char))%bool
      then Some (take (length rest - 1) rest) else None
  | _ => None
  end.

Lemma unframe_frame (tag : Ascii.ascii) (b : bytes) : unframe tag (frame tag b) = Some b.
Proof.
  unfold unframe, frame. simpl. rewrite Ascii.eqb_refl, last_snoc, bool_decide_true by done. simpl.
  rewrite length_app, take_app_le by (simpl; lia). simpl. by rewrite take_ge by lia.
Qed.

#[export] Instance BitProtoJson : ProtoJson := {|
  json_command c := Ok (frame "C" (write_bits (encode c)));
  json_uncommand b := unframe "C" b ≫= read_value;
  json_status s := Ok (frame "S" (write_bits (encode s)));
  json_unstatus b :=
    match unframe "C" b with
    | Some _ => Some (0%N, "")
    | None => unframe "S" b ≫= read_value
    end
|}.

Lemma frame_object (tag : Ascii.ascii) (b : bytes) : tag <> nl -> (nl ∉ b) -> json_object (frame tag b).
Proof.
  intros Ht Hb. split; [|by exists (tag :: b)]. unfold frame.
  rewrite elem_of_cons, elem_of_app, elem_of_cons, list_elem_of_singleton.
  intros [H|[[H|H]|H]]; [discriminate H|congruence|done|discriminate H].
Qed.

#[export] Program Instance BitProtoJson_laws : ProtoJsonLaws BitProtoJson := {|
  cmd_fits _ := True;
  status_fits _ := True
|}.
Next Obligation.
  intros c _. eexists. split; [reflexivity|]. cbn [json_uncommand json_unstatus BitProtoJson]. split_and!.
  - apply frame_object; [done|apply write_bits_line].
  - pose proof (unframe_frame "C" (write_bits (encode c))) as H. rewrite H.
    simpl. unfold read_value. rewrite read_write_bits. apply decode_encode.
  - pose proof (unframe_frame "C" (write_bits (encode c))) as H. by rewrite H.
Qed.
Next Obligation.
  intros s _. eexists. split; [reflexivity|]. split.
  - apply frame_object; [done|apply write_bits_line].
  - change (json_unstatus (frame "S" (write_bits (encode s))))
      with (unframe "S" (frame "S" (write_bits (encode s))) ≫= (read_value (A := Code * string))).
    rewrite unframe_frame. simpl. unfold read_value. rewrite read_write_bits. apply decode_encode.
Qed.
