(* ===== verification/Handler.v ===== *)
(** * Serving clients (internal/server: handler.go, server.go, cluster_control.go)

    The request handlers over any [store.Store], and a connection's loop. A
    handler's state is the store's; what the world contributes to a call (clock
    readings, a cluster's progress) is its environment [E]. [None] is a panic. *)

From S2P Require Import Prelude WalTypes BTree Expiration Store Protocol.

(** ** The [store.Store] interface (internal/store/store.go) *)

Class StoreIface (St E : Type) : Type := {
  st_get : E -> St -> string -> option (result string * St);
  st_put : E -> St -> string -> string -> option (option error * St);
  st_delete : E -> St -> string -> option (option error * St);
  st_ttl : E -> St -> string -> Z -> option (option error * St);
  st_alive : St -> string;
  st_leader : St -> string
}.

(** The standalone store; its environment is the two clock readings an
    operation makes. *)
#[export] Instance CacheyStore_iface {I W : Type} `{!ExpirationIndex I} `{!Wal W} :
    StoreIface (CacheyStore I W) (Z * Z) := {|
  st_get e s k := Store.Get s e.1 e.2 k;
  st_put _ s k v := Store.Put s k v;
  st_delete e s k := Store.Delete s e.2 k;
  st_ttl e s k t := Store.TTL s e.1 e.2 k t;
  st_alive s := Store.Alive s;
  st_leader s := Store.Leader s
|}.

(** ** The reserved registry (cluster_control.go) *)

Definition MemberKeyPrefix : string := "member/".
Definition MemberKey (id : string) : string := MemberKeyPrefix +:+ id.
Definition isRegistryKey (key : string) : bool := String.prefix MemberKeyPrefix key.

Section handler.
Context {St E : Type} {ST : StoreIface St E} {PJ : ProtoJson}.
Implicit Types (s : St) (e : E) (c : Command).

(** ** CacheyHandler (handler.go) *)

Definition redirectOr s (err : error) : error :=
  match err with
  | RaftNotLeader =>
      if negb (String.eqb (st_leader s) "")
      then Status CodeUnavailable ("not leader: " +:+ st_leader s)
      else Status CodeUnavailable "not leader"
  | _ => err
  end.

(** The reply of a mutation: the command itself, or the error. *)
Definition reply_or s c (err : option error) : result bytes :=
  match err with
  | Some er => Err (redirectOr s er)
  | None => Serialize c
  end.

Definition CacheyHandler_HandleRequest e s (data : bytes) : option (result bytes * St) :=
  match DeSerializeCommand data with
  | Err er => Some (Err er, s)
  | Ok cmd =>
      match CType cmd with
      | GET =>
          '(r, s') ← st_get e s (CKey cmd);
          Some (match r with
                | Err er => Err (redirectOr s' er)
                | Ok value => Serialize (set_CVal value cmd)
                end, s')
      | PUT => '(er, s') ← st_put e s (CKey cmd) (CVal cmd); Some (reply_or s' cmd er, s')
      | DEL => '(er, s') ← st_delete e s (CKey cmd); Some (reply_or s' cmd er, s')
      | TTL => '(er, s') ← st_ttl e s (CKey cmd) (CTTL cmd); Some (reply_or s' cmd er, s')
      | ALV => Some (Serialize (set_CVal (st_alive s) cmd), s)
      | JOIN | OtherCommand _ => Some (Err ErrInvalidCommand, s)
      end
  end.

(** ** ClusterHandler (cluster_control.go)

    [quote] is the [%q] verb of the fmt package. *)

Definition reserved (quote : string -> string) (key : string) : error :=
  Status CodeInvalidArgument ("key " +:+ quote key +:+ " is reserved").

Definition ClusterHandler_HandleRequest (quote : string -> string) e s (data : bytes)
    : option (result bytes * St) :=
  match DeSerializeCommand data with
  | Err er => Some (Err er, s)
  | Ok cmd =>
      match CType cmd with
      | JOIN =>
          Some (Err (Status CodeInvalidArgument
            "JOIN is a control-plane command carried on the raft transport"), s)
      | GET | PUT | DEL | TTL =>
          if isRegistryKey (CKey cmd) then Some (Err (reserved quote (CKey cmd)), s)
          else CacheyHandler_HandleRequest e s data
      | _ => CacheyHandler_HandleRequest e s data
      end
  end.
End handler.

(** ** A connection (server.go)

    [bufio.Scanner] with its defaults: lines without their end, a final
    unterminated line included; a line of 65536 bytes or more stops it. *)

Definition maxToken : N := 65536.

Definition dropCR (rev_line : bytes) : bytes :=
  match rev_line with
  | c :: l => if byte_is 13 c then rev l else rev rev_line
  | [] => []
  end.

(** [acc] holds the [n] bytes of the current line, reversed. *)
Fixpoint scanLines (acc : bytes) (n : N) (l : bytes) : list bytes :=
  match l with
  | [] => match acc with [] => [] | _ => [dropCR acc] end
  | c :: l' =>
      if Ascii.eqb c nl then dropCR acc :: scanLines [] 0 l'
      else if (maxToken <=? n + 1)%N then []
      else scanLines (c :: acc) (n + 1) l'
  end.

Section connection.
Context {St E : Type} {PJ : ProtoJson}.
Context (io : string) (handle : E -> St -> bytes -> option (result bytes * St)).

Definition replyBytes (r : result bytes) : bytes :=
  match r with
  | Ok resp => resp
  | Err err => statusBytes io err
  end.

(** The loop of the connection's goroutine: [envs] gives each request its
    environment and whether the write of its reply succeeds; the result is
    what was written, line by line. *)
Fixpoint serveLines (envs : nat -> E * bool) (s : St) (lines : list bytes)
    : option (list bytes * St) :=
  match lines with
  | [] => Some ([], s)
  | data :: rest =>
      '(r, s') ← handle (envs 0).1 s data;
      if (envs 0).2 then
        '(out, s'') ← serveLines (fun k => envs (1 + k)) s' rest;
        Some ((replyBytes r ++ [nl]) :: out, s'')
      else Some ([], s')
  end.

Definition serveConn (envs : nat -> E * bool) (s : St) (input : bytes)
    : option (list bytes * St) :=
  serveLines envs s (scanLines [] 0 input).
End connection.
