(* ===== verification/ServerThms.v ===== *)
(** * Serving clients: the properties

    What a client reads back is what the store did, and the registry of cluster
    members is out of a client's reach. *)

From S2P Require Import Prelude WalTypes BTree Expiration Store StoreProps Protocol Handler.

(** ** The specification of a request *)

Section spec.
Context {St E : Type} {ST : StoreIface St E}.

(** What a request means: the operation of the store it names, answered with
    the command (for GET and ALV with the value in it) or an error. *)
Definition exec (e : E) (s : St) (c : Command) : option (result Command * St) :=
  let mutation (o : option (option error * St)) :=
    '(er, s') ← o;
    Some (match er with Some x => Err (redirectOr s' x) | None => Ok c end, s') in
  match CType c with
  | GET =>
      '(r, s') ← st_get e s (CKey c);
      Some (match r with Ok v => Ok (set_CVal v c) | Err x => Err (redirectOr s' x) end, s')
  | PUT => mutation (st_put e s (CKey c) (CVal c))
  | DEL => mutation (st_delete e s (CKey c))
  | TTL => mutation (st_ttl e s (CKey c) (CTTL c))
  | ALV => Some (Ok (set_CVal (st_alive s) c), s)
  | JOIN | OtherCommand _ => Some (Err ErrInvalidCommand, s)
  end.

(** Requests executed one after the other. *)
Fixpoint exec_all (envs : nat -> E * bool) (s : St) (cs : list Command)
    : option (list (result Command) * St) :=
  match cs with
  | [] => Some ([], s)
  | c :: cs' =>
      '(r, s') ← exec (envs 0).1 s c;
      '(rs, s'') ← exec_all (fun k => envs (1 + k)) s' cs';
      Some (r :: rs, s'')
  end.
End spec.

Definition status_of (io : string) (e : error) : Code * string :=
  (match e with Status c _ => c | _ => CodeUnknown end, Error io e).

(** A connection to a server whose store is [s]: the first line it writes back. *)
Definition dial {St E : Type} {PJ : ProtoJson} (io : string)
    (handle : E -> St -> bytes -> option (result bytes * St)) (e : E) (s : St) (w : bytes) : result bytes :=
  match serveConn io handle (fun _ => (e, true)) s w with
  | Some (line :: _, _) => Ok line
  | _ => Err IOError
  end.

Section server_thms.
Context {St E : Type} {ST : StoreIface St E} {PJ : ProtoJson} {PL : ProtoJsonLaws PJ}.
Context (io : string).
#[local] Set Default Proof Using "All".

(** A request that fits the codec and the scanner's line limit. *)
Definition sendable (c : Command) : Prop :=
  cmd_fits c /\ forall b, json_command c = Ok b -> (N.of_nat (length b) < maxToken)%N.

Definition reply_fits (r : result Command) : Prop :=
  match r with
  | Ok c => cmd_fits c
  | Err e => status_fits (status_of io e) /\ (status_of io e).1 <> 0%N
  end.

(** The client reads the reply [r] off the line. *)
Definition answers (r : result Command) (line : bytes) : Prop :=
  match r with
  | Ok c => exists b, readReply line = Ok b /\ json_uncommand b = Some c
  | Err e => readReply line = Err (Status (status_of io e).1 (status_of io e).2)
  end.

(** What a client that sends [cs] writes. *)
Definition request_stream (cs : list Command) : bytes :=
  concat (map (fun c => match Serialize c with Ok b => b ++ [nl] | Err _ => [] end) cs).

Lemma Serialize_ok c :
  cmd_fits c -> exists b, Serialize c = Ok b /\ json_command c = Ok b /\ json_object b /\
    json_uncommand b = Some c /\ json_unstatus b = Some (0%N, "").
Proof.
  intros H. destruct (json_command_ok c H) as (b & E1 & Ho & E2 & E3).
  exists b. unfold Serialize. by rewrite E1.
Qed.

Lemma DeSerialize_object b c :
  json_object b -> json_uncommand b = Some c -> DeSerializeCommand b = Ok c.
Proof. intros (_ & m & ->) H. unfold DeSerializeCommand. by rewrite H. Qed.

Lemma HandleRequest_exec e s b c :
  json_object b -> json_uncommand b = Some c ->
  CacheyHandler_HandleRequest e s b =
    ('(r, s') ← exec e s c; Some (match r with Ok c' => Serialize c' | Err x => Err x end, s')).
Proof.
  intros Hb Hc. unfold CacheyHandler_HandleRequest, exec, reply_or.
  rewrite (DeSerialize_object b c) by done.
  destruct (CType c); try done;
    match goal with |- (?o ≫= _) = _ => destruct o as [[x ?]|] end; try done; simpl; by destruct x.
Qed.

Lemma reply_answers r :
  reply_fits r ->
  answers r (replyBytes io (match r with Ok c' => Serialize c' | Err x => Err x end) ++ [nl]).
Proof.
  destruct r as [c|e]; simpl.
  - intros Hc. destruct (Serialize_ok c Hc) as (b & -> & _ & Ho & E1 & E2). simpl.
    exists b. unfold readReply. rewrite TrimSpace_object, E2 by done. done.
  - intros [Hs Hz]. destruct (json_status_ok _ Hs) as (b & E1 & Ho & E2). 
    replace (statusBytes io e) with b by (unfold statusBytes; fold (status_of io e); by rewrite E1).
    unfold readReply.
    rewrite TrimSpace_object, E2 by done. rewrite (surjective_pairing (status_of io e)).
    rewrite (proj2 (N.eqb_neq _ _)) by done. done.
Qed.

Lemma scanLines_line acc n b l :
  (nl ∉ b) -> (n + N.of_nat (length b) < maxToken)%N ->
  scanLines acc n (b ++ nl :: l) = dropCR (rev b ++ acc) :: scanLines [] 0 l.
Proof.
  revert acc n. induction b as [|c b IH]; intros acc n Hb Hn; [done|].
  apply not_elem_of_cons in Hb as [Hc Hb]. simpl in Hn |- *.
  destruct (Ascii.eqb_spec c nl); [congruence|].
  destruct (N.leb_spec maxToken (n + 1)); [lia|].
  rewrite IH by (done || lia). by rewrite <- app_assoc.
Qed.

Lemma scanLines_object b l :
  json_object b -> (N.of_nat (length b) < maxToken)%N ->
  scanLines [] 0 (b ++ nl :: l) = b :: scanLines [] 0 l.
Proof.
  intros Ho Hl. rewrite scanLines_line by (done || apply Ho). f_equal.
  destruct Ho as (_ & m & ->). rewrite app_nil_r, app_comm_cons, rev_app_distr. simpl.
  by rewrite rev_app_distr, rev_involutive.
Qed.

(** C28: requests sent over one connection, however many at once, are executed
    in order, and each gets one reply line, in the same order, from which the
    client reads the command with its result or the status of the store's
    error (errors without a status as code 2). A reply echoes the request: the
    one to TTL carries the lifetime asked for. This holds when every request
    fits the codec and is shorter than the scanner's limit of 65536 bytes, every
    reply fits the codec, an error's status code is not 0, and every write to
    the connection succeeds. *)
Theorem pipeline_correct envs s cs rs s' :
  Forall sendable cs -> exec_all envs s cs = Some (rs, s') -> Forall reply_fits rs ->
  (forall k, (envs k).2 = true) ->
  exists out, serveConn io CacheyHandler_HandleRequest envs s (request_stream cs) = Some (out, s') /\
    Forall2 answers rs out.
Proof.
  intros Hcs He Hrs Hw. revert envs s rs He Hrs Hw.
  induction Hcs as [|c cs [Hf Hl] Hcs IH]; intros envs s rs He Hrs Hw; simpl in He.
  { simplify_eq. by exists []. }
  destruct (exec (envs 0).1 s c) as [[r s1]|] eqn:E1; simpl in He; [|done].
  destruct (exec_all (fun k => envs (S k)) s1 cs) as [[rs1 s2]|] eqn:E2; simplify_eq/=.
  apply Forall_cons in Hrs as [Hr Hrs].
  destruct (IH _ s1 rs1 E2 Hrs (fun k => Hw (S k))) as (out & E3 & Hout).
  destruct (Serialize_ok c Hf) as (b & Es & Ej & Ho & Eu & _).
  unfold serveConn, request_stream. simpl. rewrite Es, <- app_assoc. simpl.
  rewrite scanLines_object by auto. simpl.
  rewrite (HandleRequest_exec _ s b c Ho Eu), E1. simpl. rewrite Hw.
  unfold serveConn in E3. fold (request_stream cs). rewrite E3. simpl.
  eexists. split; [done|]. constructor; [by apply reply_answers|done].
Qed.

(** A request that reaches a follower brings the client to the leader:
    when the store reports that it is not the leader and knows the leader's
    address, [RedirectLeader] of the error that [SendCommand] returns is that
    address. *)
Theorem redirect_reaches_client e s s' c :
  sendable c ->
  exec e s c = Some (Err (redirectOr s' RaftNotLeader), s') -> st_leader s' <> "" ->
  status_fits (CodeUnavailable, "not leader: " +:+ st_leader s') ->
  exists err,
    SendCommand (dial io CacheyHandler_HandleRequest e s) c = Err err /\
    RedirectLeader err = Some (st_leader s').
Proof.
  intros [Hf Hl] He Hne Hs. destruct (Serialize_ok c Hf) as (b & Es & Ej & Ho & Eu & _).
  set (m := "not leader: " +:+ st_leader s') in *.
  assert (redirectOr s' RaftNotLeader = Status CodeUnavailable m) as Hrd.
  { unfold redirectOr. by rewrite (proj2 (String.eqb_neq _ _)). }
  rewrite Hrd in He. pose proof (reply_answers (Err (Status CodeUnavailable m))) as Ha.
  exists (Status CodeUnavailable m). unfold SendCommand. rewrite Es. unfold dial, serveConn.
  rewrite scanLines_object by auto. simpl. rewrite (HandleRequest_exec _ s b c Ho Eu), He. simpl.
  split; [by apply Ha|by apply RedirectLeader_status].
Qed.

(** C30: a client of a cluster node cannot reach the membership registry: any
    request, whatever its bytes, either leaves the store as it is or runs one
    operation on a key outside the registry, so a relation between states that
    such operations respect holds across the request; a GET, PUT, DEL or TTL
    that names a registry key, and a JOIN with any key, is refused as an invalid
    argument with the store unchanged. *)
Theorem registry_protected (quote : string -> string) (R : St -> St -> Prop) e s data r s' :
  (forall s1, R s1 s1) ->
  (forall e1 s1 s2 k x, isRegistryKey k = false -> st_get e1 s1 k = Some (x, s2) -> R s1 s2) ->
  (forall e1 s1 s2 k v x, isRegistryKey k = false -> st_put e1 s1 k v = Some (x, s2) -> R s1 s2) ->
  (forall e1 s1 s2 k x, isRegistryKey k = false -> st_delete e1 s1 k = Some (x, s2) -> R s1 s2) ->
  (forall e1 s1 s2 k t x, isRegistryKey k = false -> st_ttl e1 s1 k t = Some (x, s2) -> R s1 s2) ->
  ClusterHandler_HandleRequest quote e s data = Some (r, s') ->
  R s s' /\
  (forall c, json_uncommand data = Some c ->
     CType c = JOIN \/ isRegistryKey (CKey c) = true /\ CType c ∈ [GET; PUT; DEL; TTL] ->
     s' = s /\ exists m, r = Err (Status CodeInvalidArgument m)).
Proof using Type.
  intros Hrefl Hg Hp Hd Ht H. unfold ClusterHandler_HandleRequest, CacheyHandler_HandleRequest in H.
  destruct (DeSerializeCommand data) as [c|er] eqn:Ed; simplify_eq/=.
  - assert (json_uncommand data = Some c) as Hu.
    { unfold DeSerializeCommand in Ed. repeat case_match; by simplify_eq. }
    split.
    + destruct (CType c), (isRegistryKey (CKey c)) eqn:Ek; simplify_eq/=; auto;
        match type of H with (?o ≫= _) = _ => destruct o as [[? ?]|] eqn:Eo end; simplify_eq/=; eauto.
    + intros c' Hc' Hcase. simplify_eq. destruct Hcase as [Hj|[Hk Hin]]; [rewrite Hj in H; simplify_eq/=; eauto|].
      rewrite Hk in H. repeat (apply elem_of_cons in Hin as [Hin|Hin]; [rewrite Hin in H; by simplify_eq/=; eauto|]).
      by apply elem_of_nil in Hin.
  - split; [done|]. intros c Hc _. unfold DeSerializeCommand in Ed.
    repeat case_match; simplify_eq. split; [done|]. by eexists.
Qed.
End server_thms.

(** ** Concrete runs *)

Section frame.
Context {I W : Type} {EI : ExpirationIndex I} {WW : Wal W}.
Implicit Types s : CacheyStore I W.

Lemma unindex_same s exp k s' : unindex s exp k = Some s' -> data s' = data s.
Proof.
  unfold unindex. destruct (idx_delete (index s) exp k) as [[]|]; simpl; [|done].
  by intros [= <-].
Qed.

Lemma unindex_if s (b : bool) exp k s' :
  (if b then unindex s exp k else Some s) = Some s' -> data s' = data s.
Proof. destruct b; [apply unindex_same|by intros [= ->]]. Qed.

Lemma appendWAL_same s r s' e : appendWAL s r = (s', e) -> data s' = data s.
Proof. unfold appendWAL. repeat case_match; intros; by simplify_eq. Qed.

Lemma deleteLocked_frame s now k x s' k' :
  k' <> k -> deleteLocked s now k = Some (x, s') -> data s' !! k' = data s !! k'.
Proof.
  intros Hk. unfold deleteLocked. destruct (data s !! k) as [en|]; [|by intros [= _ <-]].
  destruct (if negb (EExp en =? 0)%Z then _ else _) as [s2|] eqn:E; simpl; [|done].
  intros [= _ <-]. apply unindex_if in E. rewrite E. simpl. by rewrite lookup_delete_ne.
Qed.

Lemma ttlAtLocked_frame s now k exp x s' k' :
  k' <> k -> ttlAtLocked s now k exp = Some (x, s') -> data s' !! k' = data s !! k'.
Proof.
  intros Hk. unfold ttlAtLocked. destruct (data s !! k) as [en|]; [|by intros [= _ <-]].
  destruct (if negb (EExp en =? 0)%Z then _ else _) as [s1|] eqn:E; simpl; [|done].
  apply unindex_if in E. destruct (isExpired now en).
  - intros [= _ <-]. simpl. by rewrite lookup_delete_ne, E.
  - destruct (idx_insert (index s1) exp k); simpl; [|done]. intros [= _ <-]. simpl.
    by rewrite lookup_insert_ne, E.
Qed.

(** An operation of the standalone store on [k] leaves every other key alone. *)
Lemma Get_frame s e k x s' k' :
  k' <> k -> st_get e s k = Some (x, s') -> data s' !! k' = data s !! k'.
Proof.
  intros Hk. simpl. unfold Get, expireKey. repeat (case_match; simpl); intros; simplify_eq/=; try done.
  destruct (unindex _ _ _) as [s2|] eqn:E; simplify_eq/=. apply unindex_same in E. rewrite E. simpl.
  by rewrite lookup_delete_ne.
Qed.

Lemma Put_frame s (e : Z * Z) k v x s' k' :
  k' <> k -> st_put e s k v = Some (x, s') -> data s' !! k' = data s !! k'.
Proof.
  intros Hk. simpl. unfold Put, putLocked. destruct (appendWAL _ _) as [s1 [er|]] eqn:E1;
    apply appendWAL_same in E1; [intros [= _ <-]; by rewrite E1|].
  destruct (match data s1 !! k with Some _ => _ | None => _ end) as [s2|] eqn:E2; simpl; [|done].
  intros [= _ <-]. simpl. rewrite lookup_insert_ne by done. rewrite <- E1.
  destruct (data s1 !! k); [apply unindex_if in E2; by rewrite E2|by simplify_eq].
Qed.

Lemma Delete_frame s (e : Z * Z) k x s' k' :
  k' <> k -> st_delete e s k = Some (x, s') -> data s' !! k' = data s !! k'.
Proof.
  intros Hk. simpl. unfold Delete. destruct (data s !! k); [|by intros [= _ <-]].
  destruct (appendWAL _ _) as [s1 [er|]] eqn:E1; apply appendWAL_same in E1;
    [intros [= _ <-]; by rewrite E1|]. rewrite <- E1. by apply deleteLocked_frame.
Qed.

Lemma TTL_frame s (e : Z * Z) k t x s' k' :
  k' <> k -> st_ttl e s k t = Some (x, s') -> data s' !! k' = data s !! k'.
Proof.
  intros Hk. simpl. unfold Store.TTL. destruct (data s !! k); [|by intros [= _ <-]].
  destruct (appendWAL _ _) as [s1 [er|]] eqn:E1; apply appendWAL_same in E1;
    [intros [= _ <-]; by rewrite E1|]. rewrite <- E1. by apply ttlAtLocked_frame.
Qed.
End frame.

(** A standalone store on the B+-tree index, with a WAL that keeps its records. *)
Definition MemStore : Type := CacheyStore Index (list Record_).
#[local] Instance MemWal : Wal (list Record_) := fun w r => (w ++ [r], None).
Definition mem_store : MemStore := NewCacheyStore.

Definition sample_session : list Command :=
  [mkCommand PUT "k" "v" 0; mkCommand GET "k" "" 0; mkCommand GET "nope" "" 0].

Definition sample_envs (k : nat) : (Z * Z) * bool := ((10, 10)%Z, true).

Lemma pipeline_correct_witness :
  exists out s', serveConn "io" CacheyHandler_HandleRequest sample_envs mem_store
      (request_stream sample_session) = Some (out, s') /\
    Forall2 (answers "io")
      [Ok (mkCommand PUT "k" "v" 0); Ok (mkCommand GET "k" "v" 0); Err ErrorCodeInvalidKey] out.
Proof.
  destruct (exec_all sample_envs mem_store sample_session) as [[rs s']|] eqn:E;
    [|vm_compute in E; discriminate].
  assert (rs = [Ok (mkCommand PUT "k" "v" 0); Ok (mkCommand GET "k" "v" 0); Err ErrorCodeInvalidKey]) as Hrs.
  { vm_compute in E. by injection E as <- _. }
  destruct (pipeline_correct "io" sample_envs mem_store sample_session rs s') as (out & Hs & Ho).
  - repeat constructor; intros b Hb; vm_compute in Hb; injection Hb as <-; vm_compute; reflexivity.
  - exact E.
  - rewrite Hrs. repeat constructor; discriminate.
  - done.
  - exists out, s'. split; [exact Hs|]. by rewrite <- Hrs.
Defined.

(** A follower that knows its leader's address and serves nothing. *)
Definition Follower : Type := string.
#[local] Instance Follower_iface : StoreIface Follower unit := {|
  st_get _ s _ := Some (Err RaftNotLeader, s);
  st_put _ s _ _ := Some (Some RaftNotLeader, s);
  st_delete _ s _ := Some (Some RaftNotLeader, s);
  st_ttl _ s _ _ := Some (Some RaftNotLeader, s);
  st_alive _ := "ALIVE";
  st_leader s := s
|}.

Lemma redirect_reaches_client_witness :
  exists err, SendCommand (dial "io" CacheyHandler_HandleRequest () ("10.0.0.1:7000" : Follower))
      (mkCommand PUT "k" "v" 0) = Err err /\ RedirectLeader err = Some "10.0.0.1:7000".
Proof.
  destruct (redirect_reaches_client "io" () ("10.0.0.1:7000" : Follower) "10.0.0.1:7000"
    (mkCommand PUT "k" "v" 0)) as (err & H1 & H2).
  - split; [done|]. intros b Hb. vm_compute in Hb. injection Hb as <-. vm_compute. reflexivity.
  - reflexivity.
  - discriminate.
  - done.
  - exists err. split; [exact H1|exact H2].
Defined.

(** The registry's part of a store. *)
Definition same_registry (s1 s2 : MemStore) : Prop :=
  forall k, isRegistryKey k = true -> data s1 !! k = data s2 !! k.

Lemma registry_protected_witness :
  Forall (fun c => exists b r s', json_command c = Ok b /\
    ClusterHandler_HandleRequest (fun k => k) (10, 10)%Z mem_store b = Some (r, s') /\
    same_registry mem_store s' /\ s' = mem_store /\ exists m, r = Err (Status CodeInvalidArgument m))
    [mkCommand PUT (MemberKey "n1") "evil" 0; mkCommand JOIN "n1" "addresses" 0].
Proof.
  apply Forall_forall. intros c Hc.
  assert (exists b r s', json_command c = Ok b /\ json_uncommand b = Some c /\
    ClusterHandler_HandleRequest (fun k => k) (10, 10)%Z mem_store b = Some (r, s') /\
    (CType c = JOIN \/ isRegistryKey (CKey c) = true /\ CType c ∈ [GET; PUT; DEL; TTL]))
    as (b & r & s' & Eb & Eu & E & Hcase).
  { apply elem_of_cons in Hc as [->|Hc]; [|apply list_elem_of_singleton in Hc as ->];
      do 3 eexists; (split; [vm_compute; reflexivity|]); (split; [vm_compute; reflexivity|]);
      (split; [vm_compute; reflexivity|]); [right|left]; [|done]. split; [done|]. simpl. set_solver. }
  destruct (registry_protected (fun k => k) same_registry (10, 10)%Z mem_store b r s') as [HR Hk].
  - by intros s1 k.
  - intros e1 s1 s2 k x Hk H k' Hk'. symmetry. eapply Get_frame, H. congruence.
  - intros e1 s1 s2 k v x Hk H k' Hk'. symmetry. eapply Put_frame, H. congruence.
  - intros e1 s1 s2 k x Hk H k' Hk'. symmetry. eapply Delete_frame, H. congruence.
  - intros e1 s1 s2 k t x Hk H k' Hk'. symmetry. eapply TTL_frame, H. congruence.
  - exact E.
  - exists b, r, s'. split; [done|]. split; [done|]. split; [exact HR|]. by apply (Hk c).
Defined.
