(* ===== verification/ClusterStore.v ===== *)
(** * The replicated store (internal/server: cluster.go, raftnode.go, cluster_control.go)

    A cluster node serves clients through its Raft node: a write is proposed and
    acknowledged once applied, a read runs the read-index protocol and then reads
    the local store. While a call waits, the rest of the node runs: the waits
    take the inputs the node handles between two polls. *)

From S2P Require Import Prelude WalTypes BTree Expiration Store RaftLog Raft RaftProps RaftInstances RaftThms Protocol Handler.

(** ** The state machine of a Raft node (cluster.go, raftnode.go) *)

(** The cache store behind a Raft node, with the clock readings its next apply
    and its next snapshot make. [None]: an apply panicked. *)
Record Fsm (I W : Type) : Type := mkFsm {
  fstore : option (CacheyStore I W);
  applyClock : nat -> Z;
  snapClock : nat -> Z
}.
Arguments mkFsm {I W} _ _ _.
Arguments fstore {I W} _.
Arguments applyClock {I W} _.
Arguments snapClock {I W} _.

(** [encoding/json] on a list of snapshot entries. *)
Class EntriesJson : Type := {
  json_entries : list SnapshotEntry -> result bytes;
  json_unentries : bytes -> option (list SnapshotEntry)
}.

Section fsm.
Context {I W : Type} {EI : ExpirationIndex I} {WW : Wal W} {J : Json} {EJ : EntriesJson}.

Definition set_fstore (o : option (CacheyStore I W)) (f : Fsm I W) : Fsm I W :=
  mkFsm o (applyClock f) (snapClock f).

(** The clocks after an apply. *)
Definition tick_clocks (f : Fsm I W) : Fsm I W :=
  mkFsm (fstore f) (fun k => applyClock f (1 + k)) (fun k => snapClock f (1 + k)).

(** The function [NewRaftApply] returns: a command that does not decode, and an
    error of the store, are logged and change nothing. *)
Definition NewRaftApply (f : Fsm I W) (e : RaftLog.Entry) : Fsm I W :=
  match json_unrecord (default [] (eCommand e)) with
  | None => f
  | Some rec =>
      tick_clocks (set_fstore (s ← fstore f; '(_, s') ← ApplyRecord s (applyClock f 0) rec; Some s') f)
  end.

(** The snapshot callbacks of [OpenRaftNode]. *)
Definition takeSnapshot (f : Fsm I W) : result bytes :=
  match fstore f with
  | Some s => json_entries (Store.Snapshot s (snapClock f 0))
  | None => Err IOError
  end.

Definition installSnapshot (f : Fsm I W) (data : bytes) : option error * Fsm I W :=
  match json_unentries data with
  | None => (Some (Wrapped "invalid snapshot"), f)
  | Some entries => (None, set_fstore (s ← fstore f; ApplySnapshot s entries) f)
  end.

#[export] Instance Fsm_sm : StateMachine (Fsm I W) := {|
  sm_apply := NewRaftApply;
  sm_take := takeSnapshot;
  sm_install := installSnapshot
|}.
End fsm.

(** ** ClusterStore (cluster.go) *)

Section cluster.
Context {I W FW SS MS : Type}.
Context {EI : ExpirationIndex I} {WF : Wal FW} {WW : Wal W} {SSS : SnapshotStore SS} {MSS : MetaStore MS}.
Context {J : Json} {EJ : EntriesJson} {CJ : ConfigJson}.

Abbreviation Nd := (Node (Fsm I FW) W SS MS).

(** [WaitApplied] (raft.go): [polls] are the inputs the node handles between
    one check and the next; the context expires when they run out. *)
Fixpoint WaitApplied (n : Nd) (idx : nat) (polls : list (list input)) : option (option error * Nd) :=
  if applied n idx then Some (None, n)
  else match polls with
       | [] => Some (Some CtxDone, n)
       | evs :: polls' => n' ← raft_run n evs; WaitApplied n' idx polls'
       end.

Record ClusterStore : Type := mkClusterStore {
  cnode : Nd;
  addrOf : option (string -> string)
}.

Definition NewClusterStore (n : Nd) : ClusterStore := mkClusterStore n None.
Definition SetLeaderResolver (c : ClusterStore) (fn : string -> string) : ClusterStore :=
  mkClusterStore (cnode c) (Some fn).

(** What the world contributes to one call. *)
Record Env : Type := mkEnv {
  polls : list (list input);          (* while a write waits *)
  acks : list AppendEntriesReply;     (* the replies to a read's heartbeats *)
  allReturned : bool;                 (* whether those requests all returned *)
  now : Z; now' : Z                   (* clock readings *)
}.

Definition with_node (c : ClusterStore) (n : Nd) : ClusterStore := mkClusterStore n (addrOf c).

Definition propose (env : Env) (c : ClusterStore) (rec : Record_) : option (option error * ClusterStore) :=
  match json_record rec with
  | Err e => Some (Some e, c)
  | Ok cmd =>
      '(r, n) ← Propose (cnode c) cmd;
      match r with
      | Err e => Some (Some e, with_node c n)
      | Ok idx => '(e, n') ← WaitApplied n idx (polls env); Some (e, with_node c n')
      end
  end.

Definition cs_Get (env : Env) (c : ClusterStore) (key : string) : option (result string * ClusterStore) :=
  let '(r, n) := ReadIndex (cnode c) (acks env) (allReturned env) in
  match r with
  | Err e => Some (Err e, with_node c n)
  | Ok _ =>
      s ← fstore (fsm n);
      '(v, s') ← Store.Get s (now env) (now' env) key;
      Some (v, with_node c (set_fsm (set_fstore (Some s') (fsm n)) n))
  end.

Definition cs_Put (env : Env) (c : ClusterStore) (key value : string) :=
  propose env c (store_record OpPut key value 0).

Definition cs_Delete (env : Env) (c : ClusterStore) (key : string) :=
  propose env c (store_record OpDelete key "" 0).

Definition cs_TTL (env : Env) (c : ClusterStore) (key : string) (ttlMillis : Z) :=
  propose env c (store_record OpTTL key "" (int64_wrap (now env + ttlMillis))).

Definition cs_Leader (c : ClusterStore) : string :=
  match addrOf c with
  | None => ""
  | Some f => f (leaderID (cnode c))
  end.

#[export] Instance ClusterStore_iface : StoreIface ClusterStore Env := {|
  st_get := cs_Get;
  st_put := cs_Put;
  st_delete := cs_Delete;
  st_ttl := cs_TTL;
  st_alive _ := "ALIVE";
  st_leader := cs_Leader
|}.

(** ** The control plane (cluster_control.go) *)

Record JoinRequest : Type := mkJoinRequest { jID : string; jRaft : string; jClient : string }.

(** A control reply: an acknowledgement or a redirect to the leader. *)
Inductive ControlReply : Type :=
  | Joined (id : string)
  | joinRedirect (leader addr : string).

Definition isMember (n : Nd) (id : string) : bool := bool_decide (id ∈ VotersOf n).

Definition redirect (n : Nd) : result ControlReply :=
  let leader := leaderID n in
  let addr := if String.eqb leader "" then "" else default "" (addrs n !! leader) in
  if (String.eqb leader "" || String.eqb addr "")%bool
  then Err (Wrapped "join: no leader known")
  else Ok (joinRedirect leader addr).

(** Who joins: the certificate's identity when there is one, else the claim. *)
Definition joinID (peer : string) (req : JoinRequest) : result string :=
  if negb (String.eqb peer "") then
    if (negb (String.eqb (jID req) "") && negb (String.eqb (jID req) peer))%bool
    then Err (Wrapped ("join: certificate identity " +:+ peer +:+ " does not match claimed id " +:+ jID req))
    else Ok peer
  else Ok (jID req).

(** [decode] is [encoding/json] on a join request; [wait] are the inputs
    handled while the membership change is in flight. *)
Definition HandleControl (decode : bytes -> option JoinRequest) (io : string) (wait : list (list input))
    (env : Env) (c : ClusterStore) (peer : string) (data : bytes)
    : option (result ControlReply * ClusterStore) :=
  match decode data with
  | None => Some (Err (Wrapped "join: malformed request"), c)
  | Some req =>
      match joinID peer req with
      | Err e => Some (Err e, c)
      | Ok id =>
          if (String.eqb id "" || String.eqb (jRaft req) "" || String.eqb (jClient req) "")%bool
          then Some (Err (Wrapped "join: malformed request"), c)
          else if negb (IsLeader (cnode c)) then Some (redirect (cnode c), c)
          else
            '(err, c) ← (if isMember (cnode c) id then Some (None, c)
               else '(r, n) ← AddServer (cnode c) id (jRaft req);
                    match r with
                    | Err e => Some (Some e, with_node c n)
                    | Ok idx => '(e, n') ← WaitApplied n idx wait; Some (e, with_node c n')
                    end);
            match err with
            | Some e => Some (Err (Wrapped ("join: add " +:+ id +:+ ": " +:+ Error io e)), c)
            | None =>
                '(err, c) ← cs_Put env c (MemberKey id) (jClient req);
                match err with
                | Some e => Some (Err (Wrapped ("join: register " +:+ id +:+ ": " +:+ Error io e)), c)
                | None => Some (Ok (Joined id), c)
                end
            end
      end
  end.
End cluster.
