(* ===== verification/ClusterThms.v ===== *)
(** * The replicated store: its properties *)

From S2P Require Import Prelude WalTypes BTree Expiration Store RaftLog Raft RaftProps RaftInstances RaftThms RaftElection WalCodec Protocol Handler ClusterStore.

(** ** What a leader does to its log and its state machine *)

Section led.
Context {F W SS MS : Type}.
Context {SMF : StateMachine F} {WalW : Wal W} {SSS : SnapshotStore SS} {MSS : MetaStore MS}
  {J : Json} {CJ : ConfigJson}.
Implicit Types n : Node F W SS MS.

(** Between [n] and [n'] exactly the entries [es] were applied, in order; those
    that were in the log of [n] are the entries it had there, and what is not
    yet applied is still where it was. *)
Definition led_by n n' (es : list RaftLog.Entry) : Prop :=
  lastApplied n' = lastApplied n + length es /\
  fsm n' = foldl sm_apply (fsm n) (filter is_command es) /\
  log_lastIndex (nlog n) <= log_lastIndex (nlog n') /\
  (forall k e, es !! k = Some e -> lastApplied n + 1 + k <= log_lastIndex (nlog n) ->
     entryAt (nlog n) (lastApplied n + 1 + k) = Some e) /\
  (forall i, lastApplied n' < i <= log_lastIndex (nlog n) -> entryAt (nlog n') i = entryAt (nlog n) i).

Definition led n n' : Prop := exists es, led_by n n' es.

Lemma led_same n n' :
  nlog n' = nlog n -> lastApplied n' = lastApplied n -> fsm n' = fsm n -> led n n'.
Proof.
  intros Hl Ha Hf. exists []. unfold led_by. rewrite Hl, Ha, Hf. simpl.
  split_and!; try lia; auto. intros k e. by rewrite lookup_nil.
Qed.

Lemma led_by_trans n1 n2 n3 es es' :
  led_by n1 n2 es -> led_by n2 n3 es' -> led_by n1 n3 (es ++ es').
Proof.
  intros (Ha & Hf & Hl & He & Hk) (Ha' & Hf' & Hl' & He' & Hk'). unfold led_by.
  rewrite length_app, Ha', Ha, Hf', Hf, filter_app, foldl_app. split_and!; try lia; [done| |].
  - intros k e Hlk Hle. apply lookup_app_Some in Hlk as [Hlk|[Hlen Hlk]]; [by apply He|].
    rewrite <- Hk by lia. specialize (He' _ e Hlk).
    replace (lastApplied n1 + 1 + k) with (lastApplied n2 + 1 + (k - length es)) by lia.
    apply He'. lia.
  - intros i Hi. rewrite Hk' by lia. apply Hk. lia.
Qed.

Lemma led_trans n1 n2 n3 : led n1 n2 -> led n2 n3 -> led n1 n3.
Proof. intros [es H1] [es' H2]. exists (es ++ es'). by eapply led_by_trans. Qed.

Lemma led_after n n1 n2 :
  nlog n = nlog n1 -> lastApplied n = lastApplied n1 -> fsm n = fsm n1 -> led n1 n2 -> led n n2.
Proof. intros. eapply led_trans; [|done]. by apply led_same. Qed.

Lemma log_between_lookup l a k :
  log_ok l -> base l <= a -> a + k <= log_lastIndex l ->
  length (log_between l a k) = k /\
  forall j e, log_between l a k !! j = Some e -> entryAt l (a + 1 + j) = Some e.
Proof.
  intros Hl. revert a. induction k as [|k IH]; intros a Ha Hk.
  { unfold log_between. simpl. split; [done|]. intros j e. by rewrite lookup_nil. }
  destruct (entryAt_Some l (a + 1) Hl ltac:(lia)) as [e He].
  destruct (IH (a + 1) ltac:(lia) ltac:(lia)) as [Hlen Hlk].
  assert (log_between l a (S k) = e :: log_between l (a + 1) k) as ->.
  { unfold log_between. simpl. rewrite He. by replace (S (a + 1)) with (a + 1 + 1) by lia. }
  split; [simpl; by rewrite Hlen|]. intros [|j] x; simpl; [intros [= <-]; by rewrite Nat.add_0_r|].
  intros Hj%Hlk. by replace (a + 1 + S j) with (a + 1 + 1 + j) by lia.
Qed.

(** Applying the committed entries. *)
Lemma updateCommit_led n n' :
  log_ok (nlog n) -> base (nlog n) <= lastApplied n <= commitIndex n ->
  commitIndex n <= log_lastIndex (nlog n) ->
  updateCommitIndexLocked n = Some n' -> led n n'.
Proof.
  intros Hl Hb Hc E. destruct (updateCommit_ok n Hl Hb Hc) as (c & n1 & E1 & A & Hok & Hco & Hcc & Hf).
  assert (n1 = n') as -> by congruence. clear E E1.
  destruct A as (_&_&_&_&_&_&_&Hb'&Hli&He&_), Hok as (_&_&Hac&_). simpl in *.
  assert (lastApplied n <= c <= log_lastIndex (nlog n)) as Hcr by lia.
  exists (log_between (nlog n) (lastApplied n) (c - lastApplied n)). unfold led_by.
  destruct (log_between_lookup (nlog n) (lastApplied n) (c - lastApplied n) Hl) as [Hlen Hlk];
    [lia|lia|].
  rewrite Hlen, Hf, Hli. split_and!; try lia; [done| |].
  - intros k e Hk _. by apply Hlk in Hk.
  - intros i Hi. apply He. lia.
Qed.

(** Appending an entry: if it was taken, it sits at the returned index or has
    been applied from there. *)
Lemma appendEntry_led n e r n' :
  node_ok n -> appendEntryLocked n e = Some (r, n') ->
  exists n1, nlog n1 = log_append (nlog n) (match r with Ok _ => [e] | Err _ => [] end) /\
    lastApplied n1 = lastApplied n /\ fsm n1 = fsm n /\ led n1 n' /\
    (forall idx, r = Ok idx -> idx = log_lastIndex (nlog n) + 1).
Proof.
  intros (Hl & Hb & Hac & Hc). unfold appendEntryLocked.
  destruct (persistEntry_frame n (log_lastIndex (nlog n) + 1) e) as [w Hw].
  destruct (persistEntryLocked n _ e) as [n0 err]. simpl in Hw. subst n0. destruct err as [err|].
  { intros [= <- <-]. exists (set_logStore w n). simpl. split_and!; try done.
    - unfold log_append. rewrite app_nil_r. by destruct (nlog n).
    - by apply led_same. }
  destruct (updateCommitIndexLocked _) as [n2|] eqn:E; simpl; [|done]. intros [= <- <-].
  exists (set_log (log_append (nlog n) [e]) (set_logStore w n)). simpl. split_and!; try done;
    [|by intros idx [= <-]].
  apply (updateCommit_led _ _); simpl; rewrite ?lastIndex_append by done; try done; try lia.
  by apply log_ok_append.
Qed.

Lemma append_led n n1 n' es :
  node_ok n -> nlog n1 = log_append (nlog n) es -> lastApplied n1 = lastApplied n -> fsm n1 = fsm n ->
  led n1 n' -> led n n'.
Proof.
  intros (Hl & _) Hlog Ha Hf. apply led_trans. exists []. unfold led_by. simpl.
  rewrite Hlog, Ha, Hf, lastIndex_append by done. split_and!; try lia; auto.
  - intros k e. by rewrite lookup_nil.
  - intros i Hi. apply entryAt_append_old; [done|lia].
Qed.

(** ** One step *)

Definition same_log n n' : Prop :=
  nlog n' = nlog n /\ lastApplied n' = lastApplied n /\ fsm n' = fsm n.

Lemma same_log_led n n' : same_log n n' -> led n n'.
Proof. intros (?&?&?). by apply led_same. Qed.

Lemma countAcks_log replies n acks stepped : same_log n (countAcks n acks stepped replies).2.
Proof.
  revert n acks stepped. induction replies as [|r replies IH]; intros n acks stepped; [done|].
  simpl. destruct (_ <? _)%nat; [|apply IH]. apply (IH (stepDownLocked n (arTerm r)) acks true).
Qed.

Lemma ReadIndex_log n replies finished : same_log n (ReadIndex n replies finished).2.
Proof.
  unfold ReadIndex, confirmLeadership. destruct (negb (IsLeader n)); [done|].
  destruct (_ <? _)%nat; [done|]. destruct (_ =? 0)%nat; [by simpl; destruct (_ <? _)%nat|].
  pose proof (countAcks_log replies n 1 false) as Hk.
  destruct (countAcks n 1 false replies) as [[acks stepped] n1]. simpl in Hk.
  destruct (_ || _)%bool; [|done]. destruct (_ || _)%bool; [done|]. simpl. by destruct (_ <? _)%nat.
Qed.

Lemma HandleRequestVote_log n args r n' : HandleRequestVote n args = Some (r, n') -> same_log n n'.
Proof.
  unfold HandleRequestVote. destruct (_ <? _)%nat; [by intros [= _ <-]|].
  destruct (currentTerm n <? rvTerm args)%nat; simpl;
    destruct (log_lastTerm (nlog n)); simpl; try done; repeat case_match; by intros [= _ <-].
Qed.

(** A leader that handles an input and still leads has only appended to its log
    and applied what it committed. *)
Lemma leader_step n i n' :
  node_ok n -> raft_step n i = Some n' -> role n = RoleLeader -> role n' = RoleLeader -> led n n'.
Proof.
  intros Hok E Hr Hr'. pose proof Hok as (Hl & Hb & Hac & Hc).
  assert (IsLeader n = true) as HL by (unfold IsLeader; by rewrite bool_decide_true).
  assert (forall m e r n2, node_ok m -> appendEntryLocked m e = Some (r, n2) -> led m n2) as Happ.
  { intros m e r n2 Hm (n1 & ? & ? & ? & ? & _)%appendEntry_led; [by eapply append_led|done]. }
  destruct i; simpl in E.
  - unfold becomeCandidate in E. rewrite HL in E. simplify_eq/=. by apply same_log_led.
  - unfold startElection, tryBecomeLeader in E. rewrite HL in E.
    destruct (log_lastTerm (nlog n)); simplify_eq/=. rewrite Nat.eqb_refl in E.
    destruct (_ =? 0)%nat; simplify_eq/=; by apply same_log_led.
  - unfold onVoteReply in E. rewrite (bool_decide_false (role n = RoleCandidate)) in E by congruence.
    destruct (_ <? _)%nat; simplify_eq/=; by apply same_log_led.
  - destruct (HandleRequestVote n args) as [[r n1]|] eqn:E1; simplify_eq/=.
    by eapply same_log_led, HandleRequestVote_log.
  - destruct (HandleAppendEntries_ok n args Hok) as (r & n1 & E1 & _ & _ & [->|Hf] & _);
      rewrite E1 in E; simplify_eq/=; [by apply same_log_led|congruence].
  - destruct (HandleInstallSnapshot_ok n args Hok) as (r & n1 & E1 & _ & _ & [->|Hf]);
      rewrite E1 in E; simplify_eq/=; [by apply same_log_led|congruence].
  - unfold Propose in E. rewrite HL in E. simpl in E.
    destruct (appendEntryLocked n _) as [[r n1]|] eqn:E1; simplify_eq/=. eauto.
  - unfold onAppendReply in E. rewrite HL in E. repeat case_match; simplify_eq/=; try by apply same_log_led.
    all: apply updateCommit_led in E; simpl; try done; try lia.
  - unfold onSnapshotReply in E. rewrite HL in E. repeat case_match; simplify_eq/=; try by apply same_log_led.
    all: apply updateCommit_led in E; simpl; try done; try lia.
  - unfold AddServer in E. rewrite HL in E. simpl in E.
    destruct (_ || _)%bool; [simplify_eq/=; by apply same_log_led|].
    match type of E with context [appendEntryLocked ?m ?e] =>
      assert (node_ok m /\ same_log n m) as [Hok1 (?&?&?)] by (destruct (String.eqb addr ""); by split);
      destruct (appendEntryLocked m e) as [[r n1]|] eqn:E1 end; simplify_eq/=.
    eapply led_after; [..|by eapply Happ]; done.
  - unfold RemoveServer in E. rewrite HL in E. simpl in E.
    destruct (_ && _)%bool; [simplify_eq/=; by apply same_log_led|].
    destruct (appendEntryLocked n _) as [[r n1]|] eqn:E1; simplify_eq/=. eauto.
  - unfold finishStepDown in E. destruct (_ && _)%bool; simplify_eq/=. by apply same_log_led.
  - simplify_eq/=. apply same_log_led, ReadIndex_log.
Qed.

(** ** Runs *)

Lemma step_role n i n' :
  node_ok n -> raft_step n i = Some n' ->
  role n' = RoleFollower \/ role n' = role n /\ currentTerm n' = currentTerm n \/
  currentTerm n < currentTerm n' \/ role n = RoleCandidate.
Proof.
  intros Hok E.
  assert (role_keep n n' -> role n' = RoleFollower \/ role n' = role n /\ currentTerm n' = currentTerm n)
    as Hkeep.
  { intros Hk. destruct (decide (role n' = RoleFollower)); [by left|right; by apply Hk]. }
  assert (ordinary i \/ ~ ordinary i) as [Ho|Ho] by (destruct i; simpl; auto).
  { destruct Hkeep; [by eapply ordinary_keep|auto|auto]. }
  destruct i; try done; simpl in E.
  - unfold becomeCandidate in E. destruct (_ || _)%bool; simplify_eq/=; [by auto|]. right. right. left. lia.
  - destruct (startElection n) as [[el n1]|] eqn:E1; simplify_eq/=.
    apply startElection_cases in E1 as (_ & _ & _ & _ & ? & _ & [?|[? _]]); auto.
  - destruct (onVoteReply n el reply) as [[[b el'] n1]|] eqn:E1; simplify_eq/=.
    apply onVoteReply_cases in E1 as [[_ Hk]|(_ & ? & _)]; auto. destruct (Hkeep Hk); auto.
  - destruct (HandleRequestVote_ok n args Hok) as (r & n1 & E1 & _ & _ & _ & Hk & _).
    rewrite E1 in E. simplify_eq/=. destruct (Hkeep Hk); auto.
Qed.

(** The node's leadership of term [t] is over for good. *)
Definition lost (t : nat) n : Prop :=
  t < currentTerm n \/ currentTerm n = t /\ role n = RoleFollower.

Definition leads (t : nat) n : Prop := role n = RoleLeader /\ currentTerm n = t.

Lemma run_ok n evs n' : node_ok n -> raft_run n evs = Some n' -> node_ok n'.
Proof.
  revert n. induction evs as [|i evs IH]; intros n Hok E; [unfold raft_run in E; by simplify_eq/=|].
  destruct (raft_step_ok n i Hok) as (n1 & E1 & Hok1 & _).
  unfold raft_run in E. simpl in E. rewrite E1 in E. by apply (IH n1).
Qed.

Lemma lost_run t n evs n' :
  node_ok n -> raft_run n evs = Some n' -> lost t n -> lost t n'.
Proof.
  revert n. induction evs as [|i evs IH]; intros n Hok E Hlost; [unfold raft_run in E; by simplify_eq/=|].
  destruct (raft_step_ok n i Hok) as (n1 & E1 & Hok1 & _ & Ht & _).
  unfold raft_run in E. simpl in E. rewrite E1 in E. apply (IH n1 Hok1 E).
  destruct Hlost as [?|[? Hr]]; [left; lia|].
  destruct (step_role n i n1 Hok E1) as [?|[[? ?]|[?|?]]]; [|right; split; congruence|left; lia|congruence].
  destruct (decide (currentTerm n1 = t)); [by right|left; lia].
Qed.

Lemma leads_run t n evs n' :
  node_ok n -> raft_run n evs = Some n' -> leads t n ->
  node_ok n' /\ (leads t n' /\ led n n' \/ lost t n').
Proof.
  revert n. induction evs as [|i evs IH]; intros n Hok E Hlead.
  { unfold raft_run in E. simplify_eq/=. split; [done|]. left. split; [done|by apply same_log_led]. }
  destruct (raft_step_ok n i Hok) as (n1 & E1 & Hok1 & _ & Ht & _).
  unfold raft_run in E. simpl in E. rewrite E1 in E. destruct Hlead as [Hr Htm].
  assert (leads t n1 \/ lost t n1) as [Hl1|Hl1].
  { unfold leads, lost.
    destruct (step_role n i n1 Hok E1) as [?|[[? ?]|[?|?]]]; [|left; split; congruence|right; left; lia|congruence].
    right. destruct (decide (currentTerm n1 = t)); [by right|left; lia]. }
  - destruct (IH n1 Hok1 E Hl1) as [Hok' [[Hl' Hled]|?]]; (split; [done|]); [left|by right].
    split; [done|]. eapply led_trans; [|done]. eapply leader_step; try done. apply Hl1.
  - split; [by eapply run_ok|right; by eapply lost_run].
Qed.
End led.

(** ** Writes and reads *)

Section cluster_thms.
Context {I W FW SS MS : Type}.
Context {EI : ExpirationIndex I} {WF : Wal FW} {WW : Wal W} {SSS : SnapshotStore SS} {MSS : MetaStore MS}.
Context {J : Json} {JL : JsonLaws} {EJ : EntriesJson} {CJ : ConfigJson}.
Implicit Types c : ClusterStore (I := I) (FW := FW) (W := W) (SS := SS) (MS := MS).
Implicit Types n : Node (Fsm I FW) W SS MS.

(** A wait is a run of the node. *)
Lemma WaitApplied_run n idx ps e n' :
  WaitApplied n idx ps = Some (e, n') ->
  exists evs, raft_run n evs = Some n' /\ (e = None -> idx <= lastApplied n').
Proof.
  revert n. induction ps as [|evs ps IH]; intros n E; simpl in E; unfold applied in E;
    (destruct (Nat.leb_spec idx (lastApplied n)); [simplify_eq; by exists []|]).
  { simplify_eq. by exists []. }
  destruct (raft_run n evs) as [n1|] eqn:E1; simpl in E; [|done].
  destruct (IH n1 E) as (evs' & E2 & Hi). exists (evs ++ evs'). split; [|done].
  unfold raft_run in *. by rewrite foldl_app, E1.
Qed.

(** The state machine right after a PUT. *)
Lemma apply_put t key value cmd (f : Fsm I FW) s :
  json_unrecord cmd = Some (store_record OpPut key value 0) ->
  fstore (sm_apply f (mkEntry t (Some cmd) None)) = Some s ->
  data s !! key = Some (Store.mkEntry value 0).
Proof.
  intros Eu. simpl. unfold NewRaftApply. simpl. rewrite Eu. simpl.
  destruct (fstore f) as [s0|]; simpl; [|done]. unfold ApplyRecord, putLocked. simpl.
  destruct (match data s0 !! key with Some _ => _ | None => _ end) as [s1|]; simpl; [|done].
  intros [= <-]. simpl. by rewrite lookup_insert_eq.
Qed.

(** A proposal that was taken, up to the acknowledgement. *)
Lemma propose_led env c rec cmd c' :
  node_ok (cnode c) -> json_record rec = Ok cmd -> propose env c rec = Some (None, c') ->
  leads (currentTerm (cnode c)) (cnode c') ->
  exists n0, nlog n0 = log_append (nlog (cnode c)) [mkEntry (currentTerm (cnode c)) (Some cmd) None] /\
    lastApplied n0 = lastApplied (cnode c) /\ fsm n0 = fsm (cnode c) /\ led n0 (cnode c') /\
    log_lastIndex (nlog (cnode c)) + 1 <= lastApplied (cnode c').
Proof.
  intros Hok Ej E [Hr Ht]. unfold propose in E. rewrite Ej in E.
  destruct (Propose (cnode c) cmd) as [[r n1]|] eqn:Ep; simpl in E; [|done].
  destruct r as [idx|]; [|done]. destruct (WaitApplied n1 idx _) as [[er n2]|] eqn:Ew; simplify_eq/=.
  destruct (WaitApplied_run _ _ _ _ _ Ew) as (evs & Erun & Hidx). specialize (Hidx eq_refl).
  unfold Propose in Ep. destruct (negb (IsLeader (cnode c))) eqn:HL; [done|]. unfold IsLeader in HL.
  bool_to_prop. pose proof Ep as Ep'. apply appendEntry_led in Ep as (n0 & Hlog & Ha & Hf & Hled & Hi); [|done].
  rewrite (Hi idx eq_refl) in Hidx.
  match type of Ep' with appendEntryLocked ?m ?e = _ =>
    destruct (appendEntry_ok m e Hok) as (r & n1' & E1 & Hok1 & (_ & Hr1 & Ht1 & _)) end.
  rewrite E1 in Ep'. simplify_eq.
  destruct (leads_run (currentTerm (cnode c)) n1 evs n2 Hok1 Erun) as [_ [[_ Hl2]|[?|[_ ?]]]];
    [by split; congruence| |lia|congruence].
  exists n0. split_and!; try done. by eapply led_trans.
Qed.

(** C31: an acknowledged write is applied: when a node that is still the leader
    of the same term acknowledges a write, the state machine has applied what
    was in the log before it and then the write's own entry, in that order
    (followed by later entries). In particular the key has the value right
    after that entry. *)
Theorem acked_write_applied env c key value c' :
  node_ok (cnode c) -> json_fits (store_record OpPut key value 0) ->
  cs_Put env c key value = Some (None, c') ->
  role (cnode c') = RoleLeader -> currentTerm (cnode c') = currentTerm (cnode c) ->
  exists es1 e es2,
    lastApplied (cnode c) + length es1 = log_lastIndex (nlog (cnode c)) /\
    (forall k x, es1 !! k = Some x -> entryAt (nlog (cnode c)) (lastApplied (cnode c) + 1 + k) = Some x) /\
    fsm (cnode c') = foldl sm_apply (sm_apply (foldl sm_apply (fsm (cnode c)) (filter is_command es1)) e)
                       (filter is_command es2) /\
    (forall (f : Fsm I FW) s, fstore (sm_apply f e) = Some s -> data s !! key = Some (Store.mkEntry value 0)).
Proof.
  intros Hok Hfit E Hr Ht. destruct (json_record_ok _ Hfit) as (cmd & Ej & _ & Eu & _).
  destruct (propose_led env c _ cmd c' Hok Ej E) as (n0 & Hlog & Ha & Hf & [es Hes] & Hi); [by split|].
  destruct Hes as (Hla & Hfs & _ & He & _). pose proof Hok as (Hl & _ & Hac & Hc).
  set (e := mkEntry (currentTerm (cnode c)) (Some cmd) None) in *.
  rewrite Hlog, Ha, Hf, lastIndex_append in * by done. simpl in He.
  set (k := log_lastIndex (nlog (cnode c)) - lastApplied (cnode c)).
  destruct (lookup_lt_is_Some_2 es k) as [e' Hk]; [lia|].
  assert (e' = e) as ->.
  { specialize (He k e' Hk ltac:(lia)).
    replace (lastApplied (cnode c) + 1 + k) with (log_lastIndex (nlog (cnode c)) + 1) in He by lia.
    rewrite entryAt_append_new in He by done. congruence. }
  exists (take k es), e, (drop (S k) es). split_and!.
  - rewrite length_take. lia.
  - intros j x Hx. apply lookup_take_Some in Hx as [Hx Hj].
    rewrite <- (He j x Hx) by lia. symmetry. apply entryAt_append_old; [done|lia].
  - rewrite Hfs. rewrite <- (take_drop_middle es k e Hk) at 1.
    rewrite filter_app, filter_cons_True by done. by rewrite foldl_app.
  - intros f s. by apply apply_put.
Qed.

Lemma countAcks_bound replies n k stepped k' n' :
  countAcks n k stepped replies = (k', false, n') ->
  stepped = false /\ n' = n /\
  k' = k + length (filter (fun r => arSuccess r = true) replies).
Proof.
  revert n k stepped. induction replies as [|r replies IH]; intros n k stepped E; simpl in E.
  { simplify_eq. simpl. split_and!; auto. }
  destruct (_ <? _)%nat; [by apply IH in E as [? _]|].
  apply IH in E as (? & ? & ->). split_and!; auto.
  rewrite filter_cons. destruct (arSuccess r); simpl; lia.
Qed.

(** C32: a successful read is of committed data: the node leads, has committed an
    entry of its own term, a majority acknowledged its heartbeat in this read,
    every entry committed when the read started is applied, and the value is
    what the local store then holds for the key, not expired. It relies on the
    heartbeats not all having failed or returned before the majority was
    reached. *)
Theorem read_committed env c key v c' :
  allReturned env = false -> cs_Get env c key = Some (Ok v, c') ->
  role (cnode c) = RoleLeader /\ noopIndex (cnode c) <= commitIndex (cnode c) <= lastApplied (cnode c) /\
  (peers (cnode c) = [] \/
   majorityLocked (cnode c) <= 1 + length (filter (fun r => arSuccess r = true) (acks env))) /\
  exists s en, fstore (fsm (cnode c)) = Some s /\ data s !! key = Some en /\ Value en = v /\
    isExpired (now env) en = false.
Proof.
  intros Hret E. unfold cs_Get in E. rewrite Hret in E.
  pose proof (ReadIndex_log (cnode c) (acks env) false) as (Hlg & Hla & Hf).
  destruct (ReadIndex (cnode c) (acks env) false) as [[idx|] n] eqn:Er; [|done]. simpl in *.
  rewrite Hf in E. destruct (fstore (fsm (cnode c))) as [s|]; simpl in E; [|done].
  assert (exists en, data s !! key = Some en /\ Value en = v /\ isExpired (now env) en = false) as Hval.
  { unfold Get in E. destruct (data s !! key) as [en|]; [|done]. exists en.
    destruct (isExpired (now env) en); [|simplify_eq/=; done].
    by destruct (expireKey s (now' env) key en); simplify_eq/=. }
  unfold ReadIndex in Er. destruct (negb (IsLeader (cnode c))) eqn:HL; [done|]. unfold IsLeader in HL.
  destruct (Nat.ltb_spec (commitIndex (cnode c)) (noopIndex (cnode c))); [done|]. bool_to_prop.
  destruct (confirmLeadership (cnode c) (acks env) false) as [[er|] n1] eqn:Ec; [done|].
  destruct (Nat.ltb_spec (lastApplied n1) (commitIndex (cnode c))); [done|]. simplify_eq.
  destruct Hval as (en & ? & ? & ?). split; [done|]. split; [lia|]. split; [|eauto 10].
  unfold confirmLeadership in Ec. destruct (Nat.eqb_spec (length (peers (cnode c))) 0).
  { left. by apply nil_length_inv. }
  right. destruct (negb (IsLeader (cnode c))); [done|].
  destruct (countAcks (cnode c) 1 false (acks env)) as [[k stepped] n2] eqn:Ek.
  destruct stepped; [by simplify_eq/=|]. apply countAcks_bound in Ek as (_ & -> & ->). simpl in Ec.
  destruct (_ <=? _)%nat eqn:El; [by apply Nat.leb_le in El|by simplify_eq/=].
Qed.

Lemma joinID_Ok peer req id :
  joinID peer req = Ok id ->
  (peer <> "" -> id = peer /\ (jID req = "" \/ jID req = peer)) /\
  (jID req = id \/ jID req = "" /\ peer = id).
Proof.
  unfold joinID. destruct (String.eqb_spec peer ""); simpl; [intros [= <-]; naive_solver|].
  destruct (String.eqb_spec (jID req) ""), (String.eqb_spec (jID req) peer); simpl; intros; simplify_eq; naive_solver.
Qed.

Lemma joinID_Err peer req er : joinID peer req = Err er -> exists m, er = Wrapped m.
Proof. unfold joinID. repeat case_match; intros [= <-]; eauto. Qed.

Lemma redirect_not_joined n id : redirect n <> Ok (Joined id).
Proof. unfold redirect. by case_match. Qed.

(** C33: who joins a cluster: an acknowledged JOIN was handled by a leader, names
    a node with both addresses, and under mutual TLS that node is the one whose
    certificate made the request; a request under another node's name, or to a
    node that does not lead, changes nothing. *)
Theorem join_identity decode io wait env c peer bytes r c' :
  HandleControl decode io wait env c peer bytes = Some (r, c') ->
  (forall id, r = Ok (Joined id) ->
     IsLeader (cnode c) = true /\ id <> "" /\ (peer <> "" -> id = peer) /\
     exists req, decode bytes = Some req /\ jRaft req <> "" /\ jClient req <> "" /\
       (jID req = id \/ jID req = "" /\ peer = id)) /\
  (forall req, decode bytes = Some req -> peer <> "" -> jID req <> "" -> jID req <> peer ->
     c' = c /\ exists m, r = Err (Wrapped m)) /\
  (IsLeader (cnode c) = false -> c' = c /\ forall id, r <> Ok (Joined id)).
Proof.
  intros E. unfold HandleControl in E.
  destruct (decode bytes) as [req|] eqn:Ed; [|simplify_eq; by split_and!].
  destruct (joinID peer req) as [id|er] eqn:Ej.
  - destruct (joinID_Ok peer req id Ej) as [Hp Hid].
    destruct (_ || _)%bool eqn:Eb; [simplify_eq; split_and!; by eauto|].
    rewrite !orb_false_iff, !String.eqb_neq in Eb. destruct Eb as [[? ?] ?].
    destruct (negb (IsLeader (cnode c))) eqn:HL; bool_to_prop.
    { simplify_eq. pose proof (redirect_not_joined (cnode c')). split_and!; naive_solver. }
    split_and!; [|naive_solver|congruence].
    intros id' ->.
    destruct (if isMember (cnode c) id then _ else _) as [[[er|] c1]|]; simplify_eq/=.
    destruct (cs_Put env c1 _ _) as [[[er|] c2]|]; simplify_eq/=.
    split_and!; auto; [naive_solver|]. exists req. by split_and!.
  - destruct (joinID_Err peer req er Ej) as (m & ->). simplify_eq. split_and!; naive_solver.
Qed.
End cluster_thms.

(** ** Concrete runs *)

#[export] Instance SnapshotEntry_countable : Countable SnapshotEntry.
Proof.
  apply (inj_countable' (fun e => (skey e, sval e, sexp e)) (fun '(k, v, x) => mkSnapshotEntry k v x)).
  by intros [].
Defined.

#[export] Instance BitEntriesJson : EntriesJson := {|
  json_entries es := Ok (write_bits (encode es));
  json_unentries := read_value
|}.

Definition StoreNode : Type := Node (Fsm Index RaftWal) RaftWal MemSnapshots MemMeta.

(** A fresh node over an empty store, its clock at 10. *)
Definition store_node (id : string) (ps : list string) : StoreNode :=
  mkNode id ps RoleFollower 0 "" NewLog (Some []) 0 0 "" 0 ∅ ∅ ∅ (Some None) 2000 (Some None)
    false false ∅ (mkFsm (Some NewCacheyStore) (fun _ => 10%Z) (fun _ => 10%Z)).

(** The leader of term 1 of a cluster of three, its no-op acknowledged by [b]. *)
Definition lead_node : StoreNode :=
  ran_to (raft_run (store_node "a" ["b"; "c"])
    [IBecomeCandidate; IVoteReply (mkElection 1 0 0 2 ["b"; "c"] 1) (mkRequestVoteReply 0 true);
     IAppendReply "b" (mkAppendEntries 1 "a" 0 0 [noop 1] 0) (mkAppendEntriesReply 1 true)])
    (store_node "a" []).

Definition lead_store : ClusterStore := SetLeaderResolver (NewClusterStore lead_node) (fun id => id).

Lemma lead_node_ok : node_ok lead_node /\ role lead_node = RoleLeader /\ currentTerm lead_node = 1.
Proof.
  split; [|vm_compute; by split]. unfold node_ok. vm_compute. split_and!; [done|lia|lia|lia].
Qed.

(** The follower [b] acknowledges the write. *)
Definition ack_env : Env :=
  mkEnv [[IAppendReply "b" (mkAppendEntries 1 "a" 1 1 [mkEntry 1 (Some (put_command "k" "v")) None] 1)
            (mkAppendEntriesReply 1 true)]]
    [mkAppendEntriesReply 1 true] false 20 20.

Definition after_put : option (option error * ClusterStore) := cs_Put ack_env lead_store "k" "v".

Lemma acked_write_applied_witness :
  exists c', cs_Put ack_env lead_store "k" "v" = Some (None, c') /\
    exists es1 e es2, length es1 = 0 /\
      fsm (cnode c') = foldl sm_apply (sm_apply (foldl sm_apply (fsm (cnode lead_store)) (filter is_command es1)) e)
                         (filter is_command es2).
Proof.
  destruct (cs_Put ack_env lead_store "k" "v") as [[[er|] c']|] eqn:E; [vm_compute in E; discriminate| |
    vm_compute in E; discriminate].
  exists c'. split; [reflexivity|].
  destruct (acked_write_applied ack_env lead_store "k" "v" c') as (es1 & e & es2 & Hl & _ & Hf & _).
  - apply lead_node_ok.
  - done.
  - exact E.
  - vm_compute in E. injection E as <-. reflexivity.
  - vm_compute in E. injection E as <-. reflexivity.
  - exists es1, e, es2. split; [|exact Hf].
    assert (lastApplied (cnode lead_store) = 1) as H1 by (vm_compute; reflexivity).
    assert (log_lastIndex (nlog (cnode lead_store)) = 1) as H2 by (vm_compute; reflexivity).
    rewrite H1, H2 in Hl. lia.
Defined.

(** The store with the write applied. *)
Definition put_store : ClusterStore :=
  match after_put with Some (_, c) => c | None => lead_store end.

Lemma read_committed_witness :
  exists c', cs_Get ack_env put_store "k" = Some (Ok "v", c') /\
    role (cnode put_store) = RoleLeader /\ commitIndex (cnode put_store) <= lastApplied (cnode put_store).
Proof.
  destruct (cs_Get ack_env put_store "k") as [[[v|er] c']|] eqn:E;
    [|vm_compute in E; discriminate|vm_compute in E; discriminate].
  assert (v = "v") as -> by (vm_compute in E; by injection E).
  destruct (read_committed ack_env put_store "k" "v" c') as (Hr & [_ Hc] & _).
  - reflexivity.
  - exact E.
  - exists c'. split; [reflexivity|]. split; [exact Hr|exact Hc].
Defined.

(** A request as bytes for the examples: the id, the rest fixed. *)
Definition sample_decode (b : bytes) : option JoinRequest :=
  Some (mkJoinRequest (String.string_of_list_ascii b) "10.0.0.9:9000" "10.0.0.9:7000").

Lemma join_identity_witness :
  exists r c', HandleControl sample_decode "io" [] ack_env lead_store "d" (String.list_ascii_of_string "e")
      = Some (r, c') /\ c' = lead_store /\ exists m, r = Err (Wrapped m).
Proof.
  destruct (HandleControl sample_decode "io" [] ack_env lead_store "d" (String.list_ascii_of_string "e"))
    as [[r c']|] eqn:E; [|vm_compute in E; discriminate].
  exists r, c'. split; [reflexivity|].
  destruct (join_identity sample_decode "io" [] ack_env lead_store "d" (String.list_ascii_of_string "e") r c')
    as (_ & H & _).
  - exact E.
  - apply (H (mkJoinRequest "e" "10.0.0.9:9000" "10.0.0.9:7000")); [reflexivity|discriminate..].
Defined.

(** ** Where the replicated store falls short

    [WaitApplied] waits for an index, not for the proposed entry: a leader that
    is deposed while a write waits, and whose entry the new leader replaces,
    acknowledges the write although it never reaches any state machine. *)
Definition deposed_env : Env :=
  mkEnv [[IAppendEntries (mkAppendEntries 2 "b" 1 1 [noop 2] 2)]] [] false 20 20.

Theorem overwritten_write_acked :
  exists c' s, cs_Put deposed_env lead_store "k" "v" = Some (None, c') /\
    fstore (fsm (cnode c')) = Some s /\ data s !! "k" = None /\
    entryAt (nlog (cnode c')) 2 = Some (noop 2).
Proof.
  destruct (cs_Put deposed_env lead_store "k" "v") as [[[er|] c']|] eqn:E; [vm_compute in E; discriminate| |
    vm_compute in E; discriminate].
  exists c', NewCacheyStore. split; [reflexivity|].
  vm_compute in E. injection E as <-. split; [vm_compute; reflexivity|]. split; vm_compute; reflexivity.
Qed.
