(* ===== verification/RaftDurable.v ===== *)
(** * A durable Raft node: what a restart recovers

    A node writes every entry to the WAL before it is in the log, and its
    snapshots and committed memberships to files. [recover] is the recovery of
    [OpenRaftNode] (internal/server/raftnode.go): snapshot, then log, then
    membership. *)

From S2P Require Import Prelude WalTypes WalCodec BTree Expiration Store RaftLog Raft RaftProps RaftInstances RaftThms ClusterStore.

(** ** Entries that stand for the same operation *)

(** What a record asks for, without its places in the logs. *)
Definition payload (r : Record_) : Op * string * string * Z * bytes * bytes :=
  (op r, rkey r, val r, rexp r, config r, rdata r).

Section entries.
Context {J : Json} {CJ : ConfigJson}.

Definition same_command (b b' : option bytes) : Prop :=
  b = b' \/ exists c c' r r', b = Some c /\ b' = Some c' /\
    json_unrecord c = Some r /\ json_unrecord c' = Some r' /\ payload r = payload r'.

(** The command of a configuration entry is never looked at. *)
Definition same_entry (e e' : RaftLog.Entry) : Prop :=
  eTerm e = eTerm e' /\ eConfig e = eConfig e' /\ (eConfig e = None -> same_command (eCommand e) (eCommand e')).

#[export] Instance same_command_equiv : Equivalence same_command.
Proof.
  split.
  - intros b. by left.
  - intros b b' [->|(c & c' & r & r' & -> & -> & ? & ? & ?)]; [by left|]. right. by exists c', c, r', r.
  - intros b1 b2 b3 [->|(c1 & c2 & r1 & r2 & -> & -> & H1 & H2 & H12)]; [done|].
    intros [<-|(c2' & c3 & r2' & r3 & ? & -> & H2' & H3 & H23)]; [by right; exists c1, c2, r1, r2|].
    right. exists c1, c3, r1, r3. split_and!; [done..|]. rewrite H12, <- H23. congruence.
Qed.

#[export] Instance same_entry_equiv : Equivalence same_entry.
Proof.
  split.
  - intros e. by split_and!.
  - intros e e' (? & Hc & H). split_and!; [done|done|]. intros He. symmetry. apply H. congruence.
  - intros e1 e2 e3 (? & Hc & H) (? & Hc' & H'). split_and!; [congruence|congruence|]. intros He.
    etrans; [by apply H|]. apply H'. congruence.
Qed.

(** A command that the log store can write and read back: what it decodes to is
    an operation of the store. *)
Definition storable {JL : JsonLaws} (e : RaftLog.Entry) : Prop :=
  eConfig e = None -> forall b r, eCommand e = Some b -> json_unrecord b = Some r ->
  op r <> OpConfig /\ op r <> OpNoop /\ forall t i, json_fits (with_raft r t i).

(** A configuration reads back. *)
Definition config_roundtrip : Prop := forall c b, json_config c = Ok b -> json_unconfig b = Some c.

(** The record of an entry reads back as the same operation. *)
Lemma stored_entry {JL : JsonLaws} e r i :
  config_roundtrip -> storable e -> entryRecord e = Ok r ->
  exists e', recordEntry (with_raft r (eTerm e) i) = Ok e' /\ same_entry e e'.
Proof.
  intros Hcj. unfold storable, entryRecord. destruct e as [t cmd cfg]. simpl. destruct cfg as [c|]; [|destruct cmd as [b|]].
  - intros _. destruct (json_config c) as [b|] eqn:Hb; [|done]. intros [= <-]. unfold recordEntry. simpl.
    rewrite (Hcj _ _ Hb), Nat2N.id. by eexists.
  - intros Hs. destruct (json_unrecord b) as [r'|] eqn:Hr; [|done]. intros [= <-]. unfold recordEntry.
    destruct (Hs eq_refl b r' eq_refl Hr) as (Hc & Hn & Hf).
    destruct (json_record_ok (with_raft r' t i) (Hf t i)) as (b' & Hb' & _ & Hu & _).
    exists (mkEntry t (Some b') None). split.
    + simpl. rewrite Hb', Nat2N.id. destruct (op r'); congruence.
    + split_and!; [done|done|]. intros _. right. by exists b, b', r', (with_raft r' t i).
  - intros _ [= <-]. unfold recordEntry. simpl. rewrite Nat2N.id. eexists. by split_and!.
Qed.

(** ** Replaying a log *)

(** A record that recovery can read. *)
Definition readable (r : Record_) : Prop := exists e, recordEntry r = Ok e.

(** What [ApplyRecoveredRecord] does to the log. *)
Definition replay_rec (l : Log) (rec : Record_) : Log :=
  match recordEntry rec with
  | Err _ => l
  | Ok e => if (N.to_nat (raftIndex rec) <=? base l)%nat then l else log_set l (N.to_nat (raftIndex rec)) e
  end.

Definition replay_log (b t : nat) (R : list Record_) : Log := foldl replay_rec (mkLog b [noop t]) R.

Lemma replay_rec_shape l rec :
  log_ok l -> log_ok (replay_rec l rec) /\ base (replay_rec l rec) = base l.
Proof.
  intros Hl. unfold replay_rec. destruct (recordEntry rec); [|done]. case_match; [done|].
  unfold log_set. case_match; [done|]. split; [|done]. unfold log_ok. simpl. by destruct (if _ : bool then _ else _).
Qed.

Lemma replay_rec_low l rec i :
  log_ok l -> i <= base l -> entryAt (replay_rec l rec) i = entryAt l i.
Proof.
  intros Hl Hi. unfold replay_rec. destruct (recordEntry rec); [|done]. case_match eqn:E; [done|].
  unfold log_set. case_match eqn:E2; [done|]. bool_to_prop. unfold entryAt. simpl. case_match; [done|]. bool_to_prop.
  assert (i - base l = 0) as -> by lia. unfold log_ok in Hl. destruct (entries l) as [|e0 es]; [done|].
  case_match; [|done]. by destruct (N.to_nat (raftIndex rec) - base l) eqn:?; [lia|].
Qed.

Lemma replay_log_shape b t R :
  log_ok (replay_log b t R) /\ base (replay_log b t R) = b /\ termAt (replay_log b t R) b = Some t.
Proof.
  unfold replay_log. assert (log_ok (mkLog b [noop t])) as Hl by done.
  assert (base (mkLog b [noop t]) = b) as Hb by done.
  assert (termAt (mkLog b [noop t]) b = Some t) as Ht
    by (unfold termAt, entryAt; simpl; by rewrite Nat.ltb_irrefl, Nat.sub_diag).
  revert Hl Hb Ht. generalize (mkLog b [noop t]) as l. induction R as [|r R IH]; intros l Hl Hb Ht; [done|].
  simpl. destruct (replay_rec_shape l r Hl) as [Hl' Hb']. apply IH; [done|congruence|].
  unfold termAt in *. by rewrite replay_rec_low by (done || lia).
Qed.

(** [R] gives back what the log [l] holds above any index at or above its base,
    provided that there is something. *)
Definition covers (R : list Record_) (l : Log) : Prop := forall b t,
  base l <= b < log_lastIndex l ->
  log_lastIndex (replay_log b t R) = log_lastIndex l /\
  forall i e, b < i -> entryAt l i = Some e ->
    exists e', entryAt (replay_log b t R) i = Some e' /\ same_entry e e'.

(** A log with nothing above its base is covered by anything. *)
Lemma covers_reset R l : log_lastIndex l <= base l -> covers R l.
Proof. intros H b t Hb. lia. Qed.

(** Compaction asks less of the records. *)
Lemma covers_raise R l l' :
  covers R l -> base l <= base l' -> log_lastIndex l' = log_lastIndex l ->
  (forall i, base l' < i -> entryAt l' i = entryAt l i) -> covers R l'.
Proof.
  intros Hc Hb Hlast He b t Hr. destruct (Hc b t) as [Hl' He']; [lia|]. split; [congruence|].
  intros i e Hi Hie. apply He'; [done|]. by rewrite <- He by lia.
Qed.

(** An entry that is written at its index, up to one past the end, is what the
    log then ends with. *)
Lemma covers_write R l idx e r e' l' :
  log_ok l -> base l < idx <= log_lastIndex l + 1 -> covers R l ->
  N.to_nat (raftIndex r) = idx -> recordEntry r = Ok e' -> same_entry e e' ->
  base l' = base l -> log_lastIndex l' = idx -> entryAt l' idx = Some e ->
  (forall j, j < idx -> entryAt l' j = entryAt l j) ->
  covers (R ++ [r]) l'.
Proof.
  intros Hl Hi Hc Hr He' Hsame Hb Hlast Hidx Hlow b t Hbr.
  unfold replay_log. rewrite foldl_app. fold (replay_log b t R). simpl.
  destruct (replay_log_shape b t R) as (Hs1 & Hs2 & _).
  assert (idx <= log_lastIndex (replay_log b t R) + 1) as Hle.
  { pose proof (lastIndex_base _ Hs1). destruct (decide (b < log_lastIndex l)); [|lia].
    destruct (Hc b t) as [-> _]; lia. }
  unfold replay_rec. rewrite He', Hr, Hs2, (proj2 (Nat.leb_gt _ _)) by lia.
  destruct (log_set_spec (replay_log b t R) idx e' Hs1) as (_ & _ & Hl3 & Hl4 & Hl5); [lia|].
  split; [lia|]. intros i e0 Hbi Hie. destruct (decide (i = idx)) as [->|Hne].
  - exists e'. split; [done|]. congruence.
  - assert (i <= log_lastIndex l') as Hil.
    { apply entryAt_range in Hie; [lia|]. unfold log_ok. intros Hnil. unfold entryAt in Hidx.
      rewrite Hnil in Hidx. by case_match. }
    rewrite Hl5 by lia. rewrite Hlow in Hie by lia. apply Hc; [|done|done].
    apply entryAt_range in Hie; [lia|done].
Qed.
End entries.

(** ** A node and its files *)

(** A snapshot that was saved is the one that is loaded; a save that fails
    leaves the old one. *)
Class SnapshotStoreLaws (SS : Type) {SSS : SnapshotStore SS} : Prop := {
  ss_saved : forall ss s ss', ss_save ss s = (ss', None) -> ss_load ss' = Ok (Some s);
  ss_failed : forall ss s ss' e, ss_save ss s = (ss', Some e) -> ss_load ss' = ss_load ss
}.

Section nodes.
Context {F W SS MS : Type}.
Context {SMF : StateMachine F} {WW : Wal W} {WT : WalTrace W} {SSS : SnapshotStore SS} {SSL : SnapshotStoreLaws SS}
  {MSS : MetaStore MS} {J : Json} {JL : JsonLaws} {CJ : ConfigJson}.
Implicit Types n m : Node F W SS MS.

(** The records of a log, up to the first that cannot be read. *)
Fixpoint recover_records n (R : list Record_) : Node F W SS MS * option error :=
  match R with
  | [] => (n, None)
  | r :: R' => match ApplyRecoveredRecord n r with
               | (n', None) => recover_records n' R'
               | (n', Some e) => (n', Some e)
               end
  end.

(** The recovery of [OpenRaftNode]: a snapshot or a membership that does not load
    counts as absent. *)
Definition recover n (snap : result (option Raft.Snapshot)) (R : list Record_) (meta : result (option CommittedMeta))
    : Node F W SS MS * option error :=
  match match snap with Ok (Some s) => RestoreSnapshot n s | _ => (n, None) end with
  | (n, Some e) => (n, Some e)
  | (n, None) =>
      match recover_records n R with
      | (n, Some e) => (n, Some e)
      | (n, None) => (match meta with Ok (Some m) => AdoptCommittedMeta n m | _ => n end, None)
      end
  end.

Context (config_json : config_roundtrip).
(** A failed append leaves nothing behind, and memberships are saved. *)
Context (clean : forall (w : W) r w' e, wal_append w r = (w', Some e) -> wal_log w' = wal_log w).
Context (meta_saved : forall (ms : MS) (cm : CommittedMeta), ms_load (ms_save ms cm).1 = Ok (Some cm)).
#[local] Set Default Proof Using "config_json clean meta_saved SSL JL".

(** ** What the files say of the node *)

Definition wal_ok (w : W) (l : Log) : Prop :=
  log_ok l /\ covers (wal_log w) l /\ Forall readable (wal_log w).

Definition snap_ok (o : option SS) (l : Log) : Prop := exists ss, o = Some ss /\
  match ss_load ss with
  | Ok (Some s) => LastIncludedIndex s = base l /\ termAt l (base l) = Some (LastIncludedTerm s)
  | Ok None => base l = 0 /\ termAt l 0 = Some 0
  | Err _ => False
  end.

Definition meta_ok (o : option MS) (id : string) (ps : list string) (rm : bool) : Prop := exists ms, o = Some ms /\
  forall cm, ms_load ms = Ok (Some cm) ->
    ps = filter (fun p => p <> id) (mVoters cm) /\ rm = negb (bool_decide (id ∈ mVoters cm)).

Definition dur n : Prop :=
  (exists w, logStore n = Some w /\ wal_ok w (nlog n)) /\ snap_ok (snapshotStore n) (nlog n) /\
  meta_ok (metaStore n) (nid n) (peers n) (removed n).

(** What [dur] looks at besides the log and its store. *)
Definition rest n := (nid n, peers n, removed n, snapshotStore n, metaStore n).

Lemma dur_move n n' w' :
  dur n -> rest n' = rest n -> logStore n' = Some w' -> wal_ok w' (nlog n') ->
  base (nlog n') = base (nlog n) -> termAt (nlog n') (base (nlog n)) = termAt (nlog n) (base (nlog n)) ->
  dur n'.
Proof using Type.
  intros (_ & (ss & Hss & Hs) & Hm) [= Hi Hp Hr Hsn Hme] Hw Hok Hb Ht.
  split; [by exists w'|]. rewrite Hsn, Hme, Hi, Hp, Hr. split; [|done]. exists ss. split; [done|].
  rewrite Hb. destruct (ss_load ss) as [[s|]|]; [by rewrite Ht| |done]. destruct Hs as [Hb0 Ht0].
  rewrite Hb0 in *. split; [done|congruence].
Qed.

Lemma dur_frame n n' :
  dur n -> rest n' = rest n -> logStore n' = logStore n -> nlog n' = nlog n -> dur n'.
Proof using Type.
  intros Hd Hr Hl Hlg. destruct Hd as [(w & Hw & Hok) H] eqn:E. eapply (dur_move n n' w); [done|done|congruence| | |]; by rewrite Hlg.
Qed.

(** ** Writing entries *)

Lemma persist_written n w idx e n' err :
  logStore n = Some w -> storable e -> persistEntryLocked n idx e = (n', err) ->
  exists w', n' = set_logStore (Some w') n /\
    match err with
    | Some _ => wal_log w' = wal_log w
    | None => exists r e', wal_log w' = wal_log w ++ [r] /\ N.to_nat (raftIndex r) = idx /\
                recordEntry r = Ok e' /\ same_entry e e'
    end.
Proof.
  intros Hw Hs. unfold persistEntryLocked, AppendEntry. rewrite Hw.
  destruct (entryRecord e) as [r|err'] eqn:Er.
  - destruct (wal_append w _) as [w' err'] eqn:Ea. intros [= <- <-]. exists w'. split; [done|].
    destruct err' as [e'|]; [by eapply clean|].
    destruct (wal_append_log _ _ _ _ Ea) as (l & Hl & Hl'). rewrite Hl' in Hl by done.
    destruct (stored_entry e r idx config_json Hs Er) as (e' & He' & Hsame).
    eexists _, e'. split_and!; [exact Hl| |done|done]. simpl. by rewrite Nat2N.id.
  - intros [= <- <-]. by exists w.
Qed.

Lemma wal_ok_write w w' l idx e r e' l' :
  wal_ok w l -> base l < idx <= log_lastIndex l + 1 ->
  wal_log w' = wal_log w ++ [r] -> N.to_nat (raftIndex r) = idx -> recordEntry r = Ok e' -> same_entry e e' ->
  log_ok l' -> base l' = base l -> log_lastIndex l' = idx -> entryAt l' idx = Some e ->
  (forall j, j < idx -> entryAt l' j = entryAt l j) -> wal_ok w' l'.
Proof using Type.
  intros (Hl & Hc & Hf) Hi Hw Hr He Hsame Hl' Hb Hlast Hidx Hlow. split; [done|]. rewrite Hw. split.
  - by eapply (covers_write _ l idx e r e').
  - apply Forall_app. split; [done|]. constructor; [by exists e'|done].
Qed.

Lemma wal_ok_append w w' l e r e' :
  wal_ok w l -> wal_log w' = wal_log w ++ [r] -> N.to_nat (raftIndex r) = log_lastIndex l + 1 ->
  recordEntry r = Ok e' -> same_entry e e' -> wal_ok w' (log_append l [e]).
Proof using Type.
  intros Hok Hw Hr He Hs. pose proof Hok as (Hl & _ & _). pose proof (lastIndex_base l Hl).
  eapply (wal_ok_write w w' l (log_lastIndex l + 1) e r e'); try done; [lia|by apply log_ok_append| |by apply entryAt_append_new|].
  - by rewrite lastIndex_append.
  - intros j Hj. apply entryAt_append_old; [done|lia].
Qed.

(** An append below the current end changes neither the base nor its term. *)
Lemma dur_append n n' w w' e r e' :
  dur n -> logStore n = Some w -> rest n' = rest n -> logStore n' = Some w' ->
  wal_log w' = wal_log w ++ [r] -> N.to_nat (raftIndex r) = log_lastIndex (nlog n) + 1 ->
  recordEntry r = Ok e' -> same_entry e e' -> nlog n' = log_append (nlog n) [e] -> dur n'.
Proof using Type.
  intros Hd Hw Hrest Hw' Hlog Hr He Hs Hlg.
  destruct Hd as [(w0 & Hw0 & Hok) Hd'] eqn:E. clear E. assert (w0 = w) as -> by congruence.
  eapply (dur_move n n' w'); [by split; [exists w|]|done|done|rewrite Hlg; by eapply wal_ok_append| |]; rewrite Hlg; [done|].
  pose proof Hok as (Hl & _ & _). pose proof (lastIndex_base _ Hl). unfold termAt. by rewrite entryAt_append_old by (done || lia).
Qed.

(** ** A batch of entries from the leader *)

(** The log matching property of Raft, as far as one batch goes: an entry that
    the log has already (same index, same term) comes after no entry that it
    does not have. *)
Definition log_matching (l : Log) (idx : nat) (es : list RaftLog.Entry) : Prop :=
  forall i j e e', i < j -> es !! i = Some e -> es !! j = Some e' ->
    termAt l (idx + j) = Some (eTerm e') -> termAt l (idx + i) = Some (eTerm e).

(** The test of [persistMissing]. *)
Lemma have_spec l idx e :
  log_ok l -> base l <= idx ->
  (if (idx <=? log_lastIndex l)%nat then t ← termAt l idx; Some (t =? eTerm e)%nat else Some false) =
  Some (bool_decide (termAt l idx = Some (eTerm e))).
Proof using Type.
  intros Hl Hb. destruct (Nat.leb_spec idx (log_lastIndex l)).
  - destruct (entryAt_Some l idx Hl ltac:(lia)) as [e' He]. unfold termAt. rewrite He. simpl. f_equal.
    destruct (Nat.eqb_spec (eTerm e') (eTerm e)); symmetry; [apply bool_decide_eq_true|apply bool_decide_eq_false]; congruence.
  - f_equal. symmetry. apply bool_decide_eq_false. unfold termAt.
    destruct (entryAt l idx) as [e'|] eqn:He; [|done]. apply entryAt_range in He; [lia|done].
Qed.

(** [n'] keeps of [m] what is not the log and the positions in it. *)
Definition kept m m' : Prop := rest m' = rest m /\ logStore m' = logStore m.

(** Entries that go after the end of the log. *)
Lemma write_tail es n m idx n' w :
  logStore n = Some w -> log_ok (nlog n) -> base (nlog n) <= idx ->
  wal_ok w (nlog m) -> idx = log_lastIndex (nlog m) + 1 -> Forall storable es ->
  (forall i e, es !! i = Some e -> termAt (nlog n) (idx + i) <> Some (eTerm e)) ->
  persistMissing n idx es = Some (true, n') ->
  exists w' m', logStore n' = Some w' /\ installEntries m idx es = Some m' /\ wal_ok w' (nlog m') /\ kept m m'.
Proof.
  revert n m idx w. induction es as [|e es IH]; intros n m idx w Hw Hl Hb Hok Hidx Hs Hmiss.
  { intros [= <-]. by exists w, m. }
  cbn [persistMissing]. rewrite have_spec by done. cbn [mbind option_bind].
  rewrite bool_decide_eq_false_2 by (specialize (Hmiss 0 e eq_refl); by rewrite Nat.add_0_r in Hmiss).
  apply Forall_cons in Hs as [Hse Hs].
  destruct (persistEntryLocked n idx e) as [n1 err] eqn:Ep.
  destruct (persist_written n w idx e n1 err Hw Hse Ep) as (w1 & -> & Hw1). destruct err as [err|]; [done|].
  destruct Hw1 as (r & e' & Hlog & Hr & He' & Hsame). intros Hp.
  cbn [installEntries]. rewrite (proj2 (Nat.leb_gt _ _)) by lia. cbn [mbind option_bind].
  destruct (IH (set_logStore (Some w1) n) (set_log (log_append (nlog m) [e]) m) (S idx) w1) as (w' & m' & Hw' & Hi & Hok' & Hk); try done.
  - simpl. lia.
  - simpl. eapply wal_ok_append; [exact Hok|exact Hlog|lia|done|done].
  - simpl. rewrite lastIndex_append by apply Hok. simpl. lia.
  - intros i e0 Hi0. specialize (Hmiss (S i) e0 Hi0). simpl. by rewrite Nat.add_succ_r in Hmiss.
  - exists w', m'. split_and!; try done.
Qed.

(** A batch that the log store took is in the log as it is in the store. *)
Lemma write_batch es n m idx n' w :
  logStore n = Some w -> nlog m = nlog n -> wal_ok w (nlog n) ->
  base (nlog n) < idx <= log_lastIndex (nlog n) + 1 -> Forall storable es -> log_matching (nlog n) idx es ->
  persistMissing n idx es = Some (true, n') ->
  exists w' m', logStore n' = Some w' /\ installEntries m idx es = Some m' /\ wal_ok w' (nlog m') /\ kept m m'.
Proof.
  revert m idx. induction es as [|e es IH]; intros m idx Hw Hlg Hok Hidx Hs Hmat Hp.
  { injection Hp as <-. exists w, m. split_and!; try done. by rewrite Hlg. }
  pose proof (proj1 Hok) as Hl. pose proof (lastIndex_base _ Hl) as Hlb.
  destruct (decide (termAt (nlog n) idx = Some (eTerm e))) as [Hhave|Hmiss].
  - cbn [persistMissing] in Hp. rewrite have_spec, bool_decide_eq_true_2 in Hp by (done || lia).
    assert (idx <= log_lastIndex (nlog n)) as Hle.
    { unfold termAt in Hhave. destruct (entryAt _ _) as [e0|] eqn:He0; [|done]. apply entryAt_range in He0; [lia|done]. }
    apply Forall_cons in Hs as [_ Hs].
    destruct (IH m (S idx) Hw Hlg Hok ltac:(lia) Hs) as (w' & m' & ? & Hi & ? & ?); [|done|].
    { intros i j e1 e2 Hij H1 H2. specialize (Hmat (S i) (S j) e1 e2 ltac:(lia) H1 H2). by rewrite !Nat.add_succ_r in Hmat. }
    exists w', m'. split_and!; try done. cbn [installEntries]. rewrite Hlg, (proj2 (Nat.leb_le _ _)) by done.
    rewrite Hhave. cbn [mbind option_bind]. by rewrite Nat.eqb_refl.
  - assert (forall i e0, (e :: es) !! i = Some e0 -> termAt (nlog n) (idx + i) <> Some (eTerm e0)) as Hall.
    { intros [|i] e0 Hi0; [rewrite Nat.add_0_r; by simplify_eq/=|]. intros Ht. apply Hmiss.
      specialize (Hmat 0 (S i) e e0 ltac:(lia) eq_refl Hi0 Ht). by rewrite Nat.add_0_r in Hmat. }
    destruct (decide (idx = log_lastIndex (nlog n) + 1)) as [Hend|Hmid].
    { eapply write_tail; try done; [lia|by rewrite Hlg|by rewrite Hlg]. }
    cbn [persistMissing] in Hp. rewrite have_spec, bool_decide_eq_false_2 in Hp by (done || lia). cbn [mbind option_bind] in Hp.
    apply Forall_cons in Hs as [Hse Hs]. destruct (persistEntryLocked n idx e) as [n1 err] eqn:Ep.
    destruct (persist_written n w idx e n1 err Hw Hse Ep) as (w1 & -> & Hw1). destruct err as [err|]; [done|].
    destruct Hw1 as (r & e' & Hlog & Hr & He' & Hsame).
    destruct (truncate_spec (nlog n) idx Hl ltac:(lia)) as (l & Ht & Hlok & Hbl & Hlast & Hel).
    destruct (entryAt_Some (nlog n) idx Hl ltac:(lia)) as [e0 He0].
    assert (termAt (nlog n) idx = Some (eTerm e0)) as Ht0 by (unfold termAt; by rewrite He0).
    cbn [installEntries]. rewrite Hlg, (proj2 (Nat.leb_le _ _)) by lia. rewrite Ht0. cbn [mbind option_bind].
    rewrite (proj2 (Nat.eqb_neq _ _)) by congruence. simpl negb. cbv iota. rewrite Ht. cbn [mbind option_bind].
    set (m1 := set_log (log_append l [e]) m).
    set (m2 := if (idx <=? lastApplied m1)%nat then set_lastApplied (idx - 1) m1 else m1).
    set (m3 := if (idx <=? commitIndex m2)%nat then set_commitIndex (idx - 1) m2 else m2).
    assert (nlog m3 = log_append l [e] /\ kept m m3) as [Hlg3 Hk3].
    { unfold m3, m2. destruct (idx <=? lastApplied m1)%nat; simpl; case_match; by repeat split. }
    destruct (write_tail es (set_logStore (Some w1) n) m3 (S idx) n' w1) as (w' & m' & ? & ? & ? & Hk); try done.
    + simpl. lia.
    + rewrite Hlg3. eapply (wal_ok_write w w1 (nlog n) idx e r e'); try done; [by apply log_ok_append| | |].
      * rewrite lastIndex_append by done. simpl. lia.
      * replace idx with (log_lastIndex l + 1) by lia. by apply entryAt_append_new.
      * intros j Hj. rewrite entryAt_append_old by (done || lia). by apply Hel.
    + rewrite Hlg3, lastIndex_append by done. simpl. lia.
    + intros i e1 Hi1. specialize (Hall (S i) e1 Hi1). simpl. by rewrite Nat.add_succ_r in Hall.
    + exists w', m'. split_and!; try done. unfold kept in *. destruct Hk, Hk3. split; congruence.
Qed.

(** ** Applying *)

Lemma maybeCompact_dur n n' :
  dur n -> base (nlog n) <= lastApplied n <= log_lastIndex (nlog n) -> maybeCompactLocked n = Some n' -> dur n'.
Proof.
  intros Hd Hr. unfold maybeCompactLocked, baseIndex.
  case_match; [by intros [= <-]|]. case_match; [by intros [= <-]|]. case_match eqn:E; [by intros [= <-]|]. bool_to_prop.
  destruct Hd as ((w & Hw & Hok) & (ss & Hss & Hs) & Hm). pose proof Hok as (Hl & Hc & Hf).
  destruct (entryAt_Some (nlog n) (lastApplied n) Hl ltac:(lia)) as [e He].
  assert (termAt (nlog n) (lastApplied n) = Some (eTerm e)) as Ht by (unfold termAt; by rewrite He).
  rewrite Ht. cbn [mbind option_bind]. destruct (sm_take (fsm n)) as [d|err].
  2:{ intros [= <-]. split; [by exists w|]. by split; [exists ss|]. }
  rewrite Hss. destruct (ss_save ss _) as [ss' [err|]] eqn:Es.
  - intros [= <-]. split; [by exists w|]. split; [|done]. exists ss'. split; [done|]. by rewrite (ss_failed _ _ _ _ Es).
  - cbn [nlog set_snapshotStore].
    destruct (compact_spec (nlog n) (lastApplied n) (eTerm e) Hl ltac:(lia) Ht) as (l & -> & Hlok & Hb & Hlast & Htl & Hel).
    intros [= <-]. split; [|split; [|done]].
    + exists w. split; [done|]. split_and!; [done| |done]. eapply covers_raise; [exact Hc|simpl; lia|done|]. simpl. by rewrite Hb.
    + exists ss'. split; [done|]. rewrite (ss_saved _ _ _ Es). simpl. by rewrite Hb.
Qed.

Lemma foldl_kept {A} (f : Node F W SS MS -> A -> Node F W SS MS) (l : list A) n :
  (forall n a, rest (f n a) = rest n) -> rest (foldl f n l) = rest n.
Proof using Type. intros H. revert n. induction l as [|a l IH]; intros n; simpl; [done|]. by rewrite IH, H. Qed.

Lemma drop_non_voters_rest n ids : rest (drop_non_voters n ids) = rest n.
Proof using Type. apply foldl_kept. intros n' a. by case_match. Qed.

Lemma track_new_rest n ids : rest (track_new n ids) = rest n.
Proof using Type. apply foldl_kept. intros n' a. by case_match. Qed.

Lemma reset_progress_rest n : rest (reset_progress n) = rest n.
Proof using Type. by apply foldl_kept. Qed.

Lemma applyConfig_dur n cfg idx : dur n -> dur (applyConfigLocked n cfg idx).
Proof.
  intros (Hw & Hsn & (ms & Hms & _)).
  destruct (applyConfig_core n cfg idx) as (Hn & _ & _ & _ & Hlg & _ & _ & _ & Hls).
  unfold dur. rewrite Hlg, Hls, Hn. revert Hn. unfold applyConfigLocked.
  set (n1 := set_removed _ _).
  set (n2 := if IsLeader n1 then _ else n1).
  assert (rest n2 = rest n1) as H2.
  { unfold n2. case_match; [|done]. by rewrite drop_non_voters_rest, track_new_rest. }
  set (n3 := set_joining ∅ _).
  assert (rest n3 = rest n1) as H3.
  { rewrite <- H2. transitivity (rest (drop_non_voters n2 (elements (joining n2)))); [done|]. apply drop_non_voters_rest. }
  set (n4 := if (_ && _)%bool then _ else n3).
  assert (rest n4 = rest n1) as H4 by (rewrite <- H3; unfold n4; by case_match).
  clearbody n4. clear n2 n3 H2 H3. injection H4 as Hi Hp Hr Hs4 Hm4.
  assert (metaStore n4 = Some ms) as -> by congruence. intros _. simpl. rewrite Hs4, Hp, Hr.
  split; [done|]. split; [done|]. eexists. split; [done|]. intros m. rewrite meta_saved. intros [= <-]. done.
Qed.

Lemma applyOne_dur n n' :
  dur n -> base (nlog n) <= lastApplied n < log_lastIndex (nlog n) -> applyOne n = Some n' -> dur n'.
Proof.
  intros Hd Hr. unfold applyOne. set (n1 := set_lastApplied _ n).
  assert (dur n1) as Hd1 by (by eapply dur_frame).
  destruct (entryAt (nlog n1) (lastApplied n1)) as [e|]; [|done]. cbn [mbind option_bind].
  destruct (eConfig e) as [c|]; [intros [= <-]; by apply applyConfig_dur|].
  destruct (eCommand e); [|by intros [= <-]].
  apply maybeCompact_dur; [by eapply dur_frame|]. simpl. lia.
Qed.

Lemma applyLoop_dur k n n' :
  dur n -> log_ok (nlog n) -> base (nlog n) <= lastApplied n -> lastApplied n + k <= log_lastIndex (nlog n) ->
  applyLoop k n = Some n' -> dur n'.
Proof.
  revert n. induction k as [|k IH]; intros n Hd Hl Hb Hk; [by intros [= <-]|]. cbn [applyLoop].
  destruct (applyOne_ok n Hl ltac:(lia)) as (n1 & e & E1 & A1 & L1 & _). rewrite E1. cbn [mbind option_bind].
  destruct A1 as (_&_&_&_&_&_&Hl1&Hb1&Hlast1&_). apply IH; [|done|lia|lia]. eapply applyOne_dur; [exact Hd|lia|exact E1].
Qed.

Lemma applyCommitted_dur n n' :
  dur n -> log_ok (nlog n) -> base (nlog n) <= lastApplied n <= commitIndex n -> commitIndex n <= log_lastIndex (nlog n) ->
  applyCommittedLocked n = Some n' -> dur n'.
Proof. intros Hd Hl Hb Hc. apply applyLoop_dur; [done|done|lia|lia]. Qed.

Lemma updateCommit_dur n n' :
  dur n -> log_ok (nlog n) -> base (nlog n) <= lastApplied n <= commitIndex n -> commitIndex n <= log_lastIndex (nlog n) ->
  updateCommitIndexLocked n = Some n' -> dur n'.
Proof.
  intros Hd Hl Hb Hc. unfold updateCommitIndexLocked.
  destruct (commitScan_ok n (commitIndex n) (seq (commitIndex n + 1) (log_lastIndex (nlog n) - commitIndex n)) Hl) as (c & -> & Hcc).
  { intros N HN%elem_of_seq. lia. }
  assert (commitIndex n <= c <= log_lastIndex (nlog n)) as Hr by (destruct Hcc as [->|[HN%elem_of_seq _]]; lia).
  cbn [mbind option_bind]. apply applyCommitted_dur; [by eapply dur_frame|done|simpl; lia|simpl; lia].
Qed.

(** ** Handlers *)

Lemma dur_log_ok n : dur n -> log_ok (nlog n).
Proof using Type. by intros ((w & _ & Hok & _) & _). Qed.

(** What a single append leaves: nothing, or the entry in the store. *)
Lemma persist_dur n e n' err :
  dur n -> storable e -> persistEntryLocked n (log_lastIndex (nlog n) + 1) e = (n', err) ->
  exists w', n' = set_logStore (Some w') n /\
    match err with
    | Some _ => dur n'
    | None => forall n'', rest n'' = rest n -> logStore n'' = Some w' -> nlog n'' = log_append (nlog n) [e] -> dur n''
    end.
Proof.
  intros Hd Hs Hp. pose proof Hd as ((w & Hw & Hok) & Hd'). destruct (persist_written n w _ e n' err Hw Hs Hp) as (w' & -> & Hw').
  exists w'. split; [done|]. destruct err as [err|].
  - split; [|done]. exists w'. split; [done|]. destruct Hok as (? & Hc & Hf). unfold wal_ok. by rewrite Hw'.
  - destruct Hw' as (r & e' & Hlog & Hr & He' & Hsame). intros n'' H1 H2 H3. by eapply dur_append.
Qed.

Lemma appendEntry_dur n e r n' :
  dur n -> node_ok n -> storable e -> appendEntryLocked n e = Some (r, n') -> dur n'.
Proof.
  intros Hd (Hl & Hb & Hac & Hc) Hs. unfold appendEntryLocked.
  destruct (persistEntryLocked n _ e) as [n1 err] eqn:Ep. destruct (persist_dur _ _ _ _ Hd Hs Ep) as (w & -> & Hd1).
  destruct err as [err|]; [by intros [= _ <-]|].
  destruct (updateCommitIndexLocked _) as [n2|] eqn:Eu; [|done]. intros [= _ <-].
  eapply updateCommit_dur; [| | | |exact Eu]; simpl; rewrite ?lastIndex_append by done; simpl; [by apply Hd1|by apply log_ok_append|lia|lia].
Qed.

Lemma tryBecomeLeader_dur n t b n' :
  dur n -> node_ok n -> tryBecomeLeader n t = Some (b, n') -> dur n'.
Proof.
  intros Hd (Hl & Hb & Hac & Hc). unfold tryBecomeLeader.
  case_match; [by intros [= _ <-]|]. case_match; [by intros [= _ <-]|].
  destruct (persistEntryLocked n _ _) as [n1 err] eqn:Ep. destruct (persist_dur n (noop t) n1 err Hd ltac:(done) Ep) as (w & -> & Hd1).
  destruct err as [err|]; [by intros [= _ <-]|].
  set (n2 := set_noopIndex _ _). pose proof (reset_progress_core n2) as (_&_&_&_&Hlg&Hco&Hla&_&Hls).
  pose proof (reset_progress_rest n2) as Hrest. set (n3 := reset_progress n2) in *. simpl in Hlg, Hco, Hla, Hls.
  destruct (updateCommitIndexLocked _) as [n4|] eqn:Eu; [|done]. intros [= _ <-].
  eapply updateCommit_dur; [| | | |exact Eu]; simpl; rewrite ?Hlg, ?Hco, ?Hla, ?lastIndex_append by done; simpl;
    [by apply Hd1; simpl; rewrite ?Hrest, ?Hls, ?Hlg|by apply log_ok_append|lia|lia].
Qed.

(** [persistMissing] looks at the log and its store only. *)
Lemma persistMissing_cong es n m idx b n' :
  nlog m = nlog n -> logStore m = logStore n -> persistMissing n idx es = Some (b, n') ->
  exists m', persistMissing m idx es = Some (b, m') /\ logStore m' = logStore n'.
Proof using Type.
  revert n m idx. induction es as [|e es IH]; intros n m idx Hlg Hls; [intros [= <- <-]; by exists m|].
  cbn [persistMissing]. rewrite Hlg.
  destruct (if (_ <=? _)%nat then _ else _) as [h|]; [|done]. cbn [mbind option_bind]. destruct h; [by apply IH|].
  unfold persistEntryLocked. rewrite Hls. destruct (logStore n) as [w|] eqn:Ew; [|by apply IH; rewrite ?Ew].
  destruct (AppendEntry w idx (eTerm e) e) as [w' [err|]]; [intros [= <- <-]; by eexists|].
  by apply IH.
Qed.

Lemma persistMissing_store es n w idx b n' :
  logStore n = Some w -> persistMissing n idx es = Some (b, n') -> exists w', logStore n' = Some w'.
Proof using Type.
  revert n w idx. induction es as [|e es IH]; intros n w idx Hw; [intros [= _ <-]; by exists w|].
  cbn [persistMissing]. destruct (if (_ <=? _)%nat then _ else _) as [h|]; [|done]. cbn [mbind option_bind].
  destruct h; [by eapply IH|]. unfold persistEntryLocked. rewrite Hw.
  destruct (AppendEntry w idx (eTerm e) e) as [w' [err|]]; [intros [= _ <-]; by eexists|]. by eapply IH.
Qed.

(** The log store took a batch in full, or nothing of it. *)
Definition whole n (args : AppendEntries) : Prop := forall n',
  persistMissing n (aePrevLogIndex args + 1) (aeEntries args) = Some (false, n') ->
  wal_content (logStore n') = wal_content (logStore n).

Lemma HandleAppendEntries_dur n args reply n' :
  dur n -> node_ok n -> Forall storable (aeEntries args) ->
  log_matching (nlog n) (aePrevLogIndex args + 1) (aeEntries args) -> whole n args ->
  HandleAppendEntries n args = Some (reply, n') -> dur n'.
Proof.
  intros Hd Hok Hs Hmat Hwh. unfold HandleAppendEntries. case_match; [by intros [= _ <-]|].
  set (n0 := if (currentTerm n <? aeTerm args)%nat then _ else n). set (n1 := set_leaderID _ (set_role RoleFollower n0)).
  assert (nlog n1 = nlog n /\ commitIndex n1 = commitIndex n /\ lastApplied n1 = lastApplied n /\ kept n n1)
    as (Hlg & Hco & Hla & Hrest & Hls) by (unfold n1, n0; by case_match).
  clearbody n1. clear n0.
  assert (node_ok n1) as Hok1 by (unfold node_ok in *; by rewrite Hlg, Hco, Hla).
  assert (dur n1) as Hd1 by (by eapply dur_frame).
  case_match eqn:E1; [by intros [= _ <-]|]. case_match eqn:E2; [by intros [= _ <-]|]. bool_to_prop.
  destruct (if (0 <? _)%nat then _ else _) as [[]|]; [by intros [= _ <-]| |done]. cbn [mbind option_bind].
  pose proof Hd1 as ((w & Hw & Hwok) & Hd1').
  destruct (persistMissing_ok n1 (aePrevLogIndex args + 1) (aeEntries args) (proj1 Hok1) ltac:(unfold baseIndex in *; lia))
    as (b & n2 & Ep & [lw Hlw]). rewrite Ep. cbn [mbind option_bind].
  destruct b; cbn [negb].
  - destruct (write_batch (aeEntries args) n1 n2 (aePrevLogIndex args + 1) n2 w Hw ltac:(by rewrite Hlw) Hwok)
      as (w' & n3 & Hw' & Hi & Hwok3 & Hk3); [unfold baseIndex in *; lia|done|by rewrite Hlg|done|].
    assert (node_ok n2) as Hok2 by (by rewrite Hlw).
    destruct (installEntries_ok n2 (aePrevLogIndex args + 1) (aeEntries args) Hok2) as (n3' & Hi' & Hok3 & _ & Hls3 & Hb3 & He3 & _);
      [rewrite Hlw; simpl; unfold baseIndex in *; lia|].
    rewrite Hi' in *. injection Hi as <-. cbn [mbind option_bind].
    assert (dur n3') as Hd3.
    { eapply (dur_move n1 n3' w'); [done| | |done| |].
      - destruct Hk3 as [-> _]. by rewrite Hlw.
      - congruence.
      - rewrite Hb3. by rewrite Hlw.
      - unfold termAt. rewrite He3 by (unfold baseIndex in *; lia). by rewrite Hlw. }
    destruct Hok3 as (Hl3 & Hb3' & Hac3 & Hc3).
    destruct (applyCommittedLocked _) as [n5|] eqn:Ea; [|done]. intros [= _ <-].
    assert (commitIndex n3' <= aeLeaderCommit args `min` log_lastIndex (nlog n3') \/ ~ commitIndex n3' < aeLeaderCommit args) as Hcm by lia.
    destruct (Nat.ltb_spec (commitIndex n3') (aeLeaderCommit args));
      (eapply applyCommitted_dur; [| | | |exact Ea]); simpl; try done; try lia; by eapply dur_frame.
  - intros [= _ <-]. subst n2.
    destruct (persistMissing_cong _ n1 n _ _ _ ltac:(done) ltac:(done) Ep) as (n2' & Ep' & Hls').
    specialize (Hwh _ Ep'). rewrite Hls' in Hwh. simpl in Hwh. split; [|done]. simpl.
    rewrite <- Hls, Hw in Hwh. destruct (persistMissing_store _ _ _ _ _ _ Hw Ep) as [w' [= ->]]. simpl in Hwh.
    exists w'. split; [done|]. destruct Hwok as (? & Hc & Hf). unfold wal_ok. by rewrite Hwh.
Qed.

(** The snapshot of a leader is saved. *)
Definition snapshot_saved n (args : InstallSnapshot) : Prop := forall ss, snapshotStore n = Some ss ->
  (ss_save ss (mkSnapshot (isLastIncludedIndex args) (isLastIncludedTerm args) (isData args))).2 = None.

Lemma HandleInstallSnapshot_dur n args reply n' :
  dur n -> node_ok n -> snapshot_saved n args -> HandleInstallSnapshot n args = Some (reply, n') -> dur n'.
Proof.
  intros Hd Hok Hsv. unfold HandleInstallSnapshot. case_match; [by intros [= _ <-]|].
  set (n0 := if (currentTerm n <? isTerm args)%nat then _ else n). set (n1 := set_leaderID _ (set_role RoleFollower n0)).
  assert (nlog n1 = nlog n /\ commitIndex n1 = commitIndex n /\ lastApplied n1 = lastApplied n /\ kept n n1)
    as (Hlg & Hco & Hla & Hrest & Hls) by (unfold n1, n0; by case_match).
  clearbody n1. clear n0.
  assert (dur n1) as Hd1 by (by eapply dur_frame).
  case_match eqn:E; [by intros [= _ <-]|]. bool_to_prop.
  destruct (sm_install (fsm n1) (isData args)) as [[err|] f]; [intros [= _ <-]; by eapply dur_frame|].
  set (i := isLastIncludedIndex args) in *. set (t := isLastIncludedTerm args) in *.
  destruct Hd1 as ((w & Hw & (Hl & Hc & Hf)) & (ss & Hss & Hs) & Hm).
  cbn [snapshotStore set_fsm]. rewrite Hss.
  destruct (ss_save ss (mkSnapshot i t (isData args))) as [ss' err] eqn:Es.
  assert (err = None) as -> by (injection Hrest as _ _ _ Hrs _; specialize (Hsv ss ltac:(congruence)); fold i t in Hsv; by rewrite Es in Hsv).
  set (n2 := set_snapshotStore _ _).
  assert (forall l n'', log_ok l -> covers (wal_log w) l -> base l = i -> termAt l i = Some t ->
            nlog n'' = l -> rest n'' = rest n2 -> logStore n'' = Some w -> dur n'') as Hfin.
  { intros l n'' H1 H2 H3 H4 H5 [= H6 H7 H8 H9 H10] H11. unfold dur. rewrite H5, H6, H7, H8, H9, H10. split; [by exists w|].
    split; [|done]. exists ss'. split; [done|]. rewrite (ss_saved _ _ _ Es). simpl. by rewrite H3. }
  assert (forall l, log_ok l -> covers (wal_log w) l -> base l = i -> termAt l i = Some t ->
     forall n'', (if (commitIndex (set_log l n2) <? i)%nat then set_commitIndex i (set_log l n2) else set_log l n2) = n'' ->
     dur (set_lastApplied i n'')) as Hfin'.
  { intros l H1 H2 H3 H4 n'' <-. apply (Hfin l); try done. all: by destruct (commitIndex (set_log l n2) <? i)%nat. }
  assert (log_ok (reset (nlog n2) i t) /\ covers (wal_log w) (reset (nlog n2) i t) /\
          termAt (reset (nlog n2) i t) i = Some t) as (Hr1 & Hr2 & Hr3).
  { split_and!; [done|apply covers_reset; unfold log_lastIndex; simpl; lia|].
    unfold termAt, entryAt. simpl. by rewrite Nat.ltb_irrefl, Nat.sub_diag. }
  change (nlog n2) with (nlog n1) in *.
  destruct (Nat.ltb_spec (log_lastIndex (nlog n1)) i); cbn [mbind option_bind].
  { intros [= _ <-]. by eapply Hfin'. }
  assert (base (nlog n1) <= i) by (destruct Hok as (_ & ? & _ & _); rewrite Hlg; lia).
  destruct (entryAt_Some (nlog n1) i Hl ltac:(lia)) as [e He].
  assert (termAt (nlog n1) i = Some (eTerm e)) as Ht by (unfold termAt; by rewrite He).
  rewrite Ht. cbn [mbind option_bind]. destruct (Nat.eqb_spec (eTerm e) t) as [Heq|_]; cbn [negb mbind option_bind].
  - destruct (compact_spec (nlog n1) i t Hl ltac:(lia)) as (l & -> & Hlok & Hbl & Hlast & Htl & Hel); [by rewrite Ht, Heq|].
    cbn [mbind option_bind]. intros [= _ <-]. eapply Hfin'; try done. eapply covers_raise; [exact Hc|lia|done|]. by rewrite Hbl.
  - intros [= _ <-]. by eapply Hfin'.
Qed.

(** ** Runs *)

Definition input_ok n (i : input) : Prop :=
  match i with
  | IAppendEntries args =>
      Forall storable (aeEntries args) /\
      log_matching (nlog n) (aePrevLogIndex args + 1) (aeEntries args) /\ whole n args
  | IInstallSnapshot args => snapshot_saved n args
  | IPropose c => storable (mkEntry 0 (Some c) None)
  | _ => True
  end.

Fixpoint inputs_ok n (evs : list input) : Prop :=
  match evs with
  | [] => True
  | i :: evs' => input_ok n i /\ forall n', raft_step n i = Some n' -> inputs_ok n' evs'
  end.

Lemma countAcks_dur replies n acks stepped : dur n -> dur (countAcks n acks stepped replies).2.
Proof using Type.
  revert n acks stepped. induction replies as [|r replies IH]; intros n acks stepped Hd; simpl; [done|].
  case_match; apply IH; [by eapply dur_frame|done].
Qed.

Lemma confirmLeadership_dur n replies finished : dur n -> dur (confirmLeadership n replies finished).2.
Proof using Type.
  intros Hd. unfold confirmLeadership. case_match; [done|]. case_match; [done|].
  pose proof (countAcks_dur replies n 1 false Hd) as Hd'. destruct (countAcks n 1 false replies) as [[a st] n1].
  case_match; [by case_match|done].
Qed.

Lemma raft_step_dur n i n' : dur n -> node_ok n -> input_ok n i -> raft_step n i = Some n' -> dur n'.
Proof.
  intros Hd Hok Hi. destruct i; simpl in *.
  - intros [= <-]. unfold becomeCandidate. case_match; [done|]. by eapply dur_frame.
  - unfold startElection. destruct (log_lastTerm _); [|done]. cbn [mbind option_bind].
    case_match; [|by intros [= <-]]. destruct (tryBecomeLeader _ _) as [[b n1]|] eqn:E; [|done]. intros [= <-].
    by eapply tryBecomeLeader_dur.
  - unfold onVoteReply. case_match; [intros [= <-]; by eapply dur_frame|]. case_match; [by intros [= <-]|].
    cbn zeta. case_match; [|by intros [= <-]]. destruct (tryBecomeLeader _ _) as [[b n1]|] eqn:E; [|done]. intros [= <-].
    by eapply tryBecomeLeader_dur.
  - unfold HandleRequestVote. case_match; [by intros [= <-]|].
    set (n1 := if (_ <? _)%nat then _ else n). assert (dur n1) by (unfold n1; case_match; [by eapply dur_frame|done]).
    destruct (log_lastTerm _); [|done]. cbn [mbind option_bind]. case_match; intros [= <-]; [by eapply dur_frame|done].
  - destruct (HandleAppendEntries n args) as [[r n1]|] eqn:E; [|done]. intros [= <-]. destruct Hi as (? & ? & ?).
    by eapply HandleAppendEntries_dur.
  - destruct (HandleInstallSnapshot n args) as [[r n1]|] eqn:E; [|done]. intros [= <-]. by eapply HandleInstallSnapshot_dur.
  - unfold Propose. case_match; [by intros [= <-]|]. destruct (appendEntryLocked _ _) as [[r n1]|] eqn:E; [|done]. intros [= <-].
    eapply appendEntry_dur; [exact Hd|done| |exact E]; exact Hi.
  - unfold onAppendReply. case_match; [intros [= <-]; by eapply dur_frame|]. case_match; [by intros [= <-]|].
    case_match; [|case_match; intros [= <-]; [by eapply dur_frame|done]].
    destruct Hok as (Hl & Hb & Hac & Hc). case_match; intros Hu;
      (eapply updateCommit_dur; [| | | |exact Hu]; simpl; try done; try lia; by eapply dur_frame).
  - unfold onSnapshotReply. case_match; [intros [= <-]; by eapply dur_frame|]. case_match; [by intros [= <-]|].
    destruct Hok as (Hl & Hb & Hac & Hc). case_match; intros Hu;
      (eapply updateCommit_dur; [| | | |exact Hu]; simpl; try done; try lia; by eapply dur_frame).
  - unfold AddServer. case_match; [by intros [= <-]|]. case_match; [by intros [= <-]|].
    set (n1 := set_matchIndex _ _).
    assert (kept n n1 /\ nlog n1 = nlog n /\ commitIndex n1 = commitIndex n /\ lastApplied n1 = lastApplied n) as ((Hr & Hls) & Hlg & Hco & Hla)
      by (unfold n1; by case_match).
    destruct (appendEntryLocked _ _) as [[r n2]|] eqn:E; [|done]. intros [= <-].
    eapply appendEntry_dur; [| | |exact E]; [by eapply dur_frame|unfold node_ok in *; by rewrite Hlg, Hco, Hla|done].
  - unfold RemoveServer. case_match; [by intros [= <-]|]. case_match; [by intros [= <-]|].
    destruct (appendEntryLocked _ _) as [[r n2]|] eqn:E; [|done]. intros [= <-]. eapply appendEntry_dur; [exact Hd|done| |exact E]; done.
  - intros [= <-]. unfold finishStepDown. case_match; [by eapply dur_frame|done].
  - intros [= <-]. unfold ReadIndex. case_match; [done|]. case_match; [done|].
    pose proof (confirmLeadership_dur n replies finished Hd) as Hd'.
    destruct (confirmLeadership n replies finished) as [[e|] n1]; [done|]. simpl in *. by case_match.
Qed.

Lemma raft_run_cons n i evs : raft_run n (i :: evs) = (n1 ← raft_step n i; raft_run n1 evs).
Proof using Type.
  unfold raft_run. simpl. destruct (raft_step n i); [done|]. simpl. induction evs; simpl; done.
Qed.

Lemma raft_run_dur evs n n' : dur n -> node_ok n -> inputs_ok n evs -> raft_run n evs = Some n' -> dur n' /\ node_ok n'.
Proof.
  revert n. induction evs as [|i evs IH]; intros n Hd Hok Hi; [by intros [= <-]|].
  rewrite raft_run_cons. destruct (raft_step_ok n i Hok) as (n1 & E & Hok1 & _). rewrite E. cbn [mbind option_bind].
  destruct Hi as [Hi Hin]. apply IH; [by eapply raft_step_dur|done|by apply Hin].
Qed.
End nodes.
