(* ===== verification/RaftRestart.v ===== *)
(** * Restarting a Raft node *)

From S2P Require Import Prelude WalTypes WalCodec BTree Expiration Store RaftLog Raft RaftProps RaftInstances RaftThms ClusterStore RaftDurable.

(** Two logs that reach as far and hold the same operations. *)
Definition log_equiv `{!Json} (l l' : Log) : Prop :=
  base l = base l' /\ log_lastIndex l = log_lastIndex l' /\ termAt l (base l) = termAt l' (base l) /\
  forall i, base l < i -> option_Forall2 same_entry (entryAt l i) (entryAt l' i).

(** Entries that stand for the same operation do the same to the store. *)
Lemma NewRaftApply_same {I W} {EI : ExpirationIndex I} {WW : Wal W} {J : Json} {EJ : EntriesJson} (f : Fsm I W) e e' :
  same_entry e e' -> eConfig e = None -> NewRaftApply f e = NewRaftApply f e'.
Proof.
  intros (_ & _ & Hc) He. destruct (Hc He) as [Heq|(c & c' & r & r' & Hb & Hb' & Hr & Hr' & Hp)]; unfold NewRaftApply.
  - by rewrite Heq.
  - rewrite Hb, Hb'. simpl. rewrite Hr, Hr'. do 2 f_equal. destruct (fstore f) as [s|]; [|done]. simpl.
    assert (op r = op r' /\ rkey r = rkey r' /\ val r = val r' /\ rexp r = rexp r') as (Ho & Hk & Hv & Hx)
      by (unfold payload in Hp; by injection Hp).
    unfold ApplyRecord. by rewrite Ho, Hk, Hv, Hx.
Qed.

Section restart.
Context {F W SS MS : Type}.
Context {SMF : StateMachine F} {WW : Wal W} {WT : WalTrace W} {SSS : SnapshotStore SS} {SSL : SnapshotStoreLaws SS}
  {MSS : MetaStore MS} {J : Json} {JL : JsonLaws} {CJ : ConfigJson}.
Implicit Types n m : Node F W SS MS.

(** Replaying records that can be read never fails, and rebuilds the log. *)
Lemma recover_records_ok R m :
  Forall readable R ->
  exists m', recover_records m R = (m', None) /\ nlog m' = foldl replay_rec (nlog m) R /\
    nid m' = nid m /\ commitIndex m' = commitIndex m /\ lastApplied m' = lastApplied m /\ fsm m' = fsm m.
Proof.
  intros HR. revert m. induction HR as [|r R [e He] _ IH]; intros m; [by exists m|]. cbn [recover_records].
  unfold ApplyRecoveredRecord. rewrite He. cbn [foldl].
  assert (replay_rec (nlog m) r =
    if (N.to_nat (raftIndex r) <=? baseIndex (nlog m))%nat then nlog m else log_set (nlog m) (N.to_nat (raftIndex r)) e) as Hrep
    by (unfold replay_rec; by rewrite He).
  rewrite Hrep. case_match; [apply IH|].
  destruct (eConfig e) as [c|]; match goal with |- context [recover_records ?x R] => destruct (IH x) as (m' & -> & H1 & H2 & H3 & H4 & H5) end;
    exists m'; by split_and!.
Qed.

Context (config_json : config_roundtrip).
Context (clean : forall (w : W) r w' e, wal_append w r = (w', Some e) -> wal_log w' = wal_log w).
Context (meta_saved : forall (ms : MS) (cm : CommittedMeta), ms_load (ms_save ms cm).1 = Ok (Some cm)).
#[local] Set Default Proof Using "config_json clean meta_saved SSL JL".

Lemma covers_equiv R l t :
  log_ok l -> covers R l -> base l < log_lastIndex l -> termAt l (base l) = Some t ->
  log_equiv (replay_log (base l) t R) l.
Proof using Type.
  intros Hl Hc Hb Ht. destruct (replay_log_shape (base l) t R) as (Hl' & Hb' & Ht').
  destruct (Hc (base l) t) as [Hlast He]; [lia|]. split_and!; [done|done|congruence|]. intros i Hi.
  destruct (entryAt l i) as [e|] eqn:Ei.
  - destruct (He i e) as (e' & -> & Hs); [lia|done|]. constructor. by symmetry.
  - destruct (entryAt (replay_log (base l) t R) i) as [e'|] eqn:Ei'; [|constructor].
    apply entryAt_range in Ei'; [|done]. destruct (entryAt_Some l i Hl) as [e He']; [lia|congruence].
Qed.

(** C13: a restarted Raft node has its log back: recovering a new node from the
    snapshot, the log and the membership that a node saved does not fail; it
    starts at the old one's snapshot, its log, when there is anything above the
    snapshot, reaches as far as the old one's and holds at every index an entry of
    the same term and operation, and it has the old one's committed membership.
    The old node started in step with its files and handled any sequence of
    inputs, of which is assumed: every batch of entries matches the log as Raft's
    log matching property says; commands decode to store operations that the
    codec writes and reads back; a leader's snapshot that is installed is also
    saved; the log store took each batch in full or not at all. Of the stores:
    an append that fails adds no record to what recovery will read, a saved
    membership is the one loaded, a saved snapshot is the one loaded and a failed
    save keeps the old one, and the state machine takes the snapshot back. The
    WAL in its directory is such a store only as long as none of its appends
    fails: a failed one uses up an index, and its recovery then refuses the log
    ([failed_append_poisons]); the snapshot and membership files are such stores
    as long as the machine stays up: they are not synced, and a crash of the
    machine can tear them ([torn_snapshot_left]). *)
Theorem raft_restart n0 evs n ps threshold f m0 :
  dur n0 -> node_ok n0 -> inputs_ok n0 evs -> raft_run n0 evs = Some n ->
  NewNode (nid n) ps threshold f = Ok m0 ->
  (forall s, (ss ← snapshotStore n; match ss_load ss with Ok o => o | Err _ => None end) = Some s ->
             (sm_install f (SData s)).1 = None) ->
  exists w ss ms m,
    logStore n = Some w /\ snapshotStore n = Some ss /\ metaStore n = Some ms /\
    recover m0 (ss_load ss) (wal_log w) (ms_load ms) = (m, None) /\
    base (nlog m) = base (nlog n) /\ commitIndex m = base (nlog n) /\ lastApplied m = base (nlog n) /\
    (base (nlog n) < log_lastIndex (nlog n) -> log_equiv (nlog m) (nlog n)) /\
    (forall cm, ms_load ms = Ok (Some cm) -> peers m = peers n /\ removed m = removed n).
Proof.
  intros Hd0 Hok0 Hin Hrun Hnew Hinst.
  destruct (raft_run_dur config_json clean meta_saved evs n0 n Hd0 Hok0 Hin Hrun)
    as [((w & Hw & (Hl & Hc & Hf)) & (ss & Hss & Hs) & (ms & Hms & Hm)) Hok].
  exists w, ss, ms. rewrite Hss in Hinst. cbn [mbind option_bind] in Hinst.
  unfold NewNode in Hnew. destruct (String.eqb (nid n) ""); [done|]. injection Hnew as <-. set (m0 := mkNode (nid n) ps _ _ _ _ _ _ _ _ _ _ _ _ _ _ _ _ _ _ _).
  assert (exists m1 t, match ss_load ss with Ok (Some s) => RestoreSnapshot m0 s | _ => (m0, None) end = (m1, None) /\
            nlog m1 = mkLog (base (nlog n)) [noop t] /\ termAt (nlog n) (base (nlog n)) = Some t /\ nid m1 = nid n /\
            commitIndex m1 = base (nlog n) /\ lastApplied m1 = base (nlog n)) as (m1 & t & E1 & Hlg & Ht & Hid & Hci & Hla).
  { destruct (ss_load ss) as [[s|]|]; [| |done].
    - specialize (Hinst s eq_refl). unfold RestoreSnapshot. cbn [fsm m0].
      destruct (sm_install f (SData s)) as [err f'] eqn:Ei. simpl in Hinst. subst err. destruct Hs as [Hi Ht]. rewrite Hi.
      cbn [commitIndex lastApplied set_log set_fsm set_commitIndex m0]. eexists _, _. split; [done|].
      destruct (base (nlog n)) eqn:Eb; by split_and!.
    - destruct Hs as [Hb Ht]. exists m0, 0. rewrite Hb. by split_and!. }
  unfold recover. rewrite E1. destruct (recover_records_ok (wal_log w) m1 Hf) as (m2 & -> & Hlg2 & Hid2 & Hci2 & Hla2 & _).
  rewrite Hlg in Hlg2. fold (replay_log (base (nlog n)) t (wal_log w)) in Hlg2.
  destruct (replay_log_shape (base (nlog n)) t (wal_log w)) as (_ & Hbase & _).
  set (m := match ms_load ms with Ok (Some cm) => AdoptCommittedMeta m2 cm | _ => m2 end).
  assert (nlog m = nlog m2 /\ commitIndex m = commitIndex m2 /\ lastApplied m = lastApplied m2) as (Hlgm & Hcim & Hlam)
    by (unfold m; destruct (ms_load ms) as [[cm|]|]; by split_and!).
  exists m. split_and!; [done|done|done|done|congruence|congruence|congruence| |].
  - intros Hlt. rewrite Hlgm, Hlg2. by apply covers_equiv.
  - intros cm Hcm. unfold m. rewrite Hcm. destruct (Hm cm Hcm) as [-> ->]. unfold AdoptCommittedMeta, others. simpl.
    by rewrite Hid2, Hid.
Qed.
End restart.

(** ** A concrete restart *)

#[export] Program Instance RaftWal_trace : WalTrace RaftWal := {| wal_log w := w |}.
Next Obligation. intros w r w' e [= <- <-]. by exists [r]. Qed.

#[export] Instance MemSnapshots_laws : SnapshotStoreLaws MemSnapshots.
Proof. split; [by intros ss s ss' [= <-]|by intros ss s ss' e [=]]. Qed.

Lemma BitConfigJson_roundtrip : config_roundtrip.
Proof. intros c b [= <-]. simpl. unfold read_value. rewrite read_write_bits. apply decode_encode. Qed.

Lemma RaftWal_clean (w : RaftWal) r w' e : wal_append w r = (w', Some e) -> wal_log w' = wal_log w.
Proof. by intros [=]. Qed.

Lemma MemMeta_saved (ms : MemMeta) (cm : CommittedMeta) : ms_load (ms_save ms cm).1 = Ok (Some cm).
Proof. done. Qed.

Lemma mem_node_dur id ps : dur (mem_node id ps).
Proof.
  split; [|split].
  - exists []. split; [done|]. split_and!; [done| |done]. by apply covers_reset.
  - by exists None.
  - by exists None.
Qed.

(** Commands of the sample codec can be stored. *)
Lemma put_decodes k v : json_unrecord (put_command k v) = Some (store_record OpPut k v 0).
Proof.
  change (read_value (write_bits (encode (store_record OpPut k v 0))) = Some (store_record OpPut k v 0)).
  unfold read_value. rewrite read_write_bits. apply decode_encode.
Qed.

Lemma put_storable k v t : storable (mkEntry t (Some (put_command k v)) None).
Proof.
  intros _ b r [= <-] Hr. assert (r = store_record OpPut k v 0) as ->.
  { rewrite put_decodes in Hr. by injection Hr. }
  by split_and!.
Qed.

(** A log store that never fails takes every batch whose entries encode. *)
Lemma mem_whole (n : MemNode) (args : AppendEntries) :
  Forall (fun e => exists r, entryRecord e = Ok r) (aeEntries args) -> whole n args.
Proof.
  intros He n' Hp. exfalso. revert n Hp. generalize (aePrevLogIndex args + 1) as idx.
  induction He as [|e es [r Hr] _ IH]; intros idx n; [done|]. cbn [persistMissing].
  destruct (if (_ <=? _)%nat then _ else _) as [[]|]; [apply IH| |done]. cbn [mbind option_bind].
  unfold persistEntryLocked, AppendEntry. destruct (logStore n); [rewrite Hr; simpl|]; apply IH.
Qed.

Lemma put_encodes k v t : exists r, entryRecord (mkEntry t (Some (put_command k v)) None) = Ok r.
Proof. eexists. unfold entryRecord. cbn [eConfig eCommand]. by rewrite put_decodes. Qed.

Definition restart_events : list input :=
  [IAppendEntries (mkAppendEntries 1 "a" 0 0 [mkEntry 1 (Some (put_command "k" "v")) None] 0);
   IAppendEntries (mkAppendEntries 1 "a" 1 1 [noop 1] 1);
   IAppendEntries (mkAppendEntries 2 "c" 1 1 [mkEntry 2 (Some (put_command "k" "w")) None] 1)].

Lemma singleton_matching l idx e : log_matching l idx [e].
Proof. intros [|i] [|j] e1 e2 Hij H1 H2; try lia; done. Qed.

Lemma restart_events_single :
  Forall (fun i => exists args e, i = IAppendEntries args /\ aeEntries args = [e] /\ storable e /\ exists r, entryRecord e = Ok r)
    restart_events.
Proof.
  apply Forall_cons. split; [eexists _, _; split_and!; [done|done|apply put_storable|apply put_encodes]|].
  apply Forall_cons. split; [eexists _, _; split_and!; [done|done|done|by eexists]|].
  apply Forall_singleton. eexists _, _. split_and!; [done|done|apply put_storable|apply put_encodes].
Qed.

(** AppendEntries requests of one entry each. *)
Lemma one_by_one (n : MemNode) (evs : list input) :
  Forall (fun i => exists args e, i = IAppendEntries args /\ aeEntries args = [e] /\ storable e /\ exists r, entryRecord e = Ok r) evs ->
  inputs_ok n evs.
Proof.
  intros H. revert n. induction H as [|i evs (args & e & -> & He & Hs & Hr) _ IH]; intros n; [done|]. split.
  - simpl. rewrite He. split_and!; [by apply Forall_singleton|apply singleton_matching|]. apply mem_whole. rewrite He. by apply Forall_singleton.
  - intros n' _. apply IH.
Qed.

Lemma raft_restart_witness :
  exists (n m m0 : MemNode) w ss ms, raft_run (mem_node "b" ["a"; "c"]) restart_events = Some n /\
    NewNode "b" ["a"; "c"] 0 [] = Ok m0 /\
    logStore n = Some w /\ snapshotStore n = Some ss /\ metaStore n = Some ms /\
    recover m0 (ss_load ss) (wal_log w) (ms_load ms) = (m, None) /\
    log_lastIndex (nlog n) = 2 /\ log_equiv (nlog m) (nlog n).
Proof.
  assert (match raft_run (mem_node "b" ["a"; "c"]) restart_events with
          | Some n => (nid n, base (nlog n), log_lastIndex (nlog n)) = ("b", 0, 2)
          | None => False end) as H by (vm_compute; reflexivity).
  destruct (raft_run (mem_node "b" ["a"; "c"]) restart_events) as [n|] eqn:E; [|destruct H]. injection H as Hid Hb Hl.
  destruct (NewNode (F := TraceFsm) (W := RaftWal) (SS := MemSnapshots) (MS := MemMeta) "b" ["a"; "c"] 0 []) as [m0|] eqn:En; [|discriminate].
  destruct (raft_restart BitConfigJson_roundtrip RaftWal_clean MemMeta_saved (mem_node "b" ["a"; "c"]) restart_events n
              ["a"; "c"] 0 [] m0) as (w & ss & ms & m & Hw & Hss & Hms & Hr & _ & _ & _ & He & _).
  - apply mem_node_dur.
  - apply mem_node_ok.
  - apply one_by_one. apply restart_events_single.
  - exact E.
  - rewrite Hid. exact En.
  - intros s _. reflexivity.
  - exists n, m, m0, w, ss, ms. split; [reflexivity|]. split; [exact En|]. split; [exact Hw|]. split; [exact Hss|]. split; [exact Hms|].
    split; [exact Hr|]. split; [exact Hl|]. apply He. rewrite Hb, Hl. lia.
Defined.

(** ** Where recovery falls short *)

(** Records at or below the snapshot are skipped instead of cutting the log:
    entries that one of them had overwritten come back. A follower whose entries 1
    and 2 of term 1 were replaced by the committed entry 1 of term 2, and which
    then compacted its log, restarts with the old entry 2; it now gives its vote
    to a candidate that lacks the committed entry, which it refused before. *)
Theorem stale_tail_recovered :
  exists n m : MemNode,
    raft_run (mkNode "b" ["a"; "c"] RoleFollower 0 "" NewLog (Some []) 0 0 "" 0 ∅ ∅ ∅ (Some None) 1 (Some None) false false ∅ [])
      [IAppendEntries (mkAppendEntries 1 "a" 0 0 [noop 1; noop 1] 0);
       IAppendEntries (mkAppendEntries 2 "c" 0 0 [mkEntry 2 (Some (put_command "k" "v")) None] 1)] = Some n /\
    (ss ← snapshotStore n; w ← logStore n; ms ← metaStore n;
     Some (recover (mem_node "b" ["a"; "c"]) (ss_load ss) (wal_log w) (ms_load ms))) = Some (m, None) /\
    commitIndex n = 1 /\ log_lastIndex (nlog n) = 1 /\ log_lastTerm (nlog n) = Some 2 /\
    log_lastIndex (nlog m) = 2 /\ log_lastTerm (nlog m) = Some 1 /\
    (rrVoteGranted ∘ fst <$> HandleRequestVote n (mkRequestVote 3 "a" 2 1)) = Some false /\
    (rrVoteGranted ∘ fst <$> HandleRequestVote m (mkRequestVote 3 "a" 2 1)) = Some true.
Proof.
  eexists _, _. split; [vm_compute; reflexivity|]. split; [vm_compute; reflexivity|]. vm_compute. repeat split.
Qed.

(** A log store that refuses the appends marked in its script. *)
Definition FlakyWal : Type := list Record_ * list bool.
#[export] Instance FlakyWal_wal : Wal FlakyWal := fun w r =>
  match w.2 with
  | true :: s => ((w.1, s), Some IOError)
  | _ => ((w.1 ++ [r], drop 1 w.2), None)
  end.

(** A batch of which the log store takes only the first entry is refused, but
    that entry is in the store. The follower keeps its own entries and may go on
    to acknowledge entry 3; a restart finds the entry of the refused batch at
    index 1 and entry 3 at index 2. *)
Theorem half_written_batch :
  exists n m : Node TraceFsm FlakyWal MemSnapshots MemMeta,
    raft_run (mkNode "b" ["a"; "c"] RoleFollower 0 "" NewLog (Some ([], [false; false; false; true])) 0 0 "" 0 ∅ ∅ ∅ (Some None) 2000 (Some None) false false ∅ [])
      [IAppendEntries (mkAppendEntries 1 "a" 0 0 [noop 1; noop 1] 0);
       IAppendEntries (mkAppendEntries 2 "c" 0 0 [noop 2; noop 2] 0);
       IAppendEntries (mkAppendEntries 3 "a" 2 1 [noop 3] 3)] = Some n /\
    (ss ← snapshotStore n; w ← logStore n; ms ← metaStore n;
     Some (recover (mkNode "b" ["a"; "c"] RoleFollower 0 "" NewLog None 0 0 "" 0 ∅ ∅ ∅ (Some None) 2000 (Some None) false false ∅ [])
             (ss_load ss) (wal_log w.1) (ms_load ms))) = Some (m, None) /\
    commitIndex n = 3 /\ (fun i => termAt (nlog n) i) <$> [1; 2; 3] = [Some 1; Some 1; Some 3] /\
    (fun i => termAt (nlog m) i) <$> [1; 2; 3] = [Some 2; Some 3; None].
Proof.
  eexists _, _. split; [vm_compute; reflexivity|]. split; [vm_compute; reflexivity|]. vm_compute. repeat split.
Qed.
