(* ===== verification/RaftLocal.v ===== *)
(** * What a Raft node knows of the whole log

    A node's log is compacted: it holds the entries above its base. Here the whole
    log is kept beside it, and each operation is described by what it does to the
    whole log, to the state machine and to the stored snapshot. *)

From S2P Require Import Prelude WalTypes RaftLog Raft RaftProps RaftDurable RaftSpec RaftSpecThms.

(** ** The state machine and its snapshots *)

(** [replays f es]: [f] is a state that executing the commands [es] leads to. A
    snapshot of such a state installs such a state; an installation that fails
    leaves what was there. *)
Class Replay (F : Type) {SMF : StateMachine F} : Type := {
  replays : F -> list Entry -> Prop;
  replays_apply : forall f es e, replays f es -> is_command e -> replays (sm_apply f e) (es ++ [e]);
  replays_taken : forall f es d g f', replays f es -> sm_take f = Ok d -> sm_install g d = (None, f') -> replays f' es;
  replays_failed : forall f es d e f', replays f es -> sm_install f d = (Some e, f') -> replays f' es
}.

(** ** The log *)

(** [l] is what compaction left of the log [L]. *)
Record holds (l : Log) (L : list Entry) : Prop := {
  h_ok : log_ok l;
  h_last : S (log_lastIndex l) = length L;
  h_entry : forall k, base l < k -> entryAt l k = L !! k;
  h_base : termAt l (base l) = eTerm <$> L !! base l
}.

Lemma holds_term l L k : holds l L -> base l <= k -> termAt l k = eTerm <$> L !! k.
Proof.
  intros H Hk. destruct (decide (k = base l)) as [->|]; [by apply h_base|]. unfold termAt. by rewrite (h_entry l L H) by lia.
Qed.

Lemma holds_NewLog : holds NewLog [noop 0].
Proof. split; [done|done| |done]. intros k Hk. simpl in Hk. destruct k as [|k]; [lia|]. unfold entryAt. simpl. by destruct k. Qed.

Lemma holds_lastT l L : holds l L -> log_lastTerm l = Some (lastT L).
Proof.
  intros H. pose proof (lastIndex_base l (h_ok l L H)) as Hb. rewrite lastTerm_spec by apply H. rewrite (holds_term l L) by (done || lia).
  unfold lastT. rewrite last_lookup. replace (pred (length L)) with (log_lastIndex l) by (rewrite <- (h_last l L H); done).
  destruct (L !! log_lastIndex l) as [e|] eqn:E; [done|]. apply lookup_ge_None in E. rewrite <- (h_last l L H) in E. lia.
Qed.

Lemma holds_append l L e : holds l L -> holds (log_append l [e]) (L ++ [e]).
Proof.
  intros [Hok Hl He Hb]. pose proof (lastIndex_base l Hok) as Hle.
  assert (forall k, base l < k -> entryAt (log_append l [e]) k = (L ++ [e]) !! k) as Hent.
  { intros k Hk. destruct (decide (k <= log_lastIndex l)) as [Hk2|Hk2].
    - rewrite entryAt_append_old, He by done. by rewrite lookup_app_l by lia.
    - destruct (decide (k = log_lastIndex l + 1)) as [->|].
      + rewrite entryAt_append_new by done. rewrite lookup_app_r by lia. by replace (log_lastIndex l + 1 - length L) with 0 by lia.
      + rewrite (proj2 (lookup_ge_None (L ++ [e]) k)) by (rewrite length_app; simpl; lia).
        destruct (entryAt (log_append l [e]) k) as [x|] eqn:E; [|done]. apply entryAt_range in E; [|by apply log_ok_append].
        rewrite lastIndex_append in E by done. simpl in E. lia. }
  split; [by apply log_ok_append| |done|].
  - rewrite lastIndex_append, length_app by done. simpl. lia.
  - simpl. unfold termAt in *. rewrite entryAt_append_old by (done || lia). rewrite Hb. by rewrite lookup_app_l by lia.
Qed.

Lemma holds_truncate l L k : holds l L -> base l < k <= log_lastIndex l + 1 ->
  exists l', truncate l k = Some l' /\ base l' = base l /\ holds l' (take k L).
Proof.
  intros [Hok Hl He Hb] Hk. destruct (truncate_spec l k Hok Hk) as (l' & E & Hok' & Hb' & Hl' & He'). exists l'. split; [done|]. split; [done|].
  split; [done| | |].
  - rewrite length_take. lia.
  - intros j Hj. destruct (decide (j < k)) as [Hlt|Hge].
    + rewrite He', He by lia. by rewrite lookup_take_lt.
    + rewrite (proj2 (lookup_ge_None (take k L) j)) by (rewrite length_take; lia).
      destruct (entryAt l' j) as [x|] eqn:Ex; [|done]. apply entryAt_range in Ex; [lia|done].
  - unfold termAt in *. rewrite Hb', He', Hb by lia. by rewrite lookup_take_lt by lia.
Qed.

Lemma holds_compact l L k t : holds l L -> base l <= k <= log_lastIndex l -> termAt l k = Some t ->
  exists l', compact l k t = Some l' /\ base l' = k /\ holds l' L.
Proof.
  intros H Hk Ht. destruct (compact_spec l k t (h_ok l L H) Hk Ht) as (l' & E & Hok & Hb & Hl & Hte & He). exists l'. split; [done|]. split; [done|].
  split; [done|rewrite Hl; apply H| |].
  - intros j Hj. rewrite Hb in Hj. rewrite He by done. apply H. lia.
  - rewrite Hb, Hte, <- Ht. apply (holds_term l L k H). lia.
Qed.

Lemma holds_reset l L t : L <> [] -> lastT L = t -> holds (reset l (length L - 1) t) L.
Proof.
  intros Hne Ht. assert (length L <> 0) as Hl0 by (by destruct L).
  split; [done|unfold log_lastIndex, reset; simpl; lia| |].
  - intros k Hk. simpl in Hk. unfold entryAt. simpl. rewrite (proj2 (Nat.ltb_ge _ _)) by lia.
    rewrite (proj2 (lookup_ge_None L k)) by lia. destruct (k - (length L - 1)) as [|m] eqn:Ek; [lia|]. done.
  - simpl. unfold termAt, entryAt. simpl. rewrite (proj2 (Nat.ltb_ge _ _)) by lia. rewrite Nat.sub_diag. simpl.
    unfold lastT in Ht. rewrite last_lookup in Ht. replace (pred (length L)) with (length L - 1) in Ht by lia.
    destruct (L !! (length L - 1)) as [e|] eqn:E; [simpl in *; congruence|]. apply lookup_ge_None in E. lia.
Qed.

(** ** A node beside its whole log *)

Definition plain (L : list Entry) : Prop := forall e, e ∈ L -> eConfig e = None.

(** The commands of the first [k] entries after the dummy. *)
Definition cmds (L : list Entry) (k : nat) : list Entry := filter is_command (take (S k) L).

Section local.
Context {F W SS MS : Type}.
Context {SMF : StateMachine F} {RF : Replay F} {WW : Wal W} {SSS : SnapshotStore SS} {SSL : SnapshotStoreLaws SS}
  {MSS : MetaStore MS} {J : Json} {CJ : ConfigJson}.
Implicit Types n : Node F W SS MS.

(** A snapshot of the log [L], of what is committed. *)
Definition snap_ok (L : list Entry) (c : nat) (s : Snapshot) : Prop :=
  LastIncludedIndex s <= c /\ eTerm <$> L !! LastIncludedIndex s = Some (LastIncludedTerm s) /\
  forall g f, sm_install g (SData s) = (None, f) -> replays f (cmds L (LastIncludedIndex s)).

Definition stored_ok n (L : list Entry) : Prop :=
  forall ss s, snapshotStore n = Some ss -> ss_load ss = Ok (Some s) -> snap_ok L (commitIndex n) s.

Record local n (L : list Entry) : Prop := {
  l_ok : node_ok n;
  l_log : holds (nlog n) L;
  l_plain : plain L;
  l_fsm : replays (fsm n) (cmds L (lastApplied n));
  l_snap : stored_ok n L
}.

(** What applying and committing leave alone. *)
Definition steady n n' : Prop :=
  nid n' = nid n /\ role n' = role n /\ currentTerm n' = currentTerm n /\ votedFor n' = votedFor n /\
  peers n' = peers n /\ matchIndex n' = matchIndex n.

Lemma steady_refl n : steady n n.
Proof. by repeat split. Qed.

Lemma steady_trans n1 n2 n3 : steady n1 n2 -> steady n2 n3 -> steady n1 n3.
Proof. intros (?&?&?&?&?&?) (?&?&?&?&?&?). repeat split; congruence. Qed.

Lemma holds_length l L : holds l L -> base l < length L.
Proof. intros H. pose proof (lastIndex_base l (h_ok l L H)). pose proof (h_last l L H). lia. Qed.
#[local] Set Default Proof Using "All".

(** *** Applying *)

(** A node in the middle of applying. *)
Record reads n (L : list Entry) : Prop := {
  d_log : holds (nlog n) L;
  d_plain : plain L;
  d_base : base (nlog n) <= lastApplied n;
  d_applied : lastApplied n <= commitIndex n;
  d_commit : commitIndex n < length L;
  d_fsm : replays (fsm n) (cmds L (lastApplied n));
  d_snap : stored_ok n L
}.

Lemma local_reads n L : local n L -> reads n L.
Proof.
  intros [(Hl & Hb & Hac & Hc) Hh Hp Hf Hs]. split; try done; [lia|]. rewrite <- (h_last _ _ Hh). lia.
Qed.

Lemma reads_local n L : reads n L -> lastApplied n = commitIndex n -> local n L.
Proof.
  intros [Hh Hp Hb Ha Hc Hf Hs] Heq. split; try done. split; [apply Hh|]. split; [done|]. split; [done|].
  rewrite <- (h_last _ _ Hh) in Hc. lia.
Qed.

Lemma stored_save n L ss x : stored_ok n L -> snapshotStore n = Some ss -> snap_ok L (commitIndex n) x ->
  forall n', snapshotStore n' = Some (ss_save ss x).1 -> commitIndex n' = commitIndex n -> stored_ok n' L.
Proof.
  intros Hst E Hx n' E' Ec ss' s Es Hl. rewrite Ec. rewrite E' in Es. injection Es as <-.
  destruct (ss_save ss x) as [ss' [e|]] eqn:Ess; simpl in Hl.
  - rewrite (ss_failed _ _ _ _ Ess) in Hl. by eapply Hst.
  - rewrite (ss_saved _ _ _ Ess) in Hl. by injection Hl as <-.
Qed.

Lemma maybeCompact_reads n L n' : reads n L -> maybeCompactLocked n = Some n' ->
  reads n' L /\ steady n n' /\ lastApplied n' = lastApplied n /\ commitIndex n' = commitIndex n.
Proof.
  intros H. pose proof H as [Hh Hp Hb Ha Hc Hf Hs]. unfold maybeCompactLocked.
  destruct (_ =? 0)%nat; [by intros [= <-]|]. destruct (_ <? _)%nat; [by intros [= <-]|].
  destruct (Nat.leb_spec (lastApplied n) (baseIndex (nlog n))); [by intros [= <-]|].
  destruct (lookup_lt_is_Some_2 L (lastApplied n) ltac:(lia)) as [e He].
  assert (termAt (nlog n) (lastApplied n) = Some (eTerm e)) as Ht by (rewrite (holds_term _ L _ Hh Hb); by rewrite He).
  rewrite Ht. cbn [mbind option_bind]. destruct (sm_take (fsm n)) as [d|err] eqn:Et; [|by intros [= <-]].
  assert (snap_ok L (commitIndex n) (mkSnapshot (lastApplied n) (eTerm e) d)) as Hsnap.
  { split; [done|]. split; [simpl; by rewrite He|]. intros g f Hi. by eapply replays_taken. }
  set (p := match snapshotStore n with Some _ => _ | None => _ end).
  assert (reads p.1 L /\ steady n p.1 /\ lastApplied p.1 = lastApplied n /\ commitIndex p.1 = commitIndex n /\ nlog p.1 = nlog n)
    as (Hp1 & Hst & Hla & Hco & Hlg).
  { unfold p. destruct (snapshotStore n) as [ss|] eqn:Ess; [|done].
    destruct (ss_save ss _) as [ss' err] eqn:Esv. simpl. split; [|done]. split; try done.
    by eapply (stored_save n L ss); [| |exact Hsnap|simpl; by rewrite Esv|]. }
  destruct p as [n1 err]. simpl in *. destruct err as [err|]; [by intros [= <-]|]. rewrite Hlg.
  destruct (holds_compact (nlog n) L (lastApplied n) (eTerm e) Hh) as (l' & -> & Hbl & Hhl); [|done|].
  { pose proof (h_last _ _ Hh). lia. }
  cbn [mbind option_bind]. intros [= <-]. split; [|done]. destruct Hp1 as [? ? ? ? ? ? Hs1]. split; simpl; try done. by rewrite Hbl, Hla.
Qed.

Lemma cmds_S L k e : L !! S k = Some e -> cmds L (S k) = cmds L k ++ (if decide (is_command e) then [e] else []).
Proof. intros He. unfold cmds. by rewrite (take_S_r L (S k) e He), filter_app. Qed.

Lemma applyOne_reads n L n' : reads n L -> lastApplied n < commitIndex n -> applyOne n = Some n' ->
  reads n' L /\ steady n n' /\ lastApplied n' = S (lastApplied n) /\ commitIndex n' = commitIndex n.
Proof.
  intros [Hh Hp Hb Ha Hc Hf Hs] Hlt. unfold applyOne. rewrite Nat.add_1_r. set (n1 := set_lastApplied (S (lastApplied n)) n).
  destruct (lookup_lt_is_Some_2 L (S (lastApplied n)) ltac:(lia)) as [e He].
  assert (entryAt (nlog n1) (lastApplied n1) = Some e) as -> by (simpl; rewrite (h_entry _ _ Hh) by lia; done).
  cbn [mbind option_bind]. rewrite (Hp e) by (by eapply list_elem_of_lookup_2).
  pose proof (cmds_S L (lastApplied n) e He) as Hcm. destruct (eCommand e) as [cmd|] eqn:Ecmd.
  - assert (is_command e) as Hic by (split; [apply Hp; by eapply list_elem_of_lookup_2|congruence]). rewrite decide_True in Hcm by done.
    intros Hm. apply (maybeCompact_reads _ L) in Hm as (? & ? & ? & ?); [by split_and!|].
    split; try done; simpl; try lia. rewrite Hcm. by apply replays_apply.
  - intros [= <-]. split; [|done]. rewrite decide_False in Hcm by (intros [_ ?]; congruence). rewrite app_nil_r in Hcm.
    split; try done; simpl; try lia. by rewrite Hcm.
Qed.

Lemma applyLoop_reads k n L n' : reads n L -> lastApplied n + k = commitIndex n -> applyLoop k n = Some n' ->
  local n' L /\ steady n n' /\ commitIndex n' = commitIndex n.
Proof.
  revert n. induction k as [|k IH]; intros n Hr Hk; cbn [applyLoop].
  - intros [= <-]. split; [|done]. apply reads_local; [done|lia].
  - destruct (applyOne n) as [n1|] eqn:E; [|done]. cbn [mbind option_bind]. intros Hl.
    destruct (applyOne_reads n L n1 Hr ltac:(lia) E) as (Hr1 & Hs1 & Hla & Hco).
    destruct (IH n1 Hr1 ltac:(lia) Hl) as (? & ? & ?). split; [done|]. split; [by eapply steady_trans|congruence].
Qed.

Lemma applyCommitted_local n L n' : reads n L -> applyCommittedLocked n = Some n' ->
  local n' L /\ steady n n' /\ commitIndex n' = commitIndex n.
Proof. intros Hr. apply applyLoop_reads; [done|]. pose proof (d_applied n L Hr). lia. Qed.

Lemma stored_mono n n' L : stored_ok n L -> snapshotStore n' = snapshotStore n -> commitIndex n <= commitIndex n' -> stored_ok n' L.
Proof. intros Hs Es Hc ss s E Hl. rewrite Es in E. destruct (Hs ss s E Hl) as (? & ?). split; [lia|done]. Qed.

(** Committing: the commit index moves to an index of the current term that a
    majority has. *)
Lemma updateCommit_local n L n' : reads n L -> updateCommitIndexLocked n = Some n' ->
  local n' L /\ steady n n' /\
  (commitIndex n' = commitIndex n \/ commitIndex n < commitIndex n' < length L /\
    eTerm <$> L !! commitIndex n' = Some (currentTerm n) /\ majorityLocked n <= countMatch n (commitIndex n')).
Proof.
  intros Hr. pose proof Hr as [Hh Hp Hb Ha Hc Hf Hs]. pose proof (h_last _ _ Hh) as Hl. unfold updateCommitIndexLocked.
  destruct (commitScan_ok n (commitIndex n) (seq (commitIndex n + 1) (log_lastIndex (nlog n) - commitIndex n)) (h_ok _ _ Hh)) as (c & -> & Hcc).
  { intros N HN%elem_of_seq. lia. }
  assert (commitIndex n <= c < length L) as Hr2. { destruct Hcc as [->|[HN%elem_of_seq _]]; lia. }
  cbn [mbind option_bind]. intros E. apply (applyCommitted_local _ L) in E as (Hloc & Hst & Hco).
  - split; [done|]. split; [done|]. simpl in Hco. rewrite Hco. destruct Hcc as [->|[HN%elem_of_seq [Ht Hm]]]; [by left|right].
    split; [lia|]. split; [|done]. rewrite <- Ht. symmetry. apply holds_term; [done|lia].
  - split; simpl; try done; try lia. eapply stored_mono; [exact Hs|done|simpl; lia].
Qed.

(** *** Following *)

Lemma installEntries_local n L es idx n' :
  reads n L -> lastApplied n = commitIndex n -> base (nlog n) < idx <= length L ->
  (forall k e e', es !! k = Some e -> L !! (idx + k) = Some e' -> idx + k <= commitIndex n -> eTerm e' = eTerm e) ->
  installEntries n idx es = Some n' ->
  exists l, n' = set_log l n /\ base l = base (nlog n) /\ holds l (install L idx es).
Proof.
  intros Hr Hac. pose proof Hr as [Hh _ Hb _ Hc _ _]. clear Hr. revert n L idx Hac Hh Hb Hc. induction es as [|e es IH]; intros n L idx Hac Hh Hb Hc Hi Hno.
  { intros [= <-]. exists (nlog n). split; [by destruct n|done]. }
  change (installEntries n idx (e :: es)) with (n' ← installOne n idx e; installEntries n' (S idx) es).
  assert (exists l, installOne n idx e = Some (set_log l n) /\ base l = base (nlog n) /\ commitIndex n <= log_lastIndex l /\
    exists L2, holds l L2 /\ install L idx (e :: es) = install L2 (S idx) es /\ S idx <= length L2 /\
      forall k, L2 !! (S idx + k) = None \/ L2 = L) as (l & -> & Hbl & Hcl & L2 & Hh2 & HL2 & Hi2 & Hsame).
  { pose proof (h_last _ _ Hh) as Hlast. unfold installOne. cbn [install]. destruct (Nat.leb_spec idx (log_lastIndex (nlog n))).
    - destruct (lookup_lt_is_Some_2 L idx ltac:(lia)) as [e' He']. rewrite (holds_term _ L _ Hh) by lia. rewrite He'. cbn [fmap option_fmap option_map mbind option_bind].
      destruct (Nat.eqb_spec (eTerm e') (eTerm e)) as [Heq|Hneq]; cbn [negb].
      + rewrite decide_True by done. exists (nlog n). split; [by destruct n|]. split; [done|]. split; [lia|]. exists L. split_and!; [done|done|lia|by right].
      + rewrite decide_False by done.
        assert (commitIndex n < idx) as Hci. { destruct (decide (idx <= commitIndex n)); [|lia]. destruct Hneq. apply (Hno 0 e e'); [done|by rewrite Nat.add_0_r|lia]. }
        destruct (holds_truncate (nlog n) L idx Hh ltac:(lia)) as (l & -> & Hbl & Hhl). cbn [mbind option_bind].
        cbn [lastApplied set_log commitIndex].
        rewrite (proj2 (Nat.leb_gt idx (lastApplied n))) by lia. cbn [commitIndex set_log]. rewrite (proj2 (Nat.leb_gt idx (commitIndex n))) by lia.
        exists (log_append l [e]). split; [done|]. split; [done|]. pose proof (holds_append _ _ e Hhl) as Hha. pose proof (h_last _ _ Hha) as Hla.
        rewrite length_app, length_take in Hla. simpl in Hla. split; [lia|]. exists (take idx L ++ [e]). split; [done|]. split; [done|].
        rewrite length_app, length_take. simpl. split; [lia|]. intros k. left. apply lookup_ge_None. rewrite length_app, length_take. simpl. lia.
    - rewrite (proj2 (lookup_ge_None L idx)) by lia. pose proof (holds_append _ _ e Hh) as Hha. pose proof (h_last _ _ Hha) as Hla.
      rewrite length_app in Hla. simpl in Hla. exists (log_append (nlog n) [e]). split; [done|]. split; [done|]. split; [lia|].
      exists (L ++ [e]). split; [done|]. split; [done|]. rewrite length_app. simpl. split; [lia|]. intros k. left. apply lookup_ge_None. rewrite length_app. simpl. lia. }
  cbn [mbind option_bind]. intros E. pose proof (h_last _ _ Hh2) as Hl2. rewrite HL2.
  apply (IH (set_log l n) L2 (S idx)) in E as (l' & -> & Hb' & Hh').
  - exists l'. split; [done|]. split; [simpl in Hb'; congruence|done].
  - done.
  - done.
  - simpl. lia.
  - simpl. lia.
  - simpl. lia.
  - intros k x x' Hx Hx' Hk. destruct (Hsame k) as [Hn| ->]; [congruence|]. apply (Hno (S k) x x'); [done|by rewrite Nat.add_succ_r|simpl in Hk; lia].
Qed.

(** Where nothing at or below [c] conflicts, the entries up to [c] stay. *)
Lemma install_keeps L idx es c :
  idx <= length L -> c < length L ->
  (forall k e e', es !! k = Some e -> L !! (idx + k) = Some e' -> idx + k <= c -> eTerm e' = eTerm e) ->
  take (S c) (install L idx es) = take (S c) L /\ c < length (install L idx es).
Proof.
  revert L idx. induction es as [|e es IH]; intros L idx Hi Hc Hno; [done|]. cbn [install].
  destruct (L !! idx) as [e'|] eqn:El.
  - pose proof (lookup_lt_Some _ _ _ El) as Hlt. case_decide as Hd.
    + apply IH; [lia|done|]. intros k x x' Hx Hx' Hk. apply (Hno (S k) x x'); [done|by rewrite Nat.add_succ_r|lia].
    + assert (c < idx) as Hci. { destruct (decide (idx <= c)); [|lia]. destruct Hd. apply (Hno 0 e e'); [done|by rewrite Nat.add_0_r|lia]. }
      destruct (IH (take idx L ++ [e]) (S idx)) as [-> ?].
      * rewrite length_app, length_take. simpl. lia.
      * rewrite length_app, length_take. lia.
      * intros k x x' _ Hx'. apply lookup_lt_Some in Hx'. rewrite length_app, length_take in Hx'. simpl in Hx'. lia.
      * split; [|done]. rewrite take_app_le by (rewrite length_take; lia). rewrite take_take. f_equal. lia.
  - apply lookup_ge_None in El. destruct (IH (L ++ [e]) (S idx)) as [-> ?].
    + rewrite length_app. simpl. lia.
    + rewrite length_app. lia.
    + intros k x x' _ Hx'. apply lookup_lt_Some in Hx'. rewrite length_app in Hx'. simpl in Hx'. lia.
    + split; [|done]. by rewrite take_app_le by lia.
Qed.

Lemma install_elem L idx es x : x ∈ install L idx es -> x ∈ L \/ x ∈ es.
Proof.
  revert L idx. induction es as [|e es IH]; intros L idx; [by left|]. cbn [install]. destruct (L !! idx) as [e'|].
  - case_decide as Hd; intros [H|H]%IH; try (right; by right); [by left|]. apply elem_of_app in H as [H|H].
    + left. eapply elem_of_prefix; [exact H|]. exists (drop idx L). by rewrite take_drop.
    + apply list_elem_of_singleton in H as ->. right. by left.
  - intros [H|H]%IH; [|right; by right]. apply elem_of_app in H as [H|H]; [by left|]. apply list_elem_of_singleton in H as ->. right. by left.
Qed.

Lemma cmds_shared L L' c k : take (S c) L' = take (S c) L -> k <= c -> cmds L' k = cmds L k.
Proof.
  intros H Hk. unfold cmds. f_equal. apply (f_equal (take (S k))) in H. rewrite !take_take in H. by replace (S k `min` S c) with (S k) in H by lia.
Qed.

Lemma lookup_shared (L L' : list Entry) c k : take (S c) L' = take (S c) L -> k <= c -> L' !! k = L !! k.
Proof. intros H Hk. rewrite <- (lookup_take_lt L' (S c)), <- (lookup_take_lt L (S c)) by lia. by rewrite H. Qed.

Lemma snap_shared L L' c x : take (S c) L' = take (S c) L -> snap_ok L c x -> snap_ok L' c x.
Proof.
  intros H (Hc & Ht & Hd). split; [done|]. split; [by rewrite (lookup_shared _ _ _ _ H Hc)|]. intros g f Hi.
  rewrite (cmds_shared _ _ _ _ H Hc). by apply (Hd g).
Qed.

(** A node that takes another log with the same committed entries. *)
Lemma reads_shared n L l L' :
  local n L -> holds l L' -> plain L' -> base l <= lastApplied n -> commitIndex n < length L' ->
  take (S (commitIndex n)) L' = take (S (commitIndex n)) L -> reads (set_log l n) L'.
Proof.
  intros [(_ & _ & Hac & _) Hh Hp Hf Hs] Hh' Hp' Hb Hc Htk. split; simpl; try done; [lia| |].
  - rewrite (cmds_shared _ _ _ _ Htk) by lia. done.
  - intros ss x Ess Hl. eapply snap_shared; [exact Htk|]. by apply (Hs ss x).
Qed.

(** A node that took a newer term, or follows, has the log it had. *)
Lemma local_frame n n' L : local n L -> nlog n' = nlog n -> lastApplied n' = lastApplied n -> commitIndex n' = commitIndex n ->
  fsm n' = fsm n -> snapshotStore n' = snapshotStore n -> local n' L.
Proof.
  intros [Hok Hh Hp Hf Hs] Hlg Hla Hco Hfs Hss. split; unfold node_ok in *; rewrite ?Hlg, ?Hla, ?Hco, ?Hfs; try done.
  intros ss x. rewrite Hss, Hco. apply Hs.
Qed.

(** A node that takes the term of a leader and follows it. *)
Lemma adopt_local n L t lid : local n L -> currentTerm n <= t ->
  let n1 := set_leaderID lid (set_role RoleFollower (if (currentTerm n <? t)%nat then set_votedFor "" (set_term t n) else n)) in
  local n1 L /\ currentTerm n1 = t /\ commitIndex n1 = commitIndex n /\ peers n1 = peers n /\ matchIndex n1 = matchIndex n /\ role n1 = RoleFollower.
Proof. intros Hl Ht. cbv zeta. destruct (Nat.ltb_spec (currentTerm n) t); (split; [by eapply local_frame|]); simpl; split_and!; auto; lia. Qed.

Lemma HandleAppendEntries_local n L args reply n' :
  local n L -> plain (aeEntries args) ->
  (currentTerm n <= aeTerm args ->
   forall e, L !! aePrevLogIndex args = Some e -> (aePrevLogIndex args = 0 \/ eTerm e = aePrevLogTerm args) ->
   forall k e e', aeEntries args !! k = Some e -> L !! (S (aePrevLogIndex args) + k) = Some e' ->
     S (aePrevLogIndex args) + k <= commitIndex n -> eTerm e' = eTerm e) ->
  HandleAppendEntries n args = Some (reply, n') ->
  arTerm reply = currentTerm n /\ peers n' = peers n /\ matchIndex n' = matchIndex n /\
  ((aeTerm args < currentTerm n /\ n' = n /\ arSuccess reply = false) \/
   currentTerm n <= aeTerm args /\ role n' = RoleFollower /\ currentTerm n' = aeTerm args /\
   (arSuccess reply = false /\ local n' L /\ commitIndex n' = commitIndex n \/
    local n' (install L (S (aePrevLogIndex args)) (aeEntries args)) /\
    (exists e, L !! aePrevLogIndex args = Some e /\ (aePrevLogIndex args = 0 \/ eTerm e = aePrevLogTerm args)) /\
    (commitIndex n' = commitIndex n \/ commitIndex n <= commitIndex n' <= aeLeaderCommit args))).
Proof.
  intros Hloc Hpl Hno. unfold HandleAppendEntries.
  destruct (Nat.ltb_spec (aeTerm args) (currentTerm n)); [intros [= <- <-]; simpl; auto 10|].
  destruct (adopt_local n L (aeTerm args) (aeLeaderID args) Hloc) as (Hloc1 & Hte & Hco & Hpe & Hma & Hro); [done|].
  set (n1 := set_leaderID _ _) in *. clearbody n1. pose proof Hloc1 as [(Hl & Hb & Hac & Hc) Hh Hp _ _]. pose proof (h_last _ _ Hh) as Hlast.
  destruct (Nat.ltb_spec (log_lastIndex (nlog n1)) (aePrevLogIndex args)); [intros [= <- <-]; simpl; auto 12|].
  destruct (Nat.ltb_spec (aePrevLogIndex args) (baseIndex (nlog n1))); [intros [= <- <-]; simpl; auto 12|]. unfold baseIndex in *.
  destruct (lookup_lt_is_Some_2 L (aePrevLogIndex args) ltac:(lia)) as [e He].
  rewrite (holds_term _ L _ Hh) by lia. rewrite He. cbn [fmap option_fmap option_map mbind option_bind].
  destruct (if (0 <? aePrevLogIndex args)%nat then Some (negb (eTerm e =? aePrevLogTerm args)%nat) else Some false) as [b|] eqn:Eb.
  2:{ by destruct (0 <? _)%nat. }
  cbn [mbind option_bind]. destruct b; [intros [= <- <-]; simpl; auto 12|].
  assert (aePrevLogIndex args = 0 \/ eTerm e = aePrevLogTerm args) as Hprev.
  { destruct (Nat.ltb_spec 0 (aePrevLogIndex args)); [|left; lia]. injection Eb as Eb. right. by bool_to_prop. }
  destruct (persistMissing_ok n1 (aePrevLogIndex args + 1) (aeEntries args) Hl ltac:(lia)) as (durable & n2 & -> & [w ->]). cbn [mbind option_bind].
  destruct durable; cbn [negb]; [|intros [= <- <-]; simpl; split_and!; auto; right; split_and!; auto; left; split_and!; auto; by eapply local_frame].
  assert (local (set_logStore w n1) L) as Hloc2 by (by eapply local_frame).
  destruct (installEntries (set_logStore w n1) (aePrevLogIndex args + 1) (aeEntries args)) as [n3|] eqn:E3; [|done].
  rewrite Nat.add_1_r in E3. rewrite <- Hco in Hno. specialize (Hno ltac:(done) e He Hprev).
  destruct (install_keeps L (S (aePrevLogIndex args)) (aeEntries args) (commitIndex n1) ltac:(lia) ltac:(lia) Hno) as [Htk Hlen].
  apply (installEntries_local _ L) in E3 as (l & -> & Hbl & Hhl); [|by apply local_reads|done|simpl; lia|done].
  cbn [mbind option_bind]. set (L' := install L _ _) in *.
  assert (plain L') as Hpl' by (intros x [?|?]%install_elem; [by apply Hp|by apply Hpl]).
  assert (reads (set_log l (set_logStore w n1)) L') as Hr3 by (apply (reads_shared (set_logStore w n1) L); try done; simpl in *; lia).
  pose proof (h_last _ _ Hhl) as Hlast'.
  set (n4 := if (commitIndex _ <? aeLeaderCommit args)%nat then _ else _).
  assert (reads n4 L' /\ (commitIndex n4 = commitIndex n1 \/ commitIndex n1 <= commitIndex n4 <= aeLeaderCommit args) /\
    role n4 = RoleFollower /\ currentTerm n4 = aeTerm args /\ peers n4 = peers n /\ matchIndex n4 = matchIndex n) as (Hr4 & Hc4 & Hr & Ht & Hpe4 & Hma4).
  { unfold n4. cbn [commitIndex set_log set_logStore nlog]. destruct (Nat.ltb_spec (commitIndex n1) (aeLeaderCommit args)); [|by auto 10].
    split; [|simpl; split_and!; auto; right; lia]. destruct Hr3 as [? ? ? ? ? ? Hs3]. split; simpl in *; try done; try lia.
    eapply stored_mono; [exact Hs3|done|simpl; lia]. }
  destruct (applyCommittedLocked n4) as [n5|] eqn:E5; [|done]. cbn [mbind option_bind]. intros [= <- <-].
  apply (applyCommitted_local _ L') in E5 as (Hloc5 & (_ & Hr5 & Ht5 & _ & Hpe5 & Hma5) & Hc5); [|done].
  simpl. split; [done|]. split; [congruence|]. split; [congruence|]. right. split; [done|]. split; [congruence|]. split; [congruence|]. right.
  split; [done|]. split; [by exists e|]. rewrite Hc5, <- Hco. exact Hc4.
Qed.

(** *** Snapshots *)

(** [args] carries a snapshot of the log [P]. *)
Definition carries (args : InstallSnapshot) (P : list Entry) : Prop :=
  length P = S (isLastIncludedIndex args) /\ lastT P = isLastIncludedTerm args /\ plain P /\
  forall g f, sm_install g (isData args) = (None, f) -> replays f (cmds P (isLastIncludedIndex args)).

(** The store after a snapshot was saved: what it loads is that, or what it loaded. *)
Definition saved (old new : option SS) (x : Snapshot) : Prop :=
  forall ss y, new = Some ss -> ss_load ss = Ok (Some y) -> y = x \/ exists s, old = Some s /\ ss_load s = Ok (Some y).

(** A node that has installed the snapshot of [P], with a log that starts with it. *)
Lemma adopt_snapshot n L args P f ss :
  local n L -> carries args P -> take (S (commitIndex n)) P = take (S (commitIndex n)) L ->
  saved (snapshotStore n) ss (mkSnapshot (isLastIncludedIndex args) (isLastIncludedTerm args) (isData args)) ->
  sm_install (fsm n) (isData args) = (None, f) ->
  forall l L', commitIndex n < isLastIncludedIndex args -> base l = isLastIncludedIndex args -> holds l L' -> plain L' -> P `prefix_of` L' ->
  local (set_lastApplied (isLastIncludedIndex args) (set_commitIndex (isLastIncludedIndex args) (set_log l (set_snapshotStore ss (set_fsm f n))))) L'.
Proof.
  intros Hloc (HlP & HtP & HpP & Hdata) Hcom Hss Ei l L' Hlt Hbl Hhl Hpl HPL. set (i := isLastIncludedIndex args) in *.
  pose proof Hloc as [(Hl & Hb & Hac & Hc) Hh Hp Hf Hs]. pose proof (h_last _ _ Hhl) as Hll. pose proof (lastIndex_base _ (h_ok _ _ Hhl)) as Hbb.
  assert (take (S i) L' = take (S i) P) as Htk by (rewrite <- HlP, (prefix_take_eq _ _ HPL); symmetry; by apply take_ge).
  destruct (lastT_lookup P) as (eP & HeP & HteP); [by intros ->|]. rewrite HlP, Nat.sub_succ, Nat.sub_0_r in HeP.
  split; simpl; try done.
  - split; [apply Hhl|]. simpl. split_and!; auto; lia.
  - rewrite (cmds_shared _ _ _ _ Htk) by done. by apply (Hdata (fsm n)).
  - intros ss0 x E0 Hl0. simpl in E0 |- *. eapply snap_shared; [exact Htk|]. destruct (Hss ss0 x E0 Hl0) as [->|(s1 & E1 & Hl1)].
    + split; [done|]. split; [simpl; rewrite HeP; simpl; congruence|exact Hdata].
    + destruct (snap_shared L P (commitIndex n) x Hcom) as (? & ? & ?); [by apply (Hs s1)|]. split_and!; auto. lia.
Qed.

Lemma HandleInstallSnapshot_local n L args P reply n' :
  local n L -> carries args P ->
  (forall e, L !! isLastIncludedIndex args = Some e -> eTerm e = lastT P -> P `prefix_of` L) ->
  (currentTerm n <= isTerm args -> commitIndex n < isLastIncludedIndex args -> take (S (commitIndex n)) P = take (S (commitIndex n)) L) ->
  HandleInstallSnapshot n args = Some (reply, n') ->
  peers n' = peers n /\ matchIndex n' = matchIndex n /\
  (n' = n \/ currentTerm n <= isTerm args /\ role n' = RoleFollower /\ currentTerm n' = isTerm args /\
    (local n' L /\ commitIndex n' = commitIndex n \/
     commitIndex n <= commitIndex n' /\ commitIndex n' = isLastIncludedIndex args /\
     (local n' L /\ P `prefix_of` L \/ local n' P /\ ~ P `prefix_of` L))).
Proof.
  intros Hloc Hcar Hag Hcom. pose proof Hcar as (HlP & HtP & HpP & _). unfold HandleInstallSnapshot.
  destruct (Nat.ltb_spec (isTerm args) (currentTerm n)); [intros [= <- <-]; auto|].
  destruct (adopt_local n L (isTerm args) (isLeaderID args) Hloc) as (Hloc1 & Hte & Hco & Hpe & Hma & Hro); [done|].
  set (n1 := set_leaderID _ _) in *. clearbody n1. pose proof Hloc1 as [(Hl & Hb & Hac & Hc) Hh Hp Hf Hs]. pose proof (h_last _ _ Hh) as Hlast.
  set (i := isLastIncludedIndex args) in *.
  destruct (Nat.leb_spec i (lastApplied n1)); [intros [= <- <-]; simpl; auto 12|].
  destruct (sm_install (fsm n1) (isData args)) as [[err|] f] eqn:Ei.
  { intros [= <- <-]. simpl. split; [done|]. split; [done|]. right. split_and!; auto. left. split; [|done]. split; simpl; try done.
    by eapply replays_failed. }
  set (snap := mkSnapshot i (isLastIncludedTerm args) (isData args)).
  set (n2 := match snapshotStore (set_fsm f n1) with Some _ => _ | None => _ end).
  assert (exists ss, n2 = set_snapshotStore ss (set_fsm f n1) /\ saved (snapshotStore n1) ss snap) as (ss & -> & Hss).
  { unfold n2. simpl. destruct (snapshotStore n1) as [s1|] eqn:E1.
    - exists (Some (ss_save s1 snap).1). split; [done|]. intros ss0 x [= <-]. destruct (ss_save s1 snap) as [s2 [e|]] eqn:E2; simpl.
      + rewrite (ss_failed _ _ _ _ E2). eauto.
      + rewrite (ss_saved _ _ _ E2). intros [= <-]. by left.
    - exists None. split; [rewrite <- E1; by destruct n1|done]. }
  cbn [nlog set_snapshotStore set_fsm]. specialize (Hcom ltac:(done) ltac:(lia)).
  assert (P <> []) as HneP by (intros ->; simpl in HlP; lia).
  destruct (lastT_lookup P HneP) as (eP & HeP & HteP). rewrite HlP, Nat.sub_succ, Nat.sub_0_r in HeP.
  pose proof (adopt_snapshot n1 L args P f ss Hloc1 Hcar ltac:(by rewrite Hco) Hss Ei) as Hfin.
  destruct (if (log_lastIndex (nlog n1) <? i)%nat then Some true else t ← termAt (nlog n1) i; Some (negb (t =? isLastIncludedTerm args)%nat)) as [b|] eqn:Eb; [|done].
  cbn [mbind option_bind]. destruct b.
  - assert (~ P `prefix_of` L) as Hnp.
    { intros HP. pose proof (prefix_length _ _ HP). rewrite (proj2 (Nat.ltb_ge _ _)) in Eb by lia. rewrite (holds_term _ L _ Hh) in Eb by lia.
      rewrite (prefix_lookup_Some _ _ _ _ HeP HP) in Eb. simpl in Eb. injection Eb as Eb. bool_to_prop. congruence. }
    cbn [mbind option_bind]. intros [= <- <-]. cbn [commitIndex set_log set_snapshotStore set_fsm].
    rewrite (proj2 (Nat.ltb_lt (commitIndex n1) i)) by lia. split; [done|]. split; [done|]. right. split; [done|]. split; [done|]. split; [done|]. right.
    split; [simpl; lia|]. split; [done|]. right. split; [|done]. apply Hfin; [lia|done| |done|done].
    replace i with (length P - 1) by lia. by apply holds_reset.
  - destruct (Nat.ltb_spec (log_lastIndex (nlog n1)) i); [done|]. destruct (lookup_lt_is_Some_2 L i ltac:(lia)) as [e He].
    assert (termAt (nlog n1) i = Some (eTerm e)) as Hti by (rewrite (holds_term _ L _ Hh) by lia; by rewrite He).
    rewrite Hti in Eb. simpl in Eb. injection Eb as Eb. bool_to_prop. rewrite Eb in Hti.
    destruct (holds_compact (nlog n1) L i (isLastIncludedTerm args) Hh ltac:(lia) Hti) as (l & -> & Hbl & Hhl). cbn [mbind option_bind].
    intros [= <- <-]. cbn [commitIndex set_log set_snapshotStore set_fsm].
    rewrite (proj2 (Nat.ltb_lt (commitIndex n1) i)) by lia. assert (P `prefix_of` L) as HPL by (apply (Hag e); [done|congruence]).
    split; [done|]. split; [done|]. right. split; [done|]. split; [done|]. split; [done|]. right.
    split; [simpl; lia|]. split; [done|]. left. split; [|done]. apply Hfin; [lia|done..].
Qed.
(** *** Leading *)

Lemma reset_progress_spec n :
  let n' := reset_progress n in
  peers n' = peers n /\ snapshotStore n' = snapshotStore n /\
  forall p m, matchIndex n' !! p = Some m -> p ∈ peers n /\ m = 0 \/ (p ∉ peers n) /\ matchIndex n !! p = Some m.
Proof.
  cbv zeta. unfold reset_progress. assert (forall ps n0, let n' := foldl (fun n p => set_matchIndex (<[p := 0]> (matchIndex n))
      (set_nextIndex (<[p := log_lastIndex (nlog n) + 1]> (nextIndex n)) n)) n0 ps in
    peers n' = peers n0 /\ snapshotStore n' = snapshotStore n0 /\
    forall p m, matchIndex n' !! p = Some m -> p ∈ ps /\ m = 0 \/ (p ∉ ps) /\ matchIndex n0 !! p = Some m) as H; [|apply H].
  induction ps as [|p0 ps IH]; intros n0; simpl.
  - split; [done|]. split; [done|]. intros p m E. right. split; [apply not_elem_of_nil|done].
  - destruct (IH (set_matchIndex (<[p0 := 0]> (matchIndex n0)) (set_nextIndex (<[p0 := log_lastIndex (nlog n0) + 1]> (nextIndex n0)) n0))) as (Hp & Hs & Hm).
    rewrite Hp, Hs. split; [done|]. split; [done|]. intros p m [[? ?]|[Hnin E]]%Hm; [left; split; [by right|done]|]. simpl in E.
    rewrite lookup_insert in E. case_decide as Hd; [injection E as <-; subst p; left; split; [by left|done]|right]. split; [|done]. rewrite not_elem_of_cons. split; [congruence|done].
Qed.

Lemma snoc_plain L e : plain L -> eConfig e = None -> plain (L ++ [e]).
Proof. intros Hp He x [?|Hx]%elem_of_app; [by apply Hp|]. by apply list_elem_of_singleton in Hx as ->. Qed.

(** A node that appends an entry to its log. *)
Lemma reads_append n n1 L e :
  local n L -> nlog n1 = log_append (nlog n) [e] -> lastApplied n1 = lastApplied n -> commitIndex n1 = commitIndex n -> fsm n1 = fsm n ->
  snapshotStore n1 = snapshotStore n -> eConfig e = None -> reads n1 (L ++ [e]).
Proof.
  intros Hl Hlg Hla Hco Hfs Hss He. pose proof Hl as [(_ & Hb & Hac & Hc) Hh Hp Hf Hs]. pose proof (h_last _ _ Hh) as Hlast.
  assert (reads (set_log (log_append (nlog n) [e]) n) (L ++ [e])) as [? ? ? ? ? ? Hs'].
  { apply (reads_shared n L); [done|by apply holds_append|by apply snoc_plain|done|rewrite length_app; simpl; lia|]. by rewrite take_app_le by lia. }
  split; rewrite ?Hlg, ?Hla, ?Hco, ?Hfs; try done. intros ss x. rewrite Hss, Hco. apply Hs'.
Qed.

(** A candidate that becomes the leader appends its no-op with its progress reset, and commits what it can. *)
Lemma tryBecomeLeader_local n L t b n' : local n L -> tryBecomeLeader n t = Some (b, n') ->
  peers n' = peers n /\ (restored n n' \/
  role n = RoleCandidate /\ currentTerm n = t /\ exists n1, updateCommitIndexLocked n1 = Some n' /\ reads n1 (L ++ [noop t]) /\
    role n1 = RoleLeader /\ currentTerm n1 = t /\ commitIndex n1 = commitIndex n /\ peers n1 = peers n /\
    forall p m, matchIndex n1 !! p = Some m -> p ∈ peers n /\ m = 0 \/ (p ∉ peers n) /\ matchIndex n !! p = Some m).
Proof.
  intros Hl. assert (restored n n) as Hsame by (exists (logStore n); apply set_logStore_id). unfold tryBecomeLeader.
  destruct (_ && _)%bool; [intros [= <- <-]; by split; [|left]|].
  destruct (negb (bool_decide (role n = RoleCandidate)) || negb (currentTerm n =? t)%nat)%bool eqn:Ec; [intros [= <- <-]; by split; [|left]|].
  apply orb_false_iff in Ec as [Hcand Ht0]. apply negb_false_iff, bool_decide_eq_true in Hcand. apply negb_false_iff, Nat.eqb_eq in Ht0 as <-.
  pose proof (persistEntry_frame n (log_lastIndex (nlog n) + 1) (noop (currentTerm n))) as [wl Hwl].
  destruct (persistEntryLocked n _ _) as [n1 err]. simpl in Hwl. subst n1. destruct err as [err|]; [intros [= <- <-]; split; [done|left; by exists wl]|].
  set (n2 := set_noopIndex _ _). destruct (reset_progress_spec n2) as (Hp3 & Hs3 & Hm3). pose proof (reset_progress_core n2) as (_&Hr3&Ht3&_&Hlg3&Hc3&Hla3&Hf3&_).
  set (n3 := reset_progress n2) in *. set (n4 := set_log _ n3). destruct (updateCommitIndexLocked n4) as [n5|] eqn:E5; [|done].
  cbn [mbind option_bind]. intros [= <- <-].
  assert (reads n4 (L ++ [noop (currentTerm n)])) as Hre.
  { apply (reads_append n); [done|simpl; rewrite Hlg3; done|exact Hla3|exact Hc3|exact Hf3|exact Hs3|done]. }
  pose proof (updateCommit_local _ _ _ Hre E5) as (_ & (_ & _ & _ & _ & Hp & _) & _). split; [rewrite Hp; exact Hp3|right].
  split; [done|]. split; [done|]. exists n4. split_and!; auto.
Qed.
End local.
