(* ===== verification/RaftCluster.v ===== *)
(** * A cluster with its messages

    The cluster of [RaftElection] with what its nodes send each other. Every step is
    a handler of one node. A message may be lost, delayed, delivered to any node
    and any number of times; a request to vote, to append or to install is one that
    was sent, and an answer to an append request is one that was given. The
    membership is fixed, and a node does not restart; logs are compacted and
    snapshots sent as in the source. *)

From S2P Require Import Prelude WalTypes RaftLog Raft RaftProps RaftDurable RaftElection RaftSpec RaftSpecThms RaftLocal.

Section cluster.
Context {F W SS MS : Type}.
Context {SMF : StateMachine F} {RF : Replay F} {WW : Wal W} {SSS : SnapshotStore SS} {MSS : MetaStore MS} {J : Json} {CJ : ConfigJson}.
Abbreviation Nd := (Node F W SS MS).
Implicit Types n : Nd.

Context (ms : gset string).

Record world : Type := mkWorld {
  wcluster : cluster (F := F) (W := W) (SS := SS) (MS := MS);
  wreqs : list RequestVote;
  wapps : list AppendEntries;
  wacks : list (string * AppendEntries * AppendEntriesReply);
  wsnaps : list (Snapshot * InstallSnapshot)
}.

Definition wnodes (w : world) : gmap string Nd := nodes (wcluster w).

(** Node [i] is now [n], with these elections and new votes. *)
Definition wmoved (i : string) n (els : list (string * Election * gset string)) (vs : gset (string * nat * string)) (w : world) : world :=
  mkWorld (moved (wcluster w) i n els vs) (wreqs w) (wapps w) (wacks w) (wsnaps w).
Definition wmove (i : string) n (w : world) : world := wmoved i n (elections (wcluster w)) ∅ w.
Definition send_req (r : RequestVote) (w : world) : world := mkWorld (wcluster w) (r :: wreqs w) (wapps w) (wacks w) (wsnaps w).
Definition send_app (r : AppendEntries) (w : world) : world := mkWorld (wcluster w) (wreqs w) (r :: wapps w) (wacks w) (wsnaps w).
Definition send_ack (r : string * AppendEntries * AppendEntriesReply) (w : world) : world :=
  mkWorld (wcluster w) (wreqs w) (wapps w) (r :: wacks w) (wsnaps w).
Definition send_snap (r : Snapshot * InstallSnapshot) (w : world) : world :=
  mkWorld (wcluster w) (wreqs w) (wapps w) (wacks w) (r :: wsnaps w).

Inductive wstep (w : world) : world -> Prop :=
  | w_candidate i n b n' :
      wnodes w !! i = Some n -> becomeCandidate n = (b, n') ->
      wstep w (wmoved i n' (elections (wcluster w)) (if b then {[(i, currentTerm n', i)]} else ∅) w)
  | w_start i n el n' :
      wnodes w !! i = Some n -> startElection n = Some (el, n') ->
      wstep w (send_req (voteRequest n el) (wmoved i n' (elections (wcluster w) ++ [(i, el, ∅)]) ∅ w))
  | w_vote i n args reply n' :
      wnodes w !! i = Some n -> args ∈ wreqs w -> HandleRequestVote n args = Some (reply, n') ->
      wstep w (wmoved i n' (elections (wcluster w)) (if rrVoteGranted reply then {[(i, rvTerm args, rvCandidateID args)]} else ∅) w)
  | w_count k i el seen p n reply b el' n' :
      elections (wcluster w) !! k = Some (i, el, seen) -> wnodes w !! i = Some n ->
      p ∈ elPeers el -> (p ∉ seen) -> (rrVoteGranted reply = true -> (p, elTerm el, i) ∈ votes (wcluster w)) ->
      onVoteReply n el reply = Some (b, el', n') ->
      wstep w (wmoved i n' (<[k := (i, el', {[p]} ∪ seen)]> (elections (wcluster w))) ∅ w)
  | w_replicate i n peer args :
      wnodes w !! i = Some n -> replicateTo n peer = Some (RepAppend args) -> wstep w (send_app args w)
  | w_confirm i n args :
      wnodes w !! i = Some n -> IsLeader n = true -> confirmArgs n = Some args -> wstep w (send_app args w)
  | w_append i n args reply n' :
      wnodes w !! i = Some n -> args ∈ wapps w -> HandleAppendEntries n args = Some (reply, n') ->
      wstep w (send_ack (i, args, reply) (wmove i n' w))
  | w_ack i n p args reply n' :
      wnodes w !! i = Some n -> (p, args, reply) ∈ wacks w -> aeLeaderID args = i -> p ∈ peers n ->
      onAppendReply n p args reply = Some n' -> wstep w (wmove i n' w)
  | w_snapshot i n snap args :
      wnodes w !! i = Some n -> sendSnapshot n = Some (snap, args) -> wstep w (send_snap (snap, args) w)
  | w_install i n snap args reply n' :
      wnodes w !! i = Some n -> (snap, args) ∈ wsnaps w -> HandleInstallSnapshot n args = Some (reply, n') -> wstep w (wmove i n' w)
  | w_installed i n p snap args reply n' :
      wnodes w !! i = Some n -> (snap, args) ∈ wsnaps w -> isLeaderID args = i -> p ∈ peers n ->
      onSnapshotReply n p snap reply = Some n' -> wstep w (wmove i n' w)
  | w_propose i n command r n' :
      wnodes w !! i = Some n -> Propose n command = Some (r, n') -> wstep w (wmove i n' w)
  | w_read i n replies finished :
      wnodes w !! i = Some n -> wstep w (wmove i (ReadIndex n replies finished).2 w)
  | w_stepdown i n :
      wnodes w !! i = Some n -> wstep w (wmove i (finishStepDown n) w).

(** Fresh nodes, nothing sent. *)
Definition fresh n : Prop :=
  static_peers ms n /\ role n = RoleFollower /\ nlog n = NewLog /\ commitIndex n = 0 /\ lastApplied n = 0 /\
  matchIndex n = ∅ /\ replays (fsm n) [] /\ forall ss s, snapshotStore n = Some ss -> ss_load ss <> Ok (Some s).

Definition winit (w : world) : Prop :=
  elections (wcluster w) = [] /\ votes (wcluster w) = ∅ /\ leaders (wcluster w) = ∅ /\ ("" ∉ ms) /\
  wreqs w = [] /\ wapps w = [] /\ wacks w = [] /\ wsnaps w = [] /\
  forall i n, wnodes w !! i = Some n -> nid n = i /\ fresh n.

Definition wreach (w : world) : Prop := exists w0, winit w0 /\ rtc wstep w0 w.
End cluster.
