(* ===== verification/RaftClusterRun.v ===== *)
(** * A run of a cluster of three

    A leader is elected, proposes a command, replicates and commits it, and a
    follower applies it. *)

From S2P Require Import Prelude WalTypes WalCodec RaftLog Raft RaftProps RaftInstances RaftThms RaftDurable RaftRestart RaftElection RaftLocal RaftCluster.

#[export] Instance Entry_countable : Countable Entry.
Proof.
  apply (inj_countable' (fun e => (eTerm e, eCommand e, eConfig e)) (fun p => mkEntry p.1.1 p.1.2 p.2)). by intros [].
Defined.

(** A state machine that remembers what it applied, and puts it in its snapshots. *)
Record LogFsm : Type := mkLogFsm { done_ : list Entry }.

#[export] Instance LogFsm_sm : StateMachine LogFsm := {|
  sm_apply f e := mkLogFsm (done_ f ++ [e]);
  sm_take f := Ok (write_bits (encode (done_ f)));
  sm_install f d := match read_value d with Some es => (None, mkLogFsm es) | None => (Some IOError, f) end
|}.

#[export] Program Instance LogFsm_replay : Replay LogFsm := {| replays f es := done_ f = es |}.
Next Obligation. simpl. congruence. Qed.
Next Obligation.
  intros f es d g f' Hf. simpl. intros [= <-]. unfold read_value. rewrite read_write_bits. simpl. rewrite decode_encode. by intros [= <-].
Qed.
Next Obligation. intros f es d e f' Hf. simpl. destruct (read_value d); [done|]. by intros [= _ <-]. Qed.

Definition LogNode : Type := Node LogFsm RaftWal MemSnapshots MemMeta.

Definition log_node (id : string) : LogNode :=
  mkNode id (trio_peers id) RoleFollower 0 "" NewLog None 0 0 "" 0 ∅ ∅ ∅ (Some None) 2000 (Some None) false false ∅ (mkLogFsm []).

Abbreviation LogWorld := (world (F := LogFsm) (W := RaftWal) (SS := MemSnapshots) (MS := MemMeta)).

Definition ran {A : Type} (o : option (A * LogNode)) (id : string) : LogNode := match o with Some (_, n) => n | None => log_node id end.

Definition la0 : LogNode := log_node "a".
Definition lb0 : LogNode := log_node "b".
Definition la1 : LogNode := (becomeCandidate la0).2.
Definition lel : Election := mkElection 1 0 0 2 (trio_peers "a") 1.
Definition lreq : RequestVote := voteRequest la1 lel.
Definition lb1 : LogNode := ran (HandleRequestVote lb0 lreq) "b".
Definition la2 : LogNode := ran (onVoteReply la1 lel (mkRequestVoteReply 0 true)) "a".
Definition lel' : Election := mkElection 1 0 0 2 (trio_peers "a") 2.
Definition lcommand : bytes := [nl].
Definition lentry : Entry := mkEntry 1 (Some lcommand) None.
Definition la3 : LogNode := ran (Propose la2 lcommand) "a".
Definition lapp1 : AppendEntries := mkAppendEntries 1 "a" 0 0 [noop 1; lentry] 0.
Definition lb2 : LogNode := ran (HandleAppendEntries lb1 lapp1) "b".
Definition lack1 : AppendEntriesReply := mkAppendEntriesReply 1 true.
Definition la4 : LogNode := default la0 (onAppendReply la3 "b" lapp1 lack1).
Definition lapp2 : AppendEntries := mkAppendEntries 1 "a" 2 1 [] 2.
Definition lb3 : LogNode := ran (HandleAppendEntries lb2 lapp2) "b".

Definition lw0 : LogWorld :=
  mkWorld (mkCluster {[ "a" := la0; "b" := lb0; "c" := log_node "c" ]} [] ∅ ∅) [] [] [] [].
Definition lw1 : LogWorld := wmoved "a" la1 [] {[("a", 1, "a")]} lw0.
Definition lw2 : LogWorld := send_req lreq (wmoved "a" la1 [("a", lel, ∅)] ∅ lw1).
Definition lw3 : LogWorld := wmoved "b" lb1 [("a", lel, ∅)] {[("b", 1, "a")]} lw2.
Definition lw4 : LogWorld := wmoved "a" la2 [("a", lel', {["b"]} ∪ ∅)] ∅ lw3.
Definition lw5 : LogWorld := wmove "a" la3 lw4.
Definition lw6 : LogWorld := send_app lapp1 lw5.
Definition lw7 : LogWorld := send_ack ("b", lapp1, lack1) (wmove "b" lb2 lw6).
Definition lw8 : LogWorld := wmove "a" la4 lw7.
Definition lw9 : LogWorld := send_app lapp2 lw8.
Definition lw10 : LogWorld := send_ack ("b", lapp2, lack1) (wmove "b" lb3 lw9).

Lemma lw0_init : winit trio lw0.
Proof.
  do 8 (split; [done|]). intros i n Hi.
  assert (forall id, id ∈ ["a"; "b"; "c"] -> nid (log_node id) = id /\ fresh trio (log_node id)) as Hall.
  { intros id Hid. split; [done|]. split; [|do 6 (split; [done|]); by intros ss s [= <-]].
    unfold static_peers. cbn [nid peers log_node].
    split; [unfold trio; set_solver|]. split; [apply NoDup_filter; repeat constructor; set_solver|].
    apply set_eq. intros x. unfold trio_peers, trio. rewrite elem_of_list_to_set, list_elem_of_filter. set_solver. }
  unfold lw0, wnodes in Hi. cbn [nodes wcluster] in Hi.
  apply lookup_insert_Some in Hi as [[<- <-]|[_ Hi]]; [apply Hall; set_solver|].
  apply lookup_insert_Some in Hi as [[<- <-]|[_ Hi]]; [apply Hall; set_solver|].
  apply lookup_singleton_Some in Hi as [<- <-]. apply Hall; set_solver.
Qed.

Lemma lw5_reach : rtc wstep lw0 lw5.
Proof.
  eapply rtc_l; [apply (w_candidate lw0 "a" la0 true la1); vm_compute; reflexivity|].
  eapply rtc_l; [apply (w_start lw1 "a" la1 lel la1); vm_compute; reflexivity|].
  eapply rtc_l; [apply (w_vote lw2 "b" lb0 lreq (mkRequestVoteReply 0 true) lb1); [vm_compute; reflexivity|by left|vm_compute; reflexivity]|].
  eapply rtc_l; [apply (w_count lw3 0 "a" lel ∅ "b" la1 (mkRequestVoteReply 0 true) true lel' la2)|].
  - reflexivity.
  - vm_compute. reflexivity.
  - vm_compute. set_solver.
  - set_solver.
  - intros _. vm_compute. reflexivity.
  - vm_compute. reflexivity.
  - apply rtc_once. apply (w_propose lw4 "a" la2 lcommand (Ok 2) la3); vm_compute; reflexivity.
Qed.

Lemma lw8_reach : rtc wstep lw5 lw8.
Proof.
  eapply rtc_l; [apply (w_replicate lw5 "a" la3 "b" lapp1); vm_compute; reflexivity|].
  eapply rtc_l; [apply (w_append lw6 "b" lb1 lapp1 lack1 lb2); [vm_compute; reflexivity|by left|vm_compute; reflexivity]|].
  apply rtc_once. apply (w_ack lw7 "a" la3 "b" lapp1 lack1 la4); [vm_compute; reflexivity|by left|reflexivity| |vm_compute; reflexivity].
  vm_compute. set_solver.
Qed.

Lemma lw10_reach : rtc wstep lw8 lw10.
Proof.
  eapply rtc_l; [apply (w_replicate lw8 "a" la4 "b" lapp2); vm_compute; reflexivity|].
  apply rtc_once. apply (w_append lw9 "b" lb2 lapp2 lack1 lb3); [vm_compute; reflexivity|by left|vm_compute; reflexivity].
Qed.
