(* ===== verification/RaftSim.v ===== *)
(** * The cluster follows the protocol

    Every step of the cluster of [RaftCluster] is none or a few steps of the abstract
    Raft of [RaftSpec], along a relation between a node and its abstract self. *)

From S2P Require Import Prelude WalTypes RaftLog Raft RaftProps RaftThms RaftDurable RaftElection RaftSpec RaftSpecThms RaftLocal RaftCluster.

Section sim.
Context {F W SS MS : Type}.
Context {SMF : StateMachine F} {RF : Replay F} {WW : Wal W} {SSS : SnapshotStore SS} {SSL : SnapshotStoreLaws SS}
  {MSS : MetaStore MS} {J : Json} {CJ : ConfigJson}.
Abbreviation Nd := (Node F W SS MS).
Abbreviation World := (world (F := F) (W := W) (SS := SS) (MS := MS)).
Implicit Types n : Nd.
Implicit Types w : World.

Context (ms : gset string).

(** ** The relation *)

(** The progress a leader has on record for [p] is that of an entry committed
    already, or [p] has accepted that much in this term. *)
Definition match_ok (s : spec) (i : string) n : Prop :=
  forall p m, matchIndex n !! p = Some m -> p ∈ ms ∖ {[i]} /\
    (role n = RoleLeader -> m <= commitIndex n \/ exists P, (p, currentTerm n, P) ∈ sAccs s /\ S m <= length P).

Record nrel (s : spec) (i : string) n (a : anode) : Prop := {
  r_term : aTerm a = currentTerm n;
  r_role : aRole a = role n;
  r_commit : aCommit a = commitIndex n;
  r_local : local n (aLog a);
  r_match : match_ok s i n
}.

Definition led (w : World) (s : spec) (t : nat) (j : string) (L : list Entry) : Prop :=
  (t, j) ∈ leaders (wcluster w) /\ (j, t, L) ∈ sAccs s /\ plain L /\ exists e, e ∈ L /\ eTerm e = t.

Definition acked (w : World) (s : spec) (q : string) (args : AppendEntries) (r : AppendEntriesReply) : Prop :=
  args ∈ wapps w /\ (arSuccess r = true -> arTerm r <= aeTerm args /\
    exists P, (q, aeTerm args, P) ∈ sAccs s /\ S (aePrevLogIndex args + length (aeEntries args)) <= length P).

(** A snapshot on its way is the request to append all that it stands for. *)
Definition shipped (w : World) (s : spec) (snap : Snapshot) (args : InstallSnapshot) : Prop :=
  (exists n, wnodes w !! isLeaderID args = Some n /\ LastIncludedIndex snap <= commitIndex n) /\
  exists P es lid, P = noop 0 :: es /\ carries args P /\
    mkAppendEntries (isTerm args) lid 0 0 es (isLastIncludedIndex args) ∈ sApps s.

Record sim (w : World) (s : spec) : Prop := {
  m_inv : inv ms s;
  m_cluster : cluster_inv ms (wcluster w);
  m_node : forall i n, wnodes w !! i = Some n -> exists a, sNodes s !! i = Some a /\ nrel s i n a;
  m_reqs : forall r, r ∈ wreqs w -> r ∈ sReqs s /\ rvCandidateID r <> "";
  m_votes : forall v t c, (v, t, c) ∈ votes (wcluster w) -> exists args G, (v, args, G) ∈ sGrants s /\ rvTerm args = t /\ rvCandidateID args = c;
  m_led : forall t j L, sLogs s !! t = Some (j, L) -> led w s t j L;
  m_apps : forall args, args ∈ wapps w -> args ∈ sApps s /\ exists L, sLogs s !! aeTerm args = Some (aeLeaderID args, L);
  m_acks : forall q args r, (q, args, r) ∈ wacks w -> acked w s q args r;
  m_snaps : forall snap args, (snap, args) ∈ wsnaps w -> shipped w s snap args
}.

(** ** Nothing is forgotten *)

Record mono (s s' : spec) : Prop := {
  o_reqs : forall r, r ∈ sReqs s -> r ∈ sReqs s';
  o_grants : forall r, r ∈ sGrants s -> r ∈ sGrants s';
  o_apps : forall r, r ∈ sApps s -> r ∈ sApps s';
  o_accs : forall r, r ∈ sAccs s -> r ∈ sAccs s';
  o_logs : forall t j L, sLogs s !! t = Some (j, L) -> exists L', sLogs s' !! t = Some (j, L') /\ L `prefix_of` L'
}.

Lemma mono_refl s : mono s s.
Proof. split; eauto. Qed.

Lemma mono_trans s1 s2 s3 : mono s1 s2 -> mono s2 s3 -> mono s1 s3.
Proof. intros [] []. split; eauto. intros t j L E. destruct (o_logs0 t j L E) as (L' & E' & ?). destruct (o_logs1 t j L' E') as (L2 & E2 & ?).
  exists L2. split; [done|by etrans].
Qed.

Lemma astep_mono s s' : inv ms s -> astep ms s s' -> mono s s'.
Proof.
  intros Hi Hst.
  assert (forall i a e, sNodes s !! i = Some a -> (sLogs s !! aTerm a = None \/ aRole a = RoleLeader) -> mono s (lead_with i a (aLog a ++ [e]) s)) as Hlead.
  { intros i a e Ha Hor. split; simpl; eauto using list_elem_of_further. intros t j L E. rewrite lookup_insert. case_decide as Hd; [|eauto]. subst t.
    destruct Hor as [Hn|Hr]; [congruence|]. rewrite (i_leader ms s Hi i a Ha Hr) in E. injection E as <- <-. eexists. split; [done|by exists [e]]. }
  destruct Hst; try (split; simpl; eauto using list_elem_of_further; fail); eapply Hlead; eauto.
Qed.

Lemma asteps_mono s s' : inv ms s -> rtc (astep ms) s s' -> inv ms s' /\ mono s s'.
Proof.
  intros Hi Hr. induction Hr as [s|s1 s2 s3 Hst _ IH]; [by split; [|apply mono_refl]|].
  destruct IH as [Hi3 Hm]; [by eapply astep_inv|]. split; [done|]. eapply mono_trans; [by apply astep_mono|done].
Qed.

Lemma match_mono s s' i n : mono s s' -> match_ok s i n -> match_ok s' i n.
Proof.
  intros Hm H p m E. destruct (H p m E) as [Hp Hl]. split; [done|]. intros Hr. destruct (Hl Hr) as [?|(P & HP & ?)]; [by left|right].
  exists P. split; [by apply (o_accs s)|done].
Qed.

Lemma nrel_mono s s' i n a : mono s s' -> nrel s i n a -> nrel s' i n a.
Proof. intros Hm [? ? ? ? ?]. split; try done. by eapply match_mono. Qed.

(** ** One node moves *)

Lemma sim_move w s s' i n n' a' els vs :
  sim w s -> wnodes w !! i = Some n -> rtc (astep ms) s s' -> cluster_inv ms (moved (wcluster w) i n' els vs) ->
  sNodes s' = <[i := a']> (sNodes s) -> nrel s' i n' a' -> commitIndex n <= commitIndex n' ->
  (forall v t c, (v, t, c) ∈ vs -> exists args G, (v, args, G) ∈ sGrants s' /\ rvTerm args = t /\ rvCandidateID args = c) ->
  (forall t j L, sLogs s' !! t = Some (j, L) -> sLogs s !! t = Some (j, L) \/
     led (wmoved i n' els vs w) s' t j L) ->
  sim (wmoved i n' els vs w) s'.
Proof.
  intros Hs Hn Hst Hcl Hnodes Hrel Hco Hvs Hled. destruct (asteps_mono s s' (m_inv w s Hs) Hst) as [Hi Hm].
  assert (forall e, e ∈ leaders (wcluster w) -> e ∈ leaders (moved (wcluster w) i n' els vs)) as Hlsub.
  { intros e He. simpl. case_decide; [by apply elem_of_union_r|done]. }
  split; [done|done| | | | | | |].
  - intros j m. unfold wnodes. simpl. rewrite lookup_insert. case_decide as Hd.
    + intros [= <-]. subst j. exists a'. by rewrite Hnodes, lookup_insert_eq.
    + intros Hj. destruct (m_node w s Hs j m Hj) as (a & Ha & Hr). exists a. rewrite Hnodes, lookup_insert_ne by done. split; [done|by eapply nrel_mono].
  - intros r Hr. destruct (m_reqs w s Hs r Hr). split; [by apply (o_reqs s)|done].
  - intros v t c Hv. simpl in Hv. apply elem_of_union in Hv as [Hin|Hin]; [by apply Hvs|]. destruct (m_votes w s Hs v t c Hin) as (args & G & Hg & ?). exists args, G.
    split; [by apply (o_grants s)|done].
  - intros t j L [E|E]%Hled; [|done]. destruct (m_led w s Hs t j L E) as (Hl & Ha & ?). split; [by apply Hlsub|]. split; [by apply (o_accs s)|done].
  - intros args Hin. destruct (m_apps w s Hs args Hin) as (Hap & L & E). split; [by apply (o_apps s)|]. destruct (o_logs s s' Hm _ _ _ E) as (L' & ? & _). by exists L'.
  - intros q args r Hin. destruct (m_acks w s Hs q args r Hin) as (Hap & Hok). split; [done|]. intros Hsu. destruct (Hok Hsu) as (? & P & HP & ?).
    split; [done|]. exists P. split; [by apply (o_accs s)|done].
  - intros snap args Hin. destruct (m_snaps w s Hs snap args Hin) as ((m & Hm1 & Hm2) & P & es & lid & -> & Hcar & Hap). split.
    + unfold wnodes in *. simpl. destruct (decide (isLeaderID args = i)) as [Heq|Hne].
      * rewrite Heq, lookup_insert_eq. exists n'. split; [done|]. rewrite Heq, Hn in Hm1. injection Hm1 as <-. lia.
      * rewrite lookup_insert_ne by done. by exists m.
    + exists (noop 0 :: es), es, lid. split; [done|]. split; [done|]. by apply (o_apps s).
Qed.

#[local] Set Default Proof Using "All".

Lemma sim_node w s i n : sim w s -> wnodes w !! i = Some n ->
  exists a, sNodes s !! i = Some a /\ nrel s i n a /\ nid n = i /\ static_peers ms n.
Proof.
  intros Hs Hn. destruct (m_node w s Hs i n Hn) as (a & Ha & Hr). destruct (inv_nodes ms _ (m_cluster w s Hs) i n Hn) as (? & _ & ? & _). by exists a.
Qed.

(** A move that the protocol does not see. *)
Lemma sim_same w s i n n' els :
  sim w s -> wnodes w !! i = Some n -> cluster_inv ms (moved (wcluster w) i n' els ∅) ->
  (forall a, sNodes s !! i = Some a -> local n (aLog a) -> local n' (aLog a)) -> currentTerm n' = currentTerm n -> role n' = role n -> commitIndex n' = commitIndex n ->
  matchIndex n' = matchIndex n -> exists s', rtc (astep ms) s s' /\ sim (wmoved i n' els ∅ w) s'.
Proof.
  intros Hs Hn Hcl Hl Ht Hr Hc Hm. destruct (sim_node w s i n Hs Hn) as (a & Ha & [? ? ? ? Hma] & _). exists s. split; [done|].
  apply (sim_move w s s i n n' a); [done|done|done|done|by rewrite insert_id| |lia|set_solver|by left].
  split; [congruence|congruence|congruence|by apply Hl|]. unfold match_ok. by rewrite Hm, Hr, Hc, Ht.
Qed.

Lemma match_follower s i n n' : match_ok s i n -> matchIndex n' = matchIndex n -> role n' <> RoleLeader -> match_ok s i n'.
Proof. intros H Hm Hr p m E. rewrite Hm in E. destruct (H p m E) as [? _]. by split. Qed.

(** A node that follows, with the log it had. *)
Lemma sim_down w s i n n' els :
  sim w s -> wnodes w !! i = Some n -> cluster_inv ms (moved (wcluster w) i n' els ∅) ->
  (forall a, sNodes s !! i = Some a -> local n (aLog a) -> local n' (aLog a)) -> currentTerm n <= currentTerm n' -> role n' = RoleFollower -> commitIndex n' = commitIndex n ->
  matchIndex n' = matchIndex n -> exists s', rtc (astep ms) s s' /\ sim (wmoved i n' els ∅ w) s'.
Proof.
  intros Hs Hn Hcl Hl Ht Hr Hc Hm. destruct (sim_node w s i n Hs Hn) as (a & Ha & [Hat Har Hac Hlo Hma] & _).
  set (a' := mkA (currentTerm n') RoleFollower (aLog a) (aCommit a)). exists (set_node i a' s).
  assert (rtc (astep ms) s (set_node i a' s)) as Hst by (apply rtc_once; apply a_down; [done|lia]). split; [done|].
  apply (sim_move w s _ i n n' a'); [done|done|done|done|done| |lia|set_solver|by left].
  split; simpl; [done|done|congruence|by apply Hl|]. eapply match_follower; [|done|congruence]. exact Hma.
Qed.

(** ** Committing *)

(** Those that a leader counts for [k]: itself and those on record. *)
Definition counted (i : string) n (k : nat) : gset string := {[i]} ∪ dom (filter (fun p : string * nat => k <= p.2) (matchIndex n)).

Lemma elem_counted i n k q : q ∈ counted i n k <-> q = i \/ exists m, matchIndex n !! q = Some m /\ k <= m.
Proof.
  unfold counted. rewrite elem_of_union, elem_of_singleton, elem_of_dom. unfold is_Some. setoid_rewrite map_lookup_filter_Some. done.
Qed.

Lemma counted_size s i n k : match_ok s i n -> size (counted i n k) = countMatch n k.
Proof.
  intros Hm. unfold counted, countMatch. rewrite size_union, size_singleton, size_dom; [done|].
  apply disjoint_singleton_l. intros [m [Hin _]%map_lookup_filter_Some]%elem_of_dom. destruct (Hm i m Hin) as [Hi _]. set_solver.
Qed.

Lemma counted_sub s i n k : match_ok s i n -> i ∈ ms -> counted i n k ⊆ ms.
Proof.
  intros Hm Hi q [->|(m & Hin & _)]%elem_counted; [done|].
  destruct (Hm q m Hin) as [Hq _]. set_solver.
Qed.

Lemma match_steady s i n n' : match_ok s i n -> steady n n' -> commitIndex n <= commitIndex n' -> match_ok s i n'.
Proof.
  intros Hm (_ & Hr & Ht & _ & _ & Hma) Hc p m E. rewrite Hma in E. rewrite Hr, Ht. destruct (Hm p m E) as [Hp Hl]. split; [done|].
  intros HL. destruct (Hl HL) as [?|?]; [left; lia|by right].
Qed.

Lemma commit_sim s i a n n' :
  inv ms s -> sNodes s !! i = Some a -> aRole a = RoleLeader -> aTerm a = currentTerm n -> aCommit a = commitIndex n -> role n = RoleLeader ->
  i ∈ ms -> majorityLocked n = quorum ms -> match_ok s i n -> (i, currentTerm n, aLog a) ∈ sAccs s -> reads n (aLog a) ->
  updateCommitIndexLocked n = Some n' ->
  exists s' a', rtc (astep ms) s s' /\ sNodes s' = <[i := a']> (sNodes s) /\ sLogs s' = sLogs s /\ sAccs s' = sAccs s /\ nrel s' i n' a' /\
    commitIndex n <= commitIndex n' /\ steady n n'.
Proof.
  intros Hi Ha Hr Ht Hc Hro Hin Hq Hm Hown Hre E. apply (updateCommit_local _ (aLog a)) in E as (Hl & Hst & Hcase); [|done].
  assert (steady n n' /\ commitIndex n <= commitIndex n') as [_ Hle] by (split; [done|destruct Hcase as [->|[? _]]; lia]).
  destruct Hcase as [Heq|(Hlt & Hte & Hmaj)].
  - exists s, a. split; [done|]. split; [by rewrite insert_id|]. split; [done|]. split; [done|]. split; [|done].
    destruct Hst as (? & Hr' & Ht' & Hst'). split; [congruence|congruence|congruence|done|]. by eapply match_steady.
  - set (c' := commitIndex n') in *. set (a' := mkA (aTerm a) RoleLeader (aLog a) c'). exists (set_node i a' s), a'.
    assert (rtc (astep ms) s (set_node i a' s)) as Hstep.
    { destruct (aLog a !! c') as [e|] eqn:Ee; [|done]. simpl in Hte. injection Hte as Hte.
      apply rtc_once. apply (a_commit ms s i a c' e (counted i n c')); [done|done|done|congruence|by eapply counted_sub| |].
      - rewrite (counted_size s) by done. unfold majority. unfold quorum in Hq. lia.
      - intros q [->|(m & Hq1 & Hq2)]%elem_counted.
        + exists (aLog a). rewrite Ht. split; [done|]. lia.
        + destruct (Hm q m Hq1) as [_ Hacc]. destruct (Hacc Hro) as [?|(P & HP & Hlen)]; [lia|]. exists P. rewrite Ht. split; [done|lia]. }
    split; [done|]. split; [done|]. split; [done|]. split; [done|]. split; [|done].
    destruct Hst as (? & Hr' & Ht' & Hst'). split; simpl; [congruence|congruence|done|done|]. by eapply match_steady.
Qed.

(** ** Becoming the leader *)

(** A candidate has not led in its term. *)
Lemma candidate_new w s i n a els n' :
  sim w s -> sNodes s !! i = Some a -> aRole a = RoleCandidate -> cluster_inv ms (moved (wcluster w) i n' els ∅) ->
  role n' = RoleLeader -> currentTerm n' = aTerm a -> nrel s i n a -> sLogs s !! aTerm a = None.
Proof.
  intros Hs Ha Hr Hcl Hro Ht _. destruct (sLogs s !! aTerm a) as [[j L]|] eqn:E; [exfalso|done].
  destruct (m_led w s Hs _ _ _ E) as (Hl & Hacc & _ & e & He & Het).
  assert (j = i) as ->.
  { apply (one_leader ms (moved (wcluster w) i n' els ∅) (aTerm a)); [done| |]; simpl; rewrite decide_True by done.
    - by apply elem_of_union_r.
    - apply elem_of_union_l. rewrite Ht. by apply elem_of_singleton. }
  destruct (i_acc ms s (m_inv w s Hs) i (aTerm a) L Hacc) as (j & L2 & b & _ & _ & Hb & _ & Hk). rewrite Ha in Hb. injection Hb as <-.
  destruct (Hk L ltac:(done)) as [HP|(t2 & ? & _)]; [|lia]. pose proof (i_cand ms s (m_inv w s Hs) i a Ha Hr e (elem_of_prefix _ _ _ He HP)). lia.
Qed.

Lemma become_sim w s i n t b n' els :
  sim w s -> wnodes w !! i = Some n -> tryBecomeLeader n t = Some (b, n') -> cluster_inv ms (moved (wcluster w) i n' els ∅) ->
  exists s', rtc (astep ms) s s' /\ sim (wmoved i n' els ∅ w) s'.
Proof.
  intros Hs Hn E Hcl. destruct (sim_node w s i n Hs Hn) as (a & Ha & Hrel & Hid & Hst). pose proof Hrel as [Hat Har Hac Hlo Hma].
  destruct (tryBecomeLeader_local n (aLog a) t b n' Hlo E) as (_ & [[wl ->]|(Hcand & <- & n4 & E5 & Hre & Hr4 & Ht4 & Hc4 & Hp4 & Hm4)]).
  { eapply sim_same; try done. intros x _ HL. by eapply local_frame. }
  rewrite <- Hat in *. set (L' := aLog a ++ [noop (aTerm a)]) in *.
  assert (role n' = RoleLeader /\ currentTerm n' = aTerm a) as [Hr5 Ht5].
  { pose proof (updateCommit_local _ _ _ Hre E5) as (_ & (_ & Hr & Ht & _) & _). split; congruence. }
  assert (sLogs s !! aTerm a = None) as Hnone by (eapply (candidate_new w s i n a els n'); try done; congruence).
  set (s1 := lead_with i a L' s).
  assert (rtc (astep ms) s s1) as Hst1.
  { destruct (inv_leaders ms _ Hcl (aTerm a) i) as (Q & HQ & Hsz & HQv).
    - simpl. rewrite decide_True by done. apply elem_of_union_l. rewrite Ht5. by apply elem_of_singleton.
    - apply rtc_once. apply (a_lead ms s i a Q); [done|congruence|done|done|done|]. intros q Hq. apply HQv in Hq. simpl in Hq.
      rewrite (left_id_L ∅ (∪)) in Hq. by apply (m_votes w s Hs). }
  destruct (asteps_mono s s1 (m_inv w s Hs) Hst1) as [Hi1 Hmo1].
  destruct (commit_sim s1 i (mkA (aTerm a) RoleLeader L' (aCommit a)) n4 n') as (s2 & a2 & Hst2 & Hn2 & Hl2 & Hac2 & Hrel2 & Hle & Hstd); try done; simpl.
  - by rewrite lookup_insert_eq.
  - congruence.
  - rewrite <- Hid. apply Hst.
  - rewrite <- (majority_quorum ms n Hst). unfold majorityLocked. by rewrite Hp4.
  - assert (forall p, p ∈ peers n -> p ∈ ms ∖ {[i]}) as Hpe.
    { intros p Hp. rewrite <- Hid. destruct Hst as (_ & _ & <-). by apply elem_of_list_to_set. }
    intros p m [[Hp ->]|[Hnin E2]]%Hm4; [split; [by apply Hpe|left; lia]|]. exfalso.
    destruct (Hma p m E2) as [Hp _]. rewrite <- Hid in Hp. destruct Hst as (_ & _ & Hps). rewrite <- Hps in Hp. apply elem_of_list_to_set in Hp. done.
  - rewrite Ht4. by left.
  - exists s2. split; [by etrans|]. assert (rtc (astep ms) s s2) as Hst12 by (by etrans).
    eapply (sim_move w s s2 i n n' a2); [done|done|done|done| |done| |set_solver|].
    + rewrite Hn2. simpl. by rewrite insert_insert_eq.
    + simpl in Hle. lia.
    + intros t j L. rewrite Hl2. simpl. rewrite lookup_insert. case_decide as Hd; [|by left]. subst t. intros [= <- <-]. right.
      split; [simpl; rewrite decide_True by done; apply elem_of_union_l; rewrite Ht5; by apply elem_of_singleton|].
      split; [rewrite Hac2; by left|]. split; [apply Hre|]. exists (noop (aTerm a)). split; [|done]. unfold L'. apply elem_of_app. right. by apply list_elem_of_singleton.
Qed.
End sim.
