(* ===== verification/RaftSimSteps.v ===== *)
(** * Every step of the cluster is one of the protocol *)

From S2P Require Import Prelude WalTypes RaftLog Raft RaftProps RaftThms RaftDurable RaftElection RaftSpec RaftSpecThms RaftLocal RaftCluster RaftSim.

Section steps.
Context {F W SS MS : Type}.
Context {SMF : StateMachine F} {RF : Replay F} {WW : Wal W} {SSS : SnapshotStore SS} {SSL : SnapshotStoreLaws SS}
  {MSS : MetaStore MS} {J : Json} {CJ : ConfigJson}.
Abbreviation Nd := (Node F W SS MS).
Abbreviation World := (world (F := F) (W := W) (SS := SS) (MS := MS)).
Implicit Types n : Nd.
Implicit Types w : World.

Context (ms : gset string).

#[local] Set Default Proof Using "All".

(** A step of the cluster without elections keeps its invariant. *)
Lemma other_inv w i n inp n' : cluster_inv ms (wcluster w) -> wnodes w !! i = Some n -> ordinary inp -> raft_step n inp = Some n' -> peers n' = peers n ->
  cluster_inv ms (moved (wcluster w) i n' (elections (wcluster w)) ∅).
Proof. intros Hc Hn Ho Hs Hp. eapply cstep_inv; [done|]. by eapply cs_other. Qed.

Lemma peers_members n i p : static_peers ms n -> nid n = i -> p ∈ peers n -> p ∈ ms ∖ {[i]}.
Proof. intros (_ & _ & Hp) <- Hin. rewrite <- Hp. by apply elem_of_list_to_set. Qed.

(** ** The leader *)

Lemma leader_acc w s i n a : sim ms w s -> sNodes s !! i = Some a -> nrel ms s i n a -> role n = RoleLeader ->
  sLogs s !! aTerm a = Some (i, aLog a) /\ (i, currentTerm n, aLog a) ∈ sAccs s.
Proof.
  intros Hs Ha Hr Hl. pose proof (i_leader ms s (m_inv ms w s Hs) i a Ha) as E. rewrite (r_role _ _ _ _ _ Hr) in E. specialize (E Hl).
  split; [done|]. destruct (m_led ms w s Hs _ _ _ E) as (_ & Hacc & _). by rewrite <- (r_term _ _ _ _ _ Hr).
Qed.

Lemma propose_sim w s i n command r n' : sim ms w s -> wnodes w !! i = Some n -> Propose n command = Some (r, n') ->
  exists s', rtc (astep ms) s s' /\ sim ms (wmove i n' w) s'.
Proof.
  intros Hs Hn E. assert (E0 := E). unfold Propose in E. destruct (IsLeader n) eqn:Hl; cbn [negb] in E.
  2:{ injection E as <- <-. apply (sim_same ms w s i n n); try done. apply (other_inv w i n (IPropose command)); [apply Hs|done|done|by simpl; rewrite E0|done]. }
  apply bool_decide_eq_true in Hl. set (e := mkEntry (currentTerm n) (Some command) None) in *.
  destruct (sim_node ms w s i n Hs Hn) as (a & Ha & Hrel & Hid & Hst). destruct (leader_acc w s i n a Hs Ha Hrel Hl) as [EL Hacc].
  pose proof Hrel as [Hat Har Hac Hlo Hma]. unfold appendEntryLocked in E.
  pose proof (persistEntry_frame n (log_lastIndex (nlog n) + 1) e) as [wl Hwl]. destruct (persistEntryLocked n _ _) as [n1 err]. simpl in Hwl. subst n1.
  destruct err as [err|].
  { injection E as <- <-. eapply sim_same; try done; [|intros x _ HL; by eapply local_frame].
    apply (other_inv w i n (IPropose command)); [apply Hs|done|done|by simpl; rewrite E0|done]. }
  destruct (updateCommitIndexLocked _) as [n2|] eqn:E2; [|done]. cbn [mbind option_bind] in E. injection E as <- <-.
  set (n1 := set_log _ _) in E2. set (L' := aLog a ++ [e]).
  assert (reads n1 L') as Hre by (by apply (reads_append n)).
  set (s1 := lead_with i a L' s).
  assert (rtc (astep ms) s s1) as Hst1 by (apply rtc_once; apply a_append; [done|congruence|simpl; congruence]).
  destruct (asteps_mono ms s s1 (m_inv ms w s Hs) Hst1) as [Hi1 Hmo1].
  destruct (commit_sim ms s1 i (mkA (aTerm a) RoleLeader L' (aCommit a)) n1 n2) as (s2 & a2 & Hst2 & Hn2 & Hl2 & Hac2 & Hrel2 & Hle & Hstd); try done.
  - simpl. by rewrite lookup_insert_eq.
  - rewrite <- Hid. apply Hst.
  - rewrite <- (majority_quorum ms n Hst). done.
  - by apply (match_mono ms s).
  - simpl. rewrite Hat. by left.
  - destruct Hstd as (_ & Hr5 & Ht5 & _ & Hp5 & _). exists s2. assert (rtc (astep ms) s s2) as Hst12 by (by etrans). split; [done|].
    apply (sim_move ms w s s2 i n n2 a2); [done|done|done| | |done| |set_solver|].
    + apply (other_inv w i n (IPropose command)); [apply Hs|done|done|by simpl; rewrite E0|done].
    + rewrite Hn2. simpl. by rewrite insert_insert_eq.
    + simpl in Hle. lia.
    + intros t j L. rewrite Hl2. simpl. rewrite lookup_insert. case_decide as Hd; [|by left]. subst t. intros [= <- <-]. right.
      destruct (m_led ms w s Hs _ _ _ EL) as (Hlead & _ & _). split; [simpl; case_decide; [by apply elem_of_union_r|done]|].
      split; [rewrite Hac2; by left|]. split; [apply Hre|]. exists e. split; [|simpl; congruence]. unfold L'. apply elem_of_app. right. by apply list_elem_of_singleton.
Qed.

(** A leader that updates its progress and commits. *)
Lemma progress_sim w s i n inp n1 n' :
  sim ms w s -> wnodes w !! i = Some n -> ordinary inp -> raft_step n inp = Some n' ->
  role n = RoleLeader -> (exists mi nx, n1 = set_nextIndex nx (set_matchIndex mi n)) -> match_ok ms s i n1 ->
  updateCommitIndexLocked n1 = Some n' -> exists s', rtc (astep ms) s s' /\ sim ms (wmove i n' w) s'.
Proof.
  intros Hs Hn Ho E0 Hl (mi & nx & ->) Hma1 E. destruct (sim_node ms w s i n Hs Hn) as (a & Ha & Hrel & Hid & Hst).
  destruct (leader_acc w s i n a Hs Ha Hrel Hl) as [EL Hacc]. pose proof Hrel as [Hat Har Hac Hlo Hma].
  destruct (commit_sim ms s i a (set_nextIndex nx (set_matchIndex mi n)) n') as (s2 & a2 & Hst2 & Hn2 & Hl2 & Hac2 & Hrel2 & Hle & Hstd); try done.
  - apply Hs.
  - congruence.
  - rewrite <- Hid. apply Hst.
  - by rewrite <- (majority_quorum ms n Hst).
  - apply local_reads. by eapply local_frame.
  - exists s2. split; [done|]. apply (sim_move ms w s s2 i n n' a2); [done|done|done| |done|done|done|set_solver|rewrite Hl2; by left].
    apply (other_inv w i n inp); [apply Hs|done|done|done|]. by destruct Hstd as (_ & _ & _ & _ & -> & _).
Qed.

(** A leader that has seen a newer term. *)
Lemma stepdown_sim w s i n t inp : sim ms w s -> wnodes w !! i = Some n -> ordinary inp -> raft_step n inp = Some (stepDownLocked n t) ->
  currentTerm n < t -> exists s', rtc (astep ms) s s' /\ sim ms (wmove i (stepDownLocked n t) w) s'.
Proof.
  intros Hs Hn Ho E Ht. apply (sim_down ms w s i n); try done; [by apply (other_inv w i n inp); [apply Hs|..]| |simpl; lia].
  intros x _ HL. by eapply local_frame.
Qed.

Lemma unmoved_sim w s i n inp : sim ms w s -> wnodes w !! i = Some n -> ordinary inp -> raft_step n inp = Some n ->
  exists s', rtc (astep ms) s s' /\ sim ms (wmove i n w) s'.
Proof. intros Hs Hn Ho E. apply (sim_same ms w s i n n); try done. by apply (other_inv w i n inp); [apply Hs|..]. Qed.

(** An acknowledged request was accepted in the leader's present term. *)
Lemma acked_term w s i n a p args reply :
  sim ms w s -> sNodes s !! i = Some a -> nrel ms s i n a -> acked w s p args reply -> aeLeaderID args = i ->
  arSuccess reply = true -> currentTerm n <= arTerm reply ->
  exists P, (p, currentTerm n, P) ∈ sAccs s /\ S (aePrevLogIndex args + length (aeEntries args)) <= length P.
Proof.
  intros Hs Ha Hrel (Hin & Hok) Hlid Hsu Hle. destruct (Hok Hsu) as (Ht & P & HP & Hlen).
  destruct (m_apps ms w s Hs args Hin) as (_ & L & EL). destruct (m_led ms w s Hs _ _ _ EL) as (_ & Hacc & _). rewrite Hlid in Hacc.
  destruct (i_acc ms s (m_inv ms w s Hs) i _ L Hacc) as (j & L2 & b & _ & _ & Hb & Htb & _). rewrite Ha in Hb. injection Hb as <-.
  rewrite (r_term _ _ _ _ _ Hrel) in Htb. exists P. split; [|done]. by replace (currentTerm n) with (aeTerm args) by lia.
Qed.

Lemma ack_sim w s i n p args reply n' : sim ms w s -> wnodes w !! i = Some n -> (p, args, reply) ∈ wacks w -> aeLeaderID args = i -> p ∈ peers n ->
  onAppendReply n p args reply = Some n' -> exists s', rtc (astep ms) s s' /\ sim ms (wmove i n' w) s'.
Proof.
  intros Hs Hn Hin Hlid Hp E. assert (raft_step n (IAppendReply p args reply) = Some n') as E0 by done.
  destruct (sim_node ms w s i n Hs Hn) as (a & Ha & Hrel & Hid & Hst). unfold onAppendReply in E.
  destruct (Nat.ltb_spec (currentTerm n) (arTerm reply)). { injection E as <-. by apply (stepdown_sim w s i n (arTerm reply) (IAppendReply p args reply)). }
  destruct (_ || _)%bool eqn:El. { injection E as <-. by apply (unmoved_sim w s i n (IAppendReply p args reply)). }
  apply orb_false_iff in El as [Hl Hte]. apply negb_false_iff, bool_decide_eq_true in Hl. apply Nat.ltb_ge in Hte.
  destruct (arSuccess reply) eqn:Hsu.
  - eapply (progress_sim w s i n (IAppendReply p args reply)); [done|done|done|done|done| | |exact E].
    { destruct (_ <? _)%nat; [by eexists _, _|]. exists (matchIndex n), (nextIndex n). by destruct n. }
    pose proof (r_match _ _ _ _ _ Hrel) as Hma. destruct (_ <? _)%nat; [|done]. intros q m. simpl. rewrite lookup_insert. case_decide as Hd; [|by apply Hma].
    intros [= <-]. subst q. split; [by eapply peers_members|]. intros _. right. by eapply acked_term; [..|by apply (m_acks ms w s Hs)| | |].
  - destruct (_ <? _)%nat; injection E as <-; [|by apply (unmoved_sim w s i n (IAppendReply p args reply))]. eapply sim_same; try done; [by apply (other_inv w i n (IAppendReply p args reply)); [apply Hs|..]|].
    intros x _ HL. by eapply local_frame.
Qed.

Lemma installed_sim w s i n p snap args reply n' : sim ms w s -> wnodes w !! i = Some n -> (snap, args) ∈ wsnaps w -> isLeaderID args = i -> p ∈ peers n ->
  onSnapshotReply n p snap reply = Some n' -> exists s', rtc (astep ms) s s' /\ sim ms (wmove i n' w) s'.
Proof.
  intros Hs Hn Hin Hlid Hp E. assert (raft_step n (ISnapshotReply p snap reply) = Some n') as E0 by done.
  destruct (sim_node ms w s i n Hs Hn) as (a & Ha & Hrel & Hid & Hst). unfold onSnapshotReply in E.
  destruct (Nat.ltb_spec (currentTerm n) (irTerm reply)). { injection E as <-. by apply (stepdown_sim w s i n (irTerm reply) (ISnapshotReply p snap reply)). }
  destruct (_ || _)%bool eqn:El. { injection E as <-. by apply (unmoved_sim w s i n (ISnapshotReply p snap reply)). }
  apply orb_false_iff in El as [Hl _]. apply negb_false_iff, bool_decide_eq_true in Hl.
  eapply (progress_sim w s i n (ISnapshotReply p snap reply)); [done|done|done|done|done| | |exact E].
  { destruct (_ <? _)%nat; [by eexists _, _|]. exists (matchIndex n), (nextIndex n). by destruct n. }
  pose proof (r_match _ _ _ _ _ Hrel) as Hma. destruct (_ <? _)%nat; [|done]. intros q m. simpl. rewrite lookup_insert. case_decide as Hd; [|by apply Hma].
  intros [= <-]. subst q. split; [by eapply peers_members|]. intros _. left.
  destruct (m_snaps ms w s Hs snap args Hin) as ((m & Hm & Hle) & _). rewrite Hlid, Hn in Hm. by injection Hm as <-.
Qed.

(** ** Reads and resignations *)

Lemma countAcks_down replies n acks stepped : let n' := (countAcks n acks stepped replies).2 in
  n' = n \/ exists t, currentTerm n < t /\ n' = stepDownLocked n t.
Proof.
  cbv zeta. revert n acks stepped. induction replies as [|r replies IH]; intros n acks stepped; [by left|]. simpl.
  destruct (Nat.ltb_spec (currentTerm n) (arTerm r)); [|apply IH]. right.
  destruct (IH (stepDownLocked n (arTerm r)) acks true) as [->|(t & Ht & ->)]; [by exists (arTerm r)|]. exists t. simpl in Ht. split; [lia|done].
Qed.

Lemma ReadIndex_down n replies finished : let n' := (ReadIndex n replies finished).2 in
  n' = n \/ exists t, currentTerm n < t /\ n' = stepDownLocked n t.
Proof.
  cbv zeta. unfold ReadIndex, confirmLeadership. destruct (negb (IsLeader n)); [by left|]. destruct (_ <? _)%nat; [by left|].
  destruct (_ =? 0)%nat; [left; by destruct (_ <? _)%nat|]. pose proof (countAcks_down replies n 1 false) as H.
  destruct (countAcks n 1 false replies) as [[acks stepped] n1]. simpl in H.
  destruct (_ || _)%bool; [|done]. destruct (_ || _)%bool; [done|]. by destruct (_ <? _)%nat.
Qed.

Lemma read_sim w s i n replies finished : sim ms w s -> wnodes w !! i = Some n ->
  exists s', rtc (astep ms) s s' /\ sim ms (wmove i (ReadIndex n replies finished).2 w) s'.
Proof.
  intros Hs Hn. assert (raft_step n (IRead replies finished) = Some (ReadIndex n replies finished).2) as E0 by done.
  destruct (ReadIndex_down n replies finished) as [Heq|(t & Ht & Heq)]; rewrite Heq in *; [by apply (unmoved_sim w s i n (IRead replies finished))|by apply (stepdown_sim w s i n t (IRead replies finished))].
Qed.

Lemma resign_sim w s i n : sim ms w s -> wnodes w !! i = Some n -> exists s', rtc (astep ms) s s' /\ sim ms (wmove i (finishStepDown n) w) s'.
Proof.
  intros Hs Hn. assert (raft_step n IFinishStepDown = Some (finishStepDown n)) as E0 by done. unfold finishStepDown in *.
  destruct (_ && _)%bool; [|by apply (unmoved_sim w s i n IFinishStepDown)]. eapply sim_down; try done; [by apply (other_inv w i n IFinishStepDown); [apply Hs|..]|].
  intros x _ HL. by eapply local_frame.
Qed.

(** ** Followers *)

Lemma app_entries w s args : sim ms w s -> args ∈ sApps s -> exists j L, sLogs s !! aeTerm args = Some (j, L) /\ plain (aeEntries args) /\
  aePrevLogIndex args < length L /\ length (shown args L) = S (aePrevLogIndex args + length (aeEntries args)) /\
  forall k e, aeEntries args !! k = Some e -> L !! (S (aePrevLogIndex args) + k) = Some e.
Proof.
  intros Hs Hap. destruct (i_app ms s (m_inv ms w s Hs) args Hap) as (j & L & e & EL & He & _ & Hsh & _). exists j, L. split; [done|].
  pose proof (lookup_lt_Some _ _ _ He) as Hlt. destruct (m_led ms w s Hs _ _ _ EL) as (_ & _ & Hpl & _).
  assert (forall k x, aeEntries args !! k = Some x -> L !! (S (aePrevLogIndex args) + k) = Some x) as Hent.
  { intros k x Hk. pose proof (lookup_lt_Some _ _ _ Hk) as Hkl.
    assert (shown args L !! (S (aePrevLogIndex args) + k) = Some x) as H.
    { rewrite Hsh, lookup_app_r, length_take by (rewrite length_take; lia). by replace (S (aePrevLogIndex args) + k - _) with k by lia. }
    unfold shown in H. by rewrite lookup_take_lt in H by lia. }
  split; [|split; [done|split; [|done]]].
  - intros x [k Hk]%list_elem_of_lookup. apply Hpl. eapply list_elem_of_lookup_2. by apply Hent.
  - rewrite Hsh, length_app, length_take. lia.
Qed.

Lemma append_sim w s i n args reply n' : sim ms w s -> wnodes w !! i = Some n -> args ∈ wapps w -> HandleAppendEntries n args = Some (reply, n') ->
  exists s', rtc (astep ms) s s' /\ sim ms (send_ack (i, args, reply) (wmove i n' w)) s'.
Proof.
  intros Hs Hn Hin E. destruct (sim_node ms w s i n Hs Hn) as (a & Ha & Hrel & Hid & Hst). pose proof Hrel as [Hat Har Hac Hlo Hma].
  destruct (m_apps ms w s Hs args Hin) as [Hap _]. destruct (app_entries w s args Hs Hap) as (j & L & EL & Hpl & Hprev & Hlen & Hent).
  pose proof (m_inv ms w s Hs) as Hi.
  assert (raft_step n (IAppendEntries args) = Some n') as E0 by (simpl; by rewrite E).
  destruct (HandleAppendEntries_local n (aLog a) args reply n') as (Hrt & Hpe & Hmt & Hcase); [done|done| |done|].
  { intros Hle e _ _ k x x' Hx Hx' Hk.
      pose proof (commit_in_leader ms s (aTerm a) (aLog a) (aCommit a) (aeTerm args) j L Hi (i_log ms s Hi i a Ha) (i_commit ms s Hi i a Ha) ltac:(lia) EL) as Hp.
      assert (take (S (aCommit a)) (aLog a) !! (S (aePrevLogIndex args) + k) = Some x') as Hx2 by (rewrite lookup_take_lt by lia; done).
      pose proof (prefix_lookup_some _ _ _ _ Hp Hx2) as H1. rewrite (Hent k x Hx) in H1. congruence. }
  assert (cluster_inv ms (moved (wcluster w) i n' (elections (wcluster w)) ∅)) as Hcl by (apply (other_inv w i n (IAppendEntries args)); [apply Hs|done|done|done|done]).
  assert (forall s', sim ms (wmove i n' w) s' -> (arSuccess reply = true -> currentTerm n <= aeTerm args /\ (i, aeTerm args, shown args L) ∈ sAccs s') ->
    sim ms (send_ack (i, args, reply) (wmove i n' w)) s') as Hsend.
  { intros s' Hs' Hsu. destruct Hs' as [? ? ? ? ? ? ? Hacks ?]. split; try done. intros q args' r [[= -> -> ->]|Hr]%elem_of_cons; [|by apply Hacks].
    split; [done|]. intros Hr. destruct (Hsu Hr) as [Hle Hacc]. split; [lia|]. exists (shown args L). split; [done|lia]. }
  destruct Hcase as [(Hlt & -> & Hf)|(Hle & Hr & Ht & [(Hf & Hlo' & Hco)|(Hlo' & (e & He & Hep) & Hco)])].
  - destruct (sim_same ms w s i n n (elections (wcluster w))) as (s' & Hst' & Hs'); try done. exists s'. split; [done|]. apply Hsend; [done|congruence].
  - destruct (sim_down ms w s i n n' (elections (wcluster w))) as (s' & Hst' & Hs'); try done.
    + intros x Hx _. rewrite Ha in Hx. by injection Hx as <-.
    + lia.
    + exists s'. split; [done|]. apply Hsend; [done|congruence].
  - set (a' := mkA (aeTerm args) RoleFollower (install (aLog a) (S (aePrevLogIndex args)) (aeEntries args)) (commitIndex n')).
    set (s1 := add_acc (i, aeTerm args, shown args L) (set_node i a' s)).
    assert (rtc (astep ms) s s1) as Hst1. { apply rtc_once. apply (a_receive ms s i a args e j L); try done; [lia|]. rewrite Hac. destruct Hco; [by left|right; lia]. }
    exists s1. split; [exact Hst1|]. apply Hsend; [|intros _; split; [done|by left]].
    apply (sim_move ms w s s1 i n n' a'); [done|done|done|done|done| |lia|set_solver|by left].
    split; simpl; [done|done|done|done|]. eapply match_follower; [|done|congruence]. eapply match_mono; [|exact Hma]. by apply (asteps_mono ms).
Qed.

(** What a snapshot on its way shows of the log of its term. *)
Lemma shipped_shows w s snap args : sim ms w s -> (snap, args) ∈ wsnaps w -> exists lid es j L,
  let app := mkAppendEntries (isTerm args) lid 0 0 es (isLastIncludedIndex args) in
  carries args (noop 0 :: es) /\ app ∈ sApps s /\ sLogs s !! isTerm args = Some (j, L) /\ shown app L = noop 0 :: es.
Proof.
  intros Hs Hin. destruct (m_snaps ms w s Hs snap args Hin) as (_ & P & es & lid & -> & Hcar & Hap).
  destruct (i_app ms s (m_inv ms w s Hs) _ Hap) as (j & L & e & EL & He & _ & Hsh & _). exists lid, es, j, L. split; [done|]. split; [done|]. split; [done|].
  rewrite Hsh. simpl. destruct (i_tlog ms s (m_inv ms w s Hs) _ _ _ EL) as [_ [H0 _]]. destruct L as [|x L]; [done|]. simpl in H0. by injection H0 as ->.
Qed.

Lemma install_sim w s i n snap args reply n' : sim ms w s -> wnodes w !! i = Some n -> (snap, args) ∈ wsnaps w ->
  HandleInstallSnapshot n args = Some (reply, n') -> exists s', rtc (astep ms) s s' /\ sim ms (wmove i n' w) s'.
Proof.
  intros Hs Hn Hin E. destruct (sim_node ms w s i n Hs Hn) as (a & Ha & Hrel & Hid & Hst). pose proof Hrel as [Hat Har Hac Hlo Hma].
  destruct (shipped_shows w s snap args Hs Hin) as (lid & es & j & L & Hcar & Hap & EL & Hsh). set (app := mkAppendEntries _ _ _ _ _ _) in *.
  pose proof (m_inv ms w s Hs) as Hi. destruct (i_tlog ms s Hi _ _ _ EL) as [_ HL]. pose proof (i_log ms s Hi i a Ha) as Hga.
  set (P := noop 0 :: es) in *. pose proof Hcar as (HlP & HtP & _). assert (P `prefix_of` L) as HPL by (rewrite <- Hsh; apply take_prefix).
  destruct (lastT_lookup P ltac:(done)) as (eP & HeP & HteP). rewrite HlP, Nat.sub_succ, Nat.sub_0_r in HeP.
  assert (forall k e e', aLog a !! k = Some e -> L !! k = Some e' -> eTerm e = eTerm e' -> take (S k) (aLog a) = take (S k) L) as Hag by (intros; by eapply good_agree).
  assert (take (S (isLastIncludedIndex args)) L = P) as HLP by (rewrite <- HlP; by apply prefix_take_eq).
  destruct (HandleInstallSnapshot_local n (aLog a) args P reply n') as (Hpe & Hmt & Hcase); [done|done| | |done|].
  { intros e He Het. rewrite <- HLP, <- (Hag _ _ _ He (prefix_lookup_some _ _ _ _ HPL HeP)) by congruence. apply take_prefix. }
  { intros Hle Hlt. pose proof (commit_in_leader ms s (aTerm a) (aLog a) (aCommit a) (isTerm args) j L Hi Hga (i_commit ms s Hi i a Ha) ltac:(lia) EL) as Hp.
    rewrite Hac in Hp. assert (length (take (S (commitIndex n)) (aLog a)) = S (commitIndex n)) as Hlen.
    { rewrite length_take. destruct (i_commit ms s Hi i a Ha) as [Hc _]. lia. }
    rewrite <- HLP, take_take. replace (_ `min` _) with (S (commitIndex n)) by lia. rewrite <- Hlen at 1. by apply prefix_take_eq. }
  assert (cluster_inv ms (moved (wcluster w) i n' (elections (wcluster w)) ∅)) as Hcl.
  { apply (other_inv w i n (IInstallSnapshot args)); [apply Hs|done|done|simpl; by rewrite E|done]. }
  destruct Hcase as [->|(Hle & Hr & Ht & [[Hlo' Hco]|(Hge & Hco & Hlo')])].
  - by eapply sim_same.
  - eapply sim_down; try done; [|lia]. intros x Hx _. rewrite Ha in Hx. by injection Hx as <-.
  - set (l' := install (aLog a) 1 es). assert (local n' l') as Hloc.
    { destruct Hga as [H0 _], HL as [H1 _]. destruct (install_spec L es (aLog a) 1) as [[He Hp]|[He Hp]].
      - apply lookup_lt_Some in H0. lia.
      - by rewrite (take_S_r _ _ _ H0), (take_S_r _ _ _ H1).
      - done.
      - rewrite (take_S_r _ _ _ H1). simpl. unfold shown in Hsh. simpl in Hsh. by rewrite Hsh.
      - unfold l'. rewrite He. change (shown app L `prefix_of` aLog a) in Hp. rewrite Hsh in Hp. destruct Hlo' as [[? _]|[_ []]]; done.
      - unfold l'. rewrite He. change (shown app L) with (take (1 + length es) L) in Hsh. rewrite Hsh in Hp |- *. by destruct Hlo' as [[_ ?]|[? _]]. }
    set (a' := mkA (isTerm args) RoleFollower l' (commitIndex n')). set (s1 := add_acc (i, isTerm args, shown app L) (set_node i a' s)). exists s1.
    assert (rtc (astep ms) s s1) as Hst1.
    { apply rtc_once. apply (a_receive ms s i a app (noop 0) j L); [done|done|simpl; lia|by destruct Hga|by left|done|]. right. simpl. lia. }
    split; [done|]. apply (sim_move ms w s s1 i n n' a'); [done|done|done|done|done| |done|set_solver|by left].
    split; simpl; [done|done|done|done|]. eapply match_follower; [|done|congruence]. eapply match_mono; [|exact Hma]. by apply (asteps_mono ms).
Qed.

(** ** Elections *)

Lemma candidate_sim w s i n b n' : sim ms w s -> wnodes w !! i = Some n -> becomeCandidate n = (b, n') ->
  exists s', rtc (astep ms) s s' /\ sim ms (wmoved i n' (elections (wcluster w)) (if b then {[(i, currentTerm n', i)]} else ∅) w) s'.
Proof.
  intros Hs Hn E. pose proof (cstep_inv ms _ _ (m_cluster ms w s Hs) (cs_candidate _ i n b n' Hn E)) as Hcl.
  destruct (sim_node ms w s i n Hs Hn) as (a & Ha & [Hat Har Hac Hlo Hma] & Hid & Hst). unfold becomeCandidate in E.
  destruct (_ || _)%bool; injection E as <- <-; [by eapply sim_same|].
  set (n' := set_leaderID _ _) in *. set (a' := mkA (currentTerm n + 1) RoleCandidate (aLog a) (aCommit a)).
  set (s1 := add_grant (i, request_of (currentTerm n + 1) i (aLog a), aLog a) (set_node i a' s)). exists s1.
  assert (rtc (astep ms) s s1) as Hst1 by (apply rtc_once; apply a_timeout; [done|lia]). split; [done|].
  apply (sim_move ms w s s1 i n n' a'); [done|done|done|done|done| |done| |by left].
  - split; simpl; [done|done|done|by eapply local_frame|]. by eapply match_follower.
  - intros v t c Hv%elem_of_singleton. injection Hv as -> -> ->. eexists _, _. split; [by left|done].
Qed.

Lemma vote_sim w s i n args reply n' : sim ms w s -> wnodes w !! i = Some n -> args ∈ wreqs w -> HandleRequestVote n args = Some (reply, n') ->
  exists s', rtc (astep ms) s s' /\
    sim ms (wmoved i n' (elections (wcluster w)) (if rrVoteGranted reply then {[(i, rvTerm args, rvCandidateID args)]} else ∅) w) s'.
Proof.
  intros Hs Hn Hin E. destruct (m_reqs ms w s Hs args Hin) as [Hreq Hne].
  pose proof (cstep_inv ms _ _ (m_cluster ms w s Hs) (cs_vote _ i n args reply n' Hn E Hne)) as Hcl.
  destruct (sim_node ms w s i n Hs Hn) as (a & Ha & [Hat Har Hac Hlo Hma] & Hid & Hst). unfold HandleRequestVote in E.
  destruct (Nat.ltb_spec (rvTerm args) (currentTerm n)); [injection E as <- <-; by eapply sim_same|].
  set (n1 := if (currentTerm n <? rvTerm args)%nat then _ else n) in E.
  assert (local n1 (aLog a) /\ currentTerm n1 = rvTerm args /\ commitIndex n1 = commitIndex n /\ matchIndex n1 = matchIndex n /\ nlog n1 = nlog n /\
    (role n1 = RoleFollower \/ n1 = n)) as (Hlo1 & Ht1 & Hc1 & Hm1 & Hlg1 & Hr1).
  { unfold n1. destruct (Nat.ltb_spec (currentTerm n) (rvTerm args)); (split; [by eapply local_frame|]); simpl; split_and!; auto; lia. }
  clearbody n1. pose proof (l_log _ _ Hlo1) as Hh. rewrite (holds_lastT _ _ Hh) in E. cbn [mbind option_bind] in E.
  assert (match_ok ms s i n1) as Hma1.
  { destruct Hr1 as [Hr1| ->]; [|done]. eapply match_follower; [exact Hma|done|congruence]. }
  destruct (_ && _)%bool eqn:Eg; injection E as <- <-.
  - apply andb_true_iff in Eg as [_ Hup]. set (n2 := set_votedFor _ n1) in *.
    set (a' := mkA (rvTerm args) (role n1) (aLog a) (aCommit a)). set (s1 := add_grant (i, args, aLog a) (set_node i a' s)). exists s1.
    assert (rtc (astep ms) s s1) as Hst1.
    { apply rtc_once. apply a_grant; [done|done|lia| |destruct Hr1 as [->| ->]; [by left|right; split; [congruence|congruence]]].
      pose proof (h_last _ _ Hh). unfold up_to_date. apply orb_true_iff in Hup as [Hup|Hup]; bool_to_prop; [left; lia|right; split; [done|lia]]. }
    split; [done|]. apply (sim_move ms w s s1 i n n2 a'); [done|done|done|done|done| |simpl; lia| |by left].
    + split; simpl; [done|done|congruence|by eapply local_frame|]. eapply match_mono; [by apply (asteps_mono ms); [apply Hs|]|exact Hma1].
    + intros v t c Hv%elem_of_singleton. injection Hv as -> -> ->. eexists _, _. split; [by left|done].
  - destruct Hr1 as [Hr1| ->]; [|by eapply sim_same]. eapply sim_down; try done; [|lia]. intros x Hx _. rewrite Ha in Hx. by injection Hx as <-.
Qed.

(** ** Sending *)

(** A step of the protocol in which no node moves. *)
Lemma sim_silent w s s' : sim ms w s -> rtc (astep ms) s s' -> sNodes s' = sNodes s -> sLogs s' = sLogs s -> sim ms w s'.
Proof.
  intros Hs Hst Hn Hl. destruct (asteps_mono ms s s' (m_inv ms w s Hs) Hst) as [Hi Hm]. split; [done|apply Hs| | | | | | |].
  - intros i n Hi2. destruct (m_node ms w s Hs i n Hi2) as (a & Ha & Hr). exists a. rewrite Hn. split; [done|by eapply nrel_mono].
  - intros r Hr. destruct (m_reqs ms w s Hs r Hr). split; [by apply (o_reqs s)|done].
  - intros v t c Hv. destruct (m_votes ms w s Hs v t c Hv) as (args & G & ? & ?). exists args, G. split; [by apply (o_grants s)|done].
  - intros t j L E. rewrite Hl in E. destruct (m_led ms w s Hs t j L E) as (? & ? & ?). split; [done|]. split; [by apply (o_accs s)|done].
  - intros args Hin. destruct (m_apps ms w s Hs args Hin) as (? & ?). rewrite Hl. split; [by apply (o_apps s)|done].
  - intros q args r Hin. destruct (m_acks ms w s Hs q args r Hin) as (? & Hok). split; [done|]. intros Hsu. destruct (Hok Hsu) as (? & P & ? & ?).
    split; [done|]. exists P. split; [by apply (o_accs s)|done].
  - intros snap args Hin. destruct (m_snaps ms w s Hs snap args Hin) as (? & P & es & lid & ? & ? & ?). split; [done|]. exists P, es, lid.
    split; [done|]. split; [done|by apply (o_apps s)].
Qed.

Lemma member_named w i n : cluster_inv ms (wcluster w) -> wnodes w !! i = Some n -> i <> "".
Proof. intros Hc Hn ->. destruct (inv_nodes ms _ Hc _ n Hn) as (Hid & _ & [Hin _] & _). rewrite Hid in Hin. by apply (inv_empty ms _ Hc). Qed.

Lemma request_sim w s i n a : sim ms w s -> wnodes w !! i = Some n -> sNodes s !! i = Some a ->
  exists s', rtc (astep ms) s s' /\ sim ms (send_req (request_of (aTerm a) i (aLog a)) w) s'.
Proof.
  intros Hs Hn Ha. set (r := request_of _ _ _). exists (add_req r s). assert (rtc (astep ms) s (add_req r s)) as Hst by (apply rtc_once; by apply a_request).
  split; [done|]. pose proof (sim_silent w s _ Hs Hst eq_refl eq_refl) as [? ? ? Hr ? ? ? ? ?]. split; try done.
  intros r' [->|?]%elem_of_cons; [|by apply Hr]. split; [by left|]. simpl. by eapply member_named.
Qed.

(** A leader's request to append, in agreement with its log. *)
Lemma send_app_sim w s i n a args e : sim ms w s -> wnodes w !! i = Some n -> sNodes s !! i = Some a -> nrel ms s i n a -> role n = RoleLeader ->
  aeTerm args = currentTerm n -> aeLeaderID args = i -> aLog a !! aePrevLogIndex args = Some e -> eTerm e = aePrevLogTerm args ->
  shown args (aLog a) = take (S (aePrevLogIndex args)) (aLog a) ++ aeEntries args ->
  aeLeaderCommit args <= commitIndex n -> aeLeaderCommit args <= aePrevLogIndex args + length (aeEntries args) ->
  rtc (astep ms) s (add_app args s) /\ sim ms w (add_app args s) /\ sim ms (send_app args w) (add_app args s).
Proof.
  intros Hs Hn Ha Hrel Hl Ht Hlid He Het Hsh Hc1 Hc2. destruct (leader_acc w s i n a Hs Ha Hrel Hl) as [EL _]. pose proof Hrel as [Hat Har Hac _ _].
  assert (rtc (astep ms) s (add_app args s)) as Hst by (apply rtc_once; apply (a_send ms s i a args e); try done; [congruence|congruence|lia]).
  pose proof (sim_silent w s _ Hs Hst eq_refl eq_refl) as Hs'. split; [done|]. split; [done|]. destruct Hs' as [? ? ? ? ? ? Hap Hack ?]. split; try done.
  - intros args' [->|?]%elem_of_cons; [|by apply Hap]. split; [by left|]. exists (aLog a). simpl. by rewrite Ht, Hlid, <- Hat.
  - intros q args' r Hin. destruct (Hack q args' r Hin) as [? ?]. split; [by right|done].
Qed.

Lemma replicate_sim w s i n peer args : sim ms w s -> wnodes w !! i = Some n -> replicateTo n peer = Some (RepAppend args) ->
  exists s', rtc (astep ms) s s' /\ sim ms (send_app args w) s'.
Proof.
  intros Hs Hn E. destruct (sim_node ms w s i n Hs Hn) as (a & Ha & Hrel & Hid & Hst). pose proof (l_log _ _ (r_local _ _ _ _ _ Hrel)) as Hh.
  unfold replicateTo in E. destruct (IsLeader n) eqn:Hl; [|done]. apply bool_decide_eq_true in Hl. cbn [negb] in E.
  destruct (Nat.leb_spec (get0 (nextIndex n) peer) (baseIndex (nlog n))); [done|]. unfold baseIndex in *. destruct (get0 (nextIndex n) peer) as [|k]; [lia|].
  rewrite Nat.sub_succ, Nat.sub_0_r in E. rewrite (holds_term _ _ _ Hh) in E by lia. destruct (aLog a !! k) as [e|] eqn:He; [|done].
  pose proof (lookup_lt_Some _ _ _ He) as Hlt. pose proof (h_last _ _ Hh) as Hlast. cbn [fmap option_fmap option_map mbind option_bind] in E.
  destruct (slice_spec (nlog n) (S k) (h_ok _ _ Hh) ltac:(lia)) as (es & Hes & Hlen & Hk). rewrite Hes in E. cbn [mbind option_bind] in E. injection E as <-.
  assert (es = drop (S k) (aLog a)) as ->.
  { apply list_eq. intros j. rewrite Hk, lookup_drop. apply (h_entry _ _ Hh). lia. }
  destruct (i_commit ms s (m_inv ms w s Hs) i a Ha) as [Hc _]. rewrite (r_commit _ _ _ _ _ Hrel) in Hc.
  eexists. edestruct (send_app_sim w s i n a) as (Hst1 & _ & Hs1); [done|done|done|done|done| | | | | | | |by split]; try done.
  - unfold shown. simpl. rewrite length_drop. rewrite take_ge by lia. by rewrite take_drop.
  - simpl. rewrite length_drop. lia.
Qed.

Lemma confirm_sim w s i n args : sim ms w s -> wnodes w !! i = Some n -> IsLeader n = true -> confirmArgs n = Some args ->
  exists s', rtc (astep ms) s s' /\ sim ms (send_app args w) s'.
Proof.
  intros Hs Hn Hl E. destruct (sim_node ms w s i n Hs Hn) as (a & Ha & Hrel & Hid & Hst). pose proof (l_log _ _ (r_local _ _ _ _ _ Hrel)) as Hh.
  apply bool_decide_eq_true in Hl. unfold confirmArgs in E. rewrite (holds_lastT _ _ Hh) in E. cbn [mbind option_bind] in E. injection E as <-.
  pose proof (h_last _ _ Hh) as Hlast. destruct (i_commit ms s (m_inv ms w s Hs) i a Ha) as [Hc _]. rewrite (r_commit _ _ _ _ _ Hrel) in Hc.
  destruct (lastT_lookup (aLog a)) as (e & He & Het); [intros Hnil; by rewrite Hnil in Hc; simpl in Hc; lia|].
  replace (length (aLog a) - 1) with (log_lastIndex (nlog n)) in He by lia.
  eexists. edestruct (send_app_sim w s i n a) as (Hst1 & _ & Hs1); [done|done|done|done|done| | | | | | | |by split]; try done.
  - unfold shown. simpl. by rewrite app_nil_r, Nat.add_0_r.
  - simpl. lia.
Qed.

Lemma snapshot_sim w s i n snap args : sim ms w s -> wnodes w !! i = Some n -> sendSnapshot n = Some (snap, args) ->
  exists s', rtc (astep ms) s s' /\ sim ms (send_snap (snap, args) w) s'.
Proof.
  intros Hs Hn E. destruct (sim_node ms w s i n Hs Hn) as (a & Ha & Hrel & Hid & Hst). pose proof (r_local _ _ _ _ _ Hrel) as [_ Hh Hpl _ Hsn].
  unfold sendSnapshot in E. destruct (IsLeader n) eqn:Hl; [|done]. apply bool_decide_eq_true in Hl. cbn [negb] in E.
  destruct (snapshotStore n) as [ss|] eqn:Ess; [|done]. destruct (ss_load ss) as [[x|]|] eqn:El; try done. injection E as -> <-.
  destruct (Hsn ss snap Ess El) as (Hc & Ht & Hd). set (k := LastIncludedIndex snap) in *.
  destruct (aLog a !! k) as [e|] eqn:He; [|done]. simpl in Ht. injection Ht as Ht. pose proof (lookup_lt_Some _ _ _ He) as Hlt.
  destruct (i_log ms s (m_inv ms w s Hs) i a Ha) as [H0 _]. destruct (aLog a) as [|d L] eqn:EL; [done|]. injection H0 as ->. simpl in Hlt.
  set (es := take k L). assert (length es = k) as Hes by (unfold es; rewrite length_take; lia).
  set (app := mkAppendEntries (currentTerm n) i 0 0 es k).
  destruct (send_app_sim w s i n a app (noop 0)) as (Hst1 & Hs1 & _); try done; try (rewrite EL; done).
  - rewrite EL. unfold shown. simpl. f_equal. by rewrite Hes.
  - simpl. lia.
  - exists (add_app app s). split; [done|]. pose proof Hs1 as [? ? ? ? ? ? ? ? Hsnaps]. split; try done.
    intros snap' args' [[= -> ->]|?]%elem_of_cons; [|by apply Hsnaps]. split; [exists n; simpl; rewrite Hid; by split|].
    exists (noop 0 :: es), es, i. split; [done|]. split; [|by left]. assert (noop 0 :: es = take (S k) (noop 0 :: L)) as -> by done.
    assert (take (S k) (take (S k) (noop 0 :: L)) = take (S k) (noop 0 :: L)) as Htk by (rewrite take_take; f_equal; lia).
    split; [rewrite length_take; simpl; lia|]. split; [|split].
    + unfold lastT. by rewrite (take_S_r _ _ _ He), last_snoc.
    + intros y Hy. apply Hpl. eapply elem_of_prefix; [exact Hy|apply take_prefix].
    + intros g f Hi. change (replays f (cmds (take (S k) (noop 0 :: L)) k)). rewrite (cmds_shared (noop 0 :: L) _ k k Htk) by done. by apply (Hd g).
Qed.

(** ** Elections that end *)

Lemma start_sim w s i n el n' : sim ms w s -> wnodes w !! i = Some n -> startElection n = Some (el, n') ->
  exists s', rtc (astep ms) s s' /\ sim ms (send_req (voteRequest n el) (wmoved i n' (elections (wcluster w) ++ [(i, el, ∅)]) ∅ w)) s'.
Proof.
  intros Hs Hn E. destruct (sim_node ms w s i n Hs Hn) as (a & Ha & Hrel & Hid & Hst). pose proof (r_local _ _ _ _ _ Hrel) as Hlo. pose proof (l_log _ _ Hlo) as Hh.
  assert (peers n' = peers n /\ voteRequest n el = request_of (aTerm a) i (aLog a) /\ (n' = n \/ exists b t, tryBecomeLeader n t = Some (b, n'))) as (Hp & Hv & Hcase).
  { unfold startElection in E. rewrite (holds_lastT _ _ Hh) in E. cbn [mbind option_bind] in E. pose proof (h_last _ _ Hh) as Hlast.
    assert (forall m v, voteRequest n (mkElection (currentTerm n) (log_lastIndex (nlog n)) (lastT (aLog a)) m (peers n) v) = request_of (aTerm a) i (aLog a)) as Hreq.
    { intros m v. unfold voteRequest, request_of. simpl. rewrite (r_term _ _ _ _ _ Hrel), Hid. f_equal. lia. }
    destruct (_ =? 0)%nat; [|injection E as <- <-; split; [done|]; split; [apply Hreq|by left]].
    destruct (tryBecomeLeader n (currentTerm n)) as [[b n1]|] eqn:Eb; [|done]. cbn [mbind option_bind] in E. injection E as <- <-.
    split; [by apply (tryBecomeLeader_local n (aLog a) _ _ _ Hlo Eb)|]. split; [apply Hreq|right; by eexists _, _]. }
  pose proof (cstep_inv ms _ _ (m_cluster ms w s Hs) (cs_start _ i n el n' Hn E Hp)) as Hcl. rewrite Hv.
  destruct (request_sim w s i n a Hs Hn Ha) as (s1 & Hst1 & Hs1).
  assert (exists s', rtc (astep ms) s1 s' /\ sim ms (wmoved i n' (elections (wcluster w) ++ [(i, el, ∅)]) ∅ (send_req (request_of (aTerm a) i (aLog a)) w)) s') as (s2 & Hst2 & Hs2).
  { destruct Hcase as [->|(b & t & Hb)]; [by apply (sim_same ms _ s1 i n n)|by apply (become_sim ms _ s1 i n t b n')]. }
  exists s2. split; [by etrans|exact Hs2].
Qed.

Lemma count_sim w s k i el seen p n reply b el' n' : sim ms w s -> elections (wcluster w) !! k = Some (i, el, seen) -> wnodes w !! i = Some n ->
  p ∈ elPeers el -> (p ∉ seen) -> (rrVoteGranted reply = true -> (p, elTerm el, i) ∈ votes (wcluster w)) ->
  onVoteReply n el reply = Some (b, el', n') ->
  exists s', rtc (astep ms) s s' /\ sim ms (wmoved i n' (<[k := (i, el', {[p]} ∪ seen)]> (elections (wcluster w))) ∅ w) s'.
Proof.
  intros Hs Hk Hn Hp Hseen Hv E. destruct (sim_node ms w s i n Hs Hn) as (a & Ha & Hrel & Hid & Hst). pose proof (r_local _ _ _ _ _ Hrel) as Hlo.
  assert (peers n' = peers n /\ (n' = n \/ (exists t, currentTerm n < t /\ n' = stepDownLocked n t) \/ exists b t, tryBecomeLeader n t = Some (b, n'))) as (Hpe & Hcase).
  { unfold onVoteReply in E. destruct (Nat.ltb_spec (currentTerm n) (rrTerm reply)); [injection E as <- <- <-; eauto 10|].
    destruct (_ || _)%bool; [injection E as <- <- <-; auto|]. cbn [elMajority elVotes elTerm] in E. destruct (_ <=? _)%nat; [|injection E as <- <- <-; auto].
    destruct (tryBecomeLeader n (elTerm el)) as [[b1 n1]|] eqn:Eb; [|done]. cbn [mbind option_bind] in E. injection E as <- <- <-.
    split; [by apply (tryBecomeLeader_local n (aLog a) _ _ _ Hlo Eb)|]. right. right. by eexists _, _. }
  pose proof (cstep_inv ms _ _ (m_cluster ms w s Hs) (cs_count _ k i el seen p n reply b el' n' Hk Hn Hp Hseen Hv E Hpe)) as Hcl.
  destruct Hcase as [->|[(t & Ht & ->)|(b' & t & Hb)]].
  - by eapply sim_same.
  - eapply sim_down; try done; [|simpl; lia]. intros x _ HL. by eapply local_frame.
  - by eapply become_sim.
Qed.

Lemma wstep_sim w w' s : sim ms w s -> wstep w w' -> exists s', rtc (astep ms) s s' /\ sim ms w' s'.
Proof.
  intros Hs Hst. destruct Hst.
  - by eapply candidate_sim.
  - by eapply start_sim.
  - by eapply vote_sim.
  - by eapply count_sim.
  - by eapply replicate_sim.
  - by eapply confirm_sim.
  - by eapply append_sim.
  - by eapply ack_sim.
  - by eapply snapshot_sim.
  - by eapply install_sim.
  - by eapply installed_sim.
  - by eapply propose_sim.
  - by eapply read_sim.
  - by eapply resign_sim.
Qed.

Lemma wsteps_sim w w' s : sim ms w s -> rtc wstep w w' -> exists s', rtc (astep ms) s s' /\ sim ms w' s'.
Proof.
  intros Hs Hr. revert s Hs. induction Hr as [w|w1 w2 w3 Hst _ IH]; intros s Hs; [by exists s|].
  destruct (wstep_sim w1 w2 s Hs Hst) as (s2 & H2 & Hs2). destruct (IH s2 Hs2) as (s3 & H3 & Hs3). exists s3. split; [by etrans|done].
Qed.

(** ** The start *)

Definition start_of (w : World) : spec :=
  mkSpec ((fun n => mkA (currentTerm n) RoleFollower [noop 0] 0) <$> wnodes w) [] [] [] [] ∅.

Lemma start_init w : ainit (start_of w).
Proof.
  do 5 (split; [done|]). intros i a Ha. simpl in Ha. apply lookup_fmap_Some in Ha as (n & <- & _). done.
Qed.

Lemma winit_sim w : winit ms w -> sim ms w (start_of w).
Proof.
  intros (He & Hv & Hl & Hne & Hr & Hap & Hak & Hsn & Hn). split.
  - apply ainit_inv, start_init.
  - apply reachable_inv. apply reach_init; try done. intros i n Hi. destruct (Hn i n Hi) as (Hid & Hst & Hro & Hlg & Hco & Hla & _).
    split_and!; auto. unfold node_ok. rewrite Hlg, Hco, Hla. split_and!; simpl; auto. done.
  - intros i n Hi. destruct (Hn i n Hi) as (Hid & Hst & Hro & Hlg & Hco & Hla & Hm & Hf & Hs). eexists. split; [simpl; by rewrite lookup_fmap, Hi|].
    split; simpl; [done|done|done| |].
    + split; [unfold node_ok; rewrite Hlg, Hco, Hla; split_and!; simpl; auto; done|rewrite Hlg; apply holds_NewLog| |by rewrite Hla|].
      * by intros e ->%list_elem_of_singleton.
      * intros ss x Es Hx. by destruct (Hs ss x Es).
    + intros p m E. rewrite Hm in E. by rewrite lookup_empty in E.
  - rewrite Hr. by intros r ?%elem_of_nil.
  - rewrite Hv. by intros v t c ?%elem_of_empty.
  - intros t j L. simpl. by rewrite lookup_empty.
  - rewrite Hap. by intros r ?%elem_of_nil.
  - rewrite Hak. by intros q args r ?%elem_of_nil.
  - rewrite Hsn. by intros snap args ?%elem_of_nil.
Qed.

Lemma wreach_sim w : wreach ms w -> exists s0 s, ainit s0 /\ rtc (astep ms) s0 s /\ sim ms w s.
Proof.
  intros (w0 & Hi & Hr). destruct (wsteps_sim w0 w (start_of w0) (winit_sim w0 Hi) Hr) as (s & Hst & Hs). exists (start_of w0), s.
  split; [apply start_init|done].
Qed.
End steps.
