(* ===== verification/RaftSafety.v ===== *)
(** * The safety of the replicated log

    What [RaftSimSteps] and [RaftSpecThms] give for the cluster: all state machines
    execute one sequence of commands, a leader has what was applied anywhere before
    its term, and logs that agree at an index agree below it. *)

From S2P Require Import Prelude WalTypes WalCodec RaftLog Raft RaftProps RaftThms RaftDurable RaftElection RaftSpec RaftSpecThms RaftLocal RaftCluster RaftSim RaftSimSteps RaftInstances RaftRestart RaftClusterRun.

Section chains.
Context (ms : gset string).

(** [A] is committed, or is the dummy entry at most. *)
Definition settled (s : spec) (A : list Entry) : Prop :=
  exists P, (P = [noop 0] \/ exists t, committed ms s t P) /\ A `prefix_of` P.

Lemma committed_mono s s' t P : mono s s' -> committed ms s t P -> committed ms s' t P.
Proof.
  intros Hm (j & L & Q & EL & HP & Hl & H1 & HQ & HQs & Ha). destruct (o_logs s s' Hm _ _ _ EL) as (L' & EL' & HL).
  exists j, L', Q. split; [done|]. split; [by etrans|]. do 4 (split; [done|]).
  intros q Hq. destruct (Ha q Hq) as (P2 & Hin & HP2). exists P2. split; [by apply (o_accs s)|done].
Qed.

Lemma settled_mono s s' A : mono s s' -> settled s A -> settled s' A.
Proof. intros Hm (P & [->|[t HP]] & HA); [by exists [noop 0]; auto|]. exists P. split; [right; exists t; by eapply committed_mono|done]. Qed.

Lemma committed_head s t P : inv ms s -> committed ms s t P -> [noop 0] `prefix_of` P.
Proof.
  intros Hi (j & L & Q & EL & HP & _ & H1 & _). destruct (i_tlog ms s Hi _ _ _ EL) as [_ [H0 _]]. destruct P as [|e P]; [simpl in H1; lia|].
  pose proof (prefix_lookup_some _ _ 0 e HP eq_refl) as H. rewrite H0 in H. injection H as <-. by exists P.
Qed.

Lemma settled_total s A B : inv ms s -> settled s A -> settled s B -> A `prefix_of` B \/ B `prefix_of` A.
Proof.
  intros Hi (P1 & H1 & HA) (P2 & H2 & HB). assert (P1 `prefix_of` P2 \/ P2 `prefix_of` P1) as [H|H].
  { destruct H1 as [->|[t1 H1]], H2 as [->|[t2 H2]]; [by left|left; by eapply committed_head|right; by eapply committed_head|by eapply committed_total]. }
  - apply (prefix_weak_total A B P2); [by etrans|done].
  - apply (prefix_weak_total A B P1); [done|by etrans].
Qed.

Lemma settled_bound s (X : list (list Entry)) : inv ms s -> (forall A, A ∈ X -> settled s A) ->
  exists P, settled s P /\ [noop 0] `prefix_of` P /\ forall A, A ∈ X -> A `prefix_of` P.
Proof.
  intros Hi. induction X as [|A X IH]; intros HX.
  - exists [noop 0]. split; [exists [noop 0]; by auto|]. split; [done|]. by intros A ?%elem_of_nil.
  - destruct IH as (P & HP & H0 & HA); [intros B HB; apply HX; by right|]. assert (settled s A) as Hs by (apply HX; by left).
    destruct (settled_total s A P Hi Hs HP) as [H|H].
    + exists P. split; [done|]. split; [done|]. intros B [->|?]%elem_of_cons; [done|by apply HA].
    + exists A. split; [done|]. split; [by etrans|]. intros B [->|HB]%elem_of_cons; [done|]. etrans; [by apply HA|done].
Qed.

(** What a node has committed. *)
Lemma commit_settled s i a : inv ms s -> sNodes s !! i = Some a -> settled s (take (S (aCommit a)) (aLog a)).
Proof.
  intros Hi Ha. destruct (i_commit ms s Hi i a Ha) as [Hc [E|(t & P & _ & HP & Hl)]].
  - exists [noop 0]. split; [by left|]. destruct (i_log ms s Hi i a Ha) as [H0 _]. rewrite E, (take_S_r _ _ _ H0). done.
  - exists P. split; [right; by exists t|done].
Qed.
End chains.

Section safety.
Context {F W SS MS : Type}.
Context {SMF : StateMachine F} {RF : Replay F} {WW : Wal W} {SSS : SnapshotStore SS} {SSL : SnapshotStoreLaws SS}
  {MSS : MetaStore MS} {J : Json} {CJ : ConfigJson}.
Abbreviation Nd := (Node F W SS MS).
Abbreviation World := (world (F := F) (W := W) (SS := SS) (MS := MS)).
Implicit Types n : Nd.
Implicit Types w : World.

Context (ms : gset string).

(** Every node has applied the first entries of [es], and its state machine is in
    a state that their commands lead to. *)
Definition executes (w : World) (es : list Entry) : Prop :=
  forall i n, wnodes w !! i = Some n -> lastApplied n <= length es /\ replays (fsm n) (filter is_command (take (lastApplied n) es)).

#[local] Set Default Proof Using "All".

(** What the nodes of [w] have committed. *)
Definition commits (w : World) (s : spec) (A : list Entry) : Prop :=
  exists i n a, wnodes w !! i = Some n /\ sNodes s !! i = Some a /\ A = take (S (aCommit a)) (aLog a).

Lemma commits_list w s : sim ms w s -> exists X : list (list Entry), forall A, commits w s A <-> A ∈ X.
Proof.
  intros Hs. exists ((fun i => match sNodes s !! i with Some a => take (S (aCommit a)) (aLog a) | None => [] end) <$> (map_to_list (wnodes w)).*1).
  intros A. rewrite list_elem_of_fmap. split.
  - intros (i & n & a & Hn & Ha & ->). exists i. rewrite Ha. split; [done|]. apply list_elem_of_fmap. exists (i, n). split; [done|]. by apply elem_of_map_to_list.
  - intros (i & -> & Hi). apply list_elem_of_fmap in Hi as ([i' n] & -> & Hi). apply elem_of_map_to_list in Hi.
    destruct (m_node ms w s Hs i' n Hi) as (a & Ha & _). simpl. rewrite Ha. by exists i', n, a.
Qed.

Lemma commits_execute w s es : sim ms w s -> (forall A, commits w s A -> A `prefix_of` noop 0 :: es) -> executes w es.
Proof.
  intros Hs HA i n Hn. destruct (sim_node ms w s i n Hs Hn) as (a & Ha & [_ _ Hac [(_ & _ & Hla & _) Hh _ Hf _] _] & _).
  pose proof (HA _ (ex_intro _ i (ex_intro _ n (ex_intro _ a (conj Hn (conj Ha eq_refl)))))) as Hp.
  destruct (i_commit ms s (m_inv ms w s Hs) i a Ha) as [Hc _]. rewrite Hac, <- Hla in Hp, Hc.
  assert (length (take (S (lastApplied n)) (aLog a)) = S (lastApplied n)) as Hlen by (rewrite length_take; lia).
  pose proof (prefix_length _ _ Hp) as Hle. rewrite Hlen in Hle. simpl in Hle. split; [lia|].
  unfold cmds in Hf. rewrite <- (prefix_take_eq _ _ Hp), Hlen in Hf. exact Hf.
Qed.


(** A node's entry above its base is that of its whole log. *)
Lemma entry_of s i n a k : nrel ms s i n a -> base (nlog n) < k -> entryAt (nlog n) k = aLog a !! k.
Proof. intros Hr Hk. by apply (h_entry _ _ (l_log _ _ (r_local _ _ _ _ _ Hr))). Qed.

(** C23: leader completeness: whatever a node has applied is in the log of every
    leader whose term is not older than the node's: the leader's log reaches that
    far, with the same entries. *)
Theorem leader_holds_applied w i n j m :
  wreach ms w -> wnodes w !! i = Some n -> role n = RoleLeader -> wnodes w !! j = Some m -> currentTerm m <= currentTerm n ->
  lastApplied m <= log_lastIndex (nlog n) /\
  forall k, base (nlog n) < k -> base (nlog m) < k <= lastApplied m -> entryAt (nlog n) k = entryAt (nlog m) k.
Proof.
  intros (s0 & s & _ & _ & Hs)%wreach_sim Hn Hl Hm Ht. destruct (sim_node ms w s i n Hs Hn) as (a & Ha & Hra & _), (sim_node ms w s j m Hs Hm) as (b & Hb & Hrb & _).
  pose proof (m_inv ms w s Hs) as Hi. destruct (leader_acc ms w s i n a Hs Ha Hra Hl) as [EL _].
  pose proof (r_local _ _ _ _ _ Hrb) as [(_ & _ & Hla & _) _ _ _ _]. destruct (i_commit ms s Hi j b Hb) as [Hc Hco]. rewrite (r_commit _ _ _ _ _ Hrb), <- Hla in *.
  assert (aTerm b <= aTerm a) as Hle by (rewrite (r_term _ _ _ _ _ Hra), (r_term _ _ _ _ _ Hrb); done).
  pose proof (commit_in_leader ms s _ _ _ _ _ _ Hi (i_log ms s Hi j b Hb) (conj Hc Hco) Hle EL) as Hp.
  assert (length (take (S (lastApplied m)) (aLog b)) = S (lastApplied m)) as Hlen by (rewrite length_take; lia).
  pose proof (h_last _ _ (l_log _ _ (r_local _ _ _ _ _ Hra))) as Hlast. pose proof (prefix_length _ _ Hp) as Hpl. split; [lia|].
  intros k Hk [Hk1 Hk2]. rewrite (entry_of s i n a k Hra Hk), (entry_of s j m b k Hrb Hk1).
  destruct (lookup_lt_is_Some_2 (aLog b) k ltac:(lia)) as [e He]. rewrite He. eapply prefix_lookup_some; [exact Hp|]. by rewrite lookup_take_lt by lia.
Qed.

(** Log matching: two logs that have entries of one term at an index have the same
    entries at every index up to it that both still hold. *)
Theorem log_matching w i n j m k e e' :
  wreach ms w -> wnodes w !! i = Some n -> wnodes w !! j = Some m ->
  base (nlog n) < k -> base (nlog m) < k -> entryAt (nlog n) k = Some e -> entryAt (nlog m) k = Some e' -> eTerm e = eTerm e' ->
  forall k', base (nlog n) < k' -> base (nlog m) < k' <= k -> entryAt (nlog n) k' = entryAt (nlog m) k'.
Proof.
  intros (s0 & s & _ & _ & Hs)%wreach_sim Hn Hm Hk1 Hk2 E E' Ht k' Hb1 [Hb2 Hle].
  destruct (sim_node ms w s i n Hs Hn) as (a & Ha & Hra & _), (sim_node ms w s j m Hs Hm) as (b & Hb & Hrb & _). pose proof (m_inv ms w s Hs) as Hi.
  rewrite (entry_of s i n a) in E by done. rewrite (entry_of s j m b) in E' by done.
  pose proof (good_agree s _ _ _ _ k e e' (i_log ms s Hi i a Ha) (i_log ms s Hi j b Hb) E E' Ht) as Htk.
  rewrite (entry_of s i n a), (entry_of s j m b) by done. by apply (lookup_shared _ _ _ _ Htk).
Qed.

End safety.

(** ** A concrete run *)

Lemma lw8_wreach : wreach trio lw8.
Proof. exists lw0. split; [apply lw0_init|]. etrans; [exact lw5_reach|exact lw8_reach]. Qed.

Lemma lw10_wreach : wreach trio lw10.
Proof. exists lw0. split; [apply lw0_init|]. etrans; [exact lw5_reach|]. etrans; [exact lw8_reach|exact lw10_reach]. Qed.


Lemma leader_holds_applied_witness :
  wreach trio lw10 /\ lastApplied lb3 = 2 /\ lastApplied lb3 <= log_lastIndex (nlog la4) /\ entryAt (nlog la4) 2 = entryAt (nlog lb3) 2.
Proof.
  destruct (leader_holds_applied trio lw10 "a" la4 "b" lb3) as [Hl He].
  - exact lw10_wreach.
  - vm_compute. reflexivity.
  - vm_compute. reflexivity.
  - vm_compute. reflexivity.
  - vm_compute. lia.
  - split; [exact lw10_wreach|]. split; [vm_compute; reflexivity|]. split; [exact Hl|]. apply He; vm_compute; lia.
Defined.

