(* ===== verification/RaftNode.v ===== *)
(** * A Raft node on disk (internal/server/raftnode.go, the file stores of internal/raft)

    The snapshot and the committed membership of a node are JSON files that are
    written aside and renamed; the log is the WAL. [OpenRaftNode] recovers a node
    from them. The directory is the disk of [Os]; its calls fail and crash. *)

From S2P Require Import Prelude WalTypes Os WalRecovery WalWriter BTree Expiration Store RaftLog Raft ClusterStore.

(** ** The file stores (snapshot.go, meta.go) *)

Definition raftSnapshotName : string := "raft.snapshot".
Definition raftMetaName : string := "raft.meta".
Definition tmp_of (path : string) : string := path +:+ ".tmp".

(** [encoding/json] on the node's files. *)
Class RaftFilesJson : Type := {
  json_raftsnap : Raft.Snapshot -> result bytes;
  json_unraftsnap : bytes -> option Raft.Snapshot;
  json_meta : CommittedMeta -> result bytes;
  json_unmeta : bytes -> option CommittedMeta
}.

Section files.
Context {S : Type} {RJ : RaftFilesJson}.

(** Both stores write a temporary file and rename it; neither file is synced. *)
Definition save_file (path : string) (enc : result bytes) : sys S () :=
  match enc with
  | Err e => fail e
  | Ok b => WriteFile (tmp_of path) b;; Rename (tmp_of path) path
  end.

Definition load_file {A} (path : string) (dec : bytes -> option A) : sys S (option A) :=
  f ← read_if_exists path;
  match f with
  | None => mret None
  | Some b => match dec b with Some a => mret (Some a) | None => fail (Wrapped "json") end
  end.

Definition SnapshotStore_Save (snap : Raft.Snapshot) : sys S () := save_file raftSnapshotName (json_raftsnap snap).
Definition SnapshotStore_Load : sys S (option Raft.Snapshot) := load_file raftSnapshotName json_unraftsnap.
Definition MetaStore_Save (m : CommittedMeta) : sys S () := save_file raftMetaName (json_meta m).
Definition MetaStore_Load : sys S (option CommittedMeta) := load_file raftMetaName json_unmeta.
End files.

(** ** Opening a node *)

Record RaftNodeConfig : Type := mkRaftNodeConfig {
  rcID : string; rcRaftAddr : string; rcPeers : list string; rcThreshold : nat;
  rcTLSCA : bytes; rcTLSCert : bytes; rcTLSKey : bytes
}.

Definition raft_tls_wanted (cfg : RaftNodeConfig) : bool :=
  is_set (rcTLSCA cfg) || is_set (rcTLSCert cfg) || is_set (rcTLSKey cfg).
Definition raft_tls_parts (cfg : RaftNodeConfig) : bool :=
  is_set (rcTLSCA cfg) && is_set (rcTLSCert cfg) && is_set (rcTLSKey cfg).

Section node.
Context {I FW W SS MS : Type}.
Context {EI : ExpirationIndex I} {WF : Wal FW} {WW : Wal W} {SSS : SnapshotStore SS} {MSS : MetaStore MS}.
Context {J : Json} {EJ : EntriesJson} {CJ : ConfigJson} {RJ : RaftFilesJson}.
Abbreviation Nd := (Node (Fsm I FW) W SS MS).
Implicit Types n : Nd.

(** What the network and the rest of the process contribute to [OpenRaftNode]: the
    bound address, a new store with its clocks, the handles on the opened files. *)
Record RaftOpenEnv : Type := mkRaftOpenEnv {
  reListen : result string;
  reFsm : Fsm I FW;
  reAttach : WAL -> W;
  reSnap : SS;
  reMeta : MS
}.

(** The hooks that the WAL recovers through. *)
Definition raft_ApplyRecord (rec : Record_) n : option error * Nd :=
  let '(n', e) := ApplyRecoveredRecord n rec in (e, n').
Definition raft_ApplySnapshot (entries : list SnapshotEntry) n : option error * Nd :=
  (None, set_fsm (set_fstore (s ← fstore (fsm n); ApplySnapshot s entries) (fsm n)) n).
Definition raft_Snapshot n : result (list SnapshotEntry) :=
  match fstore (fsm n) with
  | Some s => Ok (Store.Snapshot s (snapClock (fsm n) 0))
  | None => Err IOError
  end.
Definition raft_hooks : Hooks Nd := mkHooks (Some raft_ApplySnapshot) (Some raft_ApplyRecord) raft_Snapshot.

(** The WAL keeps everything: rotation is disabled. *)
Definition raft_wal_config : Config :=
  let c := DefaultConfig in
  mkConfig (cfChannelSize c) (cfThreshold c) (cfTmpLimit c) (cfHoldLimit c) (cfCheckInterval c)
    (cfAckTimeout c) (cfMaxRetries c) true.

(** [wal.Open], recovering into the node. *)
Definition raft_open_wal n : sys () (Nd * WAL) := fun s =>
  match Open raft_wal_config raft_hooks (mkSys (disk s) (io s) n) with
  | Done (Ok _) s' => Done (Ok (mem s')) (mkSys (disk s') (io s') ())
  | Done (Err e) s' => Done (Err e) (mkSys (disk s') (io s') ())
  | Crashed d _ => Crashed d ()
  end.

Record RaftNode : Type := mkRaftNode {
  rnID : string; rnNode : Nd; rnWAL : WAL; rnAddr : string; rnTLS : bool
}.

(** A snapshot or a membership that does not load is passed over. The transport's
    address book is the node's [addrs]. *)
Definition OpenRaftNode (env : RaftOpenEnv) (cfg : RaftNodeConfig) : sys () RaftNode :=
  if (raft_tls_wanted cfg && negb (raft_tls_parts cfg))%bool
  then fail (Wrapped "raft node TLS requires TLSCA, TLSCert and TLSKey together")
  else
    bound ← lift (reListen env);
    n ← lift (NewNode (rcID cfg) (rcPeers cfg) (rcThreshold cfg) (reFsm env));
    let n := SetSnapshotStore (reSnap env) n in
    snap ← attempt SnapshotStore_Load;
    n ← match snap with
        | Ok (Some s) => match RestoreSnapshot n s with (n, None) => mret n | (_, Some e) => fail e end
        | _ => mret n
        end;
    x ← raft_open_wal n;
    let '(n, w) := x in
    let n := SetLogStore (reAttach env w) n in
    let n := set_addrs (<[rcID cfg := bound]> (addrs n)) n in
    let n := SetMetaStore (reMeta env) n in
    m ← attempt MetaStore_Load;
    let n := match m with Ok (Some m) => AdoptCommittedMeta n m | _ => n end in
    mret (mkRaftNode (rcID cfg) n w bound (raft_tls_wanted cfg)).
End node.
