(* ===== verification/RaftNodeThms.v ===== *)
(** * A Raft node on disk: its files and its recovery *)

From S2P Require Import Prelude WalTypes WalCodec Os WalRecovery WalRecoveryProps WalRecoveryThms WalHooks WalWriter BTree Expiration Store RaftLog Raft RaftProps RaftInstances RaftThms ClusterStore ClusterThms RaftDurable RaftNode.

(** ** The file stores *)

(** What a file holds. *)
Definition stored {A} (path : string) (dec : bytes -> option A) (d : Disk) : result (option A) :=
  match d !! path with
  | None => Ok None
  | Some b => match dec b with Some a => Ok (Some a) | None => Err (Wrapped "json") end
  end.

Lemma load_file_eq {S A} path (dec : bytes -> option A) (d : Disk) l (x : S) :
  load_file path dec (mkSys d (mkMachine [] l) x) = Done (stored path dec d) (mkSys d (mkMachine [] l) x).
Proof.
  unfold load_file, stored, read_if_exists, ReadFile, exists_file, content, idle, respond, mbind, sys_bind, mret, sys_ret, fail. simpl.
  destruct (d !! path) as [b|] eqn:E; [|by rewrite bool_decide_eq_false_2 by (by intros [])].
  rewrite bool_decide_eq_true_2 by (by eexists). simpl. rewrite E. by destruct (dec b).
Qed.

(** Nothing but the file and its temporary file differs. *)
Definition others_kept (path : string) (d d' : Disk) : Prop :=
  forall k, k <> path -> k <> tmp_of path -> d' !! k = d !! k.

(** A call of which only the view matters. *)
Lemma ends_view {S} good part spread (s : Sys S) P Q :
  (forall e, P (Ok ()) (mkSys (good (disk s)) e (mem s))) -> (forall n e, P (Err IOError) (mkSys (part n (disk s)) e (mem s))) ->
  (forall d, Q d (mem s)) -> ends (change good part spread) s P Q.
Proof. intros HP HE HQ. apply (ends_change (fun _ => True)); auto. by apply Forall_true. Qed.

Lemma save_file_ends {S} path b (s : Sys S) :
  path <> tmp_of path ->
  ends (save_file path (Ok b)) s
    (fun r s' => others_kept path (disk s) (disk s') /\
       disk s' !! path = match r with Ok _ => Some b | Err _ => disk s !! path end)
    (fun _ _ => True).
Proof.
  intros Hne. unfold save_file, WriteFile.
  assert (forall x, others_kept path (disk s) (<[tmp_of path := x]> (disk s)) /\
                    <[tmp_of path := x]> (disk s) !! path = disk s !! path) as Htmp.
  { intros x. split; [intros k Hk1 Hk2|]; by rewrite lookup_insert_ne. }
  assert (forall x, append_to (tmp_of path) x (<[tmp_of path := []]> (disk s)) = <[tmp_of path := x]> (disk s)) as Happ.
  { intros x. unfold append_to. by rewrite lookup_insert_eq, insert_insert_eq. }
  apply ends_bind, ends_bind, ends_view; cbn [disk mem]; [|by intros|done]. intros e.
  apply ends_bind, ends_attempt, ends_view; cbn [disk mem]; [| |done].
  - intros e1. rewrite Happ. apply ends_bind, ends_attempt, ends_idle; cbn [disk mem]; [| |done]; intros; [|apply ends_fail, Htmp].
    apply ends_ret, ends_view; cbn [disk mem]; [| |done]; intros; [|by apply Htmp]. unfold rename_disk. rewrite lookup_insert_eq. split; [intros k Hk1 Hk2|].
    + by rewrite lookup_delete_ne, !lookup_insert_ne.
    + by rewrite lookup_delete_ne, lookup_insert_eq by done.
  - intros n e1. rewrite Happ. apply ends_bind, ends_attempt, ends_idle; cbn [disk mem]; [| |done]; intros; apply ends_fail, Htmp.
Qed.

(** The codec reads back what it wrote. *)
Class RaftFilesLaws {RJ : RaftFilesJson} : Prop := {
  raftsnap_roundtrip : forall s b, json_raftsnap s = Ok b -> json_unraftsnap b = Some s;
  meta_roundtrip : forall m b, json_meta m = Ok b -> json_unmeta b = Some m
}.

(** The snapshot store of a node is its directory, on a machine that stays up: a save
    that the machine crashes in has no next state of the process, and what it leaves on
    the disk is the subject of [torn_snapshot_left]. *)
Section file_store.
Context {RJ : RaftFilesJson} {RL : RaftFilesLaws}.

Definition FileSnapshots : Type := Sys ().

#[export] Instance FileSnapshots_ss : SnapshotStore FileSnapshots := {|
  ss_save s snap := match SnapshotStore_Save snap s with
                    | Done (Ok _) s' => (s', None)
                    | Done (Err e) s' => (s', Some e)
                    | Crashed _ _ => (s, Some IOError)
                    end;
  ss_load s := stored raftSnapshotName json_unraftsnap (disk s)
|}.

(** It keeps the promise that the node's recovery relies on. *)
#[export] Instance FileSnapshots_laws : SnapshotStoreLaws FileSnapshots.
Proof using RL.
  assert (forall (s : Sys ()) b, ends (save_file raftSnapshotName (Ok b)) s
    (fun r s' => disk s' !! raftSnapshotName = match r with Ok _ => Some b | Err _ => disk s !! raftSnapshotName end)
    (fun _ _ => True)) as Hends.
  { intros s b. eapply ends_mono; [apply save_file_ends; done|by intros r s' [_ ?]|done]. }
  split; intros s snap s'; simpl; unfold SnapshotStore_Save, stored.
  - destruct (json_raftsnap snap) as [b|] eqn:Ej; [|done]. pose proof (Hends s b) as He. unfold ends in He.
    destruct (save_file _ _ _) as [[]|]; [|done..]. intros [= <-]. rewrite He. by rewrite (raftsnap_roundtrip _ _ Ej).
  - destruct (json_raftsnap snap) as [b|] eqn:Ej; [|by intros e0 [= <- _]]. pose proof (Hends s b) as He. unfold ends in He.
    destruct (save_file _ _ _) as [[]|]; intros e1; [done| |]; intros [= <- <-]; simpl; by rewrite ?He.
Qed.
End file_store.

(** ** Recovery *)

Section open.
Context {I FW W SS MS : Type}.
Context {EI : ExpirationIndex I} {WF : Wal FW} {WW : Wal W} {SSS : SnapshotStore SS} {MSS : MetaStore MS}.
Context {J : Json} {JL : JsonLaws} {EJ : EntriesJson} {CJ : ConfigJson} {RJ : RaftFilesJson}.
Implicit Types n m : Node (Fsm I FW) W SS MS.

Lemma recover_noting R n m :
  recover_records n R = (m, None) ->
  foldl (fun p r => noting (raft_ApplyRecord r) p) (None, n) R = (None, m).
Proof.
  revert n. induction R as [|r R IH]; intros n; simpl; [by intros [= ->]|]. unfold noting at 2, raft_ApplyRecord at 2. simpl.
  destruct (ApplyRecoveredRecord n r) as [n' [e|]]; [done|]. apply IH.
Qed.

(** The WAL of a directory that holds [k] records hands them to the node. *)
Lemma raft_open_wal_ok h k (d : Disk) n m :
  history h -> holds h None k d -> recover_records n (take k h) = (m, None) ->
  exists w s', raft_open_wal n (boot d [] ()) = Done (Ok (m, w)) s' /\ script s' = [] /\
    forall f, f ∉ wal_files -> disk s' !! f = d !! f.
Proof.
  intros Hh Hd Hr. destruct (Recover_into raft_ApplySnapshot raft_ApplyRecord h k raft_Snapshot d n m Hh Hd (recover_noting _ _ _ Hr))
    as (s1 & E1 & Hm & Hq). pose proof (leaves_Recover _ _ _ _ E1) as Hl. unfold raft_open_wal, Open, raft_hooks.
  unfold mbind at 1, sys_bind at 1, idle at 1, respond at 1. cbn [boot io outcomes script images disk mem fst snd].
  change (mkSys d (mkMachine [] []) n) with (boot d [] n). rewrite E1. destruct s1 as [d1 [sc1 l1] x1]. unfold script in Hq. cbn [io outcomes disk mem] in *. subst sc1 x1.
  unfold openActive, OpenAppend, change, respond, modify, mbind, sys_bind. simpl.
  eexists _, _. split; [reflexivity|]. split; [done|]. intros f Hf. specialize (Hl f Hf). cbn [disk boot] in *. rewrite <- Hl. unfold create. case_match; [done|].
  rewrite lookup_insert_ne; [done|]. intros <-. apply Hf. unfold wal_files. rewrite !elem_of_cons. tauto.
Qed.

(** C19: opening a node recovers it from its directory: when the directory holds
    [k] records of the log, a snapshot and a membership, whatever torn line a crash
    left in the log, [OpenRaftNode] succeeds if the records can be read, and the
    node is the one that restoring the snapshot, replaying the [k] records in
    their order and adopting the membership gives. *)
Theorem open_recovers (env : RaftOpenEnv) (cfg : RaftNodeConfig) h k (d : Disk) bound m0 m :
  history h -> holds h None k d ->
  (raft_tls_wanted cfg = true -> raft_tls_parts cfg = true) -> reListen env = Ok bound ->
  NewNode (rcID cfg) (rcPeers cfg) (rcThreshold cfg) (reFsm env) = Ok m0 ->
  recover (SetSnapshotStore (reSnap env) m0) (stored raftSnapshotName json_unraftsnap d) (take k h)
    (stored raftMetaName json_unmeta d) = (m, None) ->
  exists (rn : RaftNode (I := I) (FW := FW) (W := W) (SS := SS) (MS := MS)) s',
    OpenRaftNode env cfg (boot d [] ()) = Done (Ok rn) s' /\ script s' = [] /\ rnAddr rn = bound /\
    nlog (rnNode rn) = nlog m /\ commitIndex (rnNode rn) = commitIndex m /\ lastApplied (rnNode rn) = lastApplied m /\
    fsm (rnNode rn) = fsm m /\ peers (rnNode rn) = peers m /\ removed (rnNode rn) = removed m.
Proof.
  intros Hh Hd Htls Hl Hn Hrec. unfold OpenRaftNode.
  assert ((raft_tls_wanted cfg && negb (raft_tls_parts cfg))%bool = false) as ->
    by (destruct (raft_tls_wanted cfg); [by rewrite Htls|done]).
  rewrite Hl, Hn. unfold lift at 1 2. unfold recover in Hrec.
  destruct (match stored raftSnapshotName json_unraftsnap d with Ok (Some s) => RestoreSnapshot (SetSnapshotStore (reSnap env) m0) s | _ => (SetSnapshotStore (reSnap env) m0, None) end) as [n1 [e|]] eqn:E1; [done|].
  destruct (recover_records n1 (take k h)) as [n2 [e|]] eqn:E2; [done|]. injection Hrec as Hm.
  destruct (raft_open_wal_ok h k d n1 n2 Hh Hd E2) as (w & s' & Ew & Hq & Hd').
  destruct s' as [d' [sc' l'] []]. unfold script in Hq. cbn [io outcomes disk] in *. subst sc'. unfold boot in *.
  assert (stored raftMetaName json_unmeta d' = stored raftMetaName json_unmeta d) as Hmeta.
  { unfold stored. rewrite Hd'; [done|]. unfold wal_files. rewrite !elem_of_cons, elem_of_nil. by intuition discriminate. }
  unfold mbind, sys_bind, attempt, SnapshotStore_Load, MetaStore_Load. cbn [mret sys_ret].
  rewrite load_file_eq.
  match goal with |- context [match ?x with Done _ _ => _ | Crashed _ _ => _ end] =>
    assert (x = Done (Ok n1) (mkSys d (mkMachine [] []) ())) as -> end.
  { destruct (stored raftSnapshotName json_unraftsnap d) as [[s|]|]; [|by injection E1 as ->..]. by rewrite E1. }
  rewrite Ew, load_file_eq, Hmeta. eexists _, _. split; [reflexivity|]. split; [done|]. cbn [rnNode rnAddr].
  destruct (stored raftMetaName json_unmeta d) as [[cm|]|]; subst m; by split_and!.
Qed.
End open.

(** ** A concrete directory *)

#[export] Instance Snapshot_countable_eq : EqDecision Raft.Snapshot.
Proof. solve_decision. Defined.
#[export] Instance Snapshot_countable : Countable Raft.Snapshot.
Proof.
  apply (inj_countable' (fun s => (LastIncludedIndex s, LastIncludedTerm s, SData s)) (fun p => mkSnapshot p.1.1 p.1.2 p.2)). by intros [].
Defined.
#[export] Instance CommittedMeta_eq : EqDecision CommittedMeta.
Proof. solve_decision. Defined.
#[export] Instance CommittedMeta_countable : Countable CommittedMeta.
Proof.
  apply (inj_countable' (fun s => (mVoters s, mAddrs s, mIndex s)) (fun p => mkCommittedMeta p.1.1 p.1.2 p.2)). by intros [].
Defined.

#[export] Instance BitFilesJson : RaftFilesJson := {|
  json_raftsnap s := Ok (write_bits (encode s));
  json_unraftsnap := read_value;
  json_meta m := Ok (write_bits (encode m));
  json_unmeta := read_value
|}.

#[export] Instance BitFilesJson_laws : RaftFilesLaws.
Proof. split; intros ? ? [= <-]; simpl; unfold read_value; rewrite read_write_bits; apply decode_encode. Qed.

(** A log of one record, entry [i] of the Raft log. *)
Definition one_record (i : nat) : list Record_ := [with_logIndex (with_raft (store_record OpPut "k" "v" 0) 1 i) 1].

Lemma one_record_ok i : history (one_record i).
Proof. split; [vm_compute; reflexivity|]. intros [|j] r; simpl; intros; simplify_eq; auto. Qed.

Definition raft_dir (snap : option bytes) (i : nat) (m : CommittedMeta) : Disk :=
  match snap with Some b => {[raftSnapshotName := b]} | None => ∅ end ∪
  {[activeWALName := enc (one_record i); raftMetaName := write_bits (encode m)]}.

Lemma raft_dir_holds i m : holds (one_record i) None 1 (raft_dir None i m).
Proof.
  split; [done|]. split; [simpl; lia|]. exists (one_record i), []. split; [apply framed_wal_file; done|].
  split; [done|]. simpl. right. by split.
Qed.

Definition sample_env : RaftOpenEnv (I := Index) (FW := RaftWal) (W := RaftWal) (SS := MemSnapshots) (MS := MemMeta) :=
  mkRaftOpenEnv (Ok "n") (mkFsm (Some NewCacheyStore) (fun _ => 10%Z) (fun _ => 10%Z)) (fun _ => []) None None.
Definition sample_cfg : RaftNodeConfig := mkRaftNodeConfig "a" "n" [] 0 [] [] [].
Definition sample_meta : CommittedMeta := mkCommittedMeta ["a"; "b"] {["a" := "o"]} 1.

Lemma open_recovers_witness :
  exists rn s', OpenRaftNode sample_env sample_cfg (boot (raft_dir None 1 sample_meta) [] ()) = Done (Ok rn) s' /\
    log_lastIndex (nlog (rnNode rn)) = 1 /\ peers (rnNode rn) = ["b"].
Proof.
  destruct (NewNode (W := RaftWal) (SS := MemSnapshots) (MS := MemMeta) "a" [] 0 (reFsm sample_env)) as [m0|] eqn:En; [|discriminate].
  destruct (recover (SetSnapshotStore None m0) (stored raftSnapshotName json_unraftsnap (raft_dir None 1 sample_meta))
              (take 1 (one_record 1)) (stored raftMetaName json_unmeta (raft_dir None 1 sample_meta))) as [m err] eqn:Er.
  assert (match NewNode (F := Fsm Index RaftWal) (W := RaftWal) (SS := MemSnapshots) (MS := MemMeta) "a" [] 0 (reFsm sample_env) with
          | Ok m0 => let '(m, err) := recover (SetSnapshotStore None m0)
              (stored raftSnapshotName json_unraftsnap (raft_dir None 1 sample_meta))
              (take 1 (one_record 1)) (stored raftMetaName json_unmeta (raft_dir None 1 sample_meta)) in
              (err, log_lastIndex (nlog m), peers m) = (None, 1, ["b"])
          | Err _ => False end) as H by (vm_compute; reflexivity).
  rewrite En, Er in H. injection H as -> Hlast Hpeers.
  destruct (open_recovers sample_env sample_cfg (one_record 1) 1 (raft_dir None 1 sample_meta) "n" m0 m)
    as (rn & s' & E & _ & _ & Hlg & _ & _ & _ & Hp & _).
  - apply one_record_ok.
  - apply raft_dir_holds.
  - discriminate.
  - reflexivity.
  - exact En.
  - exact Er.
  - exists rn, s'. split; [exact E|]. rewrite Hlg, Hp. split; [exact Hlast|exact Hpeers].
Defined.

(** ** Where opening falls short *)

(** A node registers the address it is bound to and then adopts the saved
    membership, addresses included: restarted at a new address, it hands out the
    old one as its own. *)
Theorem own_address_overridden :
  exists rn s', OpenRaftNode sample_env sample_cfg (boot (raft_dir None 1 sample_meta) [] ()) = Done (Ok rn) s' /\
    rnAddr rn = "n" /\ addrs (rnNode rn) !! "a" = Some "o".
Proof. eexists _, _. split; [vm_compute; reflexivity|]. by split. Qed.

(** A snapshot file that does not decode is passed over. The log of a node that
    had installed the snapshot of index 8 starts with entry 9, which then becomes
    entry 1. *)
Theorem corrupt_snapshot_ignored :
  exists rn s', OpenRaftNode sample_env sample_cfg (boot (raft_dir (Some []) 9 sample_meta) [] ()) = Done (Ok rn) s' /\
    stored raftSnapshotName (json_unraftsnap (RaftFilesJson := BitFilesJson)) (raft_dir (Some []) 9 sample_meta) = Err (Wrapped "json") /\
    log_lastIndex (nlog (rnNode rn)) = 1 /\ termAt (nlog (rnNode rn)) 1 = Some 1 /\ termAt (nlog (rnNode rn)) 9 = None.
Proof. eexists _, _. split; [vm_compute; reflexivity|]. vm_compute. repeat split. Qed.

(** A save is not synced: when the machine crashes in the rename, the file can be on
    the device under its final name with none of its bytes, although the old snapshot
    was there in full. It then does not decode, and opening the node passes over it. *)
Theorem torn_snapshot_left :
  let old := mkSnapshot 3 1 [] in
  let d0 := {[raftSnapshotName := write_bits (encode old)]} in
  stored raftSnapshotName json_unraftsnap d0 = Ok (Some old) /\
  exists d, SnapshotStore_Save (mkSnapshot 8 2 []) (boot d0 [Good; Good; Good; CrashAt 16] ()) = Crashed d () /\
    d !! raftSnapshotName = Some [] /\ stored raftSnapshotName json_unraftsnap d = Err (Wrapped "json").
Proof. split; [vm_compute; reflexivity|]. eexists. split; [vm_compute; reflexivity|]. by vm_compute. Qed.
