(* ===== verification/Mtls.v ===== *)
(** * Mutual TLS (internal/mtls/mtls.go)

    The names, the certificate check of a listener and the configuration of a
    dialer. Certificate chains, keys and the handshake are [crypto/tls] and
    [crypto/x509]: parameters. *)

From Stdlib Require Import Ascii.
From S2P Require Import Prelude WalTypes.

(** ** Names *)

(** [strings.Split(name, ".")]. *)
Fixpoint split_dots (s : string) : list string :=
  match s with
  | "" => [""]
  | String c s' =>
      if Ascii.eqb c "."%char then "" :: split_dots s'
      else match split_dots s' with
           | l :: ls => String c l :: ls
           | [] => [String c ""]
           end
  end.

Definition alnum (c : ascii) : bool :=
  let n := nat_of_ascii c in
  ((97 <=? n) && (n <=? 122) || (65 <=? n) && (n <=? 90) || (48 <=? n) && (n <=? 57))%nat%bool.

(** The loop over a label of [len] bytes: a rune beyond ASCII is refused at its
    first byte. *)
Fixpoint label_chars (i len : nat) (s : string) : bool :=
  match s with
  | "" => true
  | String c s' =>
      (alnum c || (Ascii.eqb c "-"%char && (0 <? i)%nat && (i <? len - 1)%nat)) && label_chars (S i) len s'
  end.

Definition validLabel (label : string) : bool :=
  if ((String.length label =? 0) || (63 <? String.length label))%nat then false
  else label_chars 0 (String.length label) label.

Definition ValidName (name : string) : bool :=
  if (String.eqb name "" || (253 <? String.length name)%nat)%bool then false
  else forallb validLabel (split_dots name).

(** ** Certificates *)

Record Certificate : Type := mkCertificate { DNSNames : list string }.

Definition Identity (cert : Certificate) : string := default "" (head (DNSNames cert)).

(** The certificates that the peer of a connection presented; [None] when the
    connection is not TLS. *)
Definition PeerIdentity (conn : option (list Certificate)) : string :=
  match conn with
  | Some (leaf :: _) => Identity leaf
  | _ => ""
  end.

(** [crypto/x509] and [crypto/tls]: PEM bundles, key pairs, certificates, and
    whether a CA bundle vouches for one. *)
Class X509 : Type := {
  append_certs : bytes -> bool;                  (* AppendCertsFromPEM *)
  key_pair : bytes -> bytes -> option error;     (* tls.X509KeyPair *)
  parse_cert : bytes -> option Certificate;      (* x509.ParseCertificate *)
  chain_ok : bytes -> Certificate -> bool        (* verification against the pool *)
}.

Section mtls.
Context {X : X509}.

Definition pool (caPEM : bytes) : result bytes :=
  if append_certs caPEM then Ok caPEM else Err (Wrapped "mtls: no certificates in CA PEM").

(** The certificate callback of a listener; [None]: the index panics, which
    requiring a certificate rules out. *)
Definition verifyPeer (accept : option (string -> bool)) (rawCerts : list bytes) : option (option error) :=
  raw ← head rawCerts;
  Some match parse_cert raw with
       | None => Some (Wrapped "mtls: parse client cert")
       | Some leaf =>
           let ident := Identity leaf in
           if String.eqb ident "" then Some (Wrapped "mtls: client certificate has no identity SAN")
           else match accept with
                | Some f => if f ident then None else Some (Wrapped "mtls: client identity not allowed")
                | None => None
                end
       end.

(** A configuration: the CA that the other side must be vouched for by, the name
    a dialer expects, the callback of a listener. *)
Record TlsConfig : Type := mkTlsConfig {
  tcCA : bytes; tcServerName : string; tcVerify : option (list bytes -> option (option error))
}.

Definition Server (caPEM certPEM keyPEM : bytes) (accept : option (string -> bool)) : result TlsConfig :=
  match pool caPEM with
  | Err e => Err e
  | Ok roots => match key_pair certPEM keyPEM with
                | Some _ => Err (Wrapped "mtls: load key pair")
                | None => Ok (mkTlsConfig roots "" (Some (verifyPeer accept)))
                end
  end.

Definition Client (caPEM certPEM keyPEM : bytes) (want : string) : result TlsConfig :=
  if negb (ValidName want) then Err (Wrapped "mtls: expected peer identity is not a valid name")
  else match pool caPEM with
       | Err e => Err e
       | Ok roots => match key_pair certPEM keyPEM with
                     | Some _ => Err (Wrapped "mtls: load key pair")
                     | None => Ok (mkTlsConfig roots want None)
                     end
       end.

(** A listener's handshake with a client that presents [rawCerts]: Go verifies the
    chain and then runs the callback. The result is what [PeerIdentity] sees. *)
Definition handshake (cfg : TlsConfig) (rawCerts : list bytes) : option (list Certificate) :=
  leaf ← (head rawCerts ≫= parse_cert);
  if negb (chain_ok (tcCA cfg) leaf) then None
  else match tcVerify cfg with
       | Some f => match f rawCerts with Some None => Some [leaf] | _ => None end
       | None => Some [leaf]
       end.

(** Whoever a listener admits has a certificate of the CA and a name, on which the
    accept predicate has agreed. *)
Lemma handshake_identity ca cert key accept cfg rawCerts peer :
  Server ca cert key accept = Ok cfg -> handshake cfg rawCerts = Some peer ->
  PeerIdentity (Some peer) <> "" /\ (forall f, accept = Some f -> f (PeerIdentity (Some peer)) = true) /\
  exists leaf, peer = [leaf] /\ chain_ok ca leaf = true.
Proof.
  unfold Server, pool. destruct (append_certs ca); [|done]. destruct (key_pair cert key); [done|]. intros [= <-].
  unfold handshake. destruct rawCerts as [|raw raws]; [done|]. cbn [head mbind option_bind tcCA tcVerify].
  destruct (parse_cert raw) as [leaf|] eqn:Ep; [|done]. cbn [mbind option_bind].
  destruct (chain_ok ca leaf) eqn:Ec; [|done]. unfold verifyPeer. cbn [head mbind option_bind negb]. rewrite Ep.
  destruct (String.eqb_spec (Identity leaf) "") as [|Hne]; [done|].
  destruct accept as [f|].
  - destruct (f (Identity leaf)) eqn:Ef; [|done]. intros [= <-]. split_and!; [done| |by exists leaf]. by intros ? [= <-].
  - intros [= <-]. split_and!; [done|done|by exists leaf].
Qed.
End mtls.

(** Names of nodes and clients, and what is refused. An address of four numbers
    passes too, which [crypto/x509] would match as an IP address. *)
Example valid_names :
  forallb ValidName ["r1"; "alice"; "n1"; "cachey-1"; "a.b.example"; "10.0.0.1"] = true /\
  existsb ValidName [""; "under_score"; "-lead"; "trail-"; "a..b"; "cachey://node/r1"; "r 1"] = false.
Proof. by split. Qed.
