(* ===== verification/Cachey.v ===== *)
(** * The command-line client (cmd/cachey/main.go)

    It parses a command from its arguments or from lines of standard input, sends
    it over a session that redials and follows redirects, and prints the answer.
    The network is a class: what a dial and an exchange on a connection give. The
    state of everything outside the process is [Wd]. *)

From Stdlib Require Import Ascii.
From S2P Require Import Prelude WalTypes Protocol Handler Mtls.

Definition defaultAddr : string := ":8080".
Definition maxRedirects : nat := 8.

(** ** Words of a line *)

Definition word (acc : bytes) : list string :=
  match acc with [] => [] | _ => [String.string_of_list_ascii acc] end.

(** [strings.Fields]; [acc] is the word so far. *)
Fixpoint fields (acc l : bytes) : list string :=
  match l with
  | [] => word acc
  | c :: l1 =>
      if space1 c then word acc ++ fields [] l1
      else match l1 with
           | [] => fields (acc ++ [c]) l1
           | d :: l2 =>
               if space2 c d then word acc ++ fields [] l2
               else match l2 with
                    | [] => fields (acc ++ [c]) l1
                    | e :: l3 => if space3 c d e then word acc ++ fields [] l3 else fields (acc ++ [c]) l1
                    end
           end
  end.
Definition Fields (l : bytes) : list string := fields [] l.

Definition between (a b n : nat) : bool := ((a <=? n) && (n <=? b))%nat.
Definition upper (c : ascii) : ascii :=
  let n := nat_of_ascii c in if between 97 122 n then ascii_of_nat (n - 32) else c.
Definition lower (c : ascii) : ascii :=
  let n := nat_of_ascii c in if between 65 90 n then ascii_of_nat (n + 32) else c.

(** [strings.ToUpper] and [strings.ToLower], up to characters that are not ASCII
    before and after: the results are compared with ASCII words only. Outside
    ASCII, the letters with an ASCII upper case are U+0131 and U+017F, the ones
    with an ASCII lower case U+0130 and U+212A. *)
Fixpoint ToUpper (s : string) : string :=
  match s with
  | String c (String d s2 as s1) =>
      if (byte_is 196 c && byte_is 177 d)%bool then String "I" (ToUpper s2)
      else if (byte_is 197 c && byte_is 191 d)%bool then String "S" (ToUpper s2)
      else String (upper c) (ToUpper s1)
  | String c EmptyString => String (upper c) EmptyString
  | EmptyString => EmptyString
  end.
Fixpoint ToLower (s : string) : string :=
  match s with
  | String c (String d s2 as s1) =>
      if (byte_is 196 c && byte_is 176 d)%bool then String "i" (ToLower s2)
      else match s2 with
           | String e s3 =>
               if (byte_is 226 c && byte_is 132 d && byte_is 170 e)%bool then String "k" (ToLower s3)
               else String (lower c) (ToLower s1)
           | EmptyString => String (lower c) (ToLower s1)
           end
  | String c EmptyString => String (lower c) EmptyString
  | EmptyString => EmptyString
  end.

(** [strings.Join] with a space. *)
Fixpoint Join (ws : list string) : string :=
  match ws with
  | [] => ""
  | [w] => w
  | w :: ws' => w +:+ " " +:+ Join ws'
  end.

(** [strings.Contains] of a colon. *)
Fixpoint has_colon (s : string) : bool :=
  match s with EmptyString => false | String c s' => Ascii.eqb c ":" || has_colon s' end.

(** [strconv.ParseInt] in base 10 for 64 bits. *)
Fixpoint digits (acc : N) (s : string) : option N :=
  match s with
  | EmptyString => Some acc
  | String c s' =>
      let n := nat_of_ascii c in
      if between 48 57 n then digits (10 * acc + N.of_nat (n - 48))%N s' else None
  end.
Definition ParseInt (s : string) : option Z :=
  let '(neg, body) := match s with
                      | String c s' => if Ascii.eqb c "-" then (true, s') else if Ascii.eqb c "+" then (false, s') else (false, s)
                      | EmptyString => (false, s)
                      end in
  if String.eqb body "" then None
  else un ← digits 0 body;
       if (neg : bool) then (if (2 ^ 63 <? un)%N then None else Some (- Z.of_N un)%Z)
       else if (2 ^ 63 <=? un)%N then None else Some (Z.of_N un).

(** ** Arguments and commands *)

Definition splitArgs (args : list string) : string * list string :=
  match args with
  | a :: rest => if has_colon a then (a, rest) else (defaultAddr, args)
  | [] => (defaultAddr, args)
  end.

Definition parseCommand (words : list string) : result Command :=
  match words with
  | [] => Err (Wrapped "missing command (try get, put, del, ttl, alv)")
  | w :: args =>
      let name := ToUpper w in
      if String.eqb name "GET" then
        match args with [key] => Ok (mkCommand GET key "" 0) | _ => Err (Wrapped "usage: get KEY") end
      else if String.eqb name "PUT" then
        match args with
        | key :: (_ :: _) as vals => Ok (mkCommand PUT key (Join vals) 0)
        | _ => Err (Wrapped "usage: put KEY VALUE...")
        end
      else if String.eqb name "DEL" then
        match args with [key] => Ok (mkCommand DEL key "" 0) | _ => Err (Wrapped "usage: del KEY") end
      else if String.eqb name "TTL" then
        match args with
        | [key; millis] => match ParseInt millis with
                           | Some ms => Ok (mkCommand TTL key "" ms)
                           | None => Err (Wrapped "ttl: invalid millis")
                           end
        | _ => Err (Wrapped "usage: ttl KEY MILLIS")
        end
      else if String.eqb name "ALV" then
        match args with [] => Ok (mkCommand ALV "" "" 0) | _ => Err (Wrapped "usage: alv") end
      else Err (Wrapped "unknown command")
  end.

(** ** The session *)

(** [net_exchange] is the write of a request and the read of the line that
    answers it; a stream that ends gives what it had, without an error. *)
Class Net (Wd Cn : Type) : Type := {
  net_dial : option TlsConfig -> string -> Wd -> result Cn * Wd;
  net_exchange : Cn -> bytes -> Wd -> result bytes * Wd;
  net_close : Cn -> Wd -> Wd
}.

(** What the process prints. *)
Inductive Output : Type :=
  | OutBanner (addr : string)
  | OutPrompt (addr : string)
  | OutLine (text : string)
  | OutHelp
  | OutError (e : error).

Section session.
Context {Wd Cn : Type} {NT : Net Wd Cn} {PJ : ProtoJson}.
Implicit Types (wd : Wd) (cmd : Command).

Record session : Type := mkSession { sAddr : string; sCfg : option TlsConfig; sCl : option Cn }.
Implicit Types s : session.

Definition dial s wd : result Cn * session * Wd :=
  match sCl s with
  | Some c => (Ok c, s, wd)
  | None => match net_dial (sCfg s) (sAddr s) wd with
            | (Err e, wd) => (Err e, s, wd)
            | (Ok c, wd) => (Ok c, mkSession (sAddr s) (sCfg s) (Some c), wd)
            end
  end.

Definition drop_conn s wd : session * Wd :=
  match sCl s with
  | Some c => (mkSession (sAddr s) (sCfg s) None, net_close c wd)
  | None => (s, wd)
  end.

(** [Client.SendCommand] on a connection of the session. *)
Definition send_command (c : Cn) cmd wd : result bytes * Wd :=
  match Serialize cmd with
  | Err e => (Err e, wd)
  | Ok data => let '(r, wd) := net_exchange c (data ++ [nl]) wd in (SendCommand (fun _ => r) cmd, wd)
  end.

(** The loop of [session.do], [i] more rounds. *)
Fixpoint do_rounds (i : nat) cmd s wd : result bytes * session * Wd :=
  match i with
  | O => (Err (Wrapped "too many leader redirects"), s, wd)
  | S i' =>
      match dial s wd with
      | (Err e, s, wd) => (Err e, s, wd)
      | (Ok c, s, wd) =>
          match send_command c cmd wd with
          | (Ok resp, wd) => (Ok resp, s, wd)
          | (Err e, wd) =>
              match RedirectLeader e with
              | Some next =>
                  let '(s, wd) := drop_conn s wd in do_rounds i' cmd (mkSession next (sCfg s) (sCl s)) wd
              | None =>
                  let '(s, wd) := match e with Status _ _ => (s, wd) | _ => drop_conn s wd end in
                  (Err e, s, wd)
              end
          end
      end
  end.
Definition do_command cmd s wd : result bytes * session * Wd := do_rounds maxRedirects cmd s wd.

Definition printResult cmd (raw : bytes) : Output :=
  match json_uncommand raw with
  | None => OutLine (String.string_of_list_ascii raw)
  | Some echo => match CType cmd with
                 | GET | ALV => OutLine (CVal echo)
                 | _ => OutLine "OK"
                 end
  end.

Definition runOnce cmd s wd : result Output * session * Wd :=
  match do_command cmd s wd with
  | (Err e, s, wd) => (Err e, s, wd)
  | (Ok resp, s, wd) => (Ok (printResult cmd resp), s, wd)
  end.

(** ** The shell *)

(** Whether a line of the input is too long for the scanner. *)
Fixpoint scanErr (n : N) (l : bytes) : bool :=
  match l with
  | [] => false
  | c :: l' => if Ascii.eqb c nl then scanErr 0 l'
               else if (maxToken <=? n + 1)%N then true else scanErr (n + 1) l'
  end.

(** The loop over the lines; [None] is a panic, at the first word of no words. The
    result says whether the shell was left with [exit]. *)
Fixpoint repl_lines (lines : list bytes) s wd : option (list Output * bool * session * Wd) :=
  let prompt := OutPrompt (sAddr s) in
  match lines with
  | [] => Some ([prompt], false, s, wd)
  | text :: rest =>
      let line := TrimSpace text in
      match line with
      | [] => '(out, q, s, wd) ← repl_lines rest s wd; Some (prompt :: out, q, s, wd)
      | _ =>
          let words := Fields line in
          w ← head words;
          let name := ToLower w in
          if (String.eqb name "exit" || String.eqb name "quit")%bool then Some ([prompt], true, s, wd)
          else
            let '(o, s, wd) :=
              if (String.eqb name "help" || String.eqb name "?")%bool then (OutHelp, s, wd)
              else match parseCommand words with
                   | Err e => (OutError e, s, wd)
                   | Ok cmd => match runOnce cmd s wd with
                               | (Err e, s, wd) => (OutError e, s, wd)
                               | (Ok o, s, wd) => (o, s, wd)
                               end
                   end in
            '(out, q, s, wd) ← repl_lines rest s wd;
            Some (prompt :: o :: out, q, s, wd)
      end
  end.

Definition repl (input : bytes) s wd : option (list Output * option error * session * Wd) :=
  '(out, quit, s', wd) ← repl_lines (scanLines [] 0 input) s wd;
  let err := if ((quit : bool) || negb (scanErr 0 input))%bool then None else Some (Wrapped "bufio.Scanner: token too long") in
  Some (OutBanner (sAddr s) :: out, err, s', wd).

(** ** The program *)

Record Flags : Type := mkFlags {
  flTlsCA : string; flTlsCert : string; flTlsKey : string; flServerName : string; flInsecure : bool; flArgs : list string
}.

Context {X : X509}.

(** [read] is os.ReadFile; a file that cannot be read ends the program. *)
Definition clientTLS (read : string -> result bytes) (caPath certPath keyPath serverName : string) : result (option TlsConfig) :=
  let unset := String.eqb in
  if (unset caPath "" && unset certPath "" && unset keyPath "" && unset serverName "")%bool then Ok None
  else if (unset caPath "" || unset certPath "" || unset keyPath "" || unset serverName "")%bool
  then Err (Wrapped "mTLS requires all of -tls-ca, -tls-cert, -tls-key and -server-name")
  else match read caPath with
       | Err e => Err e
       | Ok ca => match read certPath with
                  | Err e => Err e
                  | Ok cert => match read keyPath with
                               | Err e => Err e
                               | Ok key => match Client ca cert key serverName with
                                           | Err e => Err e
                                           | Ok cfg => Ok (Some cfg)
                                           end
                               end
                  end
       end.

(** What the program prints, and the error that it ends with, if any. *)
Definition main (read : string -> result bytes) (fl : Flags) (input : bytes) wd : option (list Output * option error * Wd) :=
  match clientTLS read (flTlsCA fl) (flTlsCert fl) (flTlsKey fl) (flServerName fl) with
  | Err e => Some ([], Some e, wd)
  | Ok cfg =>
      if (flInsecure fl && bool_decide (is_Some cfg))%bool
      then Some ([], Some (Wrapped "-insecure-plaintext cannot be combined with mTLS flags"), wd)
      else if (bool_decide (cfg = None) && negb (flInsecure fl))%bool
      then Some ([], Some (Wrapped "connection requires mTLS flags or -insecure-plaintext"), wd)
      else
        let '(addr, words) := splitArgs (flArgs fl) in
        let s := mkSession addr cfg None in
        match words with
        | [] => '(out, err, _, wd) ← repl input s wd; Some (out, err, wd)
        | _ => match parseCommand words with
               | Err e => Some ([], Some e, wd)
               | Ok cmd => match runOnce cmd s wd with
                           | (Err e, _, wd) => Some ([], Some e, wd)
                           | (Ok o, _, wd) => Some ([o], None, wd)
                           end
               end
        end
  end.
End session.
