(* ===== verification/CacheyThms.v ===== *)
(** * The command-line client: the properties *)

From Stdlib Require Import Ascii.
From stdpp Require Import pretty.
From S2P Require Import Prelude WalTypes BTree Expiration Store StoreProps RaftLog Raft RaftProps RaftInstances RaftThms WalCodec Protocol Handler ServerThms ClusterStore ClusterThms Mtls Cachey.

(** ** Typing a command *)

Definition sp : ascii := " "%char.

(** A text that [Fields] leaves alone. *)
Definition is_word (w : string) : Prop := Fields (String.list_ascii_of_string w) = [w].

(** One step of [fields]. *)
Lemma fields_cons acc c l1 :
  fields acc (c :: l1) =
    if space1 c then word acc ++ fields [] l1
    else match l1 with
         | d :: e :: l3 => if space2 c d then word acc ++ fields [] (e :: l3)
                           else if space3 c d e then word acc ++ fields [] l3 else fields (acc ++ [c]) l1
         | [d] => if space2 c d then word acc ++ fields [] [] else fields (acc ++ [c]) l1
         | [] => fields (acc ++ [c]) l1
         end.
Proof. by destruct l1 as [|d [|e l3]]. Qed.

(** A white space: its bytes end a word wherever they stand. *)
Record separator (sep : bytes) : Prop := {
  sep_fields : forall acc r, fields acc (sep ++ r) = word acc ++ fields [] r;
  sep_start : exists h t, sep = h :: t /\ (forall c, space2 c h = false) /\ (forall c d, space3 c d h = false) /\
                (forall c e, space3 c h e = false)
}.

Lemma fields_sep sep acc w r : separator sep -> fields acc (w ++ sep ++ r) = fields acc w ++ fields [] r.
Proof.
  intros [Hf (h & t & -> & H2 & H3 & H3')]. revert acc. induction w as [w IH] using (induction_ltof1 _ (@length ascii)). unfold ltof in IH.
  destruct w as [|c w]; intros acc; [by rewrite app_nil_l, Hf|]. rewrite <- app_comm_cons.
  rewrite (fields_cons acc c w), (fields_cons acc c (w ++ _)). destruct (space1 c).
  { rewrite (IH w) by (simpl; lia). by rewrite <- app_assoc. }
  destruct w as [|d [|e w]].
  - pose proof (IH [] ltac:(simpl; lia) (acc ++ [c])) as H. cbn [app] in H |- *. rewrite H2.
    destruct (t ++ r); [done|]. by rewrite H3'.
  - pose proof (IH [d] ltac:(simpl; lia) (acc ++ [c])) as H. pose proof (IH [] ltac:(simpl; lia) []) as H0. cbn [app] in H, H0 |- *.
    rewrite H3, H0. destruct (space2 c d); [by rewrite <- app_assoc|done].
  - pose proof (IH (d :: e :: w) ltac:(simpl; lia) (acc ++ [c])) as H. pose proof (IH (e :: w) ltac:(simpl; lia) []) as H0.
    cbn [app] in H, H0 |- *. rewrite H, H0, (IH w) by (simpl; lia). by repeat case_match; rewrite <- ?app_assoc.
Qed.

Lemma space2_low c d : (nat_of_ascii d < 128)%nat \/ (192 <= nat_of_ascii d)%nat -> space2 c d = false.
Proof.
  intros H. unfold space2, byte_is. rewrite !(proj2 (Nat.eqb_neq (nat_of_ascii d) _)) by lia. by rewrite andb_false_r.
Qed.

Lemma space3_low c d e : (nat_of_ascii e < 128)%nat \/ (192 <= nat_of_ascii e)%nat -> space3 c d e = false /\ space3 c e d = false.
Proof.
  intros H. unfold space3, byte_is. rewrite !(proj2 (Nat.eqb_neq (nat_of_ascii e) _)) by lia.
  assert ((128 <=? nat_of_ascii e) && (nat_of_ascii e <=? 138) = false)%nat%bool as ->.
  { apply andb_false_iff. destruct H; [left; apply Nat.leb_gt; lia|right; apply Nat.leb_gt; lia]. }
  by rewrite !andb_false_r.
Qed.

Lemma separator_lead h t :
  (nat_of_ascii h < 128)%nat \/ (192 <= nat_of_ascii h)%nat ->
  (forall acc r, fields acc ((h :: t) ++ r) = word acc ++ fields [] r) -> separator (h :: t).
Proof.
  intros H Hf. split; [done|]. exists h, t.
  split_and!; [done|intros c; by apply space2_low|intros c d; by apply (space3_low c d h)|intros c e; by apply (space3_low c e h)].
Qed.

Lemma separator1 c : space1 c = true -> separator [c].
Proof.
  intros H. apply separator_lead; [unfold space1 in H; bool_to_prop; destruct H as [H|H]; bool_to_prop; lia|].
  intros acc r. cbn [app]. by rewrite fields_cons, H.
Qed.

Lemma byte_is_eq n c : byte_is n c = true -> nat_of_ascii c = n.
Proof. apply Nat.eqb_eq. Qed.

Lemma high_not_space1 c : (128 <= nat_of_ascii c)%nat -> space1 c = false.
Proof. intros H. unfold space1. apply orb_false_iff. split; [apply andb_false_iff; right; apply Nat.leb_gt; lia|apply Nat.eqb_neq; lia]. Qed.

Lemma space2_lead c d : space2 c d = true -> nat_of_ascii c = 194.
Proof. unfold space2. intros H. apply andb_true_iff in H as [H _]. by apply byte_is_eq. Qed.

Lemma space3_lead c d e : space3 c d e = true -> (225 <= nat_of_ascii c)%nat.
Proof.
  unfold space3. intros H. repeat (apply orb_true_iff in H as [H|H]); repeat (apply andb_true_iff in H as [H _]); apply byte_is_eq in H; lia.
Qed.

Lemma separator2 c d : space2 c d = true -> separator [c; d].
Proof.
  intros H. pose proof (space2_lead _ _ H) as Hc. apply separator_lead; [lia|]. intros acc r. cbn [app].
  rewrite fields_cons, high_not_space1, H by lia. by destruct r.
Qed.

Lemma separator3 c d e : space3 c d e = true -> separator [c; d; e].
Proof.
  intros H. pose proof (space3_lead _ _ _ H) as Hc. apply separator_lead; [lia|]. intros acc r. cbn [app].
  rewrite fields_cons, high_not_space1, H by lia. destruct (space2 c d) eqn:E; [|done]. apply space2_lead in E. lia.
Qed.

(** ** Trimming keeps the words *)

Lemma Fields_trimLeft l : Fields (trimLeft space2 space3 l) = Fields l.
Proof.
  unfold Fields. induction l as [l IH] using (induction_ltof1 _ (@length ascii)). unfold ltof in IH.
  destruct l as [|c l]; [done|]. rewrite (fields_cons [] c l). cbn [trimLeft].
  destruct (space1 c) eqn:E1; [by rewrite (IH l) by (simpl; lia)|].
  destruct l as [|d [|e l]].
  - rewrite fields_cons, E1. done.
  - destruct (space2 c d) eqn:E2; [by rewrite (IH []) by (simpl; lia)|]. by rewrite fields_cons, E1, E2.
  - destruct (space2 c d) eqn:E2; [by rewrite (IH (e :: l)) by (simpl; lia)|].
    destruct (space3 c d e) eqn:E3; [by rewrite (IH l) by (simpl; lia)|]. by rewrite fields_cons, E1, E2, E3.
Qed.

Lemma Fields_snoc_sep l sep : separator sep -> Fields (l ++ sep) = Fields l.
Proof.
  intros H. unfold Fields. pose proof (fields_sep sep [] l [] H) as E. by rewrite !app_nil_r in E.
Qed.

Lemma Fields_trimRight l : Fields (rev (trimLeft (fun c d => space2 d c) (fun c d e => space3 e d c) l)) = Fields (rev l).
Proof.
  induction l as [l IH] using (induction_ltof1 _ (@length ascii)). unfold ltof in IH.
  destruct l as [|c l]; [done|]. cbn [trimLeft].
  destruct (space1 c) eqn:E1; [rewrite (IH l) by (simpl; lia); symmetry; by apply Fields_snoc_sep, separator1|].
  destruct l as [|d l]; [done|].
  destruct (space2 d c) eqn:E2.
  { rewrite (IH l) by (simpl; lia). symmetry. cbn [rev]. rewrite <- app_assoc. by apply Fields_snoc_sep, separator2. }
  destruct l as [|e l]; [done|]. destruct (space3 e d c) eqn:E3; [|done].
  rewrite (IH l) by (simpl; lia). symmetry. cbn [rev]. rewrite <- !app_assoc. by apply Fields_snoc_sep, separator3.
Qed.

Lemma Fields_TrimSpace l : Fields (TrimSpace l) = Fields l.
Proof. unfold TrimSpace. by rewrite Fields_trimRight, rev_involutive, Fields_trimLeft. Qed.

Lemma Fields_Join ws : Forall is_word ws -> Fields (String.list_ascii_of_string (Join ws)) = ws.
Proof.
  induction 1 as [|w ws Hw Hws IH]; [done|]. destruct ws as [|w' ws]; [exact Hw|].
  change (Join (w :: w' :: ws)) with (w +:+ " " +:+ Join (w' :: ws)). rewrite list_ascii_app. simpl String.list_ascii_of_string at 2.
  unfold Fields. pose proof (fun acc w r => fields_sep [sp] acc w r (separator1 sp eq_refl)) as Hsp. cbn [app] in Hsp. rewrite Hsp. fold (Fields (String.list_ascii_of_string w)). rewrite Hw. simpl. f_equal. exact IH.
Qed.

(** Decimal numbers. *)
Lemma digits_char x acc s : (x < 10)%N -> digits acc (String (pretty_N_char x) s) = digits (10 * acc + x)%N s.
Proof.
  intros H. assert (x = 0 \/ x = 1 \/ x = 2 \/ x = 3 \/ x = 4 \/ x = 5 \/ x = 6 \/ x = 7 \/ x = 8 \/ x = 9)%N as Hx by lia.
  by repeat (destruct Hx as [->|Hx]; [done|]); subst.
Qed.

Lemma digits_pretty_go x s : digits 0 (pretty_N_go x s) = digits x s.
Proof.
  revert s. induction x as [x IH] using (well_founded_induction N.lt_wf_0). intros s.
  destruct (decide (x = 0)%N) as [->|Hx]; [done|]. rewrite pretty_N_go_step by lia.
  rewrite IH by (apply N.div_lt; lia). rewrite digits_char by (apply N.mod_lt; lia).
  f_equal. pose proof (N.div_mod x 10). lia.
Qed.

Lemma digits_pretty (x : N) : digits 0 (pretty x) = Some x.
Proof.
  unfold pretty, pretty_N. destruct (decide (x = 0)%N) as [->|]; [done|]. by rewrite digits_pretty_go.
Qed.

Lemma pretty_go_nonempty y c s : pretty_N_go y (String c s) <> "".
Proof.
  revert c s. induction y as [y IH] using (well_founded_induction N.lt_wf_0). intros c s.
  destruct (decide (y = 0)%N) as [->|]; [by rewrite pretty_N_go_0|]. rewrite pretty_N_go_step by lia. apply IH, N.div_lt; lia.
Qed.

(** The first character of a number is a digit. *)
Lemma pretty_N_head (x : N) : exists c s, pretty x = String c s /\ between 48 57 (nat_of_ascii c) = true.
Proof.
  pose proof (digits_pretty x) as H. destruct (pretty x) as [|c s] eqn:E.
  - exfalso. unfold pretty, pretty_N in E. case_decide; [done|]. rewrite pretty_N_go_step in E by lia. by apply pretty_go_nonempty in E.
  - exists c, s. split; [done|]. simpl in H. by case_match.
Qed.

Lemma ParseInt_pretty (z : Z) : is_int64 z -> ParseInt (pretty z) = Some z.
Proof.
  intros Hz. unfold is_int64 in Hz. destruct z as [|p|p]; [done| |].
  - change (pretty (Z.pos p)) with (pretty (N.pos p)). destruct (pretty_N_head (N.pos p)) as (c & s & E & Hc).
    pose proof (digits_pretty (N.pos p)) as Hd. rewrite E in Hd |- *. unfold ParseInt.
    destruct (Ascii.eqb_spec c "-") as [->|_]; [done|]. destruct (Ascii.eqb_spec c "+") as [->|_]; [done|].
    simpl String.eqb. cbv iota. rewrite Hd. cbn [mbind option_bind].
    destruct (N.leb_spec (2 ^ 63) (N.pos p)); [|done]. change (2 ^ 63)%Z with (Z.of_N (2 ^ 63)) in Hz. lia.
  - change (pretty (Z.neg p)) with (String "-" (pretty (N.pos p))). unfold ParseInt.
    rewrite (Ascii.eqb_refl "-"). destruct (pretty_N_head (N.pos p)) as (c & s & E & Hc).
    pose proof (digits_pretty (N.pos p)) as Hd. rewrite E in Hd |- *. simpl String.eqb. cbv iota. rewrite Hd. cbn [mbind option_bind].
    destruct (N.ltb_spec (2 ^ 63) (N.pos p)); [|done]. change (2 ^ 63)%Z with (Z.of_N (2 ^ 63)) in Hz. lia.
Qed.

(** Printable ASCII makes a word. *)
Lemma fields_solid acc l : Forall (fun c => solid c = true) l -> fields acc l = word (acc ++ l).
Proof.
  intros H. revert acc. induction H as [|c l Hc Hl IH]; intros acc; [by rewrite app_nil_r|].
  rewrite fields_cons. assert (space1 c = false) as -> by (unfold solid in Hc; bool_to_prop; done).
  rewrite IH, <- app_assoc. cbn [app]. destruct l as [|d [|e l]]; [done|by rewrite (proj1 (solid_space2 c d Hc))|].
  by rewrite (proj1 (solid_space2 c d Hc)), (proj1 (solid_space3 c d e Hc)).
Qed.

Lemma solid_word w : w <> "" -> Forall (fun c => solid c = true) (String.list_ascii_of_string w) -> is_word w.
Proof.
  intros Hne H. unfold is_word, Fields. rewrite fields_solid by done. cbn [app].
  pose proof (String.string_of_list_ascii_of_string w) as E. unfold word. destruct (String.list_ascii_of_string w); [by rewrite <- E in Hne|by rewrite E].
Qed.

Lemma digits_solid acc s x : digits acc s = Some x -> Forall (fun c => solid c = true) (String.list_ascii_of_string s).
Proof.
  revert acc. induction s as [|c s IH]; intros acc H; [constructor|]. cbn [digits] in H. case_match eqn:Hc; [|done].
  cbn [String.list_ascii_of_string]. constructor; [|by eapply IH]. unfold between in Hc. unfold solid, space1. bool_to_prop.
  rewrite (proj2 (Nat.ltb_lt _ _)) by lia. rewrite andb_true_r. apply negb_true_iff, orb_false_iff.
  split; [apply andb_false_iff; right; apply Nat.leb_gt; lia|apply Nat.eqb_neq; lia].
Qed.

Lemma number_word (z : Z) : is_word (pretty z).
Proof.
  assert (forall x : N, is_word (pretty x)) as Hp.
  { intros x. destruct (pretty_N_head x) as (c & s & E & _). apply solid_word; [by rewrite E|].
    eapply digits_solid, digits_pretty. }
  destruct z as [|p|p]; [done|apply (Hp (N.pos p))|]. apply solid_word; [done|].
  change (pretty (Z.neg p)) with (String "-" (pretty (N.pos p))). cbn [String.list_ascii_of_string]. constructor; [done|].
  eapply digits_solid, digits_pretty.
Qed.

(** ** Words have no white space in them *)

Definition total_length (ws : list string) : nat := foldr (fun w n => length (String.list_ascii_of_string w) + n) 0 ws.

Lemma total_length_app l1 l2 : total_length (l1 ++ l2) = total_length l1 + total_length l2.
Proof. induction l1 as [|w l1 IH]; simpl; [done|]. rewrite IH. lia. Qed.

Lemma total_length_word acc : total_length (word acc) <= length acc.
Proof. destruct acc; simpl; [lia|]. rewrite String.list_ascii_of_string_of_list_ascii. lia. Qed.

Lemma fields_length acc l : total_length (fields acc l) <= length acc + length l.
Proof.
  revert acc. induction l as [l IH] using (induction_ltof1 _ (@length ascii)). unfold ltof in IH. intros acc.
  destruct l as [|c l]; [simpl; pose proof (total_length_word acc); lia|].
  assert (forall r, length r <= length l -> total_length (word acc ++ fields [] r) <= length acc + length (c :: l)) as Hw.
  { intros r Hr. rewrite total_length_app. pose proof (total_length_word acc). pose proof (IH r ltac:(simpl; lia) []). simpl in *. lia. }
  assert (total_length (fields (acc ++ [c]) l) <= length acc + length (c :: l)) as Hs.
  { pose proof (IH l ltac:(simpl; lia) (acc ++ [c])) as H. rewrite length_app in H. simpl in *. lia. }
  rewrite fields_cons. repeat case_match; subst; first [exact Hs|apply Hw; simpl; lia].
Qed.

Lemma is_word_clean w c : is_word w -> c ∈ String.list_ascii_of_string w -> space1 c = false.
Proof.
  intros Hw Hc. destruct (space1 c) eqn:E1; [|done]. exfalso. apply list_elem_of_split in Hc as (u & v & Hl).
  unfold is_word, Fields in Hw. change (c :: v) with ([c] ++ v) in Hl. rewrite Hl, (fields_sep [c]) in Hw by (by apply separator1).
  pose proof (fields_length [] u). pose proof (fields_length [] v). apply (f_equal total_length) in Hw.
  rewrite total_length_app in Hw. simpl in Hw. rewrite Hl, !length_app in Hw. simpl in *. lia.
Qed.

Lemma Join_elem c ws : c ∈ String.list_ascii_of_string (Join ws) ->
  c = sp \/ exists w, w ∈ ws /\ c ∈ String.list_ascii_of_string w.
Proof.
  induction ws as [|w ws IH]; [by intros ?%elem_of_nil|]. destruct ws as [|w' ws].
  - intros H. right. exists w. split; [constructor|done].
  - change (Join (w :: w' :: ws)) with (w +:+ " " +:+ Join (w' :: ws)). rewrite !list_ascii_app, !elem_of_app. simpl String.list_ascii_of_string at 2.
    rewrite list_elem_of_singleton. intros [H|[->|H]]; [right; exists w; split; [constructor|done]|by left|].
    destruct (IH H) as [?|(x & Hx & ?)]; [by left|]. right. exists x. split; [by constructor|done].
Qed.

(** What a user types for a command, and the commands that can be typed: the key
    and the words of a value have no white space in them. *)
Definition typed (c : Command) : string :=
  Join match CType c with
       | GET => ["get"; CKey c]
       | PUT => ["put"; CKey c; CVal c]
       | DEL => ["del"; CKey c]
       | TTL => ["ttl"; CKey c; pretty (CTTL c)]
       | _ => ["alv"]
       end.

Definition typable (c : Command) : Prop :=
  match CType c with
  | GET => is_word (CKey c) /\ c = mkCommand GET (CKey c) "" 0
  | PUT => is_word (CKey c) /\ CTTL c = 0%Z /\ exists vs, vs <> [] /\ Forall is_word vs /\ CVal c = Join vs
  | DEL => is_word (CKey c) /\ c = mkCommand DEL (CKey c) "" 0
  | TTL => is_word (CKey c) /\ is_int64 (CTTL c) /\ CVal c = ""
  | ALV => c = mkCommand ALV "" "" 0
  | JOIN | OtherCommand _ => False
  end.

(** The words of the line. *)
Lemma typed_words c : typable c ->
  exists w args, typed c = Join (w :: args) /\ Forall is_word (w :: args) /\ parseCommand (w :: args) = Ok c /\
    w ∈ ["get"; "put"; "del"; "ttl"; "alv"].
Proof.
  destruct c as [ty k v z]; unfold typable, typed; cbn [CType CKey CVal CTTL]. destruct ty; try done.
  - intros [Hk [= -> ->]]. exists "get", [k]. by repeat constructor.
  - intros (Hk & -> & [|v' vs] & Hne & Hvs & ->); [done|]. exists "put", (k :: v' :: vs).
    split; [done|]. split; [by constructor; [|constructor]|]. split; [done|repeat constructor].
  - intros [Hk [= -> ->]]. exists "del", [k]. by repeat constructor.
  - intros [= -> -> ->]. exists "alv", []. by repeat constructor.
  - intros (Hk & Hz & ->). exists "ttl", [k; pretty z]. split; [done|]. split; [by repeat constructor; [|apply number_word]|].
    split; [unfold parseCommand; simpl; by rewrite ParseInt_pretty|repeat constructor].
Qed.

(** A typed line has no line ends in it. *)
Lemma typed_clean c x : typable c -> x ∈ String.list_ascii_of_string (typed c) -> x = sp \/ space1 x = false.
Proof.
  intros Hc Hx. destruct (typed_words c Hc) as (w & args & Hj & Hw & _). rewrite Hj in Hx.
  destruct (Join_elem x _ Hx) as [->|(w' & Hin & Hxw)]; [by left|]. right. eapply is_word_clean; [|done].
  by eapply Forall_forall in Hin.
Qed.

(** What is typed is what is sent: the line that stands for a command (its key
    and the words of its value without white space, the number in decimal) parses
    to that command, however many blanks surround it. *)
Theorem typed_parses c before after :
  typable c -> Fields before = [] -> Fields after = [] ->
  parseCommand (Fields (TrimSpace (before ++ sp :: String.list_ascii_of_string (typed c) ++ sp :: after))) = Ok c.
Proof.
  intros Hc Hb Ha. pose proof (fun acc w r => fields_sep [sp] acc w r (separator1 sp eq_refl)) as Hsp. cbn [app] in Hsp.
  rewrite Fields_TrimSpace. unfold Fields in Hb, Ha |- *. rewrite !Hsp, Hb, Ha, app_nil_r.
  destruct (typed_words c Hc) as (w & args & Hj & Hw & Hp & _). apply Fields_Join in Hw. rewrite Hj. unfold Fields in Hw. by rewrite Hw.
Qed.

(** ** The shell does not panic *)

Lemma fields_acc_nonempty acc l : acc <> [] -> fields acc l <> [].
Proof.
  intros H. revert acc H. induction l as [|c l IH]; intros acc H; [by destruct acc|].
  assert (forall r, word acc ++ r <> []) as Hw by (by destruct acc).
  assert (acc ++ [c] <> []) as Hs by (by destruct acc). rewrite fields_cons. repeat case_match; auto.
Qed.

Lemma trimLeft_head l c l' : trimLeft space2 space3 l = c :: l' ->
  space1 c = false /\ (forall d l2, l' = d :: l2 -> space2 c d = false) /\ (forall d e l3, l' = d :: e :: l3 -> space3 c d e = false).
Proof.
  induction l as [l IH] using (induction_ltof1 _ (@length ascii)). unfold ltof in IH.
  destruct l as [|x l]; [done|]. cbn [trimLeft]. destruct (space1 x) eqn:E1; [apply IH; simpl; lia|].
  destruct l as [|y l]; [intros [= <- <-]; done|]. destruct (space2 x y) eqn:E2; [apply IH; simpl; lia|].
  destruct l as [|z l]; [intros [= <- <-]; split_and!; [done|congruence|done]|].
  destruct (space3 x y z) eqn:E3; [apply IH; simpl; lia|]. intros [= <- <-]. split_and!; congruence.
Qed.

(** What is left when the end is trimmed is a beginning. *)
Lemma trimLeft_suffix s2 s3 l : exists p, l = p ++ trimLeft s2 s3 l.
Proof.
  induction l as [l IH] using (induction_ltof1 _ (@length ascii)). unfold ltof in IH.
  destruct l as [|x l]; [by exists []|]. cbn [trimLeft].
  destruct (space1 x); [destruct (IH l) as [p Hp]; [simpl; lia|]; exists (x :: p); simpl; by rewrite <- Hp|].
  destruct l as [|y l]; [by exists []|].
  destruct (s2 x y); [destruct (IH l) as [p Hp]; [simpl; lia|]; exists (x :: y :: p); simpl; by rewrite <- Hp|].
  destruct l as [|z l]; [by exists []|].
  destruct (s3 x y z); [destruct (IH l) as [p Hp]; [simpl; lia|]; exists (x :: y :: z :: p); simpl; by rewrite <- Hp|].
  by exists [].
Qed.

Lemma Fields_trimmed l : TrimSpace l <> [] -> Fields (TrimSpace l) <> [].
Proof.
  unfold TrimSpace. set (m := trimLeft space2 space3 l). pose proof (trimLeft_head l) as Hh. fold m in Hh.
  destruct (trimLeft_suffix (fun c d => space2 d c) (fun c d e => space3 e d c) (rev m)) as [p Hp].
  apply (f_equal (@rev _)) in Hp. rewrite rev_involutive, rev_app_distr in Hp.
  destruct (rev (trimLeft _ _ (rev m))) as [|c t]; [done|]. intros _. rewrite Hp in Hh. cbn [app] in Hh.
  destruct (Hh c (t ++ rev p) eq_refl) as (H1 & H2 & H3).
  unfold Fields. rewrite fields_cons, H1. destruct t as [|d [|e t]].
  - by apply fields_acc_nonempty.
  - rewrite (H2 d _ eq_refl). by apply fields_acc_nonempty.
  - rewrite (H2 d _ eq_refl), (H3 d e _ eq_refl). by apply fields_acc_nonempty.
Qed.

Section shell.
Context {Wd Cn : Type} {NT : Net Wd Cn} {PJ : ProtoJson}.

Lemma repl_lines_total lines (s : session (Cn := Cn)) (wd : Wd) : is_Some (repl_lines lines s wd).
Proof.
  revert s wd. induction lines as [|text lines IH]; intros s wd; cbn [repl_lines]; [by eexists|].
  pose proof (Fields_trimmed text) as Hf. destruct (TrimSpace text) as [|c line].
  { destruct (IH s wd) as [[[[out q] s'] wd'] ->]. by eexists. }
  specialize (Hf ltac:(done)). destruct (Fields (c :: line)) as [|w ws]; [done|]. cbn [head mbind option_bind].
  case_match; [by eexists|].
  match goal with |- is_Some (match ?x with _ => _ end) => destruct x as [[o s1] wd1] end.
  destruct (IH s1 wd1) as [[[[out q] s'] wd'] ->]. by eexists.
Qed.
End shell.

(** ** Talking to servers *)

(** Reachable servers by address: the store of each, and what the world
    contributes to the requests to come. *)
Record Servers (St E : Type) : Type := mkServers { svNodes : gmap string St; svEnvs : nat -> E }.
Arguments mkServers {St E} _ _.
Arguments svNodes {St E} _.
Arguments svEnvs {St E} _.

Section servers.
Context {St E : Type} {ST : StoreIface St E} {PJ : ProtoJson} {PL : ProtoJsonLaws PJ}.
Context (io : string) (handle : E -> St -> bytes -> option (result bytes * St)).
Abbreviation Svs := (Servers St E).

Definition update (a : string) (s : St) (w : Svs) : Svs :=
  mkServers (<[a := s]> (svNodes w)) (fun k => svEnvs w (S k)).

(** A connection is the address it leads to. A server that stops reading closes
    the connection: the client reads nothing. *)
#[local] Instance servers_net : Net Svs string := {|
  net_dial _ a w := (match svNodes w !! a with Some _ => Ok a | None => Err IOError end, w);
  net_exchange a b w :=
    match svNodes w !! a with
    | None => (Err IOError, w)
    | Some s => match serveConn io handle (fun _ => (svEnvs w 0, true)) s b with
                | Some (line :: _, s') => (Ok line, update a s' w)
                | Some ([], s') => (Ok [], update a s' w)
                | None => (Err IOError, w)
                end
    end;
  net_close _ w := w
|}.

(** The handler executes the commands that it serves. *)
Definition executes (served : Command -> Prop) : Prop := forall e s b c,
  served c -> json_object b -> json_uncommand b = Some c ->
  handle e s b = ('(r, s') ← exec e s c; Some (match r with Ok c' => Serialize c' | Err x => Err x end, s')).

Context (served : Command -> Prop) (Hserved : executes served).
#[local] Set Default Proof Using "PL Hserved".

(** What [do] returns for an outcome. *)
Definition outcome (r : result Command) (res : result bytes) : Prop :=
  match r with
  | Ok c => exists b, res = Ok b /\ json_uncommand b = Some c
  | Err e => res = Err (Status (status_of io e).1 (status_of io e).2)
  end.

(** One exchange executes the command at that server, once. *)
Lemma send_exec a s c r s' (w : Svs) :
  served c -> sendable c -> svNodes w !! a = Some s -> exec (svEnvs w 0) s c = Some (r, s') -> reply_fits io r ->
  exists res, send_command a c w = (res, update a s' w) /\ outcome r res.
Proof.
  intros Hsv [Hf Hl] Ha He Hr. destruct (Serialize_ok (ST := ST) io c Hf) as (b & Es & Ej & Ho & Eu & _).
  unfold send_command. rewrite Es. cbn [net_exchange servers_net]. rewrite Ha. unfold serveConn.
  rewrite (scanLines_object (ST := ST) io) by auto. cbn [serveLines scanLines fst snd]. rewrite (Hserved _ s b c Hsv Ho Eu), He. cbn [mbind option_bind].
  eexists. split; [reflexivity|]. unfold SendCommand. rewrite Es.
  pose proof (reply_answers io r Hr) as Ha'. destruct r as [c'|e]; exact Ha'.
Qed.

(** A server that sends the client on to [next], and does nothing else. *)
Definition sends_on (c : Command) (s : St) (next : string) : Prop :=
  next <> "" /\ status_fits (CodeUnavailable, "not leader: " +:+ next) /\
  forall e, exec e s c = Some (Err (Status CodeUnavailable ("not leader: " +:+ next)), s).

(** The hints lead from [a] through [hops] to the last of them. *)
Fixpoint hints (c : Command) (w : Svs) (a : string) (hops : list string) : Prop :=
  match hops with
  | [] => True
  | next :: hops' => (exists s, svNodes w !! a = Some s /\ sends_on c s next) /\ hints c w next hops'
  end.

(** [k] requests later, with the same stores. *)
Definition later (k : nat) (w : Svs) : Svs := mkServers (svNodes w) (fun j => svEnvs w (k + j)).

Lemma hints_later c k w a hops : hints c w a hops -> hints c (later k w) a hops.
Proof using Type. revert a. induction hops as [|next hops IH]; intros a; [done|]. intros [? ?]. split; [done|by apply IH]. Qed.

Lemma update_same a s w : svNodes w !! a = Some s -> update a s w = later 1 w.
Proof using Type. intros H. unfold update, later. by rewrite insert_id. Qed.

(** A session whose connection, if any, leads to its address. *)
Definition attuned (s : session (Cn := string)) : Prop := sCl s = None \/ sCl s = Some (sAddr s).

Lemma dial_attuned s (w : Svs) : attuned s -> is_Some (svNodes w !! sAddr s) ->
  dial s w = (Ok (sAddr s), mkSession (sAddr s) (sCfg s) (Some (sAddr s)), w).
Proof using Type.
  intros [Hc|Hc] [x Hx]; unfold dial; rewrite Hc; [|by destruct s; simpl in *; subst]. cbn [net_dial servers_net]. by rewrite Hx.
Qed.

Lemma do_rounds_leader i c hops s (w : Svs) st r st' :
  let leader := default (sAddr s) (last hops) in
  served c -> sendable c -> attuned s -> length hops < i -> hints c w (sAddr s) hops ->
  svNodes w !! leader = Some st -> exec (svEnvs w (length hops)) st c = Some (r, st') -> reply_fits io r ->
  (forall e, r = Err e -> RedirectLeader (Status (status_of io e).1 (status_of io e).2) = None) ->
  exists res, do_rounds i c s w = (res, mkSession leader (sCfg s) (Some leader), update leader st' (later (length hops) w)) /\
    outcome r res.
Proof.
  intros leader Hsv Hc. subst leader. revert s w i. induction hops as [|next hops IH]; intros s w i Hat Hlen Hh Hl He Hr Hnr;
    (destruct i as [|i]; [simpl in Hlen; lia|]); cbn [do_rounds].
  - cbn [last default length] in Hl, He |- *. rewrite dial_attuned by done.
    destruct (send_exec (sAddr s) st c r st' w Hsv Hc Hl He Hr) as (res & -> & Ho). exists res. split; [|done].
    assert (later 0 w = w) as -> by (by destruct w). destruct r as [c'|e]; [by destruct Ho as (b & -> & _)|]. cbn [outcome] in Ho. subst res.
    by rewrite (Hnr e eq_refl).
  - destruct Hh as [(s1 & Hs1 & Hne & Hfit & Hex) Hh]. rewrite dial_attuned by done.
    destruct (send_exec (sAddr s) s1 c _ s1 w Hsv Hc Hs1 (Hex _)) as (res & -> & Ho); [by split|]. cbn [outcome status_of Error fst snd] in Ho. subst res.
    rewrite RedirectLeader_status by done. cbn [drop_conn sCl sCfg sAddr net_close servers_net]. rewrite update_same by done.
    assert (default (sAddr s) (last (next :: hops)) = default next (last hops)) as Hlast by (rewrite last_cons; by destruct (last hops)).
    rewrite Hlast in Hl |- *.
    destruct (IH (mkSession next (sCfg s) None) (later 1 w) i) as (res & Eres & Ho); [by left|simpl in Hlen; lia|by apply hints_later|done|done|done|done|].
    exists res. split; [|done]. exact Eres.
Qed.

(** C29: a command reaches the leader: wherever in the cluster a session points, when
    the servers' hints lead from there to the leader in fewer than eight steps,
    the network works, and the request is shorter than the 65536 bytes a server
    reads, [do] returns, with the leader's answer; the command has been executed
    there once and nowhere else, and the session stays with the leader for the
    commands to come. *)
Theorem session_reaches_leader c hops s (w : Svs) st r st' :
  let leader := default (sAddr s) (last hops) in
  served c -> sendable c -> attuned s -> length hops < maxRedirects -> hints c w (sAddr s) hops ->
  svNodes w !! leader = Some st -> exec (svEnvs w (length hops)) st c = Some (r, st') -> reply_fits io r ->
  (forall e, r = Err e -> RedirectLeader (Status (status_of io e).1 (status_of io e).2) = None) ->
  exists res s' w', do_command c s w = (res, s', w') /\ outcome r res /\
    sAddr s' = leader /\ attuned s' /\ svNodes w' = <[leader := st']> (svNodes w).
Proof.
  intros leader Hsv Hc Hat Hlen Hh Hl He Hr Hnr.
  destruct (do_rounds_leader maxRedirects c hops s w st r st' Hsv Hc Hat Hlen Hh Hl He Hr Hnr) as (res & Eres & Ho).
  do 3 eexists. split; [exact Eres|]. split; [done|]. split; [done|]. split; [by right|done].
Qed.

(** ** The shell *)

(** What the shell prints for a command and its outcome. *)
Definition shown (c : Command) (r : result Command) : Output :=
  match r with
  | Ok c' => OutLine match CType c with GET | ALV => CVal c' | _ => "OK" end
  | Err e => OutError (Status (status_of io e).1 (status_of io e).2)
  end.

Definition transcript (a : string) (cs : list Command) (rs : list (result Command)) : list Output :=
  concat (zip_with (fun c r => [OutPrompt a; shown c r]) cs rs) ++ [OutPrompt a].

(** A command that the shell can be asked for in one line. *)
Definition askable (c : Command) : Prop :=
  typable c /\ served c /\ sendable c /\ (N.of_nat (String.length (typed c)) < maxToken)%N.

Definition is_answer (r : result Command) : Prop :=
  reply_fits io r /\ forall e, r = Err e -> RedirectLeader (Status (status_of io e).1 (status_of io e).2) = None.

Lemma shell_line c text lines s (w : Svs) :
  typable c -> text = String.list_ascii_of_string (typed c) ->
  repl_lines (text :: lines) s w =
    let '(o, s', w') := match runOnce c s w with
                        | (Err e, s, w) => (OutError e, s, w)
                        | (Ok o, s, w) => (o, s, w)
                        end in
    '(out, q, s', w') ← repl_lines lines s' w'; Some (OutPrompt (sAddr s) :: o :: out, q, s', w').
Proof using Type.
  intros Hc ->. destruct (typed_words c Hc) as (x & args & Hj & Hw & Hp & Hx). apply Fields_Join in Hw. rewrite <- Hj in Hw.
  pose proof (Fields_TrimSpace (String.list_ascii_of_string (typed c))) as Ht. rewrite Hw in Ht.
  cbn [repl_lines]. destruct (TrimSpace _) as [|a line]; [done|]. rewrite Ht. cbn [head mbind option_bind]. rewrite Hp.
  assert (ToLower x = x /\ ToLower x ∉ ["exit"; "quit"; "help"; "?"]) as [-> Hn].
  { repeat (apply elem_of_cons in Hx as [->|Hx]; [split; [done|by apply (bool_decide_unpack _)]|]). by apply elem_of_nil in Hx. }
  rewrite !not_elem_of_cons in Hn. destruct Hn as (H1 & H2 & H3 & H4 & _).
  by rewrite !(proj2 (String.eqb_neq _ _)) by done.
Qed.

Lemma run_shown c s (w : Svs) st r st' :
  served c -> sendable c -> attuned s -> svNodes w !! sAddr s = Some st -> exec (svEnvs w 0) st c = Some (r, st') -> is_answer r ->
  exists s', attuned s' /\ sAddr s' = sAddr s /\
    match runOnce c s w with
    | (Err e, s, w) => (OutError e, s, w)
    | (Ok o, s, w) => (o, s, w)
    end = (shown c r, s', update (sAddr s) st' w).
Proof.
  intros Hsv Hc Hat Hst He [Hr Hnr].
  destruct (do_rounds_leader maxRedirects c [] s w st r st' Hsv Hc Hat) as (res & Eres & Ho); [unfold maxRedirects; simpl; lia|done..|].
  exists (mkSession (sAddr s) (sCfg s) (Some (sAddr s))). split; [by right|]. split; [done|].
  unfold runOnce, do_command. rewrite Eres. cbn [last default length]. assert (later 0 w = w) as -> by (by destruct w).
  destruct r as [c'|e]; cbn [outcome] in Ho; [|by subst res]. destruct Ho as (b & -> & Hb). unfold printResult, shown. rewrite Hb.
  by destruct (CType c).
Qed.

Lemma shell_lines a cs s (w : Svs) st rs st' :
  Forall askable cs -> attuned s -> sAddr s = a -> svNodes w !! a = Some st ->
  exec_all (fun k => (svEnvs w k, true)) st cs = Some (rs, st') -> Forall is_answer rs ->
  exists s' w', repl_lines (map (fun c => String.list_ascii_of_string (typed c)) cs) s w = Some (transcript a cs rs, false, s', w') /\
    sAddr s' = a /\ svNodes w' = <[a := st']> (svNodes w).
Proof.
  intros Hcs. revert s w st rs. induction Hcs as [|c cs (Hty & Hsv & Hsend & Hlen) Hcs IH]; intros s w st rs Hat Ha Hst He Hrs.
  { injection He as <- <-. exists s, w. simpl. rewrite Ha. split; [done|]. split; [done|]. by rewrite insert_id. }
  cbn [exec_all fst] in He. destruct (exec (svEnvs w 0) st c) as [[r st1]|] eqn:Ex; [|done]. cbn [mbind option_bind] in He.
  destruct (exec_all _ st1 cs) as [[rs1 st2]|] eqn:Er; [|done]. injection He as <- <-. apply Forall_cons in Hrs as [Hr Hrs].
  cbn [map]. rewrite (shell_line c) by done. subst a.
  destruct (run_shown c s w st r st1 Hsv Hsend Hat Hst Ex Hr) as (s1 & Hat1 & Ha1 & ->).
  destruct (IH s1 (update (sAddr s) st1 w) st1 rs1) as (s' & w' & -> & Ha' & Hw');
    [done|done|by cbn [update svNodes]; rewrite lookup_insert_eq|done|done|].
  exists s', w'. split; [done|]. split; [done|]. rewrite Hw'. cbn [update svNodes]. by rewrite insert_insert_eq.
Qed.

(** The lines of what was typed. *)
Definition typed_lines (cs : list Command) : bytes := concat (map (fun c => String.list_ascii_of_string (typed c) ++ [nl]) cs).

Lemma scan_typed cs : Forall askable cs ->
  scanLines [] 0 (typed_lines cs) = map (fun c => String.list_ascii_of_string (typed c)) cs /\ scanErr 0 (typed_lines cs) = false.
Proof using ST io PL.
  induction 1 as [|c cs (Hty & _ & _ & Hlen) Hcs [IH1 IH2]]; [done|]. unfold typed_lines in *. cbn [map concat].
  set (b := String.list_ascii_of_string (typed c)) in *. assert (N.of_nat (length b) < maxToken)%N as Hb.
  { unfold b. rewrite <- (String.string_of_list_ascii_of_string (typed c)) in Hlen. clear -Hlen. revert Hlen.
    generalize (String.list_ascii_of_string (typed c)). intros l. replace (String.length (String.string_of_list_ascii l)) with (length l); [done|].
    induction l; simpl; congruence. }
  assert (forall x, x ∈ b -> x <> nl /\ byte_is 13 x = false) as Hcl.
  { intros x Hx. destruct (typed_clean c x Hty Hx) as [->|Hs]; [done|]. split; [by intros ->|].
    apply Nat.eqb_neq. intros Hn. unfold space1 in Hs. by rewrite Hn in Hs. }
  assert (nl ∉ b) as Hnl by (intros Hin; by destruct (Hcl nl Hin)).
  rewrite <- app_assoc. cbn [app]. split.
  - rewrite (scanLines_line (ST := ST) (PL := PL) io) by (done || lia). rewrite IH1, app_nil_r. f_equal.
    unfold dropCR. destruct (rev b) as [|x t] eqn:Er; [by apply (f_equal (@rev _)) in Er; rewrite rev_involutive in Er|].
    assert (byte_is 13 x = false) as ->; [|by rewrite <- Er, rev_involutive].
    apply Hcl. apply list_elem_of_In, in_rev. rewrite Er. by left.
  - clear -IH2 Hb Hnl. assert (forall n l, (n + N.of_nat (length l) < maxToken)%N -> (nl ∉ l) -> scanErr n (l ++ nl :: typed_lines cs) = scanErr 0 (typed_lines cs)) as H.
    { intros n l. revert n. induction l as [|x l IH]; intros n Hn Hl; [done|]. apply not_elem_of_cons in Hl as [Hx Hl]. cbn [app scanErr].
      destruct (Ascii.eqb_spec x nl); [congruence|]. simpl in Hn. destruct (N.leb_spec maxToken (n + 1)); [lia|]. by rewrite IH by (done || lia). }
    unfold typed_lines in H. rewrite H by (done || lia). done.
Qed.

(** C9: the shell is the store, for commands that fit: what the shell prints when
    commands are typed into it, line by line, is for each command in turn what
    executing it on the server's store gives: the value, OK, or the error; and
    the store afterwards is the one that executing them gives. The commands are
    ones a line of words can spell and the handler serves; each typed line, and
    each request that it becomes, is shorter than the 65536 bytes a scanner
    takes (a longer request is lost, and an empty line is printed as if it had
    been executed: [oversized_command_lost]); every answer fits the codec, an
    error's code is not 0, and no error is a redirect to another server. *)
Theorem shell_refines a cfg cs (w : Svs) st rs st' :
  Forall askable cs -> svNodes w !! a = Some st ->
  exec_all (fun k => (svEnvs w k, true)) st cs = Some (rs, st') -> Forall is_answer rs ->
  exists s' w', repl (typed_lines cs) (mkSession a cfg None) w = Some (OutBanner a :: transcript a cs rs, None, s', w') /\
    sAddr s' = a /\ svNodes w' = <[a := st']> (svNodes w).
Proof.
  intros Hcs Hst He Hrs. destruct (scan_typed cs Hcs) as [H1 H2].
  destruct (shell_lines a cs (mkSession a cfg None) w st rs st' Hcs) as (s' & w' & E1 & Ha & Hw); [by left|done..|].
  unfold repl. rewrite H1, E1, H2. cbn [mbind option_bind]. by exists s', w'.
Qed.

(** ** Where the client falls short

    [SendCommand] takes the end of the stream for the end of a reply: when the
    server closes the connection without an answer, the reply is the empty text,
    which is not a status, and the command counts as done. A request that does not
    fit the server's scanner makes the server do that. *)

Lemma scanLines_long acc n b l : (nl ∉ b) -> (n < maxToken)%N -> (maxToken <= n + N.of_nat (length b))%N -> scanLines acc n (b ++ l) = [].
Proof using Type.
  revert acc n. induction b as [|x b IH]; intros acc n Hb H1 H2; [simpl in H2; lia|].
  apply not_elem_of_cons in Hb as [Hx Hb]. cbn [app scanLines]. destruct (Ascii.eqb_spec x nl); [congruence|].
  destruct (N.leb_spec maxToken (n + 1)); [done|]. apply IH; [done|lia|simpl in H2; lia].
Qed.

Theorem oversized_command_lost a cfg c b (w : Svs) st :
  cmd_fits c -> json_command c = Ok b -> (maxToken <= N.of_nat (length b))%N -> svNodes w !! a = Some st ->
  json_unstatus [] = None -> json_uncommand [] = None ->
  exists s' w', runOnce c (mkSession a cfg None) w = (Ok (OutLine ""), s', w') /\ svNodes w' = svNodes w.
Proof using PL.
  intros Hf Hb Hlen Ha Hs Hu. destruct (json_command_ok c Hf) as (b' & Hb' & (Hnl & _) & _). rewrite Hb in Hb'. injection Hb' as <-.
  exists (mkSession a cfg (Some a)), (update a st w).
  unfold runOnce, do_command, maxRedirects. cbn [do_rounds]. rewrite (dial_attuned (mkSession a cfg None)) by first [by left|by eexists].
  unfold send_command, SendCommand, Serialize. rewrite Hb. cbn [net_exchange servers_net sAddr sCfg]. rewrite Ha. unfold serveConn.
  rewrite scanLines_long by (done || (unfold maxToken in *; lia)). cbn [serveLines]. unfold Protocol.readReply. change (TrimSpace []) with (@nil ascii). cbv zeta. rewrite Hs.
  unfold printResult. rewrite Hu. split; [done|]. unfold update. cbn [svNodes]. by rewrite insert_id.
Qed.
End servers.

(** ** The handlers of the servers *)

Section handlers.
Context {PJ : ProtoJson} {PL : ProtoJsonLaws PJ}.

Lemma standalone_executes {St E : Type} {ST : StoreIface St E} :
  executes (St := St) (E := E) CacheyHandler_HandleRequest (fun _ => True).
Proof using PL. intros e s b c _ Hb Hc. by apply (HandleRequest_exec "" e s b c). Qed.

(** A command for a cluster node: not JOIN, and not about the registry. *)
Definition for_cluster (c : Command) : Prop := CType c <> JOIN /\ isRegistryKey (CKey c) = false.

Lemma cluster_executes {St E : Type} {ST : StoreIface St E} (quote : string -> string) :
  executes (St := St) (E := E) (ClusterHandler_HandleRequest quote) for_cluster.
Proof using PL.
  intros e s b c [Hj Hk] Hb Hc. rewrite <- (HandleRequest_exec "" e s b c Hb Hc). unfold ClusterHandler_HandleRequest.
  rewrite (DeSerialize_object (ST := ST) "" b c Hb Hc). by destruct (CType c); rewrite ?Hk.
Qed.

(** A node that does not lead sends the clients of its data to the address that it
    has for the leader. *)
Lemma follower_sends_on {I W FW SS MS : Type} {EI : ExpirationIndex I} {WF : Wal FW} {WW : Wal W} {SSS : SnapshotStore SS}
    {MSS : MetaStore MS} {J : Json} {EJ : EntriesJson} {CJ : ConfigJson} (cs : ClusterStore) c :
  IsLeader (cnode cs) = false -> (forall rec, exists b, json_record rec = Ok b) -> CType c ∈ [GET; PUT; DEL; TTL] ->
  cs_Leader cs <> "" -> status_fits (CodeUnavailable, "not leader: " +:+ cs_Leader cs) ->
  sends_on (ST := ClusterStore_iface (I := I) (W := W) (FW := FW) (SS := SS) (MS := MS)) c cs (cs_Leader cs).
Proof using Type.
  intros Hl Hj Hc Hne Hf. split; [done|]. split; [done|]. intros e.
  assert (redirectOr cs RaftNotLeader = Status CodeUnavailable ("not leader: " +:+ cs_Leader cs)) as Hr.
  { unfold redirectOr. cbn [st_leader ClusterStore_iface]. by rewrite (proj2 (String.eqb_neq _ _)). }
  assert (forall rec, propose e cs rec = Some (Some RaftNotLeader, cs)) as Hp.
  { intros rec. unfold propose, Propose. destruct (Hj rec) as [b ->]. rewrite Hl. cbn. by destruct cs. }
  unfold exec. cbn [st_get st_put st_delete st_ttl ClusterStore_iface]. unfold cs_Put, cs_Delete, cs_TTL, cs_Get, ReadIndex.
  rewrite !Hp, Hl, <- Hr. cbn [negb].
  repeat (apply elem_of_cons in Hc as [->|Hc]; [by destruct cs|]). by apply elem_of_nil in Hc.
Qed.
End handlers.

(** ** Concrete runs *)

Lemma typed_parses_witness :
  parseCommand (Fields (TrimSpace ([sp] ++ sp :: String.list_ascii_of_string "put greeting hello world" ++ sp :: []))) =
    Ok (mkCommand PUT "greeting" "hello world" 0).
Proof.
  apply (typed_parses (mkCommand PUT "greeting" "hello world" 0) [sp] []); [|reflexivity|reflexivity].
  split; [reflexivity|]. split; [reflexivity|]. exists ["hello"; "world"]. split; [discriminate|].
  split; [repeat constructor|reflexivity].
Defined.

(** The leader [a] of a cluster and its follower [b]. *)
Definition follower_store : ClusterStore :=
  SetLeaderResolver (NewClusterStore (ran_to (raft_run (store_node "b" ["a"; "c"])
    [IAppendEntries (mkAppendEntries 1 "a" 0 0 [noop 1] 0)]) (store_node "b" []))) (fun id => id).
Definition two_servers : Servers (ClusterStore (I := Index) (W := RaftWal) (FW := RaftWal) (SS := MemSnapshots) (MS := MemMeta)) Env :=
  mkServers (<["a" := lead_store]> {["b" := follower_store]}) (fun _ => ack_env).

#[local] Existing Instance servers_net.

Definition sample_quote (k : string) : string := k.
Definition put_kv : Command := mkCommand PUT "k" "v" 0.

Lemma put_kv_sendable : sendable put_kv.
Proof. split; [done|]. intros b Hb. vm_compute in Hb. injection Hb as <-. vm_compute. reflexivity. Qed.

Lemma session_reaches_leader_witness :
  exists res s' w', do_command (NT := servers_net "io" (ClusterHandler_HandleRequest sample_quote)) put_kv
      (mkSession "b" None None) two_servers = (res, s', w') /\
    sAddr s' = "a" /\ exists b, res = Ok b /\ json_uncommand b = Some put_kv.
Proof.
  destruct (cs_Put ack_env lead_store "k" "v") as [[[er|] c']|] eqn:Ep; [vm_compute in Ep; discriminate| |vm_compute in Ep; discriminate].
  destruct (session_reaches_leader "io" (ClusterHandler_HandleRequest sample_quote) for_cluster (cluster_executes sample_quote)
    put_kv ["a"] (mkSession "b" None None) two_servers lead_store (Ok put_kv) c') as (res & s' & w' & E1 & Ho & Ha & _).
  - split; [discriminate|reflexivity].
  - exact put_kv_sendable.
  - by left.
  - unfold maxRedirects. simpl. lia.
  - split; [|exact I]. exists follower_store. split; [reflexivity|].
    apply (follower_sends_on follower_store put_kv); [reflexivity|intros rec; by eexists|repeat constructor|discriminate|exact I].
  - reflexivity.
  - unfold exec. cbn [CType put_kv CKey CVal st_put ClusterStore_iface svEnvs two_servers length]. by rewrite Ep.
  - exact I.
  - discriminate.
  - exists res, s', w'. split; [exact E1|]. split; [exact Ha|exact Ho].
Defined.

Definition one_server : Servers MemStore (Z * Z) := mkServers {[":8080" := mem_store]} (fun _ => (10, 10)%Z).
Definition typed_session : list Command := [put_kv; mkCommand GET "k" "" 0; mkCommand GET "missing" "" 0].

Lemma shell_refines_witness :
  exists s' w', repl (NT := servers_net "io" CacheyHandler_HandleRequest) (typed_lines typed_session) (mkSession ":8080" None None) one_server =
    Some ([OutBanner ":8080"; OutPrompt ":8080"; OutLine "OK"; OutPrompt ":8080"; OutLine "v"; OutPrompt ":8080";
           OutError ErrorCodeInvalidKey; OutPrompt ":8080"], None, s', w').
Proof.
  destruct (exec_all (fun k => (svEnvs one_server k, true)) mem_store typed_session) as [[rs st']|] eqn:E; [|vm_compute in E; discriminate].
  assert (rs = [Ok put_kv; Ok (mkCommand GET "k" "v" 0); Err ErrorCodeInvalidKey]) as -> by (vm_compute in E; by injection E as <- _).
  destruct (shell_refines "io" CacheyHandler_HandleRequest (fun _ => True) standalone_executes ":8080" None typed_session one_server
    mem_store [Ok put_kv; Ok (mkCommand GET "k" "v" 0); Err ErrorCodeInvalidKey] st') as (s' & w' & H & _).
  - repeat constructor; try done; try (intros b Hb; vm_compute in Hb; injection Hb as <-; vm_compute; reflexivity).
    exists ["v"]. split; [done|]. split; [repeat constructor|done].
  - reflexivity.
  - exact E.
  - repeat constructor; try done. intros e [= <-]. reflexivity.
  - exists s', w'. exact H.
Defined.
