(* ===== verification/Cacheyd.v ===== *)
(** * The server command (cmd/cacheyd/main.go, cluster.go)

    What the flags select, the TLS material, and the start of a cluster node:
    opening it, bootstrapping or joining, the data server. Other processes, the
    network, the clock and the files with the PEM data are arguments. *)

From Stdlib Require Import Ascii.
From S2P Require Import Prelude WalTypes Os WalRecovery WalWriter BTree Expiration Store RaftLog Raft RaftThms Protocol Handler ClusterStore RaftNode Mtls.

#[local] Open Scope cachey_scope.

(** ** The TLS material (main.go) *)

Record resolvedTLS : Type := mkResolvedTLS {
  tlInsecure : bool; tlCA : bytes; tlCert : bytes; tlKey : bytes; tlAllow : gset string
}.

(** The flags after [flag.Parse] (the help text and unknown flags are the [flag]
    package's), and the other arguments. *)
Record DFlags : Type := mkDFlags {
  dfTLSCA : string; dfTLSCert : string; dfTLSKey : string; dfAllow : list string; dfInsecure : bool;
  dfConsensus : string; dfNodeID : string; dfClientAddr : string; dfRaftAddr : string; dfDataDir : string;
  dfBootstrap : bool; dfJoin : string; dfArgs : list string
}.

Definition nameList_Set (n : list string) (v : string) : list string := n ++ [v].

(** [os.Exit(1)] with a message. *)
Definition exit {A} (message : string) : result A := Err (Wrapped message).

Section tls.
Context {X : X509} (files : string -> result bytes).

Definition mustReadFile (path : string) : result bytes :=
  match files path with Ok b => Ok b | Err _ => exit "cacheyd: read file" end.

(** The loop that fills the set of permitted clients. *)
Fixpoint allow_names (allowed : gset string) (names : list string) : result (gset string) :=
  match names with
  | [] => Ok allowed
  | name :: names =>
      if negb (ValidName name) then exit "cacheyd: --allow-client is not a valid identity name"
      else allow_names ({[name]} ∪ allowed) names
  end.

Definition resolveTLS (insecure : bool) (caPath certPath keyPath : string) (allowClients : list string) : result resolvedTLS :=
  let given s := negb (String.eqb s "") in
  if insecure then
    if (given caPath || given certPath || given keyPath || (0 <? length allowClients)%nat)%bool
    then exit "cacheyd: --insecure-plaintext cannot be combined with mTLS flags"
    else Ok (mkResolvedTLS true [] [] [] ∅)
  else if (String.eqb caPath "" || String.eqb certPath "" || String.eqb keyPath "")%bool
  then exit "cacheyd: mTLS requires --tls-ca, --tls-cert and --tls-key"
  else if (length allowClients =? 0)%nat then exit "cacheyd: mTLS requires at least one --allow-client"
  else
    try allowed <- allow_names ∅ allowClients;
    try ca <- mustReadFile caPath;
    try cert <- mustReadFile certPath;
    try key <- mustReadFile keyPath;
    Ok (mkResolvedTLS false ca cert key allowed).

(** [None]: no options, plaintext. *)
Definition dataServerOpts (t : resolvedTLS) : result (option TlsConfig) :=
  if tlInsecure t then Ok None
  else match Server (tlCA t) (tlCert t) (tlKey t) (Some (fun identity => bool_decide (identity ∈ tlAllow t))) with
       | Ok cfg => Ok (Some cfg)
       | Err _ => exit "cacheyd: mtls"
       end.

(** ** What the flags select *)

Record clusterFlags : Type := mkClusterFlags {
  cfNodeID : string; cfClientAddr : string; cfRaftAddr : string; cfDataDir : string; cfBootstrap : bool; cfJoin : string
}.

(** The call that [main] makes. *)
Inductive Mode : Type :=
  | Standalone (addr dir : string) (opts : option TlsConfig)
  | RaftCluster (cf : clusterFlags) (tls : resolvedTLS).

Definition main (f : DFlags) : result Mode :=
  let given s := negb (String.eqb s "") in
  try tls <- resolveTLS (dfInsecure f) (dfTLSCA f) (dfTLSCert f) (dfTLSKey f) (dfAllow f);
  if String.eqb (dfConsensus f) "" then
    match dfArgs f with
    | [] => exit "usage"
    | addr :: rest =>
        if (1 <? length rest)%nat then exit "usage"
        else if (given (dfNodeID f) || given (dfClientAddr f) || given (dfRaftAddr f) || given (dfDataDir f) ||
                 dfBootstrap f || given (dfJoin f))%bool
        then exit "cacheyd: cluster flags require -consensus raft"
        else try opts <- dataServerOpts tls; Ok (Standalone addr (default "data" (head rest)) opts)
    end
  else if String.eqb (dfConsensus f) "raft" then
    if negb (length (dfArgs f) =? 0)%nat then exit "cacheyd: -consensus raft takes no positional address; use -client-addr"
    else if (negb (tlInsecure tls) && negb (ValidName (dfNodeID f)))%bool
    then exit "cacheyd: -node-id is not a valid DNS name"
    else Ok (RaftCluster (mkClusterFlags (dfNodeID f) (dfClientAddr f) (dfRaftAddr f) (dfDataDir f) (dfBootstrap f) (dfJoin f)) tls)
  else if String.eqb (dfConsensus f) "hotstuff" then exit "cacheyd: -consensus hotstuff is not implemented; use -consensus raft for now"
  else exit "cacheyd: unknown -consensus".
End tls.

(** ** Polling (cluster.go) *)

(** What a polled condition returns: nil, [errRetry], another error; or it does
    not return. *)
Inductive Cond : Type := CNil | CRetry | CErr (e : error) | CHang.

(** How [waitFor] ends; [WSpin]: it has not ended after as many polls as the fuel;
    [WHang]: a poll did not return, and the deadline is never looked at again. *)
Inductive Waited (S : Type) : Type := WDone (err : option error) (s : S) | WPanic | WSpin | WHang.
Arguments WDone {S} _ _.
Arguments WPanic {S}.
Arguments WSpin {S}.
Arguments WHang {S}.

Section waiting.
Context {S : Type} (what : string) (clk : nat -> Z) (cond : nat -> S -> option (Cond * S)).

(** The loop from poll [i] on; [clk (i + 1)] is the time that poll [i] compares
    with the deadline. A poll is followed by 200 ms of sleep. *)
Fixpoint wait_loop (fuel i : nat) (deadline : Z) (s : S) : Waited S :=
  match fuel with
  | O => WSpin
  | Datatypes.S fuel =>
      match cond i s with
      | None => WPanic
      | Some (CNil, s) => WDone None s
      | Some (CErr e, s) => WDone (Some (Wrapped what)) s
      | Some (CHang, _) => WHang
      | Some (CRetry, s) =>
          if (deadline <? clk (Datatypes.S i))%Z then WDone (Some (Wrapped ("timed out waiting for " +:+ what))) s
          else wait_loop fuel (Datatypes.S i) deadline s
      end
  end.

Definition waitFor (fuel : nat) (timeout : Z) (s : S) : Waited S := wait_loop fuel 0 (clk 0 + timeout)%Z s.
End waiting.

(** ** Joining (cluster.go) *)

Record joinTarget : Type := mkJoinTarget { jtID : string; jtAddr : string }.

(** [strings.Cut(s, "@")]. *)
Fixpoint Cut (s : string) : option (string * string) :=
  match s with
  | "" => None
  | String c s' => if Ascii.eqb c "@"%char then Some ("", s') else '(a, b) ← Cut s'; Some (String c a, b)
  end.

Definition parseJoinTarget (s : string) : result joinTarget :=
  match Cut s with
  | Some (id, addr) => if (String.eqb id "" || String.eqb addr "")%bool then Err (Wrapped "invalid -join") else Ok (mkJoinTarget id addr)
  | None => Err (Wrapped "invalid -join")
  end.

(** The fields that a joiner reads of a control reply, and [encoding/json] on the
    request and the reply. *)
Record JoinReply : Type := mkJoinReply { jrOK : string; jrLeader : string; jrAddr : string }.
Class JoinJson : Type := {
  json_join : JoinRequest -> result bytes;
  json_unreply : bytes -> option JoinReply
}.

Definition is_rpc (i : input) : bool :=
  match i with IRequestVote _ | IAppendEntries _ | IInstallSnapshot _ => true | _ => false end.

Definition hasWALData (d : Disk) : bool :=
  existsb (fun name => bool_decide (is_Some (d !! name))) [activeWALName; raftSnapshotName].

Section cluster.
Context {I FW W SS MS : Type}.
Context {EI : ExpirationIndex I} {WF : Wal FW} {WW : Wal W} {SSS : SnapshotStore SS} {MSS : MetaStore MS}.
Context {J : Json} {EJ : EntriesJson} {CJ : ConfigJson} {RJ : RaftFilesJson} {JJ : JoinJson} {X : X509}.
Abbreviation CS := (@ClusterStore I W FW SS MS).
Abbreviation Nd := (Node (Fsm I FW) W SS MS).

(** The node of this process, and whether [Run] has started its loops. *)
Record Live : Type := mkLive { lvCS : CS; lvStarted : bool }.

Definition Run (l : Live) : Live := mkLive (lvCS l) true.

(** What the node handles before it is polled: without its loops, only the RPCs of
    others. *)
Definition handle_inputs (ins : list input) (l : Live) : option Live :=
  n ← raft_run (cnode (lvCS l)) (if lvStarted l then ins else filter (fun i => is_rpc i = true) ins);
  Some (mkLive (with_node (lvCS l) n) (lvStarted l)).

(** What the world contributes to the start: what opens the node, the clock of each
    wait, the inputs before each poll and the environment of its write, the reply
    of an address to a control request ([None]: the call does not return), the
    listener of the data server. *)
Record World : Type := mkWorld {
  wOpen : RaftOpenEnv (I := I) (FW := FW) (W := W) (SS := SS) (MS := MS);
  wClk : nat -> Z;
  wInputs : nat -> list input;
  wEnvs : nat -> Env;
  wAnswer : nat -> string -> bytes -> option (result bytes);
  wListen : option error
}.

(** The resolver of a leader's id, reading the replicated member table. *)
Definition leader_resolver (n : Nd) (now now' : Z) (id : string) : string :=
  if String.eqb id "" then ""
  else match (s ← fstore (fsm n); fst <$> Store.Get s now now' (MemberKey id)) with
       | Some (Ok v) => v
       | _ => ""
       end.

(** A request's view of the node: the resolver reads the table as it is then. *)
Definition resolving (c : CS) (now now' : Z) : CS := SetLeaderResolver c (leader_resolver (cnode c) now now').

Definition register_cond (w : World) (id clientAddr : string) (i : nat) (l : Live) : option (Cond * Live) :=
  l ← handle_inputs (wInputs w i) l;
  if negb (IsLeader (cnode (lvCS l))) then Some (CRetry, l)
  else
    '(err, c) ← cs_Put (wEnvs w i) (lvCS l) (MemberKey id) clientAddr;
    Some (match err with
          | None => CNil
          | Some RaftNotLeader => CRetry
          | Some e => CErr e
          end, mkLive c (lvStarted l)).

Definition registerSelf (fuel : nat) (w : World) (id clientAddr : string) (l : Live) : Waited Live :=
  waitFor "this node to lead and register its client address" (wClk w) (register_cond w id clientAddr) fuel 30000 l.

(** [RegisterPeer] on the transport, whose address book is the node's. *)
Definition register_peer (t : joinTarget) (l : Live) : Live :=
  let n := cnode (lvCS l) in
  mkLive (with_node (lvCS l) (set_addrs (<[jtID t := jtAddr t]> (addrs n)) n)) (lvStarted l).

(** [SendControl] to the address that the book has for the peer. It writes and
    reads under deadlines, but takes no notice of its context, and the TLS
    handshake of a connection it opens has no deadline: it may not return. *)
Definition send_control (w : World) (i : nat) (l : Live) (peer : string) (payload : bytes) : option (result bytes) :=
  match addrs (cnode (lvCS l)) !! peer with
  | Some addr => wAnswer w i addr payload
  | None => Some (Err (Wrapped "raft: unknown peer"))
  end.

Definition join_cond (w : World) (payload : bytes) (i : nat) (tl : joinTarget * Live) : option (Cond * (joinTarget * Live)) :=
  let '(target, l) := tl in
  l ← handle_inputs (wInputs w i) l;
  let l := register_peer target l in
  Some match send_control w i l (jtID target) payload with
       | None => (CHang, (target, l))
       | Some (Err _) => (CRetry, (target, l))
       | Some (Ok reply) =>
           match json_unreply reply with
           | None => (CErr (Wrapped "json"), (target, l))
           | Some res =>
               if negb (String.eqb (jrOK res) "") then (CNil, (target, l))
               else if (negb (String.eqb (jrLeader res) "") && negb (String.eqb (jrAddr res) ""))%bool
               then (CRetry, (mkJoinTarget (jrLeader res) (jrAddr res), l))
               else (CRetry, (target, l))
           end
       end.

Definition joinCluster (fuel : nat) (w : World) (id raftAddr clientAddr contact : string) (l : Live) : Waited Live :=
  match parseJoinTarget contact with
  | Err e => WDone (Some e) l
  | Ok start =>
      match json_join (mkJoinRequest id raftAddr clientAddr) with
      | Err e => WDone (Some e) l
      | Ok payload =>
          match waitFor ("joining cluster through " +:+ jtID start +:+ "@" +:+ jtAddr start) (wClk w) (join_cond w payload) fuel 120000 (start, l) with
          | WDone e (_, l) => WDone e l
          | WPanic => WPanic
          | WSpin => WSpin
          | WHang => WHang
          end
      end
  end.

(** The poll of a node that waits to be caught up. *)
Definition caught_up_cond (w : World) (id clientAddr : string) (i : nat) (l : Live) : option (Cond * Live) :=
  l ← handle_inputs (wInputs w i) l;
  s ← fstore (fsm (cnode (lvCS l)));
  '(r, s') ← Store.Get s (now (wEnvs w i)) (now' (wEnvs w i)) (MemberKey id);
  let n := cnode (lvCS l) in
  let l := mkLive (with_node (lvCS l) (set_fsm (set_fstore (Some s') (fsm n)) n)) (lvStarted l) in
  Some (match r with
        | Ok v => if String.eqb v clientAddr then CNil else CRetry
        | Err _ => CRetry
        end, l).

(** ** The start of a cluster node *)

(** The inputs and clocks of the world after the first [k] polls. *)
Definition later (k : nat) (w : World) : World :=
  mkWorld (wOpen w) (fun i => wClk w (k + i)) (fun i => wInputs w (k + i)) (fun i => wEnvs w (k + i))
    (fun i => wAnswer w (k + i)) (wListen w).

(** How the start ends: ready to serve clients, with an error, or not at all
    ([Spins]: it polls on; [Hangs]: a poll does not return). *)
Inductive Launch : Type :=
  | Ready (l : Live) (opts : option TlsConfig)
  | Fails (e : error)
  | Panics
  | Spins
  | Hangs
  | Dies (d : Disk).

Definition and_then (r : Waited Live) (k : Live -> Launch) : Launch :=
  match r with
  | WDone None l => k l
  | WDone (Some e) _ => Fails e
  | WPanic => Panics
  | WSpin => Spins
  | WHang => Hangs
  end.

(** Only a member serves clients. *)
Definition serve_clients (w : World) (tls : resolvedTLS) (l : Live) : Launch :=
  match dataServerOpts tls with
  | Err e => Fails e
  | Ok opts => match wListen w with
               | Some _ => Fails (Wrapped "start client server")
               | None => Ready l opts
               end
  end.

Definition node_config (cf : clusterFlags) (tls : resolvedTLS) : RaftNodeConfig :=
  let pem b := if tlInsecure tls then [] else b in
  mkRaftNodeConfig (cfNodeID cf) (cfRaftAddr cf) [] 0 (pem (tlCA tls)) (pem (tlCert tls)) (pem (tlKey tls)).

(** The three ways of going live; [fuel] bounds the polls of each wait, and the
    second wait of the last one begins after as many. *)
Definition go_live (fuel : nat) (w : World) (cf : clusterFlags) (tls : resolvedTLS) (d : Disk) (raftAddr : string) (l : Live) : Launch :=
  if cfBootstrap cf then and_then (registerSelf fuel w (cfNodeID cf) (cfClientAddr cf) (Run l)) (serve_clients w tls)
  else if hasWALData d then
    and_then (joinCluster fuel w (cfNodeID cf) raftAddr (cfClientAddr cf) (cfJoin cf) (Run l)) (serve_clients w tls)
  else
    and_then (joinCluster fuel w (cfNodeID cf) raftAddr (cfClientAddr cf) (cfJoin cf) l) (fun l =>
      let w := later fuel w in
      and_then (waitFor "the cluster to catch this node up" (wClk w) (caught_up_cond w (cfNodeID cf) (cfClientAddr cf)) fuel 60000 (Run l))
        (serve_clients w tls)).

Definition runRaftCluster (fuel : nat) (w : World) (cf : clusterFlags) (tls : resolvedTLS) (s : Sys ()) : Launch :=
  if (String.eqb (cfNodeID cf) "" || String.eqb (cfClientAddr cf) "" || String.eqb (cfRaftAddr cf) "" || String.eqb (cfDataDir cf) "")%bool
  then Fails (Wrapped "-consensus raft requires -node-id, -client-addr, -raft-addr and -data-dir")
  else if (cfBootstrap cf && negb (String.eqb (cfJoin cf) ""))%bool then Fails (Wrapped "use either -bootstrap or -join, not both")
  else if (negb (cfBootstrap cf) && String.eqb (cfJoin cf) "")%bool then Fails (Wrapped "-consensus raft needs -bootstrap or -join")
  else match OpenRaftNode (wOpen w) (node_config cf tls) s with
       | Crashed d _ => Dies d
       | Done (Err e) _ => Fails e
       | Done (Ok rn) s' => go_live fuel w cf tls (disk s') (rnAddr rn) (mkLive (NewClusterStore (rnNode rn)) false)
       end.
End cluster.
