(* ===== verification/CacheydThms.v ===== *)
(** * The server command: plaintext, termination, joining *)

From S2P Require Import Prelude WalTypes WalCodec Os WalRecovery WalWriter BTree Expiration Store RaftLog Raft RaftThms RaftInstances Protocol Handler ClusterStore ClusterThms RaftNode RaftNodeThms Mtls Cacheyd.

#[local] Open Scope cachey_scope.

(** ** TLS *)

Lemma allow_names_ok allowed names allowed' :
  allow_names allowed names = Ok allowed' ->
  allowed' = allowed ∪ list_to_set names /\ Forall (fun name => ValidName name = true) names.
Proof.
  revert allowed. induction names as [|name names IH]; intros allowed; simpl; [intros [= ->]; split; [set_solver|constructor]|].
  destruct (ValidName name) eqn:E; [|done]. intros [-> ?]%IH. split; [set_solver|by constructor].
Qed.

Section tls.
Context {X : X509} (files : string -> result bytes).

(** What the options of a data server keep out, for the flags [f]. *)
Definition guarded (f : DFlags) (opts : option TlsConfig) : Prop :=
  match opts with
  | None => dfInsecure f = true /\ dfTLSCA f = "" /\ dfTLSCert f = "" /\ dfTLSKey f = "" /\ dfAllow f = []
  | Some cfg => dfInsecure f = false /\ exists ca, files (dfTLSCA f) = Ok ca /\
      forall rawCerts peer, handshake cfg rawCerts = Some peer ->
        PeerIdentity (Some peer) ∈ dfAllow f /\ ValidName (PeerIdentity (Some peer)) = true /\
        exists leaf, peer = [leaf] /\ chain_ok ca leaf = true
  end.

Lemma mustReadFile_ok path b : mustReadFile files path = Ok b -> files path = Ok b.
Proof. unfold mustReadFile. by destruct (files path). Qed.

Lemma resolve_guarded f tls opts :
  resolveTLS files (dfInsecure f) (dfTLSCA f) (dfTLSCert f) (dfTLSKey f) (dfAllow f) = Ok tls ->
  tlInsecure tls = dfInsecure f /\ (dataServerOpts tls = Ok opts -> guarded f opts).
Proof.
  unfold resolveTLS, dataServerOpts. destruct (dfInsecure f) eqn:Ei.
  - destruct (dfTLSCA f) eqn:E1, (dfTLSCert f) eqn:E2, (dfTLSKey f) eqn:E3, (dfAllow f) eqn:E4; try done.
    intros [= <-]. simpl. split; [done|]. intros [= <-]. done.
  - destruct (_ || _)%bool; [done|]. destruct (_ =? _)%nat; [done|].
    destruct (allow_names ∅ (dfAllow f)) as [allowed|] eqn:Ea; [|done]. apply allow_names_ok in Ea as [-> Hv]. simpl.
    destruct (mustReadFile files (dfTLSCA f)) as [ca|] eqn:Eca; [|done]. simpl. apply mustReadFile_ok in Eca.
    destruct (mustReadFile files (dfTLSCert f)) as [cert|]; [|done]. simpl.
    destruct (mustReadFile files (dfTLSKey f)) as [key|]; [|done]. intros [= <-]. simpl. split; [done|].
    destruct (Server _ _ _ _) as [cfg|] eqn:Es; [|done]. intros [= <-]. split; [done|]. exists ca. split; [done|].
    intros rawCerts peer Hh. destruct (handshake_identity _ _ _ _ _ _ _ Es Hh) as (_ & Hf & Hleaf).
    specialize (Hf _ eq_refl). apply bool_decide_eq_true in Hf.
    assert (PeerIdentity (Some peer) ∈ dfAllow f) as Hin by set_solver.
    split; [done|]. split; [|done]. by apply (proj1 (Forall_forall _ _) Hv).
Qed.
End tls.

(** ** Waiting *)

Section waiting.
Context {S : Type} (what : string) (clk : nat -> Z) (cond : nat -> S -> option (Cond * S)).

(** The readings after the first poll are the sleep apart. *)
Definition sleeps : Prop := (clk 0 <= clk 1)%Z /\ forall i, (clk (Datatypes.S i) + 200 <= clk (Datatypes.S (Datatypes.S i)))%Z.

Lemma sleeps_from i : sleeps -> (clk 0 + 200 * Z.of_nat i <= clk (Datatypes.S i))%Z.
Proof using Type. intros [H0 Hs]. induction i as [|i IH]; [lia|]. specialize (Hs i). lia. Qed.

(** Enough polls for a timeout in milliseconds. *)
Definition polls_for (timeout : Z) : nat := Z.to_nat (timeout / 200) + 2.

Lemma wait_loop_ends timeout fuel i s :
  sleeps -> (timeout < 200 * (Z.of_nat i + Z.of_nat fuel - 1))%Z -> 0 < fuel ->
  wait_loop what clk cond fuel i (clk 0 + timeout) s <> WSpin.
Proof using Type.
  intros Hs. revert i s. induction fuel as [|fuel IH]; intros i s Hf H0; [lia|]. cbn [wait_loop].
  destruct (cond i s) as [[[| |e|] s1]|]; try done. destruct (Z.ltb_spec (clk 0 + timeout) (clk (Datatypes.S i))) as [|Hle]; [done|].
  apply IH; [lia|]. pose proof (sleeps_from i Hs). lia.
Qed.

Lemma waitFor_ends timeout fuel s :
  sleeps -> (0 <= timeout)%Z -> polls_for timeout <= fuel -> waitFor what clk cond fuel timeout s <> WSpin.
Proof using Type.
  intros Hs Ht Hf. unfold polls_for in Hf. pose proof (Z.div_mod timeout 200 ltac:(lia)).
  pose proof (Z.mod_pos_bound timeout 200 ltac:(lia)). pose proof (Z.div_pos timeout 200 Ht ltac:(lia)).
  apply wait_loop_ends; [done|lia|lia].
Qed.

(** A wait that succeeded ended with a poll that returned nil. *)
Lemma wait_loop_ok fuel i deadline s s' :
  wait_loop what clk cond fuel i deadline s = WDone None s' -> exists j s0, cond j s0 = Some (CNil, s').
Proof using Type.
  revert i s. induction fuel as [|fuel IH]; intros i s; [done|]. cbn [wait_loop].
  destruct (cond i s) as [[[| |e|] s1]|] eqn:E; try done; [intros [= <-]; eauto|]. case_match; [done|]. apply IH.
Qed.

(** A wait hangs only in a poll. *)
Lemma wait_loop_hangs fuel i deadline s :
  wait_loop what clk cond fuel i deadline s = WHang -> exists j s0 s1, cond j s0 = Some (CHang, s1).
Proof using Type.
  revert i s. induction fuel as [|fuel IH]; intros i s; [done|]. cbn [wait_loop].
  destruct (cond i s) as [[[| |e|] s1]|] eqn:E; try done; [|eauto]. case_match; [done|]. apply IH.
Qed.

(** What holds of the state at every poll. *)
Lemma wait_loop_keeps (P : S -> Prop) fuel i deadline s r s' :
  (forall j s0 c s1, cond j s0 = Some (c, s1) -> P s0 -> P s1) ->
  wait_loop what clk cond fuel i deadline s = WDone r s' -> P s -> P s'.
Proof using Type.
  intros HP. revert i s. induction fuel as [|fuel IH]; intros i s; [done|]. cbn [wait_loop].
  destruct (cond i s) as [[[| |e|] s1]|] eqn:E; try done; [by intros [= <- <-]; eauto| |by intros [= <- <-]; eauto].
  case_match; [by intros [= <- <-]; eauto|]. intros Hw Hs. eauto.
Qed.
End waiting.

(** ** The start of a cluster node *)

Section cluster.
Context {I FW W SS MS : Type}.
Context {EI : ExpirationIndex I} {WF : Wal FW} {WW : Wal W} {SSS : SnapshotStore SS} {MSS : MetaStore MS}.
Context {J : Json} {EJ : EntriesJson} {CJ : ConfigJson} {RJ : RaftFilesJson} {JJ : JoinJson} {X : X509}.
Abbreviation World := (@World I FW W SS MS).
Abbreviation Live := (@Live I FW W SS MS).
Implicit Types (w : World) (l : Live).

Lemma load_file_disk {S A} path (dec : bytes -> option A) (s : Sys S) :
  ends (load_file path dec) s (fun _ s' => disk s' = disk s) (fun _ _ => True).
Proof.
  unfold load_file, read_if_exists. apply ends_bind. apply ends_bind. unfold ends at 1, exists_file. case_bool_decide; [|done].
  apply ends_bind. destruct H as [c Hc]. apply (ends_ReadFile _ c); [done|..|done]; intros; cbn [disk]; [|done]. apply ends_ret.
  by destruct (dec c).
Qed.

(** Opening a node has made its log. *)
Lemma open_makes_log (env : RaftOpenEnv) cfg (s : Sys ()) (rn : RaftNode (I := I) (FW := FW) (W := W) (SS := SS) (MS := MS)) s' :
  OpenRaftNode env cfg s = Done (Ok rn) s' -> hasWALData (disk s') = true.
Proof.
  set (P := fun (r : result (RaftNode (I := I) (FW := FW) (W := W) (SS := SS) (MS := MS))) s1 =>
    forall x, r = Ok x -> is_Some (disk (s1 : Sys ()) !! activeWALName)).
  assert (forall (n : Node (Fsm I FW) W SS MS) s0, ends (raft_open_wal n) s0 (fun r s1 => forall x, r = Ok x -> is_Some (disk s1 !! activeWALName)) (fun _ _ => True)) as Hopen.
  { intros n s0. unfold ends, raft_open_wal, Open. destruct ((idle;; _) _) as [[last|e] s1|]; [|done..].
    unfold openActive, OpenAppend, change, respond, mbind, sys_bind, modify. unfold script at 1. cbn [io disk mem].
    assert (is_Some (create activeWALName (disk s1) !! activeWALName)) as Hc.
    { unfold create. destruct (disk s1 !! activeWALName) eqn:E; [by rewrite E|]. by rewrite lookup_insert_eq. }
    destruct (outcomes (io s1)) as [|[] sc]; first [done|intros x _; exact Hc|intros x Hx; discriminate Hx]. }
  intros E. assert (ends (OpenRaftNode env cfg) s P (fun _ _ => True)) as He; [|unfold ends in He; rewrite E in He].
  - clear E. unfold OpenRaftNode. destruct (_ && _)%bool; [done|]. apply ends_bind.
    destruct (reListen env) as [bound|]; [|done]. apply ends_bind. destruct (NewNode _ _ _ _) as [n|]; [|done].
    apply ends_bind, ends_attempt. unfold ends at 1. destruct (SnapshotStore_Load _) as [snap s1|]; [|done]. apply ends_bind.
    assert (forall n1, ends (x ← raft_open_wal n1; let '(n2, w) := x in
      let n3 := SetLogStore (reAttach env w) n2 in
      let n4 := set_addrs (<[rcID cfg := bound]> (addrs n3)) n3 in
      let n5 := SetMetaStore (reMeta env) n4 in
      m ← attempt MetaStore_Load;
      let n6 := match m with Ok (Some m) => AdoptCommittedMeta n5 m | _ => n5 end in
      mret (mkRaftNode (rcID cfg) n6 w bound (raft_tls_wanted cfg))) s1 P (fun _ _ => True)) as Hrest.
    { intros n1. apply ends_bind. eapply ends_mono; [apply Hopen| |done]. intros [[n2 w]|e] s2 H2; [|done].
      apply ends_bind, ends_attempt. eapply ends_mono; [apply load_file_disk| |done]. intros r s3 H3. apply ends_ret.
      intros x _. rewrite H3. by eapply H2. }
    destruct snap as [[snap|]|e]; [|apply Hrest..]. destruct (RestoreSnapshot _ _) as [n1 [e|]]; [done|apply Hrest].
  - unfold hasWALData. simpl. by rewrite bool_decide_eq_true_2 by (by eapply He).
Qed.

(** ** Ready *)

Lemma and_then_ready r (k : Live -> Launch) l opts : and_then r k = Ready l opts -> exists l1, r = WDone None l1 /\ k l1 = Ready l opts.
Proof. destruct r as [[e|] l1| | |]; try done. intros H. by exists l1. Qed.

Lemma serve_clients_ready w tls l l' opts : serve_clients w tls l = Ready l' opts -> l' = l /\ dataServerOpts tls = Ok opts.
Proof. unfold serve_clients. destruct (dataServerOpts tls); [|done]. destruct (wListen w); [done|]. by intros [= -> ->]. Qed.

(** What a node that serves clients has achieved. *)
Definition registered w (cf : clusterFlags) (raftAddr : string) l : Prop :=
  if cfBootstrap cf then
    exists env c, IsLeader (cnode c) = true /\ cs_Put env c (MemberKey (cfNodeID cf)) (cfClientAddr cf) = Some (None, lvCS l)
  else exists i addr payload reply res,
    json_join (mkJoinRequest (cfNodeID cf) raftAddr (cfClientAddr cf)) = Ok payload /\
    wAnswer w i addr payload = Some (Ok reply) /\ json_unreply reply = Some res /\ jrOK res <> "".

Lemma registerSelf_ok fuel w id addr l l' :
  registerSelf fuel w id addr l = WDone None l' ->
  exists env c, IsLeader (cnode c) = true /\ cs_Put env c (MemberKey id) addr = Some (None, lvCS l').
Proof.
  intros (j & l0 & E)%wait_loop_ok. unfold register_cond in E. destruct (handle_inputs _ l0) as [l1|]; [|done]. cbn [mbind option_bind] in E.
  destruct (IsLeader (cnode (lvCS l1))) eqn:El; [|done]. cbn [negb] in E.
  destruct (cs_Put _ _ _ _) as [[err c]|] eqn:Ep; [|done]. cbn [mbind option_bind] in E.
  destruct err as [[]|]; try done. injection E as <-. by exists (wEnvs w j), (lvCS l1).
Qed.

Lemma joinCluster_ok fuel w id raftAddr addr contact l l' :
  joinCluster fuel w id raftAddr addr contact l = WDone None l' ->
  exists i a payload reply res, json_join (mkJoinRequest id raftAddr addr) = Ok payload /\
    wAnswer w i a payload = Some (Ok reply) /\ json_unreply reply = Some res /\ jrOK res <> "".
Proof.
  unfold joinCluster. destruct (parseJoinTarget contact) as [start|]; [|done]. destruct (json_join _) as [payload|]; [|done].
  destruct (waitFor _ _ _ _ _ _) as [e [t l1]| | |] eqn:E; [|done..]. intros [= -> ->]. apply wait_loop_ok in E as (j & [t0 l0] & E).
  unfold join_cond in E. destruct (handle_inputs _ l0) as [l1|]; [|done]. cbn [mbind option_bind] in E.
  unfold send_control in E. destruct (addrs _ !! jtID t0) as [a|]; [|done]. destruct (wAnswer w j a payload) as [[reply|]|] eqn:Ea; [|done..].
  destruct (json_unreply reply) as [res|] eqn:Er; [|done]. destruct (String.eqb_spec (jrOK res) "") as [Hok|Hok]; [by destruct (_ && _)%bool in E|].
  exists j, a, payload, reply, res. done.
Qed.

Lemma handle_inputs_started ins l l' : handle_inputs ins l = Some l' -> lvStarted l' = lvStarted l.
Proof. unfold handle_inputs. destruct (raft_run _ _); [|done]. by intros [= <-]. Qed.

Lemma registerSelf_started fuel w id addr l l' : registerSelf fuel w id addr l = WDone None l' -> lvStarted l = true -> lvStarted l' = true.
Proof.
  apply (wait_loop_keeps _ _ _ (fun l => lvStarted l = true)). intros j l0 c l1 E H. unfold register_cond in E.
  destruct (handle_inputs _ l0) as [l2|] eqn:Eh; [|done]. apply handle_inputs_started in Eh. cbn [mbind option_bind] in E.
  destruct (IsLeader _); cbn [negb] in E; [|injection E as _ <-; congruence].
  destruct (cs_Put _ _ _ _) as [[err c']|]; [|done]. injection E as _ <-. cbn [lvStarted]. congruence.
Qed.

Lemma joinCluster_started fuel w id raftAddr addr contact l l' :
  joinCluster fuel w id raftAddr addr contact l = WDone None l' -> lvStarted l = true -> lvStarted l' = true.
Proof.
  unfold joinCluster. destruct (parseJoinTarget contact) as [start|]; [|done]. destruct (json_join _) as [payload|]; [|done].
  destruct (waitFor _ _ _ _ _ _) as [e [t l1]| | |] eqn:E; [|done..]. intros [= -> ->]. revert E.
  apply (wait_loop_keeps _ _ _ (fun p : joinTarget * Live => lvStarted p.2 = true)). intros j [t0 l0] c [t2 l2] E H.
  unfold join_cond in E. destruct (handle_inputs _ l0) as [l3|] eqn:Eh; [|done]. apply handle_inputs_started in Eh. cbn [mbind option_bind snd] in *.
  assert (lvStarted (register_peer t0 l3) = true) as Hr by (cbn; congruence).
  injection E as E. repeat case_match; by injection E as <- <- <-.
Qed.

(** A node that opened its directory takes the second branch when it joins. *)
Lemma go_live_join fuel w cf tls d addr l :
  hasWALData d = true -> cfBootstrap cf = false ->
  go_live fuel w cf tls d addr l =
    and_then (joinCluster fuel w (cfNodeID cf) addr (cfClientAddr cf) (cfJoin cf) (Run l)) (serve_clients w tls).
Proof. intros Hd Hb. unfold go_live. by rewrite Hb, Hd. Qed.

Lemma launch_ready fuel w cf tls s l opts :
  runRaftCluster fuel w cf tls s = Ready l opts ->
  dataServerOpts tls = Ok opts /\ lvStarted l = true /\ exists raftAddr, registered w cf raftAddr l.
Proof.
  unfold runRaftCluster. do 3 (case_match; [done|]). destruct (OpenRaftNode _ _ s) as [[rn|e] s'|] eqn:Eo; [|done..].
  apply open_makes_log in Eo. unfold registered. destruct (cfBootstrap cf) eqn:Eb.
  - unfold go_live. rewrite Eb. intros (l1 & Er & [-> Ht]%serve_clients_ready)%and_then_ready. split; [done|].
    split; [by apply (registerSelf_started _ _ _ _ _ _ Er)|]. exists "". by eapply registerSelf_ok.
  - rewrite go_live_join by done. intros (l1 & Er & [-> Ht]%serve_clients_ready)%and_then_ready. split; [done|].
    split; [by apply (joinCluster_started _ _ _ _ _ _ _ _ Er)|]. exists (rnAddr rn). by eapply joinCluster_ok.
Qed.

(** A node that serves clients is a member: a cluster node offers its data server
    only when its loops run and it is registered: it wrote its client address as the
    leader and the write was acknowledged, or a node acknowledged its JOIN. *)
Theorem ready_registered fuel w cf tls s l opts :
  runRaftCluster fuel w cf tls s = Ready l opts -> lvStarted l = true /\ exists raftAddr, registered w cf raftAddr l.
Proof. by intros [_ H]%launch_ready. Qed.

(** C20: plaintext is never served by accident: whatever the flags, a data server
    without TLS, standalone or of a cluster node, was asked for with
    -insecure-plaintext and no TLS flag; otherwise each client it admits has a
    certificate of the given CA for a valid name that an -allow-client flag lists. *)
Theorem plaintext_asked files f mode :
  main files f = Ok mode ->
  match mode with
  | Standalone addr dir opts => guarded files f opts
  | RaftCluster cf tls => (dfInsecure f = false -> ValidName (cfNodeID cf) = true) /\
      forall fuel w s l opts, runRaftCluster fuel w cf tls s = Ready l opts -> guarded files f opts
  end.
Proof.
  unfold main. destruct (resolveTLS _ _ _ _ _ _) as [tls|] eqn:Et; [|done]. cbn [result_bind].
  assert (forall opts, dataServerOpts tls = Ok opts -> guarded files f opts) as Hg by (intros opts; by apply (resolve_guarded files f tls opts)).
  destruct (resolve_guarded files f tls None Et) as [Hi _]. destruct (String.eqb (dfConsensus f) "").
  - destruct (dfArgs f) as [|addr rest]; [done|]. do 2 (case_match; [done|]).
    destruct (dataServerOpts tls) as [opts|] eqn:Eo; [|done]. intros [= <-]. by apply Hg.
  - destruct (String.eqb (dfConsensus f) "raft"); [|by case_match]. case_match; [done|].
    destruct (negb (tlInsecure tls) && negb (ValidName (dfNodeID f)))%bool eqn:Ev; [done|]. intros [= <-]. split.
    + intros Hf. rewrite Hi, Hf in Ev. simpl in Ev. by apply negb_false_iff in Ev.
    + intros fuel w s l opts (Ho & _)%launch_ready. by apply Hg.
Qed.

(** A poll of a join hangs only when its control call does. *)
Lemma join_hangs w payload i tl tl' :
  join_cond w payload i tl = Some (CHang, tl') -> exists addr, wAnswer w i addr payload = None.
Proof.
  destruct tl as [t l]. unfold join_cond. destruct (handle_inputs _ l) as [l1|]; [|done]. cbn [mbind option_bind].
  unfold send_control. destruct (addrs _ !! jtID t) as [a|]; [|done].
  destruct (wAnswer w i a payload) as [[reply|]|] eqn:Ea; [|done|by exists a].
  destruct (json_unreply reply); [|done]. by repeat case_match.
Qed.

(** C16: the start of a cluster node ends, unless a control call does not return:
    with a clock that moves on while it sleeps, each wait gives up at its
    deadline, so after at most 602 polls the node serves, or has failed, panicked
    or crashed; it does not poll forever. The one exception is a node that joins
    and whose JOIN request to some member never returns (SendControl ignores its
    context, and the TLS handshake of a new connection has no deadline): then the
    wait does not look at its deadline again. A node that bootstraps has no
    exception. *)
Theorem cluster_start_ends fuel w cf tls s :
  sleeps (wClk w) -> 602 <= fuel ->
  match runRaftCluster fuel w cf tls s with
  | Spins => False
  | Hangs => cfBootstrap cf = false /\ exists i addr payload, wAnswer w i addr payload = None
  | _ => True
  end.
Proof.
  intros Hs Hf. unfold runRaftCluster. destruct (_ || _)%bool; [done|]. do 2 (destruct (_ && _)%bool; [done|]). destruct (OpenRaftNode _ _ s) as [[rn|e] s'|] eqn:Eo; [|done..].
  apply open_makes_log in Eo.
  assert (forall l, match serve_clients w tls l with Spins | Hangs => False | _ => True end) as Hsc.
  { intros l. unfold serve_clients. by repeat case_match. }
  destruct (cfBootstrap cf) eqn:Eb.
  - unfold go_live. rewrite Eb. destruct (registerSelf _ _ _ _ _) as [[e|] l1| | |] eqn:Er; cbn [and_then]; try done.
    + specialize (Hsc l1). by case_match.
    + revert Er. by apply waitFor_ends; [| |unfold polls_for; simpl; lia].
    + apply wait_loop_hangs in Er as (j & l0 & l1 & E). unfold register_cond in E.
      destruct (handle_inputs _ l0) as [l2|]; [|done]. cbn [mbind option_bind] in E. destruct (IsLeader _); [|done]. cbn [negb] in E.
      destruct (cs_Put _ _ _ _) as [[err c]|]; [|done]. by destruct err as [[]|].
  - rewrite go_live_join by done. unfold joinCluster. destruct (parseJoinTarget _); [|done]. destruct (json_join _); [|done].
    pose proof (waitFor_ends ("joining cluster through " +:+ jtID a +:+ "@" +:+ jtAddr a) (wClk w) (join_cond w a0) 120000 fuel
      (a, Run (mkLive (NewClusterStore (rnNode rn)) false)) Hs ltac:(lia)) as Hw.
    destruct (waitFor _ _ _ _ _ _) as [[e|] [t l1]| | |] eqn:Ew; cbn [and_then]; try done.
    + specialize (Hsc l1). by case_match.
    + apply Hw; [|done]. unfold polls_for. simpl. lia.
    + split; [done|]. apply wait_loop_hangs in Ew as (j & l0 & l1 & [addr E]%join_hangs). eauto.
Qed.

(** ** Joining through any member *)

(** [encoding/json] on control messages: the reply's encoding, what a joiner reads
    of it, and a request read back. *)
Context (json_control : ControlReply -> bytes) (decode : bytes -> option JoinRequest).
Context (reply_ok : forall id, json_unreply (json_control (Joined id)) = Some (mkJoinReply id "" "")).
Context (reply_redirect : forall leader addr, json_unreply (json_control (joinRedirect leader addr)) = Some (mkJoinReply "" leader addr)).

(** What a member answers over the transport; an error closes the connection. *)
Definition member_answer io wait env (c : @ClusterStore I W FW SS MS) (peer : string) (payload : bytes) : result bytes :=
  match HandleControl decode io wait env c peer payload with
  | Some (Ok r, _) => Ok (json_control r)
  | _ => Err IOError
  end.

(** A member that does not lead and knows who does. *)
Definition knows_leader (c : @ClusterStore I W FW SS MS) (leader addr : string) : Prop :=
  IsLeader (cnode c) = false /\ leaderID (cnode c) = leader /\ addrs (cnode c) !! leader = Some addr /\ leader <> "" /\ addr <> "".

(** A request under the node's own name, or without TLS. *)
Definition own_request (peer : string) (req : JoinRequest) : Prop :=
  (peer = "" \/ peer = jID req) /\ jID req <> "" /\ jRaft req <> "" /\ jClient req <> "".

Lemma follower_answer io wait env c peer payload req leader addr :
  decode payload = Some req -> own_request peer req -> knows_leader c leader addr ->
  member_answer io wait env c peer payload = Ok (json_control (joinRedirect leader addr)).
Proof using Type.
  intros Hd (Hp & Hi & Hr & Hc) (Hl & Hlid & Ha & Hn & Hna). unfold member_answer, HandleControl. rewrite Hd.
  apply String.eqb_neq in Hi, Hr, Hc, Hn, Hna.
  assert (joinID peer req = Ok (jID req)) as ->.
  { unfold joinID. destruct Hp as [->| ->]; [done|]. by rewrite Hi, String.eqb_refl. }
  rewrite Hi, Hr, Hc, Hl. simpl. unfold redirect. rewrite Hlid, Hn, Ha. simpl. by rewrite Hna.
Qed.

(** An acknowledgement names a node. *)
Lemma joined_name io wait env (c : @ClusterStore I W FW SS MS) peer payload id c' :
  HandleControl decode io wait env c peer payload = Some (Ok (Joined id), c') -> id <> "".
Proof using Type.
  unfold HandleControl. destruct (decode payload) as [req|]; [|done]. destruct (joinID peer req) as [id0|]; [|done].
  destruct (String.eqb_spec id0 "") as [|Hne]; [done|]. cbn [orb]. case_match; [done|]. case_match.
  { unfold redirect. by case_match. }
  destruct (if isMember _ _ then _ else _) as [[err c1]|]; [|done]. cbn [mbind option_bind]. destruct err; [done|].
  destruct (cs_Put _ _ _ _) as [[err c2]|]; [|done]. cbn [mbind option_bind]. destruct err; [done|]. by intros [= -> _].
Qed.

(** A poll whose request gets [reply]. *)
Lemma join_poll w payload i t l reply :
  handle_inputs (wInputs w i) l <> None -> wAnswer w i (jtAddr t) payload = Some reply ->
  exists l', addrs (cnode (lvCS l')) !! jtID t = Some (jtAddr t) /\
    join_cond w payload i (t, l) = Some match reply with
       | Err _ => (CRetry, (t, l'))
       | Ok reply =>
           match json_unreply reply with
           | None => (CErr (Wrapped "json"), (t, l'))
           | Some res =>
               if negb (String.eqb (jrOK res) "") then (CNil, (t, l'))
               else if (negb (String.eqb (jrLeader res) "") && negb (String.eqb (jrAddr res) ""))%bool
               then (CRetry, (mkJoinTarget (jrLeader res) (jrAddr res), l'))
               else (CRetry, (t, l'))
           end
       end.
Proof.
  intros Hh Hr. unfold join_cond. destruct (handle_inputs _ l) as [l1|]; [|done]. exists (register_peer t l1).
  assert (addrs (cnode (lvCS (register_peer t l1))) !! jtID t = Some (jtAddr t)) as Ha by apply lookup_insert_eq.
  split; [done|]. cbn [mbind option_bind]. unfold send_control. by rewrite Ha, Hr.
Qed.

(** A node finds the leader through any member: when the member named by -join
    comes up after [m] failed polls and knows the leader, its redirect is followed,
    and if the leader's control handler then accepts the node, joining succeeds at
    once; the leader is in the node's address book. The answers are those of the
    members' control handlers. *)
Theorem join_reaches_leader io wait env wait' env' w peer req payload contact fid faddr follower leader lid laddr m fuel l :
  json_join req = Ok payload -> decode payload = Some req -> own_request peer req ->
  parseJoinTarget contact = Ok (mkJoinTarget fid faddr) -> knows_leader follower lid laddr ->
  (exists id c', HandleControl decode io wait' env' leader peer payload = Some (Ok (Joined id), c')) ->
  (forall i, i < m -> exists e, wAnswer w i faddr payload = Some (Err e)) ->
  wAnswer w m faddr payload = Some (member_answer io wait env follower peer payload) ->
  wAnswer w (S m) laddr payload = Some (member_answer io wait' env' leader peer payload) ->
  (forall i l, handle_inputs (wInputs w i) l <> None) ->
  (forall i, i <= m -> (wClk w (S i) <= wClk w 0 + 120000)%Z) -> m + 2 <= fuel ->
  exists l', joinCluster fuel w (jID req) (jRaft req) (jClient req) contact l = WDone None l' /\
    addrs (cnode (lvCS l')) !! lid = Some laddr.
Proof using reply_ok reply_redirect.
  intros Hj Hdec Hown Hparse Hknows Hlead Hdown Hmem Hleader Hin Hclk Hfuel.
  unfold joinCluster. rewrite Hparse. destruct req as [id ra ca]. cbn [jID jRaft jClient]. rewrite Hj.
  rewrite (follower_answer io wait env follower peer payload _ lid laddr Hdec Hown Hknows) in Hmem.
  assert (exists id', id' <> "" /\ wAnswer w (S m) laddr payload = Some (Ok (json_control (Joined id')))) as (id' & Hid' & Hok).
  { destruct Hlead as (id' & c' & E). exists id'. split; [by eapply joined_name|]. rewrite Hleader. unfold member_answer. by rewrite E. }
  set (what := _ +:+ _). unfold waitFor. set (dl := (wClk w 0 + 120000)%Z) in *.
  destruct Hknows as (_ & _ & _ & Hn & Hna). apply String.eqb_neq in Hn, Hna, Hid'.
  assert (forall j l, j <= m -> forall fuel, m - j + 2 <= fuel ->
    exists l', wait_loop what (wClk w) (join_cond w payload) fuel j dl (mkJoinTarget fid faddr, l) = WDone None (mkJoinTarget lid laddr, l') /\
      addrs (cnode (lvCS l')) !! lid = Some laddr) as Hloop.
  { intros j. induction (m - j) as [|k IH] eqn:Ek in j |- *; intros l0 Hjm fuel0 Hf0.
    - assert (j = m) as -> by lia. destruct fuel0 as [|[|fuel0]]; [lia..|]. cbn [wait_loop].
      destruct (join_poll w payload m (mkJoinTarget fid faddr) l0 _ (Hin m l0) Hmem) as (l1 & _ & ->). cbn [jtAddr jtID].
      rewrite reply_redirect. cbn [jrOK jrLeader jrAddr]. rewrite Hn, Hna. cbn [negb andb String.eqb].
      rewrite (proj2 (Z.ltb_ge _ _) (Hclk m ltac:(lia))). cbn [wait_loop].
      destruct (join_poll w payload (S m) (mkJoinTarget lid laddr) l1 _ (Hin _ l1) Hok) as (l2 & Ha & ->).
      rewrite reply_ok. cbn [jrOK]. rewrite Hid'. by exists l2.
    - destruct fuel0 as [|fuel0]; [lia|]. cbn [wait_loop]. destruct (Hdown j ltac:(lia)) as [e He].
      destruct (join_poll w payload j (mkJoinTarget fid faddr) l0 _ (Hin j l0) He) as (l1 & _ & ->).
      rewrite (proj2 (Z.ltb_ge _ _) (Hclk j ltac:(lia))). apply IH; lia. }
  destruct (Hloop 0 l ltac:(lia) fuel ltac:(lia)) as (l' & -> & Ha). by exists l'.
Qed.
End cluster.

(** ** Concrete starts *)

(** PEM data that is a name; every key pair and chain is good. *)
Definition DemoX509 : X509 := {|
  append_certs b := negb (length b =? 0)%nat; key_pair _ _ := None;
  parse_cert b := Some (mkCertificate [String.string_of_list_ascii b]); chain_ok _ _ := true
|}.

Definition DemoJoinJson : JoinJson := {|
  json_join r := Ok (write_bits (encode (jID r, jRaft r, jClient r)));
  json_unreply b := '(ok, leader, addr) ← read_value b; Some (mkJoinReply ok leader addr)
|}.
Definition demo_control (r : ControlReply) : bytes :=
  write_bits (encode match r with Joined id => (id, "", "") | joinRedirect leader addr => ("", leader, addr) end).
Definition demo_decode (b : bytes) : option JoinRequest := '(i, r, c) ← read_value b; Some (mkJoinRequest i r c).

Lemma demo_read {A} `{Countable A} (a : A) : read_value (write_bits (encode a)) = Some a.
Proof. unfold read_value. rewrite read_write_bits. apply decode_encode. Qed.

Lemma demo_reply_ok id : json_unreply (JoinJson := DemoJoinJson) (demo_control (Joined id)) = Some (mkJoinReply id "" "").
Proof. unfold json_unreply, DemoJoinJson, demo_control. by rewrite demo_read. Qed.
Lemma demo_reply_redirect leader addr :
  json_unreply (JoinJson := DemoJoinJson) (demo_control (joinRedirect leader addr)) = Some (mkJoinReply "" leader addr).
Proof. unfold json_unreply, DemoJoinJson, demo_control. by rewrite demo_read. Qed.

Abbreviation DemoWorld := (@World Index RaftWal RaftWal MemSnapshots MemMeta).

(** A clock that each poll finds 200 ms later, and what a node handles first. *)
Definition demo_world (ins : nat -> list input) (answer : nat -> string -> bytes -> option (result bytes)) : DemoWorld :=
  mkWorld sample_env (fun i => 200 * Z.of_nat i)%Z ins (fun _ => mkEnv [] [] false 10 10) answer None.

Lemma demo_sleeps ins answer : sleeps (wClk (demo_world ins answer)).
Proof. split; [done|]. intros i. simpl. lia. Qed.

Definition plain : resolvedTLS := mkResolvedTLS true [] [] [] ∅.
Definition boot_flags : clusterFlags := mkClusterFlags "a" "c" "r" "d" true "".

(** The first node: it elects itself before the second poll, registers and serves. *)
Definition boot_world : DemoWorld :=
  demo_world (fun i => if decide (i = 1) then [IBecomeCandidate; IStartElection] else []) (fun _ _ _ => Some (Err IOError)).

Lemma ready_registered_witness :
  exists l, runRaftCluster (JJ := DemoJoinJson) (X := DemoX509) 3 boot_world boot_flags plain (boot ∅ [] ()) = Ready l None /\
    lvStarted l = true /\ exists raftAddr, registered (JJ := DemoJoinJson) boot_world boot_flags raftAddr l.
Proof.
  destruct (runRaftCluster (JJ := DemoJoinJson) (X := DemoX509) 3 boot_world boot_flags plain (boot ∅ [] ())) as [l opts| | | | |] eqn:E;
    try (vm_compute in E; discriminate).
  assert (opts = None) as -> by (vm_compute in E; by injection E).
  exists l. split; [done|]. exact (ready_registered (JJ := DemoJoinJson) (X := DemoX509) _ _ _ _ _ _ _ E).
Defined.

(** Nobody answers a JOIN: the node gives up. *)
Definition join_flags : clusterFlags := mkClusterFlags "c" "c" "r" "d" false "b@addr-b".

Lemma cluster_start_ends_witness :
  match runRaftCluster (JJ := DemoJoinJson) (X := DemoX509) 602 (demo_world (fun _ => []) (fun _ _ _ => Some (Err IOError))) join_flags plain (boot ∅ [] ())
  with Spins | Hangs => False | _ => True end.
Proof.
  pose proof (cluster_start_ends (JJ := DemoJoinJson) (X := DemoX509) 602 (demo_world (fun _ => []) (fun _ _ _ => Some (Err IOError))) join_flags plain
    (boot ∅ [] ()) (demo_sleeps _ _) ltac:(lia)) as H.
  match type of H with match ?x with _ => _ end => destruct x end; try exact H; try exact I.
  destruct H as (_ & i & addr & payload & H). discriminate H.
Defined.

(** A member that accepts the connection and never completes the handshake: the
    join has no end. *)
Example join_hangs_forever :
  runRaftCluster (JJ := DemoJoinJson) (X := DemoX509) 602 (demo_world (fun _ => []) (fun _ _ _ => None)) join_flags plain (boot ∅ [] ()) = Hangs.
Proof. vm_compute. reflexivity. Qed.

(** ** A node that restarts and announces itself through a follower *)

Definition demo_request : JoinRequest := mkJoinRequest "c" "addr-c" "client-c".
Definition demo_payload : bytes := write_bits (encode ("c", "addr-c", "client-c")).

Definition demo_follower : ClusterStore :=
  NewClusterStore (set_addrs {["a" := "addr-a"]}
    (ran_to (raft_run (store_node "b" ["a"; "c"]) [IAppendEntries (mkAppendEntries 1 "a" 0 0 [noop 1] 0)]) (store_node "b" []))).

(** The leader's write of the member table is acknowledged by [b]. *)
Definition demo_env : Env :=
  mkEnv [[IAppendReply "b" (mkAppendEntries 1 "a" 1 1 [mkEntry 1 (Some (put_command "member/c" "client-c")) None] 1)
            (mkAppendEntriesReply 1 true)]] [] false 10 10.

Definition demo_answer (i : nat) (addr : string) (payload : bytes) : option (result bytes) :=
  Some (if decide (i < 2) then Err IOError
  else if decide (addr = "addr-b") then member_answer demo_control demo_decode "io" [] demo_env demo_follower "c" payload
  else if decide (addr = "addr-a") then member_answer demo_control demo_decode "io" [] demo_env lead_store "c" payload
  else Err IOError).

Lemma join_reaches_leader_witness :
  exists l', joinCluster (JJ := DemoJoinJson) 4 (demo_world (fun _ => []) demo_answer) "c" "addr-c" "client-c" "b@addr-b"
      (mkLive (NewClusterStore (store_node "c" ["a"; "b"])) true) = WDone None l' /\
    addrs (cnode (lvCS l')) !! "a" = Some "addr-a".
Proof.
  apply (join_reaches_leader (JJ := DemoJoinJson) demo_control demo_decode demo_reply_ok demo_reply_redirect
    "io" [] demo_env [] demo_env (demo_world (fun _ => []) demo_answer) "c" demo_request demo_payload "b@addr-b" "b" "addr-b"
    demo_follower lead_store "a" "addr-a" 2 4).
  - reflexivity.
  - unfold demo_decode, demo_payload. by rewrite demo_read.
  - split; [by right|done].
  - reflexivity.
  - split_and!; [vm_compute; reflexivity..|done|done].
  - destruct (HandleControl demo_decode "io" [] demo_env lead_store "c" demo_payload) as [[[[id|]|e] c']|] eqn:E; try (vm_compute in E; discriminate).
    by exists id, c'.
  - intros i Hi. exists IOError. simpl. unfold demo_answer. by rewrite decide_True.
  - reflexivity.
  - reflexivity.
  - by intros i [c []].
  - intros i Hi. simpl. lia.
  - lia.
Defined.

(** Flags for a server with TLS, and without by request. *)
Definition demo_files (path : string) : result bytes := Ok (String.list_ascii_of_string path).
Definition tls_flags : DFlags := mkDFlags "ca" "cert" "key" ["alice"; "bob"] false "" "" "" "" "" false "" ["addr"; "dir"].

Lemma plaintext_asked_witness :
  exists cfg, main (X := DemoX509) demo_files tls_flags = Ok (Standalone "addr" "dir" (Some cfg)) /\
    guarded (X := DemoX509) demo_files tls_flags (Some cfg) /\
    handshake (X := DemoX509) cfg [String.list_ascii_of_string "eve"] = None /\
    is_Some (handshake (X := DemoX509) cfg [String.list_ascii_of_string "bob"]).
Proof.
  destruct (main (X := DemoX509) demo_files tls_flags) as [[addr dir [cfg|]|]|] eqn:E; try discriminate E.
  exists cfg. pose proof (plaintext_asked (I := Index) (FW := RaftWal) (W := RaftWal) (SS := MemSnapshots) (MS := MemMeta) (JJ := DemoJoinJson) (X := DemoX509)
    demo_files tls_flags _ E) as H.
  injection E as <- <- <-. split; [done|]. split; [exact H|]. split; [vm_compute; reflexivity|vm_compute; eauto].
Defined.

(** ** Where the start falls short

    Opening the node creates its log, so the test for a log afterwards always
    succeeds and a brand-new node runs its election loop before any leader has
    added it: on an empty directory it can lead a cluster of itself, with an entry of
    its own committed, at the moment its JOIN is acknowledged. *)
Definition newcomer_world : DemoWorld :=
  demo_world (fun i => if decide (i = 0) then [IBecomeCandidate; IStartElection] else []) (fun _ _ _ => Some (Ok (demo_control (Joined "c")))).

Theorem newcomer_leads_itself :
  exists l, runRaftCluster (JJ := DemoJoinJson) (X := DemoX509) 3 newcomer_world join_flags plain (boot ∅ [] ()) = Ready l None /\
    IsLeader (cnode (lvCS l)) = true /\ peers (cnode (lvCS l)) = [] /\ commitIndex (cnode (lvCS l)) = 1.
Proof. vm_compute. eexists. split; [reflexivity|]. by split_and!. Qed.
