(* ===== verification/RaftTransport.v ===== *)
(** * The Raft transport (internal/raft/tcp_transport.go)

    Requests and replies are JSON objects, one per line. The serving side is a
    function of the bytes that a connection brings. The calling side is shared by
    many goroutines: its state is the table of per-peer connections, each with its
    mutex, and a call is a sequence of steps, each of which is what happens between
    taking and releasing a lock; steps of different calls interleave. The network
    is what the peer sends back and how a read or write ends. *)

From Stdlib Require Import Ascii.
From S2P Require Import Prelude WalTypes RaftLog Raft Mtls.

(** ** Messages *)

Inductive Rpc : Type :=
  | RpcVote (args : RequestVote) | RpcAppend (args : AppendEntries) | RpcSnapshot (args : InstallSnapshot).

Inductive RpcReply : Type :=
  | ReVote (r : RequestVoteReply) | ReAppend (r : AppendEntriesReply) | ReSnapshot (r : InstallSnapshotReply).

(** What a peer can be asked: an RPC of the node, or an application control
    message, whose payload is opaque. *)
Inductive Request : Type := ReqRpc (r : Rpc) | ReqCtl (raw : bytes).
Inductive Response : Type := RespRpc (r : RpcReply) | RespCtl (raw : bytes).

Definition kindRequestVote : string := "RequestVote".
Definition kindRequestVoteReply : string := "RequestVoteReply".
Definition kindAppendEntries : string := "AppendEntries".
Definition kindAppendEntriesReply : string := "AppendEntriesReply".
Definition kindInstallSnapshot : string := "InstallSnapshot".
Definition kindInstallSnapReply : string := "InstallSnapshotReply".
Definition kindCtl : string := "ctl".
Definition kindCtlReply : string := "ctl-reply".

Definition request_kind (r : Request) : string :=
  match r with
  | ReqRpc (RpcVote _) => kindRequestVote
  | ReqRpc (RpcAppend _) => kindAppendEntries
  | ReqRpc (RpcSnapshot _) => kindInstallSnapshot
  | ReqCtl _ => kindCtl
  end.

(** The kind that a call expects its reply to have. *)
Definition reply_kind (r : Request) : string :=
  match r with
  | ReqRpc (RpcVote _) => kindRequestVoteReply
  | ReqRpc (RpcAppend _) => kindAppendEntriesReply
  | ReqRpc (RpcSnapshot _) => kindInstallSnapReply
  | ReqCtl _ => kindCtlReply
  end.

Record wireMsg : Type := mkWireMsg { wmKind : string; wmData : bytes }.

(** [encoding/json] on the envelope and on the messages. [json_compact] is what the
    payload of an envelope has become when it is read again: [json.Marshal]
    compacts a [RawMessage]. *)
Class RaftWireJson : Type := {
  json_wire : wireMsg -> result bytes;
  json_unwire : bytes -> option wireMsg;
  json_compact : bytes -> bytes;
  json_rpc : Rpc -> result bytes;
  json_unvote : bytes -> option RequestVote;
  json_unappend : bytes -> option AppendEntries;
  json_uninstall : bytes -> option InstallSnapshot;
  json_reply : RpcReply -> result bytes;
  json_unvoteReply : bytes -> option RequestVoteReply;
  json_unappendReply : bytes -> option AppendEntriesReply;
  json_uninstallReply : bytes -> option InstallSnapshotReply
}.

(** [rd.ReadBytes('\n')]: the first line and what follows it; [None] when the
    stream ends before a newline. *)
Fixpoint ReadBytes (s : bytes) : option (bytes * bytes) :=
  match s with
  | [] => None
  | c :: s' => if Ascii.eqb c nl then Some ([c], s') else '(l, rest) ← ReadBytes s'; Some (c :: l, rest)
  end.

Section wire.
Context {WJ : RaftWireJson}.

(** Frames an encoded payload. *)
Definition rawMsg (kind : string) (raw : bytes) : result bytes :=
  match json_wire (mkWireMsg kind raw) with
  | Err e => Err e
  | Ok b => Ok (b ++ [nl])
  end.

Definition encodeMsg (kind : string) (data : result bytes) : result bytes :=
  match data with
  | Err e => Err e
  | Ok b => rawMsg kind b
  end.

(** The bytes that a call writes ([writeReq], [writeRawBytes]). *)
Definition request_frame (r : Request) : result bytes :=
  match r with
  | ReqRpc rpc => encodeMsg (request_kind r) (json_rpc rpc)
  | ReqCtl raw => rawMsg kindCtl raw
  end.

(** What a call makes of the line that it reads. *)
Definition decode_reply (r : Request) (line : bytes) : result Response :=
  match json_unwire line with
  | None => Err (Wrapped "json")
  | Some wm =>
      if negb (String.eqb (wmKind wm) (reply_kind r)) then Err (Wrapped "raft: unexpected reply kind")
      else match r with
           | ReqCtl _ => Ok (RespCtl (wmData wm))
           | ReqRpc rpc =>
               match match rpc with
                     | RpcVote _ => ReVote <$> json_unvoteReply (wmData wm)
                     | RpcAppend _ => ReAppend <$> json_unappendReply (wmData wm)
                     | RpcSnapshot _ => ReSnapshot <$> json_uninstallReply (wmData wm)
                     end with
               | Some rep => Ok (RespRpc rep)
               | None => Err (Wrapped "json")
               end
           end
  end.

(** ** Serving *)

Section serving.
Context {F W SS MS : Type}.
Context {SMF : StateMachine F} {WW : Wal W} {SSS : SnapshotStore SS} {MSS : MetaStore MS} {J : Json} {CJ : ConfigJson}.
Implicit Types n : Node F W SS MS.

(** The control handler of the application, [None] when it panics. *)
Definition CtlHandler : Type := string -> bytes -> Node F W SS MS -> option (result bytes * Node F W SS MS).

(** The transport as a connection sees it: whether a node is attached, and the
    control handler. The address book is the node's [addrs]. *)
Record Served : Type := mkServed { svNode : bool; svCtl : option CtlHandler }.

Definition SetControlHandler (fn : option CtlHandler) (t : Served) : Served := mkServed (svNode t) fn.

Definition isMemberPeer (t : Served) n (identity : string) : bool :=
  if String.eqb identity "" then true
  else (svNode t && String.eqb identity (nid n)) || bool_decide (is_Some (addrs n !! identity)).

(** The node's handler for an RPC. *)
Definition handle_rpc n (rpc : Rpc) : option (RpcReply * Node F W SS MS) :=
  match rpc with
  | RpcVote args => '(r, n') ← HandleRequestVote n args; Some (ReVote r, n')
  | RpcAppend args => '(r, n') ← HandleAppendEntries n args; Some (ReAppend r, n')
  | RpcSnapshot args => '(r, n') ← HandleInstallSnapshot n args; Some (ReSnapshot r, n')
  end.

Definition rpc_reply_kind (r : RpcReply) : string :=
  match r with ReVote _ => kindRequestVoteReply | ReAppend _ => kindAppendEntriesReply | ReSnapshot _ => kindInstallSnapReply end.

(** The RPC that a message of a known kind carries: [None] for another kind,
    [Some None] when its payload does not decode. *)
Definition decode_rpc (wm : wireMsg) : option (option Rpc) :=
  if String.eqb (wmKind wm) kindRequestVote then Some (RpcVote <$> json_unvote (wmData wm))
  else if String.eqb (wmKind wm) kindAppendEntries then Some (RpcAppend <$> json_unappend (wmData wm))
  else if String.eqb (wmKind wm) kindInstallSnapshot then Some (RpcSnapshot <$> json_uninstall (wmData wm))
  else None.

(** [None]: a panic. An error ends the connection. *)
Definition dispatch (t : Served) (line : bytes) (peer : string) n : option (result bytes * Node F W SS MS) :=
  match json_unwire line with
  | None => Some (Err (Wrapped "json"), n)
  | Some wm =>
      if String.eqb (wmKind wm) kindCtl then
        match svCtl t with
        | None => Some (Err (Wrapped "raft: no control handler"), n)
        | Some ctl =>
            '(r, n) ← ctl peer (wmData wm) n;
            match r with
            | Err e => Some (Err e, n)
            | Ok reply => Some (rawMsg kindCtlReply reply, n)
            end
        end
      else if negb (isMemberPeer t n peer) then Some (Err (Wrapped "raft: rpc from non-member"), n)
      else if negb (svNode t) then Some (Err (Wrapped "raft: transport has no node"), n)
      else match decode_rpc wm with
           | None => Some (Err (Wrapped "raft: unknown message kind"), n)
           | Some None => Some (Err (Wrapped "json"), n)
           | Some (Some rpc) =>
               '(rep, n) ← handle_rpc n rpc; Some (encodeMsg (rpc_reply_kind rep) (json_reply rep), n)
           end
  end.

(** A connection whose peer has the identity [peer], one line per unit of fuel;
    [written] says which of the replies the connection takes. The result is the
    replies that were written, and the node. *)
Fixpoint handleConn (fuel : nat) (t : Served) (peer : string) (written : nat -> bool) (s : bytes) n
    : option (list bytes * Node F W SS MS) :=
  match fuel with
  | O => Some ([], n)
  | S fuel' =>
      match ReadBytes s with
      | None => Some ([], n)
      | Some (line, s') =>
          '(r, n) ← dispatch t line peer n;
          match r with
          | Err _ => Some ([], n)
          | Ok b =>
              if written 0 then
                '(out, n) ← handleConn fuel' t peer (fun k => written (S k)) s' n;
                Some (b :: out, n)
              else Some ([], n)
          end
      end
  end.

(** [Listen] under TLS and one connection of it: a client that the handshake
    refuses is not served. Without TLS there is no identity. *)
Definition serve (tls : option TlsConfig) (t : Served) {X : X509} (rawCerts : list bytes) (written : nat -> bool) (s : bytes) n
    : option (list bytes * Node F W SS MS) :=
  match tls with
  | None => handleConn (length s) t (PeerIdentity None) written s n
  | Some cfg => match handshake cfg rawCerts with
                | None => Some ([], n)
                | Some certs => handleConn (length s) t (PeerIdentity (Some certs)) written s n
                end
  end.

(** The listener's configuration: every name that the CA vouches for may connect. *)
Definition acceptPeer (identity : string) : bool := true.
Definition serverTLSConfig {X : X509} (ca cert key : bytes) : result TlsConfig := Server ca cert key (Some acceptPeer).
End serving.

(** ** Calling *)

(** A network connection to a peer: what was written to it, how many lines of that
    the peer has answered, the answers' bytes that were not read yet, whether it
    has ended. [cBad] is not in the source: a call has failed on the connection. *)
Record Conn : Type := mkConn { cOut : bytes; cAnswered : nat; cIn : bytes; cEnded : bool; cBad : bool }.

(** The lines of a stream, without an unfinished one at its end. *)
Fixpoint lines_acc (acc s : bytes) : list bytes :=
  match s with
  | [] => []
  | c :: s' => if Ascii.eqb c nl then (acc ++ [c]) :: lines_acc [] s' else lines_acc (acc ++ [c]) s'
  end.
Definition lines_of (s : bytes) : list bytes := lines_acc [] s.

(** The connection object that the calls to a peer share. [pcLock]: a call holds
    its mutex between writing a request and reading the reply. *)
Record peerConn : Type := mkPeerConn { pcAddr : string; pcConn : option nat; pcLock : bool }.

(** Where a call is. [peerConn] is two steps, the lookup under [connMu] and the
    dial under [pc.mu]; then the request is written, and the reply read, under
    [pc.mu]; a call that failed still has to [forget] the connection. *)
Inductive Phase : Type :=
  | PStart
  | PHave (p : nat)
  | PReady (p : nat)
  | PWrote (p c : nat)
  | PFailed (e : error)
  | PDone (r : result Response).

Record Call : Type := mkCall { clPeer : string; clReq : Request; clPhase : Phase }.

Record TCPTransport : Type := mkTCPTransport {
  tNode : option string;                          (* the id of the attached node *)
  peerAddrs : gmap string string;
  conns : gmap string nat;
  tpcs : list peerConn;
  tnet : list Conn;
  calls : list Call;
  tfault : option (string -> string -> bool);
  ttls : option (bytes * bytes * bytes)           (* CA, certificate, key *)
}.

Definition NewTCPTransport (node : option string) : TCPTransport := mkTCPTransport node ∅ ∅ [] [] [] None None.

Definition set_calls (cs : list Call) (t : TCPTransport) : TCPTransport :=
  mkTCPTransport (tNode t) (peerAddrs t) (conns t) (tpcs t) (tnet t) cs (tfault t) (ttls t).
Definition set_tpcs (ps : list peerConn) (t : TCPTransport) : TCPTransport :=
  mkTCPTransport (tNode t) (peerAddrs t) (conns t) ps (tnet t) (calls t) (tfault t) (ttls t).
Definition set_tnet (ns : list Conn) (t : TCPTransport) : TCPTransport :=
  mkTCPTransport (tNode t) (peerAddrs t) (conns t) (tpcs t) ns (calls t) (tfault t) (ttls t).
Definition set_conns (cs : gmap string nat) (t : TCPTransport) : TCPTransport :=
  mkTCPTransport (tNode t) (peerAddrs t) cs (tpcs t) (tnet t) (calls t) (tfault t) (ttls t).
Definition SetPeers (as' : gmap string string) (t : TCPTransport) : TCPTransport :=
  mkTCPTransport (tNode t) as' (conns t) (tpcs t) (tnet t) (calls t) (tfault t) (ttls t).
Definition RegisterPeer (id addr : string) (t : TCPTransport) : TCPTransport := SetPeers (<[id := addr]> (peerAddrs t)) t.
Definition SetNode (id : string) (t : TCPTransport) : TCPTransport :=
  mkTCPTransport (Some id) (peerAddrs t) (conns t) (tpcs t) (tnet t) (calls t) (tfault t) (ttls t).
Definition SetFaultInjector (fn : option (string -> string -> bool)) (t : TCPTransport) : TCPTransport :=
  mkTCPTransport (tNode t) (peerAddrs t) (conns t) (tpcs t) (tnet t) (calls t) fn (ttls t).
Definition EnableTLS (ca cert key : bytes) (t : TCPTransport) : TCPTransport :=
  mkTCPTransport (tNode t) (peerAddrs t) (conns t) (tpcs t) (tnet t) (calls t) (tfault t) (Some (ca, cert, key)).

Definition partitioned (t : TCPTransport) (peer : string) : bool :=
  match tfault t, tNode t with
  | Some f, Some id => f id peer
  | _, _ => false
  end.

(** Moving a call, and changing a shared object. *)
Definition set_phase (i : nat) (ph : Phase) (t : TCPTransport) : TCPTransport :=
  set_calls (alter (fun c => mkCall (clPeer c) (clReq c) ph) i (calls t)) t.
Definition put_pc (p : nat) (pc : peerConn) (t : TCPTransport) : TCPTransport := set_tpcs (<[p := pc]> (tpcs t)) t.
Definition put_net (c : nat) (k : Conn) (t : TCPTransport) : TCPTransport := set_tnet (<[c := k]> (tnet t)) t.

(** The first half of [peerConn], after the test of [partitioned]. *)
Definition peerConn_lookup (i : nat) (peer : string) (t : TCPTransport) : TCPTransport :=
  if partitioned t peer then set_phase i (PDone (Err (Wrapped "raft: partitioned"))) t
  else match conns t !! peer with
       | Some p => set_phase i (PHave p) t
       | None =>
           match peerAddrs t !! peer with
           | None => set_phase i (PDone (Err (Wrapped "raft: no address for peer"))) t
           | Some addr =>
               let p := length (tpcs t) in
               set_phase i (PHave p)
                 (set_conns (<[peer := p]> (conns t)) (set_tpcs (tpcs t ++ [mkPeerConn addr None false]) t))
           end
       end.

(** [reached]: whether the peer was reached, and under TLS the handshake with the
    expected name succeeded. *)
Definition dialPeer {X : X509} (t : TCPTransport) (peer : string) (reached : bool) : result () :=
  match match ttls t with
        | None => Ok ()
        | Some (ca, cert, key) => match Client ca cert key peer with Ok _ => Ok () | Err e => Err e end
        end with
  | Err e => Err e
  | Ok _ => if reached then Ok () else Err IOError
  end.

(** The second half of [peerConn]. *)
Definition peerConn_dial {X : X509} (i p : nat) (pc : peerConn) (peer : string) (reached : bool) (t : TCPTransport) : TCPTransport :=
  match pcConn pc with
  | Some _ => set_phase i (PReady p) t
  | None =>
      match dialPeer t peer reached with
      | Err e => set_phase i (PDone (Err e)) t
      | Ok _ =>
          let c := length (tnet t) in
          set_phase i (PReady p)
            (put_pc p (mkPeerConn (pcAddr pc) (Some c) (pcLock pc)) (set_tnet (tnet t ++ [mkConn [] 0 [] false false]) t))
      end
  end.

(** The request is written; with [cut] the write fails after so many bytes. *)
Definition write_request (i p : nat) (pc : peerConn) (req : Request) (cut : option nat) (t : TCPTransport) : option TCPTransport :=
  match pcConn pc with
  | None => Some (set_phase i (PFailed (Wrapped "raft: peer connection closed")) t)
  | Some c =>
      k ← tnet t !! c;
      let bad := put_net c (mkConn (cOut k) (cAnswered k) (cIn k) (cEnded k) true) t in
      match request_frame req with
      | Err e => Some (set_phase i (PFailed e) bad)
      | Ok b =>
          match cut with
          | Some j => Some (set_phase i (PFailed IOError)
                             (put_net c (mkConn (cOut k ++ take j b) (cAnswered k) (cIn k) (cEnded k) true) t))
          | None => Some (set_phase i (PWrote p c)
                            (put_pc p (mkPeerConn (pcAddr pc) (Some c) true)
                               (put_net c (mkConn (cOut k ++ b) (cAnswered k) (cIn k) (cEnded k) (cBad k)) t)))
          end
      end
  end.

(** How a read ends: with a line, with an error after some bytes, or with the end
    of the stream after some bytes; bytes are read up to the first newline only. *)
Inductive ReadEnd : Type := RLine | RError (got : nat) | REOF (got : nat).

Definition readReply (k : Conn) (e : ReadEnd) : option (result bytes * Conn) :=
  match e with
  | RLine => '(line, rest) ← ReadBytes (cIn k);
             Some (Ok line, mkConn (cOut k) (cAnswered k) rest (cEnded k) (cBad k))
  | RError j => if bool_decide (nl ∈ take j (cIn k)) then None
                else Some (Err IOError, mkConn (cOut k) (cAnswered k) (drop j (cIn k)) (cEnded k) (cBad k))
  | REOF j => if bool_decide (nl ∈ take j (cIn k)) then None
              else let line := take j (cIn k) in
                   Some (if (length line =? 0)%nat then Err IOError else Ok line,
                         mkConn (cOut k) (cAnswered k) [] true (cBad k))
  end.

Definition read_reply (i p c : nat) (pc : peerConn) (req : Request) (e : ReadEnd) (t : TCPTransport) : option TCPTransport :=
  k ← tnet t !! c;
  '(r, k') ← readReply k e;
  let t := put_pc p (mkPeerConn (pcAddr pc) (pcConn pc) false) t in
  match match r with Err e => Err e | Ok line => decode_reply req line end with
  | Ok resp => Some (set_phase i (PDone (Ok resp)) (put_net c k' t))
  | Err e => Some (set_phase i (PFailed e) (put_net c (mkConn (cOut k') (cAnswered k') (cIn k') (cEnded k') true) t))
  end.

(** [forget]: it closes whatever connection the table has for the peer. It waits
    for the mutex of that connection. *)
Definition forget (i : nat) (peer : string) (e : error) (t : TCPTransport) : option TCPTransport :=
  match conns t !! peer with
  | None => Some (set_phase i (PDone (Err e)) t)
  | Some p =>
      pc ← tpcs t !! p;
      if pcLock pc then None
      else Some (set_phase i (PDone (Err e))
                   (set_conns (delete peer (conns t)) (put_pc p (mkPeerConn (pcAddr pc) None false) t)))
  end.

(** What can happen: a call starts ([roundTrip], [SendControl]) or takes its next
    step, the peer answers the next line of a connection, an address becomes
    known. *)
Inductive Event : Type :=
  | EBegin (peer : string) (req : Request)
  | ELookup (i : nat)
  | EDial (i : nat) (reached : bool)
  | EWrite (i : nat) (cut : option nat)
  | ERead (i : nat) (e : ReadEnd)
  | EForget (i : nat)
  | EAnswer (c : nat) (frame : bytes)
  | ERegister (id addr : string).

(** The mutex of a connection is free. *)
Definition free_pc (t : TCPTransport) (p : nat) : option peerConn :=
  pc ← tpcs t !! p; if pcLock pc then None else Some pc.

(** [None]: the step cannot be taken now. *)
Definition step {X : X509} (t : TCPTransport) (ev : Event) : option TCPTransport :=
  match ev with
  | EBegin peer req => Some (set_calls (calls t ++ [mkCall peer req PStart]) t)
  | ELookup i =>
      cl ← calls t !! i;
      match clPhase cl with PStart => Some (peerConn_lookup i (clPeer cl) t) | _ => None end
  | EDial i reached =>
      cl ← calls t !! i;
      match clPhase cl with
      | PHave p => pc ← free_pc t p; Some (peerConn_dial i p pc (clPeer cl) reached t)
      | _ => None
      end
  | EWrite i cut =>
      cl ← calls t !! i;
      match clPhase cl with
      | PReady p => pc ← free_pc t p; write_request i p pc (clReq cl) cut t
      | _ => None
      end
  | ERead i e =>
      cl ← calls t !! i;
      match clPhase cl with
      | PWrote p c => pc ← tpcs t !! p; read_reply i p c pc (clReq cl) e t
      | _ => None
      end
  | EForget i =>
      cl ← calls t !! i;
      match clPhase cl with PFailed e => forget i (clPeer cl) e t | _ => None end
  | EAnswer c frame =>
      k ← tnet t !! c;
      if (cEnded k || (length (lines_of (cOut k)) <=? cAnswered k)%nat)%bool then None
      else Some (put_net c (mkConn (cOut k) (S (cAnswered k)) (cIn k ++ frame) (cEnded k) (cBad k)) t)
  | ERegister id addr => Some (RegisterPeer id addr t)
  end.

Definition trun {X : X509} (t : TCPTransport) (evs : list Event) : option TCPTransport :=
  foldl (fun o ev => t ← o; step t ev) (Some t) evs.

(** [Close]: every connection is closed once its mutex is free. *)
Definition CloseTransport (t : TCPTransport) : TCPTransport :=
  set_tpcs (imap (fun p pc => if bool_decide (p ∈ (map_to_list (conns t)).*2) then mkPeerConn (pcAddr pc) None (pcLock pc) else pc) (tpcs t)) t.
End wire.
