(* ===== verification/RaftTransportThms.v ===== *)
(** * The Raft transport: properties *)

From Stdlib Require Import Ascii.
From S2P Require Import Prelude WalTypes WalCodec RaftLog Raft RaftProps RaftInstances RaftThms Mtls RaftTransport.

(** ** Lines *)

Definition is_line (l : bytes) : Prop := exists b, l = b ++ [nl] /\ nl ∉ b.

Lemma ReadBytes_line b rest : nl ∉ b -> ReadBytes (b ++ nl :: rest) = Some (b ++ [nl], rest).
Proof.
  induction b as [|c b IH]; cbn [app ReadBytes]; intros Hn; [done|]. apply not_elem_of_cons in Hn as [Hc Hb].
  destruct (Ascii.eqb_spec c nl) as [->|_]; [done|]. by rewrite IH.
Qed.

Lemma lines_acc_line acc b rest : nl ∉ b -> lines_acc acc (b ++ nl :: rest) = (acc ++ b ++ [nl]) :: lines_acc [] rest.
Proof.
  revert acc. induction b as [|c b IH]; intros acc Hn; cbn [app lines_acc]; [done|]. apply not_elem_of_cons in Hn as [Hc Hb].
  destruct (Ascii.eqb_spec c nl) as [->|_]; [done|]. rewrite IH by done. by rewrite <- app_assoc.
Qed.

Lemma lines_of_app l rest : is_line l -> lines_of (l ++ rest) = l :: lines_of rest.
Proof. intros (b & -> & Hb). unfold lines_of. rewrite <- app_assoc. simpl. by rewrite lines_acc_line. Qed.

Lemma lines_of_concat L rest : Forall is_line L -> lines_of (mjoin L ++ rest) = L ++ lines_of rest.
Proof.
  induction 1 as [|l L Hl _ IH]; [done|]. simpl. rewrite <- app_assoc, lines_of_app by done. by rewrite IH.
Qed.

(** ** What the callers rely on of encoding/json *)

(** An envelope is one line, reads back with its payload compacted, with or without
    its newline, and no proper prefix of it reads; what was marshalled is compact
    and reads back. *)
Class RaftWireLaws {WJ : RaftWireJson} : Prop := {
  wire_ok : forall wm b, json_wire wm = Ok b ->
    (nl ∉ b) /\ json_unwire b = Some (mkWireMsg (wmKind wm) (json_compact (wmData wm))) /\
    json_unwire (b ++ [nl]) = Some (mkWireMsg (wmKind wm) (json_compact (wmData wm))) /\
    forall p, p `prefix_of` b -> p <> b -> json_unwire p = None;
  rpc_ok : forall rpc d, json_rpc rpc = Ok d -> json_compact d = d /\
    match rpc with
    | RpcVote a => json_unvote d = Some a
    | RpcAppend a => json_unappend d = Some a
    | RpcSnapshot a => json_uninstall d = Some a
    end;
  reply_ok : forall rep d, json_reply rep = Ok d -> json_compact d = d /\
    match rep with
    | ReVote r => json_unvoteReply d = Some r
    | ReAppend r => json_unappendReply d = Some r
    | ReSnapshot r => json_uninstallReply d = Some r
    end
}.

Section wire.
Context {WJ : RaftWireJson} {WL : RaftWireLaws} {X : X509}.

Lemma rawMsg_line kind raw f : rawMsg kind raw = Ok f -> is_line f.
Proof using WL.
  unfold rawMsg. destruct (json_wire _) as [b|] eqn:E; [|done]. intros [= <-]. exists b. split; [done|]. by apply wire_ok in E as (? & _).
Qed.

Lemma request_line req q : request_frame req = Ok q -> is_line q.
Proof using WL.
  destruct req as [rpc|raw]; simpl; [|apply rawMsg_line]. unfold encodeMsg. destruct (json_rpc rpc); [apply rawMsg_line|done].
Qed.

(** ** Calls and replies *)

(** [answers q f]: the peer may answer the line [q] with [f]. *)
Context (answers : bytes -> bytes -> Prop).
Context (answer_frame : forall q f, answers q f -> exists wm b, json_wire wm = Ok b /\ f = b ++ [nl]).

(** The result of a call comes from an answer to its own request. *)
Definition paired (req : Request) (resp : Response) : Prop :=
  exists q f, request_frame req = Ok q /\ answers q f /\ decode_reply req f = Ok resp.

(** A connection on which every request was answered and every answer read. *)
Definition idle (k : Conn) : Prop := exists L,
  Forall is_line L /\ cOut k = mjoin L /\ cIn k = [] /\ (cAnswered k = length L \/ cEnded k = true).

(** A connection whose last line is the request [q], and that brings at most its
    answer. *)
Definition busy (q : bytes) (k : Conn) : Prop := exists L,
  Forall is_line L /\ cOut k = mjoin L ++ q /\
  (cAnswered k = length L /\ cIn k = [] \/ cAnswered k = S (length L) /\ answers q (cIn k) \/ cEnded k = true /\ cIn k = []).

(** Reading on a busy connection gives an answer to [q], or an error. *)
Lemma busy_read req q k e line k' resp :
  request_frame req = Ok q -> busy q k -> readReply k e = Some (Ok line, k') -> decode_reply req line = Ok resp ->
  paired req resp /\ idle k'.
Proof using WL answer_frame.
  intros Hq (L & HL & Hout & Hin) Hr Hd. pose proof (request_line _ _ Hq) as Hql.
  assert (Forall is_line (L ++ [q])) as HL' by (apply Forall_app; by rewrite Forall_singleton).
  assert (cOut k = mjoin (L ++ [q])) as Hout' by (rewrite Hout, join_app; simpl; by rewrite app_nil_r).
  destruct Hin as [[Ha Hi]|[[Ha Hf]|[He Hi]]].
  1, 3: destruct e; cbn [readReply] in Hr; rewrite Hi, ?take_nil in Hr; [done|by destruct (bool_decide _)|by destruct (bool_decide _)].
  destruct (answer_frame _ _ Hf) as (wm & b & Hb & Hfb). destruct (wire_ok _ _ Hb) as (Hnl & Hu & Hu' & Hpre).
  assert (decode_reply req b = decode_reply req (cIn k)) as Hdec by (unfold decode_reply; by rewrite Hfb, Hu, Hu').
  destruct e; cbn [readReply] in Hr; rewrite Hfb in Hr.
  - rewrite ReadBytes_line in Hr by done. cbn [mbind option_bind] in Hr. injection Hr as <- <-. rewrite <- Hfb in Hd.
    split; [by exists q, (cIn k)|]. exists (L ++ [q]). split_and!; [done|done|done|left; rewrite length_app; simpl; lia].
  - by case_bool_decide.
  - case_bool_decide as Hn; [done|]. injection Hr as Hline <-. case_match; [done|]. injection Hline as <-.
    split; [|exists (L ++ [q]); split_and!; [done|done|done|by right]].
    assert (take got (b ++ [nl]) `prefix_of` b) as Hp.
    { destruct (decide (length b < got)) as [Hlt|].
      - exfalso. apply Hn. rewrite take_ge by (rewrite length_app; simpl; lia). apply elem_of_app. right. by left.
      - rewrite take_app_le by lia. apply prefix_take. }
    destruct (decide (take got (b ++ [nl]) = b)) as [Heq|Hne].
    + exists q, (cIn k). rewrite Heq, Hdec in Hd. done.
    + unfold decode_reply in Hd. by rewrite Hpre in Hd.
Qed.

Record tinv (t : TCPTransport) : Prop := {
  inv_conn : forall p pc c, tpcs t !! p = Some pc -> pcConn pc = Some c -> c < length (tnet t);
  inv_own : forall p p' pc pc' c, tpcs t !! p = Some pc -> tpcs t !! p' = Some pc' ->
    pcConn pc = Some c -> pcConn pc' = Some c -> p = p';
  inv_idle : forall p pc c k, tpcs t !! p = Some pc -> pcLock pc = false -> pcConn pc = Some c ->
    tnet t !! c = Some k -> cBad k = false -> idle k;
  inv_wrote : forall i cl p c, calls t !! i = Some cl -> clPhase cl = PWrote p c ->
    exists pc k q, tpcs t !! p = Some pc /\ pcConn pc = Some c /\ pcLock pc = true /\
      tnet t !! c = Some k /\ request_frame (clReq cl) = Ok q /\ busy q k;
  inv_excl : forall i j cl cl' p c c', calls t !! i = Some cl -> calls t !! j = Some cl' ->
    clPhase cl = PWrote p c -> clPhase cl' = PWrote p c' -> i = j;
  inv_done : forall i cl r, calls t !! i = Some cl -> clPhase cl = PDone (Ok r) -> paired (clReq cl) r
}.

Lemma lookup_phase i ph t j cl :
  calls (set_phase i ph t) !! j = Some cl ->
  (j <> i /\ calls t !! j = Some cl) \/ (j = i /\ exists cl0, calls t !! i = Some cl0 /\ cl = mkCall (clPeer cl0) (clReq cl0) ph).
Proof using Type.
  simpl. intros H. destruct (decide (j = i)) as [->|Hne].
  - rewrite list_lookup_alter_eq in H. destruct (calls t !! i) as [cl0|] eqn:E; [|done]. injection H as <-. right. eauto.
  - rewrite list_lookup_alter_ne in H by done. by left.
Qed.

(** A call moves without touching a connection. *)
Lemma tinv_phase i ph t :
  tinv t -> (forall p c, ph <> PWrote p c) ->
  (forall r, ph = PDone (Ok r) -> forall cl, calls t !! i = Some cl -> paired (clReq cl) r) ->
  tinv (set_phase i ph t).
Proof using Type.
  intros [H1 H2 H3 H4 H5 H6] Hw Hd. split; simpl; try done.
  - intros j cl p c [[_ Hj]|[-> (cl0 & _ & ->)]]%lookup_phase Hp; [by eapply H4|by destruct (Hw p c)].
  - intros j j' cl cl' p c c' [[_ Hj]|[-> (cl0 & _ & ->)]]%lookup_phase [[_ Hj']|[-> (cl0' & _ & ->)]]%lookup_phase Hp Hp';
      [by eapply (H5 j j')|by destruct (Hw p c')|by destruct (Hw p c)|done].
  - intros j cl r [[_ Hj]|[-> (cl0 & Hc & ->)]]%lookup_phase Hp; [by eapply H6|]. simpl in *. by eapply Hd.
Qed.

(** Nobody is between writing and reading on [p]. *)
Definition unused (p : nat) (t : TCPTransport) : Prop :=
  forall i cl c, calls t !! i = Some cl -> clPhase cl <> PWrote p c.

Lemma unlocked_unused t p pc : tinv t -> tpcs t !! p = Some pc -> pcLock pc = false -> unused p t.
Proof using Type.
  intros Ht Hp Hl i cl c Hi Hw. destruct (inv_wrote t Ht i cl p c Hi Hw) as (pc' & _ & _ & Hp' & _ & Hl' & _). congruence.
Qed.

(** An unused object gets another connection state, or none. *)
Lemma tinv_put_pc p pc a t :
  tinv t -> tpcs t !! p = Some pc -> unused p t ->
  forall o, (o = None \/ o = pcConn pc) ->
  (forall c k, o = Some c -> tnet t !! c = Some k -> cBad k = false -> idle k) ->
  tinv (put_pc p (mkPeerConn a o false) t).
Proof using Type.
  intros [H1 H2 H3 H4 H5 H6] Hp Hu o Ho Hid.
  assert (forall q qc, <[p := mkPeerConn a o false]> (tpcs t) !! q = Some qc ->
    (q = p /\ qc = mkPeerConn a o false) \/ (q <> p /\ tpcs t !! q = Some qc)) as Hlk.
  { intros q qc Hq. destruct (decide (q = p)) as [->|Hne].
    - rewrite list_lookup_insert_eq in Hq by (by eapply lookup_lt_Some). injection Hq as <-. by left.
    - rewrite list_lookup_insert_ne in Hq by done. by right. }
  assert (forall c, o = Some c -> pcConn pc = Some c) as Hoc by (intros c ->; by destruct Ho as [|<-]).
  split; simpl; try done.
  - intros q qc c [[-> ->]|[_ Hq]]%Hlk Hc; [|by eapply H1]. apply Hoc in Hc. by eapply H1.
  - intros q q' qc qc' c [[-> ->]|[Hne Hq]]%Hlk [[-> ->]|[Hne' Hq']]%Hlk Hc Hc'; simpl in *; try done;
      [apply Hoc in Hc|apply Hoc in Hc'|]; by eapply H2.
  - intros q qc c k [[-> ->]|[_ Hq]]%Hlk Hl Hc Hk Hb; [by eapply Hid|by eapply H3].
  - intros i cl q c Hi Hw. destruct (H4 i cl q c Hi Hw) as (qc & k & b & Hq & ? & ? & ? & ? & ?).
    exists qc, k, b. split_and!; try done. rewrite list_lookup_insert_ne; [done|]. intros <-. by eapply Hu.
Qed.

(** The state of a connection changes; whoever uses it must still be served. *)
Lemma tinv_put_net c k' t :
  tinv t ->
  (forall p pc, tpcs t !! p = Some pc -> pcLock pc = false -> pcConn pc = Some c -> cBad k' = false -> idle k') ->
  (forall i cl p k q, calls t !! i = Some cl -> clPhase cl = PWrote p c -> tnet t !! c = Some k ->
     request_frame (clReq cl) = Ok q -> busy q k -> busy q k') ->
  tinv (put_net c k' t).
Proof using Type.
  intros [H1 H2 H3 H4 H5 H6] Hid Hbusy.
  assert (forall d k, <[c := k']> (tnet t) !! d = Some k -> (d = c /\ k = k') \/ (d <> c /\ tnet t !! d = Some k)) as Hlk.
  { intros d k [(<- & -> & _)|[Hne Hd]]%list_lookup_insert_Some; [by left|right]. split; [congruence|done]. }
  split; simpl; try done.
  - intros p pc d Hp Hd. rewrite length_insert. by eapply H1.
  - intros p pc d k Hp Hl Hd [[-> ->]|[_ Hk]]%Hlk Hb; [by eapply Hid|by eapply H3].
  - intros i cl p d Hi Hw. destruct (H4 i cl p d Hi Hw) as (pc & k & q & ? & ? & ? & Hk & Hq & Hb).
    destruct (decide (d = c)) as [->|Hne].
    + exists pc, k', q. split_and!; try done; [|by eapply Hbusy]. apply list_lookup_insert_eq. by eapply lookup_lt_Some.
    + exists pc, k, q. split_and!; try done. by rewrite list_lookup_insert_ne.
Qed.

(** On whose connection a call is. *)
Lemma wrote_conn t i cl p c p' pc' :
  tinv t -> calls t !! i = Some cl -> clPhase cl = PWrote p c -> tpcs t !! p' = Some pc' -> pcConn pc' = Some c -> p' = p /\ pcLock pc' = true.
Proof using Type.
  intros Ht Hi Hw Hp' Hc'. destruct (inv_wrote t Ht i cl p c Hi Hw) as (pc & k & q & Hp & Hc & Hl & _).
  assert (p' = p) as -> by (by eapply (inv_own t Ht)). split; [done|]. congruence.
Qed.

(** ** Steps *)

(** The peer answers the lines of a connection in turn. *)
Definition answers_in_turn (t : TCPTransport) (ev : Event) : Prop :=
  match ev with
  | EAnswer c f => forall k q, tnet t !! c = Some k -> lines_of (cOut k) !! cAnswered k = Some q -> answers q f
  | _ => True
  end.

(** A request is written on a connection on which no call has failed. *)
Definition writes_sound (t : TCPTransport) (ev : Event) : Prop :=
  match ev with
  | EWrite i _ => forall cl p pc c k, calls t !! i = Some cl -> clPhase cl = PReady p -> tpcs t !! p = Some pc ->
      pcConn pc = Some c -> tnet t !! c = Some k -> cBad k = false
  | _ => True
  end.

Lemma tinv_begin t cl : tinv t -> clPhase cl = PStart -> tinv (set_calls (calls t ++ [cl]) t).
Proof using Type.
  intros [H1 H2 H3 H4 H5 H6] Hs.
  assert (forall i c, (calls t ++ [cl]) !! i = Some c -> c = cl \/ calls t !! i = Some c) as Hlk.
  { intros i c [Hi|[_ Hi]]%lookup_app_Some; [by right|left]. by apply list_lookup_singleton_Some in Hi as [_ ->]. }
  split; simpl; try done.
  - intros i c p d [->|Hi]%Hlk Hw; [congruence|by eapply H4].
  - intros i j c c' p d d' [->|Hi]%Hlk [->|Hj]%Hlk Hw Hw'; [congruence..|by eapply (H5 i j)].
  - intros i c r [->|Hi]%Hlk Hw; [congruence|by eapply H6].
Qed.

Lemma tinv_set_conns m t : tinv t -> tinv (set_conns m t).
Proof using Type. by intros []. Qed.

Lemma tinv_new_pc a t : tinv t -> tinv (set_tpcs (tpcs t ++ [mkPeerConn a None false]) t).
Proof using Type.
  intros [H1 H2 H3 H4 H5 H6].
  assert (forall p pc c, (tpcs t ++ [mkPeerConn a None false]) !! p = Some pc -> pcConn pc = Some c -> tpcs t !! p = Some pc) as Hlk.
  { intros p pc c [Hp|[_ Hp]]%lookup_app_Some Hc; [done|]. by apply list_lookup_singleton_Some in Hp as [_ <-]. }
  split; simpl; try done.
  - intros p pc c Hp Hc. eapply H1; [by eapply Hlk|done].
  - intros p p' pc pc' c Hp Hp' Hc Hc'. eapply H2; [by eapply Hlk|by eapply Hlk|done|done].
  - intros p pc c k Hp Hl Hc. eapply H3; [by eapply Hlk|done|done].
  - intros i cl p c Hi Hw. destruct (H4 i cl p c Hi Hw) as (pc & k & q & Hp & Hr). exists pc, k, q.
    split; [by apply lookup_app_l_Some|done].
Qed.

Lemma tinv_dialled p pc t :
  tinv t -> tpcs t !! p = Some pc -> pcLock pc = false -> pcConn pc = None ->
  tinv (put_pc p (mkPeerConn (pcAddr pc) (Some (length (tnet t))) false) (set_tnet (tnet t ++ [mkConn [] 0 [] false false]) t)).
Proof using Type.
  intros Ht Hp Hl Hc. pose proof (unlocked_unused t p pc Ht Hp Hl) as Hu. destruct Ht as [H1 H2 H3 H4 H5 H6].
  set (pc' := mkPeerConn _ _ _).
  assert (forall q qc, <[p := pc']> (tpcs t) !! q = Some qc -> (q = p /\ qc = pc') \/ (q <> p /\ tpcs t !! q = Some qc)) as Hlk.
  { intros q qc [(<- & -> & _)|[Hne Hq]]%list_lookup_insert_Some; [by left|right]. split; [congruence|done]. }
  split; simpl; try done.
  - intros q qc c [[-> ->]|[_ Hq]]%Hlk Hqc; rewrite length_app; simpl in *; [injection Hqc as <-|specialize (H1 q qc c Hq Hqc)]; lia.
  - intros q q' qc qc' c [[-> ->]|[Hne Hq]]%Hlk [[-> ->]|[Hne' Hq']]%Hlk Hqc Hqc'; simpl in *; try done;
      [injection Hqc as <-; specialize (H1 _ _ _ Hq' Hqc')|injection Hqc' as <-; specialize (H1 _ _ _ Hq Hqc)|by eapply H2]; lia.
  - intros q qc c k [[-> ->]|[_ Hq]]%Hlk Hql Hqc Hk Hb; simpl in *.
    + injection Hqc as <-. rewrite list_lookup_middle in Hk by done. injection Hk as <-. exists []. split_and!; try done. by left.
    + rewrite lookup_app_l in Hk by (by eapply H1). by eapply H3.
  - intros i cl q c Hi Hw. destruct (H4 i cl q c Hi Hw) as (qc & k & b & Hq & ? & ? & Hk & ? & ?). exists qc, k, b.
    split_and!; try done; [|by apply lookup_app_l_Some]. rewrite list_lookup_insert_ne; [done|]. intros <-. by eapply Hu.
Qed.

Lemma tinv_write i cl p pc c k b t :
  tinv t -> calls t !! i = Some cl -> tpcs t !! p = Some pc -> pcLock pc = false -> pcConn pc = Some c ->
  tnet t !! c = Some k -> cBad k = false -> request_frame (clReq cl) = Ok b ->
  tinv (set_phase i (PWrote p c) (put_pc p (mkPeerConn (pcAddr pc) (Some c) true)
    (put_net c (mkConn (cOut k ++ b) (cAnswered k) (cIn k) (cEnded k) (cBad k)) t))).
Proof using Type.
  intros Ht Hi Hp Hl Hc Hk Hb Hf. pose proof (unlocked_unused t p pc Ht Hp Hl) as Hu.
  pose proof (inv_idle t Ht p pc c k Hp Hl Hc Hk Hb) as (L & HL & Ho & Hin & Hans).
  destruct Ht as [H1 H2 H3 H4 H5 H6]. set (pc' := mkPeerConn _ _ _). set (k' := mkConn _ _ _ _ _).
  assert (forall q qc, <[p := pc']> (tpcs t) !! q = Some qc -> (q = p /\ qc = pc') \/ (q <> p /\ tpcs t !! q = Some qc)) as Hlk.
  { intros q qc [(<- & -> & _)|[Hne Hq]]%list_lookup_insert_Some; [by left|right]. split; [congruence|done]. }
  assert (forall q qc d, q <> p -> tpcs t !! q = Some qc -> pcConn qc = Some d -> d <> c) as Hother.
  { intros q qc d Hne Hq Hd ->. apply Hne. by eapply H2. }
  split; simpl.
  - intros q qc d [[-> ->]|[_ Hq]]%Hlk Hqd; rewrite length_insert; [injection Hqd as <-; by eapply H1|by eapply H1].
  - intros q q' qc qc' d [[-> ->]|[Hne Hq]]%Hlk [[-> ->]|[Hne' Hq']]%Hlk Hqd Hqd'; simpl in *; try done;
      [injection Hqd as <-|injection Hqd' as <-|]; by eapply H2.
  - intros q qc d kd [[-> ->]|[Hne Hq]]%Hlk Hql Hqd Hkd; [done|]. rewrite list_lookup_insert_ne in Hkd by (symmetry; by eapply Hother).
    by eapply H3.
  - intros j cl' q d [[Hne Hj]|[-> (cl0 & Hj & ->)]]%lookup_phase Hw; simpl in *.
    + destruct (H4 j cl' q d Hj Hw) as (qc & kd & bd & Hq & Hqd & ? & Hkd & ? & ?). assert (q <> p) as Hqp by (intros ->; by eapply Hu).
      exists qc, kd, bd. split_and!; try done; rewrite list_lookup_insert_ne; try done. symmetry. by eapply Hother.
    + injection Hw as <- <-. rewrite Hi in Hj. injection Hj as <-. exists pc', k', b. split_and!; try done.
      * apply list_lookup_insert_eq. by eapply lookup_lt_Some.
      * apply list_lookup_insert_eq. by eapply lookup_lt_Some.
      * exists L. split_and!; [done|by rewrite <- Ho|]. simpl. destruct Hans as [?|?]; [by left|by right; right].
  - intros j j' cl1 cl2 q d d' [[Hne Hj]|[-> (cl0 & _ & ->)]]%lookup_phase [[Hne' Hj']|[-> (cl0' & _ & ->)]]%lookup_phase Hw Hw'; simpl in *; try done.
    + by eapply (H5 j j').
    + injection Hw' as <- <-. exfalso. by eapply Hu.
    + injection Hw as <- <-. exfalso. by eapply Hu.
  - intros j cl' r [[_ Hj]|[-> (cl0 & _ & ->)]]%lookup_phase Hd; [by eapply H6|done].
Qed.

Lemma tinv_bad i e p pc c k' t :
  tinv t -> tpcs t !! p = Some pc -> pcLock pc = false -> pcConn pc = Some c -> cBad k' = true ->
  tinv (set_phase i (PFailed e) (put_net c k' t)).
Proof using Type.
  intros Ht Hp Hl Hc Hb. apply tinv_phase; [|done|done]. apply tinv_put_net; [done|congruence|].
  intros j cl q k b Hj Hw. destruct (wrote_conn t j cl q c p pc Ht Hj Hw Hp Hc) as [_ Hl']. congruence.
Qed.

Lemma tinv_read i cl p c pc ph k k' t :
  tinv t -> calls t !! i = Some cl -> clPhase cl = PWrote p c -> tpcs t !! p = Some pc -> tnet t !! c = Some k ->
  (forall p c, ph <> PWrote p c) -> (forall r, ph = PDone (Ok r) -> paired (clReq cl) r) ->
  (cBad k' = false -> idle k') ->
  tinv (set_phase i ph (put_net c k' (put_pc p (mkPeerConn (pcAddr pc) (pcConn pc) false) t))).
Proof using Type.
  intros Ht Hi Hw Hp Hk Hph Hdone Hid.
  destruct (inv_wrote t Ht i cl p c Hi Hw) as (pc0 & k0 & q & Hp0 & Hc & Hl & _). assert (pc0 = pc) as -> by congruence.
  assert (tinv (set_phase i ph t)) as H1.
  { apply tinv_phase; [done|done|]. intros r Hr cl' Hi'. assert (cl' = cl) as -> by congruence. by apply Hdone. }
  assert (unused p (set_phase i ph t)) as Hu.
  { intros j cl' d [[Hne Hj]|[-> (cl0 & _ & ->)]]%lookup_phase Hw'; [|by eapply Hph]. apply Hne. by eapply (inv_excl t Ht). }
  assert (tinv (put_net c k' (set_phase i ph t))) as H2.
  { apply tinv_put_net; [done| |].
    - intros p' pc' Hp' Hl' Hc' _. simpl in Hp'. assert (p' = p) as -> by (by eapply (inv_own t Ht)). congruence.
    - intros j cl' p' kk b Hj Hw' _ _ _. exfalso.
      destruct (wrote_conn _ j cl' p' c p pc H1 Hj Hw' Hp Hc) as [<- _]. by eapply Hu. }
  change (tinv (put_pc p (mkPeerConn (pcAddr pc) (pcConn pc) false) (put_net c k' (set_phase i ph t)))).
  eapply (tinv_put_pc p pc); [done|done|exact Hu|by right|].
  intros c' kk Hc' Hkk Hb. assert (c' = c) as -> by congruence. simpl in Hkk.
  rewrite list_lookup_insert_eq in Hkk by (by eapply lookup_lt_Some). injection Hkk as <-. by apply Hid.
Qed.

Lemma tinv_answer c f k t :
  tinv t -> answers_in_turn t (EAnswer c f) -> tnet t !! c = Some k ->
  (cEnded k || (length (lines_of (cOut k)) <=? cAnswered k)%nat)%bool = false ->
  tinv (put_net c (mkConn (cOut k) (S (cAnswered k)) (cIn k ++ f) (cEnded k) (cBad k)) t).
Proof using WL.
  intros Ht Ha Hk Hg. apply orb_false_iff in Hg as [He Hlt%Nat.leb_gt]. apply tinv_put_net; [done| |].
  - intros p pc Hp Hl Hc Hb. exfalso. destruct (inv_idle t Ht p pc c k Hp Hl Hc Hk Hb) as (L & HL & Ho & _ & [Hn|Hn]); [|congruence].
    rewrite Ho, <- (app_nil_r (mjoin L)), lines_of_concat, length_app in Hlt by done. simpl in Hlt. lia.
  - intros i cl p k0 q _ _ Hk0 Hq (L & HL & Ho & Hcase). assert (k0 = k) as -> by congruence.
    assert (lines_of (cOut k) = L ++ [q]) as Hlines.
    { rewrite Ho, lines_of_concat by done. f_equal. rewrite <- (app_nil_r q) at 1. rewrite lines_of_app by (by eapply request_line). done. }
    rewrite Hlines, length_app in Hlt. simpl in Hlt. destruct Hcase as [[Hn Hin]|[[Hn _]|[Hn _]]]; [|lia|congruence].
    exists L. split_and!; [done|done|]. right. left. simpl. rewrite Hn, Hin. split; [done|]. apply (Ha k q); [done|].
    rewrite Hlines, Hn. by apply list_lookup_middle.
Qed.

Lemma step_tinv t ev t' : tinv t -> answers_in_turn t ev -> writes_sound t ev -> step t ev = Some t' -> tinv t'.
Proof using WL answer_frame.
  intros Ht Hans Hws. destruct ev as [peer req|i|i reached|i cut|i e|i|c f|id addr]; cbn [step].
  - intros [= <-]. by apply tinv_begin.
  - destruct (calls t !! i) as [cl|]; [|done]. cbn [mbind option_bind]. destruct (clPhase cl); try done. intros [= <-].
    unfold peerConn_lookup. case_match; [by apply tinv_phase|]. case_match; [by apply tinv_phase|]. case_match; [|by apply tinv_phase].
    apply tinv_phase; [|done|done]. apply tinv_set_conns, tinv_new_pc, Ht.
  - destruct (calls t !! i) as [cl|]; [|done]. cbn [mbind option_bind]. destruct (clPhase cl) as [|p| | | |]; try done. unfold free_pc.
    destruct (tpcs t !! p) as [pc|] eqn:Hp; [|done]. cbn [mbind option_bind]. destruct (pcLock pc) eqn:Hl; [done|]. intros [= <-].
    unfold peerConn_dial. destruct (pcConn pc) eqn:Hc; [by apply tinv_phase|]. case_match; [|by apply tinv_phase].
    apply tinv_phase; [|done|done]. rewrite Hl. by apply tinv_dialled.
  - destruct (calls t !! i) as [cl|] eqn:Hi; [|done]. cbn [mbind option_bind]. destruct (clPhase cl) as [| |p| | |] eqn:Hph; try done. unfold free_pc.
    destruct (tpcs t !! p) as [pc|] eqn:Hp; [|done]. cbn [mbind option_bind]. destruct (pcLock pc) eqn:Hl; [done|]. cbn [mbind option_bind].
    unfold write_request. destruct (pcConn pc) as [c|] eqn:Hc; [|intros [= <-]; by apply tinv_phase].
    destruct (tnet t !! c) as [k|] eqn:Hk; [|done]. cbn [mbind option_bind].
    destruct (request_frame (clReq cl)) as [b|] eqn:Hf; [|intros [= <-]; by eapply tinv_bad].
    destruct cut; intros [= <-]; [by eapply tinv_bad|]. eapply tinv_write; try done. by eapply (Hws cl p pc c k).
  - destruct (calls t !! i) as [cl|] eqn:Hi; [|done]. cbn [mbind option_bind]. destruct (clPhase cl) as [| | |p c| |] eqn:Hph; try done.
    destruct (tpcs t !! p) as [pc|] eqn:Hp; [|done]. cbn [mbind option_bind]. unfold read_reply.
    destruct (tnet t !! c) as [k|] eqn:Hk; [|done]. cbn [mbind option_bind].
    destruct (readReply k e) as [[r k']|] eqn:Hr; [|done]. cbn [mbind option_bind].
    destruct (match r with Ok line => decode_reply (clReq cl) line | Err e => Err e end) as [resp|err] eqn:Hd; intros [= <-].
    + destruct r as [line|]; [|done]. destruct (inv_wrote t Ht i cl p c Hi Hph) as (_ & k0 & q & _ & _ & _ & Hk0 & Hq & Hb).
      assert (k0 = k) as -> by congruence. destruct (busy_read _ _ _ _ _ _ _ Hq Hb Hr Hd) as [Hpair Hidle].
      eapply tinv_read; try done. by intros ? [= <-].
    + by eapply tinv_read.
  - destruct (calls t !! i) as [cl|]; [|done]. cbn [mbind option_bind]. destruct (clPhase cl); try done. unfold forget.
    destruct (conns t !! clPeer cl) as [p|]; [|intros [= <-]; by apply tinv_phase].
    destruct (tpcs t !! p) as [pc|] eqn:Hp; [|done]. cbn [mbind option_bind]. destruct (pcLock pc) eqn:Hl; [done|]. intros [= <-].
    apply tinv_phase; [|done|done]. apply tinv_set_conns. eapply (tinv_put_pc p pc); try done; [by eapply unlocked_unused|by left].
  - destruct (tnet t !! c) as [k|] eqn:Hk; [|done]. cbn [mbind option_bind]. case_match eqn:Hg; [done|]. intros [= <-]. by apply tinv_answer.
  - intros [= <-]. by destruct Ht.
Qed.

(** ** Calls to a peer one at a time *)

Definition active (cl : Call) : Prop := forall r, clPhase cl <> PDone r.

(** A call to a peer starts when the earlier ones have returned. *)
Definition one_at_a_time (t : TCPTransport) (ev : Event) : Prop :=
  match ev with
  | EBegin peer _ => forall i cl, calls t !! i = Some cl -> clPeer cl = peer -> ~ active cl
  | _ => True
  end.

(** The object that a phase refers to. *)
Definition phase_pc (ph : Phase) : option nat :=
  match ph with PHave p | PReady p | PWrote p _ => Some p | _ => None end.

Record sinv (t : TCPTransport) : Prop := {
  s_one : forall i j cl cl', calls t !! i = Some cl -> calls t !! j = Some cl' -> clPeer cl = clPeer cl' ->
    active cl -> active cl' -> i = j;
  s_pc : forall i cl p, calls t !! i = Some cl -> phase_pc (clPhase cl) = Some p -> conns t !! clPeer cl = Some p;
  s_len : forall peer p, conns t !! peer = Some p -> p < length (tpcs t);
  s_inj : forall a b p, conns t !! a = Some p -> conns t !! b = Some p -> a = b;
  s_bad : forall peer p pc c k, conns t !! peer = Some p -> tpcs t !! p = Some pc -> pcConn pc = Some c ->
    tnet t !! c = Some k -> cBad k = true -> exists i cl e, calls t !! i = Some cl /\ clPeer cl = peer /\ clPhase cl = PFailed e
}.

(** A call that is about to write is on a connection without failures. *)
Lemma sinv_sound t ev : sinv t -> writes_sound t ev.
Proof using Type.
  intros Hs. destruct ev as [| | |i cut| | | |]; try done. intros cl p pc c k Hi Hph Hp Hc Hk.
  destruct (cBad k) eqn:Hb; [|done]. exfalso.
  assert (conns t !! clPeer cl = Some p) as Hcn by (eapply (s_pc t Hs); [done|by rewrite Hph]).
  destruct (s_bad t Hs _ _ _ _ _ Hcn Hp Hc Hk Hb) as (j & cl' & e & Hj & Hpeer & Hf).
  assert (i = j) as -> by (eapply (s_one t Hs); [done|done|done|intros r; congruence|intros r; congruence]). congruence.
Qed.

(** A call moves on; if it had failed, its peer has no connection any more. *)
Lemma sinv_phase i ph t cl :
  sinv t -> calls t !! i = Some cl -> active cl ->
  (forall p, phase_pc ph = Some p -> conns t !! clPeer cl = Some p) ->
  (forall e, clPhase cl = PFailed e -> conns t !! clPeer cl = None) ->
  sinv (set_phase i ph t).
Proof using Type.
  intros [H1 H2 H3 H4 H5] Hi Ha Hp Hf. split; simpl; try done.
  - intros j j' c c' [[Hne Hj]|[-> (cl0 & Hj & ->)]]%lookup_phase [[Hne' Hj']|[-> (cl0' & Hj' & ->)]]%lookup_phase Hpe Hac Hac'; simpl in *; try done.
    + by eapply (H1 j j').
    + assert (cl0' = cl) as -> by congruence. by eapply (H1 j i).
    + assert (cl0 = cl) as -> by congruence. by eapply (H1 i j').
  - intros j c p [[Hne Hj]|[-> (cl0 & Hj & ->)]]%lookup_phase Hph; simpl in *; [by eapply H2|].
    assert (cl0 = cl) as -> by congruence. by apply Hp.
  - intros peer p pc c k Hc Hpc Hcc Hk Hb. destruct (H5 peer p pc c k Hc Hpc Hcc Hk Hb) as (j & cl' & e & Hj & Hpeer & Hfail).
    exists j, cl', e. split_and!; try done. rewrite list_lookup_alter_ne; [done|]. intros <-. assert (cl' = cl) as -> by congruence.
    specialize (Hf e Hfail). congruence.
Qed.

(** A call fails on the connection it has. *)
Lemma sinv_fail i e p pc pc' c k' t cl :
  sinv t -> tinv t -> calls t !! i = Some cl -> active cl -> conns t !! clPeer cl = Some p -> tpcs t !! p = Some pc ->
  pcConn pc = Some c -> pcConn pc' = Some c ->
  sinv (set_phase i (PFailed e) (put_net c k' (put_pc p pc' t))).
Proof using Type.
  intros Hs Ht Hi Ha Hcn Hp Hc Hc'. pose proof Hs as [H1 H2 H3 H4 H5]. split; simpl.
  - intros j j' a a' [[Hne Hj]|[-> (cl0 & Hj & ->)]]%lookup_phase [[Hne' Hj']|[-> (cl0' & Hj' & ->)]]%lookup_phase Hpe Hac Hac'; simpl in *; try done.
    + by eapply (H1 j j').
    + assert (cl0' = cl) as -> by congruence. by eapply (H1 j i).
    + assert (cl0 = cl) as -> by congruence. by eapply (H1 i j').
  - intros j a q [[Hne Hj]|[-> (cl0 & Hj & ->)]]%lookup_phase Hph; simpl in *; [by eapply H2|done].
  - intros peer q Hq. rewrite length_insert. by eapply H3.
  - done.
  - intros peer q qc d k Hq Hqc Hqd Hk Hb. destruct (decide (peer = clPeer cl)) as [->|Hne].
    + exists i, (mkCall (clPeer cl) (clReq cl) (PFailed e)), e. rewrite list_lookup_alter_eq, Hi. done.
    + assert (q <> p) as Hqp by (intros ->; apply Hne; by eapply H4).
      rewrite list_lookup_insert_ne in Hqc by done. assert (d <> c) as Hdc by (intros ->; apply Hqp; by eapply (inv_own t Ht)).
      rewrite list_lookup_insert_ne in Hk by done. destruct (H5 peer q qc d k Hq Hqc Hqd Hk Hb) as (j & cl' & e' & Hj & Hpeer & Hf).
      exists j, cl', e'. split_and!; try done. rewrite list_lookup_alter_ne; [done|]. intros <-. congruence.
Qed.

(** Objects keep their connections and connections their flag. *)
Lemma sinv_quiet t t' :
  sinv t -> calls t' = calls t -> conns t' = conns t -> length (tpcs t') = length (tpcs t) ->
  (forall p pc' c k', tpcs t' !! p = Some pc' -> pcConn pc' = Some c -> tnet t' !! c = Some k' -> cBad k' = true ->
     exists pc k, tpcs t !! p = Some pc /\ pcConn pc = Some c /\ tnet t !! c = Some k /\ cBad k = true) ->
  sinv t'.
Proof using Type.
  intros [H1 H2 H3 H4 H5] Hca Hco Hlen Hk. split; rewrite ?Hca, ?Hco, ?Hlen; try done.
  intros peer p pc c k Hp Hpc Hc Hkk Hb. destruct (Hk p pc c k Hpc Hc Hkk Hb) as (pc0 & k0 & ? & ? & ? & ?). by eapply H5.
Qed.

Lemma sinv_put_net c k k' t : sinv t -> tnet t !! c = Some k -> cBad k' = cBad k -> sinv (put_net c k' t).
Proof using Type.
  intros Hs Hk Hb. apply (sinv_quiet t); try done. intros p pc d kd Hp Hd [(-> & -> & _)|[_ Hkd]]%list_lookup_insert_Some Hbd.
  - exists pc, k. split_and!; [exact Hp|exact Hd|done|congruence].
  - by exists pc, kd.
Qed.

Lemma sinv_put_pc p pc pc' t : sinv t -> tpcs t !! p = Some pc -> pcConn pc' = pcConn pc -> sinv (put_pc p pc' t).
Proof using Type.
  intros Hs Hp Hc. apply (sinv_quiet t); try done; [simpl; by rewrite length_insert|].
  intros q qc d k [(-> & -> & _)|[_ Hq]]%list_lookup_insert_Some Hd Hk Hb; [exists pc, k; split_and!; try done; congruence|by exists qc, k].
Qed.

Lemma sinv_new_pc peer a t :
  sinv t -> conns t !! peer = None ->
  sinv (set_conns (<[peer := length (tpcs t)]> (conns t)) (set_tpcs (tpcs t ++ [mkPeerConn a None false]) t)).
Proof using Type.
  intros [H1 H2 H3 H4 H5] Hn. split; simpl; try done.
  - intros i cl p Hi Hp. specialize (H2 i cl p Hi Hp). rewrite lookup_insert_ne; [done|]. congruence.
  - intros b p [[_ <-]|[_ Hb]]%lookup_insert_Some; rewrite length_app; simpl; [lia|]. specialize (H3 b p Hb). lia.
  - intros b b' p [[<- Hb]|[Hne Hb]]%lookup_insert_Some [[<- Hb']|[Hne' Hb']]%lookup_insert_Some; [done| | |by eapply H4].
    + specialize (H3 b' p Hb'). lia.
    + specialize (H3 b p Hb). lia.
  - intros b p pc c k [[<- <-]|[Hne Hb]]%lookup_insert_Some Hp Hc Hk Hbad.
    + rewrite list_lookup_middle in Hp by done. by injection Hp as <-.
    + rewrite lookup_app_l in Hp by (by eapply H3). by eapply H5.
Qed.

Lemma sinv_dialled p pc' t :
  sinv t -> tinv t -> pcConn pc' = Some (length (tnet t)) ->
  sinv (put_pc p pc' (set_tnet (tnet t ++ [mkConn [] 0 [] false false]) t)).
Proof using Type.
  intros Hs Ht Hc. apply (sinv_quiet t); try done; [simpl; by rewrite length_insert|]. simpl.
  intros q qc d k [(-> & -> & _)|[_ Hq]]%list_lookup_insert_Some Hd Hk Hb.
  - assert (d = length (tnet t)) as -> by congruence. rewrite list_lookup_middle in Hk by done. by injection Hk as <-.
  - rewrite lookup_app_l in Hk by (by eapply (inv_conn t Ht)). by exists qc, k.
Qed.

Lemma sinv_forget peer p pc' t i cl :
  sinv t -> conns t !! peer = Some p -> pcConn pc' = None -> calls t !! i = Some cl -> clPeer cl = peer -> active cl ->
  phase_pc (clPhase cl) = None -> sinv (set_conns (delete peer (conns t)) (put_pc p pc' t)).
Proof using Type.
  intros [H1 H2 H3 H4 H5] Hp Hc Hi Hpeer Ha Hph. split; simpl; try done.
  - intros j cl' q Hj Hq. specialize (H2 j cl' q Hj Hq) as Hcn. rewrite lookup_delete_ne; [done|]. intros Heq.
    assert (j = i) as -> by (eapply H1; [exact Hj|exact Hi|congruence| |exact Ha]; intros r Hr; by rewrite Hr in Hq). congruence.
  - intros b q [_ Hb]%lookup_delete_Some. rewrite length_insert. by eapply H3.
  - intros b b' q [_ Hb]%lookup_delete_Some [_ Hb']%lookup_delete_Some. by eapply H4.
  - intros b q qc d k [Hne Hb]%lookup_delete_Some [(-> & -> & _)|[_ Hq]]%list_lookup_insert_Some Hd Hk Hbad; [congruence|by eapply H5].
Qed.

Lemma readReply_bad k e r k' : readReply k e = Some (r, k') -> cBad k' = cBad k.
Proof using Type.
  destruct e; cbn [readReply].
  - destruct (ReadBytes (cIn k)) as [[line rest]|]; [|done]. by intros [= _ <-].
  - case_bool_decide; [done|]. by intros [= _ <-].
  - case_bool_decide; [done|]. by intros [= _ <-].
Qed.

Lemma step_sinv t ev t' : sinv t -> tinv t -> one_at_a_time t ev -> step t ev = Some t' -> sinv t'.
Proof using Type.
  intros Hs Ht Hone. destruct ev as [peer req|i|i reached|i cut|i e|i|c f|id addr]; cbn [step].
  - intros [= <-]. destruct Hs as [H1 H2 H3 H4 H5].
    assert (forall i c, (calls t ++ [mkCall peer req PStart]) !! i = Some c ->
      (i = length (calls t) /\ c = mkCall peer req PStart) \/ calls t !! i = Some c) as Hlk.
    { intros i c [Hi|[Hge Hi]]%lookup_app_Some; [by right|left]. apply list_lookup_singleton_Some in Hi as [? <-]. split; [lia|done]. }
    split; simpl; try done.
    + intros i j a b [[-> ->]|Hi]%Hlk [[-> ->]|Hj]%Hlk Hp Ha Hb; [done|exfalso; by eapply (Hone j b)|exfalso; by eapply (Hone i a)|by eapply (H1 i j)].
    + intros i a p [[-> ->]|Hi]%Hlk Hp; [done|by eapply H2].
    + intros b p pc c k Hp Hpc Hc Hk Hb. destruct (H5 b p pc c k Hp Hpc Hc Hk Hb) as (i & cl & e & Hi & ? & ?).
      exists i, cl, e. split_and!; try done. by apply lookup_app_l_Some.
  - destruct (calls t !! i) as [cl|] eqn:Hi; [|done]. cbn [mbind option_bind]. destruct (clPhase cl) eqn:Hph; try done. intros [= <-].
    assert (active cl) as Ha by (intros r; congruence).
    unfold peerConn_lookup. case_match; [eapply sinv_phase; [exact Hs|exact Hi|exact Ha|done|intros; congruence]|].
    destruct (conns t !! clPeer cl) as [p|] eqn:Hcn; [eapply sinv_phase; try done; [by intros ? [= <-]|intros; congruence]|].
    case_match; [|eapply sinv_phase; [exact Hs|exact Hi|exact Ha|done|intros; congruence]].
    eapply sinv_phase; [by apply sinv_new_pc|done|done| |intros; congruence]. intros ? [= <-]. simpl. by rewrite lookup_insert_eq.
  - destruct (calls t !! i) as [cl|] eqn:Hi; [|done]. cbn [mbind option_bind]. destruct (clPhase cl) as [|p| | | |] eqn:Hph; try done. unfold free_pc.
    destruct (tpcs t !! p) as [pc|] eqn:Hp; [|done]. cbn [mbind option_bind]. destruct (pcLock pc) eqn:Hl; [done|]. intros [= <-].
    assert (active cl) as Ha by (intros r; congruence).
    assert (conns t !! clPeer cl = Some p) as Hcn by (eapply (s_pc t Hs); [done|by rewrite Hph]).
    unfold peerConn_dial. destruct (pcConn pc) eqn:Hc; [eapply sinv_phase; try done; [by intros ? [= <-]|intros; congruence]|].
    case_match; [|eapply sinv_phase; [exact Hs|exact Hi|exact Ha|done|intros; congruence]].
    eapply sinv_phase; [by apply sinv_dialled|done|done|by intros ? [= <-]|intros; congruence].
  - destruct (calls t !! i) as [cl|] eqn:Hi; [|done]. cbn [mbind option_bind]. destruct (clPhase cl) as [| |p| | |] eqn:Hph; try done. unfold free_pc.
    destruct (tpcs t !! p) as [pc|] eqn:Hp; [|done]. cbn [mbind option_bind]. destruct (pcLock pc) eqn:Hl; [done|]. cbn [mbind option_bind].
    assert (active cl) as Ha by (intros r; congruence).
    assert (conns t !! clPeer cl = Some p) as Hcn by (eapply (s_pc t Hs); [done|by rewrite Hph]).
    assert (put_pc p pc t = t) as Hid by (unfold put_pc; rewrite list_insert_id by done; by destruct t).
    unfold write_request. destruct (pcConn pc) as [c|] eqn:Hc; [|intros [= <-]; eapply sinv_phase; [exact Hs|exact Hi|exact Ha|done|intros; congruence]].
    destruct (tnet t !! c) as [k|] eqn:Hk; [|done]. cbn [mbind option_bind].
    destruct (request_frame (clReq cl)) as [b|] eqn:Hf; [|intros [= <-]; rewrite <- Hid at 1; by eapply sinv_fail].
    destruct cut; intros [= <-]; [rewrite <- Hid at 1; by eapply sinv_fail|].
    eapply sinv_phase; [|done|done|by intros ? [= <-]|intros; congruence].
    apply (sinv_put_pc p pc); [by eapply sinv_put_net|done|done].
  - destruct (calls t !! i) as [cl|] eqn:Hi; [|done]. cbn [mbind option_bind]. destruct (clPhase cl) as [| | |p c| |] eqn:Hph; try done.
    destruct (tpcs t !! p) as [pc|] eqn:Hp; [|done]. cbn [mbind option_bind]. unfold read_reply.
    destruct (tnet t !! c) as [k|] eqn:Hk; [|done]. cbn [mbind option_bind].
    destruct (readReply k e) as [[r k']|] eqn:Hr; [|done]. cbn [mbind option_bind].
    assert (active cl) as Ha by (intros r'; congruence).
    assert (conns t !! clPeer cl = Some p) as Hcn by (eapply (s_pc t Hs); [done|by rewrite Hph]).
    destruct (inv_wrote t Ht i cl p c Hi Hph) as (pc0 & _ & _ & Hp0 & Hc & _). assert (pc0 = pc) as -> by congruence.
    destruct (match r with Ok line => decode_reply (clReq cl) line | Err e => Err e end) as [resp|err]; intros [= <-].
    + eapply sinv_phase; [|done|done|done|intros; congruence].
      eapply sinv_put_net; [by eapply sinv_put_pc|done|by eapply readReply_bad].
    + by eapply sinv_fail.
  - destruct (calls t !! i) as [cl|] eqn:Hi; [|done]. cbn [mbind option_bind]. destruct (clPhase cl) as [| | | |e|] eqn:Hph; try done. unfold forget.
    assert (active cl) as Ha by (intros r; congruence).
    destruct (conns t !! clPeer cl) as [p|] eqn:Hcn; [|intros [= <-]; by eapply sinv_phase].
    destruct (tpcs t !! p) as [pc|] eqn:Hp; [|done]. cbn [mbind option_bind]. destruct (pcLock pc) eqn:Hl; [done|]. intros [= <-].
    eapply sinv_phase; [eapply sinv_forget; try done; by rewrite Hph|done|done|done|]. intros ? _. simpl. by rewrite lookup_delete_eq.
  - destruct (tnet t !! c) as [k|] eqn:Hk; [|done]. cbn [mbind option_bind]. case_match; [done|]. intros [= <-]. by eapply sinv_put_net.
  - intros [= <-]. by destruct Hs.
Qed.

(** ** Runs *)

Fixpoint events_ok (t : TCPTransport) (evs : list Event) : Prop :=
  match evs with
  | [] => True
  | ev :: evs' => answers_in_turn t ev /\ one_at_a_time t ev /\ forall t', step t ev = Some t' -> events_ok t' evs'
  end.

Lemma trun_cons t ev evs : trun t (ev :: evs) = (t' ← step t ev; trun t' evs).
Proof using Type. unfold trun. simpl. destruct (step t ev); [done|]. simpl. by induction evs. Qed.

Lemma trun_inv evs t t' : tinv t -> sinv t -> events_ok t evs -> trun t evs = Some t' -> tinv t' /\ sinv t'.
Proof using WL answer_frame.
  revert t. induction evs as [|ev evs IH]; intros t Ht Hs Hok; [by intros [= <-]|]. rewrite trun_cons.
  destruct (step t ev) as [t1|] eqn:E; [|done]. cbn [mbind option_bind]. destruct Hok as (Ha & Ho & Hok).
  apply IH; [| |by apply Hok]; [|by eapply step_sinv]. eapply step_tinv; [exact Ht|done|by apply sinv_sound|done].
Qed.

(** A transport that has not called anyone. *)
Definition fresh (t : TCPTransport) : Prop := calls t = [] /\ tpcs t = [] /\ conns t = ∅.

Lemma fresh_inv t : fresh t -> tinv t /\ sinv t.
Proof using Type.
  intros (Hc & Hp & Hn). split; split; rewrite ?Hc, ?Hp, ?Hn; intros; simplify_map_eq; done.
Qed.
End wire.

(** ** Callers and servers together *)

Section exchange.
Context {WJ : RaftWireJson} {WL : RaftWireLaws} {X : X509}.
Context {F W SS MS : Type}.
Context {SMF : StateMachine F} {WW : Wal W} {SSS : SnapshotStore SS} {MSS : MetaStore MS} {J : Json} {CJ : ConfigJson}.
Implicit Types n : Node F W SS MS.
Context (sv : Served (F := F) (W := W) (SS := SS) (MS := MS)).

(** The peer answers a line with what its [dispatch] returns; [handled] holds of the
    request and the state in which it handles it. *)
Definition served_answer (handled : Rpc -> Node F W SS MS -> Prop) (q f : bytes) : Prop :=
  exists peer n n', dispatch sv q peer n = Some (Ok f, n') /\
    forall rpc, request_frame (ReqRpc rpc) = Ok q -> handled rpc n.

Lemma rawMsg_inv kind raw f : rawMsg kind raw = Ok f -> exists b, json_wire (mkWireMsg kind raw) = Ok b /\ f = b ++ [nl].
Proof using Type. unfold rawMsg. destruct (json_wire _) as [b|]; [|done]. intros [= <-]. by exists b. Qed.

Lemma served_frame handled q f : served_answer handled q f -> exists wm b, json_wire wm = Ok b /\ f = b ++ [nl].
Proof using Type.
  intros (peer & n & n' & Hd & _). unfold dispatch in Hd. destruct (json_unwire q) as [wm|]; [|done].
  assert (forall kind raw, rawMsg kind raw = Ok f -> exists wm b, json_wire wm = Ok b /\ f = b ++ [nl]) as Hraw
    by (intros kind raw (b & ? & ?)%rawMsg_inv; by eexists _, b).
  case_match.
  - destruct (svCtl sv) as [ctl|]; [|done]. destruct (ctl peer (wmData wm) n) as [[[reply|] n1]|]; try done. injection Hd as Hd _. by eapply Hraw.
  - case_match; [done|]. case_match; [done|]. destruct (decode_rpc wm) as [[rpc|]|]; try done.
    destruct (handle_rpc n rpc) as [[rep n1]|]; [|done]. injection Hd as Hd _. unfold encodeMsg in Hd.
    destruct (json_reply rep); [by eapply Hraw|done].
Qed.

Lemma served_reply handled rpc q f resp :
  request_frame (ReqRpc rpc) = Ok q -> served_answer handled q f -> decode_reply (ReqRpc rpc) f = Ok resp ->
  exists n n' rep, handled rpc n /\ handle_rpc n rpc = Some (rep, n') /\ resp = RespRpc rep.
Proof using WL.
  intros Hq (peer & n & n' & Hd & Hh) Hr. pose proof Hq as Hq'. cbn [request_frame] in Hq. unfold encodeMsg in Hq.
  destruct (json_rpc rpc) as [d|] eqn:Ed; [|done]. destruct (rawMsg_inv _ _ _ Hq) as (b & Hb & ->).
  destruct (wire_ok _ _ Hb) as (_ & _ & Hu & _). destruct (rpc_ok _ _ Ed) as [Hcomp Hdec]. cbn [wmKind wmData] in Hu. rewrite Hcomp in Hu.
  unfold dispatch in Hd. rewrite Hu in Hd. cbn [wmKind wmData] in Hd.
  assert (String.eqb (request_kind (ReqRpc rpc)) kindCtl = false) as Hk by (by destruct rpc). rewrite Hk in Hd.
  destruct (negb (isMemberPeer sv n peer)); [done|]. destruct (negb (svNode sv)); [done|].
  assert (decode_rpc (mkWireMsg (request_kind (ReqRpc rpc)) d) = Some (Some rpc)) as Hdr
    by (destruct rpc; unfold decode_rpc; simpl; by rewrite Hdec).
  rewrite Hdr in Hd. destruct (handle_rpc n rpc) as [[rep n1]|] eqn:Eh; [|done]. cbn [mbind option_bind] in Hd. injection Hd as Hf ->.
  unfold encodeMsg in Hf. destruct (json_reply rep) as [d'|] eqn:Ed'; [|done]. destruct (rawMsg_inv _ _ _ Hf) as (b' & Hb' & ->).
  destruct (wire_ok _ _ Hb') as (_ & _ & Hu' & _). destruct (reply_ok _ _ Ed') as [Hcomp' Hdec']. cbn [wmKind wmData] in Hu'. rewrite Hcomp' in Hu'.
  exists n, n', rep. split; [by apply Hh|]. split; [done|]. unfold decode_reply in Hr. rewrite Hu' in Hr. cbn [wmKind wmData] in Hr.
  assert (match rpc, rep with RpcVote _, ReVote _ | RpcAppend _, ReAppend _ | RpcSnapshot _, ReSnapshot _ => True | _, _ => False end) as Hm.
  { destruct rpc as [a|a|a]; cbn [handle_rpc] in Eh;
      [destruct (HandleRequestVote n a) as [[]|]|destruct (HandleAppendEntries n a) as [[]|]|destruct (HandleInstallSnapshot n a) as [[]|]];
      try done; by injection Eh as <- _. }
  by destruct rpc, rep; try done; simpl in Hr; rewrite Hdec' in Hr; injection Hr as <-.
Qed.

(** C25: an RPC that returns a reply returns the reply to this very request: when calls
    to a peer do not overlap, whatever is lost, late, cut off or fails, and
    however calls to different peers interleave, a successful call has the reply
    that the peer's handler gave to the request that the call sent; [handled]
    stands for anything that holds whenever the peer handles a request. *)
Theorem rpc_own_reply (handled : Rpc -> Node F W SS MS -> Prop) t0 evs t i peer rpc resp :
  fresh t0 -> events_ok (served_answer handled) t0 evs -> trun t0 evs = Some t ->
  calls t !! i = Some (mkCall peer (ReqRpc rpc) (PDone (Ok resp))) ->
  exists n n' rep, handled rpc n /\ handle_rpc n rpc = Some (rep, n') /\ resp = RespRpc rep.
Proof using WL.
  intros Hf Hok Hrun Hi. destruct (fresh_inv (served_answer handled) t0 Hf) as [Ht Hs].
  destruct (trun_inv _ (served_frame handled) evs t0 t Ht Hs Hok Hrun) as [Ht' _].
  destruct (inv_done _ _ Ht' i _ resp Hi eq_refl) as (q & f & Hq & Ha & Hd). by eapply served_reply.
Qed.

(** ** Who is served *)

(** A stranger whose control requests stay within [R] is within [R], and is sent
    nothing but control replies. *)
Lemma handleConn_stranger (R : relation (Node F W SS MS)) {HR : PreOrder R} id fuel written s n n0 out n' :
  id <> "" -> R n0 n ->
  (forall n1, R n0 n1 -> id <> nid n1 /\ addrs n1 !! id = None) ->
  (forall ctl n1 data r n2, svCtl sv = Some ctl -> R n0 n1 -> ctl id data n1 = Some (r, n2) -> R n1 n2) ->
  handleConn fuel sv id written s n = Some (out, n') ->
  R n0 n' /\ Forall (fun f => exists reply, rawMsg kindCtlReply reply = Ok f) out.
Proof using Type.
  intros Hid. revert written s n out n'. induction fuel as [|fuel IH]; intros written s n out n' Hn Hstr Hctl; cbn [handleConn];
    [by intros [= <- <-]|].
  destruct (ReadBytes s) as [[line s']|]; [|by intros [= <- <-]].
  destruct (dispatch sv line id n) as [[r n1]|] eqn:Ed; [|done]. cbn [mbind option_bind].
  assert (R n0 n1 /\ forall b, r = Ok b -> exists reply, rawMsg kindCtlReply reply = Ok b) as [Hn1 Hb].
  { unfold dispatch in Ed. destruct (json_unwire line) as [wm|]; [|by injection Ed as <- <-]. case_match.
    - destruct (svCtl sv) as [ctl|] eqn:Ec; [|by injection Ed as <- <-].
      destruct (ctl id (wmData wm) n) as [[r1 n2]|] eqn:Er; [|done]. cbn [mbind option_bind] in Ed.
      assert (R n0 n2) by (etrans; [exact Hn|by eapply Hctl]).
      destruct r1 as [reply|]; injection Ed as <- <-; (split; [done|]); [|done]. intros b Hr. by exists reply.
    - assert (isMemberPeer sv n id = false) as Hm.
      { unfold isMemberPeer. destruct (Hstr n Hn) as [Hne Hno]. rewrite (proj2 (String.eqb_neq id "") Hid), (proj2 (String.eqb_neq _ _) Hne).
        rewrite andb_false_r. simpl. apply bool_decide_eq_false. rewrite Hno. by intros []. }
      rewrite Hm in Ed. by injection Ed as <- <-. }
  destruct r as [b|]; [|by intros [= <- <-]]. destruct (written 0); [|by intros [= <- <-]].
  destruct (handleConn fuel sv id (fun k => written (S k)) s' n1) as [[out1 n2]|] eqn:Eh; [|done]. intros [= <- <-].
  destruct (IH _ _ _ _ _ Hn1 Hstr Hctl Eh) as [? ?]. split; [done|]. constructor; [by apply Hb|done].
Qed.

(** C36: only members speak Raft: under TLS, a peer whose certificate names neither this
    node nor a known one gets at the node only through the control handler,
    whatever bytes it sends: a relation that every control request of its name
    respects, and in whose states it is no member, relates the node's state before
    the connection to the one after; and it is sent nothing but control replies. A
    peer without a name, which would pass as a member, is not admitted. *)
Theorem strangers_kept_out (R : relation (Node F W SS MS)) {HR : PreOrder R} ca cert key cfg rawCerts certs written s n out n' :
  serverTLSConfig ca cert key = Ok cfg -> handshake cfg rawCerts = Some certs ->
  (forall n1, R n n1 -> PeerIdentity (Some certs) <> nid n1 /\ addrs n1 !! PeerIdentity (Some certs) = None) ->
  (forall ctl n1 data r n2, svCtl sv = Some ctl -> R n n1 -> ctl (PeerIdentity (Some certs)) data n1 = Some (r, n2) -> R n1 n2) ->
  serve (Some cfg) sv rawCerts written s n = Some (out, n') ->
  R n n' /\ Forall (fun f => exists reply, rawMsg kindCtlReply reply = Ok f) out.
Proof using Type.
  intros Hcfg Hh Hstr Hctl. unfold serve. rewrite Hh.
  destruct (handshake_identity _ _ _ _ _ _ _ Hcfg Hh) as (Hne & _). by apply handleConn_stranger.
Qed.
End exchange.

(** ** Concrete runs *)

#[export] Instance AppendEntries_eq_dec : EqDecision AppendEntries.
Proof. solve_decision. Defined.

(** A leader [a] and its follower [b], which has entry 1; the leader has just
    appended entry 2. [reqA] went out before that, [reqB] after it. *)
Definition put_k : Entry := mkEntry 1 (Some (put_command "k" "v")) None.
Definition reqA : AppendEntries := mkAppendEntries 1 "a" 1 1 [] 1.
Definition reqB : AppendEntries := mkAppendEntries 1 "a" 1 1 [put_k] 1.

Definition lead_a : MemNode :=
  ran_to (raft_run (mem_node "a" ["b"])
    [IBecomeCandidate; IVoteReply (mkElection 1 0 0 2 ["b"] 1) (mkRequestVoteReply 0 true);
     IAppendReply "b" (mkAppendEntries 1 "a" 0 0 [noop 1] 0) (mkAppendEntriesReply 1 true);
     IPropose (put_command "k" "v")]) (mem_node "a" []).
Definition follow_b : MemNode :=
  ran_to (raft_run (mem_node "b" ["a"]) [IAppendEntries (mkAppendEntries 1 "a" 0 0 [noop 1] 0)]) (mem_node "b" []).

(** A codec for these two requests and a successful reply, one character each. *)
Definition letter (c : ascii) : bytes := [c].
Definition TinyRaftJson : RaftWireJson := {|
  json_wire wm := if decide (wmKind wm = kindAppendEntries /\ wmData wm = letter "1") then Ok (letter "p")
                  else if decide (wmKind wm = kindAppendEntries /\ wmData wm = letter "2") then Ok (letter "q")
                  else if decide (wmKind wm = kindAppendEntriesReply /\ wmData wm = letter "3") then Ok (letter "r") else Err IOError;
  json_unwire b := match b with
                   | [c] | [c; _] => if Ascii.eqb c "p" then Some (mkWireMsg kindAppendEntries (letter "1"))
                            else if Ascii.eqb c "q" then Some (mkWireMsg kindAppendEntries (letter "2"))
                            else if Ascii.eqb c "r" then Some (mkWireMsg kindAppendEntriesReply (letter "3")) else None
                   | _ => None
                   end;
  json_compact b := b;
  json_rpc r := match r with
                | RpcAppend a => if decide (a = reqA) then Ok (letter "1") else if decide (a = reqB) then Ok (letter "2") else Err IOError
                | _ => Err IOError
                end;
  json_unvote _ := None;
  json_unappend b := if decide (b = letter "1") then Some reqA else if decide (b = letter "2") then Some reqB else None;
  json_uninstall _ := None;
  json_reply r := match r with
                  | ReAppend r => if decide (arTerm r = 1 /\ arSuccess r = true) then Ok (letter "3") else Err IOError
                  | _ => Err IOError
                  end;
  json_unvoteReply _ := None;
  json_unappendReply b := if decide (b = letter "3") then Some (mkAppendEntriesReply 1 true) else None;
  json_uninstallReply _ := None
|}.

Lemma TinyRaftJson_laws : @RaftWireLaws TinyRaftJson.
Proof.
  split.
  - intros [k d] b. simpl. intros E.
    assert (exists c, b = letter c /\ c <> nl /\
      @json_unwire TinyRaftJson [c] = Some (mkWireMsg k d) /\ @json_unwire TinyRaftJson [c; nl] = Some (mkWireMsg k d)) as (c & -> & Hc & H1 & H2).
    { repeat case_decide; simplify_eq; destruct_and!; simplify_eq; eexists; (split; [reflexivity|]); split_and!; done. }
    split_and!; [|done|done|].
    + intros Hin%list_elem_of_singleton. congruence.
    + intros p Hp Hne. destruct p as [|x p]; [done|]. exfalso. apply Hne. destruct Hp as [r Hr]. unfold letter in *. simpl in Hr.
      injection Hr as -> Hr. symmetry in Hr. apply app_nil in Hr as [-> _]. done.
  - intros [a|a|a] d; simpl; try done. intros E. split; [done|]. repeat case_decide; simplify_eq; done.
  - intros [r|r|r] d; simpl; try done. case_decide as H; [|done]. intros [= <-]. split; [done|]. destruct r, H. simpl in *. by subst.
Qed.

(** No certificates. *)
Definition NoX509 : X509 := {| append_certs _ := false; key_pair _ _ := None; parse_cert _ := None; chain_ok _ _ := false |}.

Definition sv_b : Served (F := TraceFsm) (W := RaftWal) (SS := MemSnapshots) (MS := MemMeta) := mkServed true None.
Definition call_a : TCPTransport := RegisterPeer "b" "x" (NewTCPTransport (Some "a")).

(** One call from start to end. *)
Definition one_call : list Event :=
  [EBegin "b" (ReqRpc (RpcAppend reqA)); ELookup 0; EDial 0 true; EWrite 0 None; EAnswer 0 (letter "r" ++ [nl]); ERead 0 RLine].

Lemma answer_A : served_answer (WJ := TinyRaftJson) sv_b (fun _ _ => True) (letter "p" ++ [nl]) (letter "r" ++ [nl]).
Proof.
  assert (match dispatch (WJ := TinyRaftJson) sv_b (letter "p" ++ [nl]) "" follow_b with
          | Some (Ok f, _) => f = letter "r" ++ [nl] | _ => False end) as H by (vm_compute; reflexivity).
  destruct (dispatch (WJ := TinyRaftJson) sv_b (letter "p" ++ [nl]) "" follow_b) as [[[f|] n']|] eqn:E; try done. subst f.
  by exists "", follow_b, n'.
Qed.

Lemma one_call_ok : events_ok (WJ := TinyRaftJson) (X := NoX509) (served_answer (WJ := TinyRaftJson) sv_b (fun _ _ => True)) call_a one_call.
Proof.
  unfold one_call. cbn [events_ok answers_in_turn one_at_a_time].
  split; [done|]. split; [by intros i cl|]. intros t1 E1. vm_compute in E1. injection E1 as <-.
  split; [done|]. split; [done|]. intros t2 E2. vm_compute in E2. injection E2 as <-.
  split; [done|]. split; [done|]. intros t3 E3. vm_compute in E3. injection E3 as <-.
  split; [done|]. split; [done|]. intros t4 E4. vm_compute in E4. injection E4 as <-.
  split.
  { intros k q [= <-] [= <-]. exact answer_A. }
  split; [done|]. intros t5 E5. vm_compute in E5. injection E5 as <-. by split_and!.
Qed.

Lemma rpc_own_reply_witness :
  exists n n' rep, handle_rpc (F := TraceFsm) (W := RaftWal) (SS := MemSnapshots) (MS := MemMeta) n (RpcAppend reqA) = Some (rep, n') /\
    RespRpc (ReAppend (mkAppendEntriesReply 1 true)) = RespRpc rep.
Proof.
  assert (match trun (WJ := TinyRaftJson) (X := NoX509) call_a one_call with
          | Some t => calls t !! 0 = Some (mkCall "b" (ReqRpc (RpcAppend reqA)) (PDone (Ok (RespRpc (ReAppend (mkAppendEntriesReply 1 true))))))
          | None => False end) as H by (vm_compute; reflexivity).
  destruct (trun (WJ := TinyRaftJson) (X := NoX509) call_a one_call) as [t|] eqn:E; [|destruct H].
  destruct (rpc_own_reply (WL := TinyRaftJson_laws) (X := NoX509) sv_b (fun _ _ => True) call_a one_call t 0 "b" (RpcAppend reqA)
    (RespRpc (ReAppend (mkAppendEntriesReply 1 true)))) as (n & n' & rep & _ & Hh & Hr).
  - split; [reflexivity|]. split; reflexivity.
  - exact one_call_ok.
  - exact E.
  - exact H.
  - exists n, n', rep. split; [exact Hh|exact Hr].
Defined.

(** A CA that vouches for a certificate without restrictions of its own: the bytes
    of a certificate are its name. *)
Definition NameX509 : X509 := {|
  append_certs _ := true; key_pair _ _ := None; parse_cert b := Some (mkCertificate [String.string_of_list_ascii b]); chain_ok _ _ := true
|}.

(** [z] is nobody that [b] knows, and sends an AppendEntries. *)
Lemma strangers_kept_out_witness :
  exists cfg certs, serverTLSConfig (X := NameX509) [] [] [] = Ok cfg /\ handshake (X := NameX509) cfg [letter "z"] = Some certs /\
    serve (WJ := TinyRaftJson) (X := NameX509) (Some cfg) sv_b [letter "z"] (fun _ => true) (letter "p" ++ [nl]) follow_b = Some ([], follow_b).
Proof.
  destruct (serverTLSConfig (X := NameX509) [] [] []) as [cfg|] eqn:Ec; [|discriminate].
  destruct (handshake (X := NameX509) cfg [letter "z"]) as [certs|] eqn:Eh; [|injection Ec as <-; discriminate].
  destruct (serve (WJ := TinyRaftJson) (X := NameX509) (Some cfg) sv_b [letter "z"] (fun _ => true) (letter "p" ++ [nl]) follow_b)
    as [[out n']|] eqn:Es; [|injection Ec as <-; vm_compute in Es; discriminate].
  destruct (strangers_kept_out (WJ := TinyRaftJson) (X := NameX509) sv_b eq [] [] [] cfg [letter "z"] certs (fun _ => true)
    (letter "p" ++ [nl]) follow_b out n') as [Hn Hout].
  - exact Ec.
  - exact Eh.
  - intros n1 <-. injection Ec as <-. injection Eh as <-. split; [vm_compute; discriminate|vm_compute; reflexivity].
  - intros ctl n1 data r n2 Hctl. discriminate.
  - exact Es.
  - exists cfg, certs. split; [reflexivity|]. split; [exact Eh|]. rewrite Es. rewrite <- Hn.
    destruct Hout as [|f out [reply Hf] _]; [reflexivity|]. exfalso. revert Hf. unfold rawMsg. simpl.
    repeat case_decide; destruct_and?; done.
Defined.

(** ** Overlapping calls *)

(** Two calls share a connection. The first one's read times out and it releases
    the mutex; before it gets to [forget], the second call, which was waiting for
    the mutex, writes its request and reads the answer to the first one's, which
    arrives late. *)
Definition overlapping_calls : list Event :=
  [EBegin "b" (ReqRpc (RpcAppend reqA)); EBegin "b" (ReqRpc (RpcAppend reqB));
   ELookup 0; EDial 0 true; ELookup 1; EDial 1 true;
   EWrite 0 None; ERead 0 (RError 0);
   EWrite 1 None; EAnswer 0 (letter "r" ++ [nl]); ERead 1 RLine].

(** The reply to a request is taken for the reply to another: the call that sent
    entry 2 returns success while the peer has answered only the earlier request
    and does not have the entry; the leader commits the entry on the strength of
    it, with a majority of one out of two. *)
Theorem stale_reply_commits :
  exists t n_a n_b,
    trun (WJ := TinyRaftJson) (X := NoX509) call_a overlapping_calls = Some t /\
    calls t !! 1 = Some (mkCall "b" (ReqRpc (RpcAppend reqB)) (PDone (Ok (RespRpc (ReAppend (mkAppendEntriesReply 1 true)))))) /\
    handle_rpc follow_b (RpcAppend reqA) = Some (ReAppend (mkAppendEntriesReply 1 true), n_b) /\
    (cAnswered <$> tnet t !! 0) = Some 1 /\ log_lastIndex (nlog n_b) = 1 /\
    replicateTo lead_a "b" = Some (RepAppend reqB) /\ commitIndex lead_a = 1 /\
    onAppendReply lead_a "b" reqB (mkAppendEntriesReply 1 true) = Some n_a /\ commitIndex n_a = 2.
Proof.
  eexists _, _, _. split; [vm_compute; reflexivity|]. split; [vm_compute; reflexivity|]. split; [vm_compute; reflexivity|].
  split; [vm_compute; reflexivity|]. split; [vm_compute; reflexivity|]. split; [vm_compute; reflexivity|].
  split; [vm_compute; reflexivity|]. split; vm_compute; reflexivity.
Qed.

(** Two failed calls close more than the connection they failed on: the second
    [forget] takes the entry that a third call has made in between out of the
    table before it is dialled, and the connection that is dialled afterwards is
    in no table and is never closed by [forget]. *)
Definition orphaned_connection : list Event :=
  [EBegin "b" (ReqRpc (RpcAppend reqA)); EBegin "b" (ReqRpc (RpcAppend reqA)); EBegin "b" (ReqRpc (RpcAppend reqA));
   ELookup 0; EDial 0 true; ELookup 1; EDial 1 true;
   EWrite 0 (Some 0); EWrite 1 (Some 0); EForget 0; ELookup 2; EForget 1; EDial 2 true; EWrite 2 (Some 0); EForget 2].

Theorem orphan_left_open :
  exists t, trun (WJ := TinyRaftJson) (X := NoX509) call_a orphaned_connection = Some t /\
    conns t !! "b" = None /\ (pcConn <$> tpcs t !! 1) = Some (Some 1) /\
    (fun cl => match clPhase cl with PDone _ => true | _ => false end) <$> calls t = [true; true; true].
Proof. eexists. split; [vm_compute; reflexivity|]. vm_compute. by repeat split. Qed.
