(* ===== verification/HotStuffTypes.v ===== *)
(** * HotStuff: blocks, certificates, validator sets and messages
      (internal/hotstuff: block.go, message.go, auth.go, epoch.go)

    Heights, views and epochs are uint64, an [N] below 2^64 with the wrap-around
    of additions written out: they arrive in messages from peers that may lie.
    The hash, the signature scheme and JSON are parameters. *)

From Stdlib Require Import Ascii.
From S2P Require Import Prelude WalTypes.
From stdpp Require Import pretty.

(** ** Cryptography *)

Definition u64_add (a b : N) : N := ((a + b) mod 2 ^ 64)%N.

(** [encoding/hex]. *)
Definition hex_digit (n : nat) : ascii :=
  ascii_of_nat (if (n <? 10)%nat then 48 + n else 87 + n).

Fixpoint hex (b : bytes) : string :=
  match b with
  | [] => ""
  | c :: b' => String (hex_digit (nat_of_ascii c / 16)) (String (hex_digit (nat_of_ascii c mod 16)) (hex b'))
  end.

(** ** Blocks and certificates (block.go) *)

Definition genesisID : string := "genesis".

Record QC : Type := mkQC {
  qEpoch : N;
  qNodeID : string;
  qHeight : N;
  qVotes : gmap string bytes
}.

(** A nil [Cmd] is the empty one. *)
Record Block : Type := mkBlock {
  bView : N;
  bHeight : N;
  bParent : string;
  bID : string;
  bCmd : bytes;
  bJustify : option QC;
  bEpoch : N
}.

#[export] Instance QC_eq_dec : EqDecision QC.
Proof. solve_decision. Defined.
#[export] Instance Block_eq_dec : EqDecision Block.
Proof. solve_decision. Defined.

Definition newQCEpoch (epoch : N) (nodeID : string) (height : N) : QC := mkQC epoch nodeID height ∅.
Definition newQC (nodeID : string) (height : N) : QC := newQCEpoch 0 nodeID height.

Definition genesisBlock (members : list string) : Block * QC :=
  let q := mkQC 0 genesisID 0 (list_to_map ((fun m => (m, [])) <$> members)) in
  (mkBlock 0 0 "" genesisID [] (Some q) 0, q).

(** [child] is nil when [None]. *)
Definition oneChainedBy (parent : Block) (child : option Block) : bool :=
  match child with
  | None => false
  | Some c =>
      negb (String.eqb (bParent c) "") && String.eqb (bParent c) (bID parent) &&
      match bJustify c with Some q => String.eqb (qNodeID q) (bID parent) | None => false end
  end.

#[global] Arguments oneChainedBy : simpl never.

(** ** Messages (message.go) *)

Record Vote : Type := mkVote { vtHeight : N; vtNodeID : string; vtVoter : string; vtSig : bytes }.
Record ViewChange : Type := mkViewChange {
  vcView : N; vcEpoch : N; vcHighQC : option QC; vcFrom : string; vcSig : bytes
}.
Record Proposal : Type := mkProposal {
  prBlock : Block; prFrom : string; prViewChanges : list ViewChange; prSig : bytes
}.
Record Fetch : Type := mkFetch { feBlockID : string; feTo : string; feFrom : string }.
Record BlockMsg : Type := mkBlockMsg { bmBlock : Block; bmFrom : string; bmSig : bytes }.
Record GetBlocks : Type := mkGetBlocks {
  gbRequestID : N; gbAnchor : string; gbTarget : string; gbTo : string; gbFrom : string
}.
Record BlockBatch : Type := mkBlockBatch {
  bbRequestID : N; bbAnchor : string; bbTarget : string; bbBlocks : list Block; bbFrom : string;
  bbSig : bytes
}.

(** ** Signatures (auth.go) *)

(** What is ever signed. *)
Inductive Signable : Type :=
  | SVote (v : Vote)
  | SProposal (p : Proposal)
  | SViewChange (vc : ViewChange)
  | SBlockMsg (bm : BlockMsg)
  | SBlockBatch (bb : BlockBatch).

(** A message without its signature field. *)
Definition unsigned (m : Signable) : Signable :=
  match m with
  | SVote v => SVote (mkVote (vtHeight v) (vtNodeID v) (vtVoter v) [])
  | SProposal p => SProposal (mkProposal (prBlock p) (prFrom p) (prViewChanges p) [])
  | SViewChange vc => SViewChange (mkViewChange (vcView vc) (vcEpoch vc) (vcHighQC vc) (vcFrom vc) [])
  | SBlockMsg bm => SBlockMsg (mkBlockMsg (bmBlock bm) (bmFrom bm) [])
  | SBlockBatch bb =>
      SBlockBatch (mkBlockBatch (bbRequestID bb) (bbAnchor bb) (bbTarget bb) (bbBlocks bb) (bbFrom bb) [])
  end.

(** crypto/sha256, crypto/ed25519, and [encoding/json] on messages with its map
    keys sorted. *)
Class Crypto : Type := {
  sha256 : bytes -> bytes;
  ed25519_Sign : bytes -> bytes -> bytes;
  ed25519_Verify : bytes -> bytes -> bytes -> bool;
  json_message : Signable -> option bytes
}.

(** Commands of the membership protocol, and [encoding/json] on them. *)
Record ValidatorEntry : Type := mkValidatorEntry { veID : string; vePub : bytes }.
Record MembershipChange : Type := mkMembershipChange {
  mcAdd : list ValidatorEntry; mcRemove : list string
}.
Class MembershipJson : Type := {
  json_membership : MembershipChange -> result bytes;
  json_unmembership : bytes -> option MembershipChange
}.

Section crypto.
Context {CR : Crypto}.

(** [fmt.Sprintf] with the format [%d:%d:%s:], hashed, then hashed with the
    command. *)
Definition blockID (view h : N) (parent : string) (cmd : bytes) : string :=
  let sum := sha256 (String.list_ascii_of_string
               (pretty view +:+ ":" +:+ pretty h +:+ ":" +:+ parent +:+ ":")) in
  hex (sha256 (sum ++ cmd)).

Definition canonicalSignable (m : Signable) : option bytes := json_message (unsigned m).

Definition signPayload (priv : bytes) (m : Signable) : bytes :=
  match canonicalSignable m with
  | Some b => ed25519_Sign priv b
  | None => []
  end.

Definition verifyPayload (pub sig : bytes) (m : Signable) : bool :=
  match canonicalSignable m with
  | Some b => ed25519_Verify pub b sig
  | None => false
  end.
End crypto.

(** ** Validator sets (epoch.go) *)

Record ValidatorSet : Type := mkValidatorSet {
  vsEpoch : N;
  Validators : list string;
  PublicKeys : gmap string bytes;
  vsF : nat;
  Quorum : nat;
  Hash : string
}.

#[export] Instance ValidatorSet_eq_dec : EqDecision ValidatorSet.
Proof. solve_decision. Defined.

(** [sort.SearchStrings] on a sorted slice: the first index not below [x]. *)
Fixpoint SearchStrings (l : list string) (x : string) : nat :=
  match l with
  | [] => 0
  | y :: l' => if String.ltb y x then 1 + SearchStrings l' x else 0
  end.

(** [sort.Strings]. *)
Definition sort_Strings (l : list string) : list string := merge_sort String.le l.

Definition set_has (s : ValidatorSet) (id : string) : bool :=
  match Validators s !! SearchStrings (Validators s) id with
  | Some x => String.eqb x id
  | None => false
  end.

Section sets.
Context {CR : Crypto}.

Definition setHash (ids : list string) (keys : gmap string bytes) : string :=
  let zero := ascii_of_nat 0 in
  hex (sha256 (concat (map (fun id =>
    String.list_ascii_of_string id ++ [zero] ++ default [] (keys !! id) ++ [zero]) ids))).

Definition newValidatorSet (epoch : N) (ids : list string) (keys : gmap string bytes) : ValidatorSet :=
  let f := (length ids - 1) / 3 in
  mkValidatorSet epoch ids keys f (2 * f + 1) (setHash ids keys).

(** The removals, one after the other; [None]: one is not a member. *)
Fixpoint remove_members (members : gset string) (ids : list string) : option (gset string) :=
  match ids with
  | [] => Some members
  | id :: ids' => if decide (id ∈ members) then remove_members (members ∖ {[id]}) ids' else None
  end.

Definition PublicKeySize : nat := 32.

Fixpoint add_members (members : gset string) (keys : gmap string bytes) (es : list ValidatorEntry)
    : option (gset string * gmap string bytes) :=
  match es with
  | [] => Some (members, keys)
  | a :: es' =>
      if decide (veID a ∈ members) then None
      else if negb (length (vePub a) =? PublicKeySize)%nat then None
      else add_members ({[veID a]} ∪ members) (<[veID a := vePub a]> keys) es'
  end.

Definition set_apply (s : ValidatorSet) (mc : MembershipChange) : option ValidatorSet :=
  members ← remove_members (list_to_set (Validators s)) (mcRemove mc);
  '(members, keys) ← add_members members (PublicKeys s) (mcAdd mc);
  if decide (members = ∅) then None
  else Some (newValidatorSet (u64_add (vsEpoch s) 1) (sort_Strings (elements members)) keys).
End sets.

Section membership.
Context {J : Json} {MJ : MembershipJson}.

Definition membershipCmd (mc : MembershipChange) : result bytes :=
  match json_membership mc with
  | Err e => Err e
  | Ok data => json_record (mkRecord OpMembership "" "" 0 0 0 0 [] data)
  end.

Definition isMembershipBlock (b : Block) : bool :=
  match bCmd b with
  | [] => false
  | cmd => match json_unrecord cmd with
           | Some rec => bool_decide (op rec = OpMembership)
           | None => false
           end
  end.

Definition membershipOf (b : Block) : option MembershipChange :=
  match bCmd b with
  | [] => None
  | cmd => rec ← json_unrecord cmd;
           if bool_decide (op rec = OpMembership) then json_unmembership (rdata rec) else None
  end.
End membership.
