(* ===== verification/HotStuff.v ===== *)
(** * A HotStuff replica
      (internal/hotstuff: node.go, epoch.go, viewchange.go, sync.go, gc.go, persist.go)

    The state of a replica and every handler, each one locked section. A nil
    dereference or an index out of range is a panic, [None]. The clock readings
    of a handler are one argument [now], in milliseconds. Walks along parent
    links take fuel, the number of blocks in the tree; they return [None] only on
    a cyclic tree. What a handler sends comes back as a list of messages. *)

From S2P Require Import Prelude WalTypes HotStuffTypes.

(** ** State (node.go, sync.go) *)

Record syncRequest : Type := mkSyncRequest {
  srID : N; srAnchor : string; srTarget : string; srPeer : string; srDeadline : Z
}.

Record Replica (F W : Type) : Type := mkReplica {
  rid : string;
  allIDs : list string;
  epoch : N;
  sets : gmap N ValidatorSet;
  leader0 : string;
  priv : bytes;
  pub : bytes;
  peerKeys : gmap string bytes;
  view : N;
  leader : string;
  active : bool;
  freshBase : bool;
  blocks : gmap string Block;
  qcHigh : option QC;
  headID : string;
  bLock : string;
  bExec : string;
  vHeight : N;
  pending : gmap string (list Proposal);
  pendingBlocks : gmap string (list Block);
  votes : gmap string (gmap string bytes);
  qcFormed : gset string;
  notify : gset string;
  appliedIDs : gset string;
  vcs : gmap N (gmap string ViewChange);
  vcSent : gset N;
  wantBase : option QC;
  baseFrom : string;
  fetches : gmap string Z;
  logStore : option W;
  recoverQCs : list QC;
  recoverExec : string;
  syncSeq : N;
  syncReqs : gmap N syncRequest;
  gcBase : string;
  gcRetention : N;
  fsm : F
}.
Arguments mkReplica {F W} _ _ _ _ _ _ _ _ _ _ _ _ _ _ _ _ _ _ _ _ _ _ _ _ _ _ _ _ _ _ _ _ _ _ _ _ _.
Arguments rid {F W} _.
Arguments allIDs {F W} _.
Arguments epoch {F W} _.
Arguments sets {F W} _.
Arguments leader0 {F W} _.
Arguments priv {F W} _.
Arguments pub {F W} _.
Arguments peerKeys {F W} _.
Arguments view {F W} _.
Arguments leader {F W} _.
Arguments active {F W} _.
Arguments freshBase {F W} _.
Arguments blocks {F W} _.
Arguments qcHigh {F W} _.
Arguments headID {F W} _.
Arguments bLock {F W} _.
Arguments bExec {F W} _.
Arguments vHeight {F W} _.
Arguments pending {F W} _.
Arguments pendingBlocks {F W} _.
Arguments votes {F W} _.
Arguments qcFormed {F W} _.
Arguments notify {F W} _.
Arguments appliedIDs {F W} _.
Arguments vcs {F W} _.
Arguments vcSent {F W} _.
Arguments wantBase {F W} _.
Arguments baseFrom {F W} _.
Arguments fetches {F W} _.
Arguments logStore {F W} _.
Arguments recoverQCs {F W} _.
Arguments recoverExec {F W} _.
Arguments syncSeq {F W} _.
Arguments syncReqs {F W} _.
Arguments gcBase {F W} _.
Arguments gcRetention {F W} _.
Arguments fsm {F W} _.

Section setters.
Context {F W : Type}.
Implicit Types n : Replica F W.

Definition set_epoch (x : N) n : Replica F W :=
  mkReplica (rid n) (allIDs n) x (sets n) (leader0 n) (priv n) (pub n) (peerKeys n) (view n)
    (leader n) (active n) (freshBase n) (blocks n) (qcHigh n) (headID n) (bLock n) (bExec n)
    (vHeight n) (pending n) (pendingBlocks n) (votes n) (qcFormed n) (notify n) (appliedIDs n)
    (vcs n) (vcSent n) (wantBase n) (baseFrom n) (fetches n) (logStore n) (recoverQCs n)
    (recoverExec n) (syncSeq n) (syncReqs n) (gcBase n) (gcRetention n) (fsm n).
Definition set_sets (x : gmap N ValidatorSet) n : Replica F W :=
  mkReplica (rid n) (allIDs n) (epoch n) x (leader0 n) (priv n) (pub n) (peerKeys n) (view n)
    (leader n) (active n) (freshBase n) (blocks n) (qcHigh n) (headID n) (bLock n) (bExec n)
    (vHeight n) (pending n) (pendingBlocks n) (votes n) (qcFormed n) (notify n) (appliedIDs n)
    (vcs n) (vcSent n) (wantBase n) (baseFrom n) (fetches n) (logStore n) (recoverQCs n)
    (recoverExec n) (syncSeq n) (syncReqs n) (gcBase n) (gcRetention n) (fsm n).
Definition set_peerKeys (x : gmap string bytes) n : Replica F W :=
  mkReplica (rid n) (allIDs n) (epoch n) (sets n) (leader0 n) (priv n) (pub n) x (view n)
    (leader n) (active n) (freshBase n) (blocks n) (qcHigh n) (headID n) (bLock n) (bExec n)
    (vHeight n) (pending n) (pendingBlocks n) (votes n) (qcFormed n) (notify n) (appliedIDs n)
    (vcs n) (vcSent n) (wantBase n) (baseFrom n) (fetches n) (logStore n) (recoverQCs n)
    (recoverExec n) (syncSeq n) (syncReqs n) (gcBase n) (gcRetention n) (fsm n).
Definition set_view (x : N) n : Replica F W :=
  mkReplica (rid n) (allIDs n) (epoch n) (sets n) (leader0 n) (priv n) (pub n) (peerKeys n) x
    (leader n) (active n) (freshBase n) (blocks n) (qcHigh n) (headID n) (bLock n) (bExec n)
    (vHeight n) (pending n) (pendingBlocks n) (votes n) (qcFormed n) (notify n) (appliedIDs n)
    (vcs n) (vcSent n) (wantBase n) (baseFrom n) (fetches n) (logStore n) (recoverQCs n)
    (recoverExec n) (syncSeq n) (syncReqs n) (gcBase n) (gcRetention n) (fsm n).
Definition set_leader (x : string) n : Replica F W :=
  mkReplica (rid n) (allIDs n) (epoch n) (sets n) (leader0 n) (priv n) (pub n) (peerKeys n)
    (view n) x (active n) (freshBase n) (blocks n) (qcHigh n) (headID n) (bLock n) (bExec n)
    (vHeight n) (pending n) (pendingBlocks n) (votes n) (qcFormed n) (notify n) (appliedIDs n)
    (vcs n) (vcSent n) (wantBase n) (baseFrom n) (fetches n) (logStore n) (recoverQCs n)
    (recoverExec n) (syncSeq n) (syncReqs n) (gcBase n) (gcRetention n) (fsm n).
Definition set_active (x : bool) n : Replica F W :=
  mkReplica (rid n) (allIDs n) (epoch n) (sets n) (leader0 n) (priv n) (pub n) (peerKeys n)
    (view n) (leader n) x (freshBase n) (blocks n) (qcHigh n) (headID n) (bLock n) (bExec n)
    (vHeight n) (pending n) (pendingBlocks n) (votes n) (qcFormed n) (notify n) (appliedIDs n)
    (vcs n) (vcSent n) (wantBase n) (baseFrom n) (fetches n) (logStore n) (recoverQCs n)
    (recoverExec n) (syncSeq n) (syncReqs n) (gcBase n) (gcRetention n) (fsm n).
Definition set_freshBase (x : bool) n : Replica F W :=
  mkReplica (rid n) (allIDs n) (epoch n) (sets n) (leader0 n) (priv n) (pub n) (peerKeys n)
    (view n) (leader n) (active n) x (blocks n) (qcHigh n) (headID n) (bLock n) (bExec n)
    (vHeight n) (pending n) (pendingBlocks n) (votes n) (qcFormed n) (notify n) (appliedIDs n)
    (vcs n) (vcSent n) (wantBase n) (baseFrom n) (fetches n) (logStore n) (recoverQCs n)
    (recoverExec n) (syncSeq n) (syncReqs n) (gcBase n) (gcRetention n) (fsm n).
Definition set_blocks (x : gmap string Block) n : Replica F W :=
  mkReplica (rid n) (allIDs n) (epoch n) (sets n) (leader0 n) (priv n) (pub n) (peerKeys n)
    (view n) (leader n) (active n) (freshBase n) x (qcHigh n) (headID n) (bLock n) (bExec n)
    (vHeight n) (pending n) (pendingBlocks n) (votes n) (qcFormed n) (notify n) (appliedIDs n)
    (vcs n) (vcSent n) (wantBase n) (baseFrom n) (fetches n) (logStore n) (recoverQCs n)
    (recoverExec n) (syncSeq n) (syncReqs n) (gcBase n) (gcRetention n) (fsm n).
Definition set_qcHigh (x : option QC) n : Replica F W :=
  mkReplica (rid n) (allIDs n) (epoch n) (sets n) (leader0 n) (priv n) (pub n) (peerKeys n)
    (view n) (leader n) (active n) (freshBase n) (blocks n) x (headID n) (bLock n) (bExec n)
    (vHeight n) (pending n) (pendingBlocks n) (votes n) (qcFormed n) (notify n) (appliedIDs n)
    (vcs n) (vcSent n) (wantBase n) (baseFrom n) (fetches n) (logStore n) (recoverQCs n)
    (recoverExec n) (syncSeq n) (syncReqs n) (gcBase n) (gcRetention n) (fsm n).
Definition set_headID (x : string) n : Replica F W :=
  mkReplica (rid n) (allIDs n) (epoch n) (sets n) (leader0 n) (priv n) (pub n) (peerKeys n)
    (view n) (leader n) (active n) (freshBase n) (blocks n) (qcHigh n) x (bLock n) (bExec n)
    (vHeight n) (pending n) (pendingBlocks n) (votes n) (qcFormed n) (notify n) (appliedIDs n)
    (vcs n) (vcSent n) (wantBase n) (baseFrom n) (fetches n) (logStore n) (recoverQCs n)
    (recoverExec n) (syncSeq n) (syncReqs n) (gcBase n) (gcRetention n) (fsm n).
Definition set_bLock (x : string) n : Replica F W :=
  mkReplica (rid n) (allIDs n) (epoch n) (sets n) (leader0 n) (priv n) (pub n) (peerKeys n)
    (view n) (leader n) (active n) (freshBase n) (blocks n) (qcHigh n) (headID n) x (bExec n)
    (vHeight n) (pending n) (pendingBlocks n) (votes n) (qcFormed n) (notify n) (appliedIDs n)
    (vcs n) (vcSent n) (wantBase n) (baseFrom n) (fetches n) (logStore n) (recoverQCs n)
    (recoverExec n) (syncSeq n) (syncReqs n) (gcBase n) (gcRetention n) (fsm n).
Definition set_bExec (x : string) n : Replica F W :=
  mkReplica (rid n) (allIDs n) (epoch n) (sets n) (leader0 n) (priv n) (pub n) (peerKeys n)
    (view n) (leader n) (active n) (freshBase n) (blocks n) (qcHigh n) (headID n) (bLock n) x
    (vHeight n) (pending n) (pendingBlocks n) (votes n) (qcFormed n) (notify n) (appliedIDs n)
    (vcs n) (vcSent n) (wantBase n) (baseFrom n) (fetches n) (logStore n) (recoverQCs n)
    (recoverExec n) (syncSeq n) (syncReqs n) (gcBase n) (gcRetention n) (fsm n).
Definition set_vHeight (x : N) n : Replica F W :=
  mkReplica (rid n) (allIDs n) (epoch n) (sets n) (leader0 n) (priv n) (pub n) (peerKeys n)
    (view n) (leader n) (active n) (freshBase n) (blocks n) (qcHigh n) (headID n) (bLock n)
    (bExec n) x (pending n) (pendingBlocks n) (votes n) (qcFormed n) (notify n) (appliedIDs n)
    (vcs n) (vcSent n) (wantBase n) (baseFrom n) (fetches n) (logStore n) (recoverQCs n)
    (recoverExec n) (syncSeq n) (syncReqs n) (gcBase n) (gcRetention n) (fsm n).
Definition set_pending (x : gmap string (list Proposal)) n : Replica F W :=
  mkReplica (rid n) (allIDs n) (epoch n) (sets n) (leader0 n) (priv n) (pub n) (peerKeys n)
    (view n) (leader n) (active n) (freshBase n) (blocks n) (qcHigh n) (headID n) (bLock n)
    (bExec n) (vHeight n) x (pendingBlocks n) (votes n) (qcFormed n) (notify n) (appliedIDs n)
    (vcs n) (vcSent n) (wantBase n) (baseFrom n) (fetches n) (logStore n) (recoverQCs n)
    (recoverExec n) (syncSeq n) (syncReqs n) (gcBase n) (gcRetention n) (fsm n).
Definition set_pendingBlocks (x : gmap string (list Block)) n : Replica F W :=
  mkReplica (rid n) (allIDs n) (epoch n) (sets n) (leader0 n) (priv n) (pub n) (peerKeys n)
    (view n) (leader n) (active n) (freshBase n) (blocks n) (qcHigh n) (headID n) (bLock n)
    (bExec n) (vHeight n) (pending n) x (votes n) (qcFormed n) (notify n) (appliedIDs n) (vcs n)
    (vcSent n) (wantBase n) (baseFrom n) (fetches n) (logStore n) (recoverQCs n) (recoverExec n)
    (syncSeq n) (syncReqs n) (gcBase n) (gcRetention n) (fsm n).
Definition set_votes (x : gmap string (gmap string bytes)) n : Replica F W :=
  mkReplica (rid n) (allIDs n) (epoch n) (sets n) (leader0 n) (priv n) (pub n) (peerKeys n)
    (view n) (leader n) (active n) (freshBase n) (blocks n) (qcHigh n) (headID n) (bLock n)
    (bExec n) (vHeight n) (pending n) (pendingBlocks n) x (qcFormed n) (notify n) (appliedIDs n)
    (vcs n) (vcSent n) (wantBase n) (baseFrom n) (fetches n) (logStore n) (recoverQCs n)
    (recoverExec n) (syncSeq n) (syncReqs n) (gcBase n) (gcRetention n) (fsm n).
Definition set_qcFormed (x : gset string) n : Replica F W :=
  mkReplica (rid n) (allIDs n) (epoch n) (sets n) (leader0 n) (priv n) (pub n) (peerKeys n)
    (view n) (leader n) (active n) (freshBase n) (blocks n) (qcHigh n) (headID n) (bLock n)
    (bExec n) (vHeight n) (pending n) (pendingBlocks n) (votes n) x (notify n) (appliedIDs n)
    (vcs n) (vcSent n) (wantBase n) (baseFrom n) (fetches n) (logStore n) (recoverQCs n)
    (recoverExec n) (syncSeq n) (syncReqs n) (gcBase n) (gcRetention n) (fsm n).
Definition set_notify (x : gset string) n : Replica F W :=
  mkReplica (rid n) (allIDs n) (epoch n) (sets n) (leader0 n) (priv n) (pub n) (peerKeys n)
    (view n) (leader n) (active n) (freshBase n) (blocks n) (qcHigh n) (headID n) (bLock n)
    (bExec n) (vHeight n) (pending n) (pendingBlocks n) (votes n) (qcFormed n) x (appliedIDs n)
    (vcs n) (vcSent n) (wantBase n) (baseFrom n) (fetches n) (logStore n) (recoverQCs n)
    (recoverExec n) (syncSeq n) (syncReqs n) (gcBase n) (gcRetention n) (fsm n).
Definition set_appliedIDs (x : gset string) n : Replica F W :=
  mkReplica (rid n) (allIDs n) (epoch n) (sets n) (leader0 n) (priv n) (pub n) (peerKeys n)
    (view n) (leader n) (active n) (freshBase n) (blocks n) (qcHigh n) (headID n) (bLock n)
    (bExec n) (vHeight n) (pending n) (pendingBlocks n) (votes n) (qcFormed n) (notify n) x
    (vcs n) (vcSent n) (wantBase n) (baseFrom n) (fetches n) (logStore n) (recoverQCs n)
    (recoverExec n) (syncSeq n) (syncReqs n) (gcBase n) (gcRetention n) (fsm n).
Definition set_vcs (x : gmap N (gmap string ViewChange)) n : Replica F W :=
  mkReplica (rid n) (allIDs n) (epoch n) (sets n) (leader0 n) (priv n) (pub n) (peerKeys n)
    (view n) (leader n) (active n) (freshBase n) (blocks n) (qcHigh n) (headID n) (bLock n)
    (bExec n) (vHeight n) (pending n) (pendingBlocks n) (votes n) (qcFormed n) (notify n)
    (appliedIDs n) x (vcSent n) (wantBase n) (baseFrom n) (fetches n) (logStore n)
    (recoverQCs n) (recoverExec n) (syncSeq n) (syncReqs n) (gcBase n) (gcRetention n) (fsm n).
Definition set_vcSent (x : gset N) n : Replica F W :=
  mkReplica (rid n) (allIDs n) (epoch n) (sets n) (leader0 n) (priv n) (pub n) (peerKeys n)
    (view n) (leader n) (active n) (freshBase n) (blocks n) (qcHigh n) (headID n) (bLock n)
    (bExec n) (vHeight n) (pending n) (pendingBlocks n) (votes n) (qcFormed n) (notify n)
    (appliedIDs n) (vcs n) x (wantBase n) (baseFrom n) (fetches n) (logStore n) (recoverQCs n)
    (recoverExec n) (syncSeq n) (syncReqs n) (gcBase n) (gcRetention n) (fsm n).
Definition set_wantBase (x : option QC) n : Replica F W :=
  mkReplica (rid n) (allIDs n) (epoch n) (sets n) (leader0 n) (priv n) (pub n) (peerKeys n)
    (view n) (leader n) (active n) (freshBase n) (blocks n) (qcHigh n) (headID n) (bLock n)
    (bExec n) (vHeight n) (pending n) (pendingBlocks n) (votes n) (qcFormed n) (notify n)
    (appliedIDs n) (vcs n) (vcSent n) x (baseFrom n) (fetches n) (logStore n) (recoverQCs n)
    (recoverExec n) (syncSeq n) (syncReqs n) (gcBase n) (gcRetention n) (fsm n).
Definition set_baseFrom (x : string) n : Replica F W :=
  mkReplica (rid n) (allIDs n) (epoch n) (sets n) (leader0 n) (priv n) (pub n) (peerKeys n)
    (view n) (leader n) (active n) (freshBase n) (blocks n) (qcHigh n) (headID n) (bLock n)
    (bExec n) (vHeight n) (pending n) (pendingBlocks n) (votes n) (qcFormed n) (notify n)
    (appliedIDs n) (vcs n) (vcSent n) (wantBase n) x (fetches n) (logStore n) (recoverQCs n)
    (recoverExec n) (syncSeq n) (syncReqs n) (gcBase n) (gcRetention n) (fsm n).
Definition set_fetches (x : gmap string Z) n : Replica F W :=
  mkReplica (rid n) (allIDs n) (epoch n) (sets n) (leader0 n) (priv n) (pub n) (peerKeys n)
    (view n) (leader n) (active n) (freshBase n) (blocks n) (qcHigh n) (headID n) (bLock n)
    (bExec n) (vHeight n) (pending n) (pendingBlocks n) (votes n) (qcFormed n) (notify n)
    (appliedIDs n) (vcs n) (vcSent n) (wantBase n) (baseFrom n) x (logStore n) (recoverQCs n)
    (recoverExec n) (syncSeq n) (syncReqs n) (gcBase n) (gcRetention n) (fsm n).
Definition set_logStore (x : option W) n : Replica F W :=
  mkReplica (rid n) (allIDs n) (epoch n) (sets n) (leader0 n) (priv n) (pub n) (peerKeys n)
    (view n) (leader n) (active n) (freshBase n) (blocks n) (qcHigh n) (headID n) (bLock n)
    (bExec n) (vHeight n) (pending n) (pendingBlocks n) (votes n) (qcFormed n) (notify n)
    (appliedIDs n) (vcs n) (vcSent n) (wantBase n) (baseFrom n) (fetches n) x (recoverQCs n)
    (recoverExec n) (syncSeq n) (syncReqs n) (gcBase n) (gcRetention n) (fsm n).
Definition set_recoverQCs (x : list QC) n : Replica F W :=
  mkReplica (rid n) (allIDs n) (epoch n) (sets n) (leader0 n) (priv n) (pub n) (peerKeys n)
    (view n) (leader n) (active n) (freshBase n) (blocks n) (qcHigh n) (headID n) (bLock n)
    (bExec n) (vHeight n) (pending n) (pendingBlocks n) (votes n) (qcFormed n) (notify n)
    (appliedIDs n) (vcs n) (vcSent n) (wantBase n) (baseFrom n) (fetches n) (logStore n) x
    (recoverExec n) (syncSeq n) (syncReqs n) (gcBase n) (gcRetention n) (fsm n).
Definition set_recoverExec (x : string) n : Replica F W :=
  mkReplica (rid n) (allIDs n) (epoch n) (sets n) (leader0 n) (priv n) (pub n) (peerKeys n)
    (view n) (leader n) (active n) (freshBase n) (blocks n) (qcHigh n) (headID n) (bLock n)
    (bExec n) (vHeight n) (pending n) (pendingBlocks n) (votes n) (qcFormed n) (notify n)
    (appliedIDs n) (vcs n) (vcSent n) (wantBase n) (baseFrom n) (fetches n) (logStore n)
    (recoverQCs n) x (syncSeq n) (syncReqs n) (gcBase n) (gcRetention n) (fsm n).
Definition set_syncSeq (x : N) n : Replica F W :=
  mkReplica (rid n) (allIDs n) (epoch n) (sets n) (leader0 n) (priv n) (pub n) (peerKeys n)
    (view n) (leader n) (active n) (freshBase n) (blocks n) (qcHigh n) (headID n) (bLock n)
    (bExec n) (vHeight n) (pending n) (pendingBlocks n) (votes n) (qcFormed n) (notify n)
    (appliedIDs n) (vcs n) (vcSent n) (wantBase n) (baseFrom n) (fetches n) (logStore n)
    (recoverQCs n) (recoverExec n) x (syncReqs n) (gcBase n) (gcRetention n) (fsm n).
Definition set_syncReqs (x : gmap N syncRequest) n : Replica F W :=
  mkReplica (rid n) (allIDs n) (epoch n) (sets n) (leader0 n) (priv n) (pub n) (peerKeys n)
    (view n) (leader n) (active n) (freshBase n) (blocks n) (qcHigh n) (headID n) (bLock n)
    (bExec n) (vHeight n) (pending n) (pendingBlocks n) (votes n) (qcFormed n) (notify n)
    (appliedIDs n) (vcs n) (vcSent n) (wantBase n) (baseFrom n) (fetches n) (logStore n)
    (recoverQCs n) (recoverExec n) (syncSeq n) x (gcBase n) (gcRetention n) (fsm n).
Definition set_gcBase (x : string) n : Replica F W :=
  mkReplica (rid n) (allIDs n) (epoch n) (sets n) (leader0 n) (priv n) (pub n) (peerKeys n)
    (view n) (leader n) (active n) (freshBase n) (blocks n) (qcHigh n) (headID n) (bLock n)
    (bExec n) (vHeight n) (pending n) (pendingBlocks n) (votes n) (qcFormed n) (notify n)
    (appliedIDs n) (vcs n) (vcSent n) (wantBase n) (baseFrom n) (fetches n) (logStore n)
    (recoverQCs n) (recoverExec n) (syncSeq n) (syncReqs n) x (gcRetention n) (fsm n).
Definition set_fsm (x : F) n : Replica F W :=
  mkReplica (rid n) (allIDs n) (epoch n) (sets n) (leader0 n) (priv n) (pub n) (peerKeys n)
    (view n) (leader n) (active n) (freshBase n) (blocks n) (qcHigh n) (headID n) (bLock n)
    (bExec n) (vHeight n) (pending n) (pendingBlocks n) (votes n) (qcFormed n) (notify n)
    (appliedIDs n) (vcs n) (vcSent n) (wantBase n) (baseFrom n) (fetches n) (logStore n)
    (recoverQCs n) (recoverExec n) (syncSeq n) (syncReqs n) (gcBase n) (gcRetention n) x.
End setters.

(** ** Interfaces *)

(** The function that executes a committed command ([applyFn]). A durable node's
    writes to the same log as the replica, which it is handed here. *)
Class Executor (F W : Type) : Type := hs_apply : option W -> F -> Block -> option W * F.

(** What is written to the log (persist.go); [POther] is a kind the code does
    not know. *)
Inductive persistEntry : Type :=
  | pkBlock (b : Block)
  | pkQC (qc : option QC)
  | pkApplied (execID : string)
  | pkVoted (votedH : N)
  | POther.

Class PersistJson : Type := {
  json_persist : persistEntry -> result bytes;
  json_unpersist : bytes -> option persistEntry
}.

(** What a handler sends, and to whom. *)
Inductive Out : Type :=
  | SendProposal (peer : string) (p : Proposal)
  | SendVote (peer : string) (v : Vote)
  | SendViewChange (peer : string) (vc : ViewChange)
  | SendFetch (peer : string) (f : Fetch)
  | SendBlock (peer : string) (bm : BlockMsg)
  | SendGetBlocks (peer : string) (g : GetBlocks)
  | SendBlockBatch (peer : string) (bb : BlockBatch).

Definition fetchTTL : Z := 2000.
Definition syncTTL : Z := 2000.
Definition pruneFetchThreshold : nat := 1024.
Definition maxSyncBlocks : nat := 512.
Definition defaultGCRetention : N := 100.

Section hotstuff.
Context {F W : Type}.
Context {EX : Executor F W} {WW : Wal W} {CR : Crypto} {J : Json} {MJ : MembershipJson} {PJ : PersistJson}.
Abbreviation Rep := (Replica F W).
Implicit Types n : Rep.

(** ** Persistence (persist.go) *)

Definition SetLogStore (w : W) n : Rep := set_logStore (Some w) n.

(** The four methods of the WAL-backed log store. *)
Definition appendEntry (w : W) (pe : persistEntry) : W * option error :=
  match json_persist pe with
  | Err e => (w, Some e)
  | Ok data => wal_append w (mkRecord OpHotStuff "" "" 0 0 0 0 [] data)
  end.

Definition persistLocked (pe : persistEntry) n : option error * Rep :=
  match logStore n with
  | None => (None, n)
  | Some w => let '(w', e) := appendEntry w pe in (e, set_logStore (Some w') n)
  end.

Definition persistRecordLocked (pe : persistEntry) n : Rep := (persistLocked pe n).2.

Definition persistVotedLocked (h : N) n : option error * Rep := persistLocked (pkVoted h) n.

(** ** Identities (auth.go) *)

Definition SetPeerKey (peer : string) (pk : bytes) n : bool * Rep :=
  if (length pk =? 0)%nat then (false, n)
  else if match peerKeys n !! peer with
          | Some old => negb (length old =? 0)%nat && negb (bool_decide (old = pk))
          | None => false
          end
  then (false, n)
  else
    let n := set_peerKeys (<[peer := pk]> (peerKeys n)) n in
    match sets n !! 0%N with
    | Some s =>
        if set_has s peer then
          (true, set_sets (<[0%N := mkValidatorSet (vsEpoch s) (Validators s)
                     (<[peer := pk]> (PublicKeys s)) (vsF s) (Quorum s) (Hash s)]> (sets n)) n)
        else (true, n)
    | None => (true, n)
    end.

Definition sign n (m : Signable) : bytes := signPayload (priv n) m.

Definition verify n (sender : string) (sig : bytes) (m : Signable) : bool :=
  match peerKeys n !! sender with
  | Some pk => negb (length pk =? 0)%nat && verifyPayload pk sig m
  | None => false
  end.

Definition verifyInSet (set : option ValidatorSet) (sender : string) (sig : bytes) (m : Signable) : bool :=
  match set with
  | None => false
  | Some s =>
      match PublicKeys s !! sender with
      | Some pk => negb (length pk =? 0)%nat && verifyPayload pk sig m
      | None => false
      end
  end.

(** The vote that [voter] signed for what [qc] certifies. *)
Definition voteOf (qc : QC) (voter : string) : Vote := mkVote (qHeight qc) (qNodeID qc) voter [].

Definition qcValid n (qc : option QC) : bool :=
  match qc with
  | None => false
  | Some q =>
      if String.eqb (qNodeID q) genesisID then (qHeight q =? 0)%N && (qEpoch q =? 0)%N
      else match sets n !! qEpoch q with
           | None => false
           | Some s =>
               if (size (qVotes q) <? Quorum s)%nat then false
               else if match blocks n !! qNodeID q with
                       | Some b => negb (bHeight b =? qHeight q)%N || negb (bEpoch b =? qEpoch q)%N
                       | None => false
                       end then false
               else forallb (fun p => set_has s p.1 &&
                      match PublicKeys s !! p.1 with
                      | Some pk => negb (length pk =? 0)%nat && verifyPayload pk p.2 (SVote (voteOf q p.1))
                      | None => false
                      end) (map_to_list (qVotes q))
           end
  end.

(** ** Epochs (epoch.go) *)

(** The ancestry of a block, itself first, down to the block [stop] or the end
    of the tree. *)
Fixpoint chain (fuel : nat) (t : gmap string Block) (stop : string) (cur : option Block)
    : option (list Block) :=
  match cur with
  | None => Some []
  | Some b =>
      if String.eqb (bID b) stop then Some []
      else match fuel with
           | O => None
           | S fuel' => cons b <$> chain fuel' t stop (t !! bParent b)
           end
  end.

Definition fuel_of n : nat := S (size (blocks n)).

(** The committed transitions of an ancestry, newest first; [c1], [c2], [c3]
    are the three blocks above the current one. *)
Fixpoint transitions (c1 c2 c3 : option Block) (l : list Block) : list Block :=
  match l with
  | [] => []
  | cur :: l' =>
      let rest := transitions (Some cur) c1 c2 l' in
      match c1, c2, c3 with
      | Some b1, Some b2, Some _ =>
          if (isMembershipBlock cur && oneChainedBy cur c1 && oneChainedBy b1 c2 && oneChainedBy b2 c3)%bool
          then cur :: rest else rest
      | _, _, _ => rest
      end
  end.

(** Derive a set through the transitions, oldest first. *)
Fixpoint derive (set : option ValidatorSet) (ts : list Block) : option ValidatorSet :=
  match ts with
  | [] => set
  | t :: ts' =>
      match membershipOf t, set with
      | Some mc, Some s => match set_apply s mc with Some s' => derive (Some s') ts' | None => None end
      | _, _ => None
      end
  end.

Definition epochAndSetOfLocked n (b : Block) : option (N * option ValidatorSet) :=
  match blocks n !! gcBase n with
  | None => Some (0%N, sets n !! 0%N)
  | Some base =>
      let baseEpoch := bEpoch base in
      let baseSet := sets n !! baseEpoch in
      if (bHeight b <=? bHeight base)%N then Some (baseEpoch, baseSet)
      else
        l ← chain (fuel_of n) (blocks n) (gcBase n) (Some b);
        let ts := transitions None None None l in
        Some (u64_add baseEpoch (N.of_nat (length ts)), derive baseSet (rev ts))
  end.

(** The index is computed in int: it is negative, a panic, when the view
    exceeds 2^63. *)
Definition leaderOfSet n (set : option ValidatorSet) (v : N) : option string :=
  match set with
  | None => Some ""
  | Some s =>
      if (length (Validators s) =? 0)%nat then Some ""
      else
        let i := SearchStrings (Validators s) (leader0 n) in
        let idx := match Validators s !! i with
                   | Some x => if String.eqb x (leader0 n) then i else 0
                   | None => 0
                   end in
        let k := Z.rem (int64_wrap (Z.of_nat idx + int64_wrap (Z.of_N v)))
                       (Z.of_nat (length (Validators s))) in
        if (k <? 0)%Z then None else Validators s !! Z.to_nat k
  end.

Definition leaderOfEpoch n (e v : N) : option string := leaderOfSet n (sets n !! e) v.
Definition leaderOf n (v : N) : option string := leaderOfEpoch n (epoch n) v.

Definition knownMemberLocked n (id : string) : bool :=
  existsb (fun p => set_has p.2 id) (map_to_list (sets n)).

Definition activateTransitionLocked (b : Block) n : Rep :=
  if negb (isMembershipBlock b) then n
  else match membershipOf b, sets n !! bEpoch b with
       | Some mc, Some old =>
           match set_apply old mc with
           | Some ns => set_epoch (vsEpoch ns) (set_sets (<[vsEpoch ns := ns]> (sets n)) n)
           | None => n
           end
       | _, _ => n
       end.

(** ** The chain rules (node.go) *)

Definition IsLeader n : bool := String.eqb (rid n) (leader n) && active n.

Definition highestBlockHeightLocked n : N :=
  map_fold (fun _ b m => N.max (bHeight b) m) 0%N (blocks n).

Definition markAppliedLocked (id : string) n : Rep :=
  if decide (id ∈ appliedIDs n) then n
  else set_notify (notify n ∖ {[id]}) (set_appliedIDs ({[id]} ∪ appliedIDs n) n).

(** The blocks from [cur] down to, and without, [stop], newest first. *)
Fixpoint span (fuel : nat) (t : gmap string Block) (stop : string) (cur : option Block)
    : option (list Block) :=
  match cur with
  | None => Some []
  | Some b =>
      if String.eqb (bID b) stop then Some []
      else if String.eqb (bParent b) "" then Some [b]
      else match fuel with
           | O => None
           | S fuel' => cons b <$> span fuel' t stop (t !! bParent b)
           end
  end.

Definition executeBlock n (b : Block) : Rep :=
  let n := if (negb (length (bCmd b) =? 0)%nat && negb (String.eqb (bID b) genesisID))%bool
           then let '(l, f) := hs_apply (logStore n) (fsm n) b in set_logStore l (set_fsm f n) else n in
  let n := activateTransitionLocked b n in
  markAppliedLocked (bID b) (set_bExec (bID b) n).

Definition commitUpToLocked (gp : Block) n : option Rep :=
  s ← span (fuel_of n) (blocks n) (bExec n) (Some gp);
  let n := foldl executeBlock n (rev s) in
  Some (persistRecordLocked (pkApplied (bExec n)) n).

Definition onNewQCLocked (qc : option QC) n : option Rep :=
  match qc with
  | None => Some n
  | Some q =>
      if negb (qcValid n (Some q)) then Some n
      else if match qcHigh n with Some h => (qHeight q <=? qHeight h)%N | None => false end then Some n
      else
        let n := persistRecordLocked (pkQC (Some q)) (set_qcHigh (Some q) n) in
        match blocks n !! qNodeID q with
        | None => Some n
        | Some c =>
            match blocks n !! bParent c with
            | None => if String.eqb (bParent c) "" then Some n else None
            | Some parent =>
                if negb (oneChainedBy parent (Some c)) then Some n
                else
                  lock ← blocks n !! bLock n;
                  let n := if (bHeight lock <? bHeight parent)%N then set_bLock (bID parent) n else n in
                  match blocks n !! bParent parent with
                  | None => Some n
                  | Some gp =>
                      if oneChainedBy gp (Some parent) then
                        exec ← blocks n !! bExec n;
                        if (bHeight exec <? bHeight gp)%N then commitUpToLocked gp n else Some n
                      else Some n
                  end
            end
        end
  end.

(** ** Views (viewchange.go) *)

Definition enterViewLockedEpoch (v e : N) n : option (bool * Rep) :=
  if (v <=? view n)%N then Some (false, n)
  else
    let n := set_view v n in
    l ← leaderOfEpoch n e v;
    Some (true, set_active false (set_leader l n)).

Definition enterViewLocked (v : N) n : option (bool * Rep) := enterViewLockedEpoch v (epoch n) n.

Definition activateWithBaseLocked (base : option QC) n : Rep :=
  let n := match base with
           | Some q => if String.eqb (qNodeID q) "" then n else set_headID (qNodeID q) n
           | None => n
           end in
  let n := set_active (String.eqb (rid n) (leader n)) (set_freshBase true n) in
  set_baseFrom "" (set_wantBase None n).

(** Whether [q] beats the highest certificate known. *)
Definition raises (q : QC) n : bool :=
  match qcHigh n with None => true | Some h => (qHeight h <? qHeight q)%N end.

Definition completeBaseLocked (id : string) n : option Rep :=
  match wantBase n with
  | None => Some n
  | Some high =>
      if negb (String.eqb id (qNodeID high)) then Some n
      else
        n ← (if raises high n then onNewQCLocked (Some high) (set_qcHigh (Some high) n) else Some n);
        Some (activateWithBaseLocked (qcHigh n) n)
  end.

Definition fetchInFlightLocked (now : Z) n (id : string) : bool :=
  match fetches n !! id with Some ts => (now - ts <? fetchTTL)%Z | None => false end.

Definition markFetchLocked (now : Z) (id : string) n : Rep :=
  let fs := if (pruneFetchThreshold <? size (fetches n))%nat
            then filter (fun p => (now - p.2 < fetchTTL)%Z) (fetches n) else fetches n in
  set_fetches (<[id := now]> fs) n.

(** ** Block sync requests (sync.go) *)

Definition syncInFlightLocked (now : Z) n (target : string) : bool :=
  existsb (fun p => String.eqb (srTarget p.2) target && (now <? srDeadline p.2)%Z) (map_to_list (syncReqs n)).

Definition markSyncLocked (now : Z) (anchor target peer : string) n : syncRequest * Rep :=
  let rs := if (pruneFetchThreshold <? size (syncReqs n))%nat
            then filter (fun p => (now <= srDeadline p.2)%Z) (syncReqs n) else syncReqs n in
  let id := u64_add (syncSeq n) 1 in
  let req := mkSyncRequest id anchor target peer (now + syncTTL) in
  (req, set_syncReqs (<[id := req]> rs) (set_syncSeq id n)).

(** ** The block tree (node.go) *)

(** Parked blocks whose parent is still missing stay parked. *)
Fixpoint park (bs : list Block) n : Rep :=
  match bs with
  | [] => n
  | b :: bs' =>
      park bs' (set_pendingBlocks
        (<[bParent b := default [] (pendingBlocks n !! bParent b) ++ [b]]> (pendingBlocks n)) n)
  end.

(** One block taken off the worklist: the unblocked proposals, and the parked
    blocks to go on with. *)
Definition insertBlock (cur : Block) n : option (list Proposal * list Block * Rep) :=
  match blocks n !! bID cur with
  | Some _ => Some ([], [], n)
  | None =>
      '(want, set) ← epochAndSetOfLocked n cur;
      if (negb (bEpoch cur =? want)%N || match set with None => true | Some _ => false end)%bool
      then Some ([], [], n)
      else
        let n := set_blocks (<[bID cur := cur]> (blocks n)) n in
        let n := set_fetches (delete (bID cur) (fetches n)) n in
        let n := persistRecordLocked (pkBlock cur) n in
        h ← blocks n !! headID n;
        let n := if (bHeight h <? bHeight cur)%N then set_headID (bID cur) n else n in
        n ← onNewQCLocked (bJustify cur) n;
        n ← completeBaseLocked (bID cur) n;
        let kids := default [] (pending n !! bID cur) in
        let n := set_pending (delete (bID cur) (pending n)) n in
        let parked := default [] (pendingBlocks n !! bID cur) in
        let n := set_pendingBlocks (delete (bID cur) (pendingBlocks n)) n in
        let ready := filter (fun pb => is_Some (blocks n !! bParent pb)) parked in
        let n := park (filter (fun pb => ~ is_Some (blocks n !! bParent pb)) parked) n in
        Some (kids, ready, n)
  end.

(** The worklist is a stack, its top first. One unit of fuel per block taken. *)
Fixpoint insertAll (fuel : nat) (work : list Block) (kids : list Proposal) n
    : option (list Proposal * Rep) :=
  match work with
  | [] => Some (kids, n)
  | cur :: work' =>
      match fuel with
      | O => None
      | S fuel' =>
          '(ks, ready, n) ← insertBlock cur n;
          insertAll fuel' (rev ready ++ work') (kids ++ ks) n
      end
  end.

Definition parkedCount n : nat :=
  sum_list (map (fun p => length p.2) (map_to_list (pendingBlocks n))).

Definition addBlockLocked (b : Block) n : option (list Proposal * Rep) :=
  insertAll (S (parkedCount n)) [b] [] n.

(** ** Proposals (node.go) *)

Fixpoint extends_from (fuel : nat) (t : gmap string Block) (cur lock : string) : option bool :=
  if String.eqb cur "" then Some false
  else if String.eqb cur lock then Some true
  else match t !! cur with
       | None => Some false
       | Some b => match fuel with
                   | O => None
                   | S fuel' => extends_from fuel' t (bParent b) lock
                   end
       end.

Definition extendsLocked n (b : Block) (lock : option Block) : option bool :=
  match lock with
  | None => Some true
  | Some l => extends_from (fuel_of n) (blocks n) (bParent b) (bID l)
  end.

(** The certificate's view changes: distinct signers of one epoch. *)
Fixpoint distinctVCs (v e : N) (set : ValidatorSet) (seen : gset string) (l : list ViewChange)
    : option (gset string) :=
  match l with
  | [] => Some seen
  | vc :: l' =>
      if (negb (vcView vc =? v)%N || negb (vcEpoch vc =? e)%N || negb (set_has set (vcFrom vc)) ||
          bool_decide (vcFrom vc ∈ seen) ||
          negb (verifyInSet (Some set) (vcFrom vc) (vcSig vc) (SViewChange vc)))%bool
      then None
      else distinctVCs v e set ({[vcFrom vc]} ∪ seen) l'
  end.

Definition proposalViewCertValidLocked n (v : N) (l : list ViewChange) : bool :=
  match l with
  | [] => false
  | vc0 :: _ =>
      let e := vcEpoch vc0 in
      match sets n !! e with
      | None => false
      | Some set =>
          if (length l <? Quorum set)%nat then false
          else match distinctVCs v e set ∅ l with
               | None => false
               | Some seen => (Quorum set <=? size seen)%nat
               end
      end
  end.

(** What [handleProposalLocked] returns: the vote, the unblocked proposals and
    the requests to send. *)
Record handled : Type := mkHandled {
  hVote : option Vote; hKids : list Proposal; hFetch : option Fetch; hSync : option GetBlocks
}.
Definition nothing : handled := mkHandled None [] None None.

(** A proposal whose parent is missing is buffered and the gap requested. *)
Definition bufferProposal (now : Z) (p : Proposal) n : option (handled * Rep) :=
  let b := prBlock p in
  let n := set_pending (<[bParent b := default [] (pending n !! bParent b) ++ [p]]> (pending n)) n in
  h ← blocks n !! headID n;
  if (u64_add (bHeight h) 3 <? bHeight b)%N then
    if syncInFlightLocked now n (bParent b) then Some (nothing, n)
    else
      let '(req, n) := markSyncLocked now (bExec n) (bParent b) (prFrom p) n in
      Some (mkHandled None [] None
        (Some (mkGetBlocks (srID req) (srAnchor req) (bParent b) (prFrom p) (rid n))), n)
  else if fetchInFlightLocked now n (bParent b) then Some (nothing, n)
  else
    let n := markFetchLocked now (bParent b) n in
    Some (mkHandled None [] (Some (mkFetch (bParent b) (prFrom p) "")) None, n).

(** The vote for an inserted block. *)
Definition castVote (b : Block) n : option Vote * Rep :=
  if (vHeight n <? bHeight b)%N then
    let n := set_vHeight (bHeight b) n in
    let '(err, n) := persistVotedLocked (bHeight b) n in
    match err with
    | Some _ => (None, n)
    | None =>
        let v := mkVote (bHeight b) (bID b) (rid n) [] in
        (Some (mkVote (bHeight b) (bID b) (rid n) (sign n (SVote v))), n)
    end
  else (None, n).

Definition handleProposalLocked (now : Z) (p : Proposal) n : option (handled * Rep) :=
  let b := prBlock p in
  if negb (String.eqb (bID b) (blockID (bView b) (bHeight b) (bParent b) (bCmd b))) then Some (nothing, n)
  else match blocks n !! bID b with
  | Some _ => Some (nothing, n)
  | None =>
    exec ← blocks n !! bExec n;
    if (bHeight b <=? bHeight exec)%N then Some (nothing, n)
    else match blocks n !! bParent b with
    | None => bufferProposal now p n
    | Some parent =>
      match bJustify b with
      | None => Some (nothing, n)
      | Some just =>
        if (negb (qcValid n (Some just)) || negb (String.eqb (qNodeID just) (bParent b)) ||
            (bHeight b <=? bHeight parent)%N)%bool then Some (nothing, n)
        else
          '(want, set) ← epochAndSetOfLocked n b;
          if (negb (bEpoch b =? want)%N || match set with None => true | _ => false end)%bool
          then Some (nothing, n)
          else
            l ← leaderOfSet n set (bView b);
            if (negb (String.eqb (prFrom p) l) || negb (verifyInSet set (prFrom p) (prSig p) (SProposal p)))%bool
            then Some (nothing, n)
            else if (bView b <? view n)%N then Some (nothing, n)
            else if ((view n <? bView b)%N && negb (proposalViewCertValidLocked n (bView b) (prViewChanges p)))%bool
            then Some (nothing, n)
            else
              n ← (if (view n <? bView b)%N then snd <$> enterViewLockedEpoch (bView b) (bEpoch b) n else Some n);
              let lock := blocks n !! bLock n in
              ext ← extendsLocked n b lock;
              safe ← (if (ext : bool) then Some true
                      else lk ← lock; Some (bHeight lk <? qHeight just)%N);
              if negb (safe : bool) then Some (nothing, n)
              else
                '(kids, n) ← addBlockLocked b n;
                let '(vote, n) := castVote b n in
                Some (mkHandled vote kids None None, n)
      end
    end
  end.

(** [HandleProposal] and its calls on the unblocked proposals, in the order of
    the recursion. One unit of fuel per proposal. *)
Fixpoint HandleProposals (fuel : nat) (now : Z) (ps : list Proposal) (out : list Out) n
    : option (list Out * Rep) :=
  match ps with
  | [] => Some (out, n)
  | p :: ps' =>
      match fuel with
      | O => None
      | S fuel' =>
          '(h, n) ← handleProposalLocked now p n;
          let out := out ++
            match hFetch h with
            | Some f => [SendFetch (feTo f) (mkFetch (feBlockID f) "" (rid n))] | None => [] end ++
            match hSync h with Some g => [SendGetBlocks (gbTo g) g] | None => [] end ++
            match hVote h with Some v => [SendVote (prFrom p) v] | None => [] end in
          HandleProposals fuel' now (hKids h ++ ps') out n
      end
  end.

Definition pendingCount n : nat :=
  sum_list (map (fun p => length p.2) (map_to_list (pending n))).

(** [HandleProposal] on each of the proposals an insertion unblocked. *)
Definition HandleKids (now : Z) (kids : list Proposal) n : option (list Out * Rep) :=
  HandleProposals (S (pendingCount n) + length kids) now kids [] n.

Definition HandleProposal (now : Z) (p : Proposal) n : option (list Out * Rep) :=
  HandleProposals (S (pendingCount n)) now [p] [] n.

(** ** Votes and new blocks (node.go) *)

Definition voteForBlockLocked (v : Vote) n : option Rep :=
  match blocks n !! vtNodeID v with
  | None => Some n
  | Some blk =>
      match sets n !! bEpoch blk with
      | None => Some n
      | Some set =>
          if (negb (set_has set (vtVoter v)) || negb (vtHeight v =? bHeight blk)%N)%bool then Some n
          else match PublicKeys set !! vtVoter v with
          | None => Some n
          | Some pk =>
              if negb (verifyPayload pk (vtSig v) (SVote v)) then Some n
              else
                let setVotes := default ∅ (votes n !! vtNodeID v) in
                if match setVotes !! vtVoter v with Some s => negb (length s =? 0)%nat | None => false end
                then Some (set_votes (<[vtNodeID v := setVotes]> (votes n)) n)
                else
                  let setVotes := <[vtVoter v := vtSig v]> setVotes in
                  let n := set_votes (<[vtNodeID v := setVotes]> (votes n)) n in
                  if ((size setVotes <? Quorum set)%nat || bool_decide (vtNodeID v ∈ qcFormed n))%bool
                  then Some n
                  else
                    let n := set_qcFormed ({[vtNodeID v]} ∪ qcFormed n) n in
                    onNewQCLocked (Some (mkQC (bEpoch blk) (vtNodeID v) (bHeight blk) setVotes)) n
          end
      end
  end.

Definition HandleVote (v : Vote) n : option Rep :=
  if String.eqb (rid n) (leader n) then voteForBlockLocked v n else Some n.

Definition proposeLocked (cmd : bytes) n : option (Proposal * Rep) :=
  parent ← blocks n !! headID n;
  let '(h, n) := if freshBase n then (u64_add (bHeight parent) 2, set_freshBase false n)
                 else (u64_add (bHeight parent) 1, n) in
  let maxH := highestBlockHeightLocked n in
  let h := if (h <=? maxH)%N then u64_add maxH 1 else h in
  let b := mkBlock (view n) h (headID n) (blockID (view n) h (headID n) cmd) cmd (qcHigh n) (epoch n) in
  let n := set_headID (bID b) (set_blocks (<[bID b := b]> (blocks n)) n) in
  let n := persistRecordLocked (pkBlock b) n in
  let self := mkVote h (bID b) (rid n) [] in
  n ← voteForBlockLocked (mkVote h (bID b) (rid n) (sign n (SVote self))) n;
  let vcl := if (0 <? view n)%N
             then (map_to_list (default ∅ (vcs n !! view n))).*2 else [] in
  let p := mkProposal b (rid n) vcl [] in
  Some (mkProposal b (rid n) vcl (sign n (SProposal p)), n).

(** [n.sets[n.epoch]] is dereferenced. *)
Definition broadcast (p : Proposal) n : option (list Out) :=
  set ← sets n !! epoch n;
  Some ((fun id => SendProposal id p) <$> filter (fun id => id <> rid n) (Validators set)).

Definition Propose (cmd : bytes) n : option (result string * list Out * Rep) :=
  if (negb (String.eqb (rid n) (leader n)) || negb (active n))%bool then Some (Err HotStuffNotLeader, [], n)
  else if match qcHigh n with None => true | Some q => negb (String.eqb (qNodeID q) (headID n)) end
  then Some (Err HotStuffBusy, [], n)
  else
    '(p, n) ← proposeLocked cmd n;
    out ← broadcast p n;
    Some (Ok (bID (prBlock p)), out, n).

(** Whether [WaitCommitted] returns at once, and with what; [None]: it waits. *)
Definition WaitCommitted (id : string) n : option (option error) * Rep :=
  if decide (id ∈ appliedIDs n) then (Some None, n)
  else match blocks n !! id with
       | None => (Some (Some HotStuffUnknownBlock), n)
       | Some _ => (None, set_notify ({[id]} ∪ notify n) n)
       end.

(** ** View changes (viewchange.go) *)

Definition addVC (vc : ViewChange) n : option Rep :=
  match sets n !! epoch n with
  | None => Some n
  | Some set =>
      if negb (set_has set (vcFrom vc)) then Some n
      else
        l ← leaderOfEpoch n (epoch n) (vcView vc);
        if negb (String.eqb (rid n) l) then Some n
        else Some (set_vcs (<[vcView vc := <[vcFrom vc := vc]> (default ∅ (vcs n !! vcView vc))]> (vcs n)) n)
  end.

Definition reports (high : QC) (vc : ViewChange) : bool :=
  match vcHighQC vc with
  | Some q => String.eqb (qNodeID q) (qNodeID high) && (qHeight q =? qHeight high)%N
  | None => false
  end.

Definition vcReporterLocked n (high : QC) : string :=
  match List.find (reports high) (map_to_list (default ∅ (vcs n !! view n))).*2 with
  | Some vc => vcFrom vc
  | None => ""
  end.

Definition adoptBaseLocked (now : Z) (high : option QC) n : option (option Fetch * Rep) :=
  if negb (String.eqb (rid n) (leader n)) then Some (None, n)
  else match high with
  | None => Some (None, activateWithBaseLocked (qcHigh n) n)
  | Some q =>
      if raises q n then
        match blocks n !! qNodeID q with
        | None =>
            let from := vcReporterLocked n q in
            if String.eqb from "" then Some (None, activateWithBaseLocked (qcHigh n) n)
            else
              let n := set_baseFrom from (set_wantBase (Some q) n) in
              if fetchInFlightLocked now n (qNodeID q) then Some (None, n)
              else Some (Some (mkFetch (qNodeID q) from ""), markFetchLocked now (qNodeID q) n)
        | Some _ =>
            n ← onNewQCLocked (Some q) (set_qcHigh (Some q) n);
            Some (None, activateWithBaseLocked (qcHigh n) n)
        end
      else Some (None, activateWithBaseLocked (qcHigh n) n)
  end.

(** The highest genuine certificate among those reported. *)
Definition highestReported n (l : list ViewChange) : option QC :=
  foldl (fun high vc =>
    match vcHighQC vc with
    | Some q =>
        if (qcValid n (Some q) && match high with None => true | Some h => (qHeight h <? qHeight q)%N end)%bool
        then Some q else high
    | None => high
    end) (qcHigh n) l.

Definition maybeActivateLocked (now : Z) (v : N) n : option (option Fetch * Rep) :=
  match sets n !! epoch n with
  | None => Some (None, n)
  | Some set =>
      l ← leaderOfEpoch n (epoch n) v;
      if negb (String.eqb (rid n) l) then Some (None, n)
      else if (size (default ∅ (vcs n !! v)) <? Quorum set)%nat then Some (None, n)
      else
        '(ok, n) ← (if (view n <? v)%N then enterViewLocked v n else Some (true, n));
        if (negb ok || negb (v =? view n)%N)%bool then Some (None, n)
        else adoptBaseLocked now (highestReported n (map_to_list (default ∅ (vcs n !! v))).*2) n
  end.

(** [sendFetch]. *)
Definition sendFetch n (f : option Fetch) : list Out :=
  match f with
  | Some f => if String.eqb (feTo f) "" then [] else [SendFetch (feTo f) (mkFetch (feBlockID f) "" (rid n))]
  | None => []
  end.

Definition HandleViewChange (now : Z) (vc : ViewChange) n : option (list Out * Rep) :=
  if negb (vcEpoch vc =? epoch n)%N then Some ([], n)
  else match sets n !! epoch n with
  | None => Some ([], n)
  | Some set =>
      if negb (set_has set (vcFrom vc)) then Some ([], n)
      else
        l ← leaderOfEpoch n (epoch n) (vcView vc);
        if negb (String.eqb (rid n) l) then Some ([], n)
        else if (negb (verifyInSet (Some set) (vcFrom vc) (vcSig vc) (SViewChange vc)) || (vcView vc <? view n)%N)%bool
        then Some ([], n)
        else
          n ← addVC vc n;
          '(f, n) ← maybeActivateLocked now (vcView vc) n;
          Some (sendFetch n f, n)
  end.

Definition StartViewChange (now : Z) n : option (list Out * Rep) :=
  '(target, n) ← (if ((view n =? 0)%N || bool_decide (view n ∈ vcSent n))%bool
                  then let t := u64_add (view n) 1 in
                       '(_, n) ← enterViewLocked t n; Some (t, n)
                  else Some (view n, n));
  if (negb (target =? 0)%N && bool_decide (target ∉ vcSent n))%bool then
    let n := set_vcSent ({[target]} ∪ vcSent n) n in
    let vc := mkViewChange target (epoch n) (qcHigh n) (rid n) [] in
    let vc := mkViewChange target (epoch n) (qcHigh n) (rid n) (sign n (SViewChange vc)) in
    let sendTo := leader n in
    if String.eqb (rid n) sendTo then
      n ← addVC vc n;
      '(f, n) ← maybeActivateLocked now target n;
      Some (sendFetch n f, n)
    else Some ([SendViewChange sendTo vc], n)
  else Some ([], n).

(** The suspicion timer: the interval and the height seen at the last tick. A
    tick compares the height now; the interval is an int64 of nanoseconds. *)
Definition qcHighHeightLocked n : N := match qcHigh n with Some q => qHeight q | None => 0%N end.

Record viewTimer : Type := mkViewTimer { vtInterval : Z; vtLast : N }.

Definition viewTick (base : Z) (now : Z) (t : viewTimer) n : option (list Out * viewTimer * Rep) :=
  let h := qcHighHeightLocked n in
  if (vtLast t <? h)%N then Some ([], mkViewTimer base h, n)
  else if negb (IsLeader n) then
    '(out, n) ← StartViewChange now n;
    Some (out, mkViewTimer (int64_wrap (vtInterval t * 2)) h, n)
  else Some ([], mkViewTimer (vtInterval t) h, n).

(** ** Fetching blocks (viewchange.go) *)

Definition HandleFetch (f : Fetch) n : list Out :=
  if knownMemberLocked n (feFrom f) then
    match blocks n !! feBlockID f with
    | Some b =>
        let bm := mkBlockMsg b (rid n) [] in
        [SendBlock (feFrom f) (mkBlockMsg b (rid n) (sign n (SBlockMsg bm)))]
    | None => []
    end
  else [].

Definition requestBlock (now : Z) (peer id : string) n : list Out * Rep :=
  match blocks n !! id with
  | Some _ => ([], n)
  | None =>
      if fetchInFlightLocked now n id then ([], n)
      else (sendFetch n (Some (mkFetch id peer "")), markFetchLocked now id n)
  end.

(** The evidence a fetched block must carry. *)
Definition wanted n (b : Block) : bool :=
  String.eqb (bID b) (blockID (bView b) (bHeight b) (bParent b) (bCmd b)) &&
  match blocks n !! bID b with None => true | Some _ => false end.

Definition admissible (now : Z) n (b exec : Block) : bool :=
  (bHeight exec <? bHeight b)%N && fetchInFlightLocked now n (bID b) &&
  match bJustify b with
  | Some q => qcValid n (Some q) && String.eqb (qNodeID q) (bParent b) && (qHeight q <? bHeight b)%N
  | None => false
  end.

Definition HandleBlock (now : Z) (bm : BlockMsg) n : option (list Out * Rep) :=
  if (negb (knownMemberLocked n (bmFrom bm)) || negb (verify n (bmFrom bm) (bmSig bm) (SBlockMsg bm)))%bool
  then Some ([], n)
  else
    let b := bmBlock bm in
    if negb (wanted n b) then Some ([], n)
    else
    exec ← blocks n !! bExec n;
    if admissible now n b exec then
      match blocks n !! bParent b with
      | None =>
          if String.eqb (bParent b) "" then
            '(kids, n) ← addBlockLocked b n; HandleKids now kids n
          else
            let n := set_pendingBlocks
              (<[bParent b := default [] (pendingBlocks n !! bParent b) ++ [b]]> (pendingBlocks n)) n in
            Some (requestBlock now (bmFrom bm) (bParent b) n)
      | Some _ =>
          '(kids, n) ← addBlockLocked b n; HandleKids now kids n
      end
    else Some ([], n).

(** ** Range sync (sync.go) *)

(** From [cur] down to [anchor], which is included; the flag tells whether it
    was met. *)
Fixpoint walkTo (fuel : nat) (t : gmap string Block) (anchor : string) (cur : option Block)
    : option (list Block * bool) :=
  match cur with
  | None => Some ([], false)
  | Some b =>
      if String.eqb (bID b) anchor then Some ([b], true)
      else if String.eqb (bParent b) "" then Some ([b], false)
      else match fuel with
           | O => None
           | S fuel' => '(l, found) ← walkTo fuel' t anchor (t !! bParent b); Some (b :: l, found)
           end
  end.

Definition collectRangeLocked n (anchor target : string) : option (list Block) :=
  '(l, found) ← walkTo (fuel_of n) (blocks n) anchor (blocks n !! target);
  Some (if (found : bool) then take maxSyncBlocks (drop 1 (rev l)) else []).

Definition HandleGetBlocks (g : GetBlocks) n : option (list Out) :=
  bs ← (if knownMemberLocked n (gbFrom g) then collectRangeLocked n (gbAnchor g) (gbTarget g) else Some []);
  match bs with
  | [] => Some []
  | _ =>
      let bb := mkBlockBatch (gbRequestID g) (gbAnchor g) (gbTarget g) bs (rid n) [] in
      Some [SendBlockBatch (gbFrom g) (mkBlockBatch (gbRequestID g) (gbAnchor g) (gbTarget g) bs (rid n)
             (sign n (SBlockBatch bb)))]
  end.

(** Whether the blocks chain onto a parent of id [prev] (not checked for the
    first one), height [prevH] and epoch [wantEpoch]. *)
Fixpoint batchSound n (prev : option string) (prevH wantEpoch : N) (bs : list Block) : bool :=
  match bs with
  | [] => true
  | b :: bs' =>
      String.eqb (bID b) (blockID (bView b) (bHeight b) (bParent b) (bCmd b)) &&
      match prev with Some p => String.eqb (bParent b) p | None => true end &&
      match bJustify b with
      | Some q => qcValid n (Some q) && String.eqb (qNodeID q) (bParent b) && (qHeight q =? prevH)%N &&
                  (qEpoch q =? wantEpoch)%N && (prevH <? bHeight b)%N
      | None => false
      end &&
      batchSound n (Some (bID b)) (bHeight b) (bEpoch b) bs'
  end.

Fixpoint insertBatch (bs : list Block) (kids : list Proposal) n : option (list Proposal * Rep) :=
  match bs with
  | [] => Some (kids, n)
  | b :: bs' =>
      match blocks n !! bID b with
      | Some _ => insertBatch bs' kids n
      | None => '(ks, n) ← addBlockLocked b n; insertBatch bs' (kids ++ ks) n
      end
  end.

Definition insertBatchLocked (bs : list Block) n : option (list Proposal * Rep) :=
  match bs with
  | [] => Some ([], n)
  | lowest :: _ =>
      match blocks n !! bParent lowest with
      | None => Some ([], n)
      | Some anchor =>
          if batchSound n None (bHeight anchor) (bEpoch anchor) bs then insertBatch bs [] n
          else Some ([], n)
      end
  end.

Definition HandleBlockBatch (now : Z) (bb : BlockBatch) n : option (list Out * Rep) :=
  match syncReqs n !! bbRequestID bb with
  | None => Some ([], n)
  | Some req =>
      if (negb (String.eqb (srPeer req) (bbFrom bb)) || (srDeadline req <? now)%Z)%bool then Some ([], n)
      else if negb (verify n (bbFrom bb) (bbSig bb) (SBlockBatch bb)) then Some ([], n)
      else
        '(kids, n) ← insertBatchLocked (bbBlocks bb) n;
        let n := set_syncReqs (delete (bbRequestID bb) (syncReqs n)) n in
        let '(cont, n) :=
          match blocks n !! bbTarget bb, last (bbBlocks bb) with
          | None, Some b =>
              match blocks n !! bID b with
              | Some _ =>
                  let '(req, n) := markSyncLocked now (bID b) (bbTarget bb) (bbFrom bb) n in
                  ([SendGetBlocks (bbFrom bb)
                      (mkGetBlocks (srID req) (srAnchor req) (bbTarget bb) (bbFrom bb) (rid n))], n)
              | None => ([], n)
              end
          | _, _ => ([], n)
          end in
        '(out, n) ← HandleKids now kids n;
        Some (out ++ cont, n)
  end.

(** ** Garbage collection (gc.go) *)

Record Checkpoint : Type := mkCheckpoint {
  cpGCBase : string; cpBExec : string; cpBLock : string; cpHead : string; cpQC : option QC;
  cpEpoch : N; cpVHeight : N; cpSets : option (gmap N ValidatorSet); cpBlocks : list Block
}.

(** The first block at or below height [target] on the way down. *)
Fixpoint descend (fuel : nat) (t : gmap string Block) (target : N) (cur : option Block)
    : option (option Block) :=
  match cur with
  | None => Some None
  | Some b =>
      if (bHeight b <=? target)%N then Some (Some b)
      else match fuel with
           | O => None
           | S fuel' => descend fuel' t target (t !! bParent b)
           end
  end.

(** The ids from [cur] down while the height is at least [low]. *)
Fixpoint prefixDown (fuel : nat) (t : gmap string Block) (low : N) (cur : option Block)
    : option (list string) :=
  match cur with
  | None => Some []
  | Some b =>
      if (bHeight b <? low)%N then Some []
      else match fuel with
           | O => None
           | S fuel' => cons (bID b) <$> prefixDown fuel' t low (t !! bParent b)
           end
  end.

Definition block_le (a b : Block) : Prop :=
  (bHeight a < bHeight b)%N \/ bHeight a = bHeight b /\ String.le (bID a) (bID b).
#[global] Instance block_le_dec : RelDecision block_le.
Proof. intros a b. unfold block_le. apply _. Defined.

(** Drop the blocks outside [keep] with their bookkeeping. *)
Definition discard (keep : gset string) n : Rep :=
  let gone := dom (blocks n) ∖ keep in
  let drop {A} (m : gmap string A) : gmap string A := filter (fun p => p.1 ∉ gone) m in
  let n := set_blocks (drop (blocks n)) n in
  let n := set_votes (drop (votes n)) n in
  let n := set_qcFormed (qcFormed n ∖ gone) n in
  let n := set_appliedIDs (appliedIDs n ∖ gone) n in
  let n := set_notify (notify n ∖ gone) n in
  let n := set_pending (drop (pending n)) n in
  let n := set_pendingBlocks (drop (pendingBlocks n)) n in
  set_fetches (drop (fetches n)) n.

Definition gcLocked n : option (option Checkpoint * Rep) :=
  match blocks n !! bExec n with
  | None => Some (None, n)
  | Some exec =>
      let target := if (gcRetention n <? bHeight exec)%N then (bHeight exec - gcRetention n)%N else 0%N in
      b0 ← descend (fuel_of n) (blocks n) target (Some exec);
      match match b0 with Some b => Some b | None => blocks n !! genesisID end with
      | None => Some (None, n)
      | Some base =>
          if String.eqb (bID base) (gcBase n) then Some (None, n)
          else
            prefix ← prefixDown (fuel_of n) (blocks n) (bHeight base) (Some exec);
            let tail := dom (filter (fun p => (bHeight exec <= bHeight p.2)%N) (blocks n)) in
            let keep := {[genesisID]} ∪ list_to_set prefix ∪ tail in
            let kept := merge_sort block_le (omap (fun id => blocks n !! id) (elements keep)) in
            let cp := mkCheckpoint (bID base) (bExec n) (bLock n) (headID n) (qcHigh n) (epoch n)
                        (vHeight n) (Some (sets n)) kept in
            Some (Some cp, set_gcBase (bID base) (discard keep n))
      end
  end.

Definition GC n : option (option Checkpoint * Rep) := gcLocked n.

(** Mark a list of blocks applied. *)
Definition markAll (bs : list Block) n : Rep := foldl (fun n b => markAppliedLocked (bID b) n) n bs.

(** A block and its ancestors, newest first. *)
Fixpoint ancestry (fuel : nat) (t : gmap string Block) (cur : option Block) : option (list Block) :=
  match cur with
  | None => Some []
  | Some b =>
      if String.eqb (bParent b) "" then Some [b]
      else match fuel with
           | O => None
           | S fuel' => cons b <$> ancestry fuel' t (t !! bParent b)
           end
  end.

Definition LoadCheckpoint (cp : Checkpoint) n : option Rep :=
  let t := foldl (fun t b => <[bID b := b]> t) ∅ (cpBlocks cp) in
  let t := match t !! genesisID with
           | None => <[genesisID := (genesisBlock (allIDs n)).1]> t
           | Some _ => t
           end in
  let n := set_blocks t n in
  let base := if (String.eqb (cpGCBase cp) "" || negb (bool_decide (is_Some (t !! cpGCBase cp))))%bool
              then genesisID else cpGCBase cp in
  let n := set_gcBase base n in
  let n := set_headID (cpHead cp) (set_qcHigh (cpQC cp) n) in
  let n := set_bLock (cpBLock cp) (set_bExec (cpBExec cp) n) in
  let n := set_vHeight (cpVHeight cp) (set_epoch (cpEpoch cp) n) in
  let n := match cpSets cp with Some s => set_sets s n | None => n end in
  bs ← ancestry (fuel_of n) (blocks n) (blocks n !! bExec n);
  Some (markAll bs n).

(** ** Recovery (persist.go) *)

Definition ApplyRecoveredRecord (rec : Record_) n : option error * Rep :=
  if negb (bool_decide (op rec = OpHotStuff)) then (None, n)
  else match json_unpersist (rdata rec) with
  | None => (Some (Wrapped "json"), n)
  | Some pe =>
      (None, match pe with
      | pkBlock b =>
          if (String.eqb (bID b) genesisID ||
              negb (String.eqb (bID b) (blockID (bView b) (bHeight b) (bParent b) (bCmd b))))%bool then n
          else if (negb (String.eqb (bParent b) "") && negb (bool_decide (is_Some (blocks n !! bParent b))))%bool
          then n
          else match blocks n !! bID b with
               | Some _ => n
               | None => set_blocks (<[bID b := b]> (blocks n)) n
               end
      | pkQC (Some q) => set_recoverQCs (recoverQCs n ++ [q]) n
      | pkQC None => n
      | pkApplied id => match blocks n !! id with Some _ => set_recoverExec id n | None => n end
      | pkVoted h => if (vHeight n <? h)%N then set_vHeight h n else n
      | POther => n
      end)
  end.

(** Fold one recovered certificate: the certificate, lock and executed block
    found so far. The executed block may be missing, which is a panic where its
    height is read. *)
Definition recoverQC (acc : QC * Block * option Block * Rep) (q : QC)
    : option (QC * Block * option Block * Rep) :=
  let '(high, lock, exec, n) := acc in
  if (qHeight q <=? qHeight high)%N then Some acc
  else match blocks n !! qNodeID q with
  | None => Some (q, lock, exec, n)
  | Some c =>
      match blocks n !! bParent c with
      | None => Some (q, lock, exec, n)
      | Some parent =>
          if negb (oneChainedBy parent (Some c)) then Some (q, lock, exec, n)
          else
            let lock := if (bHeight lock <? bHeight parent)%N then parent else lock in
            match blocks n !! bParent parent with
            | Some gp =>
                if oneChainedBy gp (Some parent) then
                  ex ← exec;
                  if (bHeight ex <? bHeight gp)%N
                  then Some (q, lock, Some gp, activateTransitionLocked gp n)
                  else Some (q, lock, exec, n)
                else Some (q, lock, exec, n)
            | None => Some (q, lock, exec, n)
            end
      end
  end.

Fixpoint recoverAll (acc : QC * Block * option Block * Rep) (qs : list QC)
    : option (QC * Block * option Block * Rep) :=
  match qs with
  | [] => Some acc
  | q :: qs' => acc ← recoverQC acc q; recoverAll acc qs'
  end.

Definition finishRecoveryLocked n : option Rep :=
  high0 ← qcHigh n;
  lock0 ← blocks n !! bLock n;
  '(high, lock, exec, n) ← recoverAll (high0, lock0, blocks n !! bExec n, n) (recoverQCs n);
  exec ← (match (if String.eqb (recoverExec n) "" then None else blocks n !! recoverExec n) with
          | Some wm => ex ← exec; Some (Some (if (bHeight ex <? bHeight wm)%N then wm else ex))
          | None => Some exec
          end);
  let '(high, exec) := match blocks n !! qNodeID high with
                       | Some _ => (high, exec)
                       | None => (high0, blocks n !! genesisID)
                       end in
  exec ← exec;
  let n := set_headID (qNodeID high) (set_qcHigh (Some high) n) in
  let n := set_bExec (bID exec) (set_bLock (bID lock) n) in
  bs ← span (fuel_of n) (blocks n) "" (Some exec);
  Some (set_recoverExec "" (set_recoverQCs [] (markAll bs n))).

Definition FinishRecovery n : option Rep := finishRecoveryLocked n.

(** ** Construction (node.go)

    [kp] is the replica's key pair, given or generated. *)
Definition NewReplica (id : string) (ps : list string) (lead : string) (kp : bytes * bytes)
    (retention : N) (f : F) : result Rep :=
  if String.eqb id "" then Err (Wrapped "hotstuff: replica id is required")
  else
    let lead := if String.eqb lead "" then id else lead in
    let all := id :: ps in
    if negb (bool_decide (NoDup all)) then Err (Wrapped "hotstuff: duplicate replica id")
    else if negb (bool_decide (lead ∈ all)) then Err (Wrapped "hotstuff: leader is not a cluster member")
    else
      let all := sort_Strings all in
      let '(g, gq) := genesisBlock all in
      let '(pk, sk) := kp in
      let set0 := newValidatorSet 0 all {[id := pk]} in
      let retention := if (retention =? 0)%N then defaultGCRetention else retention in
      Ok (mkReplica id all 0 {[0%N := set0]} lead sk pk {[id := pk]} 0 lead (String.eqb id lead) false
            {[genesisID := g]} (Some gq) genesisID genesisID genesisID 0 ∅ ∅ ∅ ∅ ∅ ∅ ∅ ∅ None "" ∅
            None [] "" 0 ∅ genesisID retention f).
End hotstuff.

#[global] Arguments qcValid : simpl never.
#[global] Arguments onNewQCLocked : simpl never.
#[global] Arguments commitUpToLocked : simpl never.
#[global] Arguments executeBlock : simpl never.
#[global] Arguments completeBaseLocked : simpl never.
#[global] Arguments voteForBlockLocked : simpl never.
#[global] Arguments insertBlock : simpl never.
#[global] Arguments addBlockLocked : simpl never.
#[global] Arguments handleProposalLocked : simpl never.
#[global] Arguments persistRecordLocked : simpl never.
#[global] Arguments leaderOfEpoch : simpl never.
#[global] Arguments fuel_of : simpl never.
#[global] Arguments HandleKids : simpl never.
