(* ===== verification/HotStuffProps.v ===== *)
(** * A HotStuff replica: lemmas

    What the handlers leave alone, and that walks along a tree's parent links
    end. *)

From S2P Require Import Prelude WalTypes HotStuffTypes HotStuff.

(** What one log becomes another by: appending. *)
Definition log_grows {W} {WW : Wal W} {WT : WalTrace W} (l l' : option W) : Prop :=
  (l = None <-> l' = None) /\ wal_content l `prefix_of` wal_content l'.

(** An executor that only appends to the log. *)
Class ExecTrace (F W : Type) {EX : Executor F W} {WW : Wal W} {WT : WalTrace W} : Prop :=
  exec_log : forall l f b, log_grows l (hs_apply l f b).1.

(** The highest block of a tree. *)
Lemma highest_spec {F W : Type} (n : Replica F W) :
  (forall id b, blocks n !! id = Some b -> (bHeight b <= highestBlockHeightLocked n)%N) /\
  (highestBlockHeightLocked n = 0%N \/
   exists id b, blocks n !! id = Some b /\ bHeight b = highestBlockHeightLocked n).
Proof.
  unfold highestBlockHeightLocked. generalize (blocks n) as m. clear. intros m.
  apply (map_fold_weak_ind (fun r m => (forall id b, m !! id = Some b -> (bHeight b <= r)%N) /\
    (r = 0%N \/ exists id b, m !! id = Some b /\ bHeight b = r))).
  - split; [|by left]. by intros ? ? ?%lookup_empty_Some.
  - intros k b m' r Hk [IH1 IH2]. split.
    + intros id b' [[_ <-]|[_ H1]]%lookup_insert_Some; [lia|]. apply IH1 in H1. lia.
    + destruct (N.max_spec (bHeight b) r) as [[Hlt ->]|[Hle ->]].
      * destruct IH2 as [|(id & b' & Hb' & Hr)]; [by left|]. right. exists id, b'. split; [|done].
        rewrite lookup_insert_ne; [done|]. intros <-. by rewrite Hk in Hb'.
      * right. exists k, b. by rewrite lookup_insert_eq.
Qed.

Section frames.
Context {F W : Type}.
Context {EX : Executor F W} {WW : Wal W} {WT : WalTrace W} {CR : Crypto} {J : Json} {MJ : MembershipJson}
  {PJ : PersistJson} {EL : ExecTrace F W}.
Implicit Types n : Replica F W.

Definition log_of n : list Record_ := wal_content (logStore n).

(** The handlers below the level of proposals keep the identity, the view and
    the vote guard, and only append to the log. *)
Definition grows n n' : Prop :=
  rid n' = rid n /\ priv n' = priv n /\ view n' = view n /\ vHeight n' = vHeight n /\
  (logStore n = None <-> logStore n' = None) /\ log_of n `prefix_of` log_of n'.

Lemma grows_refl n : grows n n.
Proof. by repeat split. Qed.

Lemma grows_trans n1 n2 n3 : grows n1 n2 -> grows n2 n3 -> grows n1 n3.
Proof.
  intros (?&?&?&?&?&?) (?&?&?&?&?&?). unfold grows. split_and!; try congruence; [naive_solver|].
  by etrans.
Qed.

Lemma persistLocked_log pe n e n' :
  persistLocked pe n = (e, n') ->
  grows n n' /\ (e = None -> logStore n <> None ->
    exists data, json_persist pe = Ok data /\
      log_of n' = log_of n ++ [mkRecord OpHotStuff "" "" 0 0 0 0 [] data]).
Proof.
  unfold persistLocked, log_of, appendEntry. destruct (logStore n) as [w|] eqn:Ew.
  - destruct (json_persist pe) as [data|er] eqn:Ej.
    + destruct (wal_append w _) as [w' er] eqn:Ea. intros [= <- <-].
      destruct (wal_append_log _ _ _ _ Ea) as (l & Hl & Hok). unfold grows, log_of. simpl. rewrite Ew, Hl.
      split; [split_and!; auto; [done|by apply prefix_app_r]|].
      intros -> _. exists data. by rewrite Hok.
    + intros [= <- <-]. unfold grows, log_of. simpl. rewrite Ew. by split.
  - intros [= <- <-]. split; [apply grows_refl|congruence].
Qed.

Lemma persistRecord_grows pe n : grows n (persistRecordLocked pe n).
Proof.
  unfold persistRecordLocked. destruct (persistLocked pe n) as [e n'] eqn:E.
  by destruct (persistLocked_log _ _ _ _ E).
Qed.

Lemma activate_grows b n : grows n (activateTransitionLocked b n).
Proof. unfold activateTransitionLocked. repeat case_match; apply grows_refl || by repeat split. Qed.

Lemma markApplied_grows id n : grows n (markAppliedLocked id n).
Proof. unfold markAppliedLocked. case_match; apply grows_refl || by repeat split. Qed.

#[local] Set Default Proof Using "EL".

Lemma executeBlock_grows n b : grows n (executeBlock n b).
Proof.
  unfold executeBlock. eapply grows_trans; [|apply markApplied_grows].
  eapply grows_trans; [|by repeat split]. eapply grows_trans; [|apply activate_grows].
  case_match; [|apply grows_refl]. pose proof (exec_log (logStore n) (fsm n) b) as Hl.
  destruct (hs_apply _ _ _) as [l f]. by split_and!; try apply Hl.
Qed.

Lemma executeAll_grows bs n : grows n (foldl executeBlock n bs).
Proof.
  revert n. induction bs as [|b bs IH]; intros n; simpl; [apply grows_refl|].
  eapply grows_trans; [apply executeBlock_grows|apply IH].
Qed.

Lemma commit_grows gp n n' : commitUpToLocked gp n = Some n' -> grows n n'.
Proof.
  unfold commitUpToLocked. destruct (span _ _ _ _); simpl; [|done]. intros [= <-].
  eapply grows_trans; [apply executeAll_grows|apply persistRecord_grows].
Qed.

Lemma onNewQC_grows qc n n' : onNewQCLocked qc n = Some n' -> grows n n'.
Proof.
  unfold onNewQCLocked. destruct qc as [q|]; [|intros [= <-]; apply grows_refl].
  destruct (negb (qcValid n (Some q))); [intros [= <-]; apply grows_refl|].
  destruct (match qcHigh n with Some _ => _ | None => _ end); [intros [= <-]; apply grows_refl|].
  set (n1 := persistRecordLocked _ _).
  assert (grows n n1) as H1.
  { unfold n1. eapply grows_trans; [|apply persistRecord_grows]. by repeat split. }
  clearbody n1. destruct (blocks n1 !! qNodeID q) as [c|]; [|by intros [= <-]].
  destruct (blocks n1 !! bParent c) as [p|]; [|case_match; [by intros [= <-]|done]].
  destruct (negb (oneChainedBy p (Some c))); [by intros [= <-]|].
  destruct (blocks n1 !! bLock n1) as [lock|]; simpl; [|done].
  set (n2 := if (_ : bool) then _ else n1).
  assert (grows n n2) as H2.
  { unfold n2. case_match; [eapply grows_trans; [exact H1|by repeat split]|done]. }
  clearbody n2. destruct (blocks n2 !! bParent p) as [gp|]; [|by intros [= <-]].
  destruct (oneChainedBy gp (Some p)); [|by intros [= <-]].
  destruct (blocks n2 !! bExec n2) as [ex|]; simpl; [|done].
  case_match; [|by intros [= <-]]. intros Hc. eapply grows_trans; [exact H2|by eapply commit_grows].
Qed.

Lemma activateWithBase_grows b n : grows n (activateWithBaseLocked b n).
Proof. unfold activateWithBaseLocked. repeat case_match; by repeat split. Qed.

Lemma completeBase_grows id n n' : completeBaseLocked id n = Some n' -> grows n n'.
Proof.
  unfold completeBaseLocked. destruct (wantBase n) as [q|]; [|intros [= <-]; apply grows_refl].
  case_match; [intros [= <-]; apply grows_refl|].
  destruct (if raises q n then _ else _) as [n1|] eqn:E; simpl; [|done]. intros [= <-].
  eapply grows_trans; [|apply activateWithBase_grows].
  destruct (raises q n); [|simplify_eq; apply grows_refl].
  apply onNewQC_grows in E. eapply grows_trans; [|exact E]. by repeat split.
Qed.

Lemma park_grows bs n : grows n (park bs n).
Proof.
  revert n. induction bs as [|b bs IH]; intros n; simpl; [apply grows_refl|].
  eapply grows_trans; [|apply IH]. by repeat split.
Qed.

Lemma insertBlock_grows cur n ks rd n' : insertBlock cur n = Some (ks, rd, n') -> grows n n'.
Proof.
  unfold insertBlock. destruct (blocks n !! bID cur); [intros [= <- <- <-]; apply grows_refl|].
  destruct (epochAndSetOfLocked n cur) as [[want set]|]; simpl; [|done].
  destruct (_ || _)%bool; [intros [= <- <- <-]; apply grows_refl|].
  set (n1 := persistRecordLocked _ _).
  assert (grows n n1) as H1.
  { unfold n1. eapply grows_trans; [|apply persistRecord_grows]. by repeat split. }
  clearbody n1. destruct (blocks n1 !! headID n1) as [h|]; simpl; [|done].
  set (n2 := if (_ : bool) then _ else n1).
  assert (grows n n2) as H2.
  { unfold n2. case_match; [eapply grows_trans; [exact H1|by repeat split]|done]. }
  clearbody n2. destruct (onNewQCLocked (bJustify cur) n2) as [n3|] eqn:E3; simpl; [|done].
  destruct (completeBaseLocked (bID cur) n3) as [n4|] eqn:E4; simpl; [|done]. intros [= _ _ <-].
  apply onNewQC_grows in E3. apply completeBase_grows in E4.
  eapply grows_trans; [|apply park_grows].
  eapply grows_trans; [exact H2|]. eapply grows_trans; [exact E3|].
  eapply grows_trans; [exact E4|]. by repeat split.
Qed.

Lemma insertAll_grows fuel work kids n kids' n' :
  insertAll fuel work kids n = Some (kids', n') -> grows n n'.
Proof.
  revert work kids n. induction fuel as [|fuel IH]; intros [|cur work] kids n E; simpl in E;
    try by simplify_eq; apply grows_refl.
  destruct (insertBlock cur n) as [[[ks rd] n1]|] eqn:E1; simpl in E; [|done].
  eapply grows_trans; [by eapply insertBlock_grows|by eapply IH].
Qed.

Lemma addBlock_grows b n ks n' : addBlockLocked b n = Some (ks, n') -> grows n n'.
Proof. apply insertAll_grows. Qed.

(** ** Handlers that may change the view *)

Definition calm n n' : Prop :=
  rid n' = rid n /\ priv n' = priv n /\ vHeight n' = vHeight n /\
  (logStore n = None <-> logStore n' = None) /\ log_of n `prefix_of` log_of n'.

Lemma grows_calm n n' : grows n n' -> calm n n'.
Proof. unfold grows, calm. tauto. Qed.

Lemma calm_refl n : calm n n.
Proof. apply grows_calm, grows_refl. Qed.

Lemma calm_trans n1 n2 n3 : calm n1 n2 -> calm n2 n3 -> calm n1 n3.
Proof.
  intros (?&?&?&?&?) (?&?&?&?&?). unfold calm. split_and!; try congruence; [naive_solver|]. by etrans.
Qed.

Lemma enterView_calm v e n b n' : enterViewLockedEpoch v e n = Some (b, n') -> calm n n'.
Proof.
  unfold enterViewLockedEpoch. case_match; [intros [= _ <-]; apply calm_refl|].
  destruct (leaderOfEpoch _ _ _); simpl; [|done]. intros [= _ <-]. by repeat split.
Qed.

Lemma bufferProposal_grows now p n h n' :
  bufferProposal now p n = Some (h, n') -> grows n n' /\ hVote h = None /\ hKids h = [].
Proof.
  unfold bufferProposal. set (n1 := set_pending _ n). assert (grows n n1) as H1 by by repeat split.
  clearbody n1. destruct (blocks n1 !! headID n1); simpl; [|done].
  repeat case_match; intros [= <- <-]; (split; [|done]);
    (eapply grows_trans; [exact H1|]); apply grows_refl || by repeat split.
Qed.

Lemma voteForBlock_grows v n n' : voteForBlockLocked v n = Some n' -> grows n n'.
Proof.
  unfold voteForBlockLocked. repeat case_match; simpl; intros E; simplify_eq;
    try apply grows_refl; try (by repeat split);
    (apply onNewQC_grows in E; eapply grows_trans; [|exact E]; by repeat split).
Qed.

Lemma proposeLocked_grows cmd n p n' : proposeLocked cmd n = Some (p, n') -> grows n n'.
Proof.
  unfold proposeLocked. destruct (blocks n !! headID n) as [parent|]; simpl; [|done].
  destruct (if freshBase n then _ else _) as [h n1] eqn:E1.
  assert (grows n n1) as H1 by (destruct (freshBase n); simplify_eq; apply grows_refl || by repeat split).
  clear E1. match goal with |- context [voteForBlockLocked ?v (persistRecordLocked ?pe ?m)] =>
    assert (grows n (persistRecordLocked pe m)) as H2
      by (eapply grows_trans; [exact H1|]; eapply grows_trans; [|apply persistRecord_grows]; by repeat split);
    destruct (voteForBlockLocked v (persistRecordLocked pe m)) as [n2|] eqn:E2 end; simpl; [|done].
  intros [= _ <-]. apply voteForBlock_grows in E2. by eapply grows_trans.
Qed.

Lemma addVC_calm vc n n' : addVC vc n = Some n' -> calm n n'.
Proof.
  unfold addVC. case_match; [|intros [= <-]; apply calm_refl].
  case_match; [intros [= <-]; apply calm_refl|]. destruct (leaderOfEpoch _ _ _); simpl; [|done].
  case_match; intros [= <-]; apply calm_refl || by repeat split.
Qed.

Lemma adoptBase_calm now q n f n' : adoptBaseLocked now q n = Some (f, n') -> calm n n'.
Proof.
  unfold adoptBaseLocked. case_match; [intros [= _ <-]; apply calm_refl|].
  destruct q as [q|]; [|intros [= _ <-]; apply grows_calm, activateWithBase_grows].
  destruct (raises q n); [|intros [= _ <-]; apply grows_calm, activateWithBase_grows].
  destruct (blocks n !! qNodeID q).
  - destruct (onNewQCLocked _ _) as [n1|] eqn:E; simpl; [|done]. intros [= _ <-].
    apply grows_calm. eapply grows_trans; [|apply activateWithBase_grows].
    apply onNewQC_grows in E. eapply grows_trans; [|exact E]. by repeat split.
  - case_match; [intros [= _ <-]; apply grows_calm, activateWithBase_grows|].
    case_match; intros [= _ <-]; by repeat split.
Qed.

Lemma maybeActivate_calm now v n f n' : maybeActivateLocked now v n = Some (f, n') -> calm n n'.
Proof.
  unfold maybeActivateLocked. case_match; [|intros [= _ <-]; apply calm_refl].
  destruct (leaderOfEpoch _ _ _); simpl; [|done].
  case_match; [intros [= _ <-]; apply calm_refl|]. case_match; [intros [= _ <-]; apply calm_refl|].
  destruct (if (view n <? v)%N then _ else _) as [[ok n1]|] eqn:E1; simpl; [|done].
  assert (calm n n1) as Hc1.
  { destruct (view n <? v)%N; [by eapply enterView_calm|simplify_eq; apply calm_refl]. }
  destruct (negb ok || _)%bool; [by intros [= _ <-]|]. intros E. eapply calm_trans; [exact Hc1|by eapply adoptBase_calm].
Qed.
End frames.
