(* ===== verification/HotStuffInstances.v ===== *)
(** * Concrete instances of a HotStuff replica's interfaces, for runnable examples

    A checksum for the hash, a signature that is the key and the checksum of the
    message, and the codec of [Codec]. *)

From Stdlib Require Import Ascii.
From S2P Require Import Prelude WalTypes WalCodec Codec HotStuffTypes HotStuff HotStuffProps.

(** ** Codes of the messages *)

#[export] Instance QC_codec : Codec QC.
Proof.
  refine (codec_of (fun q => (qEpoch q, qNodeID q, qHeight q, qVotes q))
    (fun p => let '(e, i, h, v) := p in mkQC e i h v) _).
  abstract (by intros []).
Defined.

#[export] Instance Block_codec : Codec Block.
Proof.
  refine (codec_of
    (fun b => (bView b, bHeight b, bParent b, bID b, bCmd b, bJustify b, bEpoch b))
    (fun p => let '(v, h, pa, i, c, j, e) := p in mkBlock v h pa i c j e) _).
  abstract (by intros []).
Defined.

#[export] Instance ViewChange_codec : Codec ViewChange.
Proof.
  refine (codec_of (fun m => (vcView m, vcEpoch m, vcHighQC m, vcFrom m, vcSig m))
    (fun p => let '(v, e, q, f, s) := p in mkViewChange v e q f s) _).
  abstract (by intros []).
Defined.

(** What is signed: the fields of the message, the signature apart. *)
Definition signable_bytes (m : Signable) : bytes :=
  match m with
  | SVote v => "v"%char :: put (vtHeight v, vtNodeID v, vtVoter v)
  | SProposal p => "p"%char :: put (prBlock p, prFrom p, prViewChanges p)
  | SViewChange vc => "c"%char :: put vc
  | SBlockMsg bm => "b"%char :: put (bmBlock bm, bmFrom bm)
  | SBlockBatch bb => "s"%char :: put (bbRequestID bb, bbAnchor bb, bbTarget bb, bbBlocks bb, bbFrom bb)
  end.

#[export] Instance persistEntry_codec : Codec persistEntry.
Proof.
  refine (codec_of
    (fun e => match e with
      | pkBlock b => inl b | pkQC q => inr (inl q) | pkApplied i => inr (inr (inl i))
      | pkVoted h => inr (inr (inr (Some h))) | POther => inr (inr (inr None))
      end)
    (fun c => match c with
      | inl b => pkBlock b | inr (inl q) => pkQC q | inr (inr (inl i)) => pkApplied i
      | inr (inr (inr (Some h))) => pkVoted h | inr (inr (inr None)) => POther
      end) _).
  abstract (by intros []).
Defined.

#[export] Instance MembershipChange_codec : Codec MembershipChange.
Proof.
  refine (codec_of
    (fun m => ((fun e => (veID e, vePub e)) <$> mcAdd m, mcRemove m))
    (fun p => mkMembershipChange ((fun e => mkValidatorEntry e.1 e.2) <$> p.1) p.2) _).
  abstract (intros [add rem]; simpl; f_equal; induction add as [|[] add IH]; simpl; [done|by f_equal]).
Defined.

(** ** The instances *)

#[export] Instance BytePersistJson : PersistJson := {|
  json_persist e := Ok (put e);
  json_unpersist := decode_all
|}.

#[export] Instance ByteMembershipJson : MembershipJson := {|
  json_membership m := Ok (put m);
  json_unmembership := decode_all
|}.

Lemma persist_roundtrip (e : persistEntry) (d : bytes) :
  json_persist e = Ok d -> json_unpersist d = Some e.
Proof. intros H. injection H as <-. exact (decode_all_put e). Qed.

(** Three bytes of a polynomial in the message's bytes. *)
Definition checksum (b : bytes) : bytes :=
  let h := foldl (fun h c => N.land (h * 31 + N_of_ascii c) 16777215) 7%N b in
  (fun k => ascii_of_N (N.land (N.shiftr h k) 255)) <$> [0; 8; 16]%N.

#[export] Instance SumCrypto : Crypto := {|
  sha256 := checksum;
  ed25519_Sign key m := key ++ checksum m;
  ed25519_Verify key m sig := bool_decide (sig = key ++ checksum m);
  json_message m := Some (signable_bytes m)
|}.

(** An executor that remembers the blocks it ran. *)
Definition Ran : Type := list Block.
#[export] Instance Ran_executor {W} : Executor Ran W := fun w f b => (w, f ++ [b]).

(** A log that never fails, as the list of its records. *)
Definition MemLog : Type := list Record_.
#[export] Instance MemLog_wal : Wal MemLog := fun w r => (w ++ [r], None).
#[export] Program Instance MemLog_trace : WalTrace MemLog := {| wal_log w := w |}.
Next Obligation. intros w r w' e [= <- <-]. by exists [r]. Qed.

#[export] Instance Ran_trace : ExecTrace Ran MemLog.
Proof. intros l f b. by split. Qed.

Definition MemReplica : Type := Replica Ran MemLog.

(** ** A cluster of four

    A replica's key is its name. *)

Definition key_of (id : string) : bytes := String.list_ascii_of_string id.
Definition four : list string := ["a"; "b"; "c"; "d"].

(** Replica [id] of the cluster that [a] leads, connected, with an empty log. *)
Definition member (id : string) : option MemReplica :=
  match NewReplica id (filter (fun x => x <> id) four) "a" (key_of id, key_of id) 0 [] with
  | Ok n => Some (SetLogStore [] (foldl (fun n p => (SetPeerKey p (key_of p) n).2) n four))
  | Err _ => None
  end.

(** The leader's proposal of a command. *)
Definition propose_one (cmd : string) (n : MemReplica) : option (Proposal * MemReplica) :=
  proposeLocked (String.list_ascii_of_string cmd) n.

(** The vote that [id] casts on a proposal it receives first. *)
Definition vote_of (id : string) (p : Proposal) : option Vote :=
  n ← member id;
  match HandleProposal 0 p n with
  | Some ([SendVote _ v], _) => Some v
  | _ => None
  end.

(** The leader collects the votes of [b] and [c] on a proposal of its own. *)
Definition certify (p : Proposal) (n : MemReplica) : option MemReplica :=
  vb ← vote_of "b" p; vc ← vote_of "c" p; n ← HandleVote vb n; HandleVote vc n.

(** The leader's first two proposals, the second on top of the first. *)
Definition two_proposals : option (Proposal * Proposal) :=
  n ← member "a"; '(p1, n) ← propose_one "x" n; n ← certify p1 n; '(p2, _) ← propose_one "y" n; Some (p1, p2).
