(* ===== verification/HotStuffHash.v ===== *)
(** * A hash without collisions

    It keeps the second field of what is hashed first, the height, and all that is
    hashed next, the command. Example runs of theorems that assume that ids tell
    heights and commands apart use it. *)

From stdpp Require Import pretty.
From Stdlib Require Import Ascii.
From S2P Require Import Prelude WalTypes HotStuffTypes HotStuff HotStuffInstances.

Definition no_colon (s : string) : Prop := ":"%char ∉ String.list_ascii_of_string s.

Lemma pretty_no_colon (x : N) : no_colon (pretty x).
Proof.
  assert (forall y s, no_colon s -> no_colon (pretty_N_go y s)) as Hgo.
  { intros y. induction (N.lt_wf_0 y) as [y _ IH]. intros s Hs.
    destruct (decide (y = 0)%N) as [->|]; [by rewrite pretty_N_go_0|]. rewrite pretty_N_go_step by lia.
    apply IH; [apply N.div_lt; lia|]. unfold no_colon. simpl. intros [Hc|?]%elem_of_cons; [|done].
    unfold pretty_N_char in Hc. by repeat case_match. }
  unfold pretty, pretty_N. case_decide; [|by apply Hgo; intros ?%elem_of_nil].
  unfold no_colon. simpl. by intros [?|?%elem_of_nil]%elem_of_cons.
Qed.

(** Two texts that agree before a colon. *)
Lemma until_colon (a b : string) (x y : bytes) :
  no_colon a -> no_colon b ->
  String.list_ascii_of_string a ++ ":"%char :: x = String.list_ascii_of_string b ++ ":"%char :: y -> a = b /\ x = y.
Proof.
  revert b. induction a as [|c a IH]; intros [|d b] Ha Hb E; simpl in E; simplify_eq; try done.
  - by destruct Hb; left.
  - by destruct Ha; left.
  - destruct (IH b) as [-> ->]; [..|done|done]; [intros ?; by apply Ha; right|intros ?; by apply Hb; right].
Qed.

Lemma hex_digit_inj (a b : nat) : a < 16 -> b < 16 -> hex_digit a = hex_digit b -> a = b.
Proof.
  intros Ha Hb H. unfold hex_digit in H. apply (f_equal nat_of_ascii) in H.
  destruct (Nat.ltb_spec a 10), (Nat.ltb_spec b 10); rewrite !nat_ascii_embedding in H by lia; lia.
Qed.

Lemma String_inv a b s t : String a s = String b t -> a = b /\ s = t.
Proof. by intros [= -> ->]. Qed.

Lemma hex_inj (x y : bytes) : hex x = hex y -> x = y.
Proof.
  revert y. induction x as [|c x IH]; intros [|d y] E; cbn [hex] in E; try done.
  apply String_inv in E as [E1 [E2 E3]%String_inv]. f_equal; [|by apply IH].
  pose proof (nat_ascii_bounded c). pose proof (nat_ascii_bounded d).
  apply hex_digit_inj in E1; [|apply Nat.Div0.div_lt_upper_bound; lia..].
  apply hex_digit_inj in E2; [|apply Nat.mod_upper_bound; lia..].
  rewrite <- (ascii_nat_embedding c), <- (ascii_nat_embedding d). f_equal.
  rewrite (Nat.div_mod_eq (nat_of_ascii c) 16), (Nat.div_mod_eq (nat_of_ascii d) 16). lia.
Qed.

(** The text up to the first colon, and after it. *)
Fixpoint field (x : bytes) : bytes * bytes :=
  match x with
  | [] => ([], [])
  | c :: x' => if Ascii.eqb c ":"%char then ([], x') else let '(a, b) := field x' in (c :: a, b)
  end.

(** The second field of a text, marked; a marked text is its own hash. *)
Definition field_hash (x : bytes) : bytes :=
  match x with
  | "#"%char :: _ => x
  | _ => "#"%char :: (field (field x).2).1 ++ ":"%char :: []
  end.

(** Signatures that show the key only. *)
Definition FieldCrypto : Crypto := {|
  sha256 := field_hash;
  ed25519_Sign key m := key;
  ed25519_Verify key m sig := bool_decide (sig = key);
  json_message m := Some []
|}.

Lemma field_hash_not_empty (x : bytes) : field_hash x <> [].
Proof. unfold field_hash. repeat case_match; done. Qed.

Lemma field_app (a : string) (x : bytes) :
  no_colon a -> field (String.list_ascii_of_string a ++ ":"%char :: x) = (String.list_ascii_of_string a, x).
Proof.
  induction a as [|c a IH]; intros Ha; simpl; [done|].
  destruct (Ascii.eqb_spec c ":"%char) as [->|]; [by destruct Ha; left|].
  rewrite IH; [done|]. intros ?. by apply Ha; right.
Qed.

(** A number starts with a digit. *)
Lemma pretty_head (x : N) (l : bytes) :
  field_hash (String.list_ascii_of_string (pretty x) ++ ":"%char :: l) =
  "#"%char :: (field l).1 ++ ":"%char :: [].
Proof.
  assert (match String.list_ascii_of_string (pretty x) with "#"%char :: _ => False | _ => True end) as Hh.
  { assert (forall y s, match s with String "#"%char _ => False | _ => True end ->
      match pretty_N_go y s with String "#"%char _ => False | _ => True end) as Hgo.
    { intros y. induction (N.lt_wf_0 y) as [y _ IH]. intros s Hs.
      destruct (decide (y = 0)%N) as [->|]; [by rewrite pretty_N_go_0|]. rewrite pretty_N_go_step by lia.
      apply IH; [apply N.div_lt; lia|]. unfold pretty_N_char. by repeat case_match. }
    unfold pretty, pretty_N. case_decide; [done|]. specialize (Hgo x "" Logic.I).
    by destruct (pretty_N_go x ""). }
  unfold field_hash. rewrite (field_app (pretty x)) by apply pretty_no_colon. simpl.
  destruct (String.list_ascii_of_string (pretty x)) as [|c s]; simpl; [done|]. by repeat case_match.
Qed.

Lemma field_no_collision v h p c v' h' p' c' :
  @blockID FieldCrypto v h p c = @blockID FieldCrypto v' h' p' c' -> h = h' /\ c = c'.
Proof.
  unfold blockID. intros E%hex_inj. cbn [sha256 FieldCrypto] in E. rewrite !list_ascii_app in E.
  cbn [String.list_ascii_of_string app] in E. rewrite !pretty_head, !field_app in E by apply pretty_no_colon.
  cbn [field_hash fst app] in E. apply (f_equal tail) in E. cbn [tail] in E. rewrite <- !app_assoc in E.
  apply until_colon in E as [E ->]; [|apply pretty_no_colon..]. split; [by apply pretty_N_inj|done].
Qed.
