(* ===== verification/HotStuffThms.v ===== *)
(** * A HotStuff replica: its properties *)

From S2P Require Import Prelude WalTypes WalCodec HotStuffTypes HotStuff HotStuffProps HotStuffInstances.

(** Everything that can happen to a running replica. *)
Inductive hs_input : Type :=
  | HProposal (p : Proposal)
  | HVote (v : Vote)
  | HViewChange (vc : ViewChange)
  | HTimeout
  | HFetch (f : Fetch)
  | HBlock (bm : BlockMsg)
  | HGetBlocks (g : GetBlocks)
  | HBatch (bb : BlockBatch)
  | HPropose (cmd : bytes)
  | HWait (id : string).

Section hs_run.
Context {F W : Type}.
Context {EX : Executor F W} {WW : Wal W} {CR : Crypto} {J : Json} {MJ : MembershipJson} {PJ : PersistJson}.
Implicit Types n : Replica F W.

Definition hs_step (now : Z) (i : hs_input) n : option (list Out * Replica F W) :=
  match i with
  | HProposal p => HandleProposal now p n
  | HVote v => n' ← HandleVote v n; Some ([], n')
  | HViewChange vc => HandleViewChange now vc n
  | HTimeout => StartViewChange now n
  | HFetch f => Some (HandleFetch f n, n)
  | HBlock bm => HandleBlock now bm n
  | HGetBlocks g => out ← HandleGetBlocks g n; Some (out, n)
  | HBatch bb => HandleBlockBatch now bb n
  | HPropose cmd => '(_, out, n') ← Propose cmd n; Some (out, n')
  | HWait id => Some ([], (WaitCommitted id n).2)
  end.

(** A run: the inputs with the time they are handled at; the messages sent. *)
Fixpoint hs_run (evs : list (Z * hs_input)) n : option (list Out * Replica F W) :=
  match evs with
  | [] => Some ([], n)
  | (now, i) :: evs' =>
      '(out, n1) ← hs_step now i n;
      '(out', n2) ← hs_run evs' n1;
      Some (out ++ out', n2)
  end.
End hs_run.

(** The votes a replica sends. *)
Definition votes_of (out : list Out) : list Vote :=
  omap (fun o => match o with SendVote _ v => Some v | _ => None end) out.

Lemma votes_of_app (a b : list Out) : votes_of (a ++ b) = votes_of a ++ votes_of b.
Proof. apply omap_app. Qed.

Section signing.
Context {F W : Type}.
Context {EX : Executor F W} {WW : Wal W} {CR : Crypto} {J : Json} {MJ : MembershipJson} {PJ : PersistJson}.
Implicit Types n : Replica F W.

(** The vote that [proposeLocked] signs for the proposer's own block, counts and
    never sends. *)
Definition self_votes (i : hs_input) n : list Vote :=
  match i with
  | HPropose cmd =>
      match Propose cmd n, proposeLocked cmd n with
      | Some (Ok _, _, _), Some (p, _) =>
          let v := mkVote (bHeight (prBlock p)) (bID (prBlock p)) (rid n) [] in
          [mkVote (vtHeight v) (vtNodeID v) (rid n) (sign n (SVote v))]
      | _, _ => []
      end
  | _ => []
  end.

(** The votes that a replica signs in a run, in order, with those on its own
    proposals; and the latter alone. *)
Fixpoint signed (evs : list (Z * hs_input)) n : list Vote :=
  match evs with
  | [] => []
  | (now, i) :: evs' =>
      self_votes i n ++ match hs_step now i n with
                        | Some (out, n1) => votes_of out ++ signed evs' n1
                        | None => []
                        end
  end.

Fixpoint self_signed (evs : list (Z * hs_input)) n : list Vote :=
  match evs with
  | [] => []
  | (now, i) :: evs' =>
      self_votes i n ++ match hs_step now i n with
                        | Some (_, n1) => self_signed evs' n1
                        | None => []
                        end
  end.

Lemma signed_sent evs n out n' :
  hs_run evs n = Some (out, n') -> self_signed evs n = [] -> signed evs n = votes_of out.
Proof.
  revert n out. induction evs as [|[now i] evs IH]; intros n out E Hs; [by simplify_eq/=|]. cbn [hs_run signed self_signed] in *.
  apply app_eq_nil in Hs as [Hs1 Hs2]. rewrite Hs1. destruct (hs_step now i n) as [[o1 n1]|]; simpl in *; [|done].
  destruct (hs_run evs n1) as [[o2 n2]|] eqn:E2; simplify_eq/=. by rewrite votes_of_app, (IH n1 o2).
Qed.
End signing.

Section votes.
Context {F W : Type}.
Context {EX : Executor F W} {WW : Wal W} {WT : WalTrace W} {CR : Crypto} {J : Json} {MJ : MembershipJson}
  {PJ : PersistJson} {EL : ExecTrace F W}.
#[local] Set Default Proof Using "EL".
Implicit Types n : Replica F W.

(** The vote guard for height [h] is in the log. *)
Definition guarded (h : N) (log : list Record_) : Prop :=
  exists data, json_persist (pkVoted h) = Ok data /\ mkRecord OpHotStuff "" "" 0 0 0 0 [] data ∈ log.

(** What a step does about votes: those it sends are the replica's own, at
    growing heights above the guard it started with, and in the log. *)
Definition voting n (out : list Out) n' : Prop :=
  rid n' = rid n /\ (vHeight n <= vHeight n')%N /\
  (logStore n = None <-> logStore n' = None) /\ log_of n `prefix_of` log_of n' /\
  StronglySorted N.lt (vtHeight <$> votes_of out) /\
  Forall (fun v => vtVoter v = rid n /\ (vHeight n < vtHeight v <= vHeight n')%N /\
                   (logStore n <> None -> guarded (vtHeight v) (log_of n'))) (votes_of out).

Lemma calm_voting n n' out : calm n n' -> votes_of out = [] -> voting n out n'.
Proof.
  intros (? & _ & ? & ? & ?) Hv. unfold voting. rewrite Hv. simpl. split_and!; auto; [lia|constructor].
Qed.

Lemma guarded_prefix h l l' : l `prefix_of` l' -> guarded h l -> guarded h l'.
Proof. intros [k ->] (d & ? & ?). exists d. split; [done|]. apply elem_of_app. by left. Qed.

Lemma StronglySorted_bounds (l1 l2 : list N) (m : N) :
  StronglySorted N.lt l1 -> StronglySorted N.lt l2 ->
  (forall x, x ∈ l1 -> x <= m)%N -> (forall y, y ∈ l2 -> m < y)%N -> StronglySorted N.lt (l1 ++ l2).
Proof.
  intros H1 H2 Hm1 Hm2. induction H1 as [|x l1 H1 IH Hx]; [done|]. simpl. constructor.
  - apply IH. intros y Hy. apply Hm1. by right.
  - apply Forall_app. split; [done|]. apply Forall_forall. intros y Hy%Hm2.
    specialize (Hm1 x ltac:(left)). lia.
Qed.

Lemma voting_trans n1 n2 n3 out out' :
  voting n1 out n2 -> voting n2 out' n3 -> voting n1 (out ++ out') n3.
Proof.
  intros (? & ? & Hls & ? & Hs & Hf) (? & ? & ? & ? & Hs' & Hf').
  unfold voting, votes_of in *. rewrite omap_app, fmap_app. split_and!; try congruence; try lia; try naive_solver.
  - by etrans.
  - eapply (StronglySorted_bounds _ _ (vHeight n2)); auto.
    + intros x (v & -> & Hv)%list_elem_of_fmap. rewrite Forall_forall in Hf. apply Hf in Hv. lia.
    + intros x (v & -> & Hv)%list_elem_of_fmap. rewrite Forall_forall in Hf'. apply Hf' in Hv. lia.
  - apply Forall_app. split; eapply Forall_impl; try done; simpl.
    + intros v (? & ? & Hg). split_and!; auto; try lia. intros Hn. eapply guarded_prefix; [done|auto].
    + intros v (? & ? & Hg). split_and!; try congruence; try lia. intros Hn. apply Hg. naive_solver.
Qed.

Lemma castVote_voting b n v n' :
  castVote b n = (v, n') ->
  voting n (match v with Some x => [SendVote "" x] | None => [] end) n'.
Proof.
  unfold castVote, persistVotedLocked. destruct (N.ltb_spec (vHeight n) (bHeight b)) as [Hlt|];
    [|intros [= <- <-]; by apply calm_voting; [apply calm_refl|]].
  destruct (persistLocked _ _) as [er n1] eqn:E. destruct (persistLocked_log _ _ _ _ E) as [Hg Hok].
  destruct Hg as (Hid & _ & _ & Hv & Hls & Hpre). unfold log_of in Hpre, Hok. simpl in *.
  destruct er as [er|]; intros [= <- <-]; unfold voting, votes_of; simpl; rewrite Hv.
  - split_and!; auto; [lia|constructor].
  - split_and!; auto; [lia|repeat constructor|]. constructor; [|done]. simpl. split_and!; auto; [lia..|].
    intros Hn. destruct (Hok eq_refl Hn) as (data & Hj & Hl). exists data. split; [done|].
    unfold log_of. rewrite Hl. apply elem_of_app. right. by apply list_elem_of_singleton.
Qed.

Definition vote_msg (peer : string) (v : option Vote) : list Out :=
  match v with Some x => [SendVote peer x] | None => [] end.

Lemma voting_same n out out' n' : votes_of out = votes_of out' -> voting n out n' -> voting n out' n'.
Proof. unfold voting. by intros ->. Qed.

Lemma calm_nothing n n' peer : calm n n' -> voting n (vote_msg peer (hVote nothing)) n'.
Proof. intros H. by apply calm_voting. Qed.

Lemma handleProposal_voting now p n h n' :
  handleProposalLocked now p n = Some (h, n') -> voting n (vote_msg (prFrom p) (hVote h)) n'.
Proof.
  unfold handleProposalLocked. set (b := prBlock p).
  repeat match goal with
  | |- Some (nothing, n) = Some _ -> _ => intros [= <- <-]; apply calm_nothing, calm_refl
  | |- bufferProposal _ _ _ = Some _ -> _ =>
      intros (Hg & Hv & _)%bufferProposal_grows; rewrite Hv; by apply calm_voting; [apply grows_calm|]
  | |- (match ?x with _ => _ end) = Some _ -> _ => destruct x; try done
  | |- (?o ≫= _) = Some _ -> _ =>
      lazymatch o with
      | (if _ then _ else _) => fail
      | _ => destruct o; simpl; [|done]
      end
  end.
  destruct (if (view n <? bView b)%N then _ else _) as [n1|] eqn:E1; simpl; [|done].
  assert (calm n n1) as H1.
  { destruct (view n <? bView b)%N; [|simplify_eq; apply calm_refl].
    destruct (enterViewLockedEpoch _ _ n) as [[ok m]|] eqn:Ev; simplify_eq/=. by eapply enterView_calm. }
  destruct (extendsLocked n1 b _) as [ext|]; simpl; [|done].
  destruct (if ext then _ else _) as [[]|]; simpl; [|by intros [= <- <-]; apply calm_nothing|done].
  destruct (addBlockLocked b n1) as [[kids n2]|] eqn:E2; simpl; [|done].
  destruct (castVote b n2) as [v n3] eqn:E3. intros [= <- <-]. simpl.
  apply addBlock_grows in E2. apply castVote_voting in E3.
  change (vote_msg (prFrom p) v) with ([] ++ vote_msg (prFrom p) v).
  eapply voting_trans; [apply calm_voting; [|done]; eapply calm_trans; [exact H1|by apply grows_calm]|].
  eapply voting_same; [|exact E3]. by destruct v.
Qed.

Lemma HandleProposals_voting fuel now ps out n out' n' :
  HandleProposals fuel now ps out n = Some (out', n') ->
  exists msgs, out' = out ++ msgs /\ voting n msgs n'.
Proof.
  revert ps out n. induction fuel as [|fuel IH]; intros [|p ps] out n E; simpl in E; try done;
    try (simplify_eq; exists []; split; [by rewrite app_nil_r|]; by apply calm_voting; [apply calm_refl|]).
  destruct (handleProposalLocked now p n) as [[h n1]|] eqn:Eh; simpl in E; [|done].
  apply handleProposal_voting in Eh. apply IH in E as (msgs & -> & Hv).
  eexists. rewrite <- app_assoc. split; [done|]. eapply voting_trans; [|exact Hv].
  eapply voting_same; [|exact Eh]. destruct (hFetch h), (hSync h), (hVote h); done.
Qed.

Lemma sendFetch_votes n f : votes_of (sendFetch n f) = [].
Proof. unfold sendFetch. destruct f; [|done]. by case_match. Qed.

Lemma HandleViewChange_voting now vc n out n' :
  HandleViewChange now vc n = Some (out, n') -> voting n out n'.
Proof.
  unfold HandleViewChange. case_match; [intros [= <- <-]; by apply calm_voting; [apply calm_refl|]|].
  destruct (sets n !! epoch n); [|intros [= <- <-]; by apply calm_voting; [apply calm_refl|]].
  case_match; [intros [= <- <-]; by apply calm_voting; [apply calm_refl|]|].
  destruct (leaderOfEpoch _ _ _); simpl; [|done].
  case_match; [intros [= <- <-]; by apply calm_voting; [apply calm_refl|]|].
  case_match; [intros [= <- <-]; by apply calm_voting; [apply calm_refl|]|].
  destruct (addVC vc n) as [n1|] eqn:E1; simpl; [|done].
  destruct (maybeActivateLocked now _ n1) as [[f n2]|] eqn:E2; simpl; [|done]. intros [= <- <-].
  apply calm_voting; [|apply sendFetch_votes].
  eapply calm_trans; [by eapply addVC_calm|by eapply maybeActivate_calm].
Qed.

Lemma StartViewChange_voting now n out n' : StartViewChange now n = Some (out, n') -> voting n out n'.
Proof.
  unfold StartViewChange. destruct (if (_ || _)%bool then _ else _) as [[t n1]|] eqn:E1; simpl; [|done].
  assert (calm n n1) as H1.
  { destruct (_ || _)%bool; [|simplify_eq; apply calm_refl]. unfold enterViewLocked in E1.
    destruct (enterViewLockedEpoch _ _ n) as [[ok m]|] eqn:Ev; simplify_eq/=. by eapply enterView_calm. }
  clear E1. case_match; [|intros [= <- <-]; by apply calm_voting].
  set (n2 := set_vcSent _ n1). assert (calm n n2) as H2 by (eapply calm_trans; [exact H1|by repeat split]).
  clearbody n2. case_match; [|intros [= <- <-]; by apply calm_voting].
  destruct (addVC _ n2) as [n3|] eqn:E3; simpl; [|done].
  destruct (maybeActivateLocked now _ n3) as [[f n4]|] eqn:E4; simpl; [|done]. intros [= <- <-].
  apply calm_voting; [|apply sendFetch_votes]. eapply calm_trans; [exact H2|].
  eapply calm_trans; [by eapply addVC_calm|by eapply maybeActivate_calm].
Qed.

Lemma kids_voting now b n kids n1 out n' :
  addBlockLocked b n = Some (kids, n1) -> HandleKids now kids n1 = Some (out, n') -> voting n out n'.
Proof.
  unfold HandleKids. intros Ha (msgs & -> & Hv)%HandleProposals_voting. apply addBlock_grows, grows_calm in Ha.
  change ([] ++ msgs) with ([] ++ msgs). eapply voting_trans; [by apply calm_voting|done].
Qed.

Lemma HandleBlock_voting now bm n out n' : HandleBlock now bm n = Some (out, n') -> voting n out n'.
Proof.
  unfold HandleBlock. case_match; [intros [= <- <-]; by apply calm_voting; [apply calm_refl|]|].
  case_match; [intros [= <- <-]; by apply calm_voting; [apply calm_refl|]|].
  destruct (blocks n !! bExec n); simpl; [|done].
  case_match; [|intros [= <- <-]; by apply calm_voting; [apply calm_refl|]].
  destruct (blocks n !! bParent (bmBlock bm)).
  { destruct (addBlockLocked _ n) as [[kids n1]|] eqn:Ea; simpl; [|done]. by eapply kids_voting. }
  case_match.
  { destruct (addBlockLocked _ n) as [[kids n1]|] eqn:Ea; simpl; [|done]. by eapply kids_voting. }
  unfold requestBlock. simpl. repeat case_match; intros [= <- <-];
    (apply calm_voting; [by repeat split|]); try done; apply sendFetch_votes.
Qed.

Lemma insertBatch_grows bs kids n kids' n' : insertBatch bs kids n = Some (kids', n') -> grows n n'.
Proof.
  revert kids n. induction bs as [|b bs IH]; intros kids n E; simpl in E; [simplify_eq; apply grows_refl|].
  destruct (blocks n !! bID b); [by eapply IH|].
  destruct (addBlockLocked b n) as [[ks n1]|] eqn:Ea; simpl in E; [|done].
  eapply grows_trans; [by eapply addBlock_grows|by eapply IH].
Qed.

Lemma HandleBlockBatch_voting now bb n out n' : HandleBlockBatch now bb n = Some (out, n') -> voting n out n'.
Proof.
  unfold HandleBlockBatch. destruct (syncReqs n !! bbRequestID bb) as [req|];
    [|intros [= <- <-]; by apply calm_voting; [apply calm_refl|]].
  case_match; [intros [= <- <-]; by apply calm_voting; [apply calm_refl|]|].
  case_match; [intros [= <- <-]; by apply calm_voting; [apply calm_refl|]|].
  destruct (insertBatchLocked (bbBlocks bb) n) as [[kids n1]|] eqn:E1; simpl; [|done].
  assert (grows n n1) as H1.
  { unfold insertBatchLocked in E1. repeat case_match; simplify_eq; try apply grows_refl.
    by eapply insertBatch_grows. }
  clear E1. set (n2 := set_syncReqs _ n1). assert (grows n n2) as H2 by (eapply grows_trans; [exact H1|by repeat split]).
  clearbody n2.
  match goal with |- (let '(_, _) := ?x in _) = _ -> _ => destruct x as [cont n3] eqn:Ec end.
  assert (grows n n3 /\ votes_of cont = []) as [H3 Hc].
  { repeat case_match; simplify_eq; split; try done; eapply grows_trans; try exact H2; by repeat split. }
  destruct (HandleKids _ _ n3) as [[o n4]|] eqn:Ep; simpl; [|done]. intros [= <- <-].
  unfold HandleKids in Ep. apply HandleProposals_voting in Ep as (msgs & -> & Hv). simpl.
  eapply (voting_same _ ([] ++ msgs)); [by rewrite !votes_of_app, Hc, app_nil_r|].
  eapply voting_trans; [apply calm_voting; [by apply grows_calm|done]|done].
Qed.

Lemma step_voting now i n out n' : hs_step now i n = Some (out, n') -> voting n out n'.
Proof.
  destruct i; simpl.
  - intros (msgs & -> & Hv)%HandleProposals_voting. done.
  - unfold HandleVote. destruct (String.eqb _ _); simpl.
    + destruct (voteForBlockLocked v n) as [n1|] eqn:E; simpl; [|done]. intros [= <- <-].
      apply calm_voting; [|done]. by eapply grows_calm, voteForBlock_grows.
    + intros [= <- <-]. by apply calm_voting; [apply calm_refl|].
  - apply HandleViewChange_voting.
  - apply StartViewChange_voting.
  - intros [= <- <-]. apply calm_voting; [apply calm_refl|]. unfold HandleFetch. by repeat case_match.
  - apply HandleBlock_voting.
  - destruct (HandleGetBlocks g n) as [o|] eqn:E; simpl; [|done]. intros [= <- <-].
    apply calm_voting; [apply calm_refl|]. unfold HandleGetBlocks in E.
    destruct (if knownMemberLocked _ _ then _ else _) as [[]|]; by simplify_eq/=.
  - apply HandleBlockBatch_voting.
  - unfold Propose. repeat case_match; simpl; try (intros [= <- <-]; by apply calm_voting; [apply calm_refl|]).
    all: destruct (proposeLocked cmd n) as [[p n1]|] eqn:E; simpl; [|done].
    all: unfold broadcast; destruct (sets n1 !! epoch n1); simpl; [|done]; intros [= <- <-].
    all: apply calm_voting; [by eapply grows_calm, proposeLocked_grows|].
    all: match goal with |- votes_of (?f <$> ?l) = [] => induction l; done end.
  - intros [= <- <-]. apply calm_voting; [|done]. unfold WaitCommitted. repeat case_match; by repeat split.
Qed.

Lemma run_voting evs n out n' : hs_run evs n = Some (out, n') -> voting n out n'.
Proof.
  revert n out. induction evs as [|[now i] evs IH]; intros n out E; simpl in E.
  { simplify_eq. by apply calm_voting; [apply calm_refl|]. }
  destruct (hs_step now i n) as [[o1 n1]|] eqn:E1; simpl in E; [|done].
  destruct (hs_run evs n1) as [[o2 n2]|] eqn:E2; simplify_eq/=.
  eapply voting_trans; [by eapply step_voting|by apply IH].
Qed.

Lemma sorted_NoDup (l : list N) : StronglySorted N.lt l -> NoDup l.
Proof using Type.
  induction 1 as [|x l Hs IH Hx]; constructor; auto.
  intros Hin. rewrite Forall_forall in Hx. specialize (Hx x Hin). lia.
Qed.

(** C34: a replica sends at most one vote per height, and one that proposes
    nothing signs at most one: over any run, whatever messages arrive, the votes
    it sends are its own, their heights strictly increase and exceed the guard
    it started with, and the record that guards a vote is in the log; when no
    proposal of its own was accepted, these are all the votes it signs. The
    vote that a leader signs on its own proposal is counted in [signed], not among
    those sent, and is not guarded: a leader can sign twice at one height
    ([leader_votes_twice]). Garbage collection is not among the inputs. *)
Theorem votes_once evs n out n' :
  hs_run evs n = Some (out, n') ->
  (self_signed evs n = [] -> signed evs n = votes_of out) /\
  NoDup (vtHeight <$> votes_of out) /\ StronglySorted N.lt (vtHeight <$> votes_of out) /\
  forall v, v ∈ votes_of out ->
    vtVoter v = rid n /\ (vHeight n < vtHeight v <= vHeight n')%N /\
    (logStore n <> None -> guarded (vtHeight v) (log_of n')).
Proof.
  intros Hr. split; [by eapply signed_sent|]. apply run_voting in Hr as (_ & _ & _ & _ & Hs & Hf).
  rewrite Forall_forall in Hf. split_and!; auto. by apply sorted_NoDup.
Qed.

(** ** Restarting *)

#[local] Set Default Proof Using "Type".

Definition replay (log : list Record_) n : Replica F W :=
  foldl (fun n r => (ApplyRecoveredRecord r n).2) n log.

Lemma ApplyRecovered_guard r n :
  (vHeight n <= vHeight (ApplyRecoveredRecord r n).2)%N /\
  forall h, op r = OpHotStuff -> json_unpersist (rdata r) = Some (pkVoted h) ->
    (h <= vHeight (ApplyRecoveredRecord r n).2)%N.
Proof.
  unfold ApplyRecoveredRecord. destruct (bool_decide_reflect (op r = OpHotStuff)) as [Hop|Hop]; simpl;
    [|split; [lia|done]].
  destruct (json_unpersist (rdata r)) as [pe|]; simpl; [|split; [lia|done]].
  destruct pe as [b|[q|]|id|h0|]; simpl; try (split; [repeat case_match; simpl; lia|done]).
  destruct (N.ltb_spec (vHeight n) h0); simpl; split; try lia; intros h _ [= ->]; lia.
Qed.

Lemma replay_guard log n h :
  (vHeight n <= vHeight (replay log n))%N /\
  ((forall d, json_persist (pkVoted h) = Ok d -> json_unpersist d = Some (pkVoted h)) ->
   guarded h log -> (h <= vHeight (replay log n))%N).
Proof.
  revert n. induction log as [|r log IH]; intros n; simpl.
  { split; [lia|]. intros _ (d & _ & Hd). by apply elem_of_nil in Hd. }
  destruct (ApplyRecovered_guard r n) as [Hm Hh], (IH (ApplyRecoveredRecord r n).2) as [Hm' Hh'].
  split; [lia|]. intros Hj (d & Hd & Hin). apply elem_of_cons in Hin as [<-|Hin].
  - specialize (Hh h eq_refl (Hj d Hd)). lia.
  - apply Hh'; [done|]. by exists d.
Qed.

Lemma activate_guard b n : vHeight (activateTransitionLocked b n) = vHeight n.
Proof. unfold activateTransitionLocked. by repeat case_match. Qed.

Lemma recoverQC_guard (acc : QC * Block * option Block * Replica F W) q acc' : recoverQC acc q = Some acc' -> vHeight acc'.2 = vHeight acc.2.
Proof.
  destruct acc as [[[high lock] exec] n]. unfold recoverQC. repeat case_match; simpl; intros E; simplify_eq; try done;
    (destruct exec; simpl in E; [|done]; case_match; simplify_eq; simpl; [apply activate_guard|done]).
Qed.

Lemma recoverAll_guard qs (acc : QC * Block * option Block * Replica F W) acc' : recoverAll acc qs = Some acc' -> vHeight acc'.2 = vHeight acc.2.
Proof.
  revert acc. induction qs as [|q qs IH]; intros acc E; simpl in E; [by simplify_eq|].
  destruct (recoverQC acc q) as [acc1|] eqn:E1; simpl in E; [|done].
  rewrite (IH _ E). by eapply recoverQC_guard.
Qed.

Lemma markAll_guard bs n : vHeight (markAll bs n) = vHeight n.
Proof.
  revert n. induction bs as [|b bs IH]; intros n; [done|]. unfold markAll in *. simpl. rewrite IH.
  unfold markAppliedLocked. by case_match.
Qed.

Lemma FinishRecovery_guard n n' : FinishRecovery n = Some n' -> vHeight n' = vHeight n.
Proof.
  unfold FinishRecovery, finishRecoveryLocked. destruct (qcHigh n) as [q|]; simpl; [|done].
  destruct (blocks n !! bLock n) as [lk|]; simpl; [|done].
  destruct (recoverAll _ (recoverQCs n)) as [[[[q1 lk1] ex1] n1]|] eqn:E1; cbn [mbind option_bind]; [|done].
  apply recoverAll_guard in E1. simpl in E1.
  match goal with |- (?o ≫= _) = _ -> _ => destruct o as [ex2|] end; cbn [mbind option_bind]; [|done].
  match goal with |- (let '(_, _) := ?x in _) = _ -> _ => destruct x as [q2 [ex3|]] end;
    cbn [mbind option_bind]; [|done].
  match goal with |- (?o ≫= _) = _ -> _ => destruct o end; cbn [mbind option_bind]; [|done].
  intros [= <-]. simpl. by rewrite markAll_guard.
Qed.

(** C35: a restarted replica never repeats a vote it sent: whatever votes a
    replica with a log sent before a crash, once a fresh one has replayed that
    log and finished recovery, every vote it sends from then on is at a greater
    height than every vote before; and a replica that had proposed nothing had
    signed no others, so no vote of it is ever followed by one at its height. The
    votes that a leader signs on its own proposals are not guarded, and are
    excepted; the log is the whole of what was appended: no garbage collection
    with its checkpoint came between. *)
Theorem restart_votes_higher evs n out n' n0 n1 w evs' out' n2 :
  (forall h d, json_persist (pkVoted h) = Ok d -> json_unpersist d = Some (pkVoted h)) ->
  hs_run evs n = Some (out, n') -> logStore n <> None ->
  FinishRecovery (replay (log_of n') n0) = Some n1 ->
  hs_run evs' (SetLogStore w n1) = Some (out', n2) ->
  (forall v v', v ∈ votes_of out -> v' ∈ votes_of out' -> (vtHeight v < vtHeight v')%N) /\
  (self_signed evs n = [] -> self_signed evs' (SetLogStore w n1) = [] ->
   NoDup (vtHeight <$> signed evs n ++ signed evs' (SetLogStore w n1))).
Proof using EL.
  intros Hj Hr1 Hls Hfin Hr2.
  pose proof (run_voting _ _ _ _ Hr1) as (_ & _ & _ & _ & Hs & Hf). pose proof (run_voting _ _ _ _ Hr2) as (_ & _ & _ & _ & Hs' & Hf').
  assert (forall v v', v ∈ votes_of out -> v' ∈ votes_of out' -> (vtHeight v < vtHeight v')%N) as Hlt.
  { intros v v' Hv Hv'. rewrite Forall_forall in Hf, Hf'. destruct (Hf v Hv) as (_ & _ & Hg), (Hf' v' Hv') as (_ & Hh & _).
    apply FinishRecovery_guard in Hfin. simpl in Hh.
    destruct (replay_guard (log_of n') n0 (vtHeight v)) as [_ Hr]. specialize (Hr (Hj _) (Hg Hls)). lia. }
  split; [done|]. intros H1 H2. rewrite (signed_sent _ _ _ _ Hr1 H1), (signed_sent _ _ _ _ Hr2 H2), fmap_app.
  apply NoDup_app. split_and!; [by apply sorted_NoDup| |by apply sorted_NoDup].
  intros h (v & -> & Hv)%list_elem_of_fmap (v' & He & Hv')%list_elem_of_fmap. specialize (Hlt v v' Hv Hv'). lia.
Qed.
End votes.

(** ** Example runs *)

(** Replica [b] votes for the leader's first proposal. *)
Definition first_vote : option (list Out * MemReplica) :=
  '(p1, _) ← two_proposals; n ← member "b"; hs_run [(0%Z, HProposal p1)] n.

Lemma votes_once_witness :
  exists out n', first_vote = Some (out, n') /\ length (votes_of out) = 1 /\ NoDup (vtHeight <$> votes_of out).
Proof.
  assert ((fun r => length (votes_of r.1)) <$> first_vote = Some 1) as H by (vm_compute; reflexivity).
  destruct first_vote as [[out n']|] eqn:E; [|discriminate H]. exists out, n'. split; [done|].
  split; [by injection H|]. revert E. unfold first_vote.
  destruct two_proposals as [[p1 p2]|]; [|discriminate]. cbn [mbind option_bind].
  destruct (member "b") as [n|]; [|discriminate]. cbn [mbind option_bind]. intros E.
  by destruct (votes_once _ _ _ _ E) as (_ & Hn & _).
Defined.

(** It crashes, recovers from its log, and votes for the second. *)
Definition restarted_vote : option (list Vote * list Vote) :=
  '(p1, p2) ← two_proposals; n ← member "b"; '(out, n') ← hs_run (F := Ran) (W := MemLog) [(0%Z, HProposal p1)] n;
  n1 ← FinishRecovery (replay (F := Ran) (W := MemLog) (log_of n') n);
  '(out', _) ← hs_run [(1%Z, HProposal p2)] (SetLogStore ([] : MemLog) n1);
  Some (votes_of out, votes_of out').

Lemma restart_votes_higher_witness :
  exists l l', restarted_vote = Some (l, l') /\ length l = 1 /\ length l' = 1 /\
    forall v v', v ∈ l -> v' ∈ l' -> (vtHeight v < vtHeight v')%N.
Proof.
  assert ((fun r => (length r.1, length r.2)) <$> restarted_vote = Some (1, 1)) as H by (vm_compute; reflexivity).
  assert (match member "b" with Some n => bool_decide (logStore n = None) | None => true end = false) as Hl
    by (vm_compute; reflexivity).
  destruct restarted_vote as [[l l']|] eqn:E; [|discriminate H]. exists l, l'. split; [done|].
  simpl in H. injection H as H1 H2. split; [done|]. split; [done|]. clear H1 H2. revert E. unfold restarted_vote.
  destruct two_proposals as [[p1 p2]|]; [|discriminate]. cbn [mbind option_bind].
  destruct (member "b") as [n|]; [|discriminate]. cbn [mbind option_bind].
  destruct (hs_run [(0%Z, HProposal p1)] n) as [[out n']|] eqn:E1; [|discriminate]. cbn [mbind option_bind].
  destruct (FinishRecovery (replay (log_of n') n)) as [n1|] eqn:E2; [|discriminate]. cbn [mbind option_bind].
  destruct (hs_run [(1%Z, HProposal p2)] (SetLogStore ([] : MemLog) n1)) as [[out' n2]|] eqn:E3; [|discriminate].
  cbn [mbind option_bind]. intros [= <- <-].
  eapply proj1, (restart_votes_higher _ _ _ _ _ _ _ _ _ _ (fun h d => persist_roundtrip (pkVoted h) d) E1
    ltac:(by apply bool_decide_eq_false in Hl) E2 E3).
Defined.

(** ** The leader's own vote

    ["a"] leads view 0 and proposes. Before anyone has its block, ["b"], ["c"] and
    ["d"] move to view 1, whose leader ["b"] proposes at the same height: ["a"]
    has signed for its own block and now votes for the other. *)
Definition view_changes (q : QC) : list ViewChange :=
  (fun id => let vc := mkViewChange 1 0 (Some q) id [] in
             mkViewChange 1 0 (Some q) id (signPayload (key_of id) (SViewChange vc))) <$> ["b"; "c"; "d"].

Definition rival_proposal : option Proposal :=
  n ← member "b"; q ← qcHigh n;
  let l := view_changes q in
  let c := String.list_ascii_of_string "rival" in
  let b := mkBlock 1 1 genesisID (blockID 1 1 genesisID c) c (Some q) 0 in
  Some (mkProposal b "b" l (signPayload (key_of "b") (SProposal (mkProposal b "b" l [])))).

Definition deposed_run : option (list Vote) :=
  n ← member "a"; p ← rival_proposal;
  Some (signed [(0%Z, HPropose (String.list_ascii_of_string "mine")); (1%Z, HProposal p)] n).

Theorem leader_votes_twice :
  exists v v', deposed_run = Some [v; v'] /\ vtHeight v = vtHeight v' /\ vtVoter v = "a" /\ vtVoter v' = "a" /\
    vtNodeID v <> vtNodeID v'.
Proof.
  assert (match deposed_run with
          | Some [v; v'] => bool_decide (vtHeight v = vtHeight v' /\ vtVoter v = "a" /\ vtVoter v' = "a" /\ vtNodeID v <> vtNodeID v')
          | _ => false end = true) as H by (vm_compute; reflexivity).
  destruct deposed_run as [[|v [|v' [|]]]|]; try discriminate H. exists v, v'. split; [reflexivity|].
  by apply bool_decide_eq_true in H.
Qed.
