(* ===== verification/HotStuffQuorum.v ===== *)
(** * HotStuff: validator sets and quorums *)

From S2P Require Import Prelude WalTypes WalCodec BTreeOrder HotStuffTypes HotStuff HotStuffProps HotStuffInstances HotStuffThms.

(** ** Sorted sets of validators *)

Lemma string_le_ltb (x y : string) : String.le x y -> String.ltb y x = false.
Proof. intros H%Is_true_true. rewrite string_ltb_leb. by rewrite H. Qed.

Lemma SearchStrings_spec (l : list string) (x : string) :
  StronglySorted String.le l -> l !! SearchStrings l x = Some x <-> x ∈ l.
Proof.
  intros Hs. split; [apply list_elem_of_lookup_2|].
  induction Hs as [|y l Hs IH Hy]; simpl; [by intros ?%elem_of_nil|]. intros Hx.
  destruct (String.ltb y x) eqn:E; simpl.
  - apply IH. apply elem_of_cons in Hx as [->|Hx]; [|done]. by rewrite string_ltb_irrefl in E.
  - f_equal. apply elem_of_cons in Hx as [->|Hx]; [done|].
    rewrite Forall_forall in Hy. apply Hy, string_le_ltb in Hx. by apply string_ltb_total.
Qed.

Lemma set_has_elem (s : ValidatorSet) (id : string) : set_has s id = true -> id ∈ Validators s.
Proof.
  unfold set_has. destruct (Validators s !! _) as [x|] eqn:E; [|done].
  intros ->%String.eqb_eq. by eapply list_elem_of_lookup_2.
Qed.

Lemma set_has_spec (s : ValidatorSet) (id : string) :
  StronglySorted String.le (Validators s) -> set_has s id = true <-> id ∈ Validators s.
Proof.
  intros Hs. split; [apply set_has_elem|]. intros H%(SearchStrings_spec _ _ Hs).
  unfold set_has. rewrite H. by apply String.eqb_eq.
Qed.

Lemma sort_Strings_sorted (l : list string) : StronglySorted String.le (sort_Strings l).
Proof. apply (StronglySorted_merge_sort String.le). Qed.

Lemma sort_Strings_perm (l : list string) : sort_Strings l ≡ₚ l.
Proof. apply (merge_sort_Permutation String.le). Qed.

Lemma size_list_to_set_le (l : list string) : size (list_to_set l : gset string) <= length l.
Proof.
  induction l as [|x l IH]; [by rewrite list_to_set_nil, size_empty|]. rewrite list_to_set_cons. simpl.
  rewrite size_union_alt, size_singleton.
  pose proof (subseteq_size (list_to_set l ∖ {[x]} : gset string) (list_to_set l) ltac:(set_solver)). lia.
Qed.

Section sets.
Context {CR : Crypto}.

Lemma remove_members_spec (m m' : gset string) ids :
  remove_members m ids = Some m' ->
  (forall id, id ∈ m' <-> id ∈ m /\ id ∉ ids) /\ (forall id, id ∈ ids -> id ∈ m).
Proof.
  revert m. induction ids as [|x ids IH]; intros m E; simpl in E.
  { simplify_eq. set_solver. }
  destruct (decide (x ∈ m)); [|done]. destruct (IH _ E) as [H1 H2]. split.
  - intros id. rewrite H1. set_solver.
  - intros id [->|Hid]%elem_of_cons; [done|]. apply H2 in Hid. set_solver.
Qed.

Lemma add_members_spec (m m' : gset string) (keys keys' : gmap string bytes) es :
  add_members m keys es = Some (m', keys') ->
  (forall id, id ∈ m' <-> id ∈ m \/ id ∈ (veID <$> es)) /\
  (forall e, e ∈ es -> (veID e ∉ m) /\ length (vePub e) = PublicKeySize /\ keys' !! veID e = Some (vePub e)) /\
  (forall id, id ∉ (veID <$> es) -> keys' !! id = keys !! id) /\ NoDup ((veID <$> es)).
Proof.
  revert m keys. induction es as [|a es IH]; intros m keys E; simpl in E.
  { simplify_eq. split_and!; [set_solver|set_solver|done|constructor]. }
  destruct (decide (veID a ∈ m)) as [|Ha]; [done|].
  destruct (Nat.eqb_spec (length (vePub a)) PublicKeySize) as [Hl|]; simpl in E; [|done].
  destruct (IH _ _ E) as (H1 & H2 & H3 & H4).
  assert (veID a ∉ (veID <$> es)) as Hnew.
  { intros (e & He & Hin)%list_elem_of_fmap. destruct (H2 e Hin) as [Hn _]. set_solver. }
  split_and!.
  - intros id. rewrite (H1 id), fmap_cons, elem_of_cons. set_solver.
  - intros e He. apply elem_of_cons in He as [->|He].
    + rewrite (H3 _ Hnew), lookup_insert_eq. done.
    + destruct (H2 e He) as (? & ? & ?). set_solver.
  - intros id Hid. rewrite fmap_cons, not_elem_of_cons in Hid. destruct Hid as [Hne Hid].
    rewrite (H3 _ Hid). by rewrite lookup_insert_ne.
  - rewrite fmap_cons. by constructor.
Qed.

(** A set as the code builds them. *)
Definition set_ok (s : ValidatorSet) : Prop :=
  StronglySorted String.le (Validators s) /\ NoDup (Validators s) /\
  vsF s = (length (Validators s) - 1) / 3 /\ Quorum s = 2 * vsF s + 1.

(** A membership change does what it says: the next epoch's validators are
    the old ones less the removed and with the added, sorted and distinct, with
    the added ones' keys, the quorum the size asks for, and membership in the
    set is what [has] tests. A set is derived only for a change that removes
    members, adds distinct strangers with keys of the right size and leaves
    somebody. *)
Theorem set_apply_correct (s : ValidatorSet) (mc : MembershipChange) :
  match set_apply s mc with
  | Some s' =>
      set_ok s' /\ Validators s' <> [] /\ vsEpoch s' = u64_add (vsEpoch s) 1 /\
      (forall id, set_has s' id = true <->
         id ∈ Validators s /\ id ∉ mcRemove mc \/ id ∈ (veID <$> mcAdd mc)) /\
      (forall e, e ∈ mcAdd mc -> PublicKeys s' !! veID e = Some (vePub e)) /\
      (forall id, id ∉ (veID <$> mcAdd mc) -> PublicKeys s' !! id = PublicKeys s !! id) /\
      (forall id, id ∈ mcRemove mc -> id ∈ Validators s) /\ NoDup (veID <$> mcAdd mc) /\
      (forall e, e ∈ mcAdd mc -> length (vePub e) = PublicKeySize /\
         (veID e ∈ Validators s -> veID e ∈ mcRemove mc))
  | None => True
  end.
Proof.
  unfold set_apply. destruct (remove_members _ _) as [m1|] eqn:E1; simpl; [|done].
  destruct (add_members m1 _ _) as [[m2 keys]|] eqn:E2; simpl; [|done].
  destruct (decide (m2 = ∅)) as [|Hne]; [done|].
  destruct (add_members_spec _ _ _ _ _ E2) as (H1 & H2 & H3 & H4).
  destruct (remove_members_spec _ _ _ E1) as [Hr Hr'].
  pose proof (sort_Strings_perm (elements m2)) as Hp.
  assert (forall id, id ∈ sort_Strings (elements m2) <-> id ∈ m2) as Hin.
  { intros id. rewrite Hp. apply elem_of_elements. }
  split_and!; simpl.
  - split_and!; simpl; [apply sort_Strings_sorted| |done|lia]. rewrite Hp. apply NoDup_elements.
  - intros Hnil. apply Hne. apply elem_of_equiv_empty_L. intros x Hx%Hin. rewrite Hnil in Hx. by apply elem_of_nil in Hx.
  - done.
  - intros id. rewrite set_has_spec by apply sort_Strings_sorted. simpl.
    rewrite Hin, H1, Hr, elem_of_list_to_set. done.
  - intros e He. by apply H2.
  - intros id Hid. by apply H3.
  - intros id Hid. apply Hr' in Hid. by apply elem_of_list_to_set in Hid.
  - done.
  - intros e He. destruct (H2 e He) as (Hn & Hl & _). split; [done|]. intros Hv.
    destruct (decide (veID e ∈ mcRemove mc)); [done|]. exfalso. apply Hn, Hr.
    split; [by apply elem_of_list_to_set|done].
Qed.
End sets.

(** ** Certificates *)

Section quorums.
Context {F W : Type}.
Context {EX : Executor F W} {WW : Wal W} {CR : Crypto} {J : Json} {MJ : MembershipJson} {PJ : PersistJson}.
Implicit Types n : Replica F W.

(** [id]'s vote for what [q] certifies is in [q] and verifies with its key in
    the set. *)
Definition signed_vote (s : ValidatorSet) (q : QC) (id : string) : Prop :=
  exists sig pk, qVotes q !! id = Some sig /\ PublicKeys s !! id = Some pk /\
    verifyPayload pk sig (SVote (voteOf q id)) = true.

Lemma qcValid_votes n q s :
  qcValid n (Some q) = true -> qNodeID q <> genesisID -> sets n !! qEpoch q = Some s ->
  Quorum s <= size (dom (qVotes q)) /\
  forall id, id ∈ dom (qVotes q) -> id ∈ Validators s /\ signed_vote s q id.
Proof.
  unfold qcValid. intros Hv Hg Hs. rewrite (proj2 (String.eqb_neq _ _)), Hs in Hv by done.
  destruct (Nat.ltb_spec (size (qVotes q)) (Quorum s)); [done|].
  destruct (match blocks n !! qNodeID q with Some _ => _ | None => _ end); [done|].
  rewrite forallb_forall in Hv. split; [rewrite size_dom; lia|].
  intros id [sig Hsig]%elem_of_dom.
  assert (In (id, sig) (map_to_list (qVotes q))) as Hin.
  { apply list_elem_of_In. by apply elem_of_map_to_list. }
  specialize (Hv _ Hin). simpl in Hv. apply andb_true_iff in Hv as [Hh Hk].
  split; [by apply set_has_elem|]. destruct (PublicKeys s !! id) as [pk|] eqn:Ek; [|done].
  apply andb_true_iff in Hk as [_ Hk]. by exists sig, pk.
Qed.

(** C37: two certificates of one epoch share a correct voter: in a set of
    [3f + 1] validators, any two genuine certificates have [f + 1] voters in
    common, each of whom signed both; with at most [f] faulty validators one of
    them is correct. *)
Theorem quorums_intersect n q1 q2 s :
  sets n !! qEpoch q1 = Some s -> qEpoch q2 = qEpoch q1 ->
  qcValid n (Some q1) = true -> qcValid n (Some q2) = true ->
  qNodeID q1 <> genesisID -> qNodeID q2 <> genesisID ->
  length (Validators s) = 3 * vsF s + 1 -> Quorum s = 2 * vsF s + 1 ->
  exists common : gset string, vsF s + 1 <= size common /\
    forall id, id ∈ common -> id ∈ Validators s /\ signed_vote s q1 id /\ signed_vote s q2 id.
Proof.
  intros Hs He Hv1 Hv2 Hg1 Hg2 Hlen Hq.
  destruct (qcValid_votes n q1 s Hv1 Hg1 Hs) as [Hn1 Hd1].
  destruct (qcValid_votes n q2 s Hv2 Hg2) as [Hn2 Hd2]; [by rewrite He|].
  exists (dom (qVotes q2) ∩ dom (qVotes q1)). split.
  - set (A := dom (qVotes q1)) in *. set (B := dom (qVotes q2)) in *.
    assert (size (A ∪ B) <= length (Validators s)) as Hu.
    { etrans; [apply (subseteq_size _ (list_to_set (Validators s)))|apply size_list_to_set_le].
      intros id [Hid|Hid]%elem_of_union; apply elem_of_list_to_set; [by apply Hd1|by apply Hd2]. }
    pose proof (size_union_alt A B) as Hua. pose proof (size_difference_alt B A) as Hda.
    lia.
  - intros id [H2 H1]%elem_of_intersection. destruct (Hd1 id H1), (Hd2 id H2). done.
Qed.
End quorums.

(** ** An example *)

(** A certificate for block [id] with the signatures of [voters]. *)
Definition certificate (id : string) (h : N) (voters : list string) : QC :=
  mkQC 0 id h (list_to_map
    ((fun v => (v, signPayload (key_of v) (SVote (mkVote h id v [])))) <$> voters)).

(** The genesis set of the four, as replica [a] has it. *)
Definition set_of_four : option ValidatorSet := n ← member "a"; sets n !! 0%N.

Lemma quorums_intersect_witness :
  match member "a", set_of_four with
  | Some n, Some s =>
      let q1 := certificate "x" 1 ["a"; "b"; "c"] in
      let q2 := certificate "y" 1 ["b"; "c"; "d"] in
      exists common : gset string, 2 <= size common /\
        forall id, id ∈ common -> id ∈ Validators s /\ signed_vote s q1 id /\ signed_vote s q2 id
  | _, _ => False
  end.
Proof.
  set (q1 := certificate "x" 1 ["a"; "b"; "c"]). set (q2 := certificate "y" 1 ["b"; "c"; "d"]).
  assert (match member "a", set_of_four with
    | Some n, Some s => (qcValid n (Some q1) && qcValid n (Some q2)) &&
        ((length (Validators s) =? 4) && (vsF s =? 1) && (Quorum s =? 3))
    | _, _ => false end = true) as H by (vm_compute; reflexivity).
  unfold set_of_four in *. destruct (member "a") as [n|]; [|discriminate H]. cbn [mbind option_bind] in *.
  destruct (sets n !! 0%N) as [s|] eqn:Es; [|discriminate H].
  apply andb_true_iff in H as [[Hv1 Hv2]%andb_true_iff [[Hl%Nat.eqb_eq Hf%Nat.eqb_eq]%andb_true_iff Hq%Nat.eqb_eq]%andb_true_iff].
  destruct (quorums_intersect n q1 q2 s Es eq_refl Hv1 Hv2 ltac:(discriminate) ltac:(discriminate)
    ltac:(lia) ltac:(lia)) as (common & Hc & Hin).
  exists common. split; [lia|done].
Defined.
