(* ===== verification/HotStuffMoves.v ===== *)
(** * A HotStuff replica: its elementary moves

    Every handler, whatever its input, changes the tree of blocks, the validator
    sets, the view, the collected view changes and the state machine in a few
    ways only, each under a guard of the code. This file lists them as a step
    relation and shows that a handler is a sequence of such moves; properties of
    runs then follow by induction on the moves. *)

From stdpp Require Import relations.
From S2P Require Import Prelude WalTypes HotStuffTypes HotStuff HotStuffProps HotStuffInstances HotStuffThms.

Section moves.
Context {F W : Type}.
Context {EX : Executor F W} {WW : Wal W} {CR : Crypto} {J : Json} {MJ : MembershipJson} {PJ : PersistJson}.
Implicit Types n : Replica F W.

(** A block's id is the hash of what it says. *)
Definition proper_id (b : Block) : Prop := bID b = blockID (bView b) (bHeight b) (bParent b) (bCmd b).

(** A block that waits for its parent. *)
Definition waits n (b : Block) : Prop := exists k l, pendingBlocks n !! k = Some l /\ b ∈ l.
Definition waiting_proper n : Prop := forall b, waits n b -> proper_id b.

(** Records of the engine, and only these, were appended to the log. *)
Definition engine_log : relation (option W) :=
  rtc (fun l l' => exists w pe, l = Some w /\ l' = Some (appendEntry w pe).1).

Lemma engine_log_refl l : engine_log l l.
Proof. apply rtc_refl. Qed.
#[local] Hint Resolve engine_log_refl : core.

Lemma persist_engine_log pe n : engine_log (logStore n) (logStore (persistLocked pe n).2).
Proof.
  unfold persistLocked. destruct (logStore n) as [w|] eqn:E; [|simpl; by rewrite E].
  destruct (appendEntry w pe) as [w' e] eqn:Ea. simpl. apply rtc_once. exists w, pe. by rewrite Ea.
Qed.

(** The part of the state that the moves are about is unchanged. *)
Definition quiet n n' : Prop :=
  rid n' = rid n /\ blocks n' = blocks n /\ sets n' = sets n /\ epoch n' = epoch n /\
  view n' = view n /\ vcs n' = vcs n /\ bExec n' = bExec n /\ fsm n' = fsm n /\
  appliedIDs n' = appliedIDs n /\ (forall b, waits n' b -> waits n b) /\
  engine_log (logStore n) (logStore n').

(** A direct three-chain [g <- p <- c] whose top is certified by [q]. *)
Definition three_chain n (q : QC) (c p g : Block) : Prop :=
  qcValid n (Some q) = true /\ blocks n !! qNodeID q = Some c /\
  blocks n !! bParent c = Some p /\ oneChainedBy p (Some c) = true /\
  blocks n !! bParent p = Some g /\ oneChainedBy g (Some p) = true.

(** Why a replica may enter view [v]: its own suspicion timer ([t]), the view
    changes carried by a proposal, or those it has collected. *)
Inductive joins (t : bool) n (v : N) : Prop :=
  | joins_timeout : t = true -> joins t n v
  | joins_cert (l : list ViewChange) : proposalViewCertValidLocked n v l = true -> joins t n v
  | joins_quorum (s : ValidatorSet) :
      sets n !! epoch n = Some s -> Quorum s <= size (default ∅ (vcs n !! v)) -> joins t n v.

(** Whose view changes are collected. *)
Inductive counts (t : bool) n (vc : ViewChange) : Prop :=
  | counts_own : t = true -> vcFrom vc = rid n -> counts t n vc
  | counts_signed (s : ValidatorSet) :
      sets n !! epoch n = Some s -> set_has s (vcFrom vc) = true ->
      verifyInSet (Some s) (vcFrom vc) (vcSig vc) (SViewChange vc) = true -> counts t n vc.

Inductive move (t : bool) n : Replica F W -> Prop :=
  | mv_quiet n' : quiet n n' -> move t n n'
  | mv_block b : proper_id b -> move t n (set_blocks (<[bID b := b]> (blocks n)) n)
  | mv_park b : proper_id b -> move t n (park [b] n)
  | mv_commit q c p g bs : three_chain n q c p g ->
      span (fuel_of n) (blocks n) (bExec n) (Some g) = Some bs ->
      move t n (foldl executeBlock n (rev bs))
  | mv_view v : (view n < v)%N -> joins t n v -> move t n (set_view v n)
  | mv_vc vc : counts t n vc ->
      move t n (set_vcs (<[vcView vc := <[vcFrom vc := vc]> (default ∅ (vcs n !! vcView vc))]> (vcs n)) n).

Definition moves (t : bool) : Replica F W -> Replica F W -> Prop := rtc (move t).

Lemma moves_quiet t n n' : quiet n n' -> moves t n n'.
Proof. intros H. apply rtc_once. by constructor. Qed.

Lemma moves_trans t n1 n2 n3 : moves t n1 n2 -> moves t n2 n3 -> moves t n1 n3.
Proof. intros H1 H2. by etrans. Qed.

Lemma moves_then_quiet t n1 n2 n3 : moves t n1 n2 -> quiet n2 n3 -> moves t n1 n3.
Proof. intros H1 H2. eapply moves_trans; [exact H1|]. by apply moves_quiet. Qed.

Lemma quiet_refl n : quiet n n.
Proof. by repeat split. Qed.

Lemma quiet_trans n1 n2 n3 : quiet n1 n2 -> quiet n2 n3 -> quiet n1 n3.
Proof.
  intros (?&?&?&?&?&?&?&?&?&Hw1&Hl1) (?&?&?&?&?&?&?&?&?&Hw2&Hl2). unfold quiet.
  split_and!; try congruence; [auto|by etrans].
Qed.

Lemma quiet_qcValid n n' q : quiet n n' -> qcValid n' q = qcValid n q.
Proof. intros (_ & Hb & Hs & _). unfold qcValid. by rewrite Hb, Hs. Qed.

Lemma quiet_three_chain n n' q c p g : quiet n n' -> three_chain n q c p g -> three_chain n' q c p g.
Proof.
  intros Hq. unfold three_chain. rewrite (quiet_qcValid _ _ _ Hq). destruct Hq as (_ & -> & _). done.
Qed.

Lemma persistRecord_quiet pe n : quiet n (persistRecordLocked pe n).
Proof.
  pose proof (persist_engine_log pe n) as Hl. unfold persistRecordLocked, persistLocked in *.
  destruct (logStore n) as [w|] eqn:E; [|by repeat split].
  destruct (appendEntry w pe). simpl in *. split_and!; try done. by rewrite E.
Qed.

Lemma commit_moves t q c p g n n' :
  three_chain n q c p g -> commitUpToLocked g n = Some n' -> moves t n n'.
Proof.
  intros H3. unfold commitUpToLocked. destruct (span _ _ _ _) as [bs|] eqn:E; simpl; [|done]. intros [= <-].
  eapply moves_then_quiet; [apply rtc_once; by eapply mv_commit|apply persistRecord_quiet].
Qed.

Lemma onNewQC_moves t qc n n' : onNewQCLocked qc n = Some n' -> moves t n n'.
Proof.
  unfold onNewQCLocked. destruct qc as [q|]; [|intros [= <-]; apply rtc_refl].
  destruct (qcValid n (Some q)) eqn:Ev; simpl; [|intros [= <-]; apply rtc_refl].
  destruct (match qcHigh n with Some _ => _ | None => _ end); [intros [= <-]; apply rtc_refl|].
  set (n1 := persistRecordLocked _ _).
  assert (quiet n n1) as Hq by (eapply quiet_trans; [|apply persistRecord_quiet]; by repeat split).
  clearbody n1. rewrite <- (quiet_qcValid _ _ _ Hq) in Ev.
  destruct (blocks n1 !! qNodeID q) as [c|] eqn:Ec; [|intros [= <-]; by apply moves_quiet].
  destruct (blocks n1 !! bParent c) as [p|] eqn:Ep; [|case_match; [intros [= <-]; by apply moves_quiet|done]].
  destruct (oneChainedBy p (Some c)) eqn:Epc; simpl; [|intros [= <-]; by apply moves_quiet].
  destruct (blocks n1 !! bLock n1) as [lock|]; simpl; [|done].
  set (n2 := if (_ : bool) then _ else n1).
  assert (quiet n1 n2) as Hq2 by (unfold n2; case_match; by repeat split). clearbody n2.
  assert (quiet n n2) as Hq02 by (by eapply quiet_trans).
  destruct (blocks n2 !! bParent p) as [gp|] eqn:Eg; [|intros [= <-]; by apply moves_quiet].
  destruct (oneChainedBy gp (Some p)) eqn:Egp; [|intros [= <-]; by apply moves_quiet].
  destruct (blocks n2 !! bExec n2); simpl; [|done].
  case_match; [|intros [= <-]; by apply moves_quiet]. intros Hc.
  eapply moves_trans; [by apply moves_quiet|]. eapply (commit_moves t q c p gp); [|done].
  rewrite <- (quiet_qcValid _ _ _ Hq2) in Ev. destruct Hq2 as (_ & Hb & _). unfold three_chain.
  rewrite Hb in Eg |- *. done.
Qed.

Lemma activateWithBase_quiet b n : quiet n (activateWithBaseLocked b n).
Proof. unfold activateWithBaseLocked. repeat case_match; by repeat split. Qed.

Lemma completeBase_moves t id n n' : completeBaseLocked id n = Some n' -> moves t n n'.
Proof.
  unfold completeBaseLocked. destruct (wantBase n) as [q|]; [|intros [= <-]; apply rtc_refl].
  case_match; [intros [= <-]; apply rtc_refl|].
  destruct (if raises q n then _ else _) as [n1|] eqn:E; simpl; [|done]. intros [= <-].
  eapply moves_then_quiet; [|apply activateWithBase_quiet].
  destruct (raises q n); [|simplify_eq; apply rtc_refl].
  apply (onNewQC_moves t) in E. eapply moves_trans; [|exact E]. by apply moves_quiet.
Qed.

(** ** Blocks that wait *)

Lemma park_waits bs n b : waits (park bs n) b -> waits n b \/ b ∈ bs.
Proof.
  revert n. induction bs as [|x bs IH]; intros n; simpl; [by left|].
  intros [Hw|?]%IH; [|by right; right]. destruct Hw as (k & l & Hl & Hb). simpl in Hl.
  apply lookup_insert_Some in Hl as [[<- <-]|[_ Hl]]; [|left; by exists k, l].
  apply elem_of_app in Hb as [Hb|Hb%list_elem_of_singleton]; [|subst; by right; left].
  left. destruct (pendingBlocks n !! bParent x) as [l|] eqn:E; [by exists (bParent x), l|by apply elem_of_nil in Hb].
Qed.

Lemma executeAll_waits bs n : forall b, waits (foldl executeBlock n bs) b <-> waits n b.
Proof.
  revert n. induction bs as [|x bs IH]; intros n b; simpl; [done|]. rewrite IH.
  unfold executeBlock, markAppliedLocked, activateTransitionLocked. unfold waits.
  destruct (hs_apply (logStore n) (fsm n) x). by repeat case_match.
Qed.

Lemma move_waiting t n n' : move t n n' -> waiting_proper n -> waiting_proper n'.
Proof.
  intros Hm Hp b Hb. destruct Hm as [n' Hq|x _|x Hx|q c p g bs _ _|v _ _|vc _]; try by apply Hp.
  - by apply Hp, Hq.
  - apply park_waits in Hb as [Hb|Hb%list_elem_of_singleton]; [by apply Hp|by subst].
  - rewrite executeAll_waits in Hb. by apply Hp.
Qed.

Lemma moves_waiting t n n' : moves t n n' -> waiting_proper n -> waiting_proper n'.
Proof. induction 1 as [|n n1 n' H _ IH]; [done|]. intros Hp. apply IH. by eapply move_waiting. Qed.

(** ** Insertion *)

(** Taking the blocks that wait for [id] out, and parking some of them again. *)
Lemma release_quiet id (P : Block -> Prop) `{!forall b, Decision (P b)} n :
  quiet n (park (filter P (default [] (pendingBlocks n !! id)))
    (set_pendingBlocks (delete id (pendingBlocks n)) (set_pending (delete id (pending n)) n))).
Proof.
  set (m := set_pendingBlocks _ _).
  assert (forall bs (m : Replica F W), let m' := park bs m in rid m' = rid m /\ blocks m' = blocks m /\ sets m' = sets m /\
    epoch m' = epoch m /\ view m' = view m /\ vcs m' = vcs m /\ bExec m' = bExec m /\ fsm m' = fsm m /\
    appliedIDs m' = appliedIDs m /\ logStore m' = logStore m) as Hpark.
  { induction bs as [|x bs IH]; intros m0; [done|].
    change (park (x :: bs) m0) with (park bs (park [x] m0)). exact (IH (park [x] m0)). }
  destruct (Hpark (filter P (default [] (pendingBlocks n !! id))) m) as (?&?&?&?&?&?&?&?&?&Hls).
  split_and!; try done; [|rewrite Hls; done]. intros b [Hb|Hb]%park_waits.
  - destruct Hb as (k & l & Hl & Hb). simpl in Hl. apply lookup_delete_Some in Hl as [_ Hl]. by exists k, l.
  - apply list_elem_of_filter in Hb as [_ Hb]. destruct (pendingBlocks n !! id) as [l|] eqn:E; [by exists id, l|].
    by apply elem_of_nil in Hb.
Qed.

Lemma insertBlock_moves t cur n ks rd n' :
  waiting_proper n -> proper_id cur -> insertBlock cur n = Some (ks, rd, n') ->
  moves t n n' /\ forall b, b ∈ rd -> proper_id b.
Proof.
  unfold insertBlock. intros Hw Hcur.
  assert (moves t n n /\ forall b, b ∈ [] -> proper_id b) as Hstay by (split; [apply rtc_refl|by intros ? ?%elem_of_nil]).
  destruct (blocks n !! bID cur) eqn:Eb; [by intros [= <- <- <-]|].
  destruct (epochAndSetOfLocked n cur) as [[want set]|]; simpl; [|done].
  destruct (_ || _)%bool; [by intros [= <- <- <-]|]. clear Hstay.
  set (n1 := persistRecordLocked _ _).
  assert (moves t n n1) as H1.
  { eapply moves_then_quiet; [by apply rtc_once, (mv_block t n cur)|].
    eapply quiet_trans; [|apply persistRecord_quiet]. by repeat split. }
  clearbody n1. destruct (blocks n1 !! headID n1) as [h|]; simpl; [|done].
  set (n2 := if (_ : bool) then _ else n1).
  assert (moves t n n2) as H2 by (eapply moves_then_quiet; [exact H1|]; unfold n2; case_match; by repeat split).
  clearbody n2. destruct (onNewQCLocked (bJustify cur) n2) as [n3|] eqn:E3; simpl; [|done].
  destruct (completeBaseLocked (bID cur) n3) as [n4|] eqn:E4; simpl; [|done]. intros [= _ <- <-].
  apply (onNewQC_moves t) in E3. apply (completeBase_moves t) in E4.
  assert (moves t n n4) as H4 by (eapply moves_trans; [exact H2|by eapply moves_trans]).
  split; [eapply moves_then_quiet; [exact H4|apply release_quiet]|].
  intros b [_ Hb]%list_elem_of_filter. apply (moves_waiting _ _ _ H4 Hw).
  destruct (pendingBlocks n4 !! bID cur) as [l|] eqn:E; [by exists (bID cur), l|by apply elem_of_nil in Hb].
Qed.

Lemma insertAll_moves t fuel work kids n kids' n' :
  waiting_proper n -> (forall b, b ∈ work -> proper_id b) ->
  insertAll fuel work kids n = Some (kids', n') -> moves t n n'.
Proof.
  revert work kids n. induction fuel as [|fuel IH]; intros [|cur work] kids n Hw Hp E; simpl in E;
    try by simplify_eq; apply rtc_refl.
  destruct (insertBlock cur n) as [[[ks rd] n1]|] eqn:E1; simpl in E; [|done].
  destruct (insertBlock_moves t cur n ks rd n1 Hw (Hp cur ltac:(by left)) E1) as [H1 Hrd].
  eapply moves_trans; [exact H1|]. eapply IH; [by eapply moves_waiting| |exact E].
  intros b [Hb|Hb]%elem_of_app; [apply Hrd; by apply list_elem_of_In, in_rev, list_elem_of_In|apply Hp; by right].
Qed.

Lemma addBlock_moves t b n ks n' :
  waiting_proper n -> proper_id b -> addBlockLocked b n = Some (ks, n') -> moves t n n'.
Proof. intros Hw Hb. apply insertAll_moves; [done|]. by intros ? ->%list_elem_of_singleton. Qed.

Lemma enterView_moves t v e n b n' :
  joins t n v -> enterViewLockedEpoch v e n = Some (b, n') -> moves t n n'.
Proof.
  unfold enterViewLockedEpoch. intros Hj. destruct (N.leb_spec v (view n)); [intros [= _ <-]; apply rtc_refl|].
  destruct (leaderOfEpoch _ _ _); simpl; [|done]. intros [= _ <-].
  eapply moves_then_quiet; [apply rtc_once; by apply (mv_view t n v)|by repeat split].
Qed.

Lemma bufferProposal_quiet now p n h n' : bufferProposal now p n = Some (h, n') -> quiet n n'.
Proof.
  unfold bufferProposal. set (n1 := set_pending _ n). assert (quiet n n1) as H1 by by repeat split.
  clearbody n1. destruct (blocks n1 !! headID n1); simpl; [|done].
  repeat case_match; intros [= <- <-]; (eapply quiet_trans; [exact H1|]); apply quiet_refl || by repeat split.
Qed.

Lemma castVote_quiet b n v n' : castVote b n = (v, n') -> quiet n n'.
Proof.
  unfold castVote, persistVotedLocked. case_match; [|intros [= _ <-]; apply quiet_refl].
  match goal with |- context [persistLocked ?pe ?m] =>
    assert (quiet n (persistLocked pe m).2) as Hq; [|destruct (persistLocked pe m) as [[e|] n2]; intros [= _ <-]; exact Hq] end.
  eapply (quiet_trans n); [|apply persistRecord_quiet]. by repeat split.
Qed.

(** An early return that leaves the state alone. *)
Ltac early_return :=
  match goal with
  | |- (if ?c then _ else _) = Some _ -> _ => destruct c; [intros [= _ <-]; apply rtc_refl|]
  end.

Lemma handleProposal_moves t now p n h n' :
  waiting_proper n -> handleProposalLocked now p n = Some (h, n') -> moves t n n'.
Proof.
  intros Hw. unfold handleProposalLocked. set (b := prBlock p).
  destruct (String.eqb_spec (bID b) (blockID (bView b) (bHeight b) (bParent b) (bCmd b))) as [Hid|]; cbn [negb];
    [|intros [= _ <-]; apply rtc_refl].
  destruct (blocks n !! bID b); [intros [= _ <-]; apply rtc_refl|].
  destruct (blocks n !! bExec n); simpl; [|done]. early_return.
  destruct (blocks n !! bParent b); [|intros Hbq%bufferProposal_quiet; by apply moves_quiet].
  destruct (bJustify b) as [just|]; [|intros [= _ <-]; apply rtc_refl]. early_return.
  destruct (epochAndSetOfLocked n b) as [[want set]|]; simpl; [|done]. early_return.
  destruct (leaderOfSet n set (bView b)); simpl; [|done]. do 2 early_return.
  destruct (view n <? bView b)%N eqn:Eview; simpl.
  - destruct (proposalViewCertValidLocked n (bView b) (prViewChanges p)) eqn:Ecert; simpl;
      [|intros [= _ <-]; apply rtc_refl].
    destruct (enterViewLockedEpoch (bView b) (bEpoch b) n) as [[ok n1]|] eqn:E1; simpl; [|done].
    apply (enterView_moves t) in E1; [|by eapply joins_cert].
    intros E. eapply moves_trans; [exact E1|]. apply (moves_waiting _ _ _ E1) in Hw. clear E1. revert E.
    destruct (extendsLocked n1 b _) as [ext|]; simpl; [|done].
    destruct (if ext then _ else _) as [[]|]; simpl; [|intros [= _ <-]; apply rtc_refl|done].
    destruct (addBlockLocked b n1) as [[kids n2]|] eqn:E2; simpl; [|done].
    destruct (castVote b n2) as [v n3] eqn:E3. intros [= _ <-].
    eapply moves_then_quiet; [by eapply addBlock_moves|by eapply castVote_quiet].
  - destruct (extendsLocked n b _) as [ext|]; simpl; [|done].
    destruct (if ext then _ else _) as [[]|]; simpl; [|intros [= _ <-]; apply rtc_refl|done].
    destruct (addBlockLocked b n) as [[kids n2]|] eqn:E2; simpl; [|done].
    destruct (castVote b n2) as [v n3] eqn:E3. intros [= _ <-].
    eapply moves_then_quiet; [by eapply addBlock_moves|by eapply castVote_quiet].
Qed.

Lemma HandleProposals_moves t fuel now ps out n out' n' :
  waiting_proper n -> HandleProposals fuel now ps out n = Some (out', n') -> moves t n n'.
Proof.
  revert ps out n. induction fuel as [|fuel IH]; intros [|p ps] out n Hw E; simpl in E; try done;
    try (simplify_eq; apply rtc_refl).
  destruct (handleProposalLocked now p n) as [[h n1]|] eqn:Eh; simpl in E; [|done].
  apply (handleProposal_moves t) in Eh; [|done].
  eapply moves_trans; [exact Eh|]. eapply IH; [by eapply moves_waiting|exact E].
Qed.

Lemma HandleKids_moves t now kids n out n' : waiting_proper n -> HandleKids now kids n = Some (out, n') -> moves t n n'.
Proof. apply HandleProposals_moves. Qed.

Lemma voteForBlock_moves t v n n' : voteForBlockLocked v n = Some n' -> moves t n n'.
Proof.
  unfold voteForBlockLocked. repeat case_match; simpl; intros E; simplify_eq;
    try apply rtc_refl; try (apply moves_quiet; by repeat split);
    (apply (onNewQC_moves t) in E; eapply moves_trans; [|exact E]; apply moves_quiet; by repeat split).
Qed.

(** [encoding/hex] writes two digits per byte. *)
Lemma hex_length (b : bytes) : String.length (hex b) = 2 * length b.
Proof. induction b as [|c b IH]; simpl; [done|]. rewrite IH. lia. Qed.

Lemma blockID_not_genesis v h p c : blockID v h p c <> genesisID.
Proof. intros H. apply (f_equal String.length) in H. unfold blockID in H. rewrite hex_length in H. simpl in H. lia. Qed.

Lemma proposeLocked_moves t cmd n p n' : proposeLocked cmd n = Some (p, n') -> moves t n n'.
Proof.
  unfold proposeLocked. destruct (blocks n !! headID n) as [parent|]; simpl; [|done].
  destruct (if freshBase n then _ else _) as [h n1] eqn:E1.
  assert (quiet n n1) as H1 by (destruct (freshBase n); simplify_eq; apply quiet_refl || by repeat split).
  clear E1. set (b := mkBlock _ _ _ _ _ _ _).
  match goal with |- context [voteForBlockLocked ?v ?m] =>
    assert (moves t n m) as H2; [|destruct (voteForBlockLocked v m) as [n2|] eqn:E2] end.
  { eapply moves_trans; [apply moves_quiet, H1|].
    eapply moves_then_quiet; [apply rtc_once, (mv_block t n1 b); done|].
    eapply quiet_trans; [|apply persistRecord_quiet]. by repeat split. }
  2: done. simpl. intros [= _ <-]. apply (voteForBlock_moves t) in E2. by eapply moves_trans.
Qed.

Lemma addVC_moves t vc n n' : counts t n vc -> addVC vc n = Some n' -> moves t n n'.
Proof.
  intros Hc. unfold addVC. case_match; [|intros [= <-]; apply rtc_refl].
  case_match; [intros [= <-]; apply rtc_refl|]. destruct (leaderOfEpoch _ _ _); simpl; [|done].
  case_match; intros [= <-]; [apply rtc_refl|]. apply rtc_once. by apply mv_vc.
Qed.

Lemma adoptBase_moves t now q n f n' : adoptBaseLocked now q n = Some (f, n') -> moves t n n'.
Proof.
  unfold adoptBaseLocked. case_match; [intros [= _ <-]; apply rtc_refl|].
  destruct q as [q|]; [|intros [= _ <-]; apply moves_quiet, activateWithBase_quiet].
  destruct (raises q n); [|intros [= _ <-]; apply moves_quiet, activateWithBase_quiet].
  destruct (blocks n !! qNodeID q).
  - destruct (onNewQCLocked _ _) as [n1|] eqn:E; simpl; [|done]. intros [= _ <-].
    apply (onNewQC_moves t) in E. eapply moves_then_quiet; [|apply activateWithBase_quiet].
    eapply moves_trans; [|exact E]. apply moves_quiet. by repeat split.
  - case_match; [intros [= _ <-]; apply moves_quiet, activateWithBase_quiet|].
    case_match; intros [= _ <-]; apply moves_quiet; by repeat split.
Qed.

Lemma maybeActivate_moves t now v n f n' : maybeActivateLocked now v n = Some (f, n') -> moves t n n'.
Proof.
  unfold maybeActivateLocked. destruct (sets n !! epoch n) as [s|] eqn:Es; [|intros [= _ <-]; apply rtc_refl].
  destruct (leaderOfEpoch _ _ _); simpl; [|done]. case_match; [intros [= _ <-]; apply rtc_refl|].
  destruct (Nat.ltb_spec (size (default ∅ (vcs n !! v))) (Quorum s)); [intros [= _ <-]; apply rtc_refl|].
  destruct (if (view n <? v)%N then _ else _) as [[ok n1]|] eqn:E1; simpl; [|done].
  assert (moves t n n1) as H1.
  { destruct (view n <? v)%N; [|simplify_eq; apply rtc_refl].
    eapply enterView_moves; [|exact E1]. by eapply joins_quorum. }
  destruct (negb ok || _)%bool; [by intros [= _ <-]|]. intros E. eapply moves_trans; [exact H1|by eapply adoptBase_moves].
Qed.

Lemma HandleViewChange_moves t now vc n out n' : HandleViewChange now vc n = Some (out, n') -> moves t n n'.
Proof.
  unfold HandleViewChange. early_return.
  destruct (sets n !! epoch n) as [s|] eqn:Es; [|intros [= _ <-]; apply rtc_refl].
  destruct (set_has s (vcFrom vc)) eqn:Eh; cbn [negb]; [|intros [= _ <-]; apply rtc_refl].
  destruct (leaderOfEpoch _ _ _); cbn [mbind option_bind]; [|done]. early_return.
  destruct (verifyInSet (Some s) (vcFrom vc) (vcSig vc) (SViewChange vc)) eqn:Ev; cbn [negb orb];
    [|intros [= _ <-]; apply rtc_refl].
  early_return.
  destruct (addVC vc n) as [n1|] eqn:E1; simpl; [|done].
  destruct (maybeActivateLocked now _ n1) as [[f n2]|] eqn:E2; simpl; [|done]. intros [= _ <-].
  eapply moves_trans; [eapply addVC_moves; [by eapply counts_signed|done]|by eapply maybeActivate_moves].
Qed.

Lemma StartViewChange_moves now n out n' : StartViewChange now n = Some (out, n') -> moves true n n'.
Proof.
  unfold StartViewChange. destruct (if (_ || _)%bool then _ else _) as [[v n1]|] eqn:E1; simpl; [|done].
  assert (moves true n n1) as H1.
  { destruct (_ || _)%bool; [|simplify_eq; apply rtc_refl]. unfold enterViewLocked in E1.
    destruct (enterViewLockedEpoch _ _ n) as [[ok m]|] eqn:Ev; simplify_eq/=.
    eapply enterView_moves; [by apply joins_timeout|done]. }
  clear E1. case_match; [|by intros [= _ <-]].
  set (n2 := set_vcSent _ n1). assert (moves true n n2) as H2 by (eapply moves_then_quiet; [exact H1|by repeat split]).
  assert (rid n2 = rid n1) as Hr by done. clearbody n2. case_match; [|by intros [= _ <-]].
  destruct (addVC _ n2) as [n3|] eqn:E3; simpl; [|done].
  destruct (maybeActivateLocked now _ n3) as [[f n4]|] eqn:E4; simpl; [|done]. intros [= _ <-].
  eapply moves_trans; [exact H2|].
  eapply moves_trans; [|by eapply maybeActivate_moves].
  eapply addVC_moves; [|exact E3]. by apply counts_own.
Qed.

Lemma addKids_moves t now b n out n' :
  waiting_proper n -> proper_id b ->
  ('(kids, m) ← addBlockLocked b n; HandleKids now kids m) = Some (out, n') -> moves t n n'.
Proof.
  intros Hw Hb. destruct (addBlockLocked _ n) as [[kids n1]|] eqn:Ea; simpl; [|done]. intros Hk.
  apply (addBlock_moves t) in Ea; [|done..].
  eapply moves_trans; [exact Ea|]. eapply HandleKids_moves; [by eapply moves_waiting|exact Hk].
Qed.

Lemma HandleBlock_moves t now bm n out n' :
  waiting_proper n -> HandleBlock now bm n = Some (out, n') -> moves t n n'.
Proof.
  intros Hw. unfold HandleBlock. early_return. unfold wanted.
  destruct (String.eqb_spec (bID (bmBlock bm)) (blockID (bView (bmBlock bm)) (bHeight (bmBlock bm))
    (bParent (bmBlock bm)) (bCmd (bmBlock bm)))) as [Hid|]; [|intros [= _ <-]; apply rtc_refl].
  cbn [andb]. early_return. destruct (blocks n !! bExec n); simpl; [|done].
  case_match; [|intros [= _ <-]; apply rtc_refl].
  destruct (blocks n !! bParent (bmBlock bm)); [by apply addKids_moves|]. case_match; [by apply addKids_moves|].
  unfold requestBlock. simpl. intros E.
  eapply moves_trans; [apply rtc_once; by apply (mv_park t n (bmBlock bm))|]. revert E.
  repeat case_match; intros [= _ <-]; apply moves_quiet; by repeat split.
Qed.

Lemma batchSound_proper n prev prevH want bs :
  batchSound n prev prevH want bs = true -> forall b, b ∈ bs -> proper_id b.
Proof.
  revert prev prevH want. induction bs as [|x bs IH]; intros prev prevH want E b Hb; [by apply elem_of_nil in Hb|].
  simpl in E. apply andb_true_iff in E as [E Hs]. apply elem_of_cons in Hb as [->|Hb]; [|by eapply IH].
  apply andb_true_iff in E as [E _]. apply andb_true_iff in E as [E _].
  by apply String.eqb_eq in E.
Qed.

Lemma insertBatch_moves t bs kids n kids' n' :
  waiting_proper n -> (forall b, b ∈ bs -> proper_id b) ->
  insertBatch bs kids n = Some (kids', n') -> moves t n n'.
Proof.
  revert kids n. induction bs as [|b bs IH]; intros kids n Hw Hp E; simpl in E; [simplify_eq; apply rtc_refl|].
  destruct (blocks n !! bID b); [eapply IH; [done| |done]; intros ? ?; apply Hp; by right|].
  destruct (addBlockLocked b n) as [[ks n1]|] eqn:Ea; simpl in E; [|done].
  apply (addBlock_moves t) in Ea; [|done|apply Hp; by left].
  eapply moves_trans; [exact Ea|]. eapply IH; [by eapply moves_waiting| |exact E]. intros ? ?; apply Hp; by right.
Qed.

Lemma insertBatchLocked_moves t bs n kids n' :
  waiting_proper n -> insertBatchLocked bs n = Some (kids, n') -> moves t n n'.
Proof.
  intros Hw. unfold insertBatchLocked. destruct bs as [|lowest bs]; [intros [= _ <-]; apply rtc_refl|].
  destruct (blocks n !! bParent lowest) as [anchor|]; [|intros [= _ <-]; apply rtc_refl].
  destruct (batchSound _ _ _ _ _) eqn:Es; [|intros [= _ <-]; apply rtc_refl].
  apply insertBatch_moves; [done|by eapply batchSound_proper].
Qed.

Lemma HandleBlockBatch_moves t now bb n out n' :
  waiting_proper n -> HandleBlockBatch now bb n = Some (out, n') -> moves t n n'.
Proof.
  intros Hw. unfold HandleBlockBatch. destruct (syncReqs n !! bbRequestID bb) as [req|]; [|intros [= _ <-]; apply rtc_refl].
  do 2 early_return.
  destruct (insertBatchLocked (bbBlocks bb) n) as [[kids n1]|] eqn:E1; simpl; [|done].
  apply (insertBatchLocked_moves t) in E1; [|done]. set (n2 := set_syncReqs _ n1).
  match goal with |- (let '(_, _) := ?x in _) = _ -> _ => destruct x as [cont n3] eqn:Ec end.
  assert (quiet n1 n3) as H3 by (repeat case_match; simplify_eq; by repeat split).
  destruct (HandleKids _ _ n3) as [[o n4]|] eqn:Ep; simpl; [|done]. intros [= _ <-].
  assert (moves t n n3) as H4 by (by eapply moves_then_quiet).
  eapply moves_trans; [exact H4|]. eapply HandleKids_moves; [by eapply moves_waiting|exact Ep].
Qed.

(** Whether an input is the replica's own timer. *)
Definition is_timeout (i : hs_input) : bool := match i with HTimeout => true | _ => false end.

Lemma hs_step_moves now i n out n' : waiting_proper n -> hs_step now i n = Some (out, n') -> moves (is_timeout i) n n'.
Proof.
  intros Hw. destruct i; simpl.
  - by apply HandleProposals_moves.
  - unfold HandleVote. destruct (String.eqb _ _); simpl; [|intros [= _ <-]; apply rtc_refl].
    destruct (voteForBlockLocked v n) as [n1|] eqn:E; simpl; [|done]. intros [= _ <-]. by eapply voteForBlock_moves.
  - apply HandleViewChange_moves.
  - apply StartViewChange_moves.
  - intros [= _ <-]. apply rtc_refl.
  - by apply HandleBlock_moves.
  - destruct (HandleGetBlocks g n); simpl; [|done]. intros [= _ <-]. apply rtc_refl.
  - by apply HandleBlockBatch_moves.
  - unfold Propose. destruct (_ || _)%bool; [intros [= _ <-]; apply rtc_refl|].
    case_match; [intros [= _ <-]; apply rtc_refl|].
    destruct (proposeLocked cmd n) as [[p n1]|] eqn:E; simpl; [|done].
    destruct (broadcast p n1); simpl; [|done]. intros [= _ <-]. by eapply proposeLocked_moves.
  - intros [= _ <-]. apply moves_quiet. unfold WaitCommitted. repeat case_match; by repeat split.
Qed.

Lemma move_weaken t n n' : move t n n' -> move true n n'.
Proof.
  destruct 1 as [n' H|b H|b H|q c p g bs H1 H2|v H1 H2|vc H]; [by constructor|by constructor|by constructor| | |].
  - by eapply mv_commit.
  - apply mv_view; [done|]. destruct H2; [by apply joins_timeout|by eapply joins_cert|by eapply joins_quorum].
  - apply mv_vc. destruct H; [by apply counts_own|by eapply counts_signed].
Qed.

(** A run is a sequence of moves; without timeouts, of moves without them. *)
Lemma hs_run_moves t evs n out n' :
  waiting_proper n -> Forall (fun e => is_timeout e.2 = true -> t = true) evs ->
  hs_run evs n = Some (out, n') -> moves t n n'.
Proof.
  intros Hw Ht. revert n out Hw. induction Ht as [|[now i] evs Hi _ IH]; intros n out Hw E; simpl in E.
  { simplify_eq. apply rtc_refl. }
  destruct (hs_step now i n) as [[o1 n1]|] eqn:E1; simpl in E; [|done].
  destruct (hs_run evs n1) as [[o2 n2]|] eqn:E2; simplify_eq/=.
  apply hs_step_moves in E1; [|done].
  eapply moves_trans; [|eapply IH; [by eapply moves_waiting|exact E2]].
  destruct t.
  - revert E1. apply rtc_subrel. intros x y. apply move_weaken.
  - destruct (is_timeout i); [|done]. by specialize (Hi eq_refl).
Qed.
End moves.
