(* ===== verification/HotStuffCommit.v ===== *)
(** * HotStuff: what a replica executes, and when it changes views

    Proved for every run, with messages of any content: by induction on the moves
    of [HotStuffMoves]. *)

From stdpp Require Import relations.
From S2P Require Import Prelude WalTypes WalCodec HotStuffTypes HotStuff HotStuffProps HotStuffInstances HotStuffThms HotStuffQuorum HotStuffMoves.

Section commit.
Context {F W : Type}.
Context {EX : Executor F W} {WW : Wal W} {CR : Crypto} {J : Json} {MJ : MembershipJson} {PJ : PersistJson}.
Implicit Types n : Replica F W.

(** ** The specification *)

(** [q] carries the votes of a quorum of [s], all signed. *)
Definition certified (s : ValidatorSet) (q : QC) : Prop :=
  Quorum s <= size (dom (qVotes q)) /\
  forall id, id ∈ dom (qVotes q) -> id ∈ Validators s /\ signed_vote s q id.

(** A block whose id is the hash of its view, height, parent and command; or the
    genesis block, which has no parent. *)
Definition authentic (b : Block) : Prop := bID b = genesisID /\ bParent b = "" \/ proper_id b.

(** Parent links between authentic blocks lead from [g] down to [b]: the id of [g]
    commits to [b] through the hashes. *)
Inductive descends (b : Block) : Block -> Prop :=
  | desc_refl : authentic b -> descends b b
  | desc_up p g : descends b p -> authentic g -> bParent g = bID p -> descends b g.

(** A direct three-chain of authentic blocks whose top a quorum of [s] has
    certified commits its lowest block [g] and the blocks below it. A certificate
    names its block by the hash, and each block the one below it: what one
    certificate commits is fixed up to collisions of the hash. *)
Definition commits (s : ValidatorSet) (b : Block) : Prop :=
  exists q c p g, certified s q /\ bID c = qNodeID q /\ authentic c /\ authentic p /\
    oneChainedBy p (Some c) = true /\ oneChainedBy g (Some p) = true /\ descends b g.

(** The validator sets that may speak: those known at the start, and those
    derived from one of these by a membership command that one has committed. *)
Inductive legit (S0 : ValidatorSet -> Prop) : ValidatorSet -> Prop :=
  | legit_start s : S0 s -> legit S0 s
  | legit_next s mc b s' s0 q c p g :
      legit S0 s -> membershipOf b = Some mc -> set_apply s mc = Some s' ->
      legit S0 s0 -> certified s0 q -> bID c = qNodeID q -> authentic c -> authentic p ->
      oneChainedBy p (Some c) = true -> oneChainedBy g (Some p) = true -> descends b g ->
      legit S0 s'.

Definition committed (S0 : ValidatorSet -> Prop) (b : Block) : Prop :=
  exists s, legit S0 s /\ commits s b.

Definition known n (s : ValidatorSet) : Prop := exists e, sets n !! e = Some s.

(** What executing a block does to the state machine, with the log [l]. *)
Definition run_block (l : option W) (f : F) (b : Block) : F :=
  if (negb (length (bCmd b) =? 0)%nat && negb (String.eqb (bID b) genesisID))%bool
  then (hs_apply l f b).2 else f.

(** The state machine goes from one state to another by executing the blocks in
    order, each once, whatever its log holds at that point. *)
Inductive runs : F -> list Block -> F -> Prop :=
  | runs_nil f : runs f [] f
  | runs_cons l f b bs f' : runs (run_block l f b) bs f' -> runs f (b :: bs) f'.

(** Authentic blocks are stored under their ids, the root is genesis, what
    waits for a parent is authentic too, and what was executed is in the tree. *)
Definition rooted n : Prop :=
  (forall id b, blocks n !! id = Some b -> bID b = id /\ authentic b) /\
  (exists g, blocks n !! genesisID = Some g /\ bParent g = "") /\ waiting_proper n /\
  (forall id, id ∈ appliedIDs n -> is_Some (blocks n !! id)).

Lemma runs_app f bs f1 bs' f2 : runs f bs f1 -> runs f1 bs' f2 -> runs f (bs ++ bs') f2.
Proof. induction 1; intros H2; simpl; [done|]. econstructor. eauto. Qed.

(** ** Executing *)

Lemma activate_legit S0 b n :
  (forall s, known n s -> legit S0 s) -> committed S0 b ->
  forall s, known (activateTransitionLocked b n) s -> legit S0 s.
Proof.
  intros Hs (s0 & Hl0 & q & c & p & g & Hc & Hid & Hac & Hap & H1 & H2 & Hd). unfold activateTransitionLocked.
  destruct (isMembershipBlock b); simpl; [|done]. destruct (membershipOf b) as [mc|] eqn:Em; [|done].
  destruct (sets n !! bEpoch b) as [old|] eqn:Eo; [|done].
  destruct (set_apply old mc) as [ns|] eqn:En; [|done]. intros s [e He]. simpl in He.
  apply lookup_insert_Some in He as [[<- <-]|[_ He]]; [|by apply Hs; exists e].
  eapply (legit_next _ old mc b ns s0 q c p g); try done. apply Hs. by exists (bEpoch b).
Qed.

Lemma executeBlock_frame n b :
  rid (executeBlock n b) = rid n /\ blocks (executeBlock n b) = blocks n /\
  view (executeBlock n b) = view n /\ vcs (executeBlock n b) = vcs n /\
  bExec (executeBlock n b) = bID b /\ fsm (executeBlock n b) = run_block (logStore n) (fsm n) b /\
  sets (executeBlock n b) = sets (activateTransitionLocked b n) /\
  appliedIDs (executeBlock n b) = {[bID b]} ∪ appliedIDs n.
Proof.
  unfold executeBlock, run_block, markAppliedLocked, activateTransitionLocked.
  destruct (hs_apply (logStore n) (fsm n) b) as [l f].
  repeat case_match; simpl in *; simplify_eq; split_and!; done || set_solver.
Qed.

Lemma executeAll_frame bs n :
  let n' := foldl executeBlock n bs in
  rid n' = rid n /\ blocks n' = blocks n /\ view n' = view n /\ vcs n' = vcs n.
Proof.
  revert n. induction bs as [|b bs IH]; intros n; simpl; [done|].
  destruct (IH (executeBlock n b)) as (-> & -> & -> & ->). by destruct (executeBlock_frame n b) as (? & ? & ? & ? & _).
Qed.

Lemma executeAll_spec S0 bs n :
  (forall s, known n s -> legit S0 s) -> Forall (committed S0) bs ->
  let n' := foldl executeBlock n bs in
  rid n' = rid n /\ blocks n' = blocks n /\ view n' = view n /\ vcs n' = vcs n /\
  bExec n' = default (bExec n) (bID <$> last bs) /\ runs (fsm n) bs (fsm n') /\
  appliedIDs n' = list_to_set (bID <$> bs) ∪ appliedIDs n /\ (forall s, known n' s -> legit S0 s).
Proof.
  intros Hs Hb. revert n Hs. induction Hb as [|b bs Hb _ IH]; intros n Hs; simpl;
    [split_and!; done || constructor || set_solver|].
  destruct (executeBlock_frame n b) as (Hr & Hbl & Hv & Hvc & Hx & Hf & Hst & Ha).
  destruct (IH (executeBlock n b)) as (-> & -> & -> & -> & -> & Hrun & -> & Hs').
  { intros s [e He]. eapply (activate_legit S0 b n); [done..|]. exists e. by rewrite <- Hst. }
  rewrite Hr, Hbl, Hv, Hvc, Hx, Ha. split_and!; try done; [|by eapply runs_cons; rewrite <- Hf|set_solver].
  destruct bs as [|b' bs]; [done|].
  destruct (last (b' :: bs)) eqn:E; [|by apply last_None in E]. simpl. by rewrite E.
Qed.

Lemma span_descends fuel (t : gmap string Block) stop g bs :
  (forall id b, t !! id = Some b -> bID b = id /\ authentic b) -> authentic g ->
  span fuel t stop (Some g) = Some bs -> Forall (fun b => descends b g) bs.
Proof.
  intros Hk. revert g bs. induction fuel as [|fuel IH]; intros g bs Hg E; simpl in E.
  { repeat case_match; simplify_eq; first [by apply Forall_nil|apply Forall_singleton; by apply desc_refl]. }
  destruct (String.eqb (bID g) stop); [simplify_eq; first [by apply Forall_nil|apply Forall_singleton; by apply desc_refl]|].
  destruct (String.eqb (bParent g) ""); [simplify_eq; first [by apply Forall_nil|apply Forall_singleton; by apply desc_refl]|].
  destruct (t !! bParent g) as [p|] eqn:Ep.
  - destruct (span fuel t stop (Some p)) as [l|] eqn:El; simplify_eq/=. constructor; [by apply desc_refl|].
    destruct (Hk _ _ Ep) as [Hid Hp].
    eapply Forall_impl; [by apply (IH p)|]. intros b Hb. by eapply desc_up; [exact Hb|done|].
  - destruct fuel; simplify_eq/=; first [by apply Forall_nil|apply Forall_singleton; by apply desc_refl].
Qed.

(** A walk stays in the tree. *)
Lemma span_in fuel (t : gmap string Block) stop (P : Block -> Prop) g bs :
  (forall id b, t !! id = Some b -> P b) -> P g -> span fuel t stop (Some g) = Some bs -> Forall P bs.
Proof.
  intros Ht. revert g bs. induction fuel as [|fuel IH]; intros g bs Hg E; simpl in E.
  { repeat case_match; simplify_eq; by repeat constructor. }
  destruct (String.eqb (bID g) stop); [simplify_eq; constructor|].
  destruct (String.eqb (bParent g) ""); [simplify_eq; by repeat constructor|].
  destruct (t !! bParent g) as [p|] eqn:Ep.
  - destruct (span fuel t stop (Some p)) as [l|] eqn:El; simplify_eq/=. constructor; [done|].
    eapply IH; [|exact El]. by eapply Ht.
  - destruct fuel; simplify_eq/=; by repeat constructor.
Qed.

Lemma three_chain_commits S0 n q c p g :
  rooted n -> (forall s, known n s -> legit S0 s) -> three_chain n q c p g ->
  exists s, legit S0 s /\ forall b, descends b g -> commits s b.
Proof.
  intros (Hk & (gen & Hg & Hp) & _) Hs (Hv & Hc & Hcp & H1 & Hpg & H2).
  assert (qNodeID q <> genesisID) as Hng.
  { intros Hq. rewrite Hq, Hg in Hc. injection Hc as <-. unfold oneChainedBy in H1. by rewrite Hp in H1. }
  destruct (sets n !! qEpoch q) as [s|] eqn:Es.
  - exists s. split; [apply Hs; by exists (qEpoch q)|]. intros b Hd.
    exists q, c, p, g. split_and!; [by apply (qcValid_votes n q s)|by apply Hk|by eapply Hk|by eapply Hk|done..].
  - unfold qcValid in Hv. rewrite (proj2 (String.eqb_neq _ _)), Es in Hv by done. done.
Qed.

(** ** Runs *)

(** [bs] are the blocks executed between [n] and [n']. *)
Definition executed (S0 : ValidatorSet -> Prop) n (bs : list Block) n' : Prop :=
  rooted n' /\ (forall s, known n' s -> legit S0 s) /\ Forall (committed S0) bs /\
  runs (fsm n) bs (fsm n') /\ bExec n' = default (bExec n) (bID <$> last bs) /\ rid n' = rid n /\
  Forall authentic bs /\ appliedIDs n' = list_to_set (bID <$> bs) ∪ appliedIDs n.

Lemma last_app_default (l l' : list Block) (x : string) :
  default (default x (bID <$> last l)) (bID <$> last l') = default x (bID <$> last (l ++ l')).
Proof. rewrite last_app. by destruct (last l'). Qed.

Lemma executed_app S0 n bs n1 bs' n2 :
  executed S0 n bs n1 -> executed S0 n1 bs' n2 -> executed S0 n (bs ++ bs') n2.
Proof.
  intros (_ & _ & Hf & Hm & Hx & Hi & Ha & Hd) (? & ? & Hf' & Hm' & Hx' & Hi' & Ha' & Hd'). unfold executed.
  rewrite Hx', Hx, last_app_default, Hd', Hd, fmap_app, list_to_set_app_L.
  split_and!; try done; [by apply Forall_app_2|by eapply runs_app|congruence|by apply Forall_app_2|set_solver].
Qed.

Lemma executed_nil S0 n n' :
  rooted n' -> (forall s, known n' s -> legit S0 s) -> bExec n' = bExec n -> fsm n' = fsm n -> rid n' = rid n ->
  appliedIDs n' = appliedIDs n -> executed S0 n [] n'.
Proof.
  intros ? ? Hx Hf Hi Ha. unfold executed. rewrite Hx, Hf, Hi, Ha.
  split_and!; done || constructor || set_solver.
Qed.

Lemma rooted_block n b : rooted n -> proper_id b -> rooted (set_blocks (<[bID b := b]> (blocks n)) n).
Proof.
  intros (Hk & (gen & Hg & Hp) & Hw & Ha) Hb. unfold rooted. simpl. split_and!; [| |done|].
  - intros id b' [[<- <-]|[_ ?]]%lookup_insert_Some; [by split; [|right]|by apply Hk].
  - exists gen. split; [|done]. rewrite lookup_insert_ne; [done|]. rewrite Hb. apply blockID_not_genesis.
  - intros id Hid. apply lookup_insert_is_Some'. right. by apply Ha.
Qed.

Lemma rooted_same n n' :
  blocks n' = blocks n -> waiting_proper n' ->
  (forall id, id ∈ appliedIDs n' -> id ∈ appliedIDs n \/ is_Some (blocks n !! id)) -> rooted n -> rooted n'.
Proof.
  unfold rooted. intros -> Hw Hn (? & ? & _ & Ha). split_and!; try done.
  intros id [?|?]%Hn; [by apply Ha|done].
Qed.

Lemma rooted_frame n n' :
  blocks n' = blocks n -> pendingBlocks n' = pendingBlocks n -> appliedIDs n' = appliedIDs n -> rooted n -> rooted n'.
Proof. unfold rooted, waiting_proper, waits. by intros -> -> ->. Qed.

Lemma move_executed S0 t n n' :
  rooted n -> (forall s, known n s -> legit S0 s) -> move t n n' -> exists bs, executed S0 n bs n'.
Proof.
  intros Hr Hs Hm. assert (waiting_proper n') as Hw by (eapply move_waiting; [exact Hm|apply Hr]).
  destruct Hm as [n' (Hi&Hb&Hst&?&?&?&Hx&Hf&Ha&_)|b Hb|b Hb|q c p g bs H3 Hsp|v _ _|vc _].
  - exists []. apply executed_nil; try done; [|unfold known; by rewrite Hst].
    apply (rooted_same n); try done. rewrite Ha. by left.
  - exists []. apply executed_nil; try done. by apply rooted_block.
  - exists []. apply executed_nil; try done. apply (rooted_same n); try done. by left.
  - destruct (three_chain_commits S0 n q c p g Hr Hs H3) as (s & Hl & Hc).
    assert (Forall (committed S0) (rev bs)) as Hbs.
    { apply Forall_rev. eapply Forall_impl; [eapply span_descends; [apply Hr|eapply Hr, H3|exact Hsp]|].
      intros b Hd. exists s. split; [done|by apply Hc]. }
    destruct (executeAll_spec S0 (rev bs) n Hs Hbs) as (Hi & Hb & _ & _ & Hx & Hf & Ha & Hs').
    exists (rev bs). unfold executed. rewrite Hi, Ha. split_and!; try done.
    + apply (rooted_same n); try done. rewrite Ha. intros id [Hid|?]%elem_of_union; [right|by left].
      apply elem_of_list_to_set, list_elem_of_fmap in Hid as (b & -> & Hin).
      assert (Forall (fun b => is_Some (blocks n !! bID b)) (rev bs)) as Hall; [|by rewrite Forall_forall in Hall; apply Hall].
      apply Forall_rev. eapply span_in; [| |exact Hsp].
      * intros k b' Hk. destruct (proj1 Hr k b' Hk) as [-> _]. by eexists.
      * destruct H3 as (_ & _ & _ & _ & Hg & _). destruct (proj1 Hr _ _ Hg) as [-> _]. by eexists.
    + apply Forall_rev. eapply span_in; [|eapply Hr, H3|exact Hsp]. intros id b Hin. by eapply Hr.
  - exists []. by apply executed_nil.
  - exists []. by apply executed_nil.
Qed.

Lemma moves_executed S0 t n n' :
  rooted n -> (forall s, known n s -> legit S0 s) -> moves t n n' -> exists bs, executed S0 n bs n'.
Proof.
  intros Hr Hs Hm. induction Hm as [n|n n1 n' Hm _ IH].
  - exists []. by apply executed_nil.
  - destruct (move_executed S0 t n n1 Hr Hs Hm) as (bs & Hbs).
    destruct IH as (bs' & Hbs'); [apply Hbs..|]. exists (bs ++ bs'). by eapply executed_app.
Qed.


(** ** Views *)

(** A view change that its sender signed as a member of a legitimate set, or the
    replica's own. *)
Definition vouched (P : ValidatorSet -> Prop) (me : string) (vc : ViewChange) : Prop :=
  vcFrom vc = me \/
  exists s, P s /\ vcFrom vc ∈ Validators s /\ verifyInSet (Some s) (vcFrom vc) (vcSig vc) (SViewChange vc) = true.

(** A quorum of distinct validators moves to view [v]. *)
Definition view_quorum (P : ValidatorSet -> Prop) (me : string) (v : N) : Prop :=
  exists s l, P s /\ Quorum s <= length l /\ NoDup (vcFrom <$> l) /\
    Forall (fun vc => vcView vc = v /\ vouched P me vc) l.

Definition vcs_vouched (P : ValidatorSet -> Prop) n : Prop :=
  forall v m id vc, vcs n !! v = Some m -> m !! id = Some vc ->
    vcFrom vc = id /\ vcView vc = v /\ vouched P (rid n) vc.

Lemma distinctVCs_spec v e s seen l seen' :
  distinctVCs v e s seen l = Some seen' ->
  NoDup (vcFrom <$> l) /\ (forall vc, vc ∈ l -> vcFrom vc ∉ seen) /\
  Forall (fun vc => vcView vc = v /\ vcFrom vc ∈ Validators s /\
    verifyInSet (Some s) (vcFrom vc) (vcSig vc) (SViewChange vc) = true) l.
Proof.
  revert seen. induction l as [|vc l IH]; intros seen E; cbn [distinctVCs] in E.
  { split_and!; [constructor|by intros ? ?%elem_of_nil|constructor]. }
  destruct (N.eqb_spec (vcView vc) v) as [Hv|]; [|done]. destruct (vcEpoch vc =? e)%N; [|done].
  destruct (set_has s (vcFrom vc)) eqn:Eh; [|done].
  destruct (bool_decide_reflect (vcFrom vc ∈ seen)) as [|Hns]; [done|].
  destruct (verifyInSet (Some s) (vcFrom vc) (vcSig vc) (SViewChange vc)) eqn:Ev; cbn [negb orb] in E; [|done].
  destruct (IH _ E) as (Hnd & Hns' & Hall). apply set_has_elem in Eh. split_and!.
  - rewrite fmap_cons. constructor; [|done]. intros (vc' & Heq & Hin)%list_elem_of_fmap.
    apply (Hns' vc' Hin). rewrite <- Heq. set_solver.
  - intros vc' [->|Hin]%elem_of_cons; [done|]. specialize (Hns' vc' Hin). set_solver.
  - by constructor.
Qed.

Lemma cert_quorum P n v l :
  (forall s, known n s -> P s) -> proposalViewCertValidLocked n v l = true -> view_quorum P (rid n) v.
Proof.
  intros Hs. unfold proposalViewCertValidLocked. destruct l as [|vc0 l0]; [done|].
  set (l := vc0 :: l0). destruct (sets n !! vcEpoch vc0) as [s|] eqn:Es; [|done].
  destruct (Nat.ltb_spec (length l) (Quorum s)); [done|].
  destruct (distinctVCs v (vcEpoch vc0) s ∅ l) as [seen|] eqn:Ed; [|done]. intros _.
  destruct (distinctVCs_spec _ _ _ _ _ _ Ed) as (Hnd & _ & Hall).
  assert (P s) as HP by (apply Hs; by exists (vcEpoch vc0)).
  exists s, l. split_and!; [done|lia|done|]. eapply Forall_impl; [exact Hall|].
  intros vc (? & ? & ?). split; [done|]. right. by exists s.
Qed.

Lemma collected_quorum P n v s :
  (forall s, known n s -> P s) -> vcs_vouched P n -> sets n !! epoch n = Some s ->
  Quorum s <= size (default ∅ (vcs n !! v)) -> view_quorum P (rid n) v.
Proof.
  intros Hs Hvc Es Hq. assert (P s) as HP by (apply Hs; by exists (epoch n)).
  destruct (vcs n !! v) as [m|] eqn:Em; simpl in Hq.
  2: { exists s, []. rewrite map_size_empty in Hq. split_and!; [done|simpl; lia|constructor..]. }
  exists s, (map_to_list m).*2. split_and!; [done|by rewrite length_fmap, length_map_to_list| |].
  - assert ((vcFrom <$> (map_to_list m).*2) = (map_to_list m).*1) as ->; [|apply NoDup_fst_map_to_list].
    rewrite <- list_fmap_compose. apply list_fmap_ext. intros i [id vc] Hi%list_elem_of_lookup_2. simpl.
    apply elem_of_map_to_list in Hi. by apply (Hvc v m id vc).
  - apply Forall_forall. intros vc ([id vc'] & -> & Hin)%list_elem_of_fmap. simpl.
    apply elem_of_map_to_list in Hin. by apply (Hvc v m id vc').
Qed.

Lemma move_view P n n' :
  (forall s, known n s -> P s) -> vcs_vouched P n -> move false n n' ->
  vcs_vouched P n' /\ rid n' = rid n /\ (view n <= view n')%N /\
  (view n' = view n \/ view_quorum P (rid n) (view n')).
Proof.
  intros Hs Hvc Hm. destruct Hm as [n' (Hr&?&?&?&Hv&Hc&?&?&_)|b Hb|b Hb|q c p g bs H3 Hsp|v Hlt Hj|vc Hc]; simpl.
  - unfold vcs_vouched. rewrite Hr, Hv, Hc. split_and!; auto; lia.
  - split_and!; auto; lia.
  - split_and!; auto; lia.
  - destruct (executeAll_frame (rev bs) n) as (Hr & _ & Hv & Hc). unfold vcs_vouched. rewrite Hr, Hv, Hc. split_and!; auto; lia.
  - split_and!; [exact Hvc|done|lia|]. right. destruct Hj as [|l Hl|s Es Hq]; [done|by eapply cert_quorum|by eapply collected_quorum].
  - split_and!; [|done|lia|by left]. intros v m id vc'. cbn [vcs set_vcs rid].
    rewrite lookup_insert_Some. intros [[<- <-]|[_ Hm]]; [|by eapply Hvc].
    rewrite lookup_insert_Some. intros [[<- <-]|[_ Hm]].
    + split_and!; try done. destruct Hc as [|s Es Hh Hver]; [done|]. right. exists s.
      split_and!; [apply Hs; by exists (epoch n)|by apply set_has_elem|done].
    + destruct (vcs n !! vcView vc) as [m0|] eqn:E0; simpl in Hm; [by eapply Hvc|done].
Qed.

Lemma moves_view S0 n n' :
  rooted n -> (forall s, known n s -> legit S0 s) -> vcs_vouched (legit S0) n -> moves false n n' ->
  (view n <= view n')%N /\ (view n' = view n \/ view_quorum (legit S0) (rid n) (view n')).
Proof.
  intros Hr Hs Hvc Hm. induction Hm as [n|n n1 n' Hm _ IH]; [split; [lia|by left]|].
  destruct (move_view (legit S0) n n1 Hs Hvc Hm) as (Hvc1 & Hi1 & Hle1 & Hq1).
  destruct (move_executed S0 false n n1 Hr Hs Hm) as (bs & Hr1 & Hs1 & _).
  destruct (IH Hr1 Hs1 Hvc1) as [Hle2 Hq2]. rewrite Hi1 in Hq2. split; [lia|].
  destruct Hq2 as [Hq2|]; [rewrite Hq2|by right]. done.
Qed.

(** A minority cannot move a replica to another view: as long as its own
    timer does not fire, a replica's view changes only to one for which a quorum
    of a legitimate validator set has signed view changes, one per validator. *)
Theorem view_needs_quorum evs n out n' :
  rooted n -> vcs_vouched (legit (known n)) n -> Forall (fun e => is_timeout e.2 = false) evs ->
  hs_run evs n = Some (out, n') ->
  (view n <= view n')%N /\ (view n' = view n \/ view_quorum (legit (known n)) (rid n) (view n')).
Proof.
  intros Hr Hvc Ht Hrun. apply (hs_run_moves false) in Hrun.
  - eapply moves_view; [done| |done|done]. intros s Hs. by apply legit_start.
  - apply Hr.
  - eapply Forall_impl; [exact Ht|]. intros e ->. done.
Qed.
End commit.

(** ** Example runs *)

Lemma NewReplica_rooted {F W : Type} {CR : Crypto} id ps lead kp r f (n : Replica F W) :
  NewReplica id ps lead kp r f = Ok n -> rooted n /\ vcs n = ∅ /\ appliedIDs n = ∅.
Proof.
  unfold NewReplica, genesisBlock. intros E. repeat case_match; simplify_eq; unfold rooted; simpl.
  all: split_and!; [|eexists; by rewrite lookup_singleton_eq| |by intros ? ?%elem_of_empty|done..].
  all: try (intros i blk [<- <-]%lookup_singleton_Some; by split; [|left]).
  all: intros b (k & ls & Hls & _); simpl in Hls; by apply lookup_empty_Some in Hls.
Qed.

Lemma SetPeerKey_frame {F W : Type} peer pk (n : Replica F W) :
  let n' := (SetPeerKey peer pk n).2 in
  blocks n' = blocks n /\ vcs n' = vcs n /\ pendingBlocks n' = pendingBlocks n /\ appliedIDs n' = appliedIDs n.
Proof. unfold SetPeerKey. by repeat case_match. Qed.

Lemma SetPeerKeys_frame {F W : Type} (ps : list (string * bytes)) (n : Replica F W) :
  let n' := foldl (fun n p => (SetPeerKey p.1 p.2 n).2) n ps in
  blocks n' = blocks n /\ vcs n' = vcs n /\ pendingBlocks n' = pendingBlocks n /\ appliedIDs n' = appliedIDs n.
Proof.
  revert n. induction ps as [|p ps IH]; intros n; simpl; [done|].
  destruct (IH (SetPeerKey p.1 p.2 n).2) as (-> & -> & -> & ->). apply SetPeerKey_frame.
Qed.

Lemma member_start id n : member id = Some n -> rooted n /\ vcs n = ∅.
Proof.
  unfold member. destruct (NewReplica _ _ _ _ _ _) as [n0|] eqn:E; [|done]. intros [= <-].
  destruct (NewReplica_rooted _ _ _ _ _ _ _ E) as (Hr & Hv & _).
  destruct (SetPeerKeys_frame ((fun p => (p, key_of p)) <$> four) n0) as (Hb & Hv' & Hp & Ha).
  split; [exact (rooted_frame _ _ Hb Hp Ha Hr)|]. etrans; [exact Hv'|exact Hv].
Qed.

(** A vote of [id] for a block. *)
Definition vote_for (h : N) (block id : string) : hs_input :=
  HVote (mkVote h block id (signPayload (key_of id) (SVote (mkVote h block id [])))).

(** The leader proposes three commands and collects the votes of [b] and [c] on
    each: the first one is committed. *)
Definition three_rounds : list (Z * hs_input) :=
  let x := blockID 0 1 genesisID (key_of "x") in
  let y := blockID 0 2 x (key_of "y") in
  let z := blockID 0 3 y (key_of "z") in
  (fun i => (0%Z, i)) <$>
    [HPropose (key_of "x"); vote_for 1 x "b"; vote_for 1 x "c";
     HPropose (key_of "y"); vote_for 2 y "b"; vote_for 2 y "c";
     HPropose (key_of "z"); vote_for 3 z "b"; vote_for 3 z "c"].


(** Three view changes move the leader of view 1 there. *)
Definition view_change_of (id : string) : Z * hs_input :=
  (0%Z, HViewChange (mkViewChange 1 0 None id
     (signPayload (key_of id) (SViewChange (mkViewChange 1 0 None id []))))).

Lemma view_needs_quorum_witness :
  match member "b" with
  | Some n =>
      exists out n', hs_run (view_change_of <$> ["a"; "c"; "d"]) n = Some (out, n') /\ view n' = 1%N /\
        (view n' = view n \/ view_quorum (legit (known n)) (rid n) (view n'))
  | None => False
  end.
Proof.
  assert (match member "b" with
    | Some n => match hs_run (view_change_of <$> ["a"; "c"; "d"]) n with
                | Some (_, n') => Some (view n') | None => None end
    | None => None end = Some 1%N) as H by (vm_compute; reflexivity).
  destruct (member "b") as [n|] eqn:En; [|discriminate H].
  destruct (hs_run _ n) as [[out n']|] eqn:Er; [|discriminate H]. injection H as H.
  exists out, n'. split; [done|]. split; [done|]. destruct (member_start "b" n En) as [Hr Hv].
  refine (proj2 (view_needs_quorum _ n out n' Hr _ _ Er)).
  - intros v m id vc. rewrite Hv. done.
  - by repeat constructor.
Defined.
