(* ===== verification/HotStuffTree.v ===== *)
(** * HotStuff: the tree of blocks

    A tree as it grows: genesis, and blocks added below which the parent is
    already there. Walks along parent links end within the number of blocks. *)

From S2P Require Import Prelude WalTypes HotStuffTypes HotStuff.

Inductive tree_wf : gmap string Block -> Prop :=
  | tree_root g : bID g = genesisID -> bParent g = "" -> tree_wf {[genesisID := g]}
  | tree_add t b :
      tree_wf t -> t !! bID b = None -> bID b <> "" -> (bParent b = "" \/ is_Some (t !! bParent b)) ->
      tree_wf (<[bID b := b]> t).

(** The blocks from [cur] down, newest first. *)
Inductive anc (t : gmap string Block) : option Block -> list Block -> Prop :=
  | anc_end : anc t None []
  | anc_step b l : anc t (t !! bParent b) l -> anc t (Some b) (b :: l).

Lemma tree_no_empty t : tree_wf t -> t !! "" = None.
Proof.
  induction 1 as [g _ _|t b _ IH _ Hne _]; [by apply lookup_singleton_ne|]. by rewrite lookup_insert_ne.
Qed.

Lemma tree_keyed t id b : tree_wf t -> t !! id = Some b -> bID b = id.
Proof.
  induction 1 as [g Hg _|t b' _ IH _ _ _].
  - by intros [<- <-]%lookup_singleton_Some.
  - intros [[<- <-]|[_ ?]]%lookup_insert_Some; [done|by apply IH].
Qed.

Lemma tree_parent t id b :
  tree_wf t -> t !! id = Some b -> bParent b = "" \/ is_Some (t !! bParent b).
Proof.
  induction 1 as [g _ Hg|t b' _ IH Hnew _ Hp].
  - intros [_ <-]%lookup_singleton_Some. by left.
  - intros Hl. assert (bParent b = "" \/ is_Some (t !! bParent b)) as [?|[p ?]];
      [apply lookup_insert_Some in Hl as [[_ <-]|[_ ?]]; [done|by apply IH]|by left|right].
    exists p. rewrite lookup_insert_ne; [done|]. congruence.
Qed.

Lemma anc_insert t b o l :
  tree_wf t -> t !! bID b = None -> bID b <> "" -> (forall x, o = Some x -> t !! bID x = Some x) ->
  anc t o l -> anc (<[bID b := b]> t) o l.
Proof.
  intros Hw Hnew Hne Ho Ha. induction Ha as [|x l Ha IH]; [constructor|]. constructor.
  assert (bParent x <> bID b) as Hx.
  { intros Heq. destruct (tree_parent t _ x Hw (Ho x eq_refl)) as [E|[p E]]; congruence. }
  rewrite lookup_insert_ne by done. apply IH. intros y Hy. by rewrite (tree_keyed t _ y Hw Hy).
Qed.

Lemma tree_anc t id : tree_wf t -> exists l, anc t (t !! id) l /\ length l <= size t.
Proof.
  intros Hw. revert id. induction Hw as [g Hg Hp|t b Hw IH Hnew Hne Hp]; intros id.
  - rewrite map_size_singleton. destruct (decide (id = genesisID)) as [->|].
    + rewrite lookup_singleton_eq. exists [g]. split; [|done]. constructor. rewrite Hp. constructor.
    + rewrite lookup_singleton_ne by done. exists []. split; [constructor|simpl; lia].
  - rewrite map_size_insert_None by done. destruct (decide (id = bID b)) as [->|Hid].
    + rewrite lookup_insert_eq. destruct (IH (bParent b)) as (l & Hl & Hs). exists (b :: l). split; [|simpl; lia].
      constructor. assert (bParent b <> bID b) as Hb by (destruct Hp as [->|[p ?]]; congruence).
      rewrite lookup_insert_ne by done. apply anc_insert; try done.
      intros x Hx. by rewrite (tree_keyed t _ x Hw Hx).
    + rewrite lookup_insert_ne by done. destruct (IH id) as (l & Hl & Hs). exists l. split; [|lia].
      apply anc_insert; try done. intros x Hx. by rewrite (tree_keyed t _ x Hw Hx).
Qed.

(** A block above the tree, or in it, with its ancestors. *)
Lemma tree_anc_block t b : tree_wf t -> exists l, anc t (Some b) (b :: l) /\ length (b :: l) <= S (size t).
Proof.
  intros Hw. destruct (tree_anc t (bParent b) Hw) as (l & Hl & Hs). exists l. split; [by constructor|simpl; lia].
Qed.

(** ** Walks end *)

Section walks.
Context {F W : Type}.
Context {EX : Executor F W} {WW : Wal W} {CR : Crypto} {J : Json} {MJ : MembershipJson} {PJ : PersistJson}.

Lemma chain_ends fuel t stop cur l :
  anc t cur l -> length l <= fuel ->
  exists c, chain fuel t stop cur = Some c /\ forall b, b ∈ c -> b ∈ l.
Proof.
  intros Ha. revert fuel. induction Ha as [|b l Ha IH]; intros fuel Hf.
  { exists []. destruct fuel; done. }
  destruct fuel as [|fuel]; [simpl in Hf; lia|]. simpl. destruct (String.eqb (bID b) stop).
  { exists []. split; [done|]. by intros ? ?%elem_of_nil. }
  destruct (IH fuel) as (c & -> & Hc); [simpl in Hf; lia|]. exists (b :: c). split; [done|].
  intros x. rewrite !elem_of_cons. naive_solver.
Qed.

Lemma span_ends fuel t stop cur l :
  anc t cur l -> length l <= fuel ->
  exists c, span fuel t stop cur = Some c /\ forall b, b ∈ c -> b ∈ l.
Proof.
  intros Ha. revert fuel. induction Ha as [|b l Ha IH]; intros fuel Hf.
  { exists []. destruct fuel; done. }
  destruct fuel as [|fuel]; [simpl in Hf; lia|]. simpl. destruct (String.eqb (bID b) stop).
  { exists []. split; [done|]. by intros ? ?%elem_of_nil. }
  destruct (String.eqb (bParent b) "").
  { exists [b]. split; [done|]. intros x. rewrite !elem_of_cons. intros [->|?%elem_of_nil]; [by left|done]. }
  destruct (IH fuel) as (c & -> & Hc); [simpl in Hf; lia|]. exists (b :: c). split; [done|].
  intros x. rewrite !elem_of_cons. naive_solver.
Qed.

Lemma walkTo_ends fuel t anchor cur l :
  anc t cur l -> length l <= fuel -> is_Some (walkTo fuel t anchor cur).
Proof.
  intros Ha. revert fuel. induction Ha as [|b l Ha IH]; intros fuel Hf; [by destruct fuel; eexists|].
  destruct fuel as [|fuel]; [simpl in Hf; lia|]. simpl. repeat case_match; try by eexists.
  destruct (IH fuel) as [[c f] ->]; [simpl in Hf; lia|]. by eexists.
Qed.

Lemma extends_ends fuel t cur lock l :
  anc t (t !! cur) l -> length l <= fuel -> is_Some (extends_from fuel t cur lock).
Proof.
  intros Ha. remember (t !! cur) as o eqn:Eo. revert cur Eo fuel.
  induction Ha as [|b l Ha IH]; intros cur Eo fuel Hf.
  - destruct fuel; simpl; rewrite <- Eo; repeat case_match; by eexists.
  - destruct fuel as [|fuel]; [simpl in Hf; lia|]. simpl. rewrite <- Eo. repeat case_match; try by eexists.
    apply (IH (bParent b) eq_refl). simpl in Hf. lia.
Qed.
End walks.
