(* ===== verification/HotStuffSafe.v ===== *)
(** * A HotStuff replica never gets stuck

    The invariant of a replica's tree, pointers, validator sets and buffers, and
    that every handler but the one for sync batches returns, without a panic and
    within the fuel of its walks, and keeps the invariant. *)

From S2P Require Import Prelude WalTypes WalCodec HotStuffTypes HotStuff HotStuffProps HotStuffInstances HotStuffThms HotStuffQuorum HotStuffMoves HotStuffTree.

(** ** Buffers *)

(** The number of buffered items. *)
Definition buffered {A : Type} (m : gmap string (list A)) : nat :=
  sum_list (map (fun p => length p.2) (map_to_list m)).

Lemma buffered_delete {A} (m : gmap string (list A)) k :
  buffered m = length (default [] (m !! k)) + buffered (delete k m).
Proof.
  unfold buffered. destruct (m !! k) as [l|] eqn:E; simpl.
  - rewrite <- (map_to_list_delete m k l E) at 1. done.
  - by rewrite delete_id.
Qed.

Lemma buffered_append {A} (m : gmap string (list A)) k (x : A) :
  buffered (<[k := default [] (m !! k) ++ [x]]> m) = S (buffered m).
Proof.
  rewrite (buffered_delete (<[k := _]> m) k), lookup_insert_eq, (buffered_delete m k). simpl.
  rewrite length_app. simpl. rewrite delete_insert_eq. lia.
Qed.

Lemma filter_partition {A} (P : A -> Prop) `{!forall x, Decision (P x)} (l : list A) :
  length (filter P l) + length (filter (fun x => ~ P x) l) = length l.
Proof.
  induction l as [|x l IH]; [done|]. rewrite !filter_cons. repeat case_decide; simpl; lia || done.
Qed.

Lemma anc_in t cur l x : anc t cur l -> x ∈ l -> cur = Some x \/ exists id, t !! id = Some x.
Proof.
  induction 1 as [|b l Ha IH]; [by intros ?%elem_of_nil|]. intros [->|Hx]%elem_of_cons; [by left|]. right.
  destruct (IH Hx) as [E|?]; [by eexists|done].
Qed.

Section safe.
Context {F W : Type}.
Context {EX : Executor F W} {WW : Wal W} {CR : Crypto} {J : Json} {MJ : MembershipJson} {PJ : PersistJson}.
Implicit Types n : Replica F W.

(** The ids that validator sets draw from, and a bound on heights and views. *)
Context (U : gset string).
Implicit Types B : N.

(** ** The invariant *)

Definition within (s : ValidatorSet) : Prop := NoDup (Validators s) /\ forall id, id ∈ Validators s -> id ∈ U.

(** A command that adds only validators of the universe. *)
Definition cmd_within (cmd : bytes) : Prop :=
  forall b mc, bCmd b = cmd -> membershipOf b = Some mc -> forall e, e ∈ mcAdd mc -> veID e ∈ U.

Definition small B (b : Block) : Prop := (bHeight b <= B)%N /\ cmd_within (bCmd b).

Definition tree_ok B (t : gmap string Block) : Prop :=
  tree_wf t /\ forall id b, t !! id = Some b -> (id = genesisID \/ proper_id b) /\ small B b.

(** A certificate's block is in the tree, or it names none. *)
Definition high_ok (t : gmap string Block) (qc : option QC) : Prop :=
  forall q, qc = Some q -> qNodeID q = "" \/ is_Some (t !! qNodeID q).

Definition sets_ok (ss : gmap N ValidatorSet) (e : N) : Prop :=
  is_Some (ss !! e) /\ forall e s, ss !! e = Some s -> within s.

Definition pending_ok B (m : gmap string (list Proposal)) : Prop :=
  forall k l p, m !! k = Some l -> p ∈ l ->
    bParent (prBlock p) = k /\ small B (prBlock p) /\ (bView (prBlock p) <= B)%N.

(** A block that may be inserted below a known parent. *)
Definition insertable B (b : Block) : Prop :=
  proper_id b /\ small B b /\ exists q, bJustify b = Some q /\ qNodeID q = bParent b.

Definition parked_ok B (m : gmap string (list Block)) : Prop :=
  forall k l b, m !! k = Some l -> b ∈ l -> bParent b = k /\ insertable B b.

Definition rep_ok B n : Prop :=
  tree_ok B (blocks n) /\
  (is_Some (blocks n !! headID n) /\ is_Some (blocks n !! bLock n) /\ is_Some (blocks n !! bExec n)) /\
  high_ok (blocks n) (qcHigh n) /\ sets_ok (sets n) (epoch n) /\ (view n <= B)%N /\
  pending_ok B (pending n) /\ parked_ok B (pendingBlocks n).

Lemma small_mono B B' b : (B <= B')%N -> small B b -> small B' b.
Proof. intros H [? ?]. split; [lia|done]. Qed.

Lemma rep_ok_mono B B' n : (B <= B')%N -> rep_ok B n -> rep_ok B' n.
Proof.
  intros HB ((Hw & Ht) & Hp & Hh & Hs & Hv & Hpe & Hpa). unfold rep_ok. split_and!; try apply Hp; try done; try lia.
  - split; [done|]. intros id b Hb. destruct (Ht id b Hb) as [? ?]. split; [done|by eapply small_mono].
  - intros k l p Hl Hp'. destruct (Hpe k l p Hl Hp') as (? & ? & ?). split_and!; [done|by eapply small_mono|lia].
  - intros k l b Hl Hb. destruct (Hpa k l b Hl Hb) as (? & ? & ? & ?). split_and!; try done. split_and!; [done|by eapply small_mono|done].
Qed.

(** What a new certificate leaves alone. *)
Definition kept n n' : Prop :=
  blocks n' = blocks n /\ pending n' = pending n /\ pendingBlocks n' = pendingBlocks n.

Lemma kept_trans n1 n2 n3 : kept n1 n2 -> kept n2 n3 -> kept n1 n3.
Proof. unfold kept. intuition congruence. Qed.

(** The fields of the invariant are the same. *)
Definition alike n n' : Prop :=
  kept n n' /\ headID n' = headID n /\ bLock n' = bLock n /\ bExec n' = bExec n /\ qcHigh n' = qcHigh n /\
  sets n' = sets n /\ epoch n' = epoch n /\ view n' = view n.

Lemma rep_ok_alike B n n' : alike n n' -> rep_ok B n -> rep_ok B n'.
Proof.
  unfold rep_ok. intros ((-> & -> & ->) & -> & -> & -> & -> & -> & -> & ->). done.
Qed.

Lemma persistRecord_alike pe n : alike n (persistRecordLocked pe n).
Proof.
  unfold persistRecordLocked, persistLocked. destruct (logStore n) as [w|]; [|by repeat split].
  destruct (appendEntry w pe). by repeat split.
Qed.

(** ** Validator sets *)

Lemma set_apply_within s mc s' :
  within s -> (forall e, e ∈ mcAdd mc -> veID e ∈ U) -> set_apply s mc = Some s' -> within s'.
Proof.
  intros [Hnd Hin] Hadd E. unfold set_apply in E.
  destruct (remove_members _ _) as [m1|] eqn:E1; simpl in E; [|done].
  destruct (add_members m1 _ _) as [[m2 keys]|] eqn:E2; simpl in E; [|done].
  destruct (decide (m2 = ∅)); simplify_eq. unfold within. simpl.
  pose proof (sort_Strings_perm (elements m2)) as Hp. split; [rewrite Hp; apply NoDup_elements|].
  intros id Hid. rewrite Hp, elem_of_elements in Hid.
  destruct (add_members_spec _ _ _ _ _ E2) as (H1 & _). apply H1 in Hid as [Hid|(e & -> & He)%list_elem_of_fmap].
  - apply (remove_members_spec _ _ _ E1) in Hid as [Hid _]. apply Hin. by apply elem_of_list_to_set in Hid.
  - by apply Hadd.
Qed.

Lemma derive_within set ts :
  (forall s, set = Some s -> within s) -> (forall b, b ∈ ts -> cmd_within (bCmd b)) ->
  forall s, derive set ts = Some s -> within s.
Proof.
  revert set. induction ts as [|t ts IH]; intros set Hs Hts s E; simpl in E; [by apply Hs|].
  destruct (membershipOf t) as [mc|] eqn:Em; [|done]. destruct set as [s0|]; [|done].
  destruct (set_apply s0 mc) as [s1|] eqn:Ea; [|done]. eapply (IH (Some s1)); [|set_solver|exact E].
  intros s2 [= <-]. eapply set_apply_within; [by apply Hs| |exact Ea].
  eapply (Hts t); [set_solver|done|done].
Qed.

Lemma leader_of_within B n s v :
  (Z.of_nat (size U) + Z.of_N B < 2 ^ 63)%Z -> (forall s', s = Some s' -> within s') -> (v <= B)%N ->
  is_Some (leaderOfSet n s v).
Proof.
  intros HB Hw Hv. unfold leaderOfSet. destruct s as [s|]; [|by eexists]. destruct (Hw s eq_refl) as [Hnd Hin].
  assert (length (Validators s) <= size U) as Hlen.
  { rewrite <- (size_list_to_set (C := gset string)) by done. apply subseteq_size. intros id Hid.
    apply elem_of_list_to_set in Hid. by apply Hin. }
  destruct (Nat.eqb_spec (length (Validators s)) 0) as [|Hne]; [by eexists|].
  set (idx := match Validators s !! _ with Some _ => _ | None => _ end).
  assert (idx < length (Validators s)) as Hidx.
  { unfold idx. destruct (Validators s !! _) eqn:E; [|lia]. apply lookup_lt_Some in E. case_match; lia. }
  rewrite (int64_wrap_id (Z.of_N v)) by (unfold is_int64; lia).
  rewrite int64_wrap_id by (unfold is_int64; lia).
  pose proof (Z.rem_bound_pos (Z.of_nat idx + Z.of_N v) (Z.of_nat (length (Validators s))) ltac:(lia) ltac:(lia)).
  destruct (Z.ltb_spec (Z.rem (Z.of_nat idx + Z.of_N v) (Z.of_nat (length (Validators s)))) 0); [lia|].
  apply lookup_lt_is_Some. lia.
Qed.

(** ** Certificates *)

Lemma activate_ok b n :
  cmd_within (bCmd b) -> sets_ok (sets n) (epoch n) ->
  sets_ok (sets (activateTransitionLocked b n)) (epoch (activateTransitionLocked b n)).
Proof.
  intros Hb [He Hs]. unfold activateTransitionLocked. destruct (isMembershipBlock b); simpl; [|done].
  destruct (membershipOf b) as [mc|] eqn:Em; [|done]. destruct (sets n !! bEpoch b) as [old|] eqn:Eo; [|done].
  destruct (set_apply old mc) as [ns|] eqn:En; [|done]. unfold sets_ok. simpl. split.
  - rewrite lookup_insert_eq. by eexists.
  - intros e s [[<- <-]|[_ ?]]%lookup_insert_Some; [|by eapply Hs].
    eapply set_apply_within; [by eapply Hs| |exact En]. by eapply Hb.
Qed.

Lemma executeBlock_ok B b n :
  rep_ok B n -> small B b -> is_Some (blocks n !! bID b) ->
  rep_ok B (executeBlock n b) /\ kept n (executeBlock n b).
Proof.
  intros (Ht & (Hh & Hl & Hx) & Hq & Hs & Hv & Hpe & Hpa) [_ Hc] Hb.
  pose proof (activate_ok b n Hc Hs) as Hs'. unfold executeBlock, markAppliedLocked.
  set (n1 := if (_ && _)%bool then _ else n).
  assert (alike n n1) as Ha by (unfold n1; case_match; [destruct (hs_apply _ _ _)|]; by repeat split). clearbody n1.
  destruct Ha as ((E3 & E4 & E5) & E6 & E7 & _ & E8 & E10 & E11 & E9).
  assert (sets (activateTransitionLocked b n1) = sets (activateTransitionLocked b n) /\
    epoch (activateTransitionLocked b n1) = epoch (activateTransitionLocked b n)) as (E1 & E2)
    by (unfold activateTransitionLocked; rewrite E10; repeat case_match; simpl; by rewrite ?E10, ?E11).
  assert (let m := activateTransitionLocked b n1 in blocks m = blocks n /\ pending m = pending n /\
    pendingBlocks m = pendingBlocks n /\ headID m = headID n /\ bLock m = bLock n /\ qcHigh m = qcHigh n /\
    view m = view n) as (F1 & F2 & F3 & F4 & F5 & F6 & F7)
    by (unfold activateTransitionLocked; repeat case_match; simpl; by split_and!).
  assert (forall m, blocks m = blocks n -> pending m = pending n -> pendingBlocks m = pendingBlocks n ->
    headID m = headID n -> bLock m = bLock n -> qcHigh m = qcHigh n -> view m = view n -> bExec m = bID b ->
    sets m = sets (activateTransitionLocked b n) -> epoch m = epoch (activateTransitionLocked b n) ->
    rep_ok B m /\ kept n m) as Hfin.
  { unfold rep_ok, kept. intros m -> -> -> -> -> -> -> -> -> ->. by split_and!. }
  case_decide; apply Hfin; simpl; congruence.
Qed.

Lemma executeAll_ok B bs n :
  rep_ok B n -> (forall b, b ∈ bs -> small B b /\ is_Some (blocks n !! bID b)) ->
  rep_ok B (foldl executeBlock n bs) /\ kept n (foldl executeBlock n bs).
Proof.
  revert n. induction bs as [|b bs IH]; intros n Hn Hbs; simpl; [by split|].
  destruct (Hbs b) as [Hb Hin]; [set_solver|].
  destruct (executeBlock_ok B b n Hn Hb Hin) as [Hn1 Hk1].
  destruct (IH (executeBlock n b) Hn1) as [Hn2 Hk2].
  { intros b' Hb'. destruct Hk1 as [-> _]. apply Hbs. set_solver. }
  split; [done|by eapply kept_trans].
Qed.

Lemma tree_block_ok B t id b : tree_ok B t -> t !! id = Some b -> small B b /\ t !! bID b = Some b.
Proof.
  intros [Hw Ht] Hb. destruct (Ht id b Hb) as [_ Hs]. split; [done|]. by rewrite (tree_keyed t id b Hw Hb).
Qed.

Lemma commit_ok B g n :
  rep_ok B n -> blocks n !! bID g = Some g ->
  exists n', commitUpToLocked g n = Some n' /\ rep_ok B n' /\ kept n n'.
Proof.
  intros Hn Hg. unfold commitUpToLocked. pose proof (proj1 Hn) as Ht.
  destruct (tree_anc (blocks n) (bID g) (proj1 Ht)) as (l & Hl & Hsz). rewrite Hg in Hl.
  destruct (span_ends (fuel_of n) (blocks n) (bExec n) _ _ Hl) as (c & -> & Hc); [unfold fuel_of; lia|]. simpl.
  destruct (executeAll_ok B (rev c) n Hn) as [Hn' Hk'].
  { intros b Hb. apply list_elem_of_In, in_rev, list_elem_of_In in Hb.
    destruct (anc_in _ _ _ _ Hl (Hc b Hb)) as [[= <-]|[id Hid]].
    - destruct (tree_block_ok B (blocks n) _ _ Ht Hg) as [? ->]. split; [done|by eexists].
    - destruct (tree_block_ok B (blocks n) _ _ Ht Hid) as [? ->]. split; [done|by eexists]. }
  eexists. split; [done|]. pose proof (persistRecord_alike (pkApplied (bExec (foldl executeBlock n (rev c))))
    (foldl executeBlock n (rev c))) as Ha. split; [by eapply rep_ok_alike|].
  eapply kept_trans; [exact Hk'|apply Ha].
Qed.

Lemma set_qcHigh_ok B qc n : rep_ok B n -> high_ok (blocks n) qc -> rep_ok B (set_qcHigh qc n).
Proof. intros (? & (? & ? & ?) & _ & ? & ? & ? & ?) ?. unfold rep_ok. simpl. by split_and!. Qed.

Lemma onNewQC_ok B qc n :
  rep_ok B n -> high_ok (blocks n) qc ->
  exists n', onNewQCLocked qc n = Some n' /\ rep_ok B n' /\ kept n n'.
Proof.
  intros Hn Hq. unfold onNewQCLocked. destruct qc as [q|]; [|by eexists].
  destruct (negb (qcValid n (Some q))); [by eexists|].
  destruct (match qcHigh n with Some _ => _ | None => _ end); [by eexists|].
  set (n1 := persistRecordLocked _ _).
  assert (rep_ok B n1 /\ kept n n1) as [Hn1 Hk1].
  { pose proof (persistRecord_alike (pkQC (Some q)) (set_qcHigh (Some q) n)) as Ha. fold n1 in Ha.
    split; [|by destruct Ha]. eapply rep_ok_alike; [exact Ha|by apply set_qcHigh_ok]. }
  clearbody n1. clear Hn Hq. pose proof Hn1 as (Ht & (Hh & Hl & Hx) & _). pose proof (proj1 Ht) as Hw.
  destruct (blocks n1 !! qNodeID q) as [c|] eqn:Ec; [|by eexists].
  destruct (blocks n1 !! bParent c) as [p|] eqn:Ep.
  2: { destruct (tree_parent _ _ _ Hw Ec) as [->|[? ?]]; [simpl; by eexists|congruence]. }
  destruct (negb (oneChainedBy p (Some c))); [by eexists|].
  destruct Hl as [lock El]. rewrite El. simpl.
  set (n2 := if (_ : bool) then _ else n1).
  assert (rep_ok B n2 /\ kept n n2) as [Hn2 Hk2].
  { unfold n2. case_match; [|done]. split; [|done]. destruct Hn1 as (? & (? & _ & ?) & ? & ? & ? & ? & ?). unfold rep_ok. simpl. split_and!; try done.
    rewrite (tree_keyed _ _ _ Hw Ep), Ep. by eexists. }
  assert (blocks n2 = blocks n1) as Eb by (destruct Hk1 as [-> _], Hk2 as [-> _]; done). clearbody n2.
  destruct (blocks n2 !! bParent p) as [g|] eqn:Eg; [|by eexists].
  destruct (oneChainedBy g (Some p)); [|by eexists].
  pose proof Hn2 as (_ & (_ & _ & [ex Ex]) & _). rewrite Ex. simpl.
  destruct (bHeight ex <? bHeight g)%N; [|by eexists].
  assert (blocks n2 !! bID g = Some g) as Hg.
  { destruct Hn2 as ((Hw2 & _) & _). by rewrite (tree_keyed _ _ _ Hw2 Eg). }
  destruct (commit_ok B g n2 Hn2 Hg) as (n' & -> & Hn' & Hk'). exists n'. split_and!; try done. by eapply kept_trans.
Qed.

Lemma activateWithBase_ok B n :
  rep_ok B n -> rep_ok B (activateWithBaseLocked (qcHigh n) n) /\ kept n (activateWithBaseLocked (qcHigh n) n).
Proof.
  intros (Ht & (Hh & Hl & Hx) & Hq & Hs & Hv & Hpe & Hpa). unfold activateWithBaseLocked. destruct (qcHigh n) as [q|] eqn:Eq.
  - destruct (String.eqb_spec (qNodeID q) "") as [|Hne]; (split; [|done]); unfold rep_ok; simpl; rewrite Eq.
    + by split_and!.
    + destruct (Hq q eq_refl) as [?|?]; [done|]. by split_and!.
  - split; [|done]. unfold rep_ok. simpl. rewrite Eq. by split_and!.
Qed.

Lemma completeBase_ok B id n :
  rep_ok B n -> is_Some (blocks n !! id) ->
  exists n', completeBaseLocked id n = Some n' /\ rep_ok B n' /\ kept n n'.
Proof.
  intros Hn Hid. unfold completeBaseLocked. destruct (wantBase n) as [q|]; [|by eexists].
  destruct (String.eqb_spec id (qNodeID q)) as [->|]; simpl; [|by eexists].
  destruct (raises q n); simpl.
  - destruct (onNewQC_ok B (Some q) (set_qcHigh (Some q) n)) as (n1 & -> & Hn1 & Hk1).
    + apply set_qcHigh_ok; [done|]. intros ? [= <-]. by right.
    + intros ? [= <-]. by right.
    + simpl. destruct (activateWithBase_ok B n1 Hn1) as [? ?]. eexists. split_and!; [done|done|].
      by eapply kept_trans.
  - destruct (activateWithBase_ok B n Hn) as [? ?]. by eexists.
Qed.

(** ** Inserting blocks *)

Lemma epochAndSet_ok B n b :
  rep_ok B n -> cmd_within (bCmd b) ->
  exists e s, epochAndSetOfLocked n b = Some (e, s) /\ forall s', s = Some s' -> within s'.
Proof.
  intros Hn Hb. pose proof Hn as ((Hw & Ht) & _ & _ & (_ & Hs) & _). unfold epochAndSetOfLocked.
  assert (forall e s', sets n !! e = Some s' -> within s') as Hs' by apply Hs.
  destruct (blocks n !! gcBase n) as [base|]; [|eexists _, _; split; [done|by apply Hs']].
  destruct (bHeight b <=? bHeight base)%N; [eexists _, _; split; [done|by apply Hs']|].
  destruct (tree_anc_block (blocks n) b Hw) as (l & Hl & Hsz).
  destruct (chain_ends (fuel_of n) (blocks n) (gcBase n) _ _ Hl Hsz) as (c & -> & Hc). simpl.
  eexists _, _. split; [done|]. intros s' E.
  assert (forall c1 c2 c3 l' x, x ∈ transitions c1 c2 c3 l' -> x ∈ l') as Htr.
  { clear. intros c1 c2 c3 l'. revert c1 c2 c3. induction l' as [|y l' IH]; intros c1 c2 c3 x Hx; simpl in Hx; [done|].
    apply elem_of_cons. repeat case_match; try (right; by eapply IH). apply elem_of_cons in Hx as [->|Hx]; [by left|].
    right. by eapply IH. }
  eapply derive_within; [apply Hs'| |exact E]. intros x Hx. apply list_elem_of_In, in_rev, list_elem_of_In in Hx.
  apply Htr, Hc in Hx. destruct (anc_in _ _ _ _ Hl Hx) as [[= <-]|[id Hid]]; [done|]. by apply (Ht id x Hid).
Qed.

Lemma park_ok B bs n :
  rep_ok B n -> (forall b, b ∈ bs -> insertable B b) ->
  rep_ok B (park bs n) /\ blocks (park bs n) = blocks n /\ pending (park bs n) = pending n /\
  buffered (pendingBlocks (park bs n)) = length bs + buffered (pendingBlocks n).
Proof.
  revert n. induction bs as [|b bs IH]; intros n Hn Hbs; simpl; [done|].
  destruct (IH (set_pendingBlocks
    (<[bParent b := default [] (pendingBlocks n !! bParent b) ++ [b]]> (pendingBlocks n)) n)) as (Hn' & Hb' & Hp' & Hc').
  - destruct Hn as (? & (? & ? & ?) & ? & ? & ? & ? & Hpa). unfold rep_ok. simpl. split_and!; try done.
    intros k l x. rewrite lookup_insert_Some. intros [[<- <-]|[_ Hl]]; [|by eapply Hpa].
    intros [Hx|Hx%list_elem_of_singleton]%elem_of_app.
    + destruct (pendingBlocks n !! bParent b) eqn:E; simpl in Hx; [by eapply Hpa|by apply elem_of_nil in Hx].
    + subst x. split; [done|]. apply Hbs. set_solver.
  - set_solver.
  - split_and!; try done. rewrite Hc'. simpl. rewrite buffered_append. lia.
Qed.

(** Hashes are not empty, and blocks of different heights have different ids. *)
Context (hash_not_empty : forall x, sha256 x <> []).
Context (no_collision : forall v h p c v' h' p' c', blockID v h p c = blockID v' h' p' c' -> h = h').
#[local] Set Default Proof Using "All".

Lemma proper_id_not_empty b : proper_id b -> bID b <> "".
Proof.
  unfold proper_id, blockID. intros -> Hh. apply (f_equal String.length) in Hh. rewrite hex_length in Hh. simpl in Hh.
  assert (length (sha256 (sha256 (String.list_ascii_of_string (pretty.pretty (bView b) +:+ ":" +:+
    pretty.pretty (bHeight b) +:+ ":" +:+ bParent b +:+ ":")) ++ bCmd b)) = 0) as H0 by lia.
  apply length_zero_iff_nil in H0. by apply hash_not_empty in H0.
Qed.

Definition parent_known n (b : Block) : Prop := bParent b = "" \/ is_Some (blocks n !! bParent b).


(** A proposal whose parent is known. *)
Definition unblocked B n (p : Proposal) : Prop :=
  small B (prBlock p) /\ (bView (prBlock p) <= B)%N /\ is_Some (blocks n !! bParent (prBlock p)).

(** What an insertion does: the tree grows, and what it releases leaves the
    buffers. *)
Definition inserted B n (ks : list Proposal) (rd : list Block) n' : Prop :=
  rep_ok B n' /\ blocks n ⊆ blocks n' /\
  length ks + buffered (pending n') <= buffered (pending n) /\
  length rd + buffered (pendingBlocks n') <= buffered (pendingBlocks n) /\
  (forall p, p ∈ ks -> unblocked B n' p) /\ (forall b, b ∈ rd -> insertable B b /\ parent_known n' b).

Lemma is_Some_subseteq (t t' : gmap string Block) id : t ⊆ t' -> is_Some (t !! id) -> is_Some (t' !! id).
Proof. intros Hs [b Hb]. exists b. by eapply lookup_weaken. Qed.

Lemma high_ok_subseteq (t t' : gmap string Block) qc : t ⊆ t' -> high_ok t qc -> high_ok t' qc.
Proof. intros Hs Hq q E. destruct (Hq q E); [by left|right; by eapply is_Some_subseteq]. Qed.

Lemma add_tree_ok B b n :
  rep_ok B n -> blocks n !! bID b = None -> proper_id b -> small B b -> parent_known n b ->
  rep_ok B (set_blocks (<[bID b := b]> (blocks n)) n).
Proof.
  intros ((Hw & Ht) & (Hh & Hl & Hx) & Hq & Hs & Hv & Hpe & Hpa) Hnew Hid Hsm Hp.
  assert (blocks n ⊆ <[bID b := b]> (blocks n)) as Hsub by by apply insert_subseteq.
  unfold rep_ok. cbn [blocks set_blocks headID bLock bExec qcHigh sets epoch view pending pendingBlocks].
  split_and!; try done; try (by eapply is_Some_subseteq); try by eapply high_ok_subseteq.
  split; [apply tree_add; try done; by apply proper_id_not_empty|].
  intros id x [[<- <-]|[_ Hx']]%lookup_insert_Some; [|by apply Ht]. split; [by right|done].
Qed.

Lemma set_headID_ok B id n : rep_ok B n -> is_Some (blocks n !! id) -> rep_ok B (set_headID id n).
Proof. intros (? & (? & ? & ?) & ? & ? & ? & ? & ?) ?. unfold rep_ok. simpl. by split_and!. Qed.

(** The proposals and blocks that wait for [id]. *)
Lemma release_ok B id n :
  rep_ok B n -> is_Some (blocks n !! id) ->
  let kids := default [] (pending n !! id) in
  let parked := default [] (pendingBlocks n !! id) in
  let n1 := set_pendingBlocks (delete id (pendingBlocks n)) (set_pending (delete id (pending n)) n) in
  let ready := filter (fun pb => is_Some (blocks n1 !! bParent pb)) parked in
  inserted B n kids ready (park (filter (fun pb => ~ is_Some (blocks n1 !! bParent pb)) parked) n1).
Proof.
  intros Hn Hid kids parked n1 ready.
  assert (rep_ok B n1) as Hn1.
  { destruct Hn as (? & (? & ? & ?) & ? & ? & ? & Hpe & Hpa). unfold rep_ok. simpl. split_and!; try done.
    - intros k l p Hl. apply lookup_delete_Some in Hl as [_ Hl]. by eapply Hpe.
    - intros k l b Hl. apply lookup_delete_Some in Hl as [_ Hl]. by eapply Hpa. }
  assert (forall b, b ∈ parked -> insertable B b) as Hpk.
  { intros b Hb. unfold parked in Hb. destruct Hn as (_ & _ & _ & _ & _ & _ & Hpa).
    destruct (pendingBlocks n !! id) as [l|] eqn:E; simpl in Hb; [by eapply Hpa|by apply elem_of_nil in Hb]. }
  set (waiting := filter (fun pb => ~ is_Some (blocks n1 !! bParent pb)) parked).
  destruct (park_ok B waiting n1 Hn1) as (Hn2 & Hb2 & Hp2 & Hc2).
  { intros b Hb. apply Hpk. by apply list_elem_of_filter in Hb as [_ ?]. }
  assert (length ready + length waiting = length parked) as Hpart by apply filter_partition.
  unfold inserted. rewrite Hb2, Hp2, Hc2. split_and!; try done.
  - simpl. rewrite (buffered_delete (pending n) id). unfold kids. lia.
  - simpl. rewrite (buffered_delete (pendingBlocks n) id). fold parked. lia.
  - intros p Hp. unfold kids in Hp. destruct Hn as (_ & _ & _ & _ & _ & Hpe & _).
    destruct (pending n !! id) as [l|] eqn:E; simpl in Hp; [|by apply elem_of_nil in Hp].
    destruct (Hpe id l p E Hp) as (Hk & ? & ?). unfold unblocked. rewrite Hb2, Hk. done.
  - intros b Hb. apply list_elem_of_filter in Hb as [Hs Hb]. split; [by apply Hpk|]. right. by rewrite Hb2.
Qed.

Lemma inserted_from B n n1 ks rd n' :
  blocks n ⊆ blocks n1 -> pending n1 = pending n -> pendingBlocks n1 = pendingBlocks n ->
  inserted B n1 ks rd n' -> inserted B n ks rd n'.
Proof. intros Hs Hp Hb (? & ? & H1 & H2 & ? & ?). rewrite Hp in H1. rewrite Hb in H2. split_and!; try done. by etrans. Qed.

Lemma insertBlock_ok B b n :
  rep_ok B n -> insertable B b -> parent_known n b ->
  exists ks rd n', insertBlock b n = Some (ks, rd, n') /\ inserted B n ks rd n'.
Proof.
  intros Hn (Hid & Hsm & q & Hj & Hqp) Hp. unfold insertBlock.
  assert (inserted B n [] [] n) as Hnone.
  { unfold inserted. simpl. split_and!; try done; by intros ? ?%elem_of_nil. }
  destruct (blocks n !! bID b) eqn:Eb; [by eexists _, _, _|].
  destruct (epochAndSet_ok B n b Hn (proj2 Hsm)) as (e & s & -> & _). simpl.
  destruct (_ || _)%bool; [by eexists _, _, _|].
  pose proof (add_tree_ok B b n Hn Eb Hid Hsm Hp) as Hn0.
  set (n1 := persistRecordLocked _ _).
  assert (rep_ok B n1 /\ blocks n1 = <[bID b := b]> (blocks n) /\ pending n1 = pending n /\
    pendingBlocks n1 = pendingBlocks n) as (Hn1 & Hb1 & Hp1 & Hpb1).
  { match goal with n1 := persistRecordLocked ?pe ?m |- _ => pose proof (persistRecord_alike pe m) as Ha end.
    fold n1 in Ha. split; [|by destruct Ha as ((-> & -> & ->) & _)].
    eapply rep_ok_alike; [exact Ha|]. eapply rep_ok_alike; [|exact Hn0]. by repeat split. }
  clearbody n1. clear Hn0. pose proof Hn1 as (_ & ([h Hh] & _) & _). rewrite Hh. simpl.
  assert (is_Some (blocks n1 !! bID b)) as Hin by (rewrite Hb1, lookup_insert_eq; by eexists).
  set (n2 := if (_ : bool) then _ else n1).
  assert (rep_ok B n2 /\ kept n1 n2) as [Hn2 Hk2] by (unfold n2; case_match; [split; [by apply set_headID_ok|done]|done]).
  clearbody n2. destruct (onNewQC_ok B (bJustify b) n2 Hn2) as (n3 & -> & Hn3 & Hk3).
  { rewrite Hj. intros q' [= <-]. rewrite Hqp. destruct Hp as [|Hp]; [by left|]. right.
    destruct Hk2 as [-> _]. rewrite Hb1. eapply is_Some_subseteq; [|exact Hp]. by apply insert_subseteq. }
  simpl. destruct (completeBase_ok B (bID b) n3 Hn3) as (n4 & -> & Hn4 & Hk4).
  { destruct Hk3 as [-> _], Hk2 as [-> _]. done. }
  simpl. eexists _, _, _. split; [done|].
  assert (kept n1 n4) as (Hb4 & Hp4 & Hpb4) by (eapply kept_trans; [exact Hk2|by eapply kept_trans]).
  eapply (inserted_from B n n4); [rewrite Hb4, Hb1; by apply insert_subseteq|congruence..|].
  apply (release_ok B (bID b) n4 Hn4). by rewrite Hb4.
Qed.

Lemma parent_known_subseteq n n' b : blocks n ⊆ blocks n' -> parent_known n b -> parent_known n' b.
Proof. intros Hs [?|?]; [by left|right; by eapply is_Some_subseteq]. Qed.

Lemma unblocked_subseteq B n n' p : blocks n ⊆ blocks n' -> unblocked B n p -> unblocked B n' p.
Proof. intros Hs (? & ? & ?). split_and!; try done. by eapply is_Some_subseteq. Qed.

Lemma insertAll_ok B fuel work kids n :
  rep_ok B n -> (forall b, b ∈ work -> insertable B b /\ parent_known n b) ->
  length work + buffered (pendingBlocks n) <= fuel ->
  exists ks n', insertAll fuel work kids n = Some (kids ++ ks, n') /\ inserted B n ks [] n'.
Proof.
  revert work kids n. induction fuel as [|fuel IH]; intros work kids n Hn Hw Hf.
  { destruct work as [|b work]; simpl in *; [|lia]. exists [], n. rewrite app_nil_r. split; [done|].
    unfold inserted. simpl. split_and!; try done; try lia; by intros ? ?%elem_of_nil. }
  destruct work as [|b work]; simpl.
  { exists [], n. rewrite app_nil_r. split; [done|].
    unfold inserted. simpl. split_and!; try done; by intros ? ?%elem_of_nil. }
  destruct (Hw b) as [Hb Hp]; [apply elem_of_cons; by left|].
  destruct (insertBlock_ok B b n Hn Hb Hp) as (ks1 & rd & n1 & -> & Hn1 & Hs1 & Hk1 & Hr1 & Hks1 & Hrd1). simpl.
  destruct (IH (rev rd ++ work) (kids ++ ks1) n1 Hn1) as (ks2 & n2 & E & Hn2 & Hs2 & Hk2 & Hr2 & Hks2 & _).
  - intros x [Hx|Hx]%elem_of_app.
    + apply list_elem_of_In, in_rev, list_elem_of_In in Hx. by apply Hrd1.
    + destruct (Hw x) as [? ?]; [apply elem_of_cons; by right|]. split; [done|by eapply parent_known_subseteq].
  - rewrite length_app, length_rev. simpl in Hf. lia.
  - exists (ks1 ++ ks2), n2. rewrite app_assoc. split; [done|]. unfold inserted.
    rewrite length_app. simpl in *. split_and!; try done; try lia; [by etrans| |by intros ? ?%elem_of_nil].
    intros x [Hx|Hx]%elem_of_app; [|by apply Hks2]. eapply unblocked_subseteq; [exact Hs2|by apply Hks1].
Qed.

Lemma addBlock_ok B b n :
  rep_ok B n -> insertable B b -> parent_known n b ->
  exists ks n', addBlockLocked b n = Some (ks, n') /\ inserted B n ks [] n'.
Proof.
  intros Hn Hb Hp. apply (insertAll_ok B _ [b] [] n Hn).
  - intros x Hx%list_elem_of_singleton. by subst x.
  - simpl. unfold parkedCount, buffered. lia.
Qed.

(** ** Proposals *)

Context (bound : N).
Context (leaders : (Z.of_nat (size U) + Z.of_N bound < 2 ^ 63)%Z).

Lemma set_view_ok B v n : rep_ok B n -> (v <= B)%N -> rep_ok B (set_view v n).
Proof. intros (? & (? & ? & ?) & ? & ? & ? & ? & ?) ?. unfold rep_ok. simpl. by split_and!. Qed.

Lemma leaderOfEpoch_ok B n e v : (B <= bound)%N -> rep_ok B n -> (v <= B)%N -> is_Some (leaderOfEpoch n e v).
Proof.
  intros HB (_ & _ & _ & (_ & Hs) & _) Hv. apply (leader_of_within bound); [done| |lia].
  intros s' E. by eapply Hs.
Qed.

Lemma enterView_ok B v e n :
  (B <= bound)%N -> rep_ok B n -> (v <= B)%N ->
  exists ok n', enterViewLockedEpoch v e n = Some (ok, n') /\ rep_ok B n' /\ kept n n'.
Proof.
  intros HB Hn Hv. unfold enterViewLockedEpoch. destruct (v <=? view n)%N; [by eexists _, _|].
  destruct (leaderOfEpoch_ok B (set_view v n) e v HB) as [l ->]; [by apply set_view_ok|done|]. simpl.
  eexists _, _. split; [done|]. split; [|done].
  eapply rep_ok_alike; [|by apply (set_view_ok B v n)]. by repeat split.
Qed.

Lemma castVote_alike b n v n' : castVote b n = (v, n') -> alike n n'.
Proof.
  unfold castVote, persistVotedLocked, persistLocked. case_match; [|intros [= _ <-]; by repeat split].
  destruct (logStore _) as [w|]; [destruct (appendEntry w _) as [w' [e|]]|]; intros [= _ <-]; by repeat split.
Qed.

(** What a handled proposal does; [known]: its parent is there. *)
Definition proposal_handled B n (known : Prop) (ks : list Proposal) n' : Prop :=
  rep_ok B n' /\ blocks n ⊆ blocks n' /\ (forall k, k ∈ ks -> unblocked B n' k) /\
  (known -> length ks + buffered (pending n') <= buffered (pending n)) /\ (~ known -> ks = []).

Lemma buffer_ok B now p n :
  rep_ok B n -> small B (prBlock p) -> (bView (prBlock p) <= B)%N ->
  exists h n', bufferProposal now p n = Some (h, n') /\ rep_ok B n' /\ blocks n' = blocks n /\ hKids h = [].
Proof.
  intros Hn Hs Hv. unfold bufferProposal. set (n1 := set_pending _ n).
  assert (rep_ok B n1) as Hn1.
  { destruct Hn as (? & (? & ? & ?) & ? & ? & ? & Hpe & ?). unfold rep_ok. simpl. split_and!; try done.
    intros k l x. rewrite lookup_insert_Some. intros [[<- <-]|[_ Hl]]; [|by eapply Hpe].
    intros [Hx|Hx%list_elem_of_singleton]%elem_of_app; [|by subst x].
    destruct (pending n !! bParent (prBlock p)) eqn:E; simpl in Hx; [by eapply Hpe|by apply elem_of_nil in Hx]. }
  assert (blocks n1 = blocks n) as Hb1 by done. clearbody n1.
  pose proof Hn1 as (_ & ([h Hh] & _) & _). rewrite Hh. simpl.
  repeat case_match; eexists _, _; (split; [done|]); (split; [eapply rep_ok_alike; [|exact Hn1]; by repeat split|done]).
Qed.

Lemma ignored_ok B n (known : Prop) : rep_ok B n -> proposal_handled B n known [] n.
Proof. intros Hn. split_and!; try done. by intros ? ?%elem_of_nil. Qed.

(** Accepting a proposal that is structurally sound. *)
Lemma accept_ok B b n :
  rep_ok B n -> insertable B b -> is_Some (blocks n !! bParent b) -> forall just : QC,
  exists h n',
    (let lock := blocks n !! bLock n in
     ext ← extendsLocked n b lock;
     safe ← (if (ext : bool) then Some true else lk ← lock; Some (bHeight lk <? qHeight just)%N);
     if negb (safe : bool) then Some (nothing, n)
     else
       '(kids, n) ← addBlockLocked b n;
       let '(vote, n) := castVote b n in
       Some (mkHandled vote kids None None, n)) = Some (h, n') /\ proposal_handled B n True (hKids h) n'.
Proof.
  intros Hn Hb Hp just. pose proof Hn as ((Hw & _) & (_ & [lk El] & _) & _). rewrite El. cbn [extendsLocked].
  destruct (tree_anc (blocks n) (bParent b) Hw) as (l & Hl & Hsz).
  destruct (extends_ends (fuel_of n) (blocks n) (bParent b) (bID lk) l Hl) as [ext ->]; [unfold fuel_of; lia|].
  cbn [mbind option_bind].
  assert (exists safe, (if (ext : bool) then Some true else Some (bHeight lk <? qHeight just)%N) = Some safe) as [safe ->]
    by (destruct ext; by eexists).
  destruct safe; cbn [mbind option_bind negb]; [|by eexists _, _; split; [done|apply ignored_ok]].
  destruct (addBlock_ok B b n Hn Hb) as (ks & n1 & -> & Hn1 & Hs1 & Hk1 & _ & Hks1 & _); [by right|].
  cbn [mbind option_bind]. destruct (castVote b n1) as [v n2] eqn:Ec. eexists _, _. split; [done|].
  apply castVote_alike in Ec as Ha. unfold proposal_handled. simpl.
  pose proof (rep_ok_alike B n1 n2 Ha Hn1) as Hn2. destruct Ha as ((Eb & Ep & _) & _).
  rewrite Eb, Ep. split_and!; try done. intros k Hk. unfold unblocked. rewrite Eb. by apply Hks1.
Qed.

Lemma handleProposal_ok B now p n :
  (B <= bound)%N -> rep_ok B n -> small B (prBlock p) -> (bView (prBlock p) <= B)%N ->
  exists h n', handleProposalLocked now p n = Some (h, n') /\
    proposal_handled B n (is_Some (blocks n !! bParent (prBlock p))) (hKids h) n'.
Proof.
  intros HB Hn Hs Hv. unfold handleProposalLocked. set (b := prBlock p) in *.
  assert (forall known, exists h n', Some (nothing, n) = Some (h, n') /\ proposal_handled B n known (hKids h) n') as Hno
    by (intros known; eexists _, _; split; [done|by apply ignored_ok]).
  destruct (String.eqb_spec (bID b) (blockID (bView b) (bHeight b) (bParent b) (bCmd b))) as [Hid|]; simpl; [|apply Hno].
  destruct (blocks n !! bID b); [apply Hno|]. pose proof Hn as (_ & (_ & _ & [ex Ex]) & _). rewrite Ex.
  cbn [mbind option_bind]. destruct (bHeight b <=? bHeight ex)%N; [apply Hno|].
  destruct (blocks n !! bParent b) as [parent|] eqn:Ep.
  2: { destruct (buffer_ok B now p n Hn Hs Hv) as (h & n' & -> & Hn' & Hb' & Hk'). eexists _, _. split; [done|].
       unfold proposal_handled. rewrite Hk', Hb'. split_and!; try done. by intros ? ?%elem_of_nil. }
  destruct (bJustify b) as [just|] eqn:Ej; [|apply Hno].
  destruct (qcValid n (Some just)); [|apply Hno].
  destruct (String.eqb_spec (qNodeID just) (bParent b)) as [Hjp|]; [|apply Hno].
  destruct (bHeight b <=? bHeight parent)%N; cbn [negb orb]; [apply Hno|].
  assert (insertable B b) as Hins by (split_and!; try done; by exists just).
  destruct (epochAndSet_ok B n b Hn (proj2 Hs)) as (e & st & -> & Hst). cbn [mbind option_bind].
  destruct (_ || _)%bool; [apply Hno|].
  destruct (leader_of_within bound n st (bView b) leaders Hst) as [ldr ->]; [lia|]. cbn [mbind option_bind].
  destruct (_ || _)%bool; [apply Hno|]. destruct (bView b <? view n)%N; [apply Hno|].
  destruct (view n <? bView b)%N; cbn [andb].
  - destruct (proposalViewCertValidLocked n (bView b) (prViewChanges p)); cbn [negb]; [|apply Hno].
    destruct (enterView_ok B (bView b) (bEpoch b) n HB Hn Hv) as (ok & n1 & -> & Hn1 & (Eb & Epd & _)).
    cbn [fmap option_fmap option_map snd mbind option_bind].
    destruct (accept_ok B b n1 Hn1 Hins) with (just := just) as (h & n' & E & Hh); [rewrite Eb, Ep; by eexists|].
    cbv zeta in E. rewrite E. eexists _, _. split; [done|]. destruct Hh as (? & Hsub & ? & Hcnt & _).
    rewrite Eb in Hsub. rewrite Epd in Hcnt. split_and!; try done; [by intros _; apply Hcnt|]. intros Hk. destruct Hk. by eexists.
  - cbn [mbind option_bind].
    destruct (accept_ok B b n Hn Hins) with (just := just) as (h & n' & E & Hh); [rewrite Ep; by eexists|].
    cbv zeta in E. rewrite E. eexists _, _. split; [done|]. destruct Hh as (? & Hsub & ? & Hcnt & _).
    split_and!; try done; [by intros _; apply Hcnt|]. intros Hk. destruct Hk. by eexists.
Qed.

(** [HandleProposal] on proposals whose parents are known. *)
Lemma HandleProposals_ok B fuel now ps out n :
  (B <= bound)%N -> rep_ok B n -> (forall p, p ∈ ps -> unblocked B n p) ->
  length ps + buffered (pending n) <= fuel ->
  exists out' n', HandleProposals fuel now ps out n = Some (out', n') /\ rep_ok B n'.
Proof.
  intros HB. revert ps out n. induction fuel as [|fuel IH]; intros ps out n Hn Hps Hf.
  { destruct ps; simpl in *; [by eexists _, _|lia]. }
  destruct ps as [|p ps]; simpl; [by eexists _, _|].
  destruct (Hps p) as (Hs & Hv & Hp); [apply elem_of_cons; by left|].
  destruct (handleProposal_ok B now p n HB Hn Hs Hv) as (h & n1 & -> & Hn1 & Hsub & Hks & Hcnt & _). simpl.
  apply IH; [done| |rewrite length_app; simpl in Hf; specialize (Hcnt Hp); lia].
  intros x [Hx|Hx]%elem_of_app; [by apply Hks|]. eapply unblocked_subseteq; [exact Hsub|]. apply Hps.
  apply elem_of_cons. by right.
Qed.

Lemma HandleProposal_ok B now p n :
  (B <= bound)%N -> rep_ok B n -> small B (prBlock p) -> (bView (prBlock p) <= B)%N ->
  exists out n', HandleProposal now p n = Some (out, n') /\ rep_ok B n'.
Proof.
  intros HB Hn Hs Hv. unfold HandleProposal, pendingCount. cbn [HandleProposals].
  destruct (handleProposal_ok B now p n HB Hn Hs Hv) as (h & n1 & -> & Hn1 & Hsub & Hks & Hcnt & Hnone).
  cbn [mbind option_bind]. rewrite app_nil_r.
  destruct (decide (is_Some (blocks n !! bParent (prBlock p)))) as [Hp|Hp].
  - apply HandleProposals_ok; try done. by apply Hcnt.
  - rewrite (Hnone Hp). destruct (sum_list _); simpl; by eexists _, _.
Qed.

(** ** The other handlers *)

Lemma voteForBlock_ok B v n :
  rep_ok B n -> exists n', voteForBlockLocked v n = Some n' /\ rep_ok B n'.
Proof.
  intros Hn. unfold voteForBlockLocked. destruct (blocks n !! vtNodeID v) as [blk|] eqn:Eb; [|by eexists].
  destruct (sets n !! bEpoch blk) as [st|]; [|by eexists]. destruct (_ || _)%bool; [by eexists|].
  destruct (PublicKeys st !! vtVoter v); [|by eexists]. destruct (negb _); [by eexists|].
  assert (forall m, alike n m -> rep_ok B m) as Ha by (intros m Hm; by eapply rep_ok_alike).
  case_match; [eexists; split; [done|]; apply Ha; by repeat split|].
  destruct (_ || _)%bool; [eexists; split; [done|]; apply Ha; by repeat split|].
  match goal with |- context [onNewQCLocked ?q ?m] =>
    destruct (onNewQC_ok B q m) as (n' & -> & Hn' & _); [apply Ha; by repeat split| |by exists n'] end.
  intros q [= <-]. right. simpl. rewrite Eb. by eexists.
Qed.

Lemma addVC_ok B vc n :
  (B <= bound)%N -> rep_ok B n -> (vcView vc <= B)%N -> exists n', addVC vc n = Some n' /\ rep_ok B n'.
Proof.
  intros HB Hn Hv. unfold addVC. destruct (sets n !! epoch n) as [st|]; [|by eexists].
  destruct (negb _); [by eexists|].
  destruct (leaderOfEpoch_ok B n (epoch n) (vcView vc) HB Hn Hv) as [l ->]. cbn [mbind option_bind].
  destruct (negb _); [by eexists|]. eexists. split; [done|]. eapply rep_ok_alike; [|exact Hn]. by repeat split.
Qed.

Lemma adoptBase_ok B now q n :
  rep_ok B n -> exists f n', adoptBaseLocked now q n = Some (f, n') /\ rep_ok B n'.
Proof.
  intros Hn. unfold adoptBaseLocked. destruct (negb _); [by eexists _, _|].
  destruct (activateWithBase_ok B n Hn) as [Hact _]. destruct q as [q|]; [|by eexists _, _].
  destruct (raises q n); [|by eexists _, _].
  destruct (blocks n !! qNodeID q) eqn:Eb.
  - destruct (onNewQC_ok B (Some q) (set_qcHigh (Some q) n)) as (n1 & -> & Hn1 & _).
    + apply set_qcHigh_ok; [done|]. intros ? [= <-]. right. by eexists.
    + intros ? [= <-]. right. by eexists.
    + cbn [mbind option_bind]. destruct (activateWithBase_ok B n1 Hn1) as [? _]. by eexists _, _.
  - destruct (String.eqb _ _); [by eexists _, _|].
    case_match; eexists _, _; (split; [done|]); (eapply rep_ok_alike; [|exact Hn]); by repeat split.
Qed.

Lemma maybeActivate_ok B now v n :
  (B <= bound)%N -> rep_ok B n -> (v <= B)%N ->
  exists f n', maybeActivateLocked now v n = Some (f, n') /\ rep_ok B n'.
Proof.
  intros HB Hn Hv. unfold maybeActivateLocked. destruct (sets n !! epoch n) as [st|]; [|by eexists _, _].
  destruct (leaderOfEpoch_ok B n (epoch n) v HB Hn Hv) as [l ->]. cbn [mbind option_bind].
  destruct (negb _); [by eexists _, _|]. destruct (_ <? _)%nat; [by eexists _, _|].
  assert (exists ok n1, (if (view n <? v)%N then enterViewLocked v n else Some (true, n)) = Some (ok, n1) /\ rep_ok B n1)
    as (ok & n1 & -> & Hn1).
  { destruct (view n <? v)%N; [|by eexists _, _].
    destruct (enterView_ok B v (epoch n) n HB Hn Hv) as (ok & n1 & E & ? & _). by exists ok, n1. }
  cbn [mbind option_bind]. destruct (_ || _)%bool; [by eexists _, _|]. by apply adoptBase_ok.
Qed.

Lemma HandleViewChange_ok B now vc n :
  (B <= bound)%N -> rep_ok B n -> (vcView vc <= B)%N ->
  exists out n', HandleViewChange now vc n = Some (out, n') /\ rep_ok B n'.
Proof.
  intros HB Hn Hv. unfold HandleViewChange. destruct (negb _); [by eexists _, _|].
  destruct (sets n !! epoch n) as [st|]; [|by eexists _, _]. destruct (negb _); [by eexists _, _|].
  destruct (leaderOfEpoch_ok B n (epoch n) (vcView vc) HB Hn Hv) as [l ->]. cbn [mbind option_bind].
  destruct (negb _); [by eexists _, _|]. destruct (_ || _)%bool; [by eexists _, _|].
  destruct (addVC_ok B vc n HB Hn Hv) as (n1 & -> & Hn1). cbn [mbind option_bind].
  destruct (maybeActivate_ok B now (vcView vc) n1 HB Hn1 Hv) as (f & n2 & -> & Hn2). by eexists _, _.
Qed.

Lemma u64_add_small a b : (a + b < 2 ^ 64)%N -> u64_add a b = (a + b)%N.
Proof. intros H. unfold u64_add. by rewrite N.mod_small. Qed.

Lemma StartViewChange_ok B now n :
  (B + 1 <= bound)%N -> rep_ok B n ->
  exists out n', StartViewChange now n = Some (out, n') /\ rep_ok (B + 1) n'.
Proof.
  intros HB Hn. unfold StartViewChange. pose proof Hn as (_ & _ & _ & _ & Hv & _).
  apply (rep_ok_mono B (B + 1)) in Hn; [|lia].
  match goal with |- exists out n', (?o ≫= _) = _ /\ _ =>
    assert (exists t n1, o = Some (t, n1) /\ rep_ok (B + 1) n1 /\ (t <= B + 1)%N) as (t & n1 & -> & Hn1 & Ht) end.
  { destruct (_ || _)%bool; [|eexists _, _; split_and!; [done|done|lia]].
    rewrite u64_add_small by lia. cbv zeta.
    destruct (enterView_ok (B + 1) (view n + 1) (epoch n) n HB Hn) as (ok & n1 & E & ? & _); [lia|].
    unfold enterViewLocked. rewrite E. eexists _, _. split_and!; [done|done|lia]. }
  cbn [mbind option_bind]. destruct (_ && _)%bool; [|by eexists _, _].
  set (n2 := set_vcSent _ n1).
  assert (rep_ok (B + 1) n2) as Hn2 by (eapply rep_ok_alike; [|exact Hn1]; by repeat split).
  clearbody n2. destruct (String.eqb _ _); [|by eexists _, _].
  match goal with |- context [addVC ?vc n2] => destruct (addVC_ok (B + 1) vc n2 HB Hn2) as (n3 & -> & Hn3); [done|] end.
  cbn [mbind option_bind]. destruct (maybeActivate_ok (B + 1) now t n3 HB Hn3 Ht) as (f & n4 & -> & Hn4). by eexists _, _.
Qed.

Lemma HandleKids_ok B now ks n :
  (B <= bound)%N -> rep_ok B n -> (forall p, p ∈ ks -> unblocked B n p) ->
  exists out n', HandleKids now ks n = Some (out, n') /\ rep_ok B n'.
Proof. intros HB Hn Hks. apply HandleProposals_ok; try done. unfold pendingCount, buffered. lia. Qed.

Lemma addKids_ok B now b n :
  (B <= bound)%N -> rep_ok B n -> insertable B b -> parent_known n b ->
  exists out n', ('(kids, n) ← addBlockLocked b n; HandleKids now kids n) = Some (out, n') /\ rep_ok B n'.
Proof.
  intros HB Hn Hb Hp. destruct (addBlock_ok B b n Hn Hb Hp) as (ks & n1 & -> & Hn1 & _ & _ & _ & Hks & _).
  cbn [mbind option_bind]. by apply HandleKids_ok.
Qed.

Lemma HandleBlock_ok B now bm n :
  (B <= bound)%N -> rep_ok B n -> small B (bmBlock bm) ->
  exists out n', HandleBlock now bm n = Some (out, n') /\ rep_ok B n'.
Proof.
  intros HB Hn Hs. unfold HandleBlock. destruct (_ || _)%bool; [by eexists _, _|].
  unfold wanted. destruct (String.eqb_spec (bID (bmBlock bm)) (blockID (bView (bmBlock bm)) (bHeight (bmBlock bm))
    (bParent (bmBlock bm)) (bCmd (bmBlock bm)))) as [Hid|]; [|by eexists _, _].
  destruct (blocks n !! bID (bmBlock bm)); cbn [andb negb]; [by eexists _, _|].
  pose proof Hn as (_ & (_ & _ & [ex Ex]) & _). rewrite Ex. cbn [mbind option_bind].
  destruct (admissible now n (bmBlock bm) ex) eqn:Ea; [|by eexists _, _].
  assert (insertable B (bmBlock bm)) as Hins.
  { split_and!; try done. unfold admissible in Ea. apply andb_true_iff in Ea as [_ Ea].
    destruct (bJustify (bmBlock bm)) as [q|]; [|done]. exists q. split; [done|].
    apply andb_true_iff in Ea as [[_ Ea]%andb_true_iff _]. by apply String.eqb_eq. }
  destruct (blocks n !! bParent (bmBlock bm)) eqn:Ep; [apply addKids_ok; try done; right; by eexists|].
  destruct (String.eqb_spec (bParent (bmBlock bm)) "") as [He|Hne]; [apply addKids_ok; try done; by left|].
  set (n1 := set_pendingBlocks _ n).
  assert (rep_ok B n1) as Hn1.
  { apply (park_ok B [bmBlock bm] n Hn). intros b Hb%list_elem_of_singleton. by subst b. }
  clearbody n1. unfold requestBlock. repeat case_match; eexists _, _; (split; [done|]); try done.
Qed.

Lemma HandleGetBlocks_ok B g n : rep_ok B n -> is_Some (HandleGetBlocks g n).
Proof.
  intros ((Hw & _) & _). unfold HandleGetBlocks, collectRangeLocked.
  destruct (tree_anc (blocks n) (gbTarget g) Hw) as (l & Hl & Hsz).
  destruct (walkTo_ends (fuel_of n) (blocks n) (gbAnchor g) _ _ Hl) as [[c f] ->]; [unfold fuel_of; lia|].
  destruct (knownMemberLocked n (gbFrom g)); cbn [mbind option_bind]; repeat case_match; by eexists.
Qed.

(** ** Proposing *)

Lemma highest_le B n :
  rep_ok B n -> (highestBlockHeightLocked n <= B)%N /\
  forall id b, blocks n !! id = Some b -> (bHeight b <= highestBlockHeightLocked n)%N.
Proof.
  intros ((_ & Ht) & _). destruct (highest_spec n) as [H1 H2]. split; [|done].
  destruct H2 as [->|(id & b & Hb & <-)]; [lia|]. apply (Ht id b Hb).
Qed.

(** A block above every other is new. *)
Lemma new_block_fresh B n v h p c :
  rep_ok B n -> (highestBlockHeightLocked n < h)%N -> blocks n !! blockID v h p c = None.
Proof.
  intros Hn Hh. destruct (blocks n !! blockID v h p c) as [b|] eqn:Eb; [|done]. exfalso.
  destruct (highest_le B n Hn) as [_ Hle]. apply Hle in Eb as Hb. destruct Hn as ((Hw & Ht) & _).
  destruct (Ht _ _ Eb) as [[Hg|Hid] _]; [by apply blockID_not_genesis in Hg|].
  unfold proper_id in Hid.
  pose proof (tree_keyed _ _ _ Hw Eb) as Hk. rewrite Hid in Hk. apply no_collision in Hk. lia.
Qed.

Lemma propose_ok B cmd n :
  (B + 2 <= bound)%N -> rep_ok B n -> cmd_within cmd ->
  exists p n', proposeLocked cmd n = Some (p, n') /\ rep_ok (B + 2) n'.
Proof.
  intros HB Hn Hc. unfold proposeLocked. pose proof Hn as (_ & ([hd Hhd] & _) & _).
  rewrite Hhd. cbn [mbind option_bind]. destruct (highest_le B n Hn) as [Hmax Hall]. apply Hall in Hhd as Hh.
  destruct (if freshBase n then _ else _) as [h n1] eqn:E1.
  assert (alike n n1 /\ (h <= B + 2)%N) as [Ha Hh1].
  { destruct (freshBase n); injection E1 as <- <-; rewrite u64_add_small by lia; (split; [by repeat split|lia]). }
  apply (rep_ok_alike B n n1) in Hn; [|done]. destruct (highest_le B n1 Hn) as [Hmax1 _].
  set (h1 := if (h <=? _)%N then _ else h).
  assert (highestBlockHeightLocked n1 < h1 <= B + 2)%N as Hh2.
  { unfold h1. destruct (N.leb_spec h (highestBlockHeightLocked n1)); [rewrite u64_add_small by lia|]; lia. }
  clearbody h1. set (b := mkBlock _ h1 _ _ cmd _ _).
  assert (blocks n1 !! bID b = None) as Hnew by (eapply new_block_fresh; [exact Hn|lia]).
  pose proof Hn as (_ & (Hhd1 & _) & _). apply (rep_ok_mono B (B + 2)) in Hn; [|lia].
  match goal with |- context [voteForBlockLocked ?v ?m] =>
    assert (rep_ok (B + 2) m) as Hm; [|destruct (voteForBlock_ok (B + 2) v m Hm) as (n3 & -> & Hn3)] end.
  - eapply rep_ok_alike; [apply persistRecord_alike|]. apply set_headID_ok.
    + apply add_tree_ok; try done; [split; [simpl; lia|done]|by right].
    + simpl. rewrite lookup_insert_eq. by eexists.
  - cbn [mbind option_bind]. by eexists _, _.
Qed.

Lemma Propose_ok B cmd n :
  (B + 2 <= bound)%N -> rep_ok B n -> cmd_within cmd ->
  exists r out n', Propose cmd n = Some (r, out, n') /\ rep_ok (B + 2) n'.
Proof.
  intros HB Hn Hc. pose proof (rep_ok_mono B (B + 2) n ltac:(lia) Hn) as Hn'. unfold Propose.
  destruct (_ || _)%bool; [by eexists _, _, _|]. destruct (match qcHigh n with Some _ => _ | None => _ end); [by eexists _, _, _|].
  destruct (propose_ok B cmd n HB Hn Hc) as (p & n1 & -> & Hn1). cbn [mbind option_bind].
  pose proof Hn1 as (_ & _ & _ & ([s Hs] & _) & _). unfold broadcast. rewrite Hs. by eexists _, _, _.
Qed.

(** ** Runs *)

(** What a replica may be sent at a bound: heights and views below it, commands
    that stay in the universe of validators, and no sync batches. *)
Definition input_fits B (i : hs_input) : Prop :=
  match i with
  | HProposal p => small B (prBlock p) /\ (bView (prBlock p) <= B)%N
  | HViewChange vc => (vcView vc <= B)%N
  | HBlock bm => small B (bmBlock bm)
  | HPropose cmd => cmd_within cmd
  | HBatch _ => False
  | _ => True
  end.

Lemma step_ok B now i n :
  (B + 2 <= bound)%N -> rep_ok B n -> input_fits B i ->
  exists out n', hs_step now i n = Some (out, n') /\ rep_ok (B + 2) n'.
Proof.
  intros HB Hn Hi.
  assert (forall B' (r : option (list Out * Replica F W)), (B' <= B + 2)%N -> (exists out n', r = Some (out, n') /\ rep_ok B' n') ->
    exists out n', r = Some (out, n') /\ rep_ok (B + 2) n') as up.
  { intros B' r HB' (out & n' & E & Hn'). exists out, n'. split; [done|by eapply rep_ok_mono]. }
  assert (rep_ok (B + 2) n) as Hn2 by (eapply rep_ok_mono; [|exact Hn]; lia).
  destruct i as [p|v|vc| |f|bm|g|bb|cmd|id]; simpl in *; try done.
  - apply (up B); [lia|]. destruct Hi. apply HandleProposal_ok; try done. lia.
  - unfold HandleVote. destruct (String.eqb _ _); [|by eexists _, _].
    destruct (voteForBlock_ok (B + 2) v n Hn2) as (n' & -> & ?). by eexists _, _.
  - apply (up B); [lia|]. apply HandleViewChange_ok; try done. lia.
  - apply (up (B + 1)%N); [lia|]. apply StartViewChange_ok; try done. lia.
  - by eexists _, _.
  - apply (up B); [lia|]. apply HandleBlock_ok; try done. lia.
  - destruct (HandleGetBlocks_ok B g n Hn) as [out ->]. by eexists _, _.
  - destruct (Propose_ok B cmd n HB Hn Hi) as (r & out & n' & -> & ?). by eexists _, _.
  - eexists _, _. split; [done|]. eapply rep_ok_alike; [|exact Hn2]. unfold WaitCommitted.
    repeat case_match; by repeat split.
Qed.
End safe.
