(* ===== verification/HotStuffTotal.v ===== *)
(** * Every run of a HotStuff replica goes on *)

From S2P Require Import Prelude WalTypes WalCodec Codec HotStuffTypes HotStuff HotStuffProps HotStuffInstances HotStuffHash HotStuffThms HotStuffQuorum HotStuffMoves HotStuffTree HotStuffSafe.

Section total.
Context {F W : Type}.
Context {EX : Executor F W} {WW : Wal W} {CR : Crypto} {J : Json} {MJ : MembershipJson} {PJ : PersistJson}.
Implicit Types n : Replica F W.
Context (U : gset string).

(** ** The first states *)

Lemma no_change_within : cmd_within U [].
Proof. intros b mc Hb. unfold membershipOf. by rewrite Hb. Qed.

Lemma NewReplica_ok B id ps lead kp r f n :
  NewReplica id ps lead kp r f = Ok n -> (forall x, x ∈ id :: ps -> x ∈ U) -> rep_ok U B n.
Proof.
  unfold NewReplica. intros E HU. destruct (String.eqb id ""); [done|].
  destruct (bool_decide_reflect (NoDup (id :: ps))) as [Hnd|]; [|done]. simpl in E.
  destruct (negb _); [done|]. destruct kp as [pk sk]. injection E as <-.
  pose proof (sort_Strings_perm (id :: ps)) as Hp. unfold rep_ok, sets_ok. simpl. split_and!.
  - split; [by constructor|]. intros k b [<- <-]%lookup_singleton_Some. split; [by left|].
    split; [simpl; lia|apply no_change_within].
  - rewrite lookup_singleton_eq. by eexists.
  - rewrite lookup_singleton_eq. by eexists.
  - rewrite lookup_singleton_eq. by eexists.
  - intros q [= <-]. right. simpl. rewrite lookup_singleton_eq. by eexists.
  - rewrite lookup_singleton_eq. by eexists.
  - intros e s [_ <-]%lookup_singleton_Some. split; simpl; [by rewrite Hp|].
    intros x. rewrite Hp. apply HU.
  - lia.
  - intros k l p ?%lookup_empty_Some. done.
  - intros k l p ?%lookup_empty_Some. done.
Qed.

Lemma SetPeerKey_ok B p pk n : rep_ok U B n -> rep_ok U B (SetPeerKey p pk n).2.
Proof.
  intros Hn. unfold SetPeerKey. destruct (_ =? _)%nat; [done|]. destruct (match peerKeys n !! p with Some _ => _ | None => _ end); [done|].
  destruct Hn as (? & (? & ? & ?) & ? & (He & Hs) & ? & ? & ?). simpl.
  destruct (sets n !! 0%N) as [s|] eqn:E0; [|by unfold rep_ok; simpl; split_and!].
  destruct (set_has s p); [|by unfold rep_ok; simpl; split_and!].
  unfold rep_ok, sets_ok. simpl. split_and!; try done.
  - apply lookup_insert_is_Some'. by right.
  - intros e s' [[_ <-]|[_ ?]]%lookup_insert_Some; [|by eapply Hs]. destruct (Hs _ _ E0). by split.
Qed.

(** ** Runs *)

Lemma input_fits_mono B B' i : (B <= B')%N -> input_fits U B i -> input_fits U B' i.
Proof.
  intros HB. destruct i; simpl; try done.
  - intros [? ?]. split; [by eapply small_mono|lia].
  - lia.
  - by apply small_mono.
Qed.

(** C40: a running replica does not get stuck. Starting from a state that
    satisfies the invariant (every replica made by [NewReplica] does), whatever
    sequence of proposals, votes, view changes, timeouts, fetches, blocks, range
    requests, client commands and waits it handles, every handler returns: none
    dereferences a missing block or validator set, none indexes a leader out of
    range, and no walk of the block tree runs on for ever; and the invariant
    holds again. The heights and views of what it is sent have to stay so far
    below 2^63 that the numbers it counts up itself do not wrap, the commands
    may only add validators of a finite universe [U], and hashes are assumed not
    to collide. *)
Theorem replica_never_stuck B evs n :
  (forall x, sha256 x <> []) ->
  (forall v h p c v' h' p' c', blockID v h p c = blockID v' h' p' c' -> h = h') ->
  (Z.of_nat (size U) + Z.of_N B + 2 * Z.of_nat (length evs) < 2 ^ 63)%Z ->
  rep_ok U B n -> Forall (fun e => input_fits U B e.2) evs ->
  exists out n', hs_run evs n = Some (out, n') /\ rep_ok U (B + 2 * N.of_nat (length evs)) n'.
Proof.
  intros Hh Hc. revert B n. induction evs as [|[now i] evs IH]; intros B n HU Hn Hev.
  - eexists _, _. split; [done|]. eapply rep_ok_mono; [|exact Hn]. lia.
  - apply Forall_cons in Hev as [Hi Hev]. simpl in *.
    destruct (step_ok U Hh Hc (B + 2) ltac:(lia) B now i n ltac:(lia) Hn Hi) as (out & n1 & -> & Hn1).
    cbn [mbind option_bind].
    destruct (IH (B + 2)%N n1 ltac:(lia) Hn1) as (out' & n2 & -> & Hn2).
    { eapply Forall_impl; [exact Hev|]. intros e. apply input_fits_mono. lia. }
    eexists _, _. split; [done|]. eapply rep_ok_mono; [|exact Hn2]. lia.
Qed.
End total.

(** ** An example run *)

Definition field_member (id : string) : result MemReplica :=
  @NewReplica Ran MemLog FieldCrypto id (filter (fun x => x <> id) four) "a" (key_of id, key_of id) 0 [].

(** A leader that proposes, times out and is asked for a block. *)
Definition lone_run : list (Z * hs_input) :=
  [(1%Z, HPropose (String.list_ascii_of_string "x")); (2%Z, HTimeout); (3%Z, HFetch (mkFetch genesisID "b" "b"));
   (4%Z, HVote (mkVote 1 "none" "b" []))].

Lemma replica_never_stuck_witness :
  exists n out n', field_member "a" = Ok n /\
    @hs_run Ran MemLog _ _ FieldCrypto _ _ _ lone_run n = Some (out, n').
Proof.
  assert (match field_member "a" with Ok _ => true | Err _ => false end = true) as E by (vm_compute; reflexivity).
  destruct (field_member "a") as [n|] eqn:En; [|discriminate E].
  destruct (@replica_never_stuck Ran MemLog _ _ FieldCrypto _ _ _ (list_to_set four) 0 lone_run n)
    as (out & n' & Hr & _).
  - exact field_hash_not_empty.
  - intros v h p c v' h' p' c' Eid; exact (proj1 (field_no_collision _ _ _ _ _ _ _ _ Eid)).
  - vm_compute. reflexivity.
  - eapply NewReplica_ok; [exact En|]. intros x Hx. apply elem_of_list_to_set. set_solver.
  - repeat constructor; simpl. intros b mc Hb. unfold membershipOf. rewrite Hb. vm_compute. discriminate.
  - exists n, out, n'. split; [reflexivity|exact Hr].
Defined.
