(* ===== verification/HotStuffFork.v ===== *)
(** * Two replicas that execute conflicting blocks

    The commit rule is a chain of three direct links, [oneChainedBy]; the links may
    skip heights, which proposals are free to do. A certified block on another branch
    can then have a height between those of the chain, and its certificate is higher
    than the lock of the replicas that voted for the chain. One Byzantine leader in a
    cluster of four is enough. *)

From stdpp Require Import pretty.
From S2P Require Import Prelude WalTypes WalCodec Codec HotStuffTypes HotStuff HotStuffProps HotStuffInstances.

(** A signature here is the key and what identifies the message: for a proposal the
    block's name, which commits to its contents, and for a vote block and height. *)
Definition brief (m : Signable) : bytes :=
  match m with
  | SVote v => String.list_ascii_of_string ("v" +:+ pretty (vtHeight v) +:+ ":" +:+ vtNodeID v)
  | SProposal p => String.list_ascii_of_string ("p" +:+ bID (prBlock p))
  | _ => []
  end.

#[local] Instance BriefCrypto : Crypto := {|
  sha256 := checksum;
  ed25519_Sign key m := key ++ m;
  ed25519_Verify key m sig := bool_decide (sig = key ++ m);
  json_message m := Some (brief m)
|}.

Definition fork_member (id : string) : option MemReplica :=
  match NewReplica id (filter (fun x => x <> id) four) "a" (key_of id, key_of id) 0 [] with
  | Ok n => Some (foldl (fun n p => (SetPeerKey p (key_of p) n).2) n four)
  | Err _ => None
  end.

(** What the leader ["a"] signs: a block on top of another, justified by a
    certificate. *)
Definition fork_block (h : N) (parent : string) (cmd : string) (q : QC) : Block :=
  let c := String.list_ascii_of_string cmd in mkBlock 0 h parent (blockID 0 h parent c) c (Some q) 0.

Definition fork_proposal (b : Block) : Proposal :=
  let p := mkProposal b "a" [] [] in mkProposal b "a" [] (signPayload (key_of "a") (SProposal p)).

(** The vote of a correct replica on a block, and the leader's own. *)
Definition fork_vote (id : string) (b : Block) : Vote :=
  let v := mkVote (bHeight b) (bID b) id [] in mkVote (bHeight b) (bID b) id (signPayload (key_of id) (SVote v)).

(** The certificate of a block: the votes of ["a"], ["b"] and ["c"]. *)
Definition fork_qc (b : Block) : QC :=
  mkQC 0 (bID b) (bHeight b) (list_to_map ((fun id => (id, vtSig (fork_vote id b))) <$> ["a"; "b"; "c"])).

Definition genesis_qc : QC := (genesisBlock four).2.

(** Two blocks on the genesis block; the chain [x1], [x2], [x3] on one branch with
    the block [y2] of the other between [x2] and [x3]. *)
Definition y1 : Block := fork_block 2 genesisID "y1" genesis_qc.
Definition x1 : Block := fork_block 3 genesisID "x1" genesis_qc.
Definition x2 : Block := fork_block 5 (bID x1) "x2" (fork_qc x1).
Definition y2 : Block := fork_block 6 (bID y1) "y2" (fork_qc y1).
Definition x3 : Block := fork_block 7 (bID x2) "x3" (fork_qc x2).
Definition x4 : Block := fork_block 8 (bID x3) "x4" (fork_qc x3).
Definition y3 : Block := fork_block 9 (bID y2) "y3" (fork_qc y2).
Definition y4 : Block := fork_block 10 (bID y3) "y4" (fork_qc y3).

(** The votes of a correct replica that a block's certificate holds were sent. *)
Definition earned (sent : list Vote) (b : Block) : bool :=
  match bJustify b with
  | None => false
  | Some q => (String.eqb (qNodeID q) genesisID ||
      forallb (fun id => existsb (fun v => String.eqb (vtVoter v) id && String.eqb (vtNodeID v) (qNodeID q) &&
        bool_decide (qVotes q !! id = Some (vtSig v)))%bool sent) ["b"; "c"])%bool
  end.

(** The votes among what a replica sends. *)
Definition votes_in (out : list Out) : list Vote := omap (fun o => match o with SendVote _ v => Some v | _ => None end) out.

(** The leader shows blocks to ["b"] ([true]) and ["c"], in this order; ["d"] is
    down. *)
Fixpoint attack (evs : list (bool * Block)) (sent : list Vote) (nb nc : MemReplica) : option (MemReplica * MemReplica) :=
  match evs with
  | [] => Some (nb, nc)
  | (to_b, b) :: evs' =>
      if earned sent b then
        '(out, n) ← HandleProposal 0 (fork_proposal b) (if (to_b : bool) then nb else nc);
        if to_b then attack evs' (sent ++ votes_in out) n nc else attack evs' (sent ++ votes_in out) nb n
      else None
  end.

Definition to_both (b : Block) : list (bool * Block) := [(true, b); (false, b)].

Definition attack_events : list (bool * Block) :=
  concat (to_both <$> [y1; x1; x2; y2; x3]) ++ [(true, x4)] ++ to_both y3 ++ [(false, y4)].

Definition attack_run : option (MemReplica * MemReplica) := nb ← fork_member "b"; nc ← fork_member "c"; attack attack_events [] nb nc.



(** Agreement fails: ["b"] and ["c"] are correct and every vote of theirs that a
    certificate shows was sent before; yet they execute two different blocks, both
    on top of the genesis block. *)
Theorem agreement_fails : exists nb nc,
  attack_run = Some (nb, nc) /\ fsm nb = [x1] /\ fsm nc = [y1] /\ bParent x1 = genesisID /\ bParent y1 = genesisID /\ bID x1 <> bID y1.
Proof.
  assert (match attack_run with Some (nb, nc) => fsm nb = [x1] /\ fsm nc = [y1] | None => False end) as H by (vm_compute; split; reflexivity).
  assert (bID x1 <> bID y1) as Hne by (vm_compute; discriminate).
  destruct attack_run as [[nb nc]|]; [|destruct H]. exists nb, nc. destruct H as [Hb Hc]. split; [reflexivity|]. split; [exact Hb|]. split; [exact Hc|].
  split; [reflexivity|]. split; [reflexivity|exact Hne].
Qed.
