(* ===== verification/HotStuffTransport.v ===== *)
(** * The HotStuff transport (internal/hotstuff/tcp_transport.go)

    One JSON object per line over a connection that starts with an exchange of
    Hellos. A connection is the bytes its peer sends until it closes, and the
    identity that its certificate proves. Sockets, dialling and TLS themselves are
    outside: what they return is an argument. *)

From Stdlib Require Import Ascii.
From S2P Require Import Prelude WalTypes HotStuffTypes HotStuff HotStuffProps HotStuffInstances HotStuffThms.

(** ** Messages *)

Inductive Message : Type :=
  | WProposal (m : Proposal) | WVote (m : Vote) | WViewChange (m : ViewChange) | WFetch (m : Fetch)
  | WBlock (m : BlockMsg) | WGetBlocks (m : GetBlocks) | WBlockBatch (m : BlockBatch).

Definition kindHello : string := "Hello".
Definition kind_of (m : Message) : string :=
  match m with
  | WProposal _ => "Proposal" | WVote _ => "Vote" | WViewChange _ => "ViewChange" | WFetch _ => "Fetch"
  | WBlock _ => "Block" | WGetBlocks _ => "GetBlocks" | WBlockBatch _ => "BlockBatch"
  end.
Definition kinds : list string :=
  ["Proposal"; "Vote"; "ViewChange"; "Fetch"; "Block"; "GetBlocks"; "BlockBatch"].

Record Hello : Type := mkHello { heID : string; hePub : bytes }.
Record wireMsg : Type := mkWireMsg { wmKind : string; wmData : bytes }.

(** [encoding/json] on the envelope and on what it carries; a body is decoded as
    the type that its kind names. *)
Class WireJson : Type := {
  json_wire : wireMsg -> result bytes;
  json_unwire : bytes -> option wireMsg;
  json_body : Message -> result bytes;
  json_unbody : string -> bytes -> option Message;
  json_hello : Hello -> result bytes;
  json_unhello : bytes -> option Hello
}.

(** The transport calls of the replica's handlers, as messages to peers. *)
Definition out_message (o : Out) : string * Message :=
  match o with
  | SendProposal p m => (p, WProposal m)
  | SendVote p m => (p, WVote m)
  | SendViewChange p m => (p, WViewChange m)
  | SendFetch p m => (p, WFetch m)
  | SendBlock p m => (p, WBlock m)
  | SendGetBlocks p m => (p, WGetBlocks m)
  | SendBlockBatch p m => (p, WBlockBatch m)
  end.

(** The handler that a message is for. *)
Definition message_input (m : Message) : hs_input :=
  match m with
  | WProposal m => HProposal m
  | WVote m => HVote m
  | WViewChange m => HViewChange m
  | WFetch m => HFetch m
  | WBlock m => HBlock m
  | WGetBlocks m => HGetBlocks m
  | WBlockBatch m => HBatch m
  end.

(** ** Framing *)

Definition maxWireLine : N := 4194304.

(** The buffer of a [bufio.Reader]. *)
Definition bufSize : nat := 4096.

Inductive slice_end : Type := SliceLine | SliceFull | SliceEOF.

(** The bytes up to and including the first newline among the first [k]. *)
Fixpoint to_newline (k : nat) (s : bytes) : option (bytes * bytes) :=
  match k, s with
  | S k', c :: s' =>
      if Ascii.eqb c nl then Some ([c], s')
      else match to_newline k' s' with Some (l, r) => Some (c :: l, r) | None => None end
  | _, _ => None
  end.

(** [rd.ReadSlice('\n')] *)
Definition ReadSlice (s : bytes) : bytes * bytes * slice_end :=
  match to_newline bufSize s with
  | Some (l, r) => (l, r, SliceLine)
  | None => if (bufSize <=? length s)%nat then (take bufSize s, drop bufSize s, SliceFull) else (s, [], SliceEOF)
  end.

(** One slice per unit of fuel. *)
Fixpoint readWireLineFrom (fuel : nat) (buf s : bytes) : result (bytes * bytes) :=
  match fuel with
  | O => Err IOError
  | S fuel' =>
      let '(chunk, s, e) := ReadSlice s in
      let buf := buf ++ chunk in
      if (maxWireLine <=? N.of_nat (length buf))%N then Err (Wrapped "message exceeds size limit")
      else match e with
           | SliceLine => Ok (buf, s)
           | SliceFull => readWireLineFrom fuel' buf s
           | SliceEOF => Err IOError
           end
  end.

Definition readWireLine (s : bytes) : result (bytes * bytes) := readWireLineFrom (S (length s)) [] s.

(** ** The transport *)

(** An outbound connection to a peer: the address it was made with, and whether
    it is up. *)
Record peerConn : Type := mkPeerConn { pcAddr : string; pcUp : bool }.

Record TCPTransport : Type := mkTCPTransport {
  tID : option string;                     (* the node's id, when there is a node *)
  tPub : bytes;
  peerAddrs : gmap string string;
  validatorKeys : gmap string bytes;
  conns : gmap string peerConn;
  tlsOn : bool;
  tfault : option (string -> string -> bool);
  tstopped : bool
}.

Definition NewTCPTransport : TCPTransport := mkTCPTransport None [] ∅ ∅ ∅ false None false.
Definition SetNode (id : string) (pub : bytes) (t : TCPTransport) : TCPTransport :=
  mkTCPTransport (Some id) pub (peerAddrs t) (validatorKeys t) (conns t) (tlsOn t) (tfault t) (tstopped t).
Definition EnableTLS (t : TCPTransport) : TCPTransport :=
  mkTCPTransport (tID t) (tPub t) (peerAddrs t) (validatorKeys t) (conns t) true (tfault t) (tstopped t).
Definition RegisterPeer (id addr : string) (t : TCPTransport) : TCPTransport :=
  mkTCPTransport (tID t) (tPub t) (<[id := addr]> (peerAddrs t)) (validatorKeys t) (conns t) (tlsOn t) (tfault t) (tstopped t).
Definition SetPeers (addrs : gmap string string) (t : TCPTransport) : TCPTransport :=
  mkTCPTransport (tID t) (tPub t) (addrs ∪ peerAddrs t) (validatorKeys t) (conns t) (tlsOn t) (tfault t) (tstopped t).
Definition set_conns (cs : gmap string peerConn) (t : TCPTransport) : TCPTransport :=
  mkTCPTransport (tID t) (tPub t) (peerAddrs t) (validatorKeys t) cs (tlsOn t) (tfault t) (tstopped t).
Definition set_validatorKeys (ks : gmap string bytes) (t : TCPTransport) : TCPTransport :=
  mkTCPTransport (tID t) (tPub t) (peerAddrs t) ks (conns t) (tlsOn t) (tfault t) (tstopped t).
Definition SetFaultInjector (fn : option (string -> string -> bool)) (t : TCPTransport) : TCPTransport :=
  mkTCPTransport (tID t) (tPub t) (peerAddrs t) (validatorKeys t) (conns t) (tlsOn t) fn (tstopped t).
Definition CloseTransport (t : TCPTransport) : TCPTransport :=
  mkTCPTransport (tID t) (tPub t) (peerAddrs t) (validatorKeys t) ∅ (tlsOn t) (tfault t) true.

Definition PublicKeySize : nat := 32.

(** The configured keys are pinned at the replica one after the other, in the
    order that the map yields them, then become the transport's. *)
Fixpoint pinValidators {F W : Type} (keys : list (string * bytes)) (n : Replica F W) : result (Replica F W) :=
  match keys with
  | [] => Ok n
  | (id, pub) :: keys' =>
      if negb (length pub =? PublicKeySize)%nat then Err (Wrapped "invalid or conflicting validator key")
      else match SetPeerKey id pub n with
           | (true, n) => pinValidators keys' n
           | (false, _) => Err (Wrapped "invalid or conflicting validator key")
           end
  end.

Definition SetValidatorKeys {F W : Type} (keys : gmap string bytes) (t : TCPTransport) (n : Replica F W)
    : result (TCPTransport * Replica F W) :=
  match tID t with
  | None => Err (Wrapped "hotstuff transport: no node")
  | Some _ => match pinValidators (map_to_list keys) n with
              | Err e => Err e
              | Ok n => Ok (set_validatorKeys keys t, n)
              end
  end.

(** Whom a TLS listener admits. *)
Definition acceptPeer (t : TCPTransport) (identity : string) : bool :=
  bool_decide (tID t = Some identity) || bool_decide (is_Some (validatorKeys t !! identity)).

Definition partitioned (t : TCPTransport) (peer : string) : bool :=
  match tfault t, tID t with
  | Some f, Some id => f id peer
  | _, _ => false
  end.

Section wire.
Context {WJ : WireJson}.

Definition encodeMsg (m : Message) : result bytes :=
  match json_body m with
  | Err e => Err e
  | Ok data => match json_wire (mkWireMsg (kind_of m) data) with
               | Err e => Err e
               | Ok b => Ok (b ++ [nl])
               end
  end.

Definition encodeHello (h : Hello) : result bytes :=
  match json_hello h with
  | Err e => Err e
  | Ok data => match json_wire (mkWireMsg kindHello data) with
               | Err e => Err e
               | Ok b => Ok (b ++ [nl])
               end
  end.

(** Our Hello is sent, then the peer's is read from [s] and checked. [ident] is
    the name the peer's certificate proves, empty when there is none; [expected]
    is the peer that was dialled, empty on an accepted connection. The result is
    the peer's id and the rest of the stream. *)
Definition exchangeHello (t : TCPTransport) (ident expected : string) (s : bytes) : option (string * bytes) :=
  match tID t with
  | None => None
  | Some id =>
      match encodeHello (mkHello id (tPub t)), readWireLine s with
      | Ok _, Ok (line, s') =>
          wm ← json_unwire line;
          if negb (String.eqb (wmKind wm) kindHello) then None
          else
            h ← json_unhello (wmData wm);
            if (tlsOn t && (String.eqb ident "" || negb (String.eqb ident (heID h))))%bool then None
            else match validatorKeys t !! heID h with
                 | None => None
                 | Some configured =>
                     if ((negb (String.eqb expected "") && negb (String.eqb (heID h) expected)) ||
                         negb (bool_decide (hePub h = configured)))%bool then None
                     else Some (heID h, s')
                 end
      | _, _ => None
      end
  end.

(** What a line asks for; an error ends the connection. *)
Definition decodeMsg (line : bytes) : option Message :=
  wm ← json_unwire line;
  if bool_decide (wmKind wm ∈ kinds) then json_unbody (wmKind wm) (wmData wm) else None.

Section dispatch.
Context {F W : Type}.
Context {EX : Executor F W} {WW : Wal W} {CR : Crypto} {J : Json} {MJ : MembershipJson} {PJ : PersistJson}.

(** [Some None]: the line is refused. [None]: a handler panicked. *)
Definition dispatch (t : TCPTransport) (now : Z) (line : bytes) (n : Replica F W)
    : option (option (list Out * Replica F W)) :=
  match decodeMsg line, tID t with
  | Some m, Some _ => Some <$> hs_step now (message_input m) n
  | _, _ => Some None
  end.

(** The read loop of a connection, a line per unit of fuel, with the times at
    which the lines are handled: what the replica sends, and its state. *)
Fixpoint readLoop (fuel : nat) (t : TCPTransport) (clock : nat -> Z) (s : bytes) (n : Replica F W)
    : option (list Out * Replica F W) :=
  match fuel with
  | O => Some ([], n)
  | S fuel' =>
      match readWireLine s with
      | Err _ => Some ([], n)
      | Ok (line, s') =>
          r ← dispatch t (clock 0) line n;
          match r with
          | None => Some ([], n)
          | Some (out, n') =>
              '(out', n'') ← readLoop fuel' t (fun k => clock (1 + k)) s' n';
              Some (out ++ out', n'')
          end
      end
  end.

Definition handleConn (t : TCPTransport) (ident : string) (clock : nat -> Z) (s : bytes) (n : Replica F W)
    : option (list Out * Replica F W) :=
  match exchangeHello t ident "" s with
  | None => Some ([], n)
  | Some (_, s') => readLoop (length s') t clock s' n
  end.
End dispatch.

(** ** Sending *)

(** What the network gives a dial: the peer's identity and the bytes of its
    Hello, or an error. It depends on the address. *)
Definition dial : Type := string -> result (string * bytes).

(** [peerConn]: the connection to a peer, made when there is none. *)
Definition get_peerConn (d : dial) (t : TCPTransport) (peer : string) : result peerConn * TCPTransport :=
  let addr := default "" (peerAddrs t !! peer) in
  let pc := default (mkPeerConn addr false) (conns t !! peer) in
  let t := set_conns (<[peer := pc]> (conns t)) t in
  if String.eqb addr "" then (Err (Wrapped "unknown peer"), t)
  else if pcUp pc then (Ok pc, t)
  else match d (pcAddr pc) with
       | Err e => (Err e, t)
       | Ok (ident, s) =>
           match exchangeHello t ident peer s with
           | None => (Err (Wrapped "key handshake failed"), t)
           | Some _ =>
               let pc := mkPeerConn (pcAddr pc) true in
               (Ok pc, set_conns (<[peer := pc]> (conns t)) t)
           end
       end.

(** [written]: whether the connection takes the bytes. The result is the bytes
    put on the connection. *)
Definition send (d : dial) (written : bool) (t : TCPTransport) (peer : string) (m : Message)
    : result bytes * TCPTransport :=
  if partitioned t peer then (Err (Wrapped "partitioned"), t)
  else match get_peerConn d t peer with
       | (Err e, t) => (Err e, t)
       | (Ok pc, t) =>
           match encodeMsg m with
           | Err e => (Err e, t)
           | Ok b => if written then (Ok b, t)
                     else (Err IOError, set_conns (<[peer := mkPeerConn (pcAddr pc) false]> (conns t)) t)
           end
       end.
End wire.
