(* ===== verification/HotStuffTransportThms.v ===== *)
(** * The HotStuff transport: its properties *)

From Stdlib Require Import Ascii.
From S2P Require Import Prelude WalTypes WalCodec HotStuffTypes HotStuff HotStuffProps HotStuffInstances HotStuffThms HotStuffTransport.

(** ** Reading lines *)

Lemma to_newline_found (k : nat) (l rest : bytes) :
  nl ∉ l -> length l < k -> to_newline k (l ++ nl :: rest) = Some (l ++ [nl], rest).
Proof.
  revert k. induction l as [|c l IH]; intros k Hl Hk; destruct k as [|k]; cbn [to_newline app length] in *; try lia.
  - by rewrite Ascii.eqb_refl.
  - destruct (Ascii.eqb_spec c nl) as [->|]; [by destruct Hl; left|].
    rewrite IH; [done|by intros ?; apply Hl; right|lia].
Qed.

Lemma to_newline_none (k : nat) (l rest : bytes) :
  nl ∉ l -> k <= length l -> to_newline k (l ++ rest) = None.
Proof.
  revert k. induction l as [|c l IH]; intros k Hl Hk; destruct k as [|k]; cbn [to_newline app length] in *; try done; [lia|].
  destruct (Ascii.eqb_spec c nl) as [->|]; [by destruct Hl; left|].
  rewrite IH; [done|by intros ?; apply Hl; right|lia].
Qed.

Lemma ReadSlice_line (l rest : bytes) :
  nl ∉ l -> length l < bufSize -> ReadSlice (l ++ nl :: rest) = (l ++ [nl], rest, SliceLine).
Proof. intros. unfold ReadSlice. by rewrite to_newline_found. Qed.

Lemma ReadSlice_full (l rest : bytes) :
  nl ∉ l -> bufSize <= length l -> ReadSlice (l ++ rest) = (take bufSize l, drop bufSize l ++ rest, SliceFull).
Proof.
  intros Hl Hk. unfold ReadSlice. rewrite to_newline_none by done.
  assert ((bufSize <=? length (l ++ rest))%nat = true) as -> by (apply Nat.leb_le; rewrite length_app; lia).
  by rewrite take_app_le, drop_app_le by done.
Qed.

#[local] Opaque bufSize.

Lemma bufSize_pos : 0 < bufSize.
Proof. apply Nat.ltb_lt. reflexivity. Qed.

Lemma readWireLineFrom_line (fuel : nat) (buf l rest : bytes) :
  nl ∉ l -> (N.of_nat (length buf + length l + 1) < maxWireLine)%N -> length l < fuel ->
  readWireLineFrom fuel buf (l ++ nl :: rest) = Ok (buf ++ l ++ [nl], rest).
Proof.
  revert buf l. induction fuel as [|fuel IH]; intros buf l Hl Hmax Hf; [lia|]. cbn [readWireLineFrom].
  destruct (decide (length l < bufSize)) as [Hs|Hs].
  - rewrite ReadSlice_line by done.
    destruct (N.leb_spec maxWireLine (N.of_nat (length (buf ++ l ++ [nl])))) as [Hx|]; [|done].
    rewrite !length_app in Hx. simpl in Hx. lia.
  - rewrite ReadSlice_full by (done || lia). pose proof bufSize_pos.
    destruct (N.leb_spec maxWireLine (N.of_nat (length (buf ++ take bufSize l)))) as [Hx|_].
    { rewrite length_app, length_take in Hx. lia. }
    rewrite IH.
    + do 2 f_equal. rewrite <- app_assoc. f_equal. by rewrite app_assoc, take_drop.
    + intros Hin. apply Hl. rewrite <- (take_drop bufSize l). apply elem_of_app. by right.
    + rewrite length_app, length_take, length_drop. lia.
    + rewrite length_drop. lia.
Qed.

Lemma readWireLine_line (l rest : bytes) :
  nl ∉ l -> (N.of_nat (length l + 1) < maxWireLine)%N -> readWireLine (l ++ nl :: rest) = Ok (l ++ [nl], rest).
Proof.
  intros. unfold readWireLine. rewrite readWireLineFrom_line; [done|done|done|]. rewrite length_app. lia.
Qed.

(** A line that is accepted is below the limit, and what is read is what is
    consumed. *)
Lemma readWireLine_bound (s line rest : bytes) :
  readWireLine s = Ok (line, rest) -> s = line ++ rest /\ (N.of_nat (length line) < maxWireLine)%N.
Proof.
  unfold readWireLine. generalize (S (length s)) as fuel. intros fuel.
  cut (forall buf, readWireLineFrom fuel buf s = Ok (line, rest) ->
    buf ++ s = line ++ rest /\ (N.of_nat (length line) < maxWireLine)%N); [intros H; apply (H [])|].
  revert s. induction fuel as [|fuel IH]; intros s buf E; [done|]. cbn [readWireLineFrom] in E.
  assert (forall k s l r, to_newline k s = Some (l, r) -> s = l ++ r) as Hnl.
  { clear. induction k as [|k IH]; intros [|c s] l r E; cbn [to_newline] in E; try done.
    destruct (Ascii.eqb c nl); [by simplify_eq|]. destruct (to_newline k s) as [[l' r']|] eqn:E'; simplify_eq. by rewrite (IH _ _ _ E'). }
  assert (let '(chunk, s', _) := ReadSlice s in s = chunk ++ s') as Hs.
  { unfold ReadSlice. destruct (to_newline bufSize s) as [[l r]|] eqn:En; [by eapply Hnl|].
    destruct (bufSize <=? length s)%nat; [by rewrite take_drop|by rewrite app_nil_r]. }
  destruct (ReadSlice s) as [[chunk s'] e]. destruct (N.leb_spec maxWireLine (N.of_nat (length (buf ++ chunk)))); [done|].
  destruct e; [|apply IH in E as [E ?]; split; [by rewrite Hs, app_assoc|done]|done].
  injection E as <- <-. split; [by rewrite Hs, app_assoc|done].
Qed.

(** ** Connections *)

Section conn.
Context {WJ : WireJson} {F W : Type}.
Context {EX : Executor F W} {WW : Wal W} {CR : Crypto} {J : Json} {MJ : MembershipJson} {PJ : PersistJson}.
Implicit Types (n : Replica F W) (t : TCPTransport).

(** A connection changes a replica only after its peer has shown the key of a
    configured validator, under TLS with a certificate for the same name. *)
Lemma conn_authenticated t ident clock s n out n' :
  handleConn t ident clock s n = Some (out, n') -> (out, n') <> ([], n) ->
  exists id pub s', exchangeHello t ident "" s = Some (id, s') /\ validatorKeys t !! id = Some pub /\
    (tlsOn t = true -> ident = id).
Proof.
  unfold handleConn. destruct (exchangeHello t ident "" s) as [[id s']|] eqn:E; [|intros [= <- <-]; done].
  intros _ _. revert E. unfold exchangeHello. destruct (tID t) as [me|]; [|done].
  destruct (encodeHello (mkHello me (tPub t))) as [hb|]; [|done]. destruct (readWireLine s) as [[line s1]|]; [|done].
  destruct (json_unwire line) as [wm|]; simpl; [|done]. destruct (negb _); [done|].
  destruct (json_unhello (wmData wm)) as [h|]; simpl; [|done].
  destruct (tlsOn t && _)%bool eqn:Etls; [done|]. destruct (validatorKeys t !! heID h) as [k|] eqn:Ek; [|done].
  destruct (negb (bool_decide (hePub h = k))); [done|]. intros [= <- <-]. exists (heID h), k, s1. split_and!; [done|done|].
  intros Ht. rewrite Ht in Etls. simpl in Etls. apply orb_false_iff in Etls as [_ Etls].
  apply negb_false_iff in Etls. by apply String.eqb_eq.
Qed.

(** What the code relies on of [encoding/json]: an encoding is one line, and a
    line decodes to what was encoded. *)
Context (wire_line : forall wm b, json_wire wm = Ok b -> (nl ∉ b) /\ json_unwire (b ++ [nl]) = Some wm).
Context (body_decodes : forall m d, json_body m = Ok d -> json_unbody (kind_of m) d = Some m).
Context (hello_decodes : forall h d, json_hello h = Ok d -> json_unhello d = Some h).
#[local] Set Default Proof Using "wire_line body_decodes hello_decodes".

(** A framed message within the limit. *)
Definition framed_ok (m : Message) (b : bytes) : Prop :=
  encodeMsg m = Ok b /\ (N.of_nat (length b) < maxWireLine)%N.

Lemma framed_read m b rest :
  framed_ok m b -> exists line, readWireLine (b ++ rest) = Ok (line, rest) /\ decodeMsg line = Some m /\ b <> [].
Proof.
  intros [E Hb]. unfold encodeMsg in E. destruct (json_body m) as [d|] eqn:Ed; [|done].
  destruct (json_wire (mkWireMsg (kind_of m) d)) as [x|] eqn:Ex; [|done]. injection E as <-.
  destruct (wire_line _ _ Ex) as [Hnl Hu]. rewrite length_app in Hb. simpl in Hb.
  exists (x ++ [nl]). rewrite <- app_assoc. split_and!; [by apply readWireLine_line| |by destruct x].
  unfold decodeMsg. rewrite Hu. simpl. rewrite bool_decide_eq_true_2; [by apply body_decodes|].
  unfold kinds. destruct m; simpl; set_solver.
Qed.

Lemma readLoop_delivers t clock ms bs n fuel :
  is_Some (tID t) -> Forall2 framed_ok ms bs -> length ms <= fuel ->
  readLoop fuel t clock (concat bs) n = hs_run (imap (fun i m => (clock i, message_input m)) ms) n.
Proof.
  intros [me Hme] Hb. revert clock n fuel. induction Hb as [|m b ms bs Hmb _ IH]; intros clock n fuel Hf.
  { simpl. destruct fuel; [done|]. simpl. done. }
  destruct fuel as [|fuel]; [simpl in Hf; lia|]. cbn [concat readLoop imap hs_run].
  destruct (framed_read m b (concat bs) Hmb) as (line & -> & Hd & _). unfold dispatch. rewrite Hd, Hme.
  destruct (hs_step (clock 0) (message_input m) n) as [[out n1]|]; [|done]. cbn [fmap option_fmap option_map mbind option_bind].
  simpl in Hf. rewrite (IH (fun k => clock (1 + k)) n1 fuel ltac:(lia)). done.
Qed.

(** C27: the transport delivers: when a peer opens a connection, introduces itself
    with the key configured for it (and under TLS with a certificate for that
    name) and then sends messages as [send] frames them, each below the size
    limit, the replica handles exactly these messages, in their order, whatever
    the lengths of the lines are compared with the reader's buffer. *)
Theorem transport_delivers t me ours id pub ident clock hb ms bs n :
  tID t = Some me -> encodeHello (mkHello me (tPub t)) = Ok ours ->
  validatorKeys t !! id = Some pub -> (tlsOn t = true -> ident = id /\ id <> "") ->
  encodeHello (mkHello id pub) = Ok hb -> (N.of_nat (length hb) < maxWireLine)%N ->
  Forall2 framed_ok ms bs ->
  handleConn t ident clock (hb ++ concat bs) n = hs_run (imap (fun i m => (clock i, message_input m)) ms) n.
Proof.
  intros Hme Hours Hk Htls Eh Hlen Hms. unfold handleConn, exchangeHello. rewrite Hme, Hours.
  unfold encodeHello in Eh. destruct (json_hello (mkHello id pub)) as [d|] eqn:Ed; [|done].
  destruct (json_wire (mkWireMsg kindHello d)) as [x|] eqn:Ex; [|done]. injection Eh as <-.
  destruct (wire_line _ _ Ex) as [Hnl Hu]. rewrite length_app in Hlen. simpl in Hlen.
  rewrite <- app_assoc. cbn [app]. rewrite readWireLine_line by done. rewrite Hu.
  cbn [mbind option_bind wmKind wmData]. rewrite String.eqb_refl. cbn [negb].
  rewrite (hello_decodes _ _ Ed). cbn [mbind option_bind heID hePub].
  assert ((tlsOn t && (String.eqb ident "" || negb (String.eqb ident id)))%bool = false) as ->.
  { destruct (tlsOn t); [|done]. destruct (Htls eq_refl) as [-> Hne]. rewrite String.eqb_refl.
    by rewrite (proj2 (String.eqb_neq id "")). }
  rewrite Hk, bool_decide_eq_true_2 by done. simpl.
  apply readLoop_delivers; [by eexists|done|].
  clear -Hms wire_line body_decodes hello_decodes. induction Hms as [|m b ms bs Hmb _ IH]; simpl; [lia|].
  destruct (framed_read m b [] Hmb) as (_ & _ & _ & Hne). rewrite length_app. destruct b; simpl; [done|lia].
Qed.
End conn.

(** ** The address of a connection *)

(** A peer that is first contacted before its address is known keeps the empty
    address: registering the address later does not help, every further attempt
    dials the empty one. *)
Lemma late_address_never_dialled {WJ : WireJson} d d' t peer addr e :
  peerAddrs t !! peer = None -> conns t !! peer = None -> addr <> "" -> d' "" = Err e ->
  (get_peerConn d' (RegisterPeer peer addr (get_peerConn d t peer).2) peer).1 = Err e.
Proof.
  intros Hp Hc Ha Hd. unfold get_peerConn at 2. rewrite Hp, Hc. simpl. unfold get_peerConn. simpl.
  rewrite !lookup_insert_eq. simpl. rewrite (proj2 (String.eqb_neq addr "") Ha). by rewrite Hd.
Qed.

(** ** An example connection *)

Definition fetch_genesis : Fetch := mkFetch genesisID "a" "b".
Definition hello_b : Hello := mkHello "b" (key_of "b").

(** A codec for the Hello of [b] and one message. *)
Definition TinyWireJson : WireJson := {|
  json_wire wm := if decide (wmKind wm = "Hello" /\ wmData wm = key_of "b") then Ok (key_of "hello")
                  else if decide (wmKind wm = "Fetch" /\ wmData wm = key_of "g") then Ok (key_of "fetch")
                  else Err IOError;
  json_unwire b := if decide (b = key_of "hello" ++ [nl]) then Some (mkWireMsg "Hello" (key_of "b"))
                   else if decide (b = key_of "fetch" ++ [nl]) then Some (mkWireMsg "Fetch" (key_of "g")) else None;
  json_body m := match m with
                 | WFetch f => if String.eqb (feBlockID f) genesisID && String.eqb (feTo f) "a" && String.eqb (feFrom f) "b"
                               then Ok (key_of "g") else Err IOError
                 | _ => Err IOError
                 end;
  json_unbody k d := if decide (k = "Fetch" /\ d = key_of "g") then Some (WFetch fetch_genesis) else None;
  json_hello h := if decide (heID h = "b" /\ hePub h = key_of "b") then Ok (key_of "b") else Err IOError;
  json_unhello d := if decide (d = key_of "b") then Some hello_b else None
|}.

Lemma tiny_wire_line (wm : wireMsg) b :
  @json_wire TinyWireJson wm = Ok b -> (nl ∉ b) /\ @json_unwire TinyWireJson (b ++ [nl]) = Some wm.
Proof.
  simpl. destruct wm as [k d]. simpl. intros E. repeat case_decide; simplify_eq; destruct_and?; simplify_eq;
    (split; [apply (bool_decide_unpack _); vm_compute; exact Logic.I|vm_compute; reflexivity]).
Qed.

Lemma tiny_body_decodes (m : Message) d :
  @json_body TinyWireJson m = Ok d -> @json_unbody TinyWireJson (kind_of m) d = Some m.
Proof.
  destruct m as [| | |[i t f]| | |]; simpl; try done.
  destruct (String.eqb_spec i genesisID), (String.eqb_spec t "a"), (String.eqb_spec f "b"); simpl; try done.
  intros [= <-]. by subst.
Qed.

Lemma tiny_hello_decodes (h : Hello) d :
  @json_hello TinyWireJson h = Ok d -> @json_unhello TinyWireJson d = Some h.
Proof. destruct h. simpl. case_decide; [|done]. intros [= <-]. destruct_and?. by simplify_eq. Qed.

(** The transport of [b] talks to itself: its own key is configured too. *)
Definition tiny_transport : TCPTransport :=
  set_validatorKeys {["b" := key_of "b"]} (EnableTLS (SetNode "b" (key_of "b") NewTCPTransport)).

Lemma transport_delivers_witness :
  match member "a" with
  | Some n =>
      handleConn (WJ := TinyWireJson) tiny_transport "b" (fun _ => 7%Z)
        ((key_of "hello" ++ [nl]) ++ concat [key_of "fetch" ++ [nl]]) n
      = hs_run [(7%Z, HFetch fetch_genesis)] n /\ is_Some (hs_run [(7%Z, HFetch fetch_genesis)] n)
  | None => False
  end.
Proof.
  assert (match member "a" with Some _ => true | None => false end = true) as Hm by (vm_compute; reflexivity).
  destruct (member "a") as [n|]; [|discriminate Hm]. split; [|by eexists].
  apply (transport_delivers (WJ := TinyWireJson)) with (me := "b") (ours := key_of "hello" ++ [nl]) (id := "b")
    (pub := key_of "b") (ms := [WFetch fetch_genesis]).
  - exact tiny_wire_line.
  - exact tiny_body_decodes.
  - exact tiny_hello_decodes.
  - reflexivity.
  - reflexivity.
  - reflexivity.
  - intros _. split; [reflexivity|discriminate].
  - reflexivity.
  - reflexivity.
  - repeat constructor.
Defined.
