(* ===== verification/HotStuffConnect.v ===== *)
(** * Connecting to every validator (ConnectPeers of internal/hotstuff/tcp_transport.go)

    The dials of a node that starts: each peer in turn, again until it answers or the
    deadline has passed. One peer that is down delays the others but costs none of
    them their connection. *)

From S2P Require Import Prelude WalTypes HotStuffTypes HotStuff HotStuffProps HotStuffInstances HotStuffThms HotStuffTransport HotStuffTransportThms.

Section connect.
Context {WJ : WireJson}.

(** Attempts are numbered through the whole call: [net i] is what the network gives to
    attempt [i], and [clk i k] the time read after it when the call has slept [k]
    times. [None]: out of fuel. *)
Context (net : nat -> dial) (clk : nat -> nat -> Z) (deadline : Z).

Fixpoint connect_peer (fuel : nat) (peer : string) (i k : nat) (t : TCPTransport) : option (nat * nat * TCPTransport) :=
  match fuel with
  | O => None
  | S fuel' =>
      match get_peerConn (net i) t peer with
      | (Ok _, t) => Some (S i, k, t)
      | (Err _, t) => if (deadline <? clk i k)%Z then Some (S i, k, t) else connect_peer fuel' peer (S i) (S k) t
      end
  end.

Fixpoint connect_each (fuel : nat) (peers : list string) (i k : nat) (t : TCPTransport) : option TCPTransport :=
  match peers with
  | [] => Some t
  | p :: peers' => '(i, k, t) ← connect_peer fuel p i k t; connect_each fuel peers' i k t
  end.

Definition ConnectPeers (fuel : nat) (t : TCPTransport) : option TCPTransport :=
  connect_each fuel (map_to_list (peerAddrs t)).*1 0 0 t.

(** ** What an attempt changes *)

(** Connections were made with the address that their peer has. *)
Definition addrs_match (t : TCPTransport) : Prop :=
  forall p pc, conns t !! p = Some pc -> pcAddr pc = default "" (peerAddrs t !! p).

Definition up (t : TCPTransport) (p : string) : Prop := exists pc, conns t !! p = Some pc /\ pcUp pc = true.

(** Only the connections differ, and none of them is lost. *)
Definition grown (t t' : TCPTransport) : Prop :=
  t' = set_conns (conns t') t /\ (addrs_match t -> addrs_match t') /\ forall p, up t p -> up t' p.

#[local] Instance grown_preorder : PreOrder grown.
Proof.
  split.
  - intros []. done.
  - intros t1 t2 t3 (E1 & A1 & U1) (E2 & A2 & U2). repeat split; [|auto..]. rewrite E2, E1. done.
Qed.

(** The peer [p] answers: a dial to its address succeeds and its Hello is the right one. *)
Definition answers (t : TCPTransport) (p : string) : Prop :=
  default "" (peerAddrs t !! p) <> "" /\
  forall i, exists ident s r, net i (default "" (peerAddrs t !! p)) = Ok (ident, s) /\ exchangeHello t ident p s = Some r.

Lemma answers_grown t t' p : grown t t' -> answers t p -> answers t' p.
Proof. intros (-> & _). done. Qed.

Lemma conns_grown t p pc :
  pcAddr pc = default "" (peerAddrs t !! p) -> (up t p -> pcUp pc = true) ->
  grown t (set_conns (<[p := pc]> (conns t)) t).
Proof.
  intros Ha Hu. split; [done|]. split.
  - intros Hm q pc'. cbn. intros [[<- <-]|[? ?]]%lookup_insert_Some; auto.
  - intros q Hq. destruct (decide (p = q)) as [<-|Hne].
    + exists pc. cbn. rewrite lookup_insert_eq. auto.
    + destruct Hq as (pc' & ? & ?). exists pc'. cbn. by rewrite lookup_insert_ne.
Qed.

Lemma attempt_grows d t p :
  addrs_match t -> grown t (get_peerConn d t p).2 /\
    (forall pc, (get_peerConn d t p).1 = Ok pc -> up (get_peerConn d t p).2 p).
Proof.
  intros Hm. unfold get_peerConn.
  set (pc := default (mkPeerConn (default "" (peerAddrs t !! p)) false) (conns t !! p)).
  assert (pcAddr pc = default "" (peerAddrs t !! p)) as Ha.
  { unfold pc. destruct (conns t !! p) eqn:E; [by apply Hm|done]. }
  assert (up t p -> pcUp pc = true) as Hu. { intros (pc' & Hp & ?). unfold pc. by rewrite Hp. }
  pose proof (conns_grown t p pc Ha Hu) as Hg.
  case_match; cbn [fst snd]; [done|]. destruct (pcUp pc) eqn:Hup.
  { split; [done|]. intros ? _. exists pc. cbn. by rewrite lookup_insert_eq. }
  destruct (d (pcAddr pc)) as [[ident s]|e]; [|done].
  destruct (exchangeHello _ ident p s); [|done]. cbn. split.
  - rewrite insert_insert_eq.
    change (grown t (set_conns (<[p := mkPeerConn (pcAddr pc) true]> (conns t)) t)). by apply conns_grown.
  - intros ? _. eexists. cbn. by rewrite lookup_insert_eq.
Qed.

Lemma attempt_answered t p i :
  addrs_match t -> answers t p -> exists pc, (get_peerConn (net i) t p).1 = Ok pc.
Proof.
  intros Hm [Hne Ha]. unfold get_peerConn.
  set (pc := default (mkPeerConn (default "" (peerAddrs t !! p)) false) (conns t !! p)).
  assert (pcAddr pc = default "" (peerAddrs t !! p)) as Haddr.
  { unfold pc. destruct (conns t !! p) eqn:E; [by apply Hm|done]. }
  destruct (String.eqb_spec (default "" (peerAddrs t !! p)) "") as [|_]; [done|].
  destruct (pcUp pc); [eauto|]. destruct (Ha i) as (ident & s & r & Hn & Hx). rewrite Haddr, Hn.
  change (exchangeHello (set_conns (<[p:=pc]> (conns t)) t) ident p s) with (exchangeHello t ident p s).
  rewrite Hx. eauto.
Qed.

(** ** All peers *)

Section waits.
Context (start : Z) (K : nat).
Hypothesis Hclk : forall i k, (start + 10 * Z.of_nat k <= clk i k)%Z.
Hypothesis HK : (deadline < start + 10 * Z.of_nat K)%Z.

Lemma connect_peer_ends fuel p i k t :
  (K < fuel + k)%nat -> (0 < fuel)%nat -> addrs_match t ->
  exists i' k' t', connect_peer fuel p i k t = Some (i', k', t') /\ (k <= k')%nat /\ grown t t' /\
                   (answers t p -> up t' p).
Proof using Hclk HK.
  revert i k t. induction fuel as [|fuel IH]; intros i k t HKf Hf Hm; [lia|]. cbn.
  pose proof (attempt_grows (net i) t p Hm) as [Hg Hup]. pose proof (attempt_answered t p i Hm) as Hans.
  destruct (get_peerConn (net i) t p) as [[pc|e] t1]; cbn in *.
  { do 3 eexists. split; [done|]. split; [lia|]. split; [done|]. eauto. }
  assert (answers t p -> False) as Hno by (intros [? ?]%Hans; done).
  destruct (Z.ltb_spec deadline (clk i k)) as [|Hle].
  { do 3 eexists. split; [done|]. split; [lia|]. split; [done|]. by intros ?%Hno. }
  pose proof (Hclk i k). destruct (IH (S i) (S k) t1) as (i' & k' & t' & -> & Hk & Hg' & _);
    [lia|destruct fuel; lia|by apply Hg|].
  do 3 eexists. split; [done|]. split; [lia|]. split; [by etransitivity|]. by intros ?%Hno.
Qed.

Lemma connect_each_ends fuel peers i k t :
  (K < fuel + k)%nat -> (0 < fuel)%nat -> addrs_match t ->
  exists t', connect_each fuel peers i k t = Some t' /\ grown t t' /\
             forall p, p ∈ peers -> answers t p -> up t' p.
Proof using Hclk HK.
  revert i k t. induction peers as [|p peers IH]; intros i k t HKf Hf Hm; cbn.
  { exists t. split; [done|]. split; [done|]. by intros p ?%elem_of_nil. }
  destruct (connect_peer_ends fuel p i k t HKf Hf Hm) as (i' & k' & t1 & -> & Hk & Hg & Hp). cbn.
  destruct (IH i' k' t1) as (t' & -> & Hg' & Hall); [lia|done|by apply Hg|].
  exists t'. split; [done|]. split; [by etransitivity|].
  intros q [->|Hq]%elem_of_cons Ha; [by apply Hg', Hp|]. apply Hall; [done|]. by eapply answers_grown.
Qed.
End waits.
End connect.

(** A start that connects to its peers ends, and leaves it connected to every peer that
    answers, whatever the others do and in whatever order they are dialled: times are in
    milliseconds, time passes at least as fast as the call sleeps, and the fuel is one
    more than the sleeps until the deadline. *)
Theorem connect_reaches {WJ : WireJson} net clk start deadline fuel t :
  (forall i k, (start + 10 * Z.of_nat k <= clk i k)%Z) ->
  (deadline < start + 10 * Z.of_nat fuel - 10)%Z -> (0 < fuel)%nat -> addrs_match t ->
  exists t', ConnectPeers net clk deadline fuel t = Some t' /\
    t' = set_conns (conns t') t /\
    forall p, answers net t p -> up t' p.
Proof.
  intros Hclk Hd Hf Hm. unfold ConnectPeers.
  destruct (connect_each_ends net clk deadline start (fuel - 1) Hclk ltac:(lia) fuel (map_to_list (peerAddrs t)).*1 0 0 t)
    as (t' & Ht & (He & _) & Hup); [lia|done|done|].
  exists t'. split; [done|]. split; [done|]. intros p Hp. apply Hup; [|done].
  destruct Hp as [Hne _]. destruct (peerAddrs t !! p) as [a|] eqn:Ea; [|done].
  apply list_elem_of_fmap. exists (p, a). split; [done|]. by apply elem_of_map_to_list.
Qed.

(** Two peers, of which the first one dialled is down. *)
Definition two_peers : TCPTransport := RegisterPeer "b" "host:2" (RegisterPeer "a" "host:1" tiny_transport).
Definition half_net (_ : nat) : dial := fun addr => if String.eqb addr "host:2" then Ok ("b", key_of "hello" ++ [nl]) else Err IOError.

Lemma connect_reaches_example :
  exists t', ConnectPeers (WJ := TinyWireJson) half_net (fun i k => 10 * Z.of_nat k)%Z 25 5 two_peers = Some t' /\ up t' "b".
Proof.
  destruct (connect_reaches (WJ := TinyWireJson) half_net (fun i k => 10 * Z.of_nat k)%Z 0 25 5 two_peers)
    as (t' & Ht & _ & Hup); [lia|lia|lia|by intros p pc|].
  exists t'. split; [exact Ht|]. apply Hup. split; [vm_compute; discriminate|].
  intros i. exists "b", (key_of "hello" ++ [nl]), ("b", []). split; vm_compute; reflexivity.
Qed.
