(* ===== verification/HotStuffTls.v ===== *)
(** * Mutual TLS of the HotStuff transport (internal/hotstuff/tcp_transport.go)

    The configurations that the transport builds from its certificate material and
    caches, its listener, its dials, and one connection that it serves. The accept
    predicate of the listener reads the validators that are configured when a client
    connects, so a handshake takes the transport of that time. *)

From S2P Require Import Prelude WalTypes Mtls HotStuffTypes HotStuff HotStuffProps HotStuffInstances HotStuffThms HotStuffTransport HotStuffTransportThms.

Record Material : Type := mkMaterial { mCA : bytes; mCert : bytes; mKey : bytes }.

(** The material, the material that the listener's configuration was built from, and
    the configurations of dialers. *)
Record TlsState : Type := mkTlsState { tlsMaterial : option Material; serverTLS : option Material; peerTLS : gmap string TlsConfig }.

Definition noTLS : TlsState := mkTlsState None None ∅.

Definition EnableMaterial (m : Material) (x : TlsState) : TlsState := mkTlsState (Some m) (serverTLS x) ∅.

Section tls.
Context {X : X509}.

(** Hostname verification of [crypto/x509]: whether a certificate is for a name. *)
Context (host_ok : Certificate -> string -> bool).

(** The listener's configuration as it acts on a client that connects to [t]. *)
Definition listener_config (m : Material) (t : TCPTransport) : result TlsConfig :=
  Server (mCA m) (mCert m) (mKey m) (Some (acceptPeer t)).

Definition serverTLSConfig (m : Material) (x : TlsState) (t : TCPTransport) : result Material * TlsState :=
  match serverTLS x with
  | Some built => (Ok built, x)
  | None => match listener_config m t with
            | Err e => (Err e, x)
            | Ok _ => (Ok m, mkTlsState (tlsMaterial x) (Some m) (peerTLS x))
            end
  end.

Definition peerTLSConfig (m : Material) (peer : string) (x : TlsState) : result TlsConfig * TlsState :=
  match peerTLS x !! peer with
  | Some c => (Ok c, x)
  | None => match Client (mCA m) (mCert m) (mKey m) peer with
            | Err e => (Err e, x)
            | Ok cfg => (Ok cfg, mkTlsState (tlsMaterial x) (serverTLS x) (<[peer := cfg]> (peerTLS x)))
            end
  end.

(** The handshake of a dialer with a server that presents [rawCerts]: Go verifies the
    chain and the name. *)
Definition client_handshake (cfg : TlsConfig) (rawCerts : list bytes) : option Certificate :=
  leaf ← (head rawCerts ≫= parse_cert);
  if (chain_ok (tcCA cfg) leaf && host_ok leaf (tcServerName cfg))%bool then Some leaf else None.

(** [dialConn]: what the network gives is an error, or the certificates that the other
    side presents when asked and the bytes that it sends. The result is its identity
    and these bytes. *)
Definition dialConn (net : string -> result (list bytes * bytes)) (peer addr : string) (x : TlsState) : result (string * bytes) * TlsState :=
  match tlsMaterial x with
  | None => (match net addr with Err e => Err e | Ok (_, s) => Ok ("", s) end, x)
  | Some m =>
      match peerTLSConfig m peer x with
      | (Err e, x) => (Err e, x)
      | (Ok cfg, x) =>
          (match net addr with
           | Err e => Err e
           | Ok (rawCerts, s) => match client_handshake cfg rawCerts with
                                 | None => Err (Wrapped "tls: handshake")
                                 | Some leaf => Ok (PeerIdentity (Some [leaf]), s)
                                 end
           end, x)
      end
  end.

(** [Listen], given how binding the address went: the listener is plaintext or has the
    configuration of some material. *)
Definition Listen (bound : result string) (x : TlsState) (t : TCPTransport) : result (string * option Material) * TlsState :=
  match bound with
  | Err e => (Err e, x)
  | Ok addr =>
      match tlsMaterial x with
      | None => (Ok (addr, None), x)
      | Some m => match serverTLSConfig m x t with
                  | (Err e, x) => (Err e, x)
                  | (Ok built, x) => (Ok (addr, Some built), x)
                  end
      end
  end.

Section serving.
Context {WJ : WireJson} {F W : Type}.
Context {EX : Executor F W} {WW : Wal W} {CR : Crypto} {J : Json} {MJ : MembershipJson} {PJ : PersistJson}.
Implicit Types (n : Replica F W) (t : TCPTransport).

(** A connection of the listener. The handshake is made by its first read. *)
Definition serveTLS (lnTLS : option Material) t (rawCerts : list bytes) (clock : nat -> Z) (s : bytes) n
    : option (list Out * Replica F W) :=
  match lnTLS with
  | None => handleConn t "" clock s n
  | Some m =>
      match listener_config m t with
      | Err _ => Some ([], n)
      | Ok cfg => match handshake cfg rawCerts with
                  | None => Some ([], n)
                  | Some certs => handleConn t (PeerIdentity (Some certs)) clock s n
                  end
      end
  end.

(** ** Whom the transport talks to *)

(** Every configuration of a dialer was built for the peer it is kept for, from the
    material in use. *)
Definition tls_ok (x : TlsState) : Prop :=
  forall peer cfg, peerTLS x !! peer = Some cfg ->
    exists m, tlsMaterial x = Some m /\ Client (mCA m) (mCert m) (mKey m) peer = Ok cfg.

Lemma noTLS_ok : tls_ok noTLS.
Proof. by intros peer cfg. Qed.
Lemma EnableMaterial_ok m x : tls_ok (EnableMaterial m x).
Proof. by intros peer cfg. Qed.
Lemma Listen_ok bound x t : tls_ok x -> tls_ok (Listen bound x t).2.
Proof. intros Hx. unfold Listen, serverTLSConfig. repeat case_match; simplify_eq/=; try exact Hx; intros peer cfg Hp; destruct (Hx peer cfg Hp); naive_solver. Qed.

Lemma Client_config ca cert key peer cfg :
  Client ca cert key peer = Ok cfg -> tcCA cfg = ca /\ tcServerName cfg = peer.
Proof. unfold Client, pool. repeat case_match; intros [= <-]; simplify_eq; done. Qed.

(** A dial under TLS keeps the cache right, and what it reaches has a certificate of
    the CA for the name of the peer. *)
Lemma dialConn_pinned net peer addr x m :
  tls_ok x -> tlsMaterial x = Some m ->
  tls_ok (dialConn net peer addr x).2 /\
  forall ident s, (dialConn net peer addr x).1 = Ok (ident, s) ->
    exists leaf, chain_ok (mCA m) leaf = true /\ host_ok leaf peer = true /\ ident = Identity leaf.
Proof.
  intros Hx Hm. unfold dialConn. rewrite Hm.
  assert (forall cfg, Client (mCA m) (mCert m) (mKey m) peer = Ok cfg -> forall rawCerts leaf,
    client_handshake cfg rawCerts = Some leaf -> chain_ok (mCA m) leaf = true /\ host_ok leaf peer = true) as Hcfg.
  { intros cfg [<- <-]%Client_config rawCerts leaf. unfold client_handshake.
    destruct (head rawCerts ≫= parse_cert) as [c|]; [|done]. cbn.
    destruct (chain_ok (tcCA cfg) c && host_ok c (tcServerName cfg))%bool eqn:E; [|done]. intros [= <-].
    by apply andb_true_iff in E. }
  unfold peerTLSConfig. destruct (peerTLS x !! peer) as [cfg|] eqn:Ep.
  - destruct (Hx peer cfg Ep) as (m' & Hm' & Hc). rewrite Hm in Hm'. simplify_eq. split; [done|].
    intros ident s. cbn. repeat case_match; intros; simplify_eq. edestruct Hcfg; eauto.
  - destruct (Client _ _ _ peer) as [cfg|e] eqn:Ec; cbn; [|done]. split.
    + intros p c. cbn. intros [[<- <-]|[? ?]]%lookup_insert_Some; eauto.
    + intros ident s. repeat case_match; intros; simplify_eq. edestruct Hcfg; eauto.
Qed.

(** A listener that was started under TLS lets a connection act on the replica only
    when the client has a certificate of the CA for a configured validator and has
    said Hello with that validator's key. *)
Theorem served_authenticated bound x t addr lnTLS x' rawCerts clock s n out n' :
  is_Some (tlsMaterial x) -> tlsOn t = true -> Listen bound x t = (Ok (addr, lnTLS), x') ->
  serveTLS lnTLS t rawCerts clock s n = Some (out, n') -> (out, n') <> ([], n) ->
  exists m leaf pub s', lnTLS = Some m /\ chain_ok (mCA m) leaf = true /\
    validatorKeys t !! Identity leaf = Some pub /\ exchangeHello t (Identity leaf) "" s = Some (Identity leaf, s').
Proof.
  intros [m0 Hm] Htls Hl Hs Hch. unfold Listen in Hl. destruct bound; [|done]. rewrite Hm in Hl.
  destruct (serverTLSConfig m0 x t) as [[m|] x1]; simplify_eq.
  unfold serveTLS in Hs. destruct (listener_config m t) as [cfg|] eqn:Ec; [|by simplify_eq].
  destruct (handshake cfg rawCerts) as [certs|] eqn:Eh; [|by simplify_eq].
  destruct (handshake_identity _ _ _ _ _ _ _ Ec Eh) as (_ & _ & leaf & -> & Hchain).
  destruct (conn_authenticated _ _ _ _ _ _ _ Hs Hch) as (id & pub & s' & Hx & Hk & Hid).
  specialize (Hid Htls). cbn in *. subst id. eauto 10.
Qed.
End serving.
End tls.
