(* ===== verification/HotStuffListener.v ===== *)
(** * Connections of the HotStuff transport and its shutdown (internal/hotstuff/tcp_transport.go)

    The goroutines that share the transport: the accept loop, a read loop for each
    inbound connection, callers of [Close], and senders that dial a peer. A step is
    what one of them does between two points where another may run: a section
    under a mutex, or a call into the network. Sockets, the objects of type
    [peerConn] and the goroutines have numbers. What is read from a connection is
    in [HotStuffTransport]; here a read loop has a number of lines in its buffer. *)

From S2P Require Import Prelude.

(** [acceptLoop]: in [Accept]; before [trackInbound]; before closing a connection it
    may not handle; returned, [doneCh] closed. *)
Inductive AcceptPc : Type := AAccept | ATrack (c : nat) | ADrop (c : nat) | ADone.

(** [handleConn]: with [k] lines read but not yet dispatched; after closing its
    connection, before [untrackInbound]. *)
Inductive HandlePc : Type := HServe (k : nat) | HUntrack.

(** The method [peerConn], with the object it looked up: before looking for a
    connection, before dialling, and with a socket whose Hellos were exchanged. *)
Inductive DialPc : Type := DCheck (o : nat) | DDial (o : nat) | DStore (o c : nat).

Record Shared : Type := mkShared {
  stopCh : bool;                       (* closed *)
  lnOpen : bool;
  acceptPc : AcceptPc;
  inbound : gset nat;
  handlers : gmap nat HandlePc;
  conns : gmap string nat;             (* the [peerConn] of a peer *)
  objects : gmap nat (option nat);     (* the socket of a [peerConn] *)
  dials : gmap nat DialPc;
  sockIn : gset nat;                   (* open sockets, accepted *)
  sockOut : gset nat;                  (* and dialled *)
  toStop : nat;                        (* callers of [Close] before closing [stopCh] *)
  toLock : nat;                        (* and before [connMu] *)
  returned : bool;                     (* a call of [Close] has returned *)
  fresh : nat
}.

(** A transport that listens. *)
Definition listening : Shared := mkShared false true AAccept ∅ ∅ ∅ ∅ ∅ ∅ ∅ 0 0 false 0.

Definition set_accept a s := mkShared (stopCh s) (lnOpen s) a (inbound s) (handlers s) (conns s) (objects s) (dials s) (sockIn s) (sockOut s) (toStop s) (toLock s) (returned s) (fresh s).
Definition set_inbound i s := mkShared (stopCh s) (lnOpen s) (acceptPc s) i (handlers s) (conns s) (objects s) (dials s) (sockIn s) (sockOut s) (toStop s) (toLock s) (returned s) (fresh s).
Definition set_handlers h s := mkShared (stopCh s) (lnOpen s) (acceptPc s) (inbound s) h (conns s) (objects s) (dials s) (sockIn s) (sockOut s) (toStop s) (toLock s) (returned s) (fresh s).
Definition set_objects o s := mkShared (stopCh s) (lnOpen s) (acceptPc s) (inbound s) (handlers s) (conns s) o (dials s) (sockIn s) (sockOut s) (toStop s) (toLock s) (returned s) (fresh s).
Definition set_dials d s := mkShared (stopCh s) (lnOpen s) (acceptPc s) (inbound s) (handlers s) (conns s) (objects s) d (sockIn s) (sockOut s) (toStop s) (toLock s) (returned s) (fresh s).
Definition set_sockIn k s := mkShared (stopCh s) (lnOpen s) (acceptPc s) (inbound s) (handlers s) (conns s) (objects s) (dials s) k (sockOut s) (toStop s) (toLock s) (returned s) (fresh s).
Definition set_sockOut k s := mkShared (stopCh s) (lnOpen s) (acceptPc s) (inbound s) (handlers s) (conns s) (objects s) (dials s) (sockIn s) k (toStop s) (toLock s) (returned s) (fresh s).
Definition set_fresh f s := mkShared (stopCh s) (lnOpen s) (acceptPc s) (inbound s) (handlers s) (conns s) (objects s) (dials s) (sockIn s) (sockOut s) (toStop s) (toLock s) (returned s) f.
Definition set_conn p o s := mkShared (stopCh s) (lnOpen s) (acceptPc s) (inbound s) (handlers s) (<[p := o]> (conns s)) (objects s) (dials s) (sockIn s) (sockOut s) (toStop s) (toLock s) (returned s) (fresh s).

(** ** The accept loop *)

(** What [ln.Accept] gives: a connection, the error of a closed listener, or
    another error. *)
Inductive Accepted : Type := Conn | Closed | Transient.

Definition accept (r : Accepted) (s : Shared) : option Shared :=
  match acceptPc s, r, lnOpen s with
  | AAccept, Conn, true =>
      let c := fresh s in Some (set_accept (ATrack c) (set_sockIn ({[ c ]} ∪ sockIn s) (set_fresh (S c) s)))
  | AAccept, Closed, false => Some (set_accept ADone s)
  | AAccept, Transient, true => Some (if stopCh s then set_accept ADone s else s)
  | _, _, _ => None
  end.

Definition trackInbound (s : Shared) : option Shared :=
  match acceptPc s with
  | ATrack c =>
      Some (if stopCh s then set_accept (ADrop c) s
            else set_accept AAccept (set_inbound ({[ c ]} ∪ inbound s) (set_handlers (<[c := HServe 0]> (handlers s)) s)))
  | _ => None
  end.

Definition drop_inbound (s : Shared) : option Shared :=
  match acceptPc s with
  | ADrop c => Some (set_accept ADone (set_sockIn (sockIn s ∖ {[ c ]}) s))
  | _ => None
  end.

(** ** A read loop *)

(** The reader takes [k] more lines off an open connection. *)
Definition fill (c k : nat) (s : Shared) : option Shared :=
  match handlers s !! c with
  | Some (HServe 0) => if decide (c ∈ sockIn s) then Some (set_handlers (<[c := HServe (S k)]> (handlers s)) s) else None
  | _ => None
  end.
Definition handle_line (c : nat) (s : Shared) : option Shared :=
  match handlers s !! c with
  | Some (HServe (S k)) => Some (set_handlers (<[c := HServe k]> (handlers s)) s)
  | _ => None
  end.
(** A failed handshake, read or dispatch ends the loop. *)
Definition end_conn (c : nat) (s : Shared) : option Shared :=
  match handlers s !! c with
  | Some (HServe _) => Some (set_sockIn (sockIn s ∖ {[ c ]}) (set_handlers (<[c := HUntrack]> (handlers s)) s))
  | _ => None
  end.
Definition untrackInbound (c : nat) (s : Shared) : option Shared :=
  match handlers s !! c with
  | Some HUntrack => Some (set_inbound (inbound s ∖ {[ c ]}) (set_handlers (delete c (handlers s)) s))
  | _ => None
  end.

(** ** Dialling *)

(** The object of a peer, made when there is none; a known peer is then looked at. *)
Definition peerConn_lookup (p : string) (known : bool) (s : Shared) : Shared :=
  let '(o, s) := match conns s !! p with
                 | Some o => (o, s)
                 | None => let o := fresh s in (o, set_conn p o (set_objects (<[o := None]> (objects s)) (set_fresh (S o) s)))
                 end in
  if known then set_dials (<[fresh s := DCheck o]> (dials s)) (set_fresh (S (fresh s)) s) else s.

Definition peerConn_check (g : nat) (s : Shared) : option Shared :=
  match dials s !! g with
  | Some (DCheck o) =>
      Some (match objects s !! o with
            | Some (Some _) => set_dials (delete g (dials s)) s
            | _ => set_dials (<[g := DDial o]> (dials s)) s
            end)
  | _ => None
  end.

(** [dialConn] and [exchangeHello]: when either fails no connection is left open. *)
Definition peerConn_dial (g : nat) (ok : bool) (s : Shared) : option Shared :=
  match dials s !! g with
  | Some (DDial o) =>
      let c := fresh s in
      Some (if ok then set_dials (<[g := DStore o c]> (dials s)) (set_sockOut ({[ c ]} ∪ sockOut s) (set_fresh (S c) s))
            else set_dials (delete g (dials s)) s)
  | _ => None
  end.

Definition peerConn_store (g : nat) (s : Shared) : option Shared :=
  match dials s !! g with
  | Some (DStore o c) =>
      let s := set_dials (delete g (dials s)) s in
      Some (match objects s !! o with
            | Some (Some _) => set_sockOut (sockOut s ∖ {[ c ]}) s
            | _ => set_objects (<[o := Some c]> (objects s)) s
            end)
  | _ => None
  end.

(** A write of [send] on the object [o] fails. *)
Definition send_fails (o : nat) (s : Shared) : option Shared :=
  match objects s !! o with
  | Some (Some c) => Some (set_objects (<[o := None]> (objects s)) (set_sockOut (sockOut s ∖ {[ c ]}) s))
  | _ => None
  end.

(** ** [Close] *)

Definition Close_call (s : Shared) : Shared :=
  mkShared (stopCh s) (lnOpen s) (acceptPc s) (inbound s) (handlers s) (conns s) (objects s) (dials s) (sockIn s) (sockOut s) (S (toStop s)) (toLock s) (returned s) (fresh s).

(** [closeOnce] closes [stopCh]. *)
Definition Close_stop (s : Shared) : option Shared :=
  match toStop s with
  | O => None
  | S k => Some (mkShared true (lnOpen s) (acceptPc s) (inbound s) (handlers s) (conns s) (objects s) (dials s) (sockIn s) (sockOut s) k (S (toLock s)) (returned s) (fresh s))
  end.

Definition live_objects (s : Shared) : gset nat := list_to_set ((map_to_list (conns s)).*2).
Definition close_object (live : gset nat) (o : nat) (x : option nat) : option nat := if decide (o ∈ live) then None else x.
Definition live_sockets (s : Shared) : gset nat :=
  list_to_set (omap (fun ox : nat * option nat => if decide (ox.1 ∈ live_objects s) then ox.2 else None) (map_to_list (objects s))).

(** The section under [connMu]. *)
Definition Close_locked (s : Shared) : option Shared :=
  match toLock s with
  | O => None
  | S k => Some (mkShared (stopCh s) false (acceptPc s) ∅ (handlers s) ∅
                   (map_imap (fun o x => Some (close_object (live_objects s) o x)) (objects s)) (dials s)
                   (sockIn s ∖ inbound s) (sockOut s ∖ live_sockets s) (toStop s) k true (fresh s))
  end.

(** ** Runs *)

Inductive Event : Type :=
| EAccept (r : Accepted) | ETrack | EDrop
| EFill (c k : nat) | ELine (c : nat) | EEnd (c : nat) | EUntrack (c : nat)
| ELookup (p : string) (known : bool) | ECheck (g : nat) | EDial (g : nat) (ok : bool) | EStore (g : nat) | ESendFails (o : nat)
| EClose | ECloseStop | ECloseLocked.

Definition step (s : Shared) (e : Event) : option Shared :=
  match e with
  | EAccept r => accept r s
  | ETrack => trackInbound s
  | EDrop => drop_inbound s
  | EFill c k => fill c k s
  | ELine c => handle_line c s
  | EEnd c => end_conn c s
  | EUntrack c => untrackInbound c s
  | ELookup p known => Some (peerConn_lookup p known s)
  | ECheck g => peerConn_check g s
  | EDial g ok => peerConn_dial g ok s
  | EStore g => peerConn_store g s
  | ESendFails o => send_fails o s
  | EClose => Some (Close_call s)
  | ECloseStop => Close_stop s
  | ECloseLocked => Close_locked s
  end.

Fixpoint run (s : Shared) (es : list Event) : option Shared :=
  match es with [] => Some s | e :: es' => s' ← step s e; run s' es' end.

(** The steps of the accept loop and the read loops. *)
Definition own (e : Event) : bool :=
  match e with EAccept _ | ETrack | EDrop | EFill _ _ | ELine _ | EEnd _ | EUntrack _ => true | _ => false end.

(** A sender dials while the transport is closed: its connection stays open. *)
Definition late_dial : list Event :=
  [ELookup "b" true; ECheck 1; EClose; ECloseStop; ECloseLocked; EDial 1 true; EStore 1; EAccept Closed; EClose; ECloseStop; ECloseLocked].

(** * Shutting the HotStuff transport down

    After [Close] every accepted connection is closed and every goroutine of the
    transport ends; outbound connections are closed too when no dial is under way.
    A dial that is under way outlives the transport. *)

Definition held (s : Shared) (c : nat) : Prop := acceptPc s = ATrack c \/ acceptPc s = ADrop c.

(** Of accepted connections. *)
Record in_ok (s : Shared) : Prop := mkInOk {
  io_returned : returned s = true -> stopCh s = true /\ lnOpen s = false /\ inbound s = ∅;
  io_toLock : (0 < toLock s)%nat -> stopCh s = true;
  io_open c : c ∈ sockIn s -> held s c \/ (c ∈ inbound s /\ exists k, handlers s !! c = Some (HServe k));
  io_held c : held s c -> (c < fresh s)%nat /\ handlers s !! c = None;
  io_handlers c h : handlers s !! c = Some h -> (c < fresh s)%nat
}.

Ltac open_step :=
  repeat match goal with
  | H : context [match ?x with _ => _ end] |- _ => let E := fresh "E" in destruct x eqn:E; try discriminate
  end; simplify_eq/=.

Lemma in_ok_listening : in_ok listening.
Proof. split; cbn; try done; try set_solver; try lia. intros c [?|?]; done. Qed.

(** Dialling leaves the inbound side alone. *)
Definition same_in (s s' : Shared) : Prop :=
  (stopCh s', lnOpen s', acceptPc s', inbound s', handlers s', sockIn s') =
  (stopCh s, lnOpen s, acceptPc s, inbound s, handlers s, sockIn s) /\
  (toLock s', returned s') = (toLock s, returned s) /\ (fresh s <= fresh s')%nat.

Definition dialling (e : Event) : bool :=
  match e with ELookup _ _ | ECheck _ | EDial _ _ | EStore _ | ESendFails _ | EClose => true | _ => false end.

Lemma dialling_same_in s e s' : dialling e = true -> step s e = Some s' -> same_in s s'.
Proof.
  intros Hd Hs. destruct e; try discriminate Hd; cbn [step] in Hs;
    unfold peerConn_lookup, peerConn_check, peerConn_dial, peerConn_store, send_fails, Close_call in Hs;
    open_step; repeat split; cbn; lia.
Qed.

Lemma in_ok_same s s' : same_in s s' -> in_ok s -> in_ok s'.
Proof.
  intros ([= E1 E2 E3 E4 E5 E6] & [= E7 E8] & Hf) [Hr Hl Ho Hh Hd].
  split; unfold held in *; rewrite ?E1, ?E2, ?E3, ?E4, ?E5, ?E6, ?E7, ?E8; try done.
  - intros c Hc. destruct (Hh c Hc). split; [lia|done].
  - intros c h Hc. specialize (Hd c h Hc). lia.
Qed.

(** The connections that stay what they were, when the accept loop holds none. *)
Lemma open_tracked s c :
  in_ok s -> acceptPc s = AAccept -> c ∈ sockIn s -> c ∈ inbound s /\ exists k, handlers s !! c = Some (HServe k).
Proof. intros Hs Ha Hc. destruct (io_open s Hs c Hc) as [[?|?]|?]; [congruence..|done]. Qed.

Lemma accept_in_ok r s s' : accept r s = Some s' -> in_ok s -> in_ok s'.
Proof.
  intros Hs H. pose proof (open_tracked s) as Ht. destruct H as [Hr Hl Ho Hh Hd] eqn:E; clear E.
  unfold accept in Hs. destruct (acceptPc s) eqn:Ea; [|done..].
  destruct r, (lnOpen s) eqn:El; simplify_eq/=.
  - split; unfold held; cbn; try done.
    + intros Hret. destruct (Hr Hret) as (?&?&?). congruence.
    + intros c [->%elem_of_singleton|Hc]%elem_of_union; [by left; left|right; by apply Ht].
    + intros c [[= <-]|[=]]. split; [lia|]. destruct (handlers s !! fresh s) eqn:Eh; [|done]. specialize (Hd _ _ Eh). lia.
    + intros c h Hc. specialize (Hd c h Hc). lia.
  - split; unfold held; cbn; try done; [by rewrite El|intros c Hc; right; by apply Ht|by intros c [?|?]].
  - destruct (stopCh s) eqn:Es; [|done].
    split; unfold held; cbn; try done; [by rewrite El, Es|intros c Hc; right; by apply Ht|by intros c [?|?]].
Qed.

Lemma trackInbound_in_ok s s' : trackInbound s = Some s' -> in_ok s -> in_ok s'.
Proof.
  intros Hs [Hr Hl Ho Hh Hd]. unfold trackInbound in Hs.
  destruct (acceptPc s) as [|c| |] eqn:Ea; [done| |done..].
  destruct (Hh c) as [Hc Hn]; [by left|].
  destruct (stopCh s) eqn:Es; simplify_eq/=; split; unfold held; cbn; try done.
  - by rewrite Es.
  - intros c' Hc'. destruct (Ho c' Hc') as [[?|?]|?]; [left; right; congruence|congruence|by right].
  - intros c' [[=]|[= <-]]. done.
  - intros Hret. by destruct (Hr Hret) as (?&?&?).
  - by rewrite Es.
  - intros c' Hc'. right. destruct (Ho c' Hc') as [[Hx|?]|[? [k Hk]]]; [rewrite Ea in Hx; simplify_eq; split; [by apply elem_of_union_l, elem_of_singleton_2|exists 0%nat; by rewrite lookup_insert_eq]|congruence|].
    split; [by apply elem_of_union_r|]. exists k. by rewrite lookup_insert_ne by congruence.
  - by intros c' [?|?].
  - intros c' h [[<- <-]|[? ?]]%lookup_insert_Some; eauto.
Qed.

Lemma drop_inbound_in_ok s s' : drop_inbound s = Some s' -> in_ok s -> in_ok s'.
Proof.
  intros Hs [Hr Hl Ho Hh Hd]. unfold drop_inbound in Hs.
  destruct (acceptPc s) as [| |c|] eqn:Ea; [done..| |done]. simplify_eq/=. split; unfold held; cbn; try done.
  - intros c' [Hc' Hne]%elem_of_difference. destruct (Ho c' Hc') as [[?|Hx]|?]; [congruence|by rewrite Ea in Hx; simplify_eq; destruct Hne; apply elem_of_singleton_2|by right].
  - by intros c' [?|?].
Qed.

(** A read loop changes its own state. *)
Lemma handler_in_ok s c h h' s' :
  handlers s !! c = Some h -> s' = set_handlers (<[c := h']> (handlers s)) s ->
  (c ∈ sockIn s -> exists k, h' = HServe k) -> in_ok s -> in_ok s'.
Proof.
  intros Hc -> Hk [Hr Hl Ho Hh Hd]. split; unfold held; cbn; try done.
  - intros c' Hc'. destruct (Ho c' Hc') as [?|[? [k ?]]]; [by left|right; split; [done|]].
    destruct (decide (c' = c)) as [->|]; [rewrite lookup_insert_eq; destruct (Hk Hc') as [k' ->]; eauto|
      rewrite lookup_insert_ne by done; eauto].
  - intros c' Hc'. destruct (Hh c' Hc') as [? Hn]. split; [done|]. rewrite lookup_insert_ne by congruence. done.
  - intros c' ? [[<- <-]|[? ?]]%lookup_insert_Some; eauto.
Qed.

Lemma shut_in_ok s c : in_ok s -> in_ok (set_sockIn (sockIn s ∖ {[ c ]}) s).
Proof. intros [Hr Hl Ho Hh Hd]. split; unfold held; cbn; try done. intros c' [Hc' _]%elem_of_difference. by apply Ho. Qed.

Lemma untrack_in_ok s s' c : untrackInbound c s = Some s' -> in_ok s -> in_ok s'.
Proof.
  intros Hs [Hr Hl Ho Hh Hd]. unfold untrackInbound in Hs.
  destruct (handlers s !! c) as [[]|] eqn:Ec; simplify_eq/=. split; unfold held; cbn; try done.
  - intros Hret. destruct (Hr Hret) as (?&?&Hi). repeat split; [done..|]. rewrite Hi. clear. set_solver.
  - intros c' Hc'. destruct (Ho c' Hc') as [?|[? [k Hk]]]; [by left|right].
    assert (c' <> c) by congruence. split; [by apply elem_of_difference; rewrite elem_of_singleton|]. exists k. by rewrite lookup_delete_ne.
  - intros c' Hc'. destruct (Hh c' Hc') as [? Hn]. split; [done|]. apply lookup_delete_None. by right.
  - intros c' h [? ?]%lookup_delete_Some. eauto.
Qed.

Lemma Close_stop_in_ok s s' : Close_stop s = Some s' -> in_ok s -> in_ok s'.
Proof.
  intros Hs [Hr Hl Ho Hh Hd]. unfold Close_stop in Hs. destruct (toStop s); [done|]. simplify_eq/=.
  split; unfold held; cbn; try done. intros Hret. by destruct (Hr Hret) as (?&?&?).
Qed.

Lemma Close_locked_in_ok s s' : Close_locked s = Some s' -> in_ok s -> in_ok s'.
Proof.
  intros Hs [Hr Hl Ho Hh Hd]. unfold Close_locked in Hs. destruct (toLock s) eqn:El; [done|]. simplify_eq/=.
  split; unfold held; cbn; try done.
  - intros _. repeat split; auto. apply Hl. lia.
  - intros _. apply Hl. lia.
  - intros c [Hc Hni]%elem_of_difference. destruct (Ho c Hc) as [?|[? _]]; [by left|done].
Qed.

Lemma step_in_ok s e s' : step s e = Some s' -> in_ok s -> in_ok s'.
Proof.
  intros Hs Hok. destruct (dialling e) eqn:Hd; [by eapply in_ok_same; [eapply dialling_same_in|]|].
  destruct e; try discriminate Hd; cbn [step] in Hs.
  - by eapply accept_in_ok.
  - by eapply trackInbound_in_ok.
  - by eapply drop_inbound_in_ok.
  - unfold fill in Hs. open_step. eapply handler_in_ok; eauto.
  - unfold handle_line in Hs. open_step. eapply handler_in_ok; eauto.
  - unfold end_conn in Hs. open_step.
    assert (in_ok (set_sockIn (sockIn s ∖ {[ c ]}) s)) as Hs2 by by apply shut_in_ok.
    eapply (handler_in_ok (set_sockIn (sockIn s ∖ {[ c ]}) s)); [done|reflexivity| |done]. cbn. intros [_ []%not_elem_of_singleton]%elem_of_difference; done.
  - by eapply untrack_in_ok.
  - by eapply Close_stop_in_ok.
  - by eapply Close_locked_in_ok.
Qed.

Lemma run_in_ok s es s' : run s es = Some s' -> in_ok s -> in_ok s'.
Proof.
  revert s. induction es as [|e es IH]; intros s Hrun Hok; cbn in Hrun; [by simplify_eq|].
  destruct (step s e) as [s1|] eqn:He; [|done]. eapply IH; [done|]. by eapply step_in_ok.
Qed.

(** ** The goroutines end *)

Definition weight (h : HandlePc) : nat := match h with HServe k => k + 2 | HUntrack => 1 end.
Definition total (hs : gmap nat HandlePc) : nat := map_fold (fun _ h n => weight h + n)%nat 0%nat hs.
Definition accept_work (a : AcceptPc) : nat := match a with AAccept => 1 | ATrack _ => 2 | ADrop _ => 1 | ADone => 0 end.

(** The steps that the goroutines of a closed transport have left. *)
Definition work (s : Shared) : nat := accept_work (acceptPc s) + total (handlers s).

Lemma total_delete hs c h : hs !! c = Some h -> total hs = (weight h + total (delete c hs))%nat.
Proof. intros Hc. unfold total. apply (map_fold_delete_L (fun _ h n => weight h + n)%nat 0%nat c h hs); [intros; lia|done]. Qed.
Lemma total_insert hs c h h' :
  hs !! c = Some h -> (total (<[c := h']> hs) + weight h)%nat = (total hs + weight h')%nat.
Proof.
  intros Hc. rewrite (total_delete hs c h Hc), (total_delete (<[c := h']> hs) c h') by apply lookup_insert_eq.
  rewrite delete_insert_eq. lia.
Qed.

Lemma handlers_shut s c h : in_ok s -> returned s = true -> handlers s !! c = Some h -> c ∉ sockIn s.
Proof.
  intros Hs Hret Hc Hin. destruct (io_returned s Hs Hret) as (_ & _ & Hi).
  destruct (io_open s Hs c Hin) as [Hh|[Hx _]]; [destruct (io_held s Hs c Hh); congruence|].
  rewrite Hi in Hx. by apply elem_of_empty in Hx.
Qed.

Lemma returned_step s e s' : step s e = Some s' -> returned s = true -> returned s' = true.
Proof.
  intros Hs Hr. destruct (dialling e) eqn:Hd; [by destruct (dialling_same_in s e s' Hd Hs) as (_ & [= _ ->] & _)|].
  destruct e; try discriminate Hd; cbn [step] in Hs;
    unfold accept, trackInbound, drop_inbound, fill, handle_line, end_conn, untrackInbound, Close_stop, Close_locked in Hs;
    open_step; done.
Qed.

(** After a [Close], a step of the transport's goroutines uses up work; no step adds any. *)
Lemma step_work s e s' :
  in_ok s -> returned s = true -> step s e = Some s' ->
  (work s' + (if own e then 1 else 0) <= work s)%nat.
Proof.
  intros Hok Hr Hs. destruct (io_returned s Hok Hr) as (Hst & Hln & _).
  destruct (dialling e) eqn:Hd.
  { destruct (dialling_same_in s e s' Hd Hs) as ([= _ _ E3 _ E5 _] & _). unfold work. rewrite E3, E5.
    destruct e; try discriminate Hd; cbn; lia. }
  destruct e; try discriminate Hd; cbn [step own] in *; unfold work.
  - unfold accept in Hs. rewrite Hln in Hs. destruct (acceptPc s), r; simplify_eq/=; lia.
  - unfold trackInbound in Hs. rewrite Hst in Hs. destruct (acceptPc s); simplify_eq/=; lia.
  - unfold drop_inbound in Hs. destruct (acceptPc s); simplify_eq/=; lia.
  - unfold fill in Hs. destruct (handlers s !! c) as [[[]|]|] eqn:Ec; simplify_eq/=.
    case_decide as Hin; [|done]. by destruct (handlers_shut s c _ Hok Hr Ec).
  - unfold handle_line in Hs. destruct (handlers s !! c) as [[[]|]|] eqn:Ec; simplify_eq/=.
    pose proof (total_insert (handlers s) c _ (HServe n) Ec). cbn in *. lia.
  - unfold end_conn in Hs. destruct (handlers s !! c) as [[]|] eqn:Ec; simplify_eq/=.
    pose proof (total_insert (handlers s) c _ HUntrack Ec). cbn in *. lia.
  - unfold untrackInbound in Hs. destruct (handlers s !! c) as [[]|] eqn:Ec; simplify_eq/=.
    pose proof (total_delete (handlers s) c _ Ec). cbn in *. lia.
  - unfold Close_stop in Hs. destruct (toStop s); simplify_eq/=; lia.
  - unfold Close_locked in Hs. destruct (toLock s); simplify_eq/=; lia.
Qed.

Lemma run_work s es s' :
  in_ok s -> returned s = true -> run s es = Some s' ->
  returned s' = true /\ (work s' + length (filter own es) <= work s)%nat.
Proof.
  revert s. induction es as [|e es IH]; intros s Hok Hr Hrun; cbn in Hrun; [simplify_eq; cbn; split; [done|lia]|].
  destruct (step s e) as [s1|] eqn:He; [|done]. cbn in Hrun.
  pose proof (step_work s e s1 Hok Hr He).
  destruct (IH s1) as [Hr' Hw]; [by eapply step_in_ok|by eapply returned_step|done|].
  split; [done|]. rewrite filter_cons. case_decide as Ho; destruct (own e); cbn in *; try done; try lia.
Qed.

(** A closed transport none of whose goroutines can go on has none. *)
Lemma stuck_done s :
  in_ok s -> returned s = true -> (forall e, own e = true -> step s e = None) ->
  acceptPc s = ADone /\ handlers s = ∅ /\ sockIn s = ∅.
Proof.
  intros Hok Hr Hstuck. destruct (io_returned s Hok Hr) as (Hst & Hln & Hi).
  assert (acceptPc s = ADone) as Ha.
  { specialize (Hstuck (EAccept Closed) eq_refl) as H1. specialize (Hstuck ETrack eq_refl) as H2.
    specialize (Hstuck EDrop eq_refl) as H3. cbn in *. unfold accept, trackInbound, drop_inbound in *.
    rewrite Hln in H1. by destruct (acceptPc s). }
  split; [done|].
  assert (handlers s = ∅) as Hh.
  { apply map_empty. intros c. destruct (handlers s !! c) as [[k|]|] eqn:Ec; [| |done].
    - specialize (Hstuck (EEnd c) eq_refl). cbn in Hstuck. unfold end_conn in Hstuck. by rewrite Ec in Hstuck.
    - specialize (Hstuck (EUntrack c) eq_refl). cbn in Hstuck. unfold untrackInbound in Hstuck. by rewrite Ec in Hstuck. }
  split; [done|]. apply set_eq. intros c. split; [|by intros ?%elem_of_empty].
  intros Hc. destruct (io_open s Hok c Hc) as [[?|?]|[_ [k Hk]]]; [congruence..|].
  by rewrite Hh, lookup_empty in Hk.
Qed.

(** C12: closing the transport ends it. Whatever the accept loop, the read loops,
    senders and callers of Close do in whatever order, once a call of Close has
    returned, the accept loop and the read loops take together at most [work] steps
    more, however other goroutines go on; and when none of them can take a step, the
    accept loop and all read loops have returned and every connection that was ever
    accepted is closed. *)
Theorem close_quiesces es s es' s' :
  run listening es = Some s -> returned s = true -> run s es' = Some s' ->
  (length (filter own es') <= work s)%nat /\
  ((forall e, own e = true -> step s' e = None) -> acceptPc s' = ADone /\ handlers s' = ∅ /\ sockIn s' = ∅).
Proof.
  intros H1 Hr H2. assert (in_ok s) as Hok by (eapply run_in_ok; eauto using in_ok_listening).
  destruct (run_work s es' s' Hok Hr H2) as [Hr' Hw]. split; [lia|].
  apply stuck_done; [by eapply run_in_ok|done].
Qed.

(** ** Outbound connections *)

Definition dial_object (d : DialPc) : nat := match d with DCheck o | DDial o | DStore o _ => o end.
Definition stored (s : Shared) (c : nat) : Prop := exists p o, conns s !! p = Some o /\ objects s !! o = Some (Some c).

(** Until [Close]: an open outbound connection is that of a peer, or of a dial under way. *)
Record out_ok (s : Shared) : Prop := mkOutOk {
  oo_open c : c ∈ sockOut s -> (exists g o, dials s !! g = Some (DStore o c)) \/ stored s c;
  oo_dials g d : dials s !! g = Some d -> (g < fresh s)%nat /\ exists p, conns s !! p = Some (dial_object d);
  oo_objects o x : objects s !! o = Some x -> (o < fresh s)%nat;
  oo_conns p o : conns s !! p = Some o -> is_Some (objects s !! o)
}.

Definition same_out (s s' : Shared) : Prop :=
  (conns s', objects s', dials s', sockOut s') = (conns s, objects s, dials s, sockOut s) /\ (fresh s <= fresh s')%nat.

Lemma out_ok_same s s' : same_out s s' -> out_ok s -> out_ok s'.
Proof.
  intros ([= E1 E2 E3 E4] & Hf) [Ho Hd Hb Hc0]. split; unfold stored; rewrite ?E1, ?E2, ?E3, ?E4; try done.
  - intros g d Hg. destruct (Hd g d Hg). split; [lia|done].
  - intros o x Hx. specialize (Hb o x Hx). lia.
Qed.

Lemma same_out_step s e s' :
  dialling e = false -> e <> ECloseLocked -> step s e = Some s' -> same_out s s'.
Proof.
  intros Hd Hne Hs. destruct e; try discriminate Hd; try done; cbn [step] in Hs;
    unfold accept, trackInbound, drop_inbound, fill, handle_line, end_conn, untrackInbound, Close_stop in Hs;
    open_step; repeat split; cbn; lia.
Qed.

Lemma dials_insert_ok s g d d' :
  dials s !! g = Some d -> dial_object d' = dial_object d -> (forall o c, d <> DStore o c) ->
  out_ok s -> out_ok (set_dials (<[g := d']> (dials s)) s).
Proof.
  intros Hg Hsame Hns [Ho Hd Hb Hc0]. split; cbn; try done.
  - intros c Hc. destruct (Ho c Hc) as [(g' & o & Hg')|?]; [left|by right].
    exists g', o. rewrite lookup_insert_ne; [done|]. intros <-. rewrite Hg in Hg'. simplify_eq. by eapply Hns.
  - intros g' d0 [[<- <-]|[? ?]]%lookup_insert_Some; [rewrite Hsame|]; eauto.
Qed.

Lemma dials_delete_ok s g :
  (forall o c, dials s !! g = Some (DStore o c) -> c ∈ sockOut s -> stored s c) ->
  out_ok s -> out_ok (set_dials (delete g (dials s)) s).
Proof.
  intros Hg [Ho Hd Hb Hc0]. split; cbn; try done.
  - intros c Hc. destruct (Ho c Hc) as [(g' & o & Hg')|?]; [|by right].
    destruct (decide (g' = g)) as [->|]; [right; by eapply Hg|left; exists g', o; by rewrite lookup_delete_ne].
  - intros g' d [? ?]%lookup_delete_Some. eauto.
Qed.

Lemma lookup_out_ok p known s : out_ok s -> out_ok (peerConn_lookup p known s).
Proof.
  intros Hok. unfold peerConn_lookup.
  assert (forall s1 o, out_ok s1 -> conns s1 !! p = Some o ->
    out_ok (if known then set_dials (<[fresh s1 := DCheck o]> (dials s1)) (set_fresh (S (fresh s1)) s1) else s1)) as Hnew.
  { intros s1 o [Ho Hd Hb Hc0] Hp. destruct known; [|done]. split; cbn.
    - intros c Hc. destruct (Ho c Hc) as [(g & o' & Hg)|?]; [left; exists g, o'|by right].
      rewrite lookup_insert_ne; [done|]. intros <-. destruct (Hd _ _ Hg). lia.
    - intros g d [[<- <-]|[? Hg]]%lookup_insert_Some; [split; [lia|eauto]|]. destruct (Hd g d Hg). split; [lia|done].
    - intros o' x Hx. specialize (Hb o' x Hx). lia.
    - done. }
  destruct (conns s !! p) as [o|] eqn:Ep; [by apply Hnew|].
  apply Hnew; [|cbn; by rewrite lookup_insert_eq].
  destruct Hok as [Ho Hd Hb Hc0]. split; unfold stored; cbn.
  - intros c Hc. destruct (Ho c Hc) as [?|(p' & o & Hp & Hx)]; [by left|right; exists p', o].
    split; [rewrite lookup_insert_ne; [done|congruence]|].
    rewrite lookup_insert_ne; [done|]. specialize (Hb o _ Hx). lia.
  - intros g d Hg. destruct (Hd g d Hg) as [? [p' Hp]]. split; [lia|]. exists p'.
    rewrite lookup_insert_ne; [done|congruence].
  - intros o x [[<- <-]|[? Hx]]%lookup_insert_Some; [lia|]. specialize (Hb o x Hx). lia.
  - intros p' o [[<- <-]|[? Hx]]%lookup_insert_Some; [by rewrite lookup_insert_eq|].
    apply lookup_insert_is_Some'. right. eauto.
Qed.

Lemma check_out_ok g s s' : peerConn_check g s = Some s' -> out_ok s -> out_ok s'.
Proof.
  intros Hs Hok. unfold peerConn_check in Hs. destruct (dials s !! g) as [[o| |]|] eqn:Eg; simplify_eq/=.
  destruct (objects s !! o) as [[]|]; [apply dials_delete_ok; [congruence|done]|eapply dials_insert_ok; eauto; congruence..].
Qed.

Lemma dial_out_ok g ok s s' : peerConn_dial g ok s = Some s' -> out_ok s -> out_ok s'.
Proof.
  intros Hs Hok. unfold peerConn_dial in Hs. destruct (dials s !! g) as [[|o|]|] eqn:Eg; simplify_eq/=.
  destruct ok; [|apply dials_delete_ok; [congruence|done]].
  destruct Hok as [Ho Hd Hb Hc0]. split; cbn.
  - intros c [->%elem_of_singleton|Hc]%elem_of_union; [left; exists g, o; by rewrite lookup_insert_eq|].
    destruct (Ho c Hc) as [(g' & o' & Hg')|?]; [left|by right].
    exists g', o'. rewrite lookup_insert_ne; [done|congruence].
  - intros g' d [[<- <-]|[? Hg']]%lookup_insert_Some; [destruct (Hd _ _ Eg)|destruct (Hd _ _ Hg')]; (split; [lia|done]).
  - intros o' x Hx. specialize (Hb o' x Hx). lia.
  - done.
Qed.

Lemma sockOut_shrink s c : out_ok s -> out_ok (set_sockOut (sockOut s ∖ {[ c ]}) s).
Proof. intros [Ho Hd Hb Hc0]. split; unfold stored; cbn; try done. intros c' [Hc' _]%elem_of_difference. by apply Ho. Qed.

(** The connection that an object loses is closed. *)
Lemma objects_ok s o x :
  (forall c, objects s !! o = Some (Some c) -> c ∉ sockOut s) -> is_Some (objects s !! o) ->
  out_ok s -> out_ok (set_objects (<[o := x]> (objects s)) s).
Proof.
  intros Hx [x0 Hs] [Ho Hd Hb Hc0]. split; unfold stored; cbn; try done.
  - intros c Hc. destruct (Ho c Hc) as [?|(p & o' & Hp & Hx')]; [by left|right; exists p, o'].
    rewrite lookup_insert_ne; [done|]. intros <-. by destruct (Hx c).
  - intros o' x' [[<- <-]|[? ?]]%lookup_insert_Some; eauto.
  - intros p o' Hp. apply lookup_insert_is_Some'. right. eauto.
Qed.

Lemma store_out_ok g s s' : peerConn_store g s = Some s' -> out_ok s -> out_ok s'.
Proof.
  intros Hs Hok. unfold peerConn_store in Hs. destruct (dials s !! g) as [[| |o c]|] eqn:Eg; simplify_eq/=.
  destruct (oo_dials s Hok g _ Eg) as [_ [p Hp]]. cbn in Hp.
  destruct (oo_conns s Hok p o Hp) as [[c'|] Eo]; rewrite Eo.
  - pose (s1 := set_sockOut (sockOut s ∖ {[ c ]}) s). change (out_ok (set_dials (delete g (dials s1)) s1)).
    apply dials_delete_ok; [cbn|by apply sockOut_shrink].
    intros o' c0 Hg. rewrite Eg in Hg. simplify_eq. by intros [_ []%not_elem_of_singleton]%elem_of_difference.
  - pose (s1 := set_objects (<[o := Some c]> (objects s)) s). change (out_ok (set_dials (delete g (dials s1)) s1)).
    apply dials_delete_ok.
    + cbn. intros o' c0 Hg _. rewrite Eg in Hg. simplify_eq. exists p, o'. cbn. by rewrite lookup_insert_eq.
    + apply objects_ok; [congruence|eauto|done].
Qed.

Lemma send_fails_out_ok o s s' : send_fails o s = Some s' -> out_ok s -> out_ok s'.
Proof.
  intros Hs Hok. unfold send_fails in Hs. destruct (objects s !! o) as [[c|]|] eqn:Eo; simplify_eq/=.
  pose (s1 := set_sockOut (sockOut s ∖ {[ c ]}) s). change (out_ok (set_objects (<[o := None]> (objects s1)) s1)).
  apply objects_ok; cbn; [|eauto|by apply sockOut_shrink].
  intros c' Hc'. rewrite Eo in Hc'. simplify_eq. by intros [_ []%not_elem_of_singleton]%elem_of_difference.
Qed.

Lemma step_out_ok s e s' : e <> ECloseLocked -> step s e = Some s' -> out_ok s -> out_ok s'.
Proof.
  intros Hne Hs Hok. destruct (dialling e) eqn:Hd; [|by eapply out_ok_same; [eapply same_out_step|]].
  destruct e; try discriminate Hd; cbn [step] in Hs; simplify_eq;
    eauto using lookup_out_ok, check_out_ok, dial_out_ok, store_out_ok, send_fails_out_ok.
  by apply (out_ok_same s).
Qed.

Lemma run_out_ok s es s' : run s es = Some s' -> returned s' = false -> out_ok s -> out_ok s'.
Proof.
  revert s. induction es as [|e es IH]; intros s Hrun Hret Hok; cbn in Hrun; [by simplify_eq|].
  destruct (step s e) as [s1|] eqn:He; [|done]. cbn in Hrun.
  assert (returned s1 = false) as Hr1.
  { destruct (returned s1) eqn:E1; [|done].
    enough (returned s' = true) by congruence. clear -Hrun E1. revert s1 Hrun E1.
    induction es as [|e es IH]; intros s1 Hrun E1; cbn in Hrun; [by simplify_eq|].
    destruct (step s1 e) eqn:He; [|done]. eapply IH; [done|]. by eapply returned_step. }
  eapply IH; [done..|]. eapply step_out_ok; [|done..]. intros ->. cbn in He. unfold Close_locked in He.
  destruct (toLock s); simplify_eq/=.
Qed.

Lemma elem_of_live_sockets s c : stored s c -> c ∈ live_sockets s.
Proof.
  intros (p & o & Hp & Ho). unfold live_sockets. apply elem_of_list_to_set, list_elem_of_omap.
  exists (o, Some c). split; [by apply elem_of_map_to_list|]. cbn. rewrite decide_True; [done|].
  apply elem_of_list_to_set, list_elem_of_fmap. exists (p, o). split; [done|by apply elem_of_map_to_list].
Qed.

(** The first [Close] leaves no outbound connection open when no dial is under way. *)
Theorem close_outbound es s s' :
  run listening es = Some s -> returned s = false -> dials s = ∅ -> Close_locked s = Some s' ->
  sockOut s' = ∅ /\ conns s' = ∅.
Proof.
  intros Hrun Hret Hd Hc.
  assert (out_ok s) as Hok. { eapply run_out_ok; [done..|]. split; cbn; set_solver. }
  unfold Close_locked in Hc. destruct (toLock s); simplify_eq/=. split; [|done].
  apply set_eq. intros c. split; [|by intros ?%elem_of_empty].
  intros [Hin Hout]%elem_of_difference. destruct Hout.
  destruct (oo_open s Hok c Hin) as [(g & o & Hg)|?]; [by rewrite Hd, lookup_empty in Hg|by apply elem_of_live_sockets].
Qed.

(** A dial under way: its connection outlives [Close], also a second one, and no
    peer's entry leads to it. *)
Example late_dial_leaks :
  option_map (fun s => (returned s, acceptPc s, elements (sockOut s), map_to_list (conns s), map_to_list (dials s))) (run listening late_dial) =
  Some (true, ADone, [2%nat], [], []).
Proof. vm_compute. reflexivity. Qed.

(** Two connections, one of them with two lines read but not handled, and a third one
    that is accepted while the transport is closed. *)
Definition busy : list Event :=
  [EAccept Conn; ETrack; EAccept Conn; ETrack; EFill 0 2; ELine 0; EAccept Conn; EClose; ECloseStop; ECloseLocked].

Definition busy_tail : list Event := [ETrack; EDrop; ELine 0; ELine 0; EEnd 0; EUntrack 0; EEnd 1; EUntrack 1].
Definition closed_state : Shared := default listening (run listening busy).
Definition quiet_state : Shared := default listening (run closed_state busy_tail).

Lemma close_quiesces_witness :
  work closed_state = 8%nat /\ acceptPc quiet_state = ADone /\ handlers quiet_state = ∅ /\ sockIn quiet_state = ∅.
Proof.
  split; [vm_compute; reflexivity|].
  apply (close_quiesces busy closed_state busy_tail quiet_state); [vm_compute; reflexivity..|].
  assert (acceptPc quiet_state = ADone) as Ha by (vm_compute; reflexivity).
  assert (handlers quiet_state = ∅) as Hh by (vm_compute; reflexivity).
  intros e He. destruct e; try discriminate He; cbn [step];
    unfold accept, trackInbound, drop_inbound, fill, handle_line, end_conn, untrackInbound;
    rewrite ?Ha, ?Hh, ?lookup_empty; done.
Defined.
