(* ===== verification/RaftListener.v ===== *)
(** * The listener of the Raft transport (internal/raft/tcp_transport.go)

    [acceptLoop] and [Close] as goroutines that interleave, with the read loops of the
    connections they start. Sockets and calls of [Close] have numbers. What is read
    from a connection is in [RaftTransport]. *)

From S2P Require Import Prelude.

(** What [ln.Accept] gives: a connection, the error of a closed listener, or
    another error. *)
Inductive Accepted : Type := Conn | Closed | Transient.

(** [Close]: before it looks at [stopCh], after it found it open, before closing the
    listener, waiting for [doneCh], before [connMu]. A call that has returned is gone. *)
Inductive ClosePc : Type := CSelect | CStop | CListener | CWait | CConns.

Record Shared : Type := mkShared {
  stopCh : bool;                 (* closed *)
  ln : option bool;              (* the listener, when there is one: open or not *)
  doneCh : bool;                 (* closed: the accept loop has returned *)
  inbound : gset nat;            (* connections with a read loop, open *)
  outbound : gmap string bool;   (* the connections to peers: up or not *)
  closers : gmap nat ClosePc;
  fresh : nat
}.

Definition listening (out : gmap string bool) : Shared := mkShared false (Some true) false ∅ out ∅ 0.

(** What a step gives: the goroutine is not there or waits, a panic, or the next state. *)
Inductive Outcome : Type := Blocked | Panic | Next (s : Shared).

(** The accept loop, while it runs: a connection gets a read loop; an error ends the
    loop when [stopCh] is closed. *)
Definition accept (r : Accepted) (s : Shared) : Outcome :=
  if doneCh s then Blocked
  else match r, ln s with
  | Conn, Some true => Next (mkShared (stopCh s) (ln s) false ({[ fresh s ]} ∪ inbound s) (outbound s) (closers s) (S (fresh s)))
  | Transient, Some true | Closed, Some false =>
      Next (mkShared (stopCh s) (ln s) (stopCh s) (inbound s) (outbound s) (closers s) (fresh s))
  | _, _ => Blocked
  end.

(** A read loop serves a line, or ends and closes its connection. *)
Definition handle_line (c : nat) (s : Shared) : Outcome := if decide (c ∈ inbound s) then Next s else Blocked.
Definition end_conn (c : nat) (s : Shared) : Outcome :=
  if decide (c ∈ inbound s) then Next (mkShared (stopCh s) (ln s) (doneCh s) (inbound s ∖ {[ c ]}) (outbound s) (closers s) (fresh s)) else Blocked.

Definition call_Close (s : Shared) : Outcome :=
  Next (mkShared (stopCh s) (ln s) (doneCh s) (inbound s) (outbound s) (<[fresh s := CSelect]> (closers s)) (S (fresh s))).

Definition goto (g : nat) (pc : ClosePc) (s : Shared) : Outcome :=
  Next (mkShared (stopCh s) (ln s) (doneCh s) (inbound s) (outbound s) (<[g := pc]> (closers s)) (fresh s)).

(** The next step of the call [g] of [Close]. *)
Definition Close (g : nat) (s : Shared) : Outcome :=
  match closers s !! g with
  | None => Blocked
  | Some CSelect => goto g (if stopCh s then CListener else CStop) s
  | Some CStop =>
      if stopCh s then Panic
      else goto g CListener (mkShared true (ln s) (doneCh s) (inbound s) (outbound s) (closers s) (fresh s))
  | Some CListener =>
      match ln s with
      | None => goto g CConns s
      | Some _ => goto g CWait (mkShared (stopCh s) (Some false) (doneCh s) (inbound s) (outbound s) (closers s) (fresh s))
      end
  | Some CWait => if doneCh s then goto g CConns s else Blocked
  | Some CConns =>
      Next (mkShared (stopCh s) (ln s) (doneCh s) (inbound s) ((fun _ => false) <$> outbound s) (delete g (closers s)) (fresh s))
  end.

Inductive Event : Type := EAccept (r : Accepted) | ELine (c : nat) | EEnd (c : nat) | EClose | ECloseStep (g : nat).

Definition step (s : Shared) (e : Event) : Outcome :=
  match e with
  | EAccept r => accept r s
  | ELine c => handle_line c s
  | EEnd c => end_conn c s
  | EClose => call_Close s
  | ECloseStep g => Close g s
  end.

Fixpoint run (s : Shared) (es : list Event) : Outcome :=
  match es with
  | [] => Next s
  | e :: es' => match step s e with Next s' => run s' es' | o => o end
  end.

(** ** Closing *)

Definition past_stop (pc : ClosePc) : bool := match pc with CListener | CWait | CConns => true | _ => false end.

Record close_ok (s : Shared) : Prop := mkCloseOk {
  co_past g pc : closers s !! g = Some pc -> past_stop pc = true -> stopCh s = true;
  co_wait g : closers s !! g = Some CWait -> ln s = Some false;
  co_fresh g pc : closers s !! g = Some pc -> (g < fresh s)%nat
}.

Lemma goto_ok g pc s s' :
  goto g pc s = Next s' -> (past_stop pc = true -> stopCh s = true) -> (pc = CWait -> ln s = Some false) ->
  is_Some (closers s !! g) -> close_ok s -> close_ok s'.
Proof.
  intros [= <-] Hp Hw [pc0 Hg] [H1 H2 H3]. split; cbn.
  - intros g' pc' [[<- <-]|[? ?]]%lookup_insert_Some; eauto.
  - intros g' [[<- ->]|[? ?]]%lookup_insert_Some; eauto.
  - intros g' pc' [[<- <-]|[? ?]]%lookup_insert_Some; eauto.
Qed.

Lemma Close_ok g s s' : Close g s = Next s' -> close_ok s -> close_ok s'.
Proof.
  intros Hs Hok. pose proof (co_past s Hok g) as Hp. unfold Close in Hs.
  destruct (closers s !! g) as [[]|] eqn:Eg; [..|done].
  - eapply goto_ok; [done|..|eauto|done]; by destruct (stopCh s).
  - destruct (stopCh s); [done|]. eapply goto_ok; [done| | |cbn; eauto|]; [done..|].
    split; cbn; [done|apply Hok|apply Hok].
  - specialize (Hp _ eq_refl eq_refl). destruct (ln s); (eapply goto_ok; [done|done|done|cbn; eauto|]); [|done].
    split; cbn; [apply Hok|done|apply Hok].
  - specialize (Hp _ eq_refl eq_refl). destruct (doneCh s); [|done]. by eapply goto_ok; eauto.
  - destruct Hok as [H1 H2 H3]. simplify_eq. split; cbn.
    + intros g' pc' [? ?]%lookup_delete_Some. eauto.
    + intros g' [? ?]%lookup_delete_Some. eauto.
    + intros g' pc' [? ?]%lookup_delete_Some. eauto.
Qed.

Lemma close_step_ok s e s' : step s e = Next s' -> close_ok s -> close_ok s'.
Proof.
  intros Hs Hok. destruct e; cbn [step] in Hs; [| | | |by eapply Close_ok].
  - unfold accept in Hs. destruct Hok as [H1 H2 H3].
    destruct (doneCh s), r, (ln s) as [[]|] eqn:El; simplify_eq; split; cbn; eauto; try congruence;
      intros g pc Hg; specialize (H3 g pc Hg); lia.
  - unfold handle_line in Hs. case_decide; by simplify_eq.
  - unfold end_conn in Hs. destruct Hok as [H1 H2 H3]. case_decide; simplify_eq; by split.
  - destruct Hok as [H1 H2 H3]. unfold call_Close in Hs. simplify_eq. split; cbn.
    + intros g pc [[<- <-]|[? ?]]%lookup_insert_Some; [done|eauto].
    + intros g [[<- [=]]|[? ?]]%lookup_insert_Some. eauto.
    + intros g pc [[<- <-]|[? Hg]]%lookup_insert_Some; [lia|]. specialize (H3 g pc Hg). lia.
Qed.

Lemma close_run_ok s es s' : run s es = Next s' -> close_ok s -> close_ok s'.
Proof.
  revert s. induction es as [|e es IH]; intros s Hrun Hok; cbn in Hrun; [by simplify_eq|].
  destruct (step s e) eqn:He; try done. eapply IH; [done|]. by eapply close_step_ok.
Qed.

Definition rank (pc : ClosePc) (done : bool) : nat :=
  match pc with CSelect => 6 | CStop => 5 | CListener => 4 | CWait => if done then 2 else 3 | CConns => 1 end.

(** A call of [Close] that has begun always has something to wait for that can happen:
    either it can go on itself, or it waits for the accept loop, and that can go on and
    returns. In at most six such steps the call returns. With two calls at once, one
    may panic instead: both find [stopCh] open. *)
Theorem close_returns out es s g pc :
  run (listening out) es = Next s -> closers s !! g = Some pc ->
  (pc = CStop /\ stopCh s = true /\ Close g s = Panic) \/
  exists e s', (e = ECloseStep g \/ e = EAccept Closed) /\ step s e = Next s' /\
    (closers s' !! g = None \/ exists pc', closers s' !! g = Some pc' /\ (rank pc' (doneCh s') < rank pc (doneCh s))%nat).
Proof.
  intros Hrun Hg. assert (close_ok s) as [H1 H2 _] by (eapply close_run_ok; [done|by split]).
  pose proof Hg as Hg'. destruct pc.
  - right. exists (ECloseStep g). cbn. unfold Close. rewrite Hg. eexists. split; [by left|]. split; [reflexivity|]. right.
    eexists. split; [apply lookup_insert_eq|]. cbn. destruct (stopCh s); cbn; lia.
  - destruct (stopCh s) eqn:Es; [left; unfold Close; by rewrite Hg, Es|right].
    exists (ECloseStep g). cbn. unfold Close. rewrite Hg, Es. eexists. split; [by left|]. split; [reflexivity|]. right.
    eexists. split; [apply lookup_insert_eq|]. cbn. lia.
  - right. exists (ECloseStep g). cbn. unfold Close. rewrite Hg.
    destruct (ln s); (eexists; split; [by left|]; split; [reflexivity|]; right; eexists; split; [apply lookup_insert_eq|]);
      cbn; [destruct (doneCh s)|]; lia.
  - right. destruct (doneCh s) eqn:Ed.
    + exists (ECloseStep g). cbn. unfold Close. rewrite Hg, Ed. eexists. split; [by left|]. split; [reflexivity|]. right.
      eexists. split; [apply lookup_insert_eq|]. cbn. lia.
    + exists (EAccept Closed). cbn. unfold accept. rewrite Ed, (H2 g Hg), (H1 g _ Hg eq_refl).
      eexists. split; [by right|]. split; [reflexivity|]. right. eexists. split; [apply Hg|]. cbn. lia.
  - right. exists (ECloseStep g). cbn. unfold Close. rewrite Hg. eexists. split; [by left|]. split; [reflexivity|]. left.
    apply lookup_delete_eq.
Qed.

(** Inbound connections outlive [Close]: one that was accepted before it is open after
    it has returned, and its lines are still served. *)
Example inbound_survives :
  match run (listening {[ "b" := true ]}) [EAccept Conn; EClose; ECloseStep 1; ECloseStep 1; ECloseStep 1; EAccept Closed; ECloseStep 1; ECloseStep 1; ELine 0] with
  | Next s => (elements (inbound s), map_to_list (outbound s), map_to_list (closers s)) = ([0%nat], [("b", false)], [])
  | _ => False
  end.
Proof. vm_compute. reflexivity. Qed.

(** Two calls at once: the second one closes a closed channel. *)
Example double_close :
  run (listening ∅) [EClose; EClose; ECloseStep 0; ECloseStep 1; ECloseStep 0; ECloseStep 1] = Panic.
Proof. vm_compute. reflexivity. Qed.
