(* ===== verification/HotStuffStore.v ===== *)
(** * The store replicated by HotStuff (internal/server: hotstuff_cluster.go, hotstuff_node.go)

    The functions that execute committed commands on the cache store, and the
    store interface over a replica: a write proposes its command and then empty
    blocks until the command commits. While a call waits, the replica handles
    other inputs: they are arguments. *)

From S2P Require Import Prelude WalTypes BTree Expiration Store RaftLog Raft Protocol Handler ClusterStore HotStuffTypes HotStuff HotStuffProps HotStuffInstances HotStuffThms.

(** ** Executing commands *)

Section apply.
Context {I FW W : Type} {EI : ExpirationIndex I} {WF : Wal FW} {WW : Wal W} {J : Json}.

(** [fsm.ApplyRecord], with its clock; an error is logged and changes nothing. *)
Definition fsm_apply (f : Fsm I FW) (rec : Record_) : Fsm I FW :=
  tick_clocks (set_fstore (s ← fstore f; '(_, s') ← ApplyRecord s (applyClock f 0) rec; Some s') f).

(** The command of a block for the store: empty blocks, commands that do not
    decode and membership commands have none. *)
Definition block_record (b : Block) : option Record_ :=
  match bCmd b with
  | [] => None
  | cmd => rec ← json_unrecord cmd; if bool_decide (op rec = OpMembership) then None else Some rec
  end.

(** The function [NewHotStuffApply] returns, of a node that keeps nothing. *)
Definition NewHotStuffApply : Executor (Fsm I FW) W := fun l f b =>
  (l, match block_record b with Some rec => fsm_apply f rec | None => f end).

(** The function [newHSStoreApply] returns, of a durable node: the record is
    written to the shared log first; when that fails the store is not changed. *)
Definition newHSStoreApply : Executor (Fsm I FW) W := fun l f b =>
  match l with
  | None => (None, f)
  | Some w =>
      match block_record b with
      | None => (Some w, f)
      | Some rec =>
          match wal_append w rec with
          | (w', Some _) => (Some w', f)
          | (w', None) => (Some w', fsm_apply f rec)
          end
      end
  end.
End apply.

(** ** HotStuffClusterStore (hotstuff_cluster.go) *)

Section cluster.
Context {I FW W : Type}.
Context {EI : ExpirationIndex I} {WF : Wal FW} {EX : Executor (Fsm I FW) W} {WW : Wal W} {CR : Crypto} {J : Json}
  {MJ : MembershipJson} {PJ : PersistJson}.

Abbreviation Rp := (Replica (Fsm I FW) W).

(** Inputs a replica handles, with their times. *)
Definition Inputs : Type := list (Z * hs_input).

Record HotStuffClusterStore : Type := mkHotStuffClusterStore {
  hnode : Rp;
  haddrOf : option (string -> string)
}.

Definition NewHotStuffClusterStore (n : Rp) : HotStuffClusterStore := mkHotStuffClusterStore n None.
Definition hs_SetLeaderResolver (c : HotStuffClusterStore) (fn : string -> string) : HotStuffClusterStore :=
  mkHotStuffClusterStore (hnode c) (Some fn).
Definition with_hnode (c : HotStuffClusterStore) (n : Rp) : HotStuffClusterStore :=
  mkHotStuffClusterStore n (haddrOf c).

(** What the world contributes to a write: the inputs handled before each
    attempt to propose the command (the context expires when they run out); for
    each turn of the second loop, the inputs handled while [WaitCommitted] waits,
    whether its deadline is seen first, and the inputs handled after it; and
    those handled before the last flush. *)
Record HsEnv : Type := mkHsEnv {
  attempts : list Inputs;
  turns : list (Inputs * bool * Inputs);
  before_flush : Inputs;
  hsNow : Z; hsNow' : Z
}.

(** [Propose], with the messages it sends dropped. *)
Definition propose_block (cmd : bytes) (n : Rp) : option (result string * Rp) :=
  '(r, _, n) ← HotStuff.Propose cmd n; Some (r, n).

Definition quiet_run (evs : Inputs) (n : Rp) : option Rp := '(_, n) ← hs_run evs n; Some n.

(** The first loop: until the leader is not busy. *)
Fixpoint propose_command (cmd : bytes) (tries : list Inputs) (n : Rp) : option (result string * Rp) :=
  match tries with
  | [] => Some (Err CtxDone, n)
  | evs :: tries' =>
      n ← quiet_run evs n;
      '(r, n) ← propose_block cmd n;
      match r with
      | Err HotStuffBusy => propose_command cmd tries' n
      | _ => Some (r, n)
      end
  end.

(** [WaitCommitted] under the deadline of one turn. *)
Definition wait_turn (id : string) (evs : Inputs) (late : bool) (n : Rp) : option (option error * Rp) :=
  match WaitCommitted id n with
  | (Some e, n) => Some (e, n)
  | (None, n) =>
      n ← quiet_run evs n;
      Some (if (bool_decide (id ∈ appliedIDs n) && negb late)%bool then None else Some CtxDone, n)
  end.

(** The second loop: until the block commits. *)
Fixpoint flush_until (id : string) (ts : list (Inputs * bool * Inputs)) (last : Inputs) (n : Rp)
    : option (option error * Rp) :=
  match ts with
  | [] => Some (Some CtxDone, n)
  | (evs, late, evs') :: ts' =>
      '(e, n) ← wait_turn id evs late n;
      match e with
      | None => n ← quiet_run last n; '(_, n) ← propose_block [] n; Some (None, n)
      | Some CtxDone =>
          n ← quiet_run evs' n;
          '(r, n) ← propose_block [] n;
          match r with
          | Ok _ | Err HotStuffBusy => flush_until id ts' last n
          | Err e => Some (Some e, n)
          end
      | Some e => Some (Some e, n)
      end
  end.

Definition hs_propose (env : HsEnv) (c : HotStuffClusterStore) (rec : Record_)
    : option (option error * HotStuffClusterStore) :=
  if negb (IsLeader (hnode c)) then Some (Some HotStuffNotLeader, c)
  else match json_record rec with
       | Err e => Some (Some e, c)
       | Ok cmd =>
           '(r, n) ← propose_command cmd (attempts env) (hnode c);
           match r with
           | Err e => Some (Some e, with_hnode c n)
           | Ok id => '(e, n) ← flush_until id (turns env) (before_flush env) n; Some (e, with_hnode c n)
           end
       end.

Definition hs_Get (env : HsEnv) (c : HotStuffClusterStore) (key : string)
    : option (result string * HotStuffClusterStore) :=
  if negb (IsLeader (hnode c)) then Some (Err HotStuffNotLeader, c)
  else
    s ← fstore (fsm (hnode c));
    '(v, s') ← Store.Get s (hsNow env) (hsNow' env) key;
    Some (v, with_hnode c (set_fsm (set_fstore (Some s') (fsm (hnode c))) (hnode c))).

Definition hs_Put (env : HsEnv) (c : HotStuffClusterStore) (key value : string) :=
  hs_propose env c (store_record OpPut key value 0).

Definition hs_Delete (env : HsEnv) (c : HotStuffClusterStore) (key : string) :=
  hs_propose env c (store_record OpDelete key "" 0).

Definition hs_TTL (env : HsEnv) (c : HotStuffClusterStore) (key : string) (ttlMillis : Z) :=
  hs_propose env c (store_record OpTTL key "" (int64_wrap (hsNow env + ttlMillis))).

Definition hs_Leader (c : HotStuffClusterStore) : string :=
  match haddrOf c with
  | None => ""
  | Some f => if IsLeader (hnode c) then "" else f (leader (hnode c))
  end.

#[export] Instance HotStuffClusterStore_iface : StoreIface HotStuffClusterStore HsEnv := {|
  st_get := hs_Get;
  st_put := hs_Put;
  st_delete := hs_Delete;
  st_ttl := hs_TTL;
  st_alive _ := "ALIVE";
  st_leader := hs_Leader
|}.
End cluster.
