(* ===== verification/HotStuffStoreThms.v ===== *)
(** * The store replicated by HotStuff: its properties *)

From stdpp Require Import relations.
From S2P Require Import Prelude WalTypes WalCodec BTree Expiration Store RaftLog Raft Protocol Handler ClusterStore HotStuffTypes HotStuff HotStuffProps HotStuffInstances HotStuffHash HotStuffThms HotStuffMoves HotStuffCommit HotStuffStore.

(** ** A write is a run of the replica *)

Section runs.
Context {I FW W : Type}.
Context {EX : Executor (Fsm I FW) W} {WW : Wal W} {CR : Crypto} {J : Json} {MJ : MembershipJson} {PJ : PersistJson}.
Implicit Types n : Replica (Fsm I FW) W.

Lemma hs_run_app evs evs' n out n1 out' n2 :
  hs_run evs n = Some (out, n1) -> hs_run evs' n1 = Some (out', n2) -> hs_run (evs ++ evs') n = Some (out ++ out', n2).
Proof.
  revert n out. induction evs as [|[now i] evs IH]; intros n out E E'; simpl in *; [by simplify_eq|].
  destruct (hs_step now i n) as [[o m]|]; simpl in *; [|done].
  destruct (hs_run evs m) as [[o1 m1]|] eqn:Em; simplify_eq/=. rewrite (IH m o1) by done. simpl. by rewrite app_assoc.
Qed.

(** [n'] is reached from [n] by handling inputs. *)
Definition reaches n n' : Prop := exists evs out, hs_run evs n = Some (out, n').

Lemma reaches_refl n : reaches n n.
Proof. by exists [], []. Qed.

Lemma reaches_trans n1 n2 n3 : reaches n1 n2 -> reaches n2 n3 -> reaches n1 n3.
Proof. intros (e1 & o1 & H1) (e2 & o2 & H2). exists (e1 ++ e2), (o1 ++ o2). by eapply hs_run_app. Qed.

Lemma reaches_step now i n out n' : hs_step now i n = Some (out, n') -> reaches n n'.
Proof. intros E. exists [(now, i)], (out ++ []). simpl. by rewrite E. Qed.

Lemma quiet_run_reaches evs n n' : quiet_run evs n = Some n' -> reaches n n'.
Proof. unfold quiet_run. destruct (hs_run evs n) as [[o m]|] eqn:E; simpl; [|done]. intros [= <-]. by exists evs, o. Qed.

Lemma propose_reaches cmd n r n' : propose_block cmd n = Some (r, n') -> reaches n n'.
Proof.
  unfold propose_block. destruct (Propose cmd n) as [[[r' o] m]|] eqn:E; simpl; [|done]. intros [= _ <-].
  apply (reaches_step 0 (HPropose cmd) n o m). simpl. by rewrite E.
Qed.

Lemma wait_reaches id evs late n e n' : wait_turn id evs late n = Some (e, n') -> reaches n n'.
Proof.
  unfold wait_turn. intros E.
  assert (reaches n (WaitCommitted id n).2) as H by (by apply (reaches_step 0 (HWait id) n [] _)).
  destruct (WaitCommitted id n) as [[e'|] m]; simpl in *; [by simplify_eq|].
  destruct (quiet_run evs m) as [m'|] eqn:Em; simplify_eq/=. eapply reaches_trans; [exact H|by eapply quiet_run_reaches].
Qed.

Lemma flush_reaches id ts last n e n' :
  flush_until id ts last n = Some (e, n') ->
  reaches n n' /\ (e = None -> exists m, reaches n m /\ reaches m n' /\ id ∈ appliedIDs m).
Proof.
  revert n. induction ts as [|[[evs late] evs'] ts IH]; intros n E; simpl in E.
  { simplify_eq. split; [apply reaches_refl|done]. }
  destruct (wait_turn id evs late n) as [[e1 n1]|] eqn:Ew; simpl in E; [|done].
  pose proof (wait_reaches _ _ _ _ _ _ Ew) as H1. destruct e1 as [e1|].
  - assert (e1 <> CtxDone -> e = Some e1 /\ n' = n1) as Hother by (intros ?; destruct e1; by simplify_eq/=).
    destruct (decide (e1 = CtxDone)) as [->|Hne].
    2: { destruct (Hother Hne) as [-> ->]. by split. }
    destruct (quiet_run evs' n1) as [n2|] eqn:E2; simpl in E; [|done]. apply quiet_run_reaches in E2.
    destruct (propose_block [] n2) as [[r n3]|] eqn:E3; simpl in E; [|done]. apply propose_reaches in E3.
    assert (reaches n n3) as H3 by (eapply reaches_trans; [exact H1|by eapply reaches_trans]).
    assert (flush_until id ts last n3 = Some (e, n') \/ (e <> None /\ n' = n3)) as [E'|[He ->]]
      by (destruct r as [|[]]; simplify_eq/=; eauto).
    + destruct (IH n3 E') as [H4 Hok]. split; [by eapply reaches_trans|].
      intros He. destruct (Hok He) as (m & Hm & Hm' & Ha). exists m. split_and!; try done. by eapply reaches_trans.
    + by split.
  - destruct (quiet_run last n1) as [n2|] eqn:E2; simpl in E; [|done]. apply quiet_run_reaches in E2.
    destruct (propose_block [] n2) as [[r n3]|] eqn:E3; simplify_eq/=. apply propose_reaches in E3.
    assert (reaches n1 n') as H3 by (by eapply reaches_trans).
    split; [by eapply reaches_trans|]. intros _. exists n1. split_and!; try done.
    revert Ew. unfold wait_turn, WaitCommitted. case_decide; simpl; [intros ?; by simplify_eq|].
    destruct (blocks n !! id); simpl; [|done]. destruct (quiet_run _ _) as [m|]; simpl; [|done].
    destruct (bool_decide_reflect (id ∈ appliedIDs m)); [|done]. intros E'. destruct late; by simplify_eq/=.
Qed.
End runs.

(** ** What the command loop does *)

Section acked.
Context {I FW W : Type}.
Context {EX : Executor (Fsm I FW) W} {WW : Wal W} {CR : Crypto} {J : Json} {MJ : MembershipJson} {PJ : PersistJson}.
Implicit Types n : Replica (Fsm I FW) W.

(** The hash tells commands and heights apart. *)
Context (no_collision : forall v h p c v' h' p' c', blockID v h p c = blockID v' h' p' c' -> h = h' /\ c = c').
#[local] Set Default Proof Using "no_collision".

(** The trees' blocks keep their heights. *)
Definition heights_kept n n' : Prop :=
  forall id b, blocks n !! id = Some b -> exists b', blocks n' !! id = Some b' /\ bHeight b' = bHeight b.

Lemma authentic_inj b b' : authentic b -> authentic b' -> bID b = bID b' -> bID b <> genesisID -> bHeight b = bHeight b' /\ bCmd b = bCmd b'.
Proof.
  intros [[? _]|Hb] [[? _]|Hb'] E Hg; try congruence. rewrite Hb, Hb' in E. by apply no_collision in E.
Qed.

Lemma moves_heights t n n' : rooted n -> moves t n n' -> heights_kept n n'.
Proof.
  intros Hr Hm. induction Hm as [n|n n1 n' Hm _ IH]; [intros id b Hb; by exists b|].
  destruct (move_executed (fun _ => True) t n n1 Hr) as (bs & Hr1 & _); [intros; by constructor|done|].
  assert (heights_kept n n1) as H1.
  { intros id b Hb. destruct Hm as [n1 (_ & Hbl & _)|x Hx|x Hx|q c p g l H3 Hsp|v _ _|vc _]; simpl;
      try (exists b; split; [|done]; try done; congruence).
    - destruct (decide (bID x = id)) as [<-|]; [|rewrite lookup_insert_ne by done; by exists b].
      exists x. rewrite lookup_insert_eq. split; [done|]. destruct (proj1 Hr _ _ Hb) as [Hid Ha].
      apply authentic_inj; [by right|done|done|]. rewrite Hx. apply blockID_not_genesis.
    - exists b. split; [|done]. by destruct (executeAll_frame (rev l) n) as (_ & -> & _). }
  intros id b Hb. destruct (H1 id b Hb) as (b1 & Hb1 & <-). by apply (IH Hr1).
Qed.

(** A successful proposal: its block is new. *)
Lemma propose_new cmd n id n' :
  rooted n -> (forall i b, blocks n !! i = Some b -> (bHeight b + 2 < 2 ^ 64)%N) ->
  propose_block cmd n = Some (Ok id, n') -> blocks n !! id = None /\ exists v h p, id = blockID v h p cmd.
Proof.
  intros Hr Hh. unfold propose_block, Propose. destruct (_ || _)%bool; [done|].
  destruct (match qcHigh n with Some _ => _ | None => _ end); [done|].
  destruct (proposeLocked cmd n) as [[p m]|] eqn:E; simpl; [|done]. destruct (broadcast p m); simpl; [|done].
  intros [= <- <-]. revert E. unfold proposeLocked.
  destruct (blocks n !! headID n) as [parent|] eqn:Ep; simpl; [|done].
  destruct (if freshBase n then _ else _) as [h n1] eqn:E1.
  assert (blocks n1 = blocks n) as Hb1 by (destruct (freshBase n); by simplify_eq).
  set (h1 := if (h <=? _)%N then _ else h). destruct (voteForBlockLocked _ _) as [n2|]; simpl; [|done].
  intros [= <- _]. simpl. split; [|by eexists _, _, _].
  destruct (blocks n !! blockID (view n1) h1 (headID n1) cmd) as [b|] eqn:Eb; [|done]. exfalso.
  destruct (proj1 Hr _ _ Eb) as [Hid [[Hg _]|Hb]]; [rewrite Hid in Hg; by apply blockID_not_genesis in Hg|].
  rewrite Hb in Hid. apply no_collision in Hid as [Hid _].
  destruct (highest_spec n1) as [Hle Hat]. rewrite Hb1 in Hle, Hat. apply Hle in Eb as Hbh.
  assert (highestBlockHeightLocked n1 + 2 < 2 ^ 64)%N as Hmax
    by (destruct Hat as [->|(i & x & Hx & <-)]; [lia|by eapply Hh]).
  revert Hid. unfold h1. destruct (N.leb_spec h (highestBlockHeightLocked n1)); [|lia].
  unfold u64_add. rewrite N.mod_small by lia. lia.
Qed.

Lemma propose_command_reaches cmd tries n r n' :
  propose_command cmd tries n = Some (r, n') ->
  reaches n n' /\ forall id, r = Ok id -> exists m, reaches n m /\ propose_block cmd m = Some (Ok id, n').
Proof.
  revert n. induction tries as [|evs tries IH]; intros n E; simpl in E.
  { simplify_eq. split; [apply reaches_refl|done]. }
  destruct (quiet_run evs n) as [n1|] eqn:E1; simpl in E; [|done]. apply quiet_run_reaches in E1.
  destruct (propose_block cmd n1) as [[r2 n2]|] eqn:E2; simpl in E; [|done].
  pose proof (propose_reaches _ _ _ _ E2) as H2.
  assert ((r2 = r /\ n2 = n') \/ propose_command cmd tries n2 = Some (r, n')) as [[-> ->]|E']
    by (destruct r2 as [|[]]; simplify_eq/=; auto).
  - split; [by eapply reaches_trans|]. intros id ->. by exists n1.
  - destruct (IH n2 E') as [H3 Hok]. assert (reaches n n2) as H02 by (by eapply reaches_trans).
    split; [by eapply reaches_trans|]. intros id Hid. destruct (Hok id Hid) as (m & Hm & Hp).
    exists m. split; [|done]. by eapply reaches_trans.
Qed.

Lemma reaches_moves n n' : rooted n -> reaches n n' -> moves true n n'.
Proof.
  intros Hr (evs & out & E). eapply hs_run_moves; [apply Hr| |exact E]. by apply Forall_true.
Qed.

Lemma reaches_executed S0 n n' :
  rooted n -> (forall s, known n s -> legit S0 s) -> reaches n n' -> exists bs, executed S0 n bs n'.
Proof. intros Hr Hs Hn. eapply moves_executed; [done|done|]. by apply reaches_moves. Qed.

(** An acknowledged command was executed while the call ran. *)
Lemma acked_executed env (c c' : HotStuffClusterStore) rec cmd :
  rooted (hnode c) -> (forall i b, blocks (hnode c') !! i = Some b -> (bHeight b + 2 < 2 ^ 64)%N) ->
  json_record rec = Ok cmd -> hs_propose env c rec = Some (None, c') ->
  exists bs b, executed (known (hnode c)) (hnode c) bs (hnode c') /\ b ∈ bs /\ bCmd b = cmd /\ bID b <> genesisID.
Proof.
  intros Hr Hh Hj. unfold hs_propose. destruct (negb _); [done|]. rewrite Hj.
  destruct (propose_command cmd _ _) as [[r n2]|] eqn:E1; simpl; [|done].
  destruct (propose_command_reaches _ _ _ _ _ E1) as [_ Hok]. destruct r as [id|]; [|done].
  destruct (Hok id eq_refl) as (n1 & H1 & Hp). clear Hok E1.
  destruct (flush_until id _ _ n2) as [[e n']|] eqn:E2; simpl; [|done]. intros [= -> <-]. simpl in *.
  destruct (flush_reaches _ _ _ _ _ _ E2) as [_ Hf]. destruct (Hf eq_refl) as (m & Hm & Hm' & Ha). clear Hf E2.
  pose proof (propose_reaches _ _ _ _ Hp) as H2.
  destruct (reaches_executed (known (hnode c)) _ _ Hr (fun s => legit_start _ s) H1) as (bs1 & Hx1).
  assert (reaches n1 n') as H3 by (eapply reaches_trans; [exact H2|by eapply reaches_trans]).
  destruct (reaches_executed (known (hnode c)) n1 n') as (bs2 & Hx2); [apply Hx1|apply Hx1|done|].
  pose proof (moves_heights true n1 n' ltac:(apply Hx1) (reaches_moves _ _ ltac:(apply Hx1) H3)) as Hk.
  destruct (propose_new cmd n1 id n2) as (Hnew & v & h & p & Hid); [apply Hx1| |done|].
  { intros i b Hb. destruct (Hk i b Hb) as (b' & Hb' & <-). by eapply Hh. }
  assert (id ∈ appliedIDs n') as Ha'.
  { destruct (reaches_executed (known (hnode c)) n1 m) as (bsm & Hxm); [apply Hx1|apply Hx1|exact (reaches_trans _ _ _ H2 Hm)|].
    destruct (reaches_executed (known (hnode c)) m n') as (bse & Hxe); [apply Hxm|apply Hxm|done|].
    destruct Hxe as (_ & _ & _ & _ & _ & _ & _ & ->). set_solver. }
  exists (bs1 ++ bs2). destruct Hx2 as (Hr2 & Hs2 & Hc2 & Hf2 & He2 & Hi2 & Hau & Hap).
  assert (id ∉ appliedIDs n1) as Hnot.
  { intros Hin. destruct Hx1 as ((_ & _ & _ & Hin1) & _). destruct (Hin1 id Hin) as [? Hx]. by rewrite Hnew in Hx. }
  rewrite Hap in Ha'. apply elem_of_union in Ha' as [Ha'|]; [|done].
  apply elem_of_list_to_set, list_elem_of_fmap in Ha' as (b & Hb & Hin). exists b.
  assert (bID b <> genesisID) as Hg by (rewrite <- Hb, Hid; apply blockID_not_genesis).
  split_and!; [|set_solver| |done].
  - eapply executed_app; [exact Hx1|]. by split_and!.
  - rewrite Forall_forall in Hau. destruct (Hau b Hin) as [[? _]|Hpb]; [done|].
    rewrite Hpb, Hid in Hb. by apply no_collision in Hb as [_ Hb].
Qed.
End acked.

(** ** The store *)

(** The commands of executed blocks; genesis is not executed. *)
Definition commands `{!Json} (bs : list Block) : list Record_ :=
  omap (fun b => if String.eqb (bID b) genesisID then None else block_record b) bs.

Section applied.
Context {I FW W : Type}.
Context {EI : ExpirationIndex I} {WF : Wal FW} {WW : Wal W} {CR : Crypto} {J : Json} {JL : JsonLaws}
  {MJ : MembershipJson} {PJ : PersistJson}.

#[local] Instance volatile_executor : Executor (Fsm I FW) W := NewHotStuffApply.

Lemma runs_commands f bs f' : runs f bs f' -> f' = foldl fsm_apply f (commands bs).
Proof.
  induction 1 as [|l f b bs f' _ IH]; [done|]. rewrite IH. unfold commands. simpl.
  unfold run_block, hs_apply, volatile_executor, NewHotStuffApply, block_record.
  destruct (bCmd b) as [|x cmd]; simpl; [by destruct (String.eqb _ _)|].
  destruct (String.eqb (bID b) genesisID); [done|]. simpl.
  destruct (json_unrecord (x :: cmd)) as [rec|]; simpl; [|done]. by case_match.
Qed.

End applied.

(** ** An example write *)

Definition solo_record : Record_ := store_record OpPut "k" "v" 0.
Definition solo_bytes : bytes := key_of "p".

(** A codec for that one record. *)
Definition OneJson : Json := {|
  json_record r := if decide (r = solo_record) then Ok solo_bytes else Err IOError;
  json_unrecord b := if decide (b = solo_bytes) then Some solo_record else None;
  json_snapshot _ := Err IOError;
  json_unsnapshot _ := None
|}.

Definition OneJson_laws : @JsonLaws OneJson.
Proof.
  refine {| json_fits r := r = solo_record; snap_fits _ := False |}.
  - intros r ->. exists solo_bytes. split_and!; try done.
    + intros Hin. apply list_elem_of_singleton in Hin. discriminate.
    + intros p [x Hx] Hp. simpl. rewrite decide_False; [done|]. congruence.
  - done.
  - intros d [].
Defined.

(** A cluster of one, with an empty store. *)
Definition solo : result (Replica (Fsm Index MemLog) MemLog) :=
  @NewReplica _ _ FieldCrypto "a" [] "a" (key_of "a", key_of "a") 0
    (mkFsm (Some NewCacheyStore) (fun _ => 10%Z) (fun _ => 10%Z)).

Definition solo_env : HsEnv := mkHsEnv [[]] [([], false, []); ([], false, []); ([], false, [])] [] 10 10.

Definition solo_write (n : Replica (Fsm Index MemLog) MemLog) : option (option error * HotStuffClusterStore) :=
  hs_propose (EX := NewHotStuffApply (J := OneJson)) (CR := FieldCrypto) (J := OneJson) solo_env
    (NewHotStuffClusterStore n) solo_record.

