(* ===== verification/HotStuffNode.v ===== *)
(** * A durable HotStuff node (internal/server/hotstuff_node.go)

    The files of a node (identity, pinned keys, checkpoint, the log it shares with
    the store), opening and recovering a node, compaction. The directory is the
    disk of [Os]; its calls fail and crash. *)

From Stdlib Require Import Ascii.
From S2P Require Import Prelude WalTypes Os WalRecovery WalWriter BTree Expiration Store RaftLog Raft Protocol Handler ClusterStore HotStuffTypes HotStuff HotStuffProps HotStuffInstances HotStuffThms HotStuffTransport HotStuffStore.

(** ** encoding/hex *)

Definition hex_value (c : ascii) : option nat :=
  let n := nat_of_ascii c in
  if ((48 <=? n) && (n <=? 57))%nat%bool then Some (n - 48)
  else if ((97 <=? n) && (n <=? 102))%nat%bool then Some (n - 87)
  else if ((65 <=? n) && (n <=? 70))%nat%bool then Some (n - 55)
  else None.

(** [hex.DecodeString]: an odd length and other characters are errors. *)
Fixpoint unhex (s : string) : option bytes :=
  match s with
  | "" => Some []
  | String a (String b s') =>
      x ← hex_value a; y ← hex_value b; l ← unhex s'; Some (ascii_of_nat (16 * x + y) :: l)
  | _ => None
  end.

(** ** Files *)

Definition hsIdentityFileName : string := "hsidentity.json".
Definition hsPeersFileName : string := "hspeers.json".
Definition hsCheckpointName : string := "hscheckpoint".
Definition hsCheckpointTmp : string := "hscheckpoint.tmp".

Definition PrivateKeySize : nat := 64.

(** [priv.Public()]: the second half of an Ed25519 private key. *)
Definition ed25519_public (priv : bytes) : bytes := drop 32 priv.

Record hsIdentityFile : Type := mkHsIdentityFile { ifID : string; ifPriv : string }.

(** [encoding/json] on the node's files. *)
Class NodeJson : Type := {
  json_identity : hsIdentityFile -> result bytes;
  json_unidentity : bytes -> option hsIdentityFile;
  json_checkpoint : Checkpoint -> result bytes;
  json_uncheckpoint : bytes -> option Checkpoint;
  json_pins : gmap string string -> result bytes;
  json_unpins : bytes -> option (gmap string string)
}.

Section files.
Context {S : Type} {NJ : NodeJson}.

(** [os.ReadDir] and whether it lists anything. *)
Definition lists_nothing : sys S bool := fun s => Done (Ok (bool_decide (disk s = ∅))) s.
Definition dir_empty : sys S bool := idle;; lists_nothing.

(** [gen] is what [ed25519.GenerateKey] returns. *)
Definition loadHSIdentity (gen : result bytes) (id : string) : sys S bytes :=
  f ← read_if_exists hsIdentityFileName;
  match f with
  | Some b =>
      match json_unidentity b with
      | None => fail (Wrapped "corrupt identity file")
      | Some f =>
          if negb (String.eqb (ifID f) id) then fail (Wrapped "data dir holds another identity")
          else match unhex (ifPriv f) with
               | Some priv => if (length priv =? PrivateKeySize)%nat then mret priv
                              else fail (Wrapped "corrupt private key")
               | None => fail (Wrapped "corrupt private key")
               end
      end
  | None =>
      e ← attempt dir_empty;
      match e with
      | Ok false => fail (Wrapped "refusing to generate a new identity")
      | _ =>
          match gen with
          | Err e => fail e
          | Ok priv =>
              match json_identity (mkHsIdentityFile id (hex priv)) with
              | Err e => fail e
              | Ok out => idle;; WriteFile hsIdentityFileName out;; mret priv
              end
          end
      end
  end.

Definition writeHSCheckpoint (cp : Checkpoint) : sys S () :=
  match json_checkpoint cp with
  | Err e => fail e
  | Ok b =>
      OpenTrunc hsCheckpointTmp;;
      r ← attempt (WriteAppend hsCheckpointTmp (b ++ [nl]));
      match r with
      | Err e => attempt FClose;; fail e
      | Ok _ =>
          r ← attempt (FSync hsCheckpointTmp);
          match r with
          | Err e => attempt FClose;; fail e
          | Ok _ => FClose;; Rename hsCheckpointTmp hsCheckpointName;; syncDir
          end
      end
  end.

Definition loadHSCheckpoint : sys S (option Checkpoint) :=
  f ← read_if_exists hsCheckpointName;
  match f with
  | None => mret None
  | Some b => match json_uncheckpoint b with
              | Some cp => mret (Some cp)
              | None => fail (Wrapped "json")
              end
  end.

(** The keys a replica has pinned, as they are saved. *)
Definition SavePeerPins {F W : Type} (n : Replica F W) : sys S () :=
  match json_pins (hex <$> peerKeys n) with
  | Err e => fail e
  | Ok out => WriteFile hsPeersFileName out
  end.

(** Pinning decoded keys one after the other; a key that does not decode stops it. *)
Fixpoint pinAll {F W : Type} (pins : list (string * string)) (n : Replica F W) : result (Replica F W) :=
  match pins with
  | [] => Ok n
  | (id, pubHex) :: pins' =>
      match unhex pubHex with
      | None => Err (Wrapped "encoding/hex")
      | Some pub => pinAll pins' (SetPeerKey id pub n).2
      end
  end.

Definition repinHSPeers {F W : Type} (n : Replica F W) : sys S (Replica F W) :=
  f ← read_if_exists hsPeersFileName;
  match f with
  | None => mret n
  | Some b => match json_unpins b with
              | None => fail (Wrapped "json")
              | Some pins => match pinAll (map_to_list pins) n with
                             | Ok n => mret n
                             | Err e => fail e
                             end
              end
  end.
End files.

(** ** Configuration *)

Record HotStuffNodeConfig : Type := mkHotStuffNodeConfig {
  cID : string; cDir : string; cHSAddr : string; cPeers : list string; cLeader : string;
  cValidatorKeys : gmap string bytes;
  cTLSCA : bytes; cTLSCert : bytes; cTLSKey : bytes;
  cGCThreshold : Z; cGCRetention : N
}.

Definition validateHSValidatorKeys (cfg : HotStuffNodeConfig) (priv : bytes) : option error :=
  if negb (size (cValidatorKeys cfg) =? length (cPeers cfg) + 1)%nat
  then Some (Wrapped "validator key configuration must contain every member")
  else if negb (bool_decide (cValidatorKeys cfg !! cID cfg = Some (ed25519_public priv)))
  then Some (Wrapped "configured key does not match persistent identity")
  else if forallb (fun p => match cValidatorKeys cfg !! p with
                            | Some pub => (length pub =? PublicKeySize)%nat
                            | None => false
                            end) (cPeers cfg)
  then None
  else Some (Wrapped "missing validator key for peer").

(** ** Recovery hooks *)

Section node.
Context {I FW W : Type}.
Context {EI : ExpirationIndex I} {WF : Wal FW} {WW : Wal W} {CR : Crypto} {J : Json} {MJ : MembershipJson}
  {PJ : PersistJson} {NJ : NodeJson}.
Abbreviation Rp := (Replica (Fsm I FW) W).
Implicit Types n : Rp.

(** The durable apply hook executes the commands. *)
#[local] Instance durable_executor : Executor (Fsm I FW) W := newHSStoreApply.

(** Engine records go to the engine, all others to the store. *)
Definition node_ApplyRecord (rec : Record_) n : option error * Rp :=
  if bool_decide (op rec = OpHotStuff) then ApplyRecoveredRecord rec n
  else match fstore (fsm n) with
       | None => (None, n)
       | Some s =>
           match ApplyRecord s (applyClock (fsm n) 0) rec with
           | None => (None, set_fsm (set_fstore None (fsm n)) n)
           | Some (e, s') => (e, set_fsm (tick_clocks (set_fstore (Some s') (fsm n))) n)
           end
       end.

Definition node_ApplySnapshot (entries : list SnapshotEntry) n : option error * Rp :=
  (None, set_fsm (set_fstore (s ← fstore (fsm n); ApplySnapshot s entries) (fsm n)) n).

Definition node_Snapshot n : result (list SnapshotEntry) :=
  match fstore (fsm n) with
  | Some s => Ok (Store.Snapshot s (snapClock (fsm n) 0))
  | None => Err IOError
  end.

Definition node_hooks : Hooks Rp :=
  mkHooks (Some node_ApplySnapshot) (Some node_ApplyRecord) node_Snapshot.

(** Recovery of the decoded records of the log, which the writer has numbered one
    by one: each is validated and handed to its hook; an error of either ends the
    recovery. *)
Fixpoint node_replay (last : N) (log : list Record_) : sys Rp N :=
  match log with
  | [] => mret last
  | rec :: log' =>
      last ← replayRec (hApplyRecord node_hooks) last (with_logIndex rec (u64_succ last));
      node_replay last log'
  end.

(** ** Opening a node *)

(** The WAL of a node: compaction is driven by [GC], not by the manager. *)
Definition node_wal_config : Config :=
  let c := DefaultConfig in
  mkConfig (cfChannelSize c) (cfThreshold c) (cfTmpLimit c) (cfHoldLimit c) (cfCheckInterval c)
    (cfAckTimeout c) (cfMaxRetries c) true.

(** [wal.Open], recovering into the replica and the store. *)
Definition open_wal n : sys () (Rp * WAL) := fun s =>
  match Open node_wal_config node_hooks (mkSys (disk s) (io s) n) with
  | Done (Ok _) s' => Done (Ok (mem s')) (mkSys (disk s') (io s') ())
  | Done (Err e) s' => Done (Err e) (mkSys (disk s') (io s') ())
  | Crashed d _ => Crashed d ()
  end.

(** What the network and the rest of the process contribute to [Open]. *)
Record OpenEnv : Type := mkOpenEnv {
  oGenKey : result bytes;        (* ed25519.GenerateKey *)
  oListen : result string;       (* tr.Listen *)
  oFsm : Fsm I FW;               (* store.NewCacheyStore, with its clocks *)
  oAttach : WAL -> W             (* the handle on the opened log *)
}.

Record HotStuffNode : Type := mkHotStuffNode {
  hnID : string; hnNode : Rp; hnTr : TCPTransport; hnWAL : WAL; hnAddr : string; hnGCLoop : bool
}.

(** Enabling TLS needs all three of its parts. *)
Definition tls_wanted (cfg : HotStuffNodeConfig) : bool :=
  is_set (cTLSCA cfg) || is_set (cTLSCert cfg) || is_set (cTLSKey cfg).
Definition tls_parts (cfg : HotStuffNodeConfig) : bool :=
  is_set (cTLSCA cfg) && is_set (cTLSCert cfg) && is_set (cTLSKey cfg).

(** [None]: a panic. When the listener does not open the log is closed, which
    leaves the files as they are. *)
Definition OpenHotStuffNode (env : OpenEnv) (cfg : HotStuffNodeConfig) : sys () (option HotStuffNode) :=
  if (String.eqb (cID cfg) "" || String.eqb (cDir cfg) "" || String.eqb (cHSAddr cfg) "")%bool
  then fail (Wrapped "hotstuff node: id, dir and HSAddr are required")
  else
    let lead := if String.eqb (cLeader cfg) "" then cID cfg else cLeader cfg in
    priv ← loadHSIdentity (oGenKey env) (cID cfg);
    match validateHSValidatorKeys cfg priv with
    | Some e => fail e
    | None =>
        n ← lift (NewReplica (cID cfg) (cPeers cfg) lead (ed25519_public priv, priv) (cGCRetention cfg) (oFsm env));
        n ← repinHSPeers n;
        let tr := SetNode (cID cfg) (ed25519_public priv) NewTCPTransport in
        x ← lift (SetValidatorKeys (cValidatorKeys cfg) tr n);
        let '(tr, n) := x in
        let tr := if tls_wanted cfg then EnableTLS tr else tr in
        if (tls_wanted cfg && negb (tls_parts cfg))%bool then fail (Wrapped "TLSCA, TLSCert and TLSKey must be set together")
        else
          cp ← loadHSCheckpoint;
          match match cp with Some cp => LoadCheckpoint cp n | None => Some n end with
          | None => mret None
          | Some n =>
              x ← open_wal n;
              let '(n, w) := x in
              match FinishRecovery (SetLogStore (oAttach env w) n) with
              | None => mret None
              | Some n =>
                  bound ← lift (oListen env);
                  mret (Some (mkHotStuffNode (cID cfg) n (RegisterPeer (cID cfg) bound tr) w bound
                                (0 <? cGCThreshold cfg)%Z))
              end
          end
    end.

(** ** Compaction *)

(** A step of the WAL alone, and one of the node with its files. *)
Definition on_wal {A} (p : sys WAL A) : sys (Rp * WAL) A := fun s =>
  match p (mkSys (disk s) (io s) (mem s).2) with
  | Done r s' => Done r (mkSys (disk s') (io s') ((mem s).1, mem s'))
  | Crashed d w' => Crashed d ((mem s).1, w')
  end.

(** [meanwhile] is what the node does after the engine has computed the
    checkpoint and released its lock, and before the log is sealed. The store's
    snapshot is taken during the rotation. [None]: a panic. *)
Definition node_GC (meanwhile : sys (Rp * WAL) ()) : sys (Rp * WAL) (option ()) :=
  x ← get_mem;
  match GC x.1 with
  | None => mret None
  | Some (None, n) => put_mem (n, x.2);; mret (Some ())
  | Some (Some cp, n) =>
      put_mem (n, x.2);;
      writeHSCheckpoint cp;;
      meanwhile;;
      x ← get_mem;
      on_wal (Rotate (fun _ => node_Snapshot x.1));;
      mret (Some ())
  end.

(** A tick of the background loop; its errors are logged. *)
Definition gc_tick (threshold : Z) (meanwhile : sys (Rp * WAL) ()) : sys (Rp * WAL) () :=
  x ← get_mem;
  if (threshold <=? countAtomic (writer x.2))%Z then attempt (node_GC meanwhile);; mret () else mret ().
End node.
