(* ===== verification/HotStuffDurable.v ===== *)
(** * A durable HotStuff node: restarting gives back its store *)

From stdpp Require Import relations.
From S2P Require Import Prelude WalTypes WalCodec Os WalRecovery WalWriter BTree Expiration Store StoreProps StoreThms RaftLog Raft Protocol Handler ClusterStore HotStuffTypes HotStuff HotStuffProps HotStuffInstances HotStuffHash HotStuffThms HotStuffMoves HotStuffCommit HotStuffStore HotStuffStoreThms HotStuffNode.

(** Replay does not depend on the clock while nothing in the map has expired. *)
Lemma apply_data_clock (n now : Z) (d : gmap string Store.Entry) (rec : Record_) :
  all_live now d -> (n <= now)%Z -> apply_data n d rec = apply_data now d rec.
Proof. intros. unfold apply_data. destruct (op rec); try done. by apply ttl_data_live. Qed.

Section durable.
Context {I FW W : Type}.
Context {EI : ExpirationIndex I} {EIL : ExpirationIndexLaws I} {WF : Wal FW} {WW : Wal W} {WT : WalTrace W}
  {CR : Crypto} {J : Json}
  {MJ : MembershipJson} {PJ : PersistJson} {NJ : NodeJson}.
Implicit Types n : Replica (Fsm I FW) W.
#[local] Existing Instance durable_executor.

(** ** The store follows the log *)

(** What the log says the store holds. *)
Definition logged_data (now : Z) (log : list Record_) : gmap string Store.Entry := foldl (apply_data now) ∅ log.

(** The store, none of whose clocks is past [now], holds what [log] says. *)
Definition follows (now : Z) (log : list Record_) (f : Fsm I FW) : Prop :=
  (forall k, (applyClock f k <= now)%Z) /\
  exists s, fstore f = Some s /\ store_ok s /\ data s = logged_data now log.

Lemma logged_live now log : Forall (unexpired now) log -> all_live now (logged_data now log).
Proof. intros H. apply all_live_replay; [|done]. intros k e. by rewrite lookup_empty. Qed.

Lemma fsm_apply_follows now log f rec :
  Forall (unexpired now) log -> follows now log f -> follows now (log ++ [rec]) (fsm_apply f rec).
Proof.
  intros Hu (Hc & s & Hf & Hs & Hd). unfold fsm_apply. rewrite Hf. cbn [mbind option_bind].
  destruct (ApplyRecord_moves s (applyClock f 0) rec Hs) as (e & s' & -> & Hd' & _ & Hs' & _).
  split; [intros k; apply Hc|]. exists s'. split_and!; [done|done|].
  rewrite Hd', Hd. unfold logged_data. rewrite foldl_app. simpl. apply apply_data_clock; [by apply logged_live|apply Hc].
Qed.

(** Records of the engine do not concern the store. *)
Lemma follows_engine now log l f :
  Forall (fun r => op r = OpHotStuff) l -> follows now log f -> follows now (log ++ l) f.
Proof.
  intros Hl (Hc & s & Hf & Hs & Hd). split; [done|]. exists s. split_and!; try done. rewrite Hd.
  unfold logged_data. rewrite foldl_app. generalize (foldl (apply_data now) ∅ log) as d.
  induction Hl as [|r l Hr _ IH]; intros d; simpl; [done|]. rewrite <- IH. unfold apply_data. by rewrite Hr.
Qed.

(** A failed append leaves nothing behind. *)
Context (clean : forall (w : W) r w' e, wal_append w r = (w', Some e) -> wal_log w' = wal_log w).
#[local] Set Default Proof Using "clean".

Lemma append_engine (w : W) pe :
  exists l, wal_log (appendEntry w pe).1 = wal_log w ++ l /\ Forall (fun r => op r = OpHotStuff) l.
Proof.
  unfold appendEntry. destruct (json_persist pe) as [data|]; [|exists []; by rewrite app_nil_r].
  destruct (wal_append w _) as [w' e] eqn:Ea. simpl. destruct e as [e|].
  - exists []. rewrite app_nil_r. split; [by eapply clean|done].
  - destruct (wal_append_log _ _ _ _ Ea) as (l & Hl & Hok). rewrite (Hok eq_refl) in Hl. eexists. by split; [exact Hl|repeat constructor].
Qed.

Lemma engine_follows now (l l' : option W) f :
  engine_log l l' -> follows now (wal_content l) f -> follows now (wal_content l') f.
Proof.
  induction 1 as [|l1 l2 l3 (w & pe & -> & ->) _ IH]; [done|]. intros Hf. apply IH. simpl.
  destruct (append_engine w pe) as (l & -> & Hl). by apply follows_engine.
Qed.

Lemma engine_grows (l l' : option W) : engine_log l l' -> wal_content l `prefix_of` wal_content l'.
Proof.
  induction 1 as [|l1 l2 l3 (w & pe & -> & ->) _ IH]; [done|]. etrans; [|exact IH]. simpl.
  destruct (append_engine w pe) as (l & -> & _). by apply prefix_app_r.
Qed.

Lemma hs_apply_follows now l f b l' f' :
  Forall (unexpired now) (wal_content l) -> hs_apply l f b = (l', f') ->
  follows now (wal_content l) f -> follows now (wal_content l') f'.
Proof.
  intros Hu. unfold hs_apply, durable_executor, newHSStoreApply. destruct l as [w|]; [|by intros [= <- <-]].
  destruct (block_record b) as [rec|]; [|by intros [= <- <-]].
  destruct (wal_append w rec) as [w' [e|]] eqn:Ea; intros [= <- <-] Hf; simpl in *.
  - by rewrite (clean _ _ _ _ Ea).
  - destruct (wal_append_log _ _ _ _ Ea) as (l & -> & ->); [|done]. by apply fsm_apply_follows.
Qed.

#[export] Instance durable_trace : ExecTrace (Fsm I FW) W.
Proof using Type.
  intros l f b. unfold hs_apply, durable_executor, newHSStoreApply. destruct l as [w|]; [|done].
  destruct (block_record b) as [rec|]; [|done].
  destruct (wal_append w rec) as [w' [e|]] eqn:Ea; (destruct (wal_append_log _ _ _ _ Ea) as (l & Hl & _));
    (split; [done|]); simpl; rewrite Hl; by apply prefix_app_r.
Qed.

(** ** Runs *)

(** [n'] comes after [n]: its log is longer, and if the store of [n] follows its
    log then so does that of [n']. *)
Definition keeps_up (now : Z) n n' : Prop :=
  log_of n `prefix_of` log_of n' /\
  (Forall (unexpired now) (log_of n') -> follows now (log_of n) (fsm n) -> follows now (log_of n') (fsm n')).

Lemma keeps_up_trans now n1 n2 n3 : keeps_up now n1 n2 -> keeps_up now n2 n3 -> keeps_up now n1 n3.
Proof.
  intros [P1 H1] [P2 H2]. split; [by etrans|]. intros Hu Hf. apply H2; [done|]. apply H1; [|done].
  destruct P2 as [l Hl]. rewrite Hl in Hu. by apply Forall_app in Hu as [? _].
Qed.

Lemma keeps_up_same now n n' : logStore n' = logStore n -> fsm n' = fsm n -> keeps_up now n n'.
Proof. unfold keeps_up, log_of. intros -> ->. by split. Qed.

Lemma executeBlock_keeps_up now n b : keeps_up now n (executeBlock n b).
Proof.
  unfold executeBlock.
  set (n1 := if (_ && _)%bool then _ else n). assert (keeps_up now n n1) as H1.
  { unfold n1. case_match; [|by apply keeps_up_same].
    pose proof (exec_log (logStore n) (fsm n) b) as [_ Hp]. unfold keeps_up, log_of.
    destruct (hs_apply (logStore n) (fsm n) b) as [l' f'] eqn:Ea. simpl in *. split; [done|].
    intros Hu Hf. eapply hs_apply_follows; [|exact Ea|done].
    destruct Hp as [l Hl]. rewrite Hl in Hu. by apply Forall_app in Hu as [? _]. }
  clearbody n1. eapply keeps_up_trans; [exact H1|].
  unfold markAppliedLocked, activateTransitionLocked. repeat case_match; by apply keeps_up_same.
Qed.

Lemma executeAll_keeps_up now bs n : keeps_up now n (foldl executeBlock n bs).
Proof.
  revert n. induction bs as [|b bs IH]; intros n; simpl; [by apply keeps_up_same|].
  eapply keeps_up_trans; [apply executeBlock_keeps_up|apply IH].
Qed.

Lemma moves_keeps_up now t n n' : moves t n n' -> keeps_up now n n'.
Proof.
  induction 1 as [|n n1 n' Hm _ IH]; [by apply keeps_up_same|]. eapply keeps_up_trans; [|exact IH].
  destruct Hm as [n1 (_ & _ & _ & _ & _ & _ & _ & Hf & _ & _ & Hl)|b _|b _|q c p g bs _ _|v _ _|vc _];
    try by apply keeps_up_same.
  - unfold keeps_up, log_of. rewrite Hf. split; [by apply engine_grows|]. intros _. by apply engine_follows.
  - apply executeAll_keeps_up.
Qed.

(** ** Replaying *)

Lemma node_ApplyRecord_follows now log n r :
  Forall (unexpired now) log -> follows now log (fsm n) -> follows now (log ++ [r]) (fsm (node_ApplyRecord r n).2).
Proof.
  intros Hu Hf. unfold node_ApplyRecord. destruct (bool_decide_reflect (op r = OpHotStuff)) as [Ho|Ho].
  - assert (fsm (ApplyRecoveredRecord r n).2 = fsm n) as ->; [|apply follows_engine; [by repeat constructor|done]].
    unfold ApplyRecoveredRecord. by repeat (case_match; simpl).
  - pose proof (fsm_apply_follows now log (fsm n) r Hu Hf) as Ha. destruct Hf as (_ & s & Hf & _).
    unfold fsm_apply in Ha. rewrite Hf in *. cbn [mbind option_bind] in Ha.
    destruct (ApplyRecord s (applyClock (fsm n) 0) r) as [[e s']|]; simpl in *; [done|].
    by destruct Ha as (_ & ? & ? & _).
Qed.

(** A record that recovery accepts: an operation on the store or one that does
    nothing, or a record of the engine that decodes. *)
Definition recoverable (r : Record_) : Prop :=
  op r ∈ [OpPut; OpDelete; OpTTL; OpNoop; OpConfig] \/ op r = OpHotStuff /\ is_Some (json_unpersist (rdata r)).

(** Those that the engine writes are. *)
Lemma engine_recoverable pe d :
  (forall e b, json_persist e = Ok b -> json_unpersist b = Some e) -> json_persist pe = Ok d ->
  recoverable (mkRecord OpHotStuff "" "" 0 0 0 0 [] d).
Proof using Type. intros Hj Hd. right. split; [done|]. simpl. by rewrite (Hj _ _ Hd). Qed.

Lemma validateRec_next r last : recoverable r -> validateRec (with_logIndex r (u64_succ last)) last = None.
Proof using Type.
  intros Hr. unfold validateRec. cbn [op logIndex with_logIndex]. rewrite N.ltb_irrefl.
  destruct Hr as [Hin|[-> _]]; [|done].
  repeat (apply elem_of_cons in Hin as [->|Hin]; [done|]). by apply elem_of_nil in Hin.
Qed.

Lemma node_ApplyRecord_ok r n : recoverable r -> (node_ApplyRecord r n).1 = None.
Proof using Type.
  intros Hr. unfold node_ApplyRecord. case_bool_decide as Ho.
  - unfold ApplyRecoveredRecord. rewrite bool_decide_true by done. simpl.
    destruct Hr as [Hin|[_ [pe ->]]]; [|done]. exfalso. rewrite Ho in Hin.
    repeat (apply elem_of_cons in Hin as [Hin|Hin]; [done|]). by apply elem_of_nil in Hin.
  - destruct Hr as [Hin|[? _]]; [|done]. destruct (fstore (fsm n)) as [s|]; [|done]. unfold ApplyRecord.
    repeat (apply elem_of_cons in Hin as [->|Hin];
      [first [done|match goal with |- context [?o ≫= _] => by destruct o as [[]|] || by destruct o end]|]). by apply elem_of_nil in Hin.
Qed.

(** A valid record goes to its hook. *)
Lemma node_replayRec r last d sc n :
  validateRec (with_logIndex r (u64_succ last)) last = None ->
  replayRec (hApplyRecord node_hooks) last (with_logIndex r (u64_succ last)) (mkSys d sc n) =
    let '(e, n') := node_ApplyRecord r n in
    Done (match e with Some err => Err err | None => Ok (u64_succ last) end) (mkSys d sc n').
Proof using Type.
  intros Hv. unfold replayRec. rewrite Hv. cbn [logIndex with_logIndex]. rewrite N.eqb_refl. cbn [hApplyRecord node_hooks].
  unfold run_hook, get_mem, put_mem, mbind, sys_bind. cbn [mem disk io].
  change (node_ApplyRecord (with_logIndex r (u64_succ last)) n) with (node_ApplyRecord r n).
  by destruct (node_ApplyRecord r n) as [[e|] n'].
Qed.

(** Replaying recoverable records does not fail. *)
Lemma node_replay_ok log last d sc n :
  Forall recoverable log ->
  exists last', node_replay last log (mkSys d sc n) =
    Done (Ok last') (mkSys d sc (foldl (fun n r => (node_ApplyRecord r n).2) n log)).
Proof using Type.
  intros Hr. revert last n. induction Hr as [|r log Hr _ IH]; intros last n; [by eexists|].
  cbn [node_replay foldl]. unfold mbind at 1, sys_bind. rewrite (node_replayRec r last d sc n) by (by apply validateRec_next).
  pose proof (node_ApplyRecord_ok r n Hr) as He. destruct (node_ApplyRecord r n) as [e n1]. simpl in He. subst e. apply IH.
Qed.

Lemma node_replay_follows now log log' n :
  Forall (unexpired now) (log ++ log') -> follows now log (fsm n) ->
  follows now (log ++ log') (fsm (foldl (fun n r => (node_ApplyRecord r n).2) n log')).
Proof.
  revert log n. induction log' as [|r log' IH]; intros log n Hu Hf; simpl; [by rewrite app_nil_r|].
  rewrite cons_middle, app_assoc in *. apply (IH (log ++ [r])); [done|].
  apply node_ApplyRecord_follows; [|done]. rewrite <- app_assoc in Hu. by apply Forall_app in Hu as [? _].
Qed.

Lemma recoverAll_fsm qs (acc : QC * Block * option Block * Replica (Fsm I FW) W) acc' :
  recoverAll acc qs = Some acc' -> fsm acc'.2 = fsm acc.2.
Proof using Type.
  revert acc. induction qs as [|q qs IH]; intros acc E; simpl in E; [by simplify_eq|].
  destruct (recoverQC acc q) as [acc1|] eqn:E1; simpl in E; [|done]. rewrite (IH _ E). clear E IH.
  destruct acc as [[[high lock] exec] n]. revert E1. unfold recoverQC.
  repeat case_match; simpl; intros E; simplify_eq; try done;
    (destruct exec; simpl in E; [|done]; case_match; simplify_eq; simpl; [|done];
     unfold activateTransitionLocked; by repeat case_match).
Qed.

Lemma markAll_fsm bs n : fsm (markAll bs n) = fsm n.
Proof using Type.
  revert n. induction bs as [|b bs IH]; intros n; [done|]. unfold markAll in *. simpl. rewrite IH.
  unfold markAppliedLocked. by case_match.
Qed.

Lemma FinishRecovery_fsm n n' : FinishRecovery n = Some n' -> fsm n' = fsm n.
Proof using Type.
  unfold FinishRecovery, finishRecoveryLocked. destruct (qcHigh n) as [q|]; simpl; [|done].
  destruct (blocks n !! bLock n) as [lk|]; simpl; [|done].
  destruct (recoverAll _ (recoverQCs n)) as [[[[q1 lk1] ex1] n1]|] eqn:E1; cbn [mbind option_bind]; [|done].
  apply recoverAll_fsm in E1. simpl in E1.
  match goal with |- (?o ≫= _) = _ -> _ => destruct o as [ex2|] end; cbn [mbind option_bind]; [|done].
  match goal with |- (let '(_, _) := ?x in _) = _ -> _ => destruct x as [q2 [ex3|]] end;
    cbn [mbind option_bind]; [|done].
  match goal with |- (?o ≫= _) = _ -> _ => destruct o end; cbn [mbind option_bind]; [|done].
  intros [= <-]. simpl. by rewrite markAll_fsm.
Qed.

(** C4: a restart gives back the store: after a durable node has handled any
    inputs, recovering a new node from the log it shares with its store (each
    record validated, then handed to its hook) does not fail and gives a store
    with exactly the contents the old one had, and finishing the recovery of the
    engine executes nothing again. Assumed: every record in the log is one that
    recovery accepts, a put, delete, TTL, no-op or configuration, or an engine
    record that decodes (a committed command with another op code is logged all
    the same, and then the node cannot restart: [unknown_op_blocks_restart]); the
    restart comes before any expiry that was set; a failed append leaves nothing
    in the log and no gap in the numbering, which for the node's WAL means that no
    append fails; and no garbage collection, with its checkpoint and rotation,
    came between. *)
Theorem restart_exact now evs n out n' n0 d sc :
  waiting_proper n -> hs_run evs n = Some (out, n') ->
  follows now (log_of n) (fsm n) -> Forall (unexpired now) (log_of n') -> follows now [] (fsm n0) ->
  Forall recoverable (log_of n') ->
  exists s s' last m, fstore (fsm n') = Some s /\
    node_replay 0 (log_of n') (mkSys d sc n0) = Done (Ok last) (mkSys d sc m) /\
    fstore (fsm m) = Some s' /\ store_ok s' /\ data s' = data s /\
    forall n1, FinishRecovery m = Some n1 -> fsm n1 = fsm m.
Proof.
  intros Hw Hrun Hf Hu Hf0 Hr. apply (hs_run_moves true) in Hrun; [|done|by apply Forall_true].
  destruct (moves_keeps_up now true n n' Hrun) as [_ Hk]. destruct (Hk Hu Hf) as (_ & s & Hs & _ & Hd).
  destruct (node_replay_follows now [] (log_of n') n0 Hu Hf0) as (_ & s' & Hs' & Hok & Hd').
  destruct (node_replay_ok (log_of n') 0 d sc n0 Hr) as (last & E).
  exists s, s', last. eexists. split_and!; [done|exact E|done|done|by rewrite Hd, Hd'|apply FinishRecovery_fsm].
Qed.
End durable.

(** ** What the apply hook of a durable node gets wrong *)

Section flaws.
Context {I FW W : Type}.
Context {EI : ExpirationIndex I} {WF : Wal FW} {WW : Wal W} {WT : WalTrace W} {CR : Crypto} {J : Json}
  {MJ : MembershipJson} {PJ : PersistJson} {NJ : NodeJson}.
Implicit Types n : Replica (Fsm I FW) W.
#[local] Existing Instance durable_executor.

(** A committed command whose append fails is dropped: the replica counts the
    block as executed, its store never sees the command. *)
Lemma failed_append_drops_command n b rec w w' e :
  logStore n = Some w -> block_record b = Some rec -> wal_append w rec = (w', Some e) ->
  fsm (executeBlock n b) = fsm n /\ bExec (executeBlock n b) = bID b /\ bID b ∈ appliedIDs (executeBlock n b).
Proof.
  intros Hl Hb Ha. destruct (executeBlock_frame n b) as (_ & _ & _ & _ & Hx & Hf & _ & Hap).
  split_and!; [|done|rewrite Hap; set_solver].
  rewrite Hf. unfold run_block. case_match; [|done].
  unfold hs_apply, durable_executor, newHSStoreApply. by rewrite Hl, Hb, Ha.
Qed.

Lemma node_ApplyRecord_guard r n :
  (vHeight n <= vHeight (node_ApplyRecord r n).2)%N /\
  forall h, op r = OpHotStuff -> json_unpersist (rdata r) = Some (pkVoted h) ->
    (h <= vHeight (node_ApplyRecord r n).2)%N.
Proof.
  unfold node_ApplyRecord. destruct (bool_decide_reflect (op r = OpHotStuff)) as [Ho|Ho].
  - apply ApplyRecovered_guard.
  - repeat case_match; simpl; split; try done; lia.
Qed.

Lemma node_replay_app log1 log2 last (s : Sys (Replica (Fsm I FW) W)) :
  node_replay last (log1 ++ log2) s = (last' ← node_replay last log1; node_replay last' log2) s.
Proof.
  revert last s. induction log1 as [|r log1 IH]; intros last s; [done|]. cbn [app node_replay].
  unfold mbind, sys_bind in *. destruct (replayRec _ _ _ s) as [[l|e] s1|]; [apply IH|done..].
Qed.

(** A command can carry a record of the engine: the apply hook writes it to the
    shared log, and a restart takes it for the engine's own. One that claims a
    vote at height [h] leaves the replica unable to vote below [h]. *)
Lemma command_writes_engine_log (f : Fsm I FW) b rec h w w' (s : Sys (Replica (Fsm I FW) W)) last s' :
  block_record b = Some rec -> op rec = OpHotStuff -> json_unpersist (rdata rec) = Some (pkVoted h) ->
  wal_append w rec = (w', None) ->
  (newHSStoreApply (Some w) f b).1 = Some w' /\
  (node_replay 0 (wal_log w') s = Done (Ok last) s' -> (h <= vHeight (mem s'))%N).
Proof.
  intros Hb Ho Hp Ha. unfold newHSStoreApply. rewrite Hb, Ha. split; [done|].
  destruct (wal_append_log _ _ _ _ Ha) as (l & -> & ->); [|done].
  rewrite node_replay_app. unfold mbind at 1, sys_bind. destruct (node_replay 0 (wal_log w) s) as [[last1|] [d1 sc1 n1]|]; try done.
  cbn [node_replay]. unfold mbind at 1, sys_bind. rewrite (node_replayRec rec last1 d1 sc1 n1)
    by (unfold validateRec; cbn [op logIndex with_logIndex]; by rewrite Ho, N.ltb_irrefl).
  pose proof (proj2 (node_ApplyRecord_guard rec n1) h Ho Hp) as Hg.
  destruct (node_ApplyRecord rec n1) as [[e|] n2]; [done|]. by intros [= _ <-].
Qed.

(** A committed command may carry any op code: the apply hook logs it, and no
    restart gets past it. *)
Theorem unknown_op_blocks_restart (f : Fsm I FW) b rec o w w' (s : Sys (Replica (Fsm I FW) W)) :
  block_record b = Some rec -> op rec = OpUnknown o -> wal_append w rec = (w', None) ->
  (newHSStoreApply (Some w) f b).1 = Some w' /\
  forall last s', node_replay 0 (wal_log w') s <> Done (Ok last) s'.
Proof.
  intros Hb Ho Ha. unfold newHSStoreApply. rewrite Hb, Ha. split; [done|]. intros last s'.
  destruct (wal_append_log _ _ _ _ Ha) as (l & -> & ->); [|done].
  rewrite node_replay_app. unfold mbind at 1, sys_bind. destruct (node_replay 0 (wal_log w) s) as [[last1|] s1|]; try done.
  cbn [node_replay]. unfold replayRec, validateRec. cbn [op with_logIndex]. by rewrite Ho.
Qed.
End flaws.

Lemma NewReplica_fsm {F W : Type} {CR : Crypto} id ps lead kp r f (n : Replica F W) :
  NewReplica id ps lead kp r f = Ok n -> fsm n = f.
Proof. unfold NewReplica, genesisBlock. intros E. repeat case_match; by simplify_eq. Qed.

(** ** An example restart *)

(** A cluster of one commits a write and two empty blocks. *)
Definition solo_evs : list (Z * hs_input) := (fun c => (0%Z, HPropose c)) <$> [solo_bytes; []; []].

Definition solo_run (n : Replica (Fsm Index MemLog) MemLog) :=
  hs_run (EX := newHSStoreApply (J := OneJson)) (CR := FieldCrypto) (J := OneJson) solo_evs n.

Lemma restart_exact_witness :
  exists n out n', solo = Ok n /\ solo_run (SetLogStore [] n) = Some (out, n') /\
    exists s s' last m, fstore (fsm n') = Some s /\ data s !! "k" = Some (Store.mkEntry "v" 0) /\
      node_replay (CR := FieldCrypto) 0 (log_of n') (boot ∅ [] n) = Done (Ok last) (boot ∅ [] m) /\
      fstore (fsm m) = Some s' /\ data s' = data s.
Proof.
  assert (match solo with
    | Ok n => match solo_run (SetLogStore [] n) with
              | Some (_, n') => (s ← fstore (fsm n'); data s !! "k",
                                 forallb (fun r => bool_decide (op r = OpPut) || bool_decide (op r = OpHotStuff /\ is_Some (json_unpersist (rdata r))))%bool (log_of n'))
              | _ => (None, false) end
    | Err _ => (None, false) end = (Some (Store.mkEntry "v" 0), true)) as H by (vm_compute; reflexivity).
  destruct solo as [n|] eqn:En; [|discriminate H].
  destruct (solo_run (SetLogStore [] n)) as [[out n']|] eqn:Er; [|discriminate H]. injection H as Hk Hu.
  assert (Forall (fun r => op r = OpPut \/ op r = OpHotStuff /\ is_Some (json_unpersist (rdata r))) (log_of n')) as Hall.
  { apply Forall_forall. intros r Hr. rewrite forallb_forall in Hu.
    specialize (Hu r (proj1 (list_elem_of_In _ _) Hr)). apply orb_prop in Hu as [H%bool_decide_eq_true|H%bool_decide_eq_true]; auto. }
  exists n, out, n'. split; [reflexivity|]. split; [exact Er|].
  assert (follows 10 [] (fsm n)) as Hf0.
  { rewrite (NewReplica_fsm _ _ _ _ _ _ _ En). split; [done|].
    exists NewCacheyStore. split_and!; [done|apply store_ok_New|done]. }
  destruct (restart_exact (CR := FieldCrypto) (J := OneJson) (WW := MemLog_wal) ltac:(discriminate) 10 solo_evs
    (SetLogStore [] n) out n' n ∅ (mkMachine [] [])) as (s & s' & last & m & Hs & Hm & Hs' & _ & Hd & _).
  - apply (NewReplica_rooted _ _ _ _ _ _ _ En).
  - exact Er.
  - exact Hf0.
  - eapply Forall_impl; [exact Hall|]. intros r [Hr|[Hr _]] Ho; rewrite Ho in Hr; discriminate.
  - exact Hf0.
  - eapply Forall_impl; [exact Hall|]. intros r [Hr|Hr]; [left; rewrite Hr; apply list_elem_of_here|by right].
  - exists s, s', last, m. split_and!; try done. rewrite Hs in Hk. exact Hk.
Defined.
