(* ===== verification/HotStuffNodeThms.v ===== *)
(** * A durable HotStuff node: its files *)

From Stdlib Require Import Ascii.
From S2P Require Import Prelude WalTypes WalCodec Os WalRecovery WalRecoveryThms WalWriter BTree Expiration Store RaftLog Raft Protocol Handler ClusterStore HotStuffTypes HotStuff HotStuffProps HotStuffInstances HotStuffThms HotStuffStore HotStuffNode.

(** ** encoding/hex *)

Lemma hex_value_digit (x : nat) : x < 16 -> hex_value (hex_digit x) = Some x.
Proof. intros H. do 16 (destruct x as [|x]; [reflexivity|]). lia. Qed.

Lemma unhex_hex (b : bytes) : unhex (hex b) = Some b.
Proof.
  induction b as [|c b IH]; [done|]. cbn [hex unhex]. pose proof (nat_ascii_bounded c).
  rewrite !hex_value_digit by (apply Nat.Div0.div_lt_upper_bound || apply Nat.mod_upper_bound; lia).
  cbn [mbind option_bind]. rewrite IH. cbn [mbind option_bind].
  by rewrite <- Nat.div_mod_eq, ascii_nat_embedding.
Qed.

Section files.
Context {NJ : NodeJson}.

(** ** The checkpoint *)

(** Loading the checkpoint from a disk that works. *)
Definition stored_checkpoint (d : Disk) : result (option Checkpoint) :=
  match loadHSCheckpoint (boot d [] ()) with Done r _ => r | Crashed _ _ => Err IOError end.

Lemma stored_checkpoint_eq d :
  stored_checkpoint d = match d !! hsCheckpointName with
                        | None => Ok None
                        | Some b => match json_uncheckpoint b with Some cp => Ok (Some cp) | None => Err (Wrapped "json") end
                        end.
Proof.
  unfold stored_checkpoint, loadHSCheckpoint, read_if_exists, ReadFile, exists_file, content, idle, respond, boot,
    mbind, sys_bind, mret, sys_ret, fail. simpl.
  destruct (d !! hsCheckpointName) as [b|] eqn:E; [|by rewrite bool_decide_eq_false_2 by (by intros [])].
  rewrite bool_decide_eq_true_2 by (by eexists). simpl. rewrite E. by destruct (json_uncheckpoint b).
Qed.

(** Only the checkpoint and its temporary file may differ, and the checkpoint is
    the old one or [b]. *)
Definition old_or_new (d0 : Disk) (b : bytes) (d : Disk) : Prop :=
  (forall f, f <> hsCheckpointTmp -> f <> hsCheckpointName -> d !! f = d0 !! f) /\
  (d !! hsCheckpointName = d0 !! hsCheckpointName \/ d !! hsCheckpointName = Some b).

Section swap.
Context {S : Type} (s : Sys S) (good : bytes).

(** An image that the machine could have left before, but for the temporary file. *)
Definition old_image (i : Disk) : Prop := exists d0, d0 ∈ remains s /\ agree_except hsCheckpointTmp d0 i.
(** The same with the new checkpoint in place of the old one. *)
Definition new_image (i : Disk) : Prop :=
  (exists d0, d0 ∈ remains s /\ forall f, f <> hsCheckpointTmp -> f <> hsCheckpointName -> i !! f = d0 !! f) /\
  i !! hsCheckpointName = Some good /\ i !! hsCheckpointTmp = None.

(** Some image of before, with the checkpoint old or new. *)
Definition swapped (i : Disk) : Prop := exists d0, d0 ∈ remains s /\ old_or_new d0 good i.

Lemma old_swapped i : old_image i -> swapped i.
Proof using Type. intros (d0 & Hd & Ha). exists d0. split; [done|]. split; [intros f Hf _; by apply Ha|left; by apply Ha]. Qed.

Lemma new_swapped i : new_image i -> swapped i.
Proof using Type. intros [(d0 & Hd & Ha) [Hi _]]. exists d0. split; [done|]. split; [done|by right]. Qed.

Lemma old_ignores : ignores old_image hsCheckpointTmp.
Proof using Type. intros d d' Ha (d0 & Hd & H0). exists d0. split; [done|]. intros k Hk. by rewrite Ha, H0. Qed.

Lemma old_renamed i :
  old_image i -> i !! hsCheckpointTmp = Some good -> new_image (rename_disk hsCheckpointTmp hsCheckpointName i).
Proof using Type.
  intros (d0 & Hd & Ha) Hi. unfold rename_disk. rewrite Hi. split; [|split].
  - exists d0. split; [done|]. intros f Hf1 Hf2. rewrite lookup_delete_ne, lookup_insert_ne by done. by apply Ha.
  - by rewrite lookup_delete_ne, lookup_insert_eq by done.
  - apply lookup_delete_eq.
Qed.

(** The rename and the sync of the directory, once the temporary file is synced. *)
Lemma swap_ends (s1 : Sys S) :
  Forall (fun i => old_image i /\ i !! hsCheckpointTmp = Some good) (remains s1) ->
  ends (Rename hsCheckpointTmp hsCheckpointName;; syncDir) s1
    (fun r s' => Forall swapped (remains s') /\ (r = Ok () -> Forall new_image (remains s')))
    (fun d _ => swapped d).
Proof using Type.
  intros HR. set (R1 := fun i => old_image i /\ i !! hsCheckpointTmp = Some good) in *.
  assert (forall i, R1 i \/ new_image i -> swapped i) as Hsw by (intros i [[? _]|?]; auto using old_swapped, new_swapped).
  assert (R1 (disk s1)) as [Hv Ht] by (by apply Forall_inv in HR). pose proof (old_renamed _ Hv Ht) as Hv2.
  apply ends_bind, (ends_change (fun i => R1 i \/ new_image i)).
  - eapply Forall_impl; [exact HR|]. by left.
  - intros i i' Hi [_ ->]%elem_of_if_same. right. destruct Hi as [[Hi Hit]|Hi]; [by apply old_renamed|].
    unfold rename_disk. destruct Hi as (? & ? & Hn). by rewrite Hn.
  - intros e _ He. apply (ends_sync (fun i => R1 i \/ new_image i)); cbn [disk io mem]; [done| | |].
    + intros e1 _ He1. assert (Forall new_image (remains (mkSys (rename_disk hsCheckpointTmp hsCheckpointName (disk s1)) e1 (mem s1)))) as Hall.
      { apply remains_cons; [done|]. eapply Forall_impl; [exact He1|]. intros i [[[_ Hi]|Hi] Hk]; [|done].
        apply (same_dir_None _ _ hsCheckpointTmp) in Hk; [congruence|apply Hv2]. }
      split; [|done]. eapply Forall_impl; [exact Hall|]. apply new_swapped.
    + intros e1 _ _ He1. split; [|done]. apply remains_cons; [by apply new_swapped|]. by eapply Forall_impl.
    + intros d _ [->|Hd]; auto using new_swapped.
  - intros _ e _ _ He. split; [|done]. apply remains_cons; [by apply old_swapped|]. by eapply Forall_impl.
  - intros d _ Hd. auto.
Qed.
End swap.

Lemma writeHSCheckpoint_ends {S : Type} cp b (s : Sys S) :
  json_checkpoint cp = Ok b ->
  ends (writeHSCheckpoint cp) s
    (fun r s' => Forall (swapped s (b ++ [nl])) (remains s') /\ (r = Ok () -> Forall (new_image s (b ++ [nl])) (remains s')))
    (fun d _ => swapped s (b ++ [nl]) d).
Proof.
  intros Hj. unfold writeHSCheckpoint. rewrite Hj. set (good := b ++ [nl]). set (R := old_image s).
  assert (forall l, Forall R l -> Forall (swapped s good) l) as Hl by (intros l Hf; eapply Forall_impl; [exact Hf|apply old_swapped]).
  assert (ignores R hsCheckpointTmp) as Hig by apply old_ignores.
  assert (Forall R (remains s)) as HR.
  { apply Forall_forall. intros d Hd. exists d. split; [done|]. apply agree_refl. }
  assert (R (disk s)) as Hv by (by apply Forall_inv in HR).
  assert (forall (x : bytes), R (<[hsCheckpointTmp := x]> (disk s))) as Hv1.
  { intros x. eapply Hig; [apply agree_insert, agree_refl|done]. }
  apply ends_bind, (ends_change R); [done| | | |].
  { intros i i' Hi. apply (ignores_if_same _ hsCheckpointTmp); [done| |done]. intros d. apply agree_insert, agree_refl. }
  2:{ intros _ e _ _ He. split; [|done]. by apply Hl, remains_cons. }
  2:{ intros d _ Hd. by apply old_swapped. }
  intros e1 _ HR1. apply ends_bind, ends_attempt, (ends_change R); cbn [disk io mem].
  { by apply remains_cons; [apply Hv1|]. }
  { intros i i' Hi. by apply ignores_append. }
  3:{ intros d _ Hd. by apply old_swapped. }
  2:{ intros n e2 _ _ HR2. unfold append_to. rewrite lookup_insert_eq, insert_insert_eq.
      apply ends_bind, ends_attempt, ends_idle; cbn [disk io mem].
      3:{ intros d _ Hd. apply old_swapped. eapply remains_R; [|exact Hd]. by apply remains_cons; [apply Hv1|]. }
      all: intros; apply ends_fail; split; [|done]; apply Hl, remains_cons; [apply Hv1|congruence]. }
  intros e2 _ HR2. unfold append_to. rewrite lookup_insert_eq, insert_insert_eq. simpl app.
  apply ends_bind, ends_attempt, (ends_sync R); cbn [disk io mem]; [done| | |].
  2:{ intros e3 _ _ HR3. apply ends_bind, ends_attempt, ends_idle; cbn [disk io mem].
      3:{ intros d _ Hd. apply old_swapped. eapply remains_R; [|exact Hd]. by apply remains_cons; [apply Hv1|]. }
      all: intros; apply ends_fail; split; [|done]; apply Hl, remains_cons; [apply Hv1|congruence]. }
  2:{ intros d _ [->|Hd]; apply old_swapped; [apply Hv1|done]. }
  intros e3 _ HR3. assert (Forall R (images e3)) as HR3' by (eapply Forall_impl; [exact HR3|]; by intros i [? _]).
  apply ends_bind, ends_idle; cbn [disk io mem].
  - intros e4 _ Hi4. apply swap_ends. apply remains_cons; [split; [apply Hv1|apply lookup_insert_eq]|]. rewrite Hi4.
    eapply Forall_impl; [exact HR3|]. intros i [Hi Hk]. split; [done|]. rewrite (same_file_eq _ _ _ Hk). apply lookup_insert_eq.
  - intros e4 _ _ Hi4. split; [|done]. apply Hl, remains_cons; [apply Hv1|congruence].
  - intros d _ Hd. apply old_swapped. eapply remains_R; [|exact Hd]. by apply remains_cons; [apply Hv1|].
Qed.

(** The engine's checkpoint is replaced atomically: whatever calls fail and
    wherever the machine crashes, what it comes up with is what it could have come
    up with before the write, except that recovery loads the old checkpoint or the
    new one, in full; and once the write has succeeded it loads the new one from
    whatever a crash leaves. *)
Theorem checkpoint_atomic {S : Type} cp b (s : Sys S) :
  json_checkpoint cp = Ok b -> json_uncheckpoint (b ++ [nl]) = Some cp ->
  let d := left_disk (writeHSCheckpoint cp s) in
  (exists d0, d0 ∈ remains s /\
    (stored_checkpoint d = stored_checkpoint d0 \/ stored_checkpoint d = Ok (Some cp)) /\
    forall f, f <> hsCheckpointTmp -> f <> hsCheckpointName -> d !! f = d0 !! f) /\
  (forall s', writeHSCheckpoint cp s = Done (Ok ()) s' -> forall i, i ∈ remains s' -> stored_checkpoint i = Ok (Some cp)).
Proof.
  intros Hj Hu. pose proof (writeHSCheckpoint_ends cp b s Hj) as He. unfold ends in He. simpl.
  assert (forall d, swapped s (b ++ [nl]) d -> exists d0, d0 ∈ remains s /\
    (stored_checkpoint d = stored_checkpoint d0 \/ stored_checkpoint d = Ok (Some cp)) /\
    forall f, f <> hsCheckpointTmp -> f <> hsCheckpointName -> d !! f = d0 !! f) as Hload.
  { intros d (d0 & Hd0 & Hf & Hd). exists d0. split; [done|]. split; [|done].
    destruct Hd as [Hd|Hd]; rewrite !stored_checkpoint_eq, Hd; [by left|right; by rewrite Hu]. }
  destruct (writeHSCheckpoint cp s) as [r s'|d x]; simpl.
  - destruct He as [Hon Hr]. split; [apply Hload; by apply Forall_inv in Hon|].
    intros s'' [= -> <-] i Hi. specialize (Hr eq_refl). eapply remains_R in Hr as (_ & Hn & _); [|exact Hi].
    by rewrite stored_checkpoint_eq, Hn, Hu.
  - split; [by apply Hload|done].
Qed.
End files.

(** ** The identity *)

Section identity.
Context {NJ : NodeJson} {S : Type}.

(** A node keeps its key: once [loadHSIdentity] has returned a key, the next start
    returns the same one, whatever the key generator would give, and a start
    under another id is refused. *)
Lemma identity_stable gen gen' id d priv (m : S) s' :
  (forall f b, json_identity f = Ok b -> json_unidentity b = Some f) ->
  (forall k, gen = Ok k -> length k = PrivateKeySize) ->
  loadHSIdentity gen id (boot d [] m) = Done (Ok priv) s' ->
  loadHSIdentity gen' id (boot (disk s') [] m) = Done (Ok priv) (boot (disk s') [] m) /\
  forall id', id' <> id -> exists e, loadHSIdentity gen' id' (boot (disk s') [] m) = Done (Err e) (boot (disk s') [] m).
Proof.
  intros Hj Hgen E.
  assert (exists b f, disk s' !! hsIdentityFileName = Some b /\ json_unidentity b = Some f /\ ifID f = id /\
    unhex (ifPriv f) = Some priv /\ length priv = PrivateKeySize) as (b & f & Hb & Hf & Hid & Hp & Hl).
  { revert E. unfold loadHSIdentity, read_if_exists, exists_file, ReadFile, content, attempt, dir_empty, lists_nothing,
      WriteFile, OpenTrunc, WriteAppend, FClose, change, idle, respond, boot, mbind, sys_bind, mret, sys_ret, fail. simpl.
    destruct (d !! hsIdentityFileName) as [b|] eqn:Eb.
    - rewrite bool_decide_eq_true_2 by (by eexists). simpl. rewrite Eb.
      destruct (json_unidentity b) as [f|] eqn:Ef; [|done].
      destruct (String.eqb_spec (ifID f) id) as [Hid|]; simpl; [|done].
      destruct (unhex (ifPriv f)) as [p|] eqn:Ep; [|done].
      destruct (Nat.eqb_spec (length p) PrivateKeySize); [|done]. intros [= -> <-]. by exists b, f.
    - rewrite bool_decide_eq_false_2 by (by intros []). simpl. case_bool_decide; [|done].
      destruct gen as [k|]; [|done]. destruct (json_identity (mkHsIdentityFile id (hex k))) as [out|] eqn:Eo; [|done].
      simpl. unfold append_to. rewrite lookup_insert_eq. intros [= <- <-]. simpl. rewrite lookup_insert_eq.
      eexists _, _. split_and!; [done|by apply Hj|done|apply unhex_hex|by apply Hgen]. }
  unfold loadHSIdentity, read_if_exists, exists_file, ReadFile, content, idle, respond, boot, mbind, sys_bind, mret,
    sys_ret, fail. simpl.
  rewrite bool_decide_eq_true_2 by (by eexists). simpl. rewrite Hb, Hf, Hid, String.eqb_refl, Hp, Hl. simpl.
  split; [done|]. intros id' Hne. rewrite (proj2 (String.eqb_neq _ _)) by done. by eexists.
Qed.
End identity.

(** ** An example *)

Definition cp_old : Checkpoint := mkCheckpoint "x" "x" "x" "x" None 0 0 None [].
Definition cp_new : Checkpoint := mkCheckpoint "y" "y" "y" "y" None 0 0 None [].

(** A codec for these two checkpoints. *)
Definition TwoNodeJson : NodeJson := {|
  json_identity _ := Err IOError; json_unidentity _ := None;
  json_checkpoint cp := if String.eqb (cpHead cp) "x" then Ok (key_of "old")
                        else if String.eqb (cpHead cp) "y" then Ok (key_of "new") else Err IOError;
  json_uncheckpoint b := if decide (b = key_of "old" ++ [nl]) then Some cp_old
                         else if decide (b = key_of "new" ++ [nl]) then Some cp_new else None;
  json_pins _ := Err IOError; json_unpins _ := None
|}.

(** The machine crashes in the sync of the new checkpoint, which leaves its first
    byte. *)
Definition cp_sys : Sys () := boot {[hsCheckpointName := key_of "old" ++ [nl]]} [Good; Good; CrashAt 3] ().

Lemma checkpoint_atomic_witness :
  @stored_checkpoint TwoNodeJson (disk cp_sys) = Ok (Some cp_old) /\
  let d := left_disk (@writeHSCheckpoint _ TwoNodeJson cp_new cp_sys) in
  d !! hsCheckpointTmp = Some (key_of "n") /\
  (@stored_checkpoint TwoNodeJson d = @stored_checkpoint TwoNodeJson (disk cp_sys) \/
   @stored_checkpoint TwoNodeJson d = Ok (Some cp_new)).
Proof.
  split; [vm_compute; reflexivity|]. split; [vm_compute; reflexivity|].
  destruct (@checkpoint_atomic TwoNodeJson () cp_new (key_of "new") cp_sys eq_refl eq_refl) as [(d0 & Hd0 & H & _) _].
  apply list_elem_of_singleton in Hd0 as ->. exact H.
Defined.
