(* ===== verification/Harness.v ===== *)
(** * The development harness (internal/harness/harness.go, cmd/harness/main.go)

    It reads a configuration and the task files, and runs an agent and the
    configured checks in turn until the checks pass or the iterations are used up.
    Files, processes and the cancellation of the run are a class over the state of
    everything outside, [Wd]. What is printed on standard output is a text. *)

From Stdlib Require Import Ascii.
From stdpp Require Import pretty.
From S2P Require Import Prelude WalTypes Protocol WalRecovery.

Record AgentConfig : Type := mkAgentConfig { acCommand : string; acArgs : list string }.
Record Config : Type := mkConfig {
  cAgent : AgentConfig;
  cCommands : list string;      (* TestConfig.Commands *)
  cGitEnabled : bool;           (* GitConfig.Enabled *)
  cMaxIterations : Z            (* LoopConfig.MaxIterations *)
}.
Record Files : Type := mkFiles {
  ProjectContext : string; Rules : string; Task : string; AgentTemplate : string; FixTemplate : string
}.
Record RepositoryState : Type := mkRepositoryState { rsStatus : string; rsDiff : string; rsRecent : string }.
Record CommandResult : Type := mkCommandResult { crCommand : string; crOutput : string; crExitCode : Z; crSuccess : bool }.
Record Iteration : Type := mkIteration {
  itNumber : nat; itPrompt : string; itAgentError : option error;
  itVerification : list CommandResult; itGitState : RepositoryState
}.
Record LoopResult : Type := mkLoopResult {
  lrSuccess : bool; lrIterations : list Iteration; lrReason : string; lrLastError : option error; lrFinalState : RepositoryState
}.

Definition noState : RepositoryState := mkRepositoryState "" "" "".

(** ** The configuration *)

(** [strconv.Unquote], and [json.Unmarshal] into a slice of strings: it is given the
    slice it overwrites, of which a null element keeps the old string. *)
Class Quoting : Type := {
  Unquote : bytes -> result string;
  json_unlist : list string -> bytes -> result (list string)
}.

Definition text (s : string) : bytes := String.list_ascii_of_string s.

(** [strings.SplitN] with one character and 2: the text before it and, when there is
    one, the text after it. *)
Fixpoint SplitN2 (c : ascii) (l : bytes) : bytes * option bytes :=
  match l with
  | [] => ([], None)
  | x :: l' => if Ascii.eqb x c then ([], Some l') else let '(a, b) := SplitN2 c l' in (x :: a, b)
  end.

Definition uncomment (line : bytes) : bytes := TrimSpace (SplitN2 "#" line).1.

Definition HasPrefix (c : ascii) (l : bytes) : bool := match l with x :: _ => Ascii.eqb x c | [] => false end.
Definition HasSuffix (c : ascii) (l : bytes) : bool := HasPrefix c (rev l).
Definition Contains (c : ascii) (l : bytes) : bool := existsb (Ascii.eqb c) l.

(** [strings.Trim] with the two brackets. *)
Fixpoint trim_brackets (l : bytes) : bytes :=
  match l with
  | x :: l' => if (Ascii.eqb x "[" || Ascii.eqb x "]")%bool then trim_brackets l' else l
  | [] => []
  end.
Definition Trim (l : bytes) : bytes := rev (trim_brackets (rev (trim_brackets l))).

Definition digit (c : ascii) : option Z :=
  let n := Z.of_nat (nat_of_ascii c) in if ((48 <=? n) && (n <=? 57))%Z%bool then Some (n - 48)%Z else None.
Fixpoint digits (acc : Z) (l : bytes) : option Z :=
  match l with
  | [] => Some acc
  | c :: l' => d ← digit c; digits (acc * 10 + d)%Z l'
  end.

(** [strconv.Atoi]: a sign, digits, and the range of an int. *)
Definition sign (l : bytes) : bool * bytes :=
  match l with
  | "-"%char :: l' => (true, l')
  | "+"%char :: l' => (false, l')
  | _ => (false, l)
  end.
Definition Atoi (l : bytes) : result Z :=
  let '(neg, ds) := sign l in
  match ds, digits 0 ds with
  | _ :: _, Some z =>
      let z := if (neg : bool) then (- z)%Z else z in
      if decide (is_int64 z) then Ok z else Err (Wrapped "strconv.Atoi: value out of range")
  | _, _ => Err (Wrapped "strconv.Atoi: invalid syntax")
  end.

(** [strconv.ParseBool]. *)
Definition ParseBool (l : bytes) : result bool :=
  if decide (l ∈ text <$> ["1"; "t"; "T"; "TRUE"; "true"; "True"]) then Ok true
  else if decide (l ∈ text <$> ["0"; "f"; "F"; "FALSE"; "false"; "False"]) then Ok false
  else Err (Wrapped "strconv.ParseBool: invalid syntax").

Definition rmap {A B} (f : A -> B) (r : result A) : result B := match r with Ok a => Ok (f a) | Err e => Err e end.

Section config.
Context {Q : Quoting}.

Definition setConfig (c : Config) (section key value : bytes) : result Config :=
  let name := section ++ text "." ++ key in
  if decide (name = text "agent.command") then
    rmap (fun s => mkConfig (mkAgentConfig s (acArgs (cAgent c))) (cCommands c) (cGitEnabled c) (cMaxIterations c)) (Unquote value)
  else if decide (name = text "agent.args") then
    rmap (fun l => mkConfig (mkAgentConfig (acCommand (cAgent c)) l) (cCommands c) (cGitEnabled c) (cMaxIterations c)) (json_unlist (acArgs (cAgent c)) value)
  else if decide (name = text "test.commands") then
    rmap (fun l => mkConfig (cAgent c) l (cGitEnabled c) (cMaxIterations c)) (json_unlist (cCommands c) value)
  else if decide (name = text "git.enabled") then
    rmap (fun b => mkConfig (cAgent c) (cCommands c) b (cMaxIterations c)) (ParseBool value)
  else if decide (name = text "loop.max_iterations") then
    rmap (fun z => mkConfig (cAgent c) (cCommands c) (cGitEnabled c) z) (Atoi value)
  else Err (Wrapped "unknown setting").

(** An array that is not closed goes on with the next lines. *)
Definition open_array (value : bytes) : bool := HasPrefix "[" value && negb (Contains "]" value).
Fixpoint join_lines (value : bytes) (lines : list bytes) : bytes * list bytes :=
  match lines with
  | [] => (value, [])
  | l :: lines' => if open_array value then join_lines (value ++ text " " ++ uncomment l) lines' else (value, lines)
  end.

(** The loop over the lines. [None]: out of fuel. *)
Fixpoint parse_lines (fuel : nat) (c : Config) (section : bytes) (lines : list bytes) : option (result Config) :=
  match fuel, lines with
  | _, [] => Some (Ok c)
  | O, _ => None
  | S fuel', l :: lines' =>
      let line := uncomment l in
      match line with
      | [] => parse_lines fuel' c section lines'
      | _ =>
          if (HasPrefix "[" line && HasSuffix "]" line)%bool then parse_lines fuel' c (Trim line) lines'
          else match SplitN2 "=" line with
               | (_, None) => Some (Err (Wrapped "invalid configuration at line"))
               | (k, Some v) =>
                   let '(value, rest) := join_lines (TrimSpace v) lines' in
                   match setConfig c section (TrimSpace k) value with
                   | Err _ => Some (Err (Wrapped "invalid configuration at line"))
                   | Ok c' => parse_lines fuel' c' section rest
                   end
               end
      end
  end.

(** What [os.ReadFile] gives. *)
Inductive FileRead : Type := FileData (b : bytes) | FileMissing | FileError.

Definition config0 : Config := mkConfig (mkAgentConfig "" []) [] true 0.

Definition LoadConfig (file : FileRead) : option (result Config) :=
  match file with
  | FileMissing => Some (Err (Wrapped "harness configuration not found"))
  | FileError => Some (Err (Wrapped "read harness configuration"))
  | FileData data =>
      let lines := split_nl data in
      r ← parse_lines (length lines) config0 [] lines;
      Some match r with
           | Err e => Err e
           | Ok c =>
               if String.eqb (acCommand (cAgent c)) "" then Err (Wrapped "invalid configuration: [agent].command is required")
               else if (length (cCommands c) =? 0)%nat
               then Err (Wrapped "invalid configuration: [test].commands must include at least one command")
               else if (cMaxIterations c <? 1)%Z
               then Err (Wrapped "invalid configuration: [loop].max_iterations must be greater than zero")
               else Ok c
           end
  end.
End config.

(** ** Files and processes *)

(** How a process ended: status 0, an [ExitError] with its code, an [exec.Error]
    (the executable was not found), or another error. *)
Inductive Exit : Type := ExitOk | ExitError (code : Z) | ExecError | ExitOther (e : error).

Class System (Wd : Type) : Type := {
  ReadFile : Wd -> string -> FileRead;
  ctxErr : Wd -> option error;
  CombinedOutput : option string -> string -> list string -> Wd -> string * Exit * Wd
}.

Definition LF : string := String nl "".

Definition limit (value : string) : string :=
  if (String.length value <=? N.to_nat 12000)%nat then value
  else String.substring 0 (N.to_nat 12000) value +:+ LF +:+ "[output truncated]".

Definition BuildPrompt (f : Files) (s : RepositoryState) (feedback : string) (iteration : nat) : string :=
  let prompt := AgentTemplate f +:+ LF +:+ LF +:+ "PROJECT CONTEXT" +:+ LF +:+ ProjectContext f +:+ LF +:+ LF +:+
    "REPOSITORY RULES" +:+ LF +:+ Rules f +:+ LF +:+ LF +:+ "CURRENT TASK" +:+ LF +:+ Task f +:+ LF +:+ LF +:+
    "REPOSITORY STATE" +:+ LF +:+ "Git status:" +:+ LF +:+ rsStatus s +:+ LF +:+ LF +:+ "Git diff:" +:+ LF +:+ rsDiff s +:+ LF +:+ LF +:+
    "Recent commits:" +:+ LF +:+ rsRecent s in
  let prompt := if String.eqb feedback "" then prompt
    else prompt +:+ LF +:+ LF +:+ "PREVIOUS VERIFICATION RESULT" +:+ LF +:+ feedback +:+ LF +:+ LF +:+ FixTemplate f in
  "ITERATION " +:+ pretty (N.of_nat iteration) +:+ LF +:+ LF +:+ prompt.

Definition failure_text (r : CommandResult) : string :=
  if crSuccess r then ""
  else LF +:+ "Command:" +:+ LF +:+ crCommand r +:+ LF +:+ LF +:+ "Exit code:" +:+ LF +:+ pretty (crExitCode r) +:+ LF +:+ LF +:+
    "Output:" +:+ LF +:+ crOutput r +:+ LF.
Definition BuildFeedback (results : list CommandResult) : string :=
  foldl (fun feedback r => feedback +:+ failure_text r) ("VERIFICATION FAILED" +:+ LF) results +:+
  LF +:+ "Fix these failures while preserving the original task requirements.".

Section harness.
Context {Wd : Type} {Sys : System Wd}.

(** [strings.TrimSpace] on a text. *)
Definition trim (s : string) : string := String.string_of_list_ascii (TrimSpace (text s)).

(** [filepath.Join] of a clean absolute directory, as [os.Getwd] gives one, and a clean name. *)
Definition Join (dir name : string) : string := if String.eqb dir "/" then "/" +:+ name else dir +:+ "/" +:+ name.

Definition read_file (w : Wd) (root name : string) (required : bool) : result string :=
  match ReadFile w (Join (Join root ".harness") name) with
  | FileMissing => if required then Err (Wrapped ("read harness file " +:+ name)) else Ok ""
  | FileError => Err (Wrapped ("read harness file " +:+ name))
  | FileData b => Ok (String.string_of_list_ascii (TrimSpace b))
  end.

Definition LoadFiles (w : Wd) (root : string) : result Files :=
  match read_file w root "context.md" false with Err e => Err e | Ok context =>
  match read_file w root "rules.md" false with Err e => Err e | Ok rules =>
  match read_file w root "tasks/current.md" true with Err e => Err e | Ok task =>
  match read_file w root "prompts/agent.md" true with Err e => Err e | Ok agent =>
  match read_file w root "prompts/fix.md" true with Err e => Err e | Ok fix_ =>
    if String.eqb task "" then Err (Wrapped "current harness task is empty")
    else Ok (mkFiles context rules task agent fix_)
  end end end end end.

(** [CommandAgent.Run]. *)
Definition agent_Run (c : AgentConfig) (prompt : string) (w : Wd) : option error * Wd :=
  match CombinedOutput None (acCommand c) (acArgs c ++ [prompt]) w with
  | (_, ExitOk, w') => (None, w')
  | (_, ExecError, w') => (Some (Wrapped "failed to execute configured agent"), w')
  | (_, _, w') => (Some (Wrapped "configured agent failed"), w')
  end.

(** [CommandVerifier.Verify]. *)
Definition check_result (value output : string) (e : Exit) : CommandResult :=
  let code := match e with ExitError c => c | _ => 0%Z end in
  let ok := match e with ExitOk => true | _ => false end in
  mkCommandResult value (limit output) (if (negb ok && (code =? 0)%Z)%bool then 1%Z else code) ok.

Fixpoint Verify (root : string) (commands : list string) (w : Wd) : list CommandResult * Wd :=
  match commands with
  | [] => ([], w)
  | value :: rest =>
      let '(output, e, w) := CombinedOutput (Some root) "/bin/sh" ["-c"; value] w in
      let '(results, w) := Verify root rest w in
      (check_result value output e :: results, w)
  end.

(** [GitRepository.Inspect]. *)
Definition git (root : string) (args : list string) (w : Wd) : string * option error * Wd :=
  let '(output, e, w) := CombinedOutput (Some root) "git" args w in
  (limit output, match e with ExitOk => None | _ => Some (Wrapped "git") end, w).

Definition Inspect (root : string) (enabled : bool) (w : Wd) : result RepositoryState * Wd :=
  if negb enabled then (Ok (mkRepositoryState "Git inspection disabled by configuration." "" ""), w)
  else
    let '(status, err, w) := git root ["status"; "--short"] w in
    match err with
    | Some _ => (Err (Wrapped "git status"), w)
    | None =>
        let '(diff, err, w) := git root ["diff"; "--"] w in
        match err with
        | Some e => (Err e, w)
        | None =>
            let '(recent, err, w) := git root ["log"; "-n"; "5"; "--oneline"] w in
            (match err with Some e => Err e | None => Ok (mkRepositoryState status diff recent) end, w)
        end
    end.

(** ** The loop *)

Record Loop : Type := mkLoop { lFiles : Files; lMax : Z; lAgent : AgentConfig; lRoot : string; lCommands : list string; lGit : bool }.

Definition NewLoop (root : string) (c : Config) (f : Files) : Loop :=
  mkLoop f (cMaxIterations c) (cAgent c) root (cCommands c) (cGitEnabled c).

Definition iteration_banner (number : nat) (max : Z) : string :=
  LF +:+ "=== Iteration " +:+ pretty (N.of_nat number) +:+ "/" +:+ pretty max +:+ " ===" +:+ LF +:+ LF +:+ "[context] Building context" +:+ LF.

(** The iterations from [number] on, [k] of them; [result] and [out] are what the
    earlier ones left. *)
Fixpoint run_from (l : Loop) (k number : nat) (feedback : string) (result : LoopResult) (out : string) (w : Wd)
    : LoopResult * string * Wd :=
  let stop reason err its final out w := (mkLoopResult false its reason err final, out, w) in
  match k with
  | O => stop "maximum iterations reached" (lrLastError result) (lrIterations result) (lrFinalState result) out w
  | S k' =>
      match ctxErr w with
      | Some e => stop "interrupted" (Some e) (lrIterations result) (lrFinalState result) out w
      | None =>
          let out := out +:+ iteration_banner number (lMax l) in
          let '(state, w) := Inspect (lRoot l) (lGit l) w in
          match state with
          | Err e => stop "repository inspection failed" (Some e) (lrIterations result) (lrFinalState result) out w
          | Ok state =>
              let prompt := BuildPrompt (lFiles l) state feedback number in
              let out := out +:+ "[agent] Running agent" +:+ LF in
              let '(err, w) := agent_Run (lAgent l) prompt w in
              match err with
              | Some e =>
                  let it := mkIteration number prompt (Some e) [] noState in
                  stop "agent failed" (Some e) (lrIterations result ++ [it]) (lrFinalState result) out w
              | None =>
                  let out := out +:+ "[git] Inspecting repository changes" +:+ LF +:+ "[verify] Running configured commands" +:+ LF in
                  let '(state, w) := Inspect (lRoot l) (lGit l) w in
                  match state with
                  | Err e => stop "repository inspection failed" (Some e) (lrIterations result) (lrFinalState result) out w
                  | Ok state =>
                      let '(checks, w) := Verify (lRoot l) (lCommands l) w in
                      let its := lrIterations result ++ [mkIteration number prompt None checks state] in
                      if forallb crSuccess checks then (mkLoopResult true its "verification passed" None state, out, w)
                      else
                        let out := out +:+ "[feedback] Verification failed; feedback will be sent to the next iteration" +:+ LF in
                        run_from l k' (S number) (BuildFeedback checks) (mkLoopResult false its "" None state) out w
                  end
              end
          end
      end
  end.

(** [Loop.Run]. *)
Definition Run (l : Loop) (out : string) (w : Wd) : LoopResult * string * Wd :=
  run_from l (Z.to_nat (lMax l)) 1 "" (mkLoopResult false [] "" None noState) out w.

Definition check_line (r : CommandResult) : string := (if crSuccess r then "OK" else "x") +:+ " " +:+ crCommand r +:+ LF.

Definition PrintSummary (error_text : error -> string) (result : LoopResult) : string :=
  LF +:+ (if lrSuccess result then "Harness completed successfully." else "Harness stopped.") +:+ LF +:+
  LF +:+ "Iterations: " +:+ pretty (N.of_nat (length (lrIterations result))) +:+ LF +:+
  (if lrSuccess result then ""
   else LF +:+ "Reason:" +:+ LF +:+ lrReason result +:+ LF +:+
        match lrLastError result with Some e => error_text e +:+ LF | None => "" end) +:+
  match last (lrIterations result) with
  | None => ""
  | Some it => LF +:+ "Verification:" +:+ LF +:+ foldr (fun r s => check_line r +:+ s) "" (itVerification it)
  end +:+
  (if String.eqb (trim (rsStatus (lrFinalState result))) "" then ""
   else LF +:+ "Git status:" +:+ LF +:+ trim (rsStatus (lrFinalState result)) +:+ LF).

(** The arguments main accepts: [run] and, at most, [--verbose] after it. *)
Definition args_ok (args : list string) : bool :=
  match args with
  | _ :: command :: rest =>
      String.eqb command "run" && match rest with [] => true | [flag] => String.eqb flag "--verbose" | _ => false end
  | _ => false
  end.

(** cmd/harness/main.go: the exit status and standard output. [None]: out of fuel. *)
Definition main {Q : Quoting} (error_text : error -> string) (args : list string) (cwd : result string) (w : Wd) : option (Z * string * Wd) :=
  if negb (args_ok args) then Some (2%Z, "", w)
  else match cwd with
  | Err _ => Some (1%Z, "", w)
  | Ok root =>
      config ← LoadConfig (ReadFile w (Join (Join root ".harness") "config.toml"));
      match config with
      | Err _ => Some (1%Z, "", w)
      | Ok config =>
          match LoadFiles w root with
          | Err _ => Some (1%Z, "", w)
          | Ok files =>
              let '(result, out, w) := Run (NewLoop root config files) "" w in
              Some ((if lrSuccess result then 0%Z else 1%Z), out +:+ PrintSummary error_text result, w)
          end
      end
  end.
End harness.

(** * The harness: its configuration is well formed, its loop is bounded and honest

    Reading a configuration always ends; what it accepts has a command, a check and
    a positive number of iterations. The loop runs at most that many iterations, each
    told of the failures of the one before it, and it reports success only when every
    check of its last iteration succeeded. *)

(** ** The configuration *)

Definition config_ok (c : Config) : Prop :=
  acCommand (cAgent c) <> "" /\ cCommands c <> [] /\ (1 <= cMaxIterations c < 2 ^ 63)%Z.

Section configuration.
Context {Q : Quoting}.

Lemma rmap_ok {A B} (f : A -> B) (r : result A) (b : B) :
  rmap f r = Ok b -> exists a, r = Ok a /\ b = f a.
Proof. destruct r as [a|e]; cbn; intros [= <-]; eauto. Qed.

Lemma Atoi_int (l : bytes) (z : Z) : Atoi l = Ok z -> is_int64 z.
Proof.
  unfold Atoi. destruct (sign l) as [neg ds].
  destruct ds as [|d ds]; [done|]. destruct (digits 0 (d :: ds)); [|done]. by case_decide; intros [= <-].
Qed.

Lemma setConfig_int (c c' : Config) (section key value : bytes) :
  is_int64 (cMaxIterations c) -> setConfig c section key value = Ok c' -> is_int64 (cMaxIterations c').
Proof.
  intros Hc. unfold setConfig.
  repeat case_decide; try done; intros (x & Hx & ->)%rmap_ok; cbn; eauto using Atoi_int.
Qed.

Lemma join_lines_shorter (lines : list bytes) (value : bytes) :
  (length (join_lines value lines).2 <= length lines)%nat.
Proof.
  revert value. induction lines as [|l lines IH]; intros value; cbn; [done|].
  case_match; cbn; [|lia]. etransitivity; [apply IH|lia].
Qed.

Lemma parse_lines_ends (fuel : nat) (c : Config) (section : bytes) (lines : list bytes) :
  (length lines <= fuel)%nat -> is_int64 (cMaxIterations c) ->
  exists r, parse_lines fuel c section lines = Some r /\
            forall c', r = Ok c' -> is_int64 (cMaxIterations c').
Proof.
  revert c section lines. induction fuel as [|fuel IH]; intros c section [|l lines] Hf Hc; cbn in *;
    try lia; [by eexists; split; [done|intros ? [= <-]]..|].
  case_match; [apply IH; [lia|done]|].
  case_match; [apply IH; [lia|done]|].
  destruct (SplitN2 _ _) as [k [v|]]; [|by eexists].
  pose proof (join_lines_shorter lines (TrimSpace v)) as Hj.
  destruct (join_lines _ _) as [value rest]. cbn in Hj.
  case_match eqn:Hs; [|by eexists].
  apply IH; [lia|by eapply setConfig_int].
Qed.

Lemma LoadConfig_ok (file : FileRead) :
  exists r, LoadConfig file = Some r /\
            (forall c, r = Ok c -> (exists data, file = FileData data) /\ config_ok c).
Proof.
  destruct file as [data| |]; cbn; [|by eexists..].
  destruct (parse_lines_ends (length (split_nl data)) config0 [] (split_nl data)) as (r & -> & Hr);
    [done|unfold is_int64; cbn; lia|].
  eexists; split; [reflexivity|]. intros c.
  destruct r as [c'|e]; [|done]. destruct (Hr c' eq_refl) as [_ Hmax].
  destruct (String.eqb_spec (acCommand (cAgent c')) "") as [|Hcmd]; [done|].
  case_match eqn:Hlen; [done|]. destruct (Z.ltb_spec (cMaxIterations c') 1); [done|].
  intros [= <-]. split; [eauto|]. repeat split; [done| |lia|apply Hmax].
  intros Hnil. by rewrite Hnil in Hlen.
Qed.

(** C39: reading a configuration file always ends, in an error or in a configuration
    that has an agent command, at least one check, and an iteration limit that is
    positive and an int: whatever the file holds, and whatever its quoted values are
    decoded to. A file that is missing or cannot be read is an error. *)
Theorem LoadConfig_typed (file : FileRead) :
  exists r, LoadConfig file = Some r /\
            (forall c, r = Ok c -> (exists data, file = FileData data) /\ config_ok c).
Proof. apply LoadConfig_ok. Qed.
End configuration.

(** ** The loop *)

Section loop.
Context {Wd : Type} {Sys : System Wd}.

Definition passed (it : Iteration) : Prop := itAgentError it = None /\ Forall (fun r => crSuccess r = true) (itVerification it).
Definition failed (it : Iteration) : Prop := itAgentError it = None /\ Exists (fun r => crSuccess r = false) (itVerification it).

(** The iterations of a run: numbered from [number], the first one told [feedback] and
    each later one the failures of the one before it; when the agent succeeded, every
    configured check was run, in order. *)
Fixpoint history (l : Loop) (number : nat) (feedback : string) (its : list Iteration) : Prop :=
  match its with
  | [] => True
  | it :: its' =>
      itNumber it = number /\
      (exists state, itPrompt it = BuildPrompt (lFiles l) state feedback number) /\
      crCommand <$> itVerification it = match itAgentError it with None => lCommands l | Some _ => [] end /\
      history l (S number) (BuildFeedback (itVerification it)) its'
  end.

(** How a run of at most [k] iterations ends. *)
Inductive ending (k : nat) (r : LoopResult) (its : list Iteration) : Prop :=
| EndPassed rest it : its = rest ++ [it] -> Forall failed rest -> passed it -> (length its <= k)%nat ->
    lrSuccess r = true -> lrReason r = "verification passed" -> lrLastError r = None ->
    lrFinalState r = itGitState it -> ending k r its
| EndMaximum : Forall failed its -> length its = k ->
    lrSuccess r = false -> lrReason r = "maximum iterations reached" -> lrLastError r = None -> ending k r its
| EndAgent rest it e : its = rest ++ [it] -> Forall failed rest -> itAgentError it = Some e -> (length its <= k)%nat ->
    lrSuccess r = false -> lrReason r = "agent failed" -> lrLastError r = Some e -> ending k r its
| EndStopped e : Forall failed its -> (length its < k)%nat ->
    lrSuccess r = false -> lrReason r = "interrupted" \/ lrReason r = "repository inspection failed" ->
    lrLastError r = Some e -> ending k r its.

Lemma ending_cons (k : nat) (r : LoopResult) (it : Iteration) (its : list Iteration) :
  failed it -> ending k r its -> ending (S k) r (it :: its).
Proof.
  intros Hit [rest it' -> | | rest it' e -> |e].
  - apply (EndPassed _ _ _ (it :: rest) it'); cbn in *; auto; lia.
  - apply EndMaximum; cbn; auto.
  - apply (EndAgent _ _ _ (it :: rest) it' e); cbn in *; auto; lia.
  - apply (EndStopped _ _ _ e); cbn; auto; lia.
Qed.

Lemma Verify_commands (root : string) (commands : list string) (w : Wd) :
  crCommand <$> (Verify root commands w).1 = commands.
Proof.
  revert w. induction commands as [|c commands IH]; intros w; cbn; [done|].
  destruct (CombinedOutput _ _ _ w) as [[output e] w1]. specialize (IH w1).
  destruct (Verify root commands w1). cbn in *. by rewrite IH.
Qed.

Lemma checks_failed (checks : list CommandResult) :
  forallb crSuccess checks = false -> Exists (fun r => crSuccess r = false) checks.
Proof.
  induction checks as [|r checks IH]; cbn; [done|].
  destruct (crSuccess r) eqn:E; [right; auto|by left].
Qed.
Lemma checks_passed (checks : list CommandResult) :
  forallb crSuccess checks = true -> Forall (fun r => crSuccess r = true) checks.
Proof. intros H. apply Forall_forall. intros r Hr. apply (proj1 (forallb_forall _ _) H), list_elem_of_In, Hr. Qed.

Lemma run_from_history (l : Loop) (k number : nat) (feedback : string) (result : LoopResult) (out : string) (w : Wd) :
  lrLastError result = None ->
  exists r out' w' new, run_from l k number feedback result out w = (r, out', w') /\
    lrIterations r = lrIterations result ++ new /\ history l number feedback new /\ ending k r new.
Proof.
  revert number feedback result out w.
  induction k as [|k IH]; intros number feedback result out w Hnone; cbn [run_from].
  - do 3 eexists; exists []. rewrite app_nil_r. repeat split; auto. by apply EndMaximum.
  - destruct (ctxErr w) as [e|].
    { do 3 eexists; exists []. rewrite app_nil_r. repeat split; auto. eapply EndStopped; cbn; eauto; lia. }
    destruct (Inspect _ _ w) as [[state|e] w1]; cbn.
    2:{ do 3 eexists; exists []. rewrite app_nil_r. repeat split; auto. eapply EndStopped; cbn; eauto; lia. }
    destruct (agent_Run _ _ w1) as [[e|] w2].
    { do 3 eexists; eexists [_]. repeat split; cbn; eauto.
      eapply (EndAgent _ _ _ []); cbn; eauto; lia. }
    destruct (Inspect _ _ w2) as [[state'|e] w3]; cbn.
    2:{ do 3 eexists; exists []. rewrite app_nil_r. repeat split; auto. eapply EndStopped; cbn; eauto; lia. }
    pose proof (Verify_commands (lRoot l) (lCommands l) w3) as Hcmd.
    destruct (Verify _ _ w3) as [checks w4]. cbn in Hcmd.
    destruct (forallb crSuccess checks) eqn:Hok.
    { do 3 eexists; eexists [_]. repeat split; cbn; eauto.
      eapply (EndPassed _ _ _ []); cbn; eauto; [split; [done|by apply checks_passed]|lia]. }
    match goal with |- context [run_from l k (S number) ?fb ?res ?o ?w0] =>
      destruct (IH (S number) fb res o w0 eq_refl) as (r & out' & w' & new & -> & Hits & Hnew & Hend) end.
    cbn in Hits. do 3 eexists. eexists (_ :: new). repeat split; [by rewrite Hits, <- app_assoc|cbn; eauto..|].
    apply ending_cons; [|done]. split; [done|by apply checks_failed].
Qed.

Lemma Run_history (l : Loop) (out : string) (w : Wd) :
  exists r out' w', Run l out w = (r, out', w') /\
    history l 1 "" (lrIterations r) /\ ending (Z.to_nat (lMax l)) r (lrIterations r).
Proof.
  unfold Run. edestruct run_from_history as (r & out' & w' & new & -> & Hits & Hh & He); [|
    cbn in Hits; rewrite <- Hits in Hh, He; eauto 6]. done.
Qed.

Lemma history_commands (l : Loop) (its : list Iteration) (it : Iteration) (number : nat) (feedback : string) :
  history l number feedback its -> it ∈ its -> itAgentError it = None ->
  crCommand <$> itVerification it = lCommands l.
Proof.
  revert number feedback. induction its as [|it0 its IH]; intros number feedback H Hin Hok; [by apply elem_of_nil in Hin|].
  destruct H as (_ & _ & Hc & H). apply elem_of_cons in Hin as [<-|Hin]; [by rewrite Hok in Hc|eauto].
Qed.

(** C26: a run of the harness makes at most the configured number of iterations, each
    with the prompt built from the failures of the one before it and each running
    every configured check in order; all but the last fail their checks. It reports
    success exactly when the last one passed all of them, and otherwise gives the
    reason: the iterations used up, with every one failed; the agent's error; or the
    cancellation or failed inspection that stopped it. *)
Theorem harness_loop (l : Loop) (out : string) (w : Wd) :
  exists r out' w', Run l out w = (r, out', w') /\
    history l 1 "" (lrIterations r) /\ ending (Z.to_nat (lMax l)) r (lrIterations r).
Proof. apply Run_history. Qed.
End loop.

(** ** The command *)

Lemma length_append (a b : string) : String.length (a +:+ b) = (String.length a + String.length b)%nat.
Proof. induction a as [|c a IH]; [done|]. change (S (String.length (a +:+ b)) = S (String.length a + String.length b)). by rewrite IH. Qed.
Lemma length_prefix (n : nat) (s : string) : (String.length (String.substring 0 n s) <= n)%nat.
Proof. revert s. induction n as [|n IH]; intros [|c s]; cbn; [lia..|]. specialize (IH s). lia. Qed.

(** Output kept for a prompt is at most 12000 bytes and the truncation note. *)
Lemma limit_bounded (value : string) : (String.length (limit value) <= N.to_nat 12019)%nat.
Proof.
  unfold limit. case_match eqn:H; [apply Nat.leb_le in H; lia|].
  rewrite !length_append. pose proof (length_prefix (N.to_nat 12000) value).
  change (String.length LF) with 1%nat. change (String.length "[output truncated]") with 18%nat. lia.
Qed.

(** [main] always returns; with status 0, the last iteration ran every check of the
    configuration, of which there is one at least, and all of them succeeded. *)
Theorem harness_exit {Wd : Type} {Sys : System Wd} {Q : Quoting} (error_text : error -> string)
    (args : list string) (cwd : result string) (w : Wd) :
  exists code out w', main error_text args cwd w = Some (code, out, w') /\
    (code = 0%Z -> exists root c it, cwd = Ok root /\
       LoadConfig (ReadFile w (Join (Join root ".harness") "config.toml")) = Some (Ok c) /\
       cCommands c <> [] /\ passed it /\ crCommand <$> itVerification it = cCommands c).
Proof.
  unfold main. destruct (negb (args_ok args)); [by do 3 eexists|].
  destruct cwd as [root|]; [|by do 3 eexists].
  destruct (LoadConfig_ok (ReadFile w (Join (Join root ".harness") "config.toml"))) as ([c|] & Hc & Hok); rewrite Hc; cbn;
    [|by do 3 eexists].
  destruct (Hok c eq_refl) as (_ & _ & Hne & _).
  destruct (LoadFiles w root) as [f|]; [|by do 3 eexists].
  destruct (Run_history (NewLoop root c f) "" w) as (r & out & w' & -> & Hh & He).
  do 3 eexists; split; [reflexivity|]. intros Hcode.
  destruct He as [rest it Hits _ Hpass _ _| |? ? ? ? ? ? ? Hs|? ? ? Hs]; try (rewrite ?Hs in Hcode; congruence).
  - exists root, c, it. repeat split; [done..|apply Hpass|apply Hpass|].
    eapply (history_commands (NewLoop root c f)); [apply Hh| |apply Hpass]. rewrite Hits. set_solver.
  - destruct (lrSuccess r); congruence.
Qed.

(** ** A run *)

(** Quoted strings without escapes, and an array of at most one of them. *)
Definition quote : ascii := "034"%char.
Definition plain_Unquote (l : bytes) : result string :=
  if (HasPrefix quote l && HasSuffix quote l && (2 <=? length l)%nat)%bool
  then Ok (String.string_of_list_ascii (removelast (tl l))) else Err (Wrapped "invalid syntax").
Definition plain_Quoting : Quoting := {|
  Unquote := plain_Unquote;
  json_unlist := fun _ l =>
    match TrimSpace (Trim l) with [] => Ok [] | e => rmap (fun s => [s]) (plain_Unquote e) end
|}.

(** The configuration of the repository, its array over several lines. *)
Definition sample_config : bytes :=
  let q := [quote] in
  text "[agent]" ++ [nl] ++ text "command = " ++ q ++ text "copilot" ++ q ++ text " # the agent" ++ [nl] ++
  text "[test]" ++ [nl] ++ text "commands = [" ++ [nl] ++ text "  " ++ q ++ text "go test ./..." ++ q ++ [nl] ++ text "]" ++ [nl] ++
  text "[git]" ++ [nl] ++ text "enabled = false" ++ [nl] ++ [nl] ++ text "[loop]" ++ [nl] ++ text "max_iterations = 5".

Example LoadConfig_sample :
  @LoadConfig plain_Quoting (FileData sample_config) =
  Some (Ok (mkConfig (mkAgentConfig "copilot" []) ["go test ./..."] false 5)).
Proof. reflexivity. Qed.

(** A comment sign inside a quoted value cuts it: this value is rejected. *)
Example LoadConfig_hash :
  @LoadConfig plain_Quoting (FileData (text "[agent]" ++ [nl] ++ text "command = " ++ [quote] ++ text "run#1" ++ [quote])) =
  Some (Err (Wrapped "invalid configuration at line")).
Proof. reflexivity. Qed.

(** Outside: a count of the agent's runs. The checks pass from the second one on. *)
Definition demo_System : System nat := {|
  ReadFile := fun _ path =>
    if String.eqb path "/w/.harness/config.toml" then FileData sample_config
    else if String.eqb path "/w/.harness/rules.md" then FileMissing else FileData (text "text");
  ctxErr := fun _ => None;
  CombinedOutput := fun _ command _ runs =>
    if String.eqb command "copilot" then ("", ExitOk, S runs)
    else ("output", (if (2 <=? runs)%nat then ExitOk else ExitError 7), runs)
|}.

Example harness_demo :
  option_map (fun x => (x.1.1, x.2)) (@main nat demo_System plain_Quoting (fun _ => "") ["harness"; "run"] (Ok "/w") 0%nat) =
  Some (0%Z, 2%nat).
Proof. reflexivity. Qed.
